(* ===== verification/_CoqProject ===== *)
-Q . S2P
Prelude.v
Event.v
Credentials.v
Peer.v
Message.v
Methods.v
Connectivity.v
CallSpec.v
ServerCalls.v
ClientCalls.v
Service.v
Rpc.v
ConnMgr.v
Server.v
Keepalive.v
Transport.v
StateManager.v
AddrConn.v
Backoff.v
Options.v
UniClient.v
Protogen.v
GenRead.v
GenWsrpc.v
GenUse.v
GenGrpc.v
GenMain.v
Logger.v
Wsrpclog.v
UniDial.v
Dial.v
Serve.v
Conn.v
Exchange.v
Session.v
ServerSession.v
Pumps.v
Keys.v
Examples.v
TestUtils.v
ClientPumps.v
ClientClose.v
ClientHandlers.v
Connect.v
Client.v
Host.v
