(* ===== verification/Prelude.v ===== *)
(** * wsrpc: a model of the library and the theorems about it

    wsrpc carries RPCs in both directions over one websocket between a client
    and a server that know each other by Ed25519 keys.  A call is an envelope
    with an id; the endpoint that made it keeps the id in a table until the
    response with that id arrives or the caller's context ends.

    ** The parts and how they interact

    - [credentials/] decides which certificates a handshake accepts; [peer/] and
      [Server.UpdatePublicKeys] use its keys, which sit behind a shared pointer.
    - [internal/message/] and [utils.go] build and parse the envelopes.
    - [internal/transport/] moves byte strings over a websocket with a read pump
      and a write pump per connection.
    - [server.go] admits connections ([wshandler]), keeps them in a
      [connectionsManager], reads from them ([handleRead]), serves requests and
      makes calls ([Invoke], [handleMessageResponse], [internal/methods/]).
    - [client.go] keeps one connection up ([addrConn], with
      [internal/backoff/]), publishes its state ([connectivityStateManager],
      [connectivity/]), and serves and makes calls like the server.
    - [uni_client.go] is a second client: one synchronous call at a time.
    - [internal/wsrpcsync/] has the one-shot event both ends use, [service.go]
      the descriptors of services, [serveroptions.go] and [dialoptions.go] the
      options, [logger/] and [wsrpclog/] the loggers.
    - [cmd/protoc-gen-go-wsrpc/] and [cmd/protoc-gen-go-wsrpcgrpc/] print the
      typed stubs, handlers and descriptors that users register and call.

    ** The files

    Each file has one Module of its own name.  In every one the state of the
    component is a Record whose fields are named after the fields of the Go
    struct, or an inductive type of program points; operations keep the names
    of the functions they translate.

    - [Prelude] (this file): outcomes of Go calls, machine integers and bytes,
      goroutines as transition systems, tactics, lemmas on lists and maps.
    - [Event]: [event.go].  [Fire] as one step, and as the accesses of
      concurrent callers under [sync.Once].
    - [Credentials]: [credentials/tls.go].  [PublicKeys] objects in a heap, TLS
      configurations that capture their addresses, [VerifyPeerCertificate].
    - [Peer]: [peer/peer.go].  The peer in a context.
    - [Message]: [message.go], [utils.go] and the types and getters of
      [message.pb.go].  The protobuf library is the class [ProtoLib], its laws
      [ProtoLaws], and [Toy] an instance of both.
    - [Methods]: [methods.go].  The nested call table, and the interface
      [CallTable] that the calls of both endpoints are proved against.
    - [Connectivity]: the states and their names.
    - [CallSpec]: what both call tables are for, as an abstract system.
    - [ServerCalls], [ClientCalls]: [Invoke] and [handleMessageResponse] of
      [server.go] and of [client.go], one action per lock or channel operation.
    - [Service]: [service.go], [register], [validateMessageRequest] and
      [handleMessageRequest] of both endpoints.
    - [Rpc]: the generated stubs, and whole calls from [Invoke] to its result.
    - [ConnMgr]: [connectionsManager] and [removeConnectionsToDeletedKeys].
    - [Server]: [wshandler], [handleRead], [afterWritePump],
      [UpdatePublicKeys], [Stop] and the accessors of [server.go].
    - [Keepalive]: limits of a transport and its read deadline
      ([transport.go] and the two constructors).
    - [Transport]: [websocket_client.go] and [websocket_server.go], a read pump,
      a write pump, writers and closers per side.
    - [StateManager]: [connectivityStateManager], [WaitForReady],
      [WaitForStateChange] and the blocking loop of [DialWithContext].
    - [AddrConn]: [connect], [resetTransport], [createTransport], [teardown],
      [Close] and the three listening goroutines of [client.go].
    - [Backoff]: [backoff.go], over an instance of the backoff library.
    - [Options]: the options of both endpoints and their application.
    - [UniClient]: [retryConnectWithBackoff] and [Invoke] of [uni_client.go].
    - [UniDial]: the rest of [uni_client.go]: [DialUniWithContext], [connect],
      [Close], and the calls of one client in the order of their lock.
    - [Protogen]: what both generators use of [protogen], [Printer]s as lists of
      lines, and the lemmas about printed text.
    - [GenRead]: a reader of generated Go files, line by line, independent of
      the generators.
    - [GenWsrpc], [GenGrpc]: [wsrpc.go] of the two generators, one definition per
      function, printing the text itself.
    - [GenMain]: [main] of the two generators: command line, flags, and the run.
    - [GenUse]: a printed file as a compiler and a server see it: its scopes, its
      declarations, and its descriptors loaded into [Service].
    - [Logger], [Wsrpclog]: [logger/logger.go] and [wsrpclog/logger.go].
    - [Dial]: [DialWithContext] of [client.go] from its options to its return, a
      goroutine next to those of [AddrConn].
    - [Serve]: [Serve] of [server.go], next to the steps of [Server].
    - [Conn]: a websocket connection, a [Transport] at each end with a reliable
      byte stream between them.
    - [Pumps]: the server of [Server] with a [Transport] for every connection.
    - [Exchange]: the calls of either endpoint end to end: its [Invoke]s and response
      handlers behind the interface [Caller], [Conn]s that come and go, both read
      loops ([handleRead]) and the peers' request handlers.
    - [Session]: [ClientCalls] as a [Caller], with the server's handlers;
      [ServerSession]: [ServerCalls] as one, with the handlers of many clients, some
      of which may not run this library.
    - [ClientPumps]: the client's connection of [AddrConn] with a [Transport] for
      every dial that succeeds; [ClientClose]: its [Close], to the end or not.
    - [ClientHandlers]: the goroutines of [ClientConn.handleMessageRequest] next
      to those of [AddrConn], and where their replies go.
    - [Connect]: the constructors of the transports, from dial options to pumps.
    - [Client]: a [ClientConn] as a whole: [AddrConn] with the transports of
      [ClientPumps], [ClientCalls] with the server of [Session], [ClientHandlers].
    - [Host]: a [Server] as a whole: [Server] with the transports of [Pumps],
      [ServerCalls] with the clients of [ServerSession], the goroutines of
      [Server.handleMessageRequest], and the lock [s.mu] that they share.
    - [Keys], [Examples]: [examples/simple/], the keys and the two mains with
      their services; [TestUtils]: [intgtest/utils/testutils.go].

    ** What the theorems show

    - A client's call that is answered returns what the server's method returns
      for that call's own argument, whatever else happens on whatever
      connections; no call is served twice; and a call over a quiet connection
      gets to its end ([Session]).  The same of the server's calls to its clients,
      where no client can answer for another ([ServerSession]).  Each piece of it: a call ends with the remote
      method's result, in both directions ([Rpc]); every answered call
      got one response that arrived under its id, and from its peer
      ([ServerCalls], [ClientCalls], by refinement of [CallSpec]); which calls
      an endpoint answers, and with what ([Service]); envelopes round-trip
      ([Message]); the nested table behaves as a flat one ([Methods]).
    - A handshake accepts the configured keys and no others, at the moment it
      runs ([Credentials]); a message is handled under the key its connection
      authenticated with, and [UpdatePublicKeys] cuts off deleted keys
      ([Server]); on the whole server, every request that is handled and every
      answer that a call returns came from who proved to hold the key they are
      attributed to ([Host.host_authentic]).
    - Messages go through a transport, and from one end of a connection to the
      other, in order and at most once ([Conn]); the pumps end, the callback runs
      once, and [Close] returns when it can ([Transport]); what keeps a
      connection alive, and its limits ([Keepalive], [Options]).
    - [Stop] waits for every connection ([Server]), and returns once the write
      pumps of the connections it closed have made their last few steps
      ([Pumps], which refines [Server]'s view of its transports); watchers
      of connections and of states miss nothing ([ConnMgr], [StateManager]);
      the client's connection moves along its state diagram and its state is
      what the [ClientConn] shows ([AddrConn]).
    - A dial goes to its target under its credentials, and its transport has the
      limits it was given ([Connect]).  What the connection sees of a transport is
      what the transport is ([ClientPumps]); [ClientConn.Close] returns within
      thirteen steps of its wait, but for one case in which it never does
      ([ClientClose]); and a client's reply is written exactly while the connection
      is READY, or IDLE after it ([ClientHandlers]).
    - The parts fit together.  The whole client and the whole server run as each of
      their parts does alone ([Client.client_refines], [Host.host_refines]), so what
      the parts' theorems say holds of them; a call made while the connection is up,
      with the other end answering, is back after eighteen steps, from the start of
      [Invoke] to its return ([Client.client_call_completes],
      [Host.host_call_completes]), and a request of a connected client gets its reply
      in twelve ([Host.host_serves]); what an [Invoke] finds in each state of the
      connection ([Client.invoke_takes_transport]), and what becomes of a reply of
      the server ([Host.host_reply]).
    - The reconnecting clients try again, after known waits ([UniClient],
      [Backoff]); a synchronous dial ends, and with what ([UniDial]).
    - [DialWithContext] returns, and when with a client ([Dial]); [Serve] returns
      after [Stop] and not before ([Serve]).
    - A generated file reads back as the services it was made from
      ([GenWsrpc]), refers only to names it declares, and its stubs call the
      methods they are named after ([GenUse]); the gRPC generator prints all that
      the plain one prints ([GenGrpc]); neither heeds its one flag ([GenMain]).
    - The example server and its clients accept each other's certificates, and
      their calls get through ([Examples]); the helpers of the integration tests
      end, and collect what the calls returned ([TestUtils]).
    - The names of derived loggers, and what the reflective derivations do with
      a method of another type ([Logger]).
    - Theorems that exhibit a reachable state, or a state no action leaves,
      record behaviour the code does not mean to have: a response that comes
      after the caller gave up holds the server's lock for ever
      ([ServerCalls.server_stuck_handler]), two live connections of one key
      ([Server.server_single_connection_race]), a ready connection nobody reads
      ([AddrConn.listen_for_read_misses_ready]), a closed client that shows
      READY ([AddrConn.close_leaves_ready]), remote errors that the synchronous
      client drops ([UniClient.uni_finish_ignores_error]), a second [Stop] that lets
      [Serve] return early ([Serve.second_stop_releases_serve]), services whose
      generated handlers clash ([GenUse.generated_handler_clash]), a [Close] of the
      client that can never return ([ClientClose.client_close_can_hang]), a client
      that dies of a reply while it reconnects
      ([ClientHandlers.client_dies_reconnecting]), a call that a [Close] leaves waiting
      ([Client.close_strands_calls]), a server that stands still for one late response
      ([Host.host_wedged]) or dies of a reply after [Stop] ([Host.host_reply]), and
      others.

    ** Conventions

    An error is its message, a panic a value; see [outcome] below.  Channels and
    locks are state, and a blocked operation is an action that is not enabled.
    The environment (network, timers, contexts, scheduler) chooses the actions,
    so a safety theorem holds for every interleaving.  A critical section that
    cannot block inside is one step.  Goroutines, connections and channels are
    numbered by the schedule, never reused.

    Loops over data are structural, loops over events consume the events, and
    goroutines that run for ever are transition systems.  The one fuel is the
    number of dial attempts that [UniDial.DialUniWithContext] looks at:
    [UniDial.uni_dial_terminates] gives an amount beyond which it does not matter.
    Progress theorems give the steps that lead to the end, with their number
    where it is bounded.  Durations are [Z] with the 64-bit wrap-around written
    out where the code multiplies ([UniClient.next_wait]).

    ** What is not modelled

    The network stack, TLS, [net/http], protobuf, protogen, uuid, zap and the
    backoff library are parameters or choices of the environment.  The mocks, the
    integration tests themselves and the generated protobuf plumbing carry no logic of
    the program; [testify] and [net.Listen] in [TestUtils] are parameters, and so is
    [protogen.Options.Run] in [GenMain].  Memory-model effects below a mutex or channel
    operation are not represented, except in [Event]. *)
From stdpp Require Export base gmap strings list fin_maps relations option.
From stdpp Require Export pretty.
From Stdlib Require Export ZArith Lia.
From Stdlib Require Export Strings.Byte.

(** * Go outcomes

    A Go function that returns [(v, error)] and may panic is modelled by a
    function into [outcome].  An [error] value is its message, the only thing
    the repository observes of one besides being non-nil. *)

Abbreviation error := string (only parsing).

(** The run-time panics the modelled code can raise. *)
Inductive panic :=
  | NilDeref          (* method call or field access through a nil pointer *)
  | CloseOfClosed     (* close of an already closed channel *)
  | NegativeWaitGroup (* sync.WaitGroup counter below zero *)
  | IndexOutOfRange   (* slice or string index out of range *)
  | ExplicitPanic.    (* panic(err) in the source *)

#[export] Instance panic_eq_dec : EqDecision panic.
Proof. solve_decision. Defined.

Inductive outcome (A : Type) :=
  | Ok (a : A)
  | Err (e : error)
  | Panic (p : panic).
Arguments Ok {_} _.
Arguments Err {_} _.
Arguments Panic {_} _.

#[export] Instance outcome_ret : MRet outcome := λ A, Ok.
#[export] Instance outcome_bind : MBind outcome := λ A B f m,
  match m with
  | Ok a => f a
  | Err e => Err e
  | Panic p => Panic p
  end.

#[export] Instance outcome_eq_dec `{EqDecision A} : EqDecision (outcome A).
Proof. solve_decision. Defined.

(** [fmt.Errorf("...: %w", err)]: prefix the message, keep values and panics. *)
Definition wrap_err {A} (msg : error) (m : outcome A) : outcome A :=
  match m with
  | Err e => Err (msg +:+ e)
  | m => m
  end.

Definition is_ok {A} (m : outcome A) : bool :=
  match m with Ok _ => true | _ => false end.

Lemma bind_ok_inv {A B} (m : outcome A) (f : A → outcome B) b :
  m ≫= f = Ok b ↔ ∃ a, m = Ok a ∧ f a = Ok b.
Proof.
  split; [|by intros (a & -> & ?)].
  destruct m; [by eauto|done|done].
Qed.

Lemma is_ok_exists {A} (m : outcome A) : is_ok m = true ↔ ∃ a, m = Ok a.
Proof. split; [|by intros [a ->]]. destruct m; [by eauto|done|done]. Qed.

(** A [chan struct{}] used as a signal is observed only through its being
    closed; closing it twice panics. *)
Definition close_chan (closed : bool) : outcome bool :=
  if closed then Panic CloseOfClosed else Ok true.

(** * Machine integers and durations *)

(** Two's complement wrap-around of Go's [int64] (and [time.Duration]). *)
Definition wrap64 (z : Z) : Z := (z + 2^63) `mod` 2^64 - 2^63.

Definition int64_ok (z : Z) : Prop := (- 2^63 ≤ z < 2^63)%Z.

Lemma wrap64_ok z : int64_ok (wrap64 z).
Proof.
  unfold int64_ok, wrap64.
  pose proof (Z.mod_pos_bound (z + 2^63) (2^64) ltac:(lia)). lia.
Qed.

Lemma wrap64_id z : int64_ok z → wrap64 z = z.
Proof.
  unfold int64_ok, wrap64. intros H. rewrite Z.mod_small by lia. lia.
Qed.

(** ** Bytes *)

Abbreviation bytes := (list byte).

#[export] Instance byte_eq_dec : EqDecision byte := Byte.byte_eq_dec.

#[export] Instance byte_countable : Countable byte.
Proof.
  apply (inj_countable Byte.to_N Byte.of_N). apply Byte.of_to_N.
Defined.

Definition byteZ (b : byte) : Z := Z.of_N (Byte.to_N b).

Lemma byteZ_bound b : (0 ≤ byteZ b < 256)%Z.
Proof. unfold byteZ. pose proof (Byte.to_N_bounded b). lia. Qed.

Lemma byteZ_inj b1 b2 : byteZ b1 = byteZ b2 → b1 = b2.
Proof.
  unfold byteZ. intros H%N2Z.inj.
  apply (f_equal Byte.of_N) in H. rewrite !Byte.of_to_N in H. congruence.
Qed.

(** An 8-bit word has nothing above its low byte. *)
Lemma word8_shiftr z : (0 ≤ z < 256)%Z ↔ (0 ≤ z)%Z ∧ Z.shiftr z 8 = 0%Z.
Proof.
  rewrite Z.shiftr_div_pow2 by lia. change (2^8)%Z with 256%Z.
  split; intros [H0 H1]; (split; [done|]).
  - apply Z.div_small. lia.
  - pose proof (Z.div_mod z 256 ltac:(lia)).
    pose proof (Z.mod_pos_bound z 256 ltac:(lia)). lia.
Qed.

Lemma word8_lor x y : (0 ≤ x < 256 → 0 ≤ y < 256 → 0 ≤ Z.lor x y < 256)%Z.
Proof.
  rewrite !word8_shiftr. intros [? Hx] [? Hy].
  rewrite Z.lor_nonneg, Z.shiftr_lor, Hx, Hy. done.
Qed.

Lemma word8_lxor x y : (0 ≤ x < 256 → 0 ≤ y < 256 → 0 ≤ Z.lxor x y < 256)%Z.
Proof.
  rewrite !word8_shiftr. intros [? Hx] [? Hy].
  rewrite Z.lxor_nonneg, Z.shiftr_lxor, Hx, Hy. done.
Qed.

(** Go's [copy(dst, src)]: overwrite a prefix of [dst], return the count. *)
Definition go_copy (dst src : bytes) : bytes * nat :=
  let n := length dst `min` length src in (take n src ++ drop n dst, n).

Lemma go_copy_length dst src : length (go_copy dst src).1 = length dst.
Proof. unfold go_copy. simpl. rewrite length_app, length_take, length_drop. lia. Qed.

(** [time.Second] and friends, in nanoseconds. *)
Definition nanosecond : Z := 1.
Definition second : Z := 1000000000.
Definition minute : Z := 60 * second.

(** * Goroutines as transition systems

    A component whose goroutines interleave is a state type with an executable
    transition function: an action names the goroutine that moves and the
    choice it makes (which ready [select] branch, what the environment
    answers); [None] means that the action is not enabled. *)
Section System.
Context {State Action : Type} (exec : Action → State → option State).

Definition step (s s' : State) : Prop := ∃ a, exec a s = Some s'.

Fixpoint run (acts : list Action) (s : State) : option State :=
  match acts with
  | [] => Some s
  | a :: acts => exec a s ≫= run acts
  end.

Definition reachable : State → State → Prop := rtc step.

(** Nothing but the actions of [P] is enabled in [s]. *)
Definition only_enabled (P : Action → Prop) (s : State) : Prop :=
  ∀ a s', exec a s = Some s' → P a.

Lemma run_app acts1 acts2 s :
  run (acts1 ++ acts2) s = run acts1 s ≫= run acts2.
Proof.
  revert s. induction acts1 as [|a acts1 IH]; intros s; simpl; [done|].
  destruct (exec a s); simpl; auto.
Qed.

Lemma run_step a acts s s1 : exec a s = Some s1 → run (a :: acts) s = run acts s1.
Proof. simpl. by intros ->. Qed.

Lemma run_then acts1 acts2 s s1 : run acts1 s = Some s1 → run (acts1 ++ acts2) s = run acts2 s1.
Proof. rewrite run_app. by intros ->. Qed.

Lemma run_reachable acts s s' : run acts s = Some s' → reachable s s'.
Proof.
  revert s. induction acts as [|a acts IH]; simpl; intros s H.
  - simplify_eq. apply rtc_refl.
  - destruct (exec a s) as [s1|] eqn:Ha; [|done]. simpl in H.
    apply rtc_l with s1; [by exists a|by apply IH].
Qed.

Lemma reachable_run s s' : reachable s s' → ∃ acts, run acts s = Some s'.
Proof.
  induction 1 as [s|s s1 s' [a Ha] _ [acts IH]]; [by exists []|].
  exists (a :: acts). simpl. by rewrite Ha.
Qed.

(** The state a concrete schedule ends in. *)
Definition final (acts : list Action) (s0 : State) : State :=
  default s0 (run acts s0).

Lemma final_reachable acts s0 :
  bool_decide (is_Some (run acts s0)) = true → reachable s0 (final acts s0).
Proof.
  intros [s Hs]%bool_decide_eq_true. unfold final. rewrite Hs.
  by apply run_reachable with acts.
Qed.

(** Invariants by induction on the execution. *)
Lemma reachable_invariant (I : State → Prop) s0 s :
  I s0 →
  (∀ a s s', I s → exec a s = Some s' → I s') →
  reachable s0 s → I s.
Proof.
  intros H0 Hstep Hr. induction Hr as [|? ? ? [a Ha] _ IH]; eauto.
Qed.

(** The same, where a step may use an invariant established before. *)
Lemma reachable_invariant_under (J I : State → Prop) s0 s :
  (∀ s, reachable s0 s → J s) →
  I s0 →
  (∀ a s s', J s → I s → exec a s = Some s' → I s') →
  reachable s0 s → I s.
Proof.
  intros HJ H0 Hstep. revert s. apply (rtc_ind_r I s0); [done|].
  intros s1 s2 Hr [a Ha] IH. eauto.
Qed.

(** In the run that led from [s0] to [s], an action was taken in a state as [P] says. *)
Definition past (s0 : State) (P : Action → State → Prop) (s : State) : Prop :=
  ∃ a s1 s2, reachable s0 s1 ∧ P a s1 ∧ exec a s1 = Some s2 ∧ reachable s2 s.

Lemma past_now s0 P a s s' : reachable s0 s → P a s → exec a s = Some s' → past s0 P s'.
Proof. intros Hr HP He. exists a, s, s'. split_and!; [done..|apply rtc_refl]. Qed.

Lemma past_step s0 P a s s' : past s0 P s → exec a s = Some s' → past s0 P s'.
Proof.
  intros (b&s1&s2&Hr&HP&Hb&Hr2) He. exists b, s1, s2. split_and!; [done..|].
  eapply rtc_r; [done|by exists a].
Qed.

Lemma past_mono s0 (P Q : Action → State → Prop) s :
  (∀ a s, P a s → Q a s) → past s0 P s → past s0 Q s.
Proof. intros HPQ (b&s1&s2&Hr&HP&Hb&Hr2). exists b, s1, s2. auto. Qed.

(** Reflexive-transitive facts between an earlier and a later state. *)
Lemma reachable_rel (R : relation State) `{!PreOrder R} s s' :
  (∀ a s s', exec a s = Some s' → R s s') →
  reachable s s' → R s s'.
Proof.
  intros Hstep Hr. induction Hr as [|? ? ? [a Ha] _ IH]; [done|].
  etrans; eauto.
Qed.
End System.

Arguments run {_ _} _ !_ _ /.

(** Forward simulation: every step of the detailed system is matched by some
    steps of the abstract one. *)
Section Simulation.
Context {C A Act : Type} (exec : Act → C → option C) (astep : relation A)
  (R : C → A → Prop).
Hypothesis simulates : ∀ a c c' s,
  R c s → exec a c = Some c' → ∃ s', rtc astep s s' ∧ R c' s'.

Lemma simulation c c' s :
  R c s → reachable exec c c' → ∃ s', rtc astep s s' ∧ R c' s'.
Proof.
  intros HR Hr. revert s HR.
  induction Hr as [c|c1 c2 c3 [a Ha] _ IH]; intros s HR.
  - exists s. split; [apply rtc_refl|done].
  - destruct (simulates _ _ _ _ HR Ha) as (s1 & Hs1 & HR1).
    destruct (IH _ HR1) as (s2 & Hs2 & HR2).
    exists s2. split; [by etrans|done].
Qed.
End Simulation.

(** * Tactics *)

(** Break the matches of a hypothesis that says how a step was taken. *)
Ltac break_in H :=
  repeat match type of H with
  | context [match ?x with _ => _ end] =>
      let E := fresh "E" in destruct x eqn:E; try discriminate H
  end; simplify_eq/=.

(** Split every [match] and [if] of the goal and hypotheses. *)
Ltac split_matches := repeat (case_match || case_decide); simplify_eq/=.

(** Close a goal that an evaluation decides. *)
Ltac evaluate := vm_compute; done.

(** A fact about the final state of a concrete schedule. *)
Ltac at_state :=
  lazymatch goal with
  | |- reachable _ _ _ => apply final_reachable; evaluate
  | |- _ => vm_compute; reflexivity
  end.

(** * The hint database of the development *)
Create HintDb wsrpc.
Create Rewrite HintDb wsrpc.
#[export] Hint Resolve wrap64_ok : wsrpc.
#[export] Hint Constructors rtc : wsrpc.

(** * Lists and maps *)

(** Last-writer-wins insertion of a list of bindings, as a loop of map
    assignments does it. *)
Definition insert_all `{Countable K} {V} (kvs : list (K * V)) (m : gmap K V) : gmap K V :=
  foldl (λ m kv, <[kv.1 := kv.2]> m) m kvs.

Lemma insert_all_cons `{Countable K} {V} k v (kvs : list (K * V)) m :
  insert_all ((k, v) :: kvs) m = insert_all kvs (<[k:=v]> m).
Proof. done. Qed.

Lemma insert_all_app `{Countable K} {V} (l1 l2 : list (K * V)) m :
  insert_all (l1 ++ l2) m = insert_all l2 (insert_all l1 m).
Proof. apply foldl_app. Qed.

Lemma insert_all_not_in `{Countable K} {V} (kvs : list (K * V)) m k :
  k ∉ kvs.*1 → insert_all kvs m !! k = m !! k.
Proof.
  revert m. induction kvs as [|[k' v] kvs IH]; intros m Hk; [done|].
  rewrite fmap_cons in Hk. apply not_elem_of_cons in Hk as [Hne Hk].
  by rewrite insert_all_cons, IH, lookup_insert_ne.
Qed.

(** The binding that survives is the last one of the list for its key. *)
Lemma insert_all_last `{Countable K} {V} (l1 l2 : list (K * V)) m k v :
  k ∉ l2.*1 → insert_all (l1 ++ (k, v) :: l2) m !! k = Some v.
Proof.
  intros Hk. rewrite insert_all_app, insert_all_cons, insert_all_not_in by done.
  apply lookup_insert_eq.
Qed.

Lemma insert_all_elem `{Countable K} {V} (kvs : list (K * V)) m k v :
  insert_all kvs m !! k = Some v → (k, v) ∈ kvs ∨ m !! k = Some v.
Proof.
  revert m. induction kvs as [|[k' v'] kvs IH]; intros m Hl; [by right|].
  rewrite insert_all_cons in Hl. apply IH in Hl as [Hin|Hl]; [left; by right|].
  destruct (decide (k' = k)) as [->|Hne].
  - rewrite lookup_insert_eq in Hl. simplify_eq. left. by left.
  - rewrite lookup_insert_ne in Hl by done. by right.
Qed.

Lemma insert_all_NoDup `{Countable K} {V} (kvs : list (K * V)) m k v :
  NoDup kvs.*1 → (k, v) ∈ kvs → insert_all kvs m !! k = Some v.
Proof.
  intros Hn (l1&l2&->)%list_elem_of_split. apply insert_all_last.
  rewrite fmap_app, fmap_cons in Hn. apply NoDup_app in Hn as (_&_&Hn).
  by apply NoDup_cons in Hn as [Hn _].
Qed.

(** ** Lists *)

Lemma filter_bind {A B} (P : B → Prop) `{∀ x, Decision (P x)} (f : A → list B) l :
  filter P (l ≫= f) = l ≫= λ x, filter P (f x).
Proof. induction l as [|x l IH]; [done|]. by rewrite !bind_cons, filter_app, IH. Qed.

Lemma bind_singleton {A B} (f : A → B) l : (l ≫= λ x, [f x]) = f <$> l.
Proof. induction l as [|x l IH]; [done|]. by rewrite bind_cons, IH. Qed.

Lemma bind_empty {A B} (l : list A) : (l ≫= λ _, @nil B) = [].
Proof. by induction l. Qed.

Lemma NoDup_fmap_elem {A B} (f : A → B) l x y :
  NoDup (f <$> l) → x ∈ l → y ∈ l → f x = f y → x = y.
Proof.
  induction l as [|z l IH]; [intros _ []%not_elem_of_nil|]. rewrite fmap_cons, NoDup_cons, !elem_of_cons.
  intros [Hz Hl] [->|Hx] [->|Hy] Hf; [done|..|by apply IH]; destruct Hz; apply list_elem_of_fmap; eauto.
Qed.

Lemma NoDup_fmap_key {A B C} (f : A → B) (g : A → C) l :
  (∀ x y, x ∈ l → y ∈ l → f x = f y → g x = g y) → NoDup (g <$> l) → NoDup (f <$> l).
Proof.
  intros Hf Hg. apply NoDup_fmap_2_strong; [|by eapply NoDup_fmap_1].
  intros x y Hx Hy ?%Hf; [|done..]. by eapply NoDup_fmap_elem.
Qed.

Lemma sublist_bind {A B} (f : A → list B) l l' :
  l `sublist_of` l' → (l ≫= f) `sublist_of` (l' ≫= f).
Proof.
  induction 1 as [|x l l' _ IH|x l l' _ IH]; [done|..]; rewrite !bind_cons.
  - by apply sublist_app.
  - by apply sublist_inserts_l.
Qed.
