(* ===== verification/Event.v ===== *)
(** [internal/wsrpcsync/event.go]: the one-shot [Event].

    [Fire] is modelled twice: as the sequential function the server uses at one
    of its atomic steps ([Fire]), and as the system of goroutines that call it
    concurrently, one action per shared-memory access ([exec]), in which
    [sync.Once] lets one caller run the body and makes the others wait. *)
From S2P Require Import Prelude.

Module Event.

(** [sync.Once]: free, with its body running, or done. *)
Inductive once := OnceFree | OnceRunning | OnceDone.

#[export] Instance once_eq_dec : EqDecision once.
Proof. solve_decision. Defined.

Record Event := mkEvent {
  fired : Z;     (* int32, accessed atomically *)
  c : bool;      (* the channel: closed or not *)
  o : once;
}.

Definition NewEvent : Event := mkEvent 0 false OnceFree.

(** [Done] returns the channel; a receiver observes whether it is closed. *)
Definition Done (e : Event) : bool := c e.

Definition HasFired (e : Event) : bool := bool_decide (fired e = 1%Z).

(** The statements of the [Once] body. *)
Definition store_fired (e : Event) : Event := mkEvent 1 (c e) (o e).
Definition close_c (e : Event) : outcome Event :=
  closed ← close_chan (c e); Ok (mkEvent (fired e) closed (o e)).
Definition set_once (st : once) (e : Event) : Event := mkEvent (fired e) (c e) st.

(** One call of [Fire] with no other call in between; [None] when another
    goroutine is inside the [Once] body, which blocks the caller. *)
Definition Fire (e : Event) : option (outcome (Event * bool)) :=
  match o e with
  | OnceFree =>
      Some (e' ← close_c (store_fired (set_once OnceRunning e));
            Ok (set_once OnceDone e', true))
  | OnceRunning => None
  | OnceDone => Some (Ok (e, false))
  end.

(** Where a goroutine is inside [Fire]. *)
Inductive fire_pc :=
  | FDo                     (* about to enter [e.o.Do] *)
  | FStore                  (* in the body: about to store [fired] *)
  | FClose                  (* in the body: about to close [e.c] *)
  | FSetRet                 (* in the body: about to set [ret] *)
  | FLeave (ret : bool)     (* leaving [e.o.Do] *)
  | FReturned (ret : bool). (* [Fire] has returned [ret] *)

#[export] Instance fire_pc_eq_dec : EqDecision fire_pc.
Proof. solve_decision. Defined.

Record sys := mkSys {
  ev : Event;
  calls : gmap nat fire_pc;
  crash : option panic;
}.

Definition init : sys := mkSys NewEvent ∅ None.

Inductive action :=
  | Call (t : nat)   (* goroutine [t] calls [Fire] *)
  | Move (t : nat).  (* goroutine [t] takes its next step *)

Definition at_pc (t : nat) (pc : fire_pc) (e : Event) (s : sys) : sys :=
  mkSys e (<[t := pc]> (calls s)) (crash s).

Definition move (t : nat) (s : sys) (pc : fire_pc) : option sys :=
  match pc with
  | FDo =>
      match o (ev s) with
      | OnceFree => Some (at_pc t FStore (set_once OnceRunning (ev s)) s)
      | OnceRunning => None
      | OnceDone => Some (at_pc t (FReturned false) (ev s) s)
      end
  | FStore => Some (at_pc t FClose (store_fired (ev s)) s)
  | FClose =>
      match close_c (ev s) with
      | Ok e => Some (at_pc t FSetRet e s)
      | Panic p => Some (mkSys (ev s) (calls s) (Some p))
      | Err _ => None
      end
  | FSetRet => Some (at_pc t (FLeave true) (ev s) s)
  | FLeave ret => Some (at_pc t (FReturned ret) (set_once OnceDone (ev s)) s)
  | FReturned _ => None
  end.

Definition exec (a : action) (s : sys) : option sys :=
  if crash s is Some _ then None else
  match a with
  | Call t =>
      if calls s !! t is Some _ then None
      else Some (at_pc t FDo (ev s) s)
  | Move t => calls s !! t ≫= move t s
  end.

(** ** The invariant *)

(** What the caller inside the body has done so far. *)
Definition body_progress (pc : fire_pc) (e : Event) : Prop :=
  match pc with
  | FStore => fired e = 0%Z ∧ c e = false
  | FClose => fired e = 1%Z ∧ c e = false
  | FSetRet | FLeave true => fired e = 1%Z ∧ c e = true
  | _ => False
  end.

Definition once_inv (s : sys) : Prop :=
  match o (ev s) with
  | OnceFree =>
      fired (ev s) = 0%Z ∧ c (ev s) = false ∧
      ∀ t pc, calls s !! t = Some pc → pc = FDo
  | OnceRunning =>
      ∃ t pc, calls s !! t = Some pc ∧ body_progress pc (ev s) ∧
        ∀ t' pc', t' ≠ t → calls s !! t' = Some pc' → pc' = FDo
  | OnceDone =>
      fired (ev s) = 1%Z ∧ c (ev s) = true ∧
      ∃ t, calls s !! t = Some (FReturned true) ∧
        ∀ t' pc', t' ≠ t → calls s !! t' = Some pc' →
          pc' = FDo ∨ pc' = FReturned false
  end.

Definition inv (s : sys) : Prop := crash s = None ∧ once_inv s.

(** Remaining steps of a call: the measure of the termination proof. *)
Definition pc_rank (pc : fire_pc) : nat :=
  match pc with
  | FDo => 5 | FStore => 4 | FClose => 3 | FSetRet => 2 | FLeave _ => 1
  | FReturned _ => 0
  end.

Definition rank (s : sys) : nat :=
  map_fold (λ _ pc n, pc_rank pc + n) 0 (calls s).

Definition all_returned (s : sys) : Prop :=
  ∀ t pc, calls s !! t = Some pc → ∃ b, pc = FReturned b.

(** ** The atomic specification

    An event and the calls made so far with what they returned; a call takes
    effect in one piece, by the sequential [Fire]. *)
Definition aspec : Type := Event * gmap nat (option bool).

Inductive astep : aspec → aspec → Prop :=
  | a_call t e m :
      m !! t = None → astep (e, m) (e, <[t := None]> m)
  | a_fire t e m e' b :
      m !! t = Some None → Fire e = Some (Ok (e', b)) →
      astep (e, m) (e', <[t := Some b]> m).

Definition returned (pc : fire_pc) : option bool :=
  match pc with FReturned b => Some b | _ => None end.

(** The atomic event changes when the body has been left. *)
Definition abs_event (e : Event) : Event :=
  match o e with OnceDone => e | _ => NewEvent end.

Definition refines (s : sys) (a : aspec) : Prop :=
  inv s ∧ a = (abs_event (ev s), returned <$> calls s).

(** ** Preservation *)

Lemma event_init_inv : inv init.
Proof. split; [done|]. repeat split; done. Qed.

Lemma event_call_inv t s s' : inv s → exec (Call t) s = Some s' → inv s'.
Proof.
  intros [Hc Ho] He. unfold exec in He. rewrite Hc in He.
  destruct (calls s !! t) eqn:Ht; [done|]. simplify_eq/=.
  split; [done|]. unfold once_inv, at_pc in *. simpl.
  destruct (o (ev s)).
  - destruct Ho as (?&?&Ho). split_and!; [done..|].
    intros t' pc [[??]|[??]]%lookup_insert_Some; naive_solver.
  - destruct Ho as (t'&pc&Ht'&Hb&Ho). exists t', pc.
    rewrite lookup_insert_ne by congruence. split_and!; [done..|].
    intros t'' pc'' ? [[? ?]|[? ?]]%lookup_insert_Some; naive_solver.
  - destruct Ho as (?&?&t'&Ht'&Ho). split_and!; [done..|].
    exists t'. rewrite lookup_insert_ne by congruence. split; [done|].
    intros t'' pc'' ? [[? ?]|[? ?]]%lookup_insert_Some; naive_solver.
Qed.

(** The goroutine inside the body is the only one that can move past [FDo]. *)
Lemma event_move_inv t s s' : inv s → exec (Move t) s = Some s' → inv s'.
Proof.
  intros [Hc Ho] He. unfold exec in He. rewrite Hc in He.
  destruct (calls s !! t) as [pc|] eqn:Ht; [|done]. simpl in He.
  unfold inv, once_inv, move, close_c, close_chan in *.
  destruct (o (ev s)) eqn:Hs.
  - destruct Ho as (Hf&Hcl&Ho). apply Ho in Ht as Hpc. subst pc. simplify_eq/=.
    split; [done|]. exists t, FStore. rewrite lookup_insert_eq.
    split_and!; [done..|]. intros t' pc' ?. rewrite lookup_insert_ne by done. eauto.
  - destruct Ho as (t'&pc'&Ht'&Hb&Ho).
    destruct (decide (t = t')) as [<-|Hne].
    + simplify_map_eq.
      destruct pc' as [| | | |[]|]; simpl in Hb; try done; destruct Hb as [Hf Hcl];
        rewrite ?Hcl in He; simplify_eq/=; (split; [done|]); rewrite ?Hs.
      1-3: eexists t, _; rewrite lookup_insert_eq; split_and!; [done..|];
           intros t' pc' ?; rewrite lookup_insert_ne by done; eauto.
      split_and!; [done..|]. exists t. rewrite lookup_insert_eq. split; [done|].
      intros t' pc' ?. rewrite lookup_insert_ne by done. eauto.
    + pose proof (Ho t pc Hne Ht). by subst pc.
  - destruct Ho as (Hf&Hcl&t'&Ht'&Ho).
    destruct (decide (t = t')) as [<-|Hne]; [by simplify_map_eq|].
    destruct (Ho t pc Hne Ht) as [-> | ->]; [|done]. simplify_eq/=.
    split; [done|]. rewrite Hs. split_and!; [done..|].
    exists t'. rewrite lookup_insert_ne by done. split; [done|].
    intros t'' pc'' ? [[? ?]|[? ?]]%lookup_insert_Some; naive_solver.
Qed.

Lemma event_reachable_inv s : reachable exec init s → inv s.
Proof.
  apply reachable_invariant; [apply event_init_inv|].
  intros [t|t] s1 s2; eauto using event_call_inv, event_move_inv.
Qed.

(** ** Ranks *)

Lemma rank_insert t pc pc' s e cr :
  calls s !! t = Some pc →
  rank (mkSys e (<[t := pc']> (calls s)) cr) + pc_rank pc = rank s + pc_rank pc'.
Proof.
  intros Ht. unfold rank. simpl. rewrite <- (insert_delete_eq (calls s) t).
  rewrite (map_fold_insert_L _ _ t pc' (delete t (calls s)));
    [|intros; lia|apply lookup_delete_eq].
  rewrite <- (insert_delete_id (calls s) t pc Ht) at 2.
  rewrite map_fold_insert_L; [lia|intros; lia|apply lookup_delete_eq].
Qed.

Lemma event_move_rank t s s' :
  inv s → exec (Move t) s = Some s' → rank s' < rank s.
Proof.
  intros [Hc Ho] He. pose proof (event_move_inv t s s' (conj Hc Ho) He) as [Hc' _].
  unfold exec in He. rewrite Hc in He.
  destruct (calls s !! t) as [pc|] eqn:Ht; [|done]. simpl in He.
  destruct pc; simpl in He; break_in He; try done; unfold at_pc;
    match goal with
    | |- context [mkSys ?e (<[t := ?pc']> _) ?cr] =>
        pose proof (rank_insert t _ pc' s e cr Ht) as Hr; cbn [pc_rank] in Hr; lia
    end.
Qed.


(** From a state of the invariant, a pending call can always be advanced by
    some goroutine: nobody waits for the [Once] forever. *)
Lemma event_some_move s t pc :
  inv s → calls s !! t = Some pc → (∀ b, pc ≠ FReturned b) →
  ∃ t' s', exec (Move t') s = Some s'.
Proof.
  intros [Hc Ho] Ht Hpc. unfold once_inv in Ho.
  assert (∀ t' pc', calls s !! t' = Some pc' → is_Some (move t' s pc') →
    ∃ t' s', exec (Move t') s = Some s') as Hgo.
  { intros t' pc' Ht' [s' Hs']. exists t', s'. unfold exec. by rewrite Hc, Ht'. }
  destruct (o (ev s)) eqn:Hs.
  - destruct Ho as (_&_&Ho). apply (Hgo t pc Ht). rewrite (Ho _ _ Ht). simpl.
    rewrite Hs. eauto.
  - destruct Ho as (t'&pc'&Ht'&Hb&_). apply (Hgo t' pc' Ht').
    destruct pc'; simpl in *; try done; eauto.
    destruct Hb as [_ Hcl]. unfold close_c. rewrite Hcl. simpl. eauto.
  - destruct Ho as (_&_&t'&Ht'&Ho). destruct (decide (t = t')) as [->|Hne].
    { simplify_map_eq. naive_solver. }
    destruct (Ho _ _ Hne Ht) as [-> | ->]; [|naive_solver].
    apply (Hgo t FDo Ht). simpl. rewrite Hs. eauto.
Qed.

Lemma in_body_running s t pc :
  inv s → calls s !! t = Some pc → pc ≠ FDo → (∀ b, pc ≠ FReturned b) →
  o (ev s) = OnceRunning ∧ body_progress pc (ev s).
Proof.
  intros [_ Ho] Ht Hdo Hret. unfold once_inv in Ho. destruct (o (ev s)).
  - destruct Ho as (_&_&Ho). by apply Ho in Ht.
  - destruct Ho as (t'&pc'&Ht'&Hb&Ho). destruct (decide (t = t')) as [->|Hne].
    + by simplify_map_eq.
    + by apply (Ho _ _ Hne) in Ht.
  - destruct Ho as (_&_&t'&Ht'&Ho). destruct (decide (t = t')) as [->|Hne].
    + simplify_map_eq. by destruct (Hret true).
    + destruct (Ho _ _ Hne Ht) as [-> | ->]; [done|]. by destruct (Hret false).
Qed.

(** A step inside [Fire] is invisible in the specification; the steps that
    return are its atomic calls. *)
Lemma event_move_refines t pc s s' :
  inv s → calls s !! t = Some pc → move t s pc = Some s' → crash s' = None →
  rtc astep (abs_event (ev s), returned <$> calls s)
            (abs_event (ev s'), returned <$> calls s').
Proof.
  intros Hi Ht He Hc'.
  assert ((returned <$> calls s) !! t = Some (returned pc)) as Hm.
  { by rewrite lookup_fmap, Ht. }
  destruct (decide (pc = FDo)) as [->|Hdo].
  { simpl in He. unfold abs_event. destruct (o (ev s)) eqn:Hs; simplify_eq/=;
      rewrite fmap_insert; simpl; rewrite ?Hs.
    - by rewrite insert_id.
    - apply rtc_once, a_fire; [done|]. unfold Fire. by rewrite Hs. }
  assert (∀ b, pc ≠ FReturned b) as Hret by (by intros b ->).
  destruct (in_body_running s t pc Hi Ht Hdo Hret) as [Hs Hb].
  unfold abs_event. destruct pc as [| | | |[]|]; simpl in Hb; try done;
    destruct Hb as [Hf Hcl]; simpl in He; unfold close_c in He;
    rewrite ?Hcl in He; simplify_eq/=; rewrite fmap_insert; simpl; rewrite Hs.
  1-3: by rewrite insert_id.
  apply rtc_once, a_fire; [done|]. unfold set_once. by rewrite Hf, Hcl.
Qed.

Lemma event_exec_refines a s s' sa :
  refines s sa → exec a s = Some s' →
  ∃ sa', rtc astep sa sa' ∧ refines s' sa'.
Proof.
  intros [Hi ->] He. assert (inv s') as Hi'.
  { destruct a; eauto using event_call_inv, event_move_inv. }
  exists (abs_event (ev s'), returned <$> calls s'). split; [|done].
  pose proof Hi as [Hc _]. destruct Hi' as [Hc' _].
  unfold exec in He. rewrite Hc in He.
  destruct a as [t|t]; destruct (calls s !! t) as [pc|] eqn:Ht; try done.
  - simplify_eq/=. rewrite fmap_insert. apply rtc_once, a_call.
    by rewrite lookup_fmap, Ht.
  - by eapply event_move_refines.
Qed.

(** ** Theorems *)

(** whatever the interleaving of concurrent [Fire] calls, no call panics by
    closing the channel twice, at most one call returns [true], a returned call
    leaves the [Done] channel closed and [HasFired] true, and a closed channel
    implies that [HasFired] is already true. *)
Theorem fire_once s :
  reachable exec init s →
  crash s = None ∧
  (∀ t1 t2, calls s !! t1 = Some (FReturned true) →
    calls s !! t2 = Some (FReturned true) → t1 = t2) ∧
  (∀ t b, calls s !! t = Some (FReturned b) →
    Done (ev s) = true ∧ HasFired (ev s) = true ∧
    ∃ t', calls s !! t' = Some (FReturned true)) ∧
  (Done (ev s) = true → HasFired (ev s) = true).
Proof.
  intros [Hc Ho]%event_reachable_inv. unfold once_inv, Done, HasFired in *.
  split; [done|]. destruct (o (ev s)).
  - destruct Ho as (Hf&Hcl&Ho). rewrite Hcl.
    split_and!; [intros t1 t2 Ht1; by apply Ho in Ht1|
                 intros t b Ht; by apply Ho in Ht|done].
  - destruct Ho as (t'&pc&Ht'&Hb&Ho).
    assert (∀ t b, calls s !! t ≠ Some (FReturned b)) as Hno.
    { intros t b Ht. destruct (decide (t = t')) as [->|Hne].
      - by simplify_map_eq.
      - by apply (Ho _ _ Hne) in Ht. }
    split_and!; [intros t1 t2 Ht1; by apply Hno in Ht1|
                 intros t b Ht; by apply Hno in Ht|].
    intros Hcl. case_bool_decide as Hf; [done|]. exfalso.
    destruct pc as [| | | |[]|]; simpl in Hb; intuition congruence.
  - destruct Ho as (Hf&Hcl&t'&Ht'&Ho). rewrite Hf, Hcl.
    split_and!; [|by eauto|done].
    assert (∀ t, calls s !! t = Some (FReturned true) → t = t') as Huniq.
    { intros t Ht. destruct (decide (t = t')) as [|Hne]; [done|].
      by destruct (Ho _ _ Hne Ht). }
    intros t1 t2 ->%Huniq ->%Huniq. done.
Qed.

(** no call of [Fire] waits forever.  In a reachable state either every
    call has returned, or some goroutine can take a step; and every step of a
    call strictly decreases a measure, so without new calls the steps end. *)
Theorem fire_terminates s :
  reachable exec init s →
  (all_returned s ∨ ∃ t s', exec (Move t) s = Some s') ∧
  (∀ t s', exec (Move t) s = Some s' → rank s' < rank s).
Proof.
  intros Hi%event_reachable_inv. split; [|by eauto using event_move_rank].
  destruct (decide (map_Forall (λ _ pc, pc_rank pc = 0) (calls s))) as [Hall|Hno].
  - left. intros t pc Ht. apply Hall in Ht. destruct pc; naive_solver.
  - apply map_not_Forall in Hno as (t&pc&Ht&Hr); [|apply _].
    right. apply (event_some_move s t pc Hi Ht). by intros b ->.
Qed.

(** concurrent calls of [Fire] refine an atomic [Fire]: every reachable
    state corresponds to a run of the specification in which each call happens
    in one piece, in some order, with the same return values. *)
Theorem fire_refines_atomic s :
  reachable exec init s →
  ∃ a, rtc astep (NewEvent, ∅) a ∧ refines s a.
Proof.
  apply (simulation exec astep refines); [intros; by eapply event_exec_refines|].
  split; [apply event_init_inv|]. unfold init. simpl. by rewrite fmap_empty.
Qed.

(** Three callers: the second wait while the first runs the body. *)
Definition demo : list action :=
  [Call 0; Call 1; Move 0; Call 2; Move 0; Move 0; Move 0; Move 0; Move 2; Move 1].

Definition demo_state : sys := final exec demo init.

Lemma event_demo_calls :
  calls demo_state =
    {[0 := FReturned true; 1 := FReturned false; 2 := FReturned false]}.
Proof. evaluate. Qed.

Lemma event_demo_reachable : reachable exec init demo_state.
Proof. apply final_reachable. evaluate. Qed.

Lemma fire_once_witness :
  calls demo_state !! 1 = Some (FReturned false) ∧
  Done (ev demo_state) = true ∧ HasFired (ev demo_state) = true.
Proof.
  split; [evaluate|].
  destruct (fire_once demo_state event_demo_reachable) as (_&_&Hret&_).
  destruct (Hret 1 false) as (?&?&_); [evaluate|done].
Defined.

Lemma fire_terminates_witness :
  all_returned demo_state ∨ ∃ t s', exec (Move t) demo_state = Some s'.
Proof. apply (fire_terminates demo_state event_demo_reachable). Defined.

Lemma fire_refines_atomic_witness :
  ∃ a, rtc astep (NewEvent, ∅) a ∧ refines demo_state a.
Proof. apply (fire_refines_atomic demo_state event_demo_reachable). Defined.

End Event.
