(* ===== verification/Credentials.v ===== *)
(** [credentials/tls.go] and [credentials/credentials.go]: key lists, mutual
    TLS configurations and the certificate check.

    A [*PublicKeys] is a pointer: the closure that [VerifyPeerCertificate]
    installs in a [tls.Config] keeps the pointer, and [Replace] writes through
    it.  The pointers are therefore addresses of an explicit heap. *)
From S2P Require Import Prelude.

Module Credentials.

Definition PublicKeySize : nat := 32.   (* ed25519.PublicKeySize *)
Definition PrivateKeySize : nat := 64.  (* ed25519.PrivateKeySize *)

(** [StaticSizedPublicKey] is [[32]byte]; [static_key] is its type invariant. *)
Abbreviation StaticSizedPublicKey := bytes (only parsing).
Definition static_key (k : StaticSizedPublicKey) : Prop := length k = PublicKeySize.

(** [crypto/subtle], at the width the library computes with. *)
Definition ConstantTimeByteEq (x y : Z) : Z :=
  Z.shiftr ((Z.lxor x y - 1) mod 2^32) 31.

Definition xor_acc (v : Z) (xy : byte * byte) : Z :=
  Z.lor v (Z.lxor (byteZ xy.1) (byteZ xy.2)).

Definition ConstantTimeCompare (x y : bytes) : Z :=
  if negb (length x =? length y)%nat then 0
  else ConstantTimeByteEq (foldl xor_acc 0%Z (zip x y)) 0.

(** ** Keys *)

Record PrivateKey := mkPrivateKey { key : bytes }.

Definition invalid_length (len expected : nat) : error :=
  "invalid key length: " +:+ pretty len +:+ ", expected: " +:+ pretty expected.

Definition ValidPrivateKeyFromEd25519 (k : bytes) : outcome PrivateKey :=
  if negb (length k =? PrivateKeySize)%nat
  then Err (invalid_length (length k) PrivateKeySize)
  else Ok (mkPrivateKey k).

(** The [PublicKeys] objects and the next free address. *)
Record heap := mkHeap { next : nat; objs : gmap nat (list bytes) }.

Definition alloc (v : list bytes) (h : heap) : nat * heap :=
  (next h, mkHeap (S (next h)) (<[next h := v]> (objs h))).

Definition heap_ok (h : heap) : Prop :=
  ∀ l v, objs h !! l = Some v → l < next h.

(** The loop that checks every length before anything is allocated. *)
Fixpoint check_lengths (keys : list bytes) : outcome unit :=
  match keys with
  | [] => Ok tt
  | k :: keys =>
      if negb (length k =? PublicKeySize)%nat
      then Err (invalid_length (length k) PublicKeySize)
      else check_lengths keys
  end.

Definition ValidPublicKeysFromEd25519 (keys : list bytes) (h : heap) :
    outcome (nat * heap) :=
  _ ← check_lengths keys; Ok (alloc keys h).

(** [Keys]; the pointer is dereferenced. *)
Definition Keys (r : nat) (h : heap) : outcome (list bytes) :=
  match objs h !! r with Some ks => Ok ks | None => Panic NilDeref end.

Definition Replace (r pubs : nat) (h : heap) : outcome heap :=
  _ ← Keys r h; ks ← Keys pubs h;
  Ok (mkHeap (next h) (<[r := ks]> (objs h))).

Definition isValidPublicKey (r : nat) (pub : bytes) (h : heap) : outcome bool :=
  ks ← Keys r h;
  Ok (existsb (λ vpub, (0 <? ConstantTimeCompare pub vpub)%Z) ks).

Definition ToStaticallySizedPublicKey (pubKey : bytes) : outcome StaticSizedPublicKey :=
  let '(result, n) := go_copy (replicate PublicKeySize x00) pubKey in
  if negb (PublicKeySize =? n)%nat then Err "copying public key failed"
  else Ok result.

(** ** Certificates *)

Inductive PublicKeyAlgorithm := UnknownPublicKeyAlgorithm | RSA | DSA | ECDSA | Ed25519.

#[export] Instance PublicKeyAlgorithm_eq_dec : EqDecision PublicKeyAlgorithm.
Proof. solve_decision. Defined.

(** The dynamic type of [x509.Certificate.PublicKey]. *)
Inductive any_public_key := PKEd25519 (k : bytes) | PKOther.

Record Certificate := mkCertificate {
  cert_alg : PublicKeyAlgorithm;
  cert_key : any_public_key;
}.

Definition pubKeyFromCert (cert : Certificate) : outcome bytes :=
  if decide (cert_alg cert = Ed25519) then
    match cert_key cert with
    | PKEd25519 pub => Ok pub
    | PKOther => Err "invalid ed25519 public key"
    end
  else Err "requires an ed25519 public key".

Definition PubKeyFromCert (cert : Certificate) : outcome StaticSizedPublicKey :=
  pubKey ← pubKeyFromCert cert; ToStaticallySizedPublicKey pubKey.

(** The fields of [tls.Config] the repository sets.  The verification closure
    is the pointer it captured. *)
Inductive ClientAuthType := NoClientCert | RequireAnyClientCert.
Definition VersionTLS13 : Z := 0x0304.

Record tlsConfig := mkConfig {
  Certificates : list bytes;
  InsecureSkipVerify : bool;
  MaxVersion : Z;
  MinVersion : Z;
  VerifyClosure : nat;
  ClientAuth : ClientAuthType;
}.

Record TransportCredentials := NewTLS {
  Config : option tlsConfig;  (* a nil pointer in the zero value *)
  creds_keys : option nat;    (* the PublicKeys pointer *)
}.

Definition hex_digit (n : nat) : Ascii.ascii :=
  default Ascii.zero (String.get n "0123456789abcdef").

(** [%x] of a byte slice. *)
Fixpoint hex (b : bytes) : string :=
  match b with
  | [] => ""
  | x :: b =>
      String (hex_digit (Z.to_nat (byteZ x `div` 16)))
        (String (hex_digit (Z.to_nat (byteZ x `mod` 16))) (hex b))
  end.

Section TLS.
(** [crypto/x509] and the signer, which are not modelled: creating a
    self-signed certificate and parsing one. *)
Context {Signer : Type} (signer_of : bytes → Signer)
  (CreateCertificate : Signer → outcome bytes)
  (ParseCertificate : bytes → outcome Certificate).

Definition newMinimalX509Cert (signer : Signer) : outcome (list bytes) :=
  encodedCert ← CreateCertificate signer; Ok [encodedCert].

Definition newMutualTLSConfig (signer : Signer) (pubs : nat) : outcome tlsConfig :=
  cert ← newMinimalX509Cert signer;
  Ok (mkConfig cert true VersionTLS13 VersionTLS13 pubs NoClientCert).

Definition set_client_auth (a : ClientAuthType) (c : tlsConfig) : tlsConfig :=
  mkConfig (Certificates c) (InsecureSkipVerify c) (MaxVersion c) (MinVersion c)
    (VerifyClosure c) a.

Definition NewClientTLSSigner (signer : Signer) (pubs : nat) : outcome tlsConfig :=
  newMutualTLSConfig signer pubs.

Definition NewClientTLSConfig (priv : PrivateKey) (pubs : nat) : outcome tlsConfig :=
  newMutualTLSConfig (signer_of (key priv)) pubs.

Definition NewServerTLSSigner (signer : Signer) (pubs : nat) : outcome tlsConfig :=
  c ← newMutualTLSConfig signer pubs; Ok (set_client_auth RequireAnyClientCert c).

Definition NewServerTLSConfig (priv : PrivateKey) (pubs : nat) : outcome tlsConfig :=
  c ← newMutualTLSConfig (signer_of (key priv)) pubs;
  Ok (set_client_auth RequireAnyClientCert c).

(** Running the closure that [VerifyPeerCertificate] returned for [r], in the
    heap of the moment. *)
Definition VerifyPeerCertificate (r : nat) (rawCerts : list bytes) (h : heap) :
    outcome unit :=
  match rawCerts with
  | [raw] =>
      cert ← ParseCertificate raw;
      pk ← pubKeyFromCert cert;
      ok ← isValidPublicKey r pk h;
      if ok : bool then Ok tt else Err ("unknown public key on cert " +:+ hex pk)
  | _ => Err "required exactly one client certificate"
  end.
End TLS.

(** ** The comparison *)

Lemma byte_eq_zero v : (0 ≤ v < 256)%Z →
  ConstantTimeByteEq v 0 = if decide (v = 0%Z) then 1%Z else 0%Z.
Proof.
  intros Hv. unfold ConstantTimeByteEq. rewrite Z.lxor_0_r. case_decide as H0.
  - by subst v.
  - rewrite Z.mod_small by lia. rewrite Z.shiftr_div_pow2 by lia.
    apply Z.div_small. lia.
Qed.

Lemma xor_acc_range l v :
  (0 ≤ v < 256)%Z → (0 ≤ foldl xor_acc v l < 256)%Z.
Proof.
  revert v. induction l as [|[x y] l IH]; intros v Hv; simpl; [done|].
  apply IH. unfold xor_acc. apply word8_lor; [done|].
  apply word8_lxor; apply byteZ_bound.
Qed.

(** The accumulator stays zero exactly while the bytes agree. *)
Lemma xor_acc_zero x y v :
  length x = length y →
  foldl xor_acc v (zip x y) = 0%Z ↔ v = 0%Z ∧ x = y.
Proof.
  revert y v. induction x as [|a x IH]; intros [|b y] v Hl; try done; simpl.
  { naive_solver. }
  rewrite IH by (simpl in Hl; lia). unfold xor_acc at 1. simpl.
  rewrite Z.lor_eq_0_iff, Z.lxor_eq_0_iff.
  split; [intros [[-> Hab%byteZ_inj] ->]; by subst|].
  by intros [-> [= -> ->]].
Qed.

Lemma ConstantTimeCompare_eq x y :
  ConstantTimeCompare x y = if decide (x = y) then 1%Z else 0%Z.
Proof.
  unfold ConstantTimeCompare.
  destruct (Nat.eqb_spec (length x) (length y)) as [Hl|Hl]; simpl.
  - rewrite byte_eq_zero by (apply xor_acc_range; lia).
    pose proof (xor_acc_zero x y 0 Hl). repeat case_decide; naive_solver.
  - case_decide; [by subst|done].
Qed.

Lemma isValidPublicKey_spec r pub h ks :
  objs h !! r = Some ks → isValidPublicKey r pub h = Ok (bool_decide (pub ∈ ks)).
Proof.
  intros Hr. unfold isValidPublicKey, Keys. rewrite Hr. simpl. f_equal.
  clear Hr. induction ks as [|k ks IH]; [done|]. simpl.
  rewrite IH, ConstantTimeCompare_eq.
  destruct (decide (pub = k)) as [->|Hk]; simpl.
  - symmetry. apply bool_decide_eq_true. by left.
  - apply bool_decide_ext. rewrite elem_of_cons. naive_solver.
Qed.

(** ** Keys *)

Lemma check_lengths_ok keys :
  check_lengths keys = Ok tt ↔ Forall static_key keys.
Proof.
  unfold static_key. induction keys as [|k keys IH]; simpl; [done|].
  rewrite Forall_cons, <- IH.
  destruct (Nat.eqb_spec (length k) PublicKeySize); simpl; naive_solver.
Qed.

Lemma check_lengths_no_panic keys p : check_lengths keys ≠ Panic p.
Proof.
  induction keys as [|k keys IH]; simpl; [done|]. by case_match.
Qed.

Lemma ToStatic_ok pub :
  PublicKeySize ≤ length pub →
  ToStaticallySizedPublicKey pub = Ok (take PublicKeySize pub).
Proof.
  intros Hl. unfold ToStaticallySizedPublicKey, go_copy.
  rewrite length_replicate, Nat.min_l, Nat.eqb_refl by done. simpl negb.
  by rewrite drop_ge, app_nil_r by (rewrite length_replicate; done).
Qed.

Lemma ToStatic_short pub :
  length pub < PublicKeySize →
  ToStaticallySizedPublicKey pub = Err "copying public key failed".
Proof.
  intros Hl. unfold ToStaticallySizedPublicKey, go_copy.
  rewrite length_replicate, Nat.min_r by lia.
  by destruct (Nat.eqb_spec PublicKeySize (length pub)); [lia|].
Qed.

Lemma ToStatic_id pub : static_key pub → ToStaticallySizedPublicKey pub = Ok pub.
Proof.
  unfold static_key. intros Hl. rewrite ToStatic_ok by lia.
  by rewrite take_ge by lia.
Qed.

Lemma alloc_lookup ks h :
  objs (alloc ks h).2 !! (alloc ks h).1 = Some ks.
Proof. apply lookup_insert_eq. Qed.

Lemma alloc_old ks h l v :
  heap_ok h → objs h !! l = Some v → objs (alloc ks h).2 !! l = Some v.
Proof.
  intros Hok Hl. simpl. rewrite lookup_insert_ne; [done|].
  apply Hok in Hl. lia.
Qed.

Lemma alloc_heap_ok ks h : heap_ok h → heap_ok (alloc ks h).2.
Proof.
  intros Hok l v. simpl. intros [[<- _]|[_ Hl]]%lookup_insert_Some; [lia|].
  apply Hok in Hl. lia.
Qed.

Lemma Replace_ok r pubs h ks0 ks :
  objs h !! r = Some ks0 → objs h !! pubs = Some ks →
  Replace r pubs h = Ok (mkHeap (next h) (<[r := ks]> (objs h))).
Proof. intros H1 H2. unfold Replace, Keys. by rewrite H1, H2. Qed.

#[export] Hint Resolve ToStatic_id alloc_heap_ok alloc_lookup : wsrpc.

(** ** Theorems *)

Section Verification.
Context (ParseCertificate : bytes → outcome Certificate).

Lemma pubKeyFromCert_ok cert k :
  pubKeyFromCert cert = Ok k ↔ cert_alg cert = Ed25519 ∧ cert_key cert = PKEd25519 k.
Proof.
  unfold pubKeyFromCert. case_decide; [|by split; [|intros [? _]]].
  destruct (cert_key cert); naive_solver.
Qed.

Lemma verify_single r raw h ks cert pk :
  objs h !! r = Some ks → ParseCertificate raw = Ok cert →
  pubKeyFromCert cert = Ok pk →
  VerifyPeerCertificate ParseCertificate r [raw] h =
    if decide (pk ∈ ks) then Ok tt
    else Err ("unknown public key on cert " +:+ hex pk).
Proof.
  intros Hr Hp Hk. simpl. rewrite Hp. simpl. rewrite Hk. simpl.
  rewrite (isValidPublicKey_spec _ _ _ _ Hr). simpl.
  rewrite <- (decide_bool_decide (pk ∈ ks)). by destruct (bool_decide (pk ∈ ks)).
Qed.

(** C16: The certificate check passes exactly for one certificate that parses,
    carries an Ed25519 key, and whose key is in the list the captured pointer
    holds at that moment; the check never panics on a valid pointer. *)
Theorem verify_peer_iff r rawCerts h ks :
  objs h !! r = Some ks →
  VerifyPeerCertificate ParseCertificate r rawCerts h = Ok tt ↔
  ∃ raw cert pk, rawCerts = [raw] ∧ ParseCertificate raw = Ok cert ∧
    cert_alg cert = Ed25519 ∧ cert_key cert = PKEd25519 pk ∧ pk ∈ ks.
Proof.
  intros Hr. split.
  - destruct rawCerts as [|raw [|]]; try done. intros Hv.
    pose proof Hv as (cert&Hp&Hv2)%bind_ok_inv.
    apply bind_ok_inv in Hv2 as (pk&Hk&_).
    rewrite (verify_single _ _ _ _ _ _ Hr Hp Hk) in Hv. case_decide; [|done].
    apply pubKeyFromCert_ok in Hk. naive_solver.
  - intros (raw&cert&pk&->&Hp&Ha&Hk&Hin).
    rewrite (verify_single r raw h ks cert pk); [by rewrite decide_True|done..|].
    by apply pubKeyFromCert_ok.
Qed.

Context {Signer : Type} (CreateCertificate : Signer → outcome bytes).

(** Replacing the keys behind the pointer a TLS configuration captured
    changes what that configuration accepts to exactly what the new key list
    accepts, without touching the configuration; closures over other pointers
    are unaffected. *)
Theorem replace_reaches_config signer r pubs h h' cfg rawCerts r' :
  newMutualTLSConfig CreateCertificate signer r = Ok cfg →
  Replace r pubs h = Ok h' →
  VerifyPeerCertificate ParseCertificate (VerifyClosure cfg) rawCerts h' =
    VerifyPeerCertificate ParseCertificate pubs rawCerts h ∧
  (r' ≠ r → VerifyPeerCertificate ParseCertificate r' rawCerts h' =
    VerifyPeerCertificate ParseCertificate r' rawCerts h).
Proof.
  intros (cert&_&[= <-])%bind_ok_inv Hrep. simpl.
  unfold Replace, Keys in Hrep.
  destruct (objs h !! r) as [old|] eqn:Hr; [|done]. simpl in Hrep.
  destruct (objs h !! pubs) as [ks|] eqn:Hp; [|done]. simplify_eq/=.
  unfold VerifyPeerCertificate, isValidPublicKey, Keys. simpl.
  split; [by rewrite lookup_insert_eq, Hp|].
  intros Hne. by rewrite lookup_insert_ne by done.
Qed.

Context (signer_of : bytes → Signer) (Public : Signer → bytes).

(** [crypto/x509], for Ed25519 signers: parsing the self-signed certificate
    gives back the signer's public key. *)
Hypothesis x509_ed25519 : ∀ s raw, CreateCertificate s = Ok raw →
  ParseCertificate raw = Ok (mkCertificate Ed25519 (PKEd25519 (Public s))).

(** C17: Mutual TLS end to end: a server configured with a validated key list
    demands a client certificate and accepts the certificate chain a client
    configuration presents exactly when the client's public key is in the
    list, whatever objects are allocated afterwards. *)
Theorem mutual_tls_accepts skeys keys h l h1 scfg csigner cpubs ccfg :
  heap_ok h →
  ValidPublicKeysFromEd25519 keys h = Ok (l, h1) →
  NewServerTLSConfig signer_of CreateCertificate skeys l = Ok scfg →
  NewClientTLSSigner CreateCertificate csigner cpubs = Ok ccfg →
  ClientAuth scfg = RequireAnyClientCert ∧
  (∀ ks, VerifyPeerCertificate ParseCertificate (VerifyClosure scfg)
     (Certificates ccfg) (alloc ks h1).2 = Ok tt ↔ Public csigner ∈ keys).
Proof.
  intros Hh (_&_&[= <- <-])%bind_ok_inv (sc&Hsc&[= <-])%bind_ok_inv
    (cert&Hcert&[= <-])%bind_ok_inv.
  apply bind_ok_inv in Hsc as (scert&_&[= <-]).
  apply bind_ok_inv in Hcert as (raw&Hraw&[= <-]).
  split; [done|]. intros ks. cbn [set_client_auth VerifyClosure Certificates].
  rewrite (verify_single _ _ _ keys
    (mkCertificate Ed25519 (PKEd25519 (Public csigner))) (Public csigner));
    [|apply alloc_old; [by apply alloc_heap_ok|apply alloc_lookup]
     |by apply x509_ed25519|by apply pubKeyFromCert_ok].
  case_decide; split; done.
Qed.
End Verification.

(** Key lists: construction succeeds exactly for 32-byte keys, returns a
    pointer to those very keys, and then every key converts to the fixed-size
    form without loss (so the conversion of a stored key cannot fail). *)
Theorem valid_public_keys keys h :
  match ValidPublicKeysFromEd25519 keys h with
  | Ok (l, h1) => Forall static_key keys ∧ Keys l h1 = Ok keys ∧
      Forall (λ k, ToStaticallySizedPublicKey k = Ok k) keys
  | Err e => ¬ Forall static_key keys ∧
      ∃ k, k ∈ keys ∧ e = invalid_length (length k) PublicKeySize
  | Panic _ => False
  end.
Proof.
  unfold ValidPublicKeysFromEd25519.
  destruct (check_lengths keys) as [[]|e|p] eqn:Hc; simpl.
  - apply check_lengths_ok in Hc. split_and!; [done| |].
    + unfold Keys. simpl. by rewrite lookup_insert_eq.
    + eapply Forall_impl; [done|]. eauto with wsrpc.
  - split; [by rewrite <- check_lengths_ok, Hc|].
    clear h. induction keys as [|k keys IH]; [done|]. simpl in Hc.
    case_match; simplify_eq; [exists k; split; [by left|done]|].
    destruct (IH Hc) as (k'&?&?). exists k'. split; [by right|done].
  - by apply check_lengths_no_panic in Hc.
Qed.

(** [ToStaticallySizedPublicKey] on every length: shorter keys are refused,
    longer keys are silently truncated, and a result always has 32 bytes. *)
Theorem to_static_total pub :
  ToStaticallySizedPublicKey pub =
    (if decide (length pub < PublicKeySize) then Err "copying public key failed"
     else Ok (take PublicKeySize pub)) ∧
  ∀ k, ToStaticallySizedPublicKey pub = Ok k → static_key k.
Proof.
  unfold static_key. case_decide as Hl.
  - rewrite ToStatic_short by done. done.
  - rewrite ToStatic_ok by lia. split; [done|]. intros k [= <-].
    rewrite length_take. lia.
Qed.

(** ** Witnesses

    A toy [x509]: a certificate is the public key itself, and the signer of a
    private key is its second half. *)
Definition toy_signer (priv : bytes) : bytes := drop 32 priv.
Definition toy_create (s : bytes) : outcome bytes := Ok s.
Definition toy_parse (raw : bytes) : outcome Certificate :=
  Ok (mkCertificate Ed25519 (PKEd25519 raw)).

Definition key1 : bytes := replicate 32 x01.
Definition key2 : bytes := replicate 32 x02.
Definition heap0 : heap := mkHeap 0 ∅.
Definition heap1 : heap := mkHeap 2 {[0 := [key1]; 1 := [key2]]}.

Definition heap2 : heap := mkHeap 2 (<[0 := [key2]]> (objs heap1)).
Definition config0 : tlsConfig :=
  mkConfig [key2] true VersionTLS13 VersionTLS13 0 NoClientCert.

Lemma verify_peer_iff_witness :
  VerifyPeerCertificate toy_parse 0 [key1] heap1 = Ok tt.
Proof.
  apply (verify_peer_iff toy_parse 0 [key1] heap1 [key1]); [reflexivity|].
  exists key1, (mkCertificate Ed25519 (PKEd25519 key1)), key1.
  split_and!; try reflexivity. by left.
Defined.

Lemma replace_reaches_config_witness :
  VerifyPeerCertificate toy_parse (VerifyClosure config0) [key2] heap1 ≠ Ok tt ∧
  VerifyPeerCertificate toy_parse (VerifyClosure config0) [key2] heap2 = Ok tt.
Proof.
  split; [by vm_compute|].
  destruct (replace_reaches_config toy_parse toy_create key2 0 1 heap1 heap2
    config0 [key2] 7) as [-> _]; reflexivity.
Defined.

Lemma toy_x509 s raw : toy_create s = Ok raw →
  toy_parse raw = Ok (mkCertificate Ed25519 (PKEd25519 (id s))).
Proof. intros H. injection H as <-. reflexivity. Qed.

Lemma mutual_tls_accepts_witness :
  let scfg := mkConfig [toy_signer key2] true VersionTLS13 VersionTLS13 0
                RequireAnyClientCert in
  let ccfg := mkConfig [key1] true VersionTLS13 VersionTLS13 0 NoClientCert in
  VerifyPeerCertificate toy_parse (VerifyClosure scfg) (Certificates ccfg)
    (alloc [key2] (alloc [key1] heap0).2).2 = Ok tt.
Proof.
  intros scfg ccfg.
  destruct (mutual_tls_accepts toy_parse toy_create toy_signer id toy_x509
    (mkPrivateKey key2) [key1] heap0 0 (alloc [key1] heap0).2 scfg key1 0 ccfg)
    as [_ Hv]; [by intros l v|reflexivity..|].
  apply Hv. by left.
Defined.

End Credentials.
