(* ===== verification/Peer.v ===== *)
(** [peer/peer.go]: the peer of an RPC, carried in a [context.Context].

    A context is the chain of [context.WithValue] layers; [Value] searches it
    from the innermost layer outwards, as package [context] documents. *)
From S2P Require Import Prelude.

Module Peer.

Record Peer := mkPeer { PublicKey : bytes }.

(** Keys are compared with their dynamic type: [peerKey{}] is private to the
    package, so no other package's key equals it. *)
Inductive ctx_key := peerKey | otherKey (name : string).

#[export] Instance ctx_key_eq_dec : EqDecision ctx_key.
Proof. solve_decision. Defined.

(** Dynamic values: a [*Peer] (possibly nil), or something else. *)
Inductive ctx_value := PeerPtr (p : option Peer) | OtherValue.

Inductive Context :=
  | Background
  | WithValue (parent : Context) (k : ctx_key) (v : ctx_value).

Fixpoint Value (ctx : Context) (k : ctx_key) : option ctx_value :=
  match ctx with
  | Background => None
  | WithValue parent k' v => if decide (k' = k) then Some v else Value parent k
  end.

Definition NewContext (ctx : Context) (p : option Peer) : Context :=
  WithValue ctx peerKey (PeerPtr p).

(** The type assertion [.( *Peer)] and its [ok]. *)
Definition FromContext (ctx : Context) : option Peer * bool :=
  match Value ctx peerKey with
  | Some (PeerPtr p) => (p, true)
  | _ => (None, false)
  end.

Definition NewCallContext (ctx : Context) (pubkey : bytes) : Context :=
  NewContext ctx (Some (mkPeer pubkey)).

(** Layers that other packages put around a context. *)
Definition layers (kvs : list (string * ctx_value)) (ctx : Context) : Context :=
  foldr (λ kv ctx, WithValue ctx (otherKey kv.1) kv.2) ctx kvs.

Lemma Value_layers kvs ctx : Value (layers kvs ctx) peerKey = Value ctx peerKey.
Proof. induction kvs as [|[k v] kvs IH]; simpl; [done|]. by rewrite IH. Qed.

(** The peer put in a context is the one read back, through any values other
    packages layer on top and whatever peer the outer contexts carried; a
    context in which only other packages put values has no peer. *)
Theorem peer_roundtrip kvs ctx pubkey :
  FromContext (layers kvs (NewCallContext ctx pubkey)) = (Some (mkPeer pubkey), true) ∧
  FromContext (layers kvs Background) = (None, false).
Proof. unfold FromContext. by rewrite !Value_layers. Qed.

End Peer.
