(* ===== verification/Message.v ===== *)
(** [internal/message/message.go], the message types of
    [internal/message/message.pb.go] with their getters, and [utils.go].

    The protobuf runtime is a parameter ([ProtoLib]); what the code relies on
    is stated as the class [ProtoLaws]. *)
From S2P Require Import Prelude.

Module Message.

(** A [[]byte] may be nil; the protobuf runtime and [UniClientConn.Invoke]
    tell nil from empty. *)
Abbreviation slice := (option bytes).

Record Request := mkRequest {
  req_Method : string;
  req_CallId : string;
  req_Payload : slice;
}.

Record Response := mkResponse {
  resp_CallId : string;
  resp_Payload : slice;
  resp_Error : string;
}.

Inductive isMessage_Exchange :=
  | Message_Request (r : Request)
  | Message_Response (r : Response).

(** The [oneof] is nil when no field is set. *)
Record Message := mkMessage { Exchange : option isMessage_Exchange }.

(** The generated getters, on possibly nil pointers. *)
Definition GetExchange (m : option Message) : option isMessage_Exchange :=
  m ≫= Exchange.
Definition GetRequest (m : option Message) : option Request :=
  match GetExchange m with Some (Message_Request r) => Some r | _ => None end.
Definition GetResponse (m : option Message) : option Response :=
  match GetExchange m with Some (Message_Response r) => Some r | _ => None end.

Definition Request_GetMethod (x : option Request) : string :=
  match x with Some x => req_Method x | None => "" end.
Definition Request_GetCallId (x : option Request) : string :=
  match x with Some x => req_CallId x | None => "" end.
Definition Request_GetPayload (x : option Request) : slice := x ≫= req_Payload.
Definition Response_GetCallId (x : option Response) : string :=
  match x with Some x => resp_CallId x | None => "" end.
Definition Response_GetPayload (x : option Response) : slice := x ≫= resp_Payload.
Definition Response_GetError (x : option Response) : string :=
  match x with Some x => resp_Error x | None => "" end.

(** A protobuf message: the repository's envelope or a user's message. *)
Inductive proto_msg (U : Type) := PMessage (m : Message) | PUser (u : U).
Arguments PMessage {_} _.
Arguments PUser {_} _.

(** An [interface{}] argument: nil, a value whose type ([%T]) does not
    implement [proto.Message], or one that does. *)
Inductive any (U : Type) := AnyNil | AnyOther (T : string) | AnyProto (m : proto_msg U).
Arguments AnyNil {_}.
Arguments AnyOther {_} _.
Arguments AnyProto {_} _.

(** The protobuf runtime at the two kinds of messages: [proto.Marshal], and
    [proto.Unmarshal] into a pointer, which fixes the dynamic type to decode. *)
Class ProtoLib (U : Type) := {
  MarshalMessage : Message → outcome slice;
  MarshalUser : U → outcome slice;
  UnmarshalMessage : slice → outcome Message;
  UnmarshalUser : slice → U → outcome U;
}.

Section Operations.
Context `{ProtoLib U}.

Definition proto_Marshal (m : proto_msg U) : outcome slice :=
  match m with PMessage m => MarshalMessage m | PUser u => MarshalUser u end.

Definition proto_Unmarshal (data : slice) (m : proto_msg U) : outcome (proto_msg U) :=
  match m with
  | PMessage _ => m ← UnmarshalMessage data; Ok (PMessage m)
  | PUser u => u ← UnmarshalUser data u; Ok (PUser u)
  end.

Definition type_name (v : any U) : string :=
  match v with AnyNil => "<nil>" | AnyOther T => T | AnyProto _ => "" end.

Definition want_proto (what : string) (v : any U) : error :=
  "failed to " +:+ what +:+ ", message is " +:+ type_name v +:+ ", want proto.Message".

Definition marshalProtoMessage (v : any U) : outcome slice :=
  match v with
  | AnyProto vv => proto_Marshal vv
  | _ => Err (want_proto "marshal" v)
  end.

Definition NewRequest (callID method : string) (v : any U) : outcome Message :=
  payload ← marshalProtoMessage v;
  Ok (mkMessage (Some (Message_Request (mkRequest method callID payload)))).

(** [rerr] is nil ([None]) or an error with its message. *)
Definition NewResponse (callID : string) (v : any U) (rerr : option error) :
    outcome Message :=
  payload ← marshalProtoMessage v;
  Ok (mkMessage (Some (Message_Response
    (mkResponse callID payload (default "" rerr))))).

(** [utils.go]. *)
Definition MarshalProtoMessage (v : any U) : outcome slice :=
  match v with
  | AnyProto vv => proto_Marshal vv
  | _ => Err (want_proto "marshal" v)
  end.

Definition UnmarshalProtoMessage (data : slice) (v : any U) : outcome (proto_msg U) :=
  match v with
  | AnyProto vv => proto_Unmarshal data vv
  | _ => Err (want_proto "unmarshal" v)
  end.

(** [UnmarshalProtoMessage] into a user message, as the decoders of the
    handlers and the replies of [Invoke] use it. *)
Definition decode_user (data : slice) (t : U) : outcome U :=
  m ← UnmarshalProtoMessage data (AnyProto (PUser t));
  match m with PUser u => Ok u | PMessage _ => Ok t end.

Lemma decode_user_eq data t : decode_user data t = UnmarshalUser data t.
Proof. unfold decode_user. simpl. by destruct (UnmarshalUser data t). Qed.

(** [UnmarshalProtoMessage(in, msg)] with [msg := &message.Message{}]: the
    envelope the read loops decode. *)
Definition decode_envelope (data : slice) : outcome Message :=
  m ← UnmarshalProtoMessage data (AnyProto (PMessage (mkMessage None)));
  match m with PMessage m => Ok m | PUser _ => Ok (mkMessage None) end.

Lemma decode_envelope_eq data : decode_envelope data = UnmarshalMessage data.
Proof. unfold decode_envelope. simpl. by destruct (UnmarshalMessage data). Qed.
End Operations.

(** ** What the code relies on

    A zero-length [bytes] field is not put on the wire and reads back as nil;
    everything else of the envelope reads back as it was.  A user's message
    reads back as the library's decoded copy of it, and no input at all decodes
    like empty input. *)
Definition norm_slice (s : slice) : slice :=
  match s with Some [] => None | s => s end.

Definition norm_exchange (e : isMessage_Exchange) : isMessage_Exchange :=
  match e with
  | Message_Request r => Message_Request
      (mkRequest (req_Method r) (req_CallId r) (norm_slice (req_Payload r)))
  | Message_Response r => Message_Response
      (mkResponse (resp_CallId r) (norm_slice (resp_Payload r)) (resp_Error r))
  end.

Definition norm_message (m : Message) : Message :=
  mkMessage (norm_exchange <$> Exchange m).

Class ProtoLaws (U : Type) `{ProtoLib U} := {
  same_type : U → U → Prop;
  decoded : U → U;
  unmarshal_message m b :
    MarshalMessage m = Ok b → UnmarshalMessage b = Ok (norm_message m);
  unmarshal_user u t b :
    same_type u t → MarshalUser u = Ok b → UnmarshalUser b t = Ok (decoded u);
  unmarshal_nil t : UnmarshalUser None t = UnmarshalUser (Some []) t;
  unmarshal_message_nil : UnmarshalMessage None = UnmarshalMessage (Some []);
}.

Section Laws.
Context `{ProtoLaws U}.

Lemma unmarshal_norm s t : UnmarshalUser (norm_slice s) t = UnmarshalUser s t.
Proof. destruct s as [[|]|]; simpl; [apply unmarshal_nil|done..]. Qed.

(** What a [[]byte] is when a connection has carried it: never nil. *)
Lemma decode_envelope_carried b :
  decode_envelope (Some (default [] b)) = decode_envelope b.
Proof.
  rewrite !decode_envelope_eq. destruct b; [done|]. symmetry. apply unmarshal_message_nil.
Qed.

Lemma decode_envelope_marshal m b :
  MarshalProtoMessage (AnyProto (PMessage m)) = Ok b →
  decode_envelope b = Ok (norm_message m).
Proof. simpl. intros Hb. rewrite decode_envelope_eq. by apply unmarshal_message. Qed.

Lemma decode_user_payload u t b :
  same_type u t → marshalProtoMessage (AnyProto (PUser u)) = Ok b →
  decode_user (norm_slice b) t = Ok (decoded u).
Proof.
  simpl. intros Ht Hb. rewrite decode_user_eq, unmarshal_norm.
  by apply unmarshal_user.
Qed.
End Laws.

#[export] Hint Rewrite @decode_user_eq @decode_envelope_eq : wsrpc.

(** ** Theorems *)

Section Theorems.
Context `{ProtoLaws U}.

(** A request built by the caller arrives intact: decoding the marshalled
    envelope gives a request with the same call id and method, whose payload
    the callee's decoder turns into the decoded copy of the argument. *)
Theorem request_roundtrip callID method u t msg b :
  NewRequest callID method (AnyProto (PUser u)) = Ok msg →
  MarshalProtoMessage (AnyProto (PMessage msg)) = Ok b →
  same_type u t →
  ∃ r, decode_envelope b = Ok (mkMessage (Some (Message_Request r))) ∧
    Request_GetCallId (Some r) = callID ∧ Request_GetMethod (Some r) = method ∧
    decode_user (Request_GetPayload (Some r)) t = Ok (decoded u).
Proof.
  intros (pl&Hpl&[= <-])%bind_ok_inv Hb Ht.
  rewrite (decode_envelope_marshal _ _ Hb). eexists. split; [reflexivity|].
  split_and!; [done..|]. by apply decode_user_payload.
Qed.

(** A response arrives intact too: same call id, the payload decodes to the
    decoded copy of the handler's value, and the error field is non-empty
    exactly when the handler returned an error with a non-empty message. *)
Theorem response_roundtrip callID u rerr t msg b :
  NewResponse callID (AnyProto (PUser u)) rerr = Ok msg →
  MarshalProtoMessage (AnyProto (PMessage msg)) = Ok b →
  same_type u t →
  ∃ r, decode_envelope b = Ok (mkMessage (Some (Message_Response r))) ∧
    Response_GetCallId (Some r) = callID ∧
    decode_user (Response_GetPayload (Some r)) t = Ok (decoded u) ∧
    (Response_GetError (Some r) ≠ "" ↔ ∃ e, rerr = Some e ∧ e ≠ "").
Proof.
  intros (pl&Hpl&[= <-])%bind_ok_inv Hb Ht.
  rewrite (decode_envelope_marshal _ _ Hb). eexists. split; [reflexivity|].
  split_and!; [done|by apply decode_user_payload|]. simpl.
  destruct rerr; naive_solver.
Qed.
End Theorems.

(** The constructors on every branch: the only failures are a payload that is
    not a protobuf message, or whose marshalling fails; in particular a
    response cannot be built around a nil value, whatever error goes with it. *)
Theorem constructors_total `{ProtoLib U} callID method (v : any U) rerr :
  match v with
  | AnyProto m =>
      NewRequest callID method v = (p ← proto_Marshal m;
        Ok (mkMessage (Some (Message_Request (mkRequest method callID p))))) ∧
      NewResponse callID v rerr = (p ← proto_Marshal m;
        Ok (mkMessage (Some (Message_Response
              (mkResponse callID p (default "" rerr))))))
  | _ => NewRequest callID method v = Err (want_proto "marshal" v) ∧
         NewResponse callID v rerr = Err (want_proto "marshal" v)
  end.
Proof. by destruct v. Qed.

(** ** A concrete runtime for the witnesses

    User messages are strings (or a typed nil pointer); the envelope is coded
    in unary-terminated fields: every byte of a field is preceded by 0x01 and
    the field ends with 0x00. *)
Module Toy.
Definition U := option string.

Fixpoint put_field (b rest : bytes) : bytes :=
  match b with [] => x00 :: rest | x :: b => x01 :: x :: put_field b rest end.

Fixpoint get_field (b : bytes) : option (bytes * bytes) :=
  match b with
  | x01 :: x :: b => '(f, rest) ← get_field b; Some (x :: f, rest)
  | x00 :: rest => Some ([], rest)
  | _ => None
  end.

Lemma get_put_field b rest : get_field (put_field b rest) = Some (b, rest).
Proof. induction b as [|x b IH]; simpl; [done|]. by rewrite IH. Qed.

Definition str (s : string) : bytes := String.list_byte_of_string s.
Definition unstr (b : bytes) : string := String.string_of_list_byte b.
Definition raw (s : slice) : bytes := default [] s.

Definition encode (m : Message) : bytes :=
  match Exchange m with
  | None => []
  | Some (Message_Request r) =>
      x02 :: put_field (str (req_Method r)) (put_field (str (req_CallId r))
               (put_field (raw (req_Payload r)) []))
  | Some (Message_Response r) =>
      x03 :: put_field (str (resp_CallId r)) (put_field (raw (resp_Payload r))
               (put_field (str (resp_Error r)) []))
  end.

Definition decode (b : bytes) : option Message :=
  match b with
  | [] => Some (mkMessage None)
  | x02 :: b =>
      '(f1, b) ← get_field b; '(f2, b) ← get_field b; '(f3, _) ← get_field b;
      Some (mkMessage (Some (Message_Request
        (mkRequest (unstr f1) (unstr f2) (norm_slice (Some f3))))))
  | x03 :: b =>
      '(f1, b) ← get_field b; '(f2, b) ← get_field b; '(f3, _) ← get_field b;
      Some (mkMessage (Some (Message_Response
        (mkResponse (unstr f1) (norm_slice (Some f2)) (unstr f3)))))
  | _ => None
  end.

Lemma decode_encode m : decode (encode m) = Some (norm_message m).
Proof.
  unfold decode, encode, norm_message, unstr, str.
  destruct m as [[[[m c p]|[c p e]]|]]; simpl; [..|done];
    rewrite !get_put_field; simpl; rewrite get_put_field; simpl;
    rewrite get_put_field; simpl; rewrite !String.string_of_list_byte_of_string;
    destruct p as [[]|]; done.
Qed.

#[global] Instance lib : ProtoLib U := {
  MarshalMessage m := Ok (Some (encode m));
  MarshalUser u := Ok (str <$> u);
  UnmarshalMessage b :=
    match decode (raw b) with Some m => Ok m | None => Err "proto: cannot parse" end;
  UnmarshalUser b _ := Ok (Some (unstr (raw b)));
}.

#[global] Instance laws : ProtoLaws U.
Proof.
  refine {| same_type _ _ := True; decoded u := Some (default "" u) |}.
  - intros m b [= <-]. simpl. by rewrite decode_encode.
  - intros [u|] t b _ [= <-]; simpl; [|done]. unfold unstr, str.
    by rewrite String.string_of_list_byte_of_string.
  - done.
  - done.
Defined.
End Toy.

Definition toy_user (s : string) : any Toy.U := AnyProto (PUser (Some s)).

Definition toy_request : Message :=
  mkMessage (Some (Message_Request (mkRequest "Ping" "id1" (Some (Toy.str "hi"))))).
Definition toy_response : Message :=
  mkMessage (Some (Message_Response (mkResponse "id1" (Some (Toy.str "hi")) "oops"))).

Lemma request_roundtrip_witness :
  ∃ r, decode_envelope (U:=Toy.U) (Some (Toy.encode toy_request)) =
         Ok (mkMessage (Some (Message_Request r))) ∧
    Request_GetMethod (Some r) = "Ping" ∧
    decode_user (U:=Toy.U) (Request_GetPayload (Some r)) None = Ok (Some "hi").
Proof.
  destruct (request_roundtrip (U:=Toy.U) "id1" "Ping" (Some "hi") None toy_request
    (Some (Toy.encode toy_request))) as (r&Hr&_&Hm&Hp); [reflexivity..|exact I|].
  exists r. split_and!; [exact Hr|exact Hm|exact Hp].
Defined.

Lemma response_roundtrip_witness :
  ∃ r, decode_envelope (U:=Toy.U) (Some (Toy.encode toy_response)) =
         Ok (mkMessage (Some (Message_Response r))) ∧
    Response_GetError (Some r) ≠ "".
Proof.
  destruct (response_roundtrip (U:=Toy.U) "id1" (Some "hi") (Some "oops") None
    toy_response (Some (Toy.encode toy_response))) as (r&Hr&_&_&He);
    [reflexivity..|exact I|].
  exists r. split; [exact Hr|]. apply He. exists "oops". by split.
Defined.

End Message.
