(* ===== verification/Methods.v ===== *)
(** [internal/methods/methods.go]: the server's table of pending calls, a map
    from public keys to maps from call ids to response channels.

    [CallTable] is what the calling code needs of such a table; the nested map
    of the server and the flat [methodCalls] map of the client are its two
    instances. *)
From S2P Require Import Prelude Credentials.

(** ** The interface *)
Class CallTable (T K Ch : Type) := {
  ct_empty : T;
  ct_put : K → Ch → T → T;
  ct_get : K → T → option Ch;
  ct_delete : K → T → T;
}.

Class CallTableLaws (T K Ch : Type) `{EqDecision K, CallTable T K Ch} : Prop := {
  ct_get_empty (k : K) : ct_get k (ct_empty : T) = (None : option Ch);
  ct_get_put k k' (c : Ch) (t : T) :
    ct_get k' (ct_put k c t) = if decide (k = k') then Some c else ct_get k' t;
  ct_get_delete k k' (t : T) :
    ct_get k' (ct_delete k t) = if decide (k = k') then None else (ct_get k' t : option Ch);
}.

Module Methods.
Section Methods.
Context {Ch : Type}.

(** The inner map. *)
Record MethodCallsForPublicKey := mkInner {
  inner_calls : gmap string Ch;
}.

Definition NewMethodCallsForPublicKey : MethodCallsForPublicKey := mkInner ∅.

Definition PutMessageResponseChannel (id : string) (ch : Ch)
    (m : MethodCallsForPublicKey) : MethodCallsForPublicKey :=
  mkInner (<[id := ch]> (inner_calls m)).

Definition GetMessageResponseChannel (id : string) (m : MethodCallsForPublicKey) :
    outcome Ch :=
  match inner_calls m !! id with
  | Some call => Ok call
  | None => Err ("id not found: " +:+ id)
  end.

Definition Delete (id : string) (m : MethodCallsForPublicKey) :
    MethodCallsForPublicKey :=
  mkInner (delete id (inner_calls m)).

(** The outer map; each inner map is reachable only through it. *)
Record MethodCalls := mkCalls {
  outer_calls : gmap bytes MethodCallsForPublicKey;
}.

Definition NewMethodCalls : MethodCalls := mkCalls ∅.

Definition PutMethodCallForPublicKey (pubKey : bytes) (id : string) (ch : Ch)
    (m : MethodCalls) : MethodCalls :=
  let inner :=
    match outer_calls m !! pubKey with
    | Some inner => inner
    | None => NewMethodCallsForPublicKey
    end in
  mkCalls (<[pubKey := PutMessageResponseChannel id ch inner]> (outer_calls m)).

Definition GetMessageResponseChannelForPublicKey (pubKey : bytes) (id : string)
    (m : MethodCalls) : outcome Ch :=
  match outer_calls m !! pubKey with
  | Some inner => GetMessageResponseChannel id inner
  | None => Err ("public key not found: " +:+ Credentials.hex pubKey)
  end.

Definition DeleteMethodCall (pubKey : bytes) (id : string) (m : MethodCalls) :
    MethodCalls :=
  match outer_calls m !! pubKey with
  | Some inner => mkCalls (<[pubKey := Delete id inner]> (outer_calls m))
  | None => m
  end.

(** ** The specification: one flat map *)

(** The pending call of a key and an id, if any. *)
Definition lookup_call (m : MethodCalls) (k : bytes) (id : string) : option Ch :=
  inner ← outer_calls m !! k; inner_calls inner !! id.

Inductive op :=
  | OpPut (k : bytes) (id : string) (c : Ch)
  | OpGet (k : bytes) (id : string)
  | OpDelete (k : bytes) (id : string).

Definition apply_op (a : op) (m : MethodCalls) : MethodCalls * option Ch :=
  match a with
  | OpPut k id c => (PutMethodCallForPublicKey k id c m, None)
  | OpGet k id =>
      (m, match GetMessageResponseChannelForPublicKey k id m with
          | Ok c => Some c | _ => None end)
  | OpDelete k id => (DeleteMethodCall k id m, None)
  end.

Definition spec_op (a : op) (s : gmap (bytes * string) Ch) :
    gmap (bytes * string) Ch * option Ch :=
  match a with
  | OpPut k id c => (<[(k, id) := c]> s, None)
  | OpGet k id => (s, s !! (k, id))
  | OpDelete k id => (delete (k, id) s, None)
  end.

(** The answers of a sequence of operations. *)
Fixpoint answers {S : Type} (f : op → S → S * option Ch) (ops : list op) (s : S) :
    list (option Ch) :=
  match ops with
  | [] => []
  | a :: ops => (f a s).2 :: answers f ops (f a s).1
  end.

Definition flat (m : MethodCalls) (s : gmap (bytes * string) Ch) : Prop :=
  ∀ k id, s !! (k, id) = lookup_call m k id.

Definition put_keys (ops : list op) : gset bytes :=
  list_to_set (omap (λ a, match a with OpPut k _ _ => Some k | _ => None end) ops).

Lemma lookup_call_put k id c m k' id' :
  lookup_call (PutMethodCallForPublicKey k id c m) k' id' =
    if decide ((k, id) = (k', id')) then Some c else lookup_call m k' id'.
Proof.
  unfold lookup_call, PutMethodCallForPublicKey. simpl.
  destruct (decide (k = k')) as [<-|Hk].
  - rewrite lookup_insert_eq. simpl. destruct (decide (id = id')) as [<-|Hid].
    + rewrite lookup_insert_eq. by rewrite decide_True.
    + rewrite lookup_insert_ne, (decide_False (P:=(k, id) = (k, id'))) by congruence.
      by destruct (outer_calls m !! k).
  - by rewrite lookup_insert_ne, decide_False by congruence.
Qed.

Lemma lookup_call_delete k id m k' id' :
  lookup_call (DeleteMethodCall k id m) k' id' =
    if decide ((k, id) = (k', id')) then None else lookup_call m k' id'.
Proof.
  unfold lookup_call, DeleteMethodCall.
  destruct (outer_calls m !! k) as [inner|] eqn:Hk.
  - simpl. destruct (decide (k = k')) as [<-|Hne].
    + rewrite lookup_insert_eq, Hk. simpl. destruct (decide (id = id')) as [<-|Hid].
      * by rewrite lookup_delete_eq, decide_True.
      * by rewrite lookup_delete_ne, decide_False by congruence.
    + by rewrite lookup_insert_ne, decide_False by congruence.
  - case_decide; simplify_eq; [by rewrite Hk|done].
Qed.

Lemma get_call_ok k id m c :
  GetMessageResponseChannelForPublicKey k id m = Ok c ↔ lookup_call m k id = Some c.
Proof.
  unfold GetMessageResponseChannelForPublicKey, lookup_call, GetMessageResponseChannel.
  destruct (outer_calls m !! k) as [inner|]; simpl; [|done].
  destruct (inner_calls inner !! id); naive_solver.
Qed.

Lemma get_call_option k id m :
  match GetMessageResponseChannelForPublicKey k id m with
  | Ok c => Some c | _ => None end = lookup_call m k id.
Proof.
  destruct (lookup_call m k id) as [c|] eqn:Hl.
  - apply get_call_ok in Hl. by rewrite Hl.
  - destruct (GetMessageResponseChannelForPublicKey k id m) as [c| |] eqn:Hg;
      [|done..]. apply get_call_ok in Hg. congruence.
Qed.

Lemma flat_step a m s :
  flat m s → flat (apply_op a m).1 (spec_op a s).1 ∧
             (apply_op a m).2 = (spec_op a s).2.
Proof.
  intros Hf. destruct a as [k id c|k id|k id]; simpl.
  - split; [|done]. intros k' id'. rewrite lookup_call_put, lookup_insert, Hf. done.
  - by rewrite get_call_option, Hf.
  - split; [|done]. intros k' id'. rewrite lookup_call_delete, lookup_delete, Hf. done.
Qed.

Lemma outer_keys_step a m :
  dom (outer_calls (apply_op a m).1) = dom (outer_calls m) ∪ put_keys [a].
Proof.
  unfold put_keys. destruct a as [k id c|k id|k id]; simpl; [set_solver..|].
  unfold DeleteMethodCall. destruct (outer_calls m !! k) eqn:Hk; simpl; [|set_solver].
  rewrite dom_insert_lookup_L; [set_solver|by eexists].
Qed.

(** ** Theorems *)

(** C37: The nested table implements one flat map keyed by (public key, call id):
    every sequence of put, get and delete operations answers the same as on the
    flat map, so calls of different peers or ids never interfere. *)
Theorem methods_refine_flat ops :
  answers apply_op ops NewMethodCalls = answers spec_op ops ∅.
Proof.
  assert (∀ m s, flat m s → answers apply_op ops m = answers spec_op ops s) as Hgo.
  { induction ops as [|a ops IH]; intros m s Hf; simpl; [done|].
    destruct (flat_step a m s Hf) as [Hf' ->]. f_equal. by apply IH. }
  apply Hgo. by intros k id.
Qed.

(** The outer map never shrinks: after any operations it has an entry for
    exactly the public keys some call was ever put for, deleted or not. *)
Theorem outer_map_keys ops :
  dom (outer_calls (foldl (λ m a, (apply_op a m).1) NewMethodCalls ops)) = put_keys ops.
Proof.
  assert (∀ m, dom (outer_calls (foldl (λ m a, (apply_op a m).1) m ops)) =
    dom (outer_calls m) ∪ put_keys ops) as Hgo.
  { unfold put_keys. induction ops as [|a ops IH]; intros m; simpl; [set_solver|].
    rewrite IH, outer_keys_step. unfold put_keys. destruct a; simpl; set_solver. }
  rewrite Hgo. simpl. set_solver.
Qed.
End Methods.

Arguments MethodCalls : clear implicits.
Arguments MethodCallsForPublicKey : clear implicits.

End Methods.

(** ** The instances *)

#[export] Instance server_calls {Ch} :
    CallTable (Methods.MethodCalls Ch) (bytes * string) Ch := {
  ct_empty := Methods.NewMethodCalls;
  ct_put k c m := Methods.PutMethodCallForPublicKey k.1 k.2 c m;
  ct_get k m :=
    match Methods.GetMessageResponseChannelForPublicKey k.1 k.2 m with
    | Ok c => Some c | _ => None end;
  ct_delete k m := Methods.DeleteMethodCall k.1 k.2 m;
}.

#[export] Instance server_calls_laws {Ch} :
  CallTableLaws (Methods.MethodCalls Ch) (bytes * string) Ch.
Proof.
  split.
  - intros [k id]. done.
  - intros [k id] [k' id'] c t. simpl.
    by rewrite !Methods.get_call_option, Methods.lookup_call_put.
  - intros [k id] [k' id'] t. simpl.
    by rewrite !Methods.get_call_option, Methods.lookup_call_delete.
Qed.

(** The client's [methodCalls map[string]MethodCallHandler] of [client.go]. *)
#[export] Instance client_calls {Ch} : CallTable (gmap string Ch) string Ch := {
  ct_empty := ∅;
  ct_put k c m := <[k := c]> m;
  ct_get k m := m !! k;
  ct_delete k m := delete k m;
}.

#[export] Instance client_calls_laws {Ch} : CallTableLaws (gmap string Ch) string Ch.
Proof.
  split; intros; simpl; [apply lookup_empty|apply lookup_insert|apply lookup_delete].
Qed.
