(* ===== verification/Connectivity.v ===== *)
(** [connectivity/connectivity.go]: the states of a client connection. *)
From S2P Require Import Prelude.

Module Connectivity.

(** The constants, in [iota] order; a [State] of the program is an int that is
    only ever one of these. *)
Inductive State := Idle | Connecting | Ready | TransientFailure | Shutdown.

#[global] Instance State_eq_dec : EqDecision State.
Proof. solve_decision. Defined.

Definition code (s : State) : Z :=
  match s with
  | Idle => 0 | Connecting => 1 | Ready => 2 | TransientFailure => 3 | Shutdown => 4
  end.

(** [State.String], on any int. *)
Definition String (s : Z) : string :=
  if decide (s = code Idle) then "IDLE"
  else if decide (s = code Connecting) then "CONNECTING"
  else if decide (s = code Ready) then "READY"
  else if decide (s = code TransientFailure) then "TRANSIENT_FAILURE"
  else if decide (s = code Shutdown) then "SHUTDOWN"
  else "INVALID".

Definition valid (s : Z) : Prop := (0 ≤ s ≤ 4)%Z.

(** The printed name tells the states apart, and an int outside the five
    constants prints as INVALID. *)
Theorem string_tells_states s1 s2 :
  (String s1 = String s2 ↔ s1 = s2 ∨ ¬ valid s1 ∧ ¬ valid s2) ∧
  (String s1 = "INVALID" ↔ ¬ valid s1).
Proof.
  unfold String, valid, code. split; repeat case_decide; subst; split; intros;
    first [done | lia | by left | right; lia | by destruct_or?; lia | idtac];
    destruct_or?; simplify_eq; lia.
Qed.
End Connectivity.
