(* ===== verification/CallSpec.v ===== *)
(** What the call tables of both endpoints are for: matching responses to
    pending calls.  [ServerCalls] and [ClientCalls] refine this system. *)
From S2P Require Import Prelude.

Module CallSpec.
Section CallSpec.
Context {K R : Type} `{EqDecision K}.

(** A call waits under its key, or has returned: with the response it got, or
    without one (an error or a timeout). *)
Inductive call := Pending (k : K) | Returned (k : K) (r : option R).

(** A response that arrived from a peer, and the call that took it. *)
Inductive arrival := Arrived (k : K) (r : R) | Taken (k : K) (r : R) (t : nat).

Record state := mkState {
  calls : gmap nat call;
  inbox : gmap nat arrival;
}.

Definition init : state := mkState ∅ ∅.

Definition call_key (c : call) : K :=
  match c with Pending k | Returned k _ => k end.

Inductive step : state → state → Prop :=
  (** a call starts under a key no call ever used *)
  | s_start t k s :
      calls s !! t = None →
      (∀ t' c, calls s !! t' = Some c → call_key c ≠ k) →
      step s (mkState (<[t := Pending k]> (calls s)) (inbox s))
  (** a call gives up *)
  | s_fail t k s :
      calls s !! t = Some (Pending k) →
      step s (mkState (<[t := Returned k None]> (calls s)) (inbox s))
  (** a response arrives *)
  | s_arrive h k r s :
      inbox s !! h = None →
      step s (mkState (calls s) (<[h := Arrived k r]> (inbox s)))
  (** a pending call takes a response that arrived for its key *)
  | s_complete t h k r s :
      calls s !! t = Some (Pending k) →
      inbox s !! h = Some (Arrived k r) →
      step s (mkState (<[t := Returned k (Some r)]> (calls s))
                      (<[h := Taken k r t]> (inbox s))).

(** Two calls never share a key, so a response has at most one taker. *)
Definition unique_keys (s : state) : Prop :=
  ∀ t1 t2 c1 c2, calls s !! t1 = Some c1 → calls s !! t2 = Some c2 →
    call_key c1 = call_key c2 → t1 = t2.

Lemma step_unique_keys s s' : unique_keys s → step s s' → unique_keys s'.
Proof.
  intros Hu Hs t1 t2 c1 c2. destruct Hs as [t k s Ht Hk|t k s Ht|h k r s Hh|t h k r s Ht Hh];
    simpl; rewrite ?lookup_insert_Some.
  - intros [[<- <-]|[? H1]] [[<- <-]|[? H2]]; simpl; intros Heq; try done.
    + by destruct (Hk _ _ H2).
    + by destruct (Hk _ _ H1).
    + by eapply Hu.
  - intros [[<- <-]|[? H1]] [[<- <-]|[? H2]]; simpl; intros Heq; try done;
      [by eapply (Hu t t2)|by eapply (Hu t1 t)|by eapply Hu].
  - apply Hu.
  - intros [[<- <-]|[? H1]] [[<- <-]|[? H2]]; simpl; intros Heq; try done;
      [by eapply (Hu t t2)|by eapply (Hu t1 t)|by eapply Hu].
Qed.

Lemma rtc_unique_keys s : rtc step init s → unique_keys s.
Proof.
  intros Hr. assert (unique_keys init) as H0 by done.
  induction Hr; eauto using step_unique_keys.
Qed.

(** Answered calls and taken responses correspond one to one. *)
Record matched (s : state) : Prop := {
  matched_call t k r : calls s !! t = Some (Returned k (Some r)) →
    ∃ h, inbox s !! h = Some (Taken k r t);
  matched_arrival h k r t : inbox s !! h = Some (Taken k r t) →
    calls s !! t = Some (Returned k (Some r));
  matched_once h1 h2 k1 k2 r1 r2 t : inbox s !! h1 = Some (Taken k1 r1 t) →
    inbox s !! h2 = Some (Taken k2 r2 t) → h1 = h2;
}.

Lemma step_matched s s' : matched s → step s s' → matched s'.
Proof.
  intros [Hc Ha Ho] Hs.
  destruct Hs as [t k s Ht Hk|t k s Ht|h k r s Hh|t h k r s Ht Hh]; split; simpl.
  - intros t' k' r' [[<- ?]|[? H']]%lookup_insert_Some; [done|eauto].
  - intros h' k' r' t' Hh'. specialize (Ha _ _ _ _ Hh').
    rewrite lookup_insert_ne; [done|congruence].
  - eauto.
  - intros t' k' r' [[<- ?]|[? H']]%lookup_insert_Some; [done|eauto].
  - intros h' k' r' t' Hh'. specialize (Ha _ _ _ _ Hh').
    rewrite lookup_insert_ne; [done|congruence].
  - eauto.
  - intros t' k' r' H'. destruct (Hc _ _ _ H') as [h' Hh'].
    exists h'. rewrite lookup_insert_ne; [done|congruence].
  - intros h' k' r' t' [[<- ?]|[? H']]%lookup_insert_Some; [done|eauto].
  - intros h1 h2 k1 k2 r1 r2 t' [[<- ?]|[? Ha1]]%lookup_insert_Some
      [[<- ?]|[? Ha2]]%lookup_insert_Some; try done. by eapply Ho.
  - intros t' k' r' [[<- [= <- <-]]|[? H']]%lookup_insert_Some.
    + exists h. apply lookup_insert_eq.
    + destruct (Hc _ _ _ H') as [h' Hh']. exists h'.
      rewrite lookup_insert_ne; [done|congruence].
  - intros h' k' r' t' [[<- [= <- <- <-]]|[? H']]%lookup_insert_Some.
    + apply lookup_insert_eq.
    + specialize (Ha _ _ _ _ H'). rewrite lookup_insert_ne; [done|congruence].
  - intros h1 h2 k1 k2 r1 r2 t' [[<- [= ? ? ?]]|[? Ha1]]%lookup_insert_Some
      [[<- [= ? ? ?]]|[? Ha2]]%lookup_insert_Some; subst; try done.
    + apply Ha in Ha2. congruence.
    + apply Ha in Ha1. congruence.
    + by eapply Ho.
Qed.

Lemma rtc_matched s : rtc step init s → matched s.
Proof.
  intros Hr. assert (matched init) as H0 by (by split).
  induction Hr; eauto using step_matched.
Qed.
End CallSpec.

Arguments call : clear implicits.
Arguments arrival : clear implicits.
Arguments state : clear implicits.
End CallSpec.
