(* ===== verification/ServerCalls.v ===== *)
(** [server.go]: the server's outgoing calls, [Invoke] and
    [handleMessageResponse], with the lock [s.mu] they share.

    Each goroutine inside [Invoke] ([invoker]) and each goroutine handling an
    arrived response ([handler]) takes steps at its lock operations, channel
    operations and calls into the transport.  A response channel is unbuffered
    and made by one [Invoke], so it is named by that invoker. *)
From S2P Require Import Prelude Peer Message Methods CallSpec.

Module ServerCalls.
Import Message.

Section ServerCalls.
Context {U : Type} `{ProtoLib U}.
Context {T : Type} `{CallTableLaws T (bytes * string) nat}.

(** [Invoke] up to [s.mu.Lock()]: build and marshal the request, find the
    peer in the context. *)
Definition prepare (ctx : Peer.Context) (method : string) (args : any U)
    (callID : string) : outcome (bytes * slice) :=
  msg ← NewRequest callID method args;
  req ← MarshalProtoMessage (AnyProto (PMessage msg) : any U);
  match Peer.FromContext ctx with
  | (_, false) => Err "could not extract public key"
  | (None, true) => Panic NilDeref
  | (Some p, true) => Ok (Peer.PublicKey p, req)
  end.

(** [Invoke] after [<-wait]. *)
Definition finish (msg : Response) (reply : any U) : outcome (proto_msg U) :=
  if bool_decide (resp_Error msg = "")
  then UnmarshalProtoMessage (Response_GetPayload (Some msg)) reply
  else Err (resp_Error msg).

Inductive inv_pc :=
  | IRegister                  (* about to lock [s.mu] and register the call *)
  | ILookup                    (* in [sendMsg], about to find the transport *)
  | IWrite                     (* in [tr.Write] *)
  | IWait                      (* in the [select] *)
  | ITimeout (e : error)       (* [ctx.Done()] chosen, about to lock [s.mu] *)
  | IAborted (out : outcome (proto_msg U))   (* returned before registering *)
  | IFailed (out : outcome (proto_msg U))    (* returned: could not send *)
  | ITimedOut (out : outcome (proto_msg U))  (* returned: call timeout *)
  | IGot (r : Response) (out : outcome (proto_msg U)). (* returned: answered *)

Record invoker := mkInv {
  i_key : bytes * string;  (* public key and call id *)
  i_reply : any U;
  i_pc : inv_pc;
}.

Inductive hand_pc :=
  | HLock              (* about to lock [s.mu] *)
  | HSend (ch : nat)   (* [call <- r], holding [s.mu] *)
  | HRemove (ch : nat) (* sent; about to remove the call and unlock *)
  | HDone (sent : option nat).  (* finished; the channel it sent on, if any *)

Record handler := mkHand {
  h_pub : bytes;
  h_resp : Response;
  h_pc : hand_pc;
}.

Record sys := mkSys {
  mu : option nat;  (* the handler that holds [s.mu] for writing, if any *)
  table : T;
  invs : gmap nat invoker;
  hands : gmap nat handler;
}.

Definition init : sys := mkSys None ct_empty ∅ ∅.

Definition h_key (hd : handler) : bytes * string :=
  (h_pub hd, Response_GetCallId (Some (h_resp hd))).

(** [uuid.NewString] never returns a string again. *)
Definition fresh_id (callID : string) (s : sys) : bool :=
  bool_decide (map_Forall (λ _ i, (i_key i).2 ≠ callID) (invs s)).

Inductive action :=
  | Invoke (t : nat) (ctx : Peer.Context) (method : string) (args reply : any U)
      (callID : string)
  | Register (t : nat)
  | Lookup (t : nat) (found : outcome unit)   (* what [getTransport] answers *)
  | Write (t : nat) (written : outcome unit)  (* what [tr.Write] answers *)
  | Receive (t h : nat)                       (* [call <- r] meets [<-wait] *)
  | CtxDone (t : nat) (e : error)
  | RemoveCall (t : nat)
  | Arrive (h : nat) (pub : bytes) (r : Response)
  | HandlerLock (h : nat)
  | HandlerUnlock (h : nat).

Definition set_inv (t : nat) (i : invoker) (pc : inv_pc) (s : sys) : sys :=
  mkSys (mu s) (table s) (<[t := mkInv (i_key i) (i_reply i) pc]> (invs s)) (hands s).
Definition set_hand (h : nat) (hd : handler) (pc : hand_pc) (s : sys) : sys :=
  mkSys (mu s) (table s) (invs s) (<[h := mkHand (h_pub hd) (h_resp hd) pc]> (hands s)).
Definition set_table (tb : T) (s : sys) : sys := mkSys (mu s) tb (invs s) (hands s).
Definition set_mu (m : option nat) (s : sys) : sys := mkSys m (table s) (invs s) (hands s).

(** A step that needs [s.mu] not to be held for writing. *)
Definition unlocked (s : sys) (k : option sys) : option sys :=
  if mu s is Some _ then None else k.

Definition exec_inv (a : action) (t : nat) (i : invoker) (s : sys) : option sys :=
  match a, i_pc i with
  | Register _, IRegister =>
      unlocked s (Some (set_inv t i ILookup (set_table (ct_put (i_key i) t (table s)) s)))
  | Lookup _ found, ILookup =>
      unlocked s (match found with
      | Ok _ => Some (set_inv t i IWrite s)
      | Err e => Some (set_inv t i (IFailed (Err e)) s)
      | Panic p => Some (set_inv t i (IFailed (Panic p)) s)
      end)
  | Write _ written, IWrite =>
      match written with
      | Ok _ => Some (set_inv t i IWait s)
      | Err e => Some (set_inv t i (IFailed (Err e)) s)
      | Panic p => Some (set_inv t i (IFailed (Panic p)) s)
      end
  | CtxDone _ e, IWait => Some (set_inv t i (ITimeout e) s)
  | RemoveCall _, ITimeout e =>
      unlocked s (Some (set_inv t i (ITimedOut (Err ("call timeout: " +:+ e)))
        (set_table (ct_delete (i_key i) (table s)) s)))
  | _, _ => None
  end.

Definition exec_hand (a : action) (h : nat) (hd : handler) (s : sys) : option sys :=
  match a, h_pc hd with
  | HandlerLock _, HLock =>
      unlocked s (match ct_get (h_key hd) (table s) with
      | Some call => Some (set_hand h hd (HSend call) (set_mu (Some h) s))
      | None => Some (set_hand h hd (HDone None) s)
      end)
  | HandlerUnlock _, HRemove ch =>
      Some (set_hand h hd (HDone (Some ch)) (set_mu None
        (set_table (ct_delete (h_key hd) (table s)) s)))
  | _, _ => None
  end.

Definition exec (a : action) (s : sys) : option sys :=
  match a with
  | Invoke t ctx method args reply callID =>
      if fresh_id callID s then
        match invs s !! t with
        | Some _ => None
        | None =>
            let start key pc :=
              Some (mkSys (mu s) (table s) (<[t := mkInv key reply pc]> (invs s)) (hands s)) in
            match prepare ctx method args callID with
            | Ok (pub, _) => start (pub, callID) IRegister
            | Err e => start ([], callID) (IAborted (Err e))
            | Panic p => start ([], callID) (IAborted (Panic p))
            end
        end
      else None
  | Register t | Lookup t _ | Write t _ | CtxDone t _ | RemoveCall t =>
      i ← invs s !! t; exec_inv a t i s
  | Receive t h =>
      i ← invs s !! t; hd ← hands s !! h;
      match i_pc i, h_pc hd with
      | IWait, HSend ch =>
          if decide (ch = t) then
            Some (set_hand h hd (HRemove ch)
              (set_inv t i (IGot (h_resp hd) (finish (h_resp hd) (i_reply i))) s))
          else None
      | _, _ => None
      end
  | Arrive h pub r =>
      if hands s !! h is Some _ then None
      else Some (mkSys (mu s) (table s) (invs s) (<[h := mkHand pub r HLock]> (hands s)))
  | HandlerLock h | HandlerUnlock h => hd ← hands s !! h; exec_hand a h hd s
  end.

(** ** The invariant *)

(** Registered and not yet removed by the invoker itself. *)
Definition registered (pc : inv_pc) : bool :=
  match pc with IRegister | IAborted _ | ITimedOut _ => false | _ => true end.

(** Still in the table for sure. *)
Definition in_table (pc : inv_pc) : bool :=
  match pc with
  | ILookup | IWrite | IWait | ITimeout _ | IFailed _ => true
  | _ => false
  end.

Definition holds_lock (pc : hand_pc) : bool :=
  match pc with HSend _ | HRemove _ => true | _ => false end.

Record inv (s : sys) : Prop := mkInvariant {
  inv_lock h hd : hands s !! h = Some hd → holds_lock (h_pc hd) = true → mu s = Some h;
  inv_lock' h : mu s = Some h → ∃ hd, hands s !! h = Some hd ∧ holds_lock (h_pc hd) = true;
  inv_table k t : ct_get k (table s) = Some t →
    ∃ i, invs s !! t = Some i ∧ i_key i = k ∧ registered (i_pc i) = true;
  inv_pending t i : invs s !! t = Some i → in_table (i_pc i) = true →
    ct_get (i_key i) (table s) = Some t;
  inv_send h hd ch : hands s !! h = Some hd → h_pc hd = HSend ch →
    ct_get (h_key hd) (table s) = Some ch;
  inv_remove h hd ch : hands s !! h = Some hd → h_pc hd = HRemove ch →
    ∃ i r out, invs s !! ch = Some i ∧ i_key i = h_key hd ∧ i_pc i = IGot r out;
  inv_ids t1 t2 i1 i2 : invs s !! t1 = Some i1 → invs s !! t2 = Some i2 →
    (i_key i1).2 = (i_key i2).2 → t1 = t2;
  inv_got t i r out : invs s !! t = Some i → i_pc i = IGot r out →
    out = finish r (i_reply i);
}.

Lemma unlocked_some s k s' : unlocked s k = Some s' → mu s = None ∧ k = Some s'.
Proof. unfold unlocked. by destruct (mu s). Qed.

Lemma fresh_id_spec callID s t i :
  fresh_id callID s = true → invs s !! t = Some i → (i_key i).2 ≠ callID.
Proof. intros Hf%bool_decide_eq_true Hi. by eapply Hf. Qed.

Lemma servercalls_init_inv : inv init.
Proof.
  split; simpl; intros; try (by simplify_map_eq); try done.
  by rewrite ct_get_empty in *.
Qed.

(** Case analysis of a lookup in an updated map, and the rest by search. *)
Ltac lookups :=
  repeat match goal with
  | H : <[_ := _]> _ !! _ = Some _ |- _ =>
      apply lookup_insert_Some in H as [[? ?]|[? H]]; simplify_eq/=
  end.

Ltac by_inv :=
  intros; lookups; simplify_eq/=; eauto; try naive_solver.

(** Updating the program counter of one invoker, keeping key and reply. *)
Lemma set_inv_inv t i pc s :
  inv s → invs s !! t = Some i →
  (registered (i_pc i) = true → registered pc = true) →
  (in_table pc = true → ct_get (i_key i) (table s) = Some t) →
  (∀ r out, i_pc i = IGot r out → pc = IGot r out) →
  (∀ r out, pc = IGot r out → out = finish r (i_reply i)) →
  inv (set_inv t i pc s).
Proof.
  intros [Hl Hl' Ht Hp Hs Hr Hu Hg] Hi Hreg Hin Hgot Hfin. split; simpl.
  - done.
  - done.
  - intros k t' Hk. destruct (Ht _ _ Hk) as (i'&Hi'&Hk'&Hr').
    destruct (decide (t = t')) as [<-|]; [|exists i'; by rewrite lookup_insert_ne].
    simplify_eq. eexists. rewrite lookup_insert_eq. naive_solver.
  - by_inv.
  - done.
  - intros h hd ch Hh Hpc. destruct (Hr _ _ _ Hh Hpc) as (i'&r&out&Hi'&Hk&Hpc').
    destruct (decide (t = ch)) as [<-|]; [|exists i', r, out; by rewrite lookup_insert_ne].
    simplify_eq. eexists _, r, out. rewrite lookup_insert_eq. naive_solver.
  - intros t1 t2 i1 i2 Ha Hb Hk. lookups; try done; [by eapply (Hu t1 t2)..|by eapply Hu].
  - by_inv.
Qed.

Lemma no_holder s h hd :
  inv s → mu s = None → hands s !! h = Some hd → holds_lock (h_pc hd) = false.
Proof.
  intros Hi Hm Hh. destruct (holds_lock (h_pc hd)) eqn:Hpc; [|done].
  pose proof (inv_lock _ Hi _ _ Hh Hpc). congruence.
Qed.

Lemma servercalls_invoke_inv t ctx method args reply callID s s' :
  inv s → exec (Invoke t ctx method args reply callID) s = Some s' → inv s'.
Proof.
  intros [Hl Hl' Ht Hp Hs Hr Hu Hg] He. simpl in He.
  destruct (fresh_id callID s) eqn:Hf; [|done].
  destruct (invs s !! t) eqn:Hn; [done|].
  assert (∃ key pc, key.2 = callID ∧ in_table pc = false ∧
    (∀ r out, pc ≠ IGot r out) ∧
    s' = mkSys (mu s) (table s) (<[t := mkInv key reply pc]> (invs s)) (hands s))
    as (key&pc&Hkey&Hin&Hgot&->).
  { destruct (prepare ctx method args callID) as [[pub ?]|e|p]; simplify_eq;
      eexists (_, callID), _; (split_and!; [..|reflexivity]); done. }
  assert (∀ t' i', invs s !! t' = Some i' → t ≠ t') as Hne by congruence.
  split; simpl; try done.
  - intros k t' Hk. destruct (Ht _ _ Hk) as (i'&Hi'&?). exists i'.
    rewrite lookup_insert_ne; eauto.
  - intros t' i' Hi' Hpc. lookups; [congruence|]. eauto.
  - intros h hd ch Hh Hpc. destruct (Hr _ _ _ Hh Hpc) as (i'&r&out&Hi'&?).
    exists i', r, out. rewrite lookup_insert_ne; eauto.
  - intros t1 t2 i1 i2 Ha Hb Heq. lookups; try done.
    + by destruct (fresh_id_spec _ _ _ _ Hf Ha).
    + by destruct (fresh_id_spec _ _ _ _ Hf Hb).
    + by eapply Hu.
  - intros t' i' r out Hi' Hpc. lookups; [by destruct (Hgot r out)|]. eauto.
Qed.

Lemma servercalls_register_inv t i s :
  inv s → mu s = None → invs s !! t = Some i → i_pc i = IRegister →
  inv (set_inv t i ILookup (set_table (ct_put (i_key i) t (table s)) s)).
Proof.
  intros Hi Hm Ht Hpc. pose proof (no_holder s) as Hno.
  destruct Hi as [Hl Hl' Htb Hp Hs Hr Hu Hg] eqn:HI. clear HI.
  split; simpl; try done.
  - intros k t'. rewrite ct_get_put. case_decide as Hk.
    + intros [= <-]. eexists. rewrite lookup_insert_eq. by subst.
    + intros Hk'. destruct (Htb _ _ Hk') as (i'&Hi'&?).
      destruct (decide (t = t')) as [<-|]; [|exists i'; by rewrite lookup_insert_ne].
      simplify_eq. rewrite Hpc in *. naive_solver.
  - intros t' i' Hi' Hin. rewrite ct_get_put.
    lookups; [by rewrite decide_True|]. case_decide as Hk; [|by eauto].
    f_equal. apply (Hu t t' i i'); [done..|]. by rewrite Hk.
  - intros h hd ch Hh Hpc'. specialize (Hno h hd Hi Hm Hh). by rewrite Hpc' in Hno.
  - intros h hd ch Hh Hpc'. specialize (Hno h hd Hi Hm Hh). by rewrite Hpc' in Hno.
  - intros t1 t2 i1 i2 Ha Hb Hk. lookups; try done; by eapply Hu.
  - by_inv.
Qed.

Lemma servercalls_remove_inv t i e s :
  inv s → mu s = None → invs s !! t = Some i → i_pc i = ITimeout e →
  inv (set_inv t i (ITimedOut (Err ("call timeout: " +:+ e)))
         (set_table (ct_delete (i_key i) (table s)) s)).
Proof.
  intros Hi Hm Ht Hpc. pose proof (no_holder s) as Hno.
  destruct Hi as [Hl Hl' Htb Hp Hs Hr Hu Hg] eqn:HI. clear HI.
  assert (ct_get (i_key i) (table s) = Some t) as Hin.
  { apply Hp; [done|]. by rewrite Hpc. }
  split; simpl; try done.
  - intros k t'. rewrite ct_get_delete. case_decide as Hk; [done|].
    intros Hk'. destruct (Htb _ _ Hk') as (i'&Hi'&?&?).
    destruct (decide (t = t')) as [<-|]; [|exists i'; by rewrite lookup_insert_ne].
    simplify_eq.
  - intros t' i' Hi' Hin'. lookups. rewrite ct_get_delete.
    case_decide as Hk; [|by eauto].
    assert (t = t') by (apply (Hu t t' i i'); [done..|by rewrite Hk]). congruence.
  - intros h hd ch Hh Hpc'. specialize (Hno h hd Hi Hm Hh). by rewrite Hpc' in Hno.
  - intros h hd ch Hh Hpc'. specialize (Hno h hd Hi Hm Hh). by rewrite Hpc' in Hno.
  - intros t1 t2 i1 i2 Ha Hb Hk. lookups; try done; by eapply Hu.
  - by_inv.
Qed.

Lemma servercalls_receive_inv t h i hd s :
  inv s → invs s !! t = Some i → hands s !! h = Some hd →
  i_pc i = IWait → h_pc hd = HSend t →
  inv (set_hand h hd (HRemove t)
        (set_inv t i (IGot (h_resp hd) (finish (h_resp hd) (i_reply i))) s)).
Proof.
  intros Hi Ht Hh Hpc Hpc'.
  assert (i_key i = h_key hd) as Hkey.
  { destruct (inv_table _ Hi (h_key hd) t) as (i'&?&?&_); [|by simplify_eq].
    by eapply inv_send. }
  apply (set_inv_inv t i (IGot (h_resp hd) (finish (h_resp hd) (i_reply i)))) in Hi as Hi1;
    [|done..|by rewrite Hpc|by intros r out [= <- <-]].
  assert (mu s = Some h) as Hm.
  { apply (inv_lock _ Hi h hd Hh). by rewrite Hpc'. }
  destruct Hi1 as [Hl Hl' Htb Hp Hs Hr Hu Hg]. simpl in *.
  split; simpl; try done.
  - by_inv.
  - intros h' Hh'. simplify_eq. eexists. by rewrite lookup_insert_eq.
  - intros h' hd' ch Hh' Hpc''. lookups. eauto.
  - intros h' hd' ch Hh' Hpc''. lookups; [|by eauto].
    eexists _, _, _. rewrite lookup_insert_eq. split_and!; [done| |done].
    exact Hkey.
Qed.

(** Adding a handler or moving one that holds no lock. *)
Lemma set_hands_inv h hd' s :
  inv s → holds_lock (h_pc hd') = false →
  (∀ hd, hands s !! h = Some hd → holds_lock (h_pc hd) = false) →
  inv (mkSys (mu s) (table s) (invs s) (<[h := hd']> (hands s))).
Proof.
  intros [Hl Hl' Htb Hp Hs Hr Hu Hg] Hpc Hold. split; simpl; try done.
  - intros h' hd Hh Hpc'. lookups; [congruence|]. eauto.
  - intros h' Hm. destruct (Hl' _ Hm) as (hd&Hh&?).
    exists hd. rewrite lookup_insert_ne; [done|]. intros ->.
    specialize (Hold _ Hh). congruence.
  - intros h' hd ch Hh Hpc'. lookups; [by rewrite Hpc' in Hpc|]. eauto.
  - intros h' hd ch Hh Hpc'. lookups; [by rewrite Hpc' in Hpc|]. eauto.
Qed.

Lemma servercalls_lock_inv h hd call s :
  inv s → mu s = None → hands s !! h = Some hd → h_pc hd = HLock →
  ct_get (h_key hd) (table s) = Some call →
  inv (set_hand h hd (HSend call) (set_mu (Some h) s)).
Proof.
  intros Hi Hm Hh Hpc Hget. pose proof (no_holder s) as Hno.
  destruct Hi as [Hl Hl' Htb Hp Hs Hr Hu Hg] eqn:HI. clear HI.
  split; simpl; try done.
  - intros h' hd' Hh' Hpc'. lookups; [done|].
    specialize (Hno _ _ Hi Hm Hh'). congruence.
  - intros h' [= <-]. eexists. by rewrite lookup_insert_eq.
  - intros h' hd' ch Hh' Hpc'. lookups; [done|]. eauto.
  - intros h' hd' ch Hh' Hpc'. lookups. eauto.
Qed.

Lemma servercalls_unlock_inv h hd ch s :
  inv s → hands s !! h = Some hd → h_pc hd = HRemove ch →
  inv (set_hand h hd (HDone (Some ch)) (set_mu None
        (set_table (ct_delete (h_key hd) (table s)) s))).
Proof.
  intros Hi Hh Hpc.
  assert (mu s = Some h) as Hm.
  { apply (inv_lock _ Hi h hd Hh). by rewrite Hpc. }
  destruct Hi as [Hl Hl' Htb Hp Hs Hr Hu Hg].
  destruct (Hr _ _ _ Hh Hpc) as (ic&rc&outc&Hic&Hkc&Hpcc).
  assert (∀ h' hd', h ≠ h' → hands s !! h' = Some hd' →
    holds_lock (h_pc hd') = false) as Hno.
  { intros h' hd' Hne Hh'. destruct (holds_lock (h_pc hd')) eqn:Hpc'; [|done].
    pose proof (Hl _ _ Hh' Hpc'). congruence. }
  split; simpl; try done.
  - intros h' hd' Hh' Hpc'. lookups. specialize (Hno h' hd'). naive_solver congruence.
  - intros k t. rewrite ct_get_delete. case_decide; [done|]. eauto.
  - intros t i Ht Hin. rewrite ct_get_delete. case_decide as Hk; [|by eauto].
    assert (ch = t) as <-.
    { apply (Hu _ _ _ _ Hic Ht). by rewrite Hkc, Hk. }
    simplify_eq. by rewrite Hpcc in Hin.
  - intros h' hd' ch' Hh' Hpc'. lookups.
    specialize (Hno h' hd'). rewrite Hpc' in Hno. naive_solver.
  - intros h' hd' ch' Hh' Hpc'. lookups.
    specialize (Hno h' hd'). rewrite Hpc' in Hno. naive_solver.
Qed.

Lemma exec_inv_inv a t i s s' :
  inv s → invs s !! t = Some i → exec_inv a t i s = Some s' → inv s'.
Proof.
  intros Hi Ht He. destruct a; simpl in He; destruct (i_pc i) eqn:Hpc; try done;
    try (apply unlocked_some in He as [Hm He]); try (break_in He).
  all: try (apply set_inv_inv; try done; rewrite ?Hpc; simpl; try done;
    intros; eapply inv_pending; eauto; by rewrite Hpc).
  - by apply servercalls_register_inv.
  - by eapply servercalls_remove_inv.
Qed.

#[local] Arguments exec_inv : simpl never.

Lemma servercalls_exec_inv a s s' : inv s → exec a s = Some s' → inv s'.
Proof.
  intros Hi He. destruct a as [| t | t | t | t h | t | t | h | h | h].
  { by eapply servercalls_invoke_inv. }
  all: simpl in He;
    repeat match type of He with
    | invs ?s !! ?t ≫= _ = _ =>
        destruct (invs s !! t) as [i|] eqn:Ht; [simpl in He|done]
    | hands ?s !! ?h ≫= _ = _ =>
        destruct (hands s !! h) as [hd|] eqn:Hh; [simpl in He|done]
    end; try (by eapply exec_inv_inv).
  - destruct (i_pc i) eqn:Hpc, (h_pc hd) eqn:Hpc'; try done.
    case_decide; simplify_eq. by apply servercalls_receive_inv.
  - destruct (hands s !! h) eqn:Hh; simplify_eq. apply set_hands_inv; [done..|].
    intros hd. congruence.
  - destruct (h_pc hd) eqn:Hpc; try done.
    apply unlocked_some in He as [Hm He].
    destruct (ct_get (h_key hd) (table s)) as [call|] eqn:Hget; simplify_eq.
    + by apply servercalls_lock_inv.
    + apply set_hands_inv; [done..|]. intros hd'. rewrite Hh. intros [= <-]. by rewrite Hpc.
  - destruct (h_pc hd) eqn:Hpc; simplify_eq. by eapply servercalls_unlock_inv.
Qed.

Lemma servercalls_reachable_inv s : reachable exec init s → inv s.
Proof.
  apply reachable_invariant; [apply servercalls_init_inv|].
  intros a s1 s2. apply servercalls_exec_inv.
Qed.

(** ** Refinement of [CallSpec] *)

Definition abs_inv (i : invoker) : CallSpec.call (bytes * string) Response :=
  match i_pc i with
  | IGot r _ => CallSpec.Returned (i_key i) (Some r)
  | IAborted _ | IFailed _ | ITimedOut _ => CallSpec.Returned (i_key i) None
  | _ => CallSpec.Pending (i_key i)
  end.

Definition abs_hand (hd : handler) : CallSpec.arrival (bytes * string) Response :=
  match h_pc hd with
  | HRemove ch | HDone (Some ch) => CallSpec.Taken (h_key hd) (h_resp hd) ch
  | _ => CallSpec.Arrived (h_key hd) (h_resp hd)
  end.

Definition abs (s : sys) : CallSpec.state (bytes * string) Response :=
  CallSpec.mkState (abs_inv <$> invs s) (abs_hand <$> hands s).

Lemma abs_set_inv t i pc s :
  abs (set_inv t i pc s) =
    CallSpec.mkState (<[t := abs_inv (mkInv (i_key i) (i_reply i) pc)]> (abs_inv <$> invs s))
      (abs_hand <$> hands s).
Proof. unfold abs. simpl. by rewrite fmap_insert. Qed.

(** A step that changes nothing a call's observer sees. *)
Lemma abs_inv_stutter t i pc s :
  invs s !! t = Some i → abs_inv (mkInv (i_key i) (i_reply i) pc) = abs_inv i →
  abs (set_inv t i pc s) = abs s.
Proof.
  intros Ht Heq. rewrite abs_set_inv, Heq, insert_id; [done|].
  by rewrite lookup_fmap, Ht.
Qed.

Lemma abs_hand_stutter h hd pc s :
  hands s !! h = Some hd → abs_hand (mkHand (h_pub hd) (h_resp hd) pc) = abs_hand hd →
  abs (set_hand h hd pc s) = abs s.
Proof.
  intros Hh Heq. unfold abs. simpl. rewrite fmap_insert, Heq, insert_id; [done|].
  by rewrite lookup_fmap, Hh.
Qed.

Lemma abs_inv_fail t i pc s :
  invs s !! t = Some i → abs_inv i = CallSpec.Pending (i_key i) →
  abs_inv (mkInv (i_key i) (i_reply i) pc) = CallSpec.Returned (i_key i) None →
  CallSpec.step (abs s) (abs (set_inv t i pc s)).
Proof.
  intros Ht Hp Hr. rewrite abs_set_inv, Hr.
  apply (CallSpec.s_fail t (i_key i) (abs s)). simpl. by rewrite lookup_fmap, Ht, <- Hp.
Qed.

Lemma exec_inv_refines a t i s s' :
  invs s !! t = Some i → exec_inv a t i s = Some s' →
  rtc CallSpec.step (abs s) (abs s').
Proof.
  intros Ht He. destruct a; unfold exec_inv in He; destruct (i_pc i) eqn:Hpc; try done;
    try (apply unlocked_some in He as [_ He]); break_in He.
  all: try (apply rtc_once, abs_inv_fail; [done|by unfold abs_inv; rewrite Hpc|done]).
  all: match goal with
  | |- rtc _ _ (abs (set_inv ?t ?i ?pc ?s1)) =>
      change (abs s) with (abs s1);
      first [ rewrite abs_inv_stutter; [apply rtc_refl|done|by unfold abs_inv; rewrite Hpc]
            | apply rtc_once, abs_inv_fail; [done|by unfold abs_inv; rewrite Hpc|done] ]
  end.
Qed.

Lemma servercalls_invoke_refines t ctx method args reply callID s s' :
  exec (Invoke t ctx method args reply callID) s = Some s' →
  rtc CallSpec.step (abs s) (abs s').
Proof.
  intros He. unfold exec in He. destruct (fresh_id callID s) eqn:Hf; [|done].
  destruct (invs s !! t) eqn:Hn; [done|].
  assert (∀ key, key.2 = callID → CallSpec.step (abs s)
    (CallSpec.mkState (<[t := CallSpec.Pending key]> (abs_inv <$> invs s))
       (abs_hand <$> hands s))) as Hstart.
  { intros key Hkey. apply (CallSpec.s_start t key (abs s)); simpl.
    - by rewrite lookup_fmap, Hn.
    - intros t' c. rewrite lookup_fmap. destruct (invs s !! t') as [i'|] eqn:Hi'; [|done].
      intros [= <-] Heq. apply (fresh_id_spec _ _ _ _ Hf Hi'). rewrite <- Hkey, <- Heq.
      by destruct i' as [? ? []]. }
  assert (∀ key, key.2 = callID → rtc CallSpec.step (abs s)
    (CallSpec.mkState (<[t := CallSpec.Returned key None]> (abs_inv <$> invs s))
       (abs_hand <$> hands s))) as Habort.
  { intros key Hkey. eapply rtc_l; [by apply (Hstart key)|].
    rewrite <- (insert_insert_eq _ t (CallSpec.Returned key None) (CallSpec.Pending key)).
    apply rtc_once. apply (CallSpec.s_fail t key (CallSpec.mkState _ _)).
    apply lookup_insert_eq. }
  unfold abs. destruct (prepare ctx method args callID) as [[pub ?]|e|p]; simplify_eq/=;
    rewrite fmap_insert; [by apply rtc_once, Hstart|by apply Habort..].
Qed.

Lemma servercalls_exec_refines a s s' :
  inv s → exec a s = Some s' → rtc CallSpec.step (abs s) (abs s').
Proof.
  intros Hi He. destruct a as [| t | t | t | t h | t | t | h | h | h].
  { by eapply servercalls_invoke_refines. }
  all: simpl in He;
    repeat match type of He with
    | invs ?s !! ?t ≫= _ = _ =>
        destruct (invs s !! t) as [i|] eqn:Ht; [simpl in He|done]
    | hands ?s !! ?h ≫= _ = _ =>
        destruct (hands s !! h) as [hd|] eqn:Hh; [simpl in He|done]
    end; try (by eapply exec_inv_refines).
  - destruct (i_pc i) eqn:Hpc, (h_pc hd) eqn:Hpc'; try done.
    case_decide; simplify_eq. apply rtc_once.
    destruct (inv_table _ Hi (h_key hd) t) as (i'&?&Hk&_);
      [by eapply inv_send|]. simplify_eq.
    unfold abs. simpl. rewrite !fmap_insert. unfold abs_inv at 1, abs_hand at 1. simpl.
    unfold h_key at 1. simpl. fold (h_key hd). rewrite Hk.
    apply (CallSpec.s_complete t h (h_key hd) (h_resp hd) (abs s)); simpl;
      rewrite lookup_fmap, ?Ht, ?Hh; simpl; unfold abs_inv, abs_hand;
      by rewrite ?Hpc, ?Hpc', ?Hk.
  - destruct (hands s !! h) eqn:Hh; simplify_eq. unfold abs. simpl.
    rewrite fmap_insert. apply rtc_once.
    apply (CallSpec.s_arrive h _ _ (abs s)). simpl. by rewrite lookup_fmap, Hh.
  - unfold exec_hand in He. destruct (h_pc hd) eqn:Hpc; try done.
    apply unlocked_some in He as [_ He].
    destruct (ct_get (h_key hd) (table s)); simplify_eq.
    + rewrite abs_hand_stutter; [apply rtc_refl|done|by unfold abs_hand; rewrite Hpc].
    + rewrite abs_hand_stutter; [apply rtc_refl|done|by unfold abs_hand; rewrite Hpc].
  - unfold exec_hand in He. destruct (h_pc hd) eqn:Hpc; simplify_eq.
    rewrite abs_hand_stutter; [apply rtc_refl|done|by unfold abs_hand; rewrite Hpc].
Qed.

Lemma servercalls_reachable_refines s :
  reachable exec init s → rtc CallSpec.step (abs init) (abs s).
Proof.
  intros Hr. assert (∀ s1, inv s1 → reachable exec s1 s →
    rtc CallSpec.step (abs s1) (abs s)) as Hgo; [|by eauto using servercalls_init_inv].
  clear Hr. intros s1 Hi Hr. induction Hr as [|s1 s2 s3 [a Ha] _ IH]; [done|].
  etrans; [by eapply servercalls_exec_refines|].
  apply IH. by eapply servercalls_exec_inv.
Qed.

Lemma abs_init : abs init = CallSpec.init.
Proof. unfold abs, init. simpl. by rewrite !fmap_empty. Qed.

(** A caller that has left the [select] for good, its entry still there. *)
Definition gone (pc : inv_pc) : bool :=
  match pc with ITimeout _ | IFailed _ => true | _ => false end.

(** A handler that sends, with the lock, to a caller that no longer receives. *)
Definition stuck (t h : nat) (s : sys) : Prop :=
  mu s = Some h ∧
  (∃ hd, hands s !! h = Some hd ∧ h_pc hd = HSend t) ∧
  (∃ i, invs s !! t = Some i ∧ gone (i_pc i) = true).

Definition needs_lock (a : action) : bool :=
  match a with
  | Register _ | Lookup _ _ | RemoveCall _ | HandlerLock _ => true
  | _ => false
  end.

Lemma stuck_blocks t h s a : stuck t h s → needs_lock a = true → exec a s = None.
Proof.
  intros [Hm _] Ha. destruct a as [| t' | t' | | | | t' | | h' |]; try done; simpl.
  1-3: destruct (invs s !! t') as [i|]; [simpl|done];
    unfold exec_inv, unlocked; rewrite Hm; by destruct (i_pc i).
  destruct (hands s !! h') as [hd|]; [simpl|done].
  unfold exec_hand, unlocked. rewrite Hm. by destruct (h_pc hd).
Qed.

Lemma stuck_update_inv t h s t' i' tb :
  t' ≠ t → stuck t h s → stuck t h (mkSys (mu s) tb (<[t' := i']> (invs s)) (hands s)).
Proof.
  intros Hne (Hm&Hh&(i&Ht&Hg)). split_and!; simpl; [done..|].
  exists i. by rewrite lookup_insert_ne.
Qed.

Lemma stuck_update_hand t h s h' hd' :
  h' ≠ h → stuck t h s → stuck t h (mkSys (mu s) (table s) (invs s) (<[h' := hd']> (hands s))).
Proof.
  intros Hne (Hm&(hd&Hh&Hpc)&Hi). split_and!; simpl; [done| |done].
  exists hd. by rewrite lookup_insert_ne.
Qed.

(** An invoker or handler that can step without the lock is another one. *)
Lemma stuck_invoker t h s t' i' :
  stuck t h s → invs s !! t' = Some i' → gone (i_pc i') = false → t' ≠ t.
Proof. intros (_&_&(i&Ht&Hg)) Ht' Hg' ->. congruence. Qed.

Lemma stuck_exec_inv t h s a t' i' s' :
  stuck t h s → needs_lock a = false → invs s !! t' = Some i' →
  exec_inv a t' i' s = Some s' → stuck t h s'.
Proof.
  intros Hst Hn Ht' He. unfold exec_inv in He.
  destruct a; try done; destruct (i_pc i') eqn:Hpc; try done; break_in He;
    (apply stuck_update_inv; [|done]);
    (eapply stuck_invoker; [done..|by rewrite Hpc]).
Qed.

Lemma stuck_preserved t h s a s' :
  inv s → stuck t h s → exec a s = Some s' → stuck t h s'.
Proof.
  intros Hi Hst He. destruct (needs_lock a) eqn:Hn.
  { by rewrite (stuck_blocks t h s a Hst Hn) in He. }
  pose proof Hst as (Hm&(hd&Hh&Hpc)&(i&Ht&Hg)).
  destruct a as [t'| | | t' | t' h' | t' | | h' | |h']; try done; simpl in He.
  - destruct (fresh_id _ _); [|done]. destruct (invs s !! t') eqn:Hn'; [done|].
    destruct (prepare _ _ _ _) as [[]| |]; simplify_eq;
      (apply stuck_update_inv; [congruence|done]).
  - destruct (invs s !! t') eqn:Ht'; [simpl in He|done].
    exact (stuck_exec_inv _ _ _ _ _ _ _ Hst Hn Ht' He).
  - destruct (invs s !! t') as [i'|] eqn:Ht'; [simpl in He|done].
    destruct (hands s !! h') as [hd'|] eqn:Hh'; [simpl in He|done].
    destruct (i_pc i') eqn:Hpc', (h_pc hd') eqn:Hpch; try done.
    case_decide; simplify_eq.
    assert (t' ≠ t) as Hne by (apply (stuck_invoker t h s t' i' Hst Ht'); by rewrite Hpc').
    assert (h' ≠ h) by (intros ->; simplify_eq; congruence).
    eapply (stuck_update_hand t h (set_inv t' i' _ s)); [done|].
    by apply stuck_update_inv.
  - destruct (invs s !! t') eqn:Ht'; [simpl in He|done].
    exact (stuck_exec_inv _ _ _ _ _ _ _ Hst Hn Ht' He).
  - destruct (hands s !! h') eqn:Hh'; simplify_eq.
    apply stuck_update_hand; [congruence|done].
  - destruct (hands s !! h') as [hd'|] eqn:Hh'; [simpl in He|done].
    unfold exec_hand in He. destruct (h_pc hd') eqn:Hpch; simplify_eq.
    pose proof (inv_lock _ Hi h' hd' Hh' ltac:(by rewrite Hpch)) as Hm'.
    simplify_eq. congruence.
Qed.

Lemma stuck_forever t h s s' :
  inv s → stuck t h s → reachable exec s s' → stuck t h s'.
Proof.
  intros Hi Hst Hr. induction Hr as [|s1 s2 s3 [a Ha] _ IH]; [done|].
  apply IH; [by eapply servercalls_exec_inv|by eapply stuck_preserved].
Qed.

(** A waiting call and a response handler about to lock for its key. *)
Lemma ready_to_complete s t h i hd :
  inv s → invs s !! t = Some i → in_table (i_pc i) = true →
  hands s !! h = Some hd → h_key hd = i_key i →
  ct_get (h_key hd) (table s) = Some t.
Proof. intros Hi Ht Hin _ ->. by apply (inv_pending _ Hi). Qed.

(** The cases of a step. *)
Ltac server_cases He :=
  simpl in He; unfold exec_inv, exec_hand, unlocked in He;
  repeat match type of He with
  | invs ?s !! ?t ≫= _ = _ => let E := fresh "Ht" in destruct (invs s !! t) eqn:E; [simpl in He|done]
  | hands ?s !! ?h ≫= _ = _ => let E := fresh "Hh" in destruct (hands s !! h) eqn:E; [simpl in He|done]
  end; break_in He.

(** ** What a step keeps, and what the call tables promise to the connections *)

Lemma servercalls_keeps a s s' t i :
  exec a s = Some s' → invs s !! t = Some i →
  ∃ i', invs s' !! t = Some i' ∧ i_key i' = i_key i ∧ i_reply i' = i_reply i.
Proof.
  intros He Ht.
  assert (∀ t0 i0 pc, invs s !! t0 = Some i0 →
    ∃ i', <[t0 := mkInv (i_key i0) (i_reply i0) pc]> (invs s) !! t = Some i' ∧
      i_key i' = i_key i ∧ i_reply i' = i_reply i) as Hset.
  { intros t0 i0 pc Ht0. destruct (decide (t0 = t)) as [->|].
    - eexists. rewrite lookup_insert_eq. split; [done|]. by simplify_eq.
    - exists i. by rewrite lookup_insert_ne. }
  destruct a; server_cases He; try (by exists i); try (by eapply Hset).
  all: exists i; rewrite lookup_insert_ne; [done|congruence].
Qed.

Lemma servercalls_hands a s s' h hd' :
  exec a s = Some s' → hands s' !! h = Some hd' →
  (∃ hd, hands s !! h = Some hd ∧ h_pub hd = h_pub hd' ∧ h_resp hd = h_resp hd') ∨
  a = Arrive h (h_pub hd') (h_resp hd').
Proof.
  intros He Hh'. destruct a; server_cases He; simpl in Hh'; lookups; eauto.
Qed.

Lemma servercalls_invoked t ctx method args reply callID s s' :
  exec (Invoke t ctx method args reply callID) s = Some s' →
  invs s !! t = None ∧ ∃ i, invs s' !! t = Some i ∧ (i_key i).2 = callID ∧ i_reply i = reply ∧
    ∀ pub req, prepare ctx method args callID = Ok (pub, req) → (i_key i).1 = pub.
Proof.
  simpl. destruct (fresh_id callID s); [|done]. destruct (invs s !! t) eqn:Ht; [done|].
  intros He. split; [done|].
  destruct (prepare ctx method args callID) as [[pub req]| |]; injection He as <-;
    eexists; simpl; rewrite lookup_insert_eq; split_and!; try done. by intros ? ? [= <- <-].
Qed.

(** An answered call, its response and the handler that brought it. *)
(** An [Invoke] comes to write once it has found its transport. *)
Lemma servercalls_writes a s s' t i' :
  exec a s = Some s' → invs s' !! t = Some i' → i_pc i' = IWrite →
  (∃ i, invs s !! t = Some i ∧ i_pc i = IWrite) ∨ ∃ u, a = Lookup t (Ok u).
Proof.
  intros He Hi' Hpc. destruct a; server_cases He; simpl in Hi'; lookups; repeat case_match; simplify_eq/=; eauto.
Qed.

(** Nobody else touches [s.mu]. *)
Lemma servercalls_mu_kept a s s' :
  exec a s = Some s' → match a with HandlerLock _ | HandlerUnlock _ => True | _ => mu s' = mu s end.
Proof.
  intros He. destruct a; try done; simpl in He; unfold exec_inv, unlocked in He.
  all: repeat first [progress simplify_eq/=|apply bind_Some in He as (?&?&He)|case_match|done].
Qed.

(** Who may take [s.mu]. *)
Lemma servercalls_locks a s s' h :
  exec a s = Some s' → mu s' = Some h → mu s = Some h ∨ a = HandlerLock h.
Proof.
  intros He Hm. destruct a; server_cases He; simplify_eq/=; eauto; congruence.
Qed.

(** An [Invoke] that waits for [s.mu]. *)
Definition waits_lock (pc : inv_pc) : bool :=
  match pc with IRegister | ILookup => true | _ => false end.

Lemma servercalls_waits_lock a s s' t i :
  exec a s = Some s' → mu s ≠ None → invs s !! t = Some i → waits_lock (i_pc i) = true → invs s' !! t = Some i.
Proof.
  intros He Hm Hi Hw.
  assert (∀ t0 i0 pc, invs s !! t0 = Some i0 → waits_lock (i_pc i0) = false →
    <[t0 := mkInv (i_key i0) (i_reply i0) pc]> (invs s) !! t = Some i) as Hset.
  { intros t0 i0 pc Hi0 Hw0. rewrite lookup_insert_ne; [done|]. intros ->. congruence. }
  destruct a; server_cases He; try done; try (by rewrite lookup_insert_ne by congruence); simpl;
    first [done|apply Hset; [done|]; by repeat match goal with E : i_pc _ = _ |- _ => rewrite E end].
Qed.

Lemma stuck_waits_lock t h s s' t0 i :
  inv s → stuck t h s → reachable exec s s' → invs s !! t0 = Some i → waits_lock (i_pc i) = true →
  invs s' !! t0 = Some i.
Proof.
  intros Hi Hst Hr. revert Hi Hst. induction Hr as [|s1 s2 s3 [a Ha] _ IH]; [done|]. intros Hi Hst Ht Hw.
  apply IH; [by eapply servercalls_exec_inv|by eapply stuck_preserved| |done].
  eapply servercalls_waits_lock; [done| |done..]. by rewrite (proj1 Hst).
Qed.

Lemma servercalls_answer s t i r out :
  reachable exec init s → invs s !! t = Some i → i_pc i = IGot r out →
  out = finish r (i_reply i) ∧
  ∃ h hd, hands s !! h = Some hd ∧ h_key hd = i_key i ∧ h_resp hd = r ∧
    (h_pc hd = HRemove t ∨ h_pc hd = HDone (Some t)) ∧
    (∀ h' hd', hands s !! h' = Some hd' →
       h_pc hd' = HRemove t ∨ h_pc hd' = HDone (Some t) → h' = h).
Proof.
  intros Hr Ht Hpc. pose proof (servercalls_reachable_inv s Hr) as Hi.
  split; [by apply (inv_got _ Hi t i r out)|].
  pose proof (CallSpec.rtc_matched (abs s)) as Hm.
  rewrite <- abs_init in Hm. specialize (Hm (servercalls_reachable_refines s Hr)).
  assert (∀ h' hd', hands s !! h' = Some hd' →
    h_pc hd' = HRemove t ∨ h_pc hd' = HDone (Some t) →
    CallSpec.inbox (abs s) !! h' = Some (CallSpec.Taken (h_key hd') (h_resp hd') t)) as Htk.
  { intros h' hd' Hh' Hp. unfold abs. simpl. rewrite lookup_fmap, Hh'. simpl.
    unfold abs_hand. by destruct Hp as [-> | ->]. }
  destruct (CallSpec.matched_call _ Hm t (i_key i) r) as [h Hh].
  { unfold abs. simpl. rewrite lookup_fmap, Ht. simpl. unfold abs_inv. by rewrite Hpc. }
  pose proof Hh as Hh1. unfold abs in Hh1. simpl in Hh1. rewrite lookup_fmap in Hh1.
  destruct (hands s !! h) as [hd|] eqn:Hhd; [|done]. simpl in Hh1.
  exists h, hd. unfold abs_hand in Hh1.
  destruct (h_pc hd) as [| |ch|[ch|]] eqn:Hp; simplify_eq/=;
    (split_and!; [done..|by eauto|]);
    intros h' hd' Hh' Hp'; eapply (CallSpec.matched_once _ Hm); eauto.
Qed.

(** ** Theorems *)

(** C12: The server's pending calls, with locks, goroutines and the nested table,
    behave like the abstract matching of calls and responses [CallSpec]:
    responses are taken only by the pending call of their key, once. *)
Theorem server_calls_refine s :
  reachable exec init s → rtc CallSpec.step CallSpec.init (abs s).
Proof. intros Hr. rewrite <- abs_init. by apply servercalls_reachable_refines. Qed.

(** An [Invoke] that returns with an answer returns what [finish] makes of one
    response that arrived from its peer under its call id; that response went to
    no other call. *)
Theorem server_answer_matches s t i r out :
  reachable exec init s → invs s !! t = Some i → i_pc i = IGot r out →
  out = finish r (i_reply i) ∧
  ∃ h hd, hands s !! h = Some hd ∧ h_key hd = i_key i ∧ h_resp hd = r ∧
    (h_pc hd = HRemove t ∨ h_pc hd = HDone (Some t)) ∧
    (∀ h' hd', hands s !! h' = Some hd' →
       h_pc hd' = HRemove t ∨ h_pc hd' = HDone (Some t) → h' = h).
Proof. apply servercalls_answer. Qed.

(** A response that finds its call waiting completes it: with the lock free, the
    handler's three steps return the call with that response's result, take the
    call out of the table and release the lock. *)
Theorem server_response_completes s t h i hd :
  reachable exec init s → mu s = None →
  invs s !! t = Some i → i_pc i = IWait →
  hands s !! h = Some hd → h_pc hd = HLock → h_key hd = i_key i →
  ∃ s' i', run exec [HandlerLock h; Receive t h; HandlerUnlock h] s = Some s' ∧
    invs s' !! t = Some i' ∧
    i_pc i' = IGot (h_resp hd) (finish (h_resp hd) (i_reply i)) ∧
    ct_get (i_key i) (table s') = None ∧ mu s' = None.
Proof.
  intros Hr Hmu Ht Hpc Hh Hpch Hk. pose proof (servercalls_reachable_inv s Hr) as Hi.
  pose proof (ready_to_complete s t h i hd Hi Ht ltac:(by rewrite Hpc) Hh Hk) as Hget.
  simpl. rewrite Hh. simpl. rewrite Hpch, Hget. unfold unlocked.
  rewrite Hmu. simpl. rewrite Ht, lookup_insert_eq. simpl. rewrite Hpc, decide_True by done.
  simpl. rewrite lookup_insert_eq. simpl. eexists _, _. split; [done|]. simpl.
  rewrite lookup_insert_eq. split_and!; [done|done| |done].
  rewrite ct_get_delete, decide_True; [done|]. exact Hk.
Qed.

(** A response that arrives for a call whose [Invoke] has left the [select] (its
    deadline passed, and it waits for the lock to deregister) or failed to send
    blocks the server's calls for good: the handler takes the lock, sends to
    nobody, and from then on no action that needs the lock is ever enabled. *)
Theorem server_stuck_handler s t h i hd s' :
  reachable exec init s → mu s = None →
  invs s !! t = Some i → gone (i_pc i) = true →
  hands s !! h = Some hd → h_pc hd = HLock → h_key hd = i_key i →
  exec (HandlerLock h) s = Some s' →
  ∀ s'', reachable exec s' s'' →
    mu s'' = Some h ∧ ∀ a, needs_lock a = true → exec a s'' = None.
Proof.
  intros Hr Hmu Ht Hg Hh Hpch Hk He s'' Hr'.
  pose proof (servercalls_reachable_inv s Hr) as Hi.
  assert (stuck t h s') as Hst.
  { pose proof (ready_to_complete s t h i hd Hi Ht ltac:(by destruct (i_pc i)) Hh Hk) as Hget.
    simpl in He. rewrite Hh in He. simpl in He. unfold exec_hand in He.
    rewrite Hpch, Hget in He. unfold unlocked in He. rewrite Hmu in He. simplify_eq.
    split_and!; simpl; [done| |by eauto]. eexists. by rewrite lookup_insert_eq. }
  assert (stuck t h s'') as Hst'.
  { eapply stuck_forever; [|exact Hst|exact Hr']. by eapply servercalls_exec_inv. }
  split; [apply Hst'|]. intros a Ha. by eapply stuck_blocks.
Qed.

Lemma failed_step a s s' t i :
  exec a s = Some s' → invs s !! t = Some i → (∃ out, i_pc i = IFailed out) →
  invs s' !! t = Some i.
Proof.
  intros He Ht [out Hpc]. destruct a as [t'| t' | t' | t' | t' h | t' | t' | h | h | h]; simpl in He.
  1: destruct (fresh_id _ _); [|done]; destruct (invs s !! t') eqn:Hn; [done|];
    destruct (prepare _ _ _ _) as [[]| |]; simplify_eq/=; rewrite lookup_insert_ne; congruence.
  all: repeat match type of He with
    | invs ?s !! ?t ≫= _ = _ =>
        destruct (invs s !! t) as [i'|] eqn:Ht'; [simpl in He|done]
    | hands ?s !! ?h ≫= _ = _ =>
        destruct (hands s !! h) as [hd|] eqn:Hh; [simpl in He|done]
    end.
  1-3,5-6: unfold exec_inv in He; destruct (i_pc i') eqn:Hpc'; try done;
    try (apply unlocked_some in He as [_ He]); break_in He;
    simpl; (rewrite lookup_insert_ne; congruence).
  - destruct (i_pc i') eqn:Hpc', (h_pc hd); try done. case_decide; simplify_eq/=.
    rewrite lookup_insert_ne; congruence.
  - destruct (hands s !! h); by simplify_eq/=.
  - destruct (h_pc hd); try done. apply unlocked_some in He as [_ He].
    destruct (ct_get _ _); by simplify_eq/=.
  - destruct (h_pc hd); by simplify_eq/=.
Qed.

(** An [Invoke] whose message could not be sent returns its error but leaves its
    entry in the table: it is there in every later state. *)
Theorem failed_send_leaks s t i out s' :
  reachable exec init s → invs s !! t = Some i → i_pc i = IFailed out →
  reachable exec s s' → ct_get (i_key i) (table s') = Some t.
Proof.
  intros Hr Ht Hpc Hr'.
  assert (invs s' !! t = Some i) as Ht'.
  { clear Hr. induction Hr' as [|s1 s2 s3 [a Ha] _ IH]; [done|].
    apply IH. by eapply failed_step; eauto. }
  apply (inv_pending s'); [|done|by rewrite Hpc].
  apply servercalls_reachable_inv. unfold reachable in *. by etrans.
Qed.
End ServerCalls.

(** ** Witnesses: one peer, string messages, the nested table *)

Definition w_init : sys (U:=Toy.U) (T:=Methods.MethodCalls nat) := init.
Definition w_key : bytes := [x01].
Definition w_ctx : Peer.Context := Peer.NewContext Peer.Background (Some (Peer.mkPeer w_key)).
Definition w_resp : Response := mkResponse "id1" (Some (Toy.str "pong")) "".
Definition w_call : list (action (U:=Toy.U)) :=
  [Invoke 0 w_ctx "Ping" (toy_user "hi") (toy_user "") "id1"; Register 0].
Definition w_waiting : list (action (U:=Toy.U)) :=
  w_call ++ [Lookup 0 (Ok ()); Write 0 (Ok ()); Arrive 7 w_key w_resp].
Definition w_wait_state := final exec w_waiting w_init.
Definition w_done_state :=
  final exec (w_waiting ++ [HandlerLock 7; Receive 0 7; HandlerUnlock 7]) w_init.
Definition w_late_state := final exec (w_waiting ++ [CtxDone 0 "deadline"]) w_init.
Definition w_locked_state :=
  final exec (w_waiting ++ [CtxDone 0 "deadline"; HandlerLock 7]) w_init.
Definition w_failed_state :=
  final exec (w_call ++ [Lookup 0 (Err "client not connected")]) w_init.

Definition w_hand : handler := mkHand w_key w_resp HLock.
Definition w_inv (pc : inv_pc (U:=Toy.U)) : invoker := mkInv (w_key, "id1") (toy_user "") pc.
Definition w_out : outcome (proto_msg Toy.U) := Ok (PUser (Some "pong")).

Lemma server_calls_refine_witness :
  rtc CallSpec.step CallSpec.init (abs w_done_state) ∧
  CallSpec.calls (abs w_done_state) !! 0 = Some (CallSpec.Returned (w_key, "id1") (Some w_resp)).
Proof. split; [apply (server_calls_refine w_done_state); at_state|at_state]. Defined.

Lemma server_answer_matches_witness :
  w_out = finish w_resp (toy_user "") ∧
  ∃ h hd, hands w_done_state !! h = Some hd ∧ h_resp hd = w_resp.
Proof.
  destruct (server_answer_matches w_done_state 0 (w_inv (IGot w_resp w_out)) w_resp w_out)
    as (Ho&h&hd&Hh&_&Hr&_); [at_state..|reflexivity|]. split; [exact Ho|by eauto].
Defined.

Lemma server_response_completes_witness :
  ∃ s' i', run exec [HandlerLock 7; Receive 0 7; HandlerUnlock 7] w_wait_state = Some s' ∧
    invs s' !! 0 = Some i' ∧ i_pc i' = IGot w_resp w_out ∧ mu s' = None.
Proof.
  destruct (server_response_completes w_wait_state 0 7 (w_inv IWait) w_hand)
    as (s'&i'&Hs&Hi&Hp&_&Hm); [at_state..|]. exists s', i'. split_and!; assumption.
Defined.

Lemma server_stuck_handler_witness :
  gone (i_pc (w_inv (ITimeout "deadline"))) = true ∧
  exec (RemoveCall 0) w_locked_state = None.
Proof.
  split; [reflexivity|].
  apply (server_stuck_handler w_late_state 0 7 (w_inv (ITimeout "deadline")) w_hand
    w_locked_state); try at_state. apply rtc_refl.
Defined.

Lemma failed_send_leaks_witness :
  ct_get (w_key, "id1") (table w_failed_state) = Some 0.
Proof.
  apply (failed_send_leaks w_failed_state 0 (w_inv (IFailed (Err "client not connected")))
    (Err "client not connected") w_failed_state); try at_state. apply rtc_refl.
Defined.
End ServerCalls.
