(* ===== verification/ClientCalls.v ===== *)
(** [client.go]: the client's outgoing calls, [Invoke] and
    [handleMessageResponse], over the [methodCalls] map.

    Every critical section of [cc.mu] here is one step: none of them blocks
    on a channel.  The handler function stored in the table sends on the
    channel made by its [Invoke], so both are named by that invoker. *)
From S2P Require Import Prelude Connectivity Message Methods CallSpec.

Module ClientCalls.
Import Message.

Section ClientCalls.
Context {U : Type} `{ProtoLib U}.
Context {T : Type} `{!CallTable T string nat, !CallTableLaws T string nat}.

(** [cc.addrConn] as [Invoke] sees it: nil after [Close], otherwise its
    connectivity state and whether its transport is set. *)
Abbreviation conn_view := (option (Connectivity.State * bool)).

(** The readiness check of [Invoke] and the building of the request. *)
Definition prepare (cc : conn_view) (method : string) (args : any U)
    (callID : string) : outcome slice :=
  match cc with
  | None => Panic NilDeref
  | Some (state, _) =>
      if decide (state = Connectivity.Ready) then
        req ← NewRequest callID method args;
        proto_Marshal (PMessage req : proto_msg U)
      else Err "connection is not ready"
  end.

(** [Invoke] after [<-wait]. *)
Definition finish (resp : Response) (reply : any U) : outcome (proto_msg U) :=
  if bool_decide (resp_Error resp = "")
  then UnmarshalProtoMessage (Response_GetPayload (Some resp)) reply
  else Err (resp_Error resp).

Inductive inv_pc :=
  | IRegister            (* about to register the call *)
  | ITransport           (* registered; about to read the transport *)
  | IWrite               (* in [tr.Write] *)
  | IWait                (* in the [select] *)
  | ICleanup (r : option Response) (out : outcome (proto_msg U))
                         (* returning; the deferred removal is about to run *)
  | IReturned (r : option Response) (out : outcome (proto_msg U)).

Record invoker := mkInv {
  i_key : string;   (* the call id *)
  i_reply : any U;
  i_done : bool;    (* the caller's [ctx] is done *)
  i_pc : inv_pc;
}.

Inductive hand_pc :=
  | HLock               (* about to look the call up *)
  | HSend (ch : nat)    (* in the handler function's [select] *)
  | HDone (sent : option nat).  (* finished; the channel it sent on, if any *)

Record handler := mkHand { h_resp : Response; h_pc : hand_pc }.

Record sys := mkSys {
  cc : conn_view;
  table : T;
  invs : gmap nat invoker;
  hands : gmap nat handler;
}.

Definition init : sys := mkSys (Some (Connectivity.Idle, false)) ct_empty ∅ ∅.

Definition h_key (hd : handler) : string := Response_GetCallId (Some (h_resp hd)).

(** [uuid.NewString] never returns a string again. *)
Definition fresh_id (callID : string) (s : sys) : bool :=
  bool_decide (map_Forall (λ _ i, i_key i ≠ callID) (invs s)).

Inductive action :=
  | ConnChange (c : Connectivity.State * bool)  (* the address connection moves *)
  | ConnClose                                   (* [Close] drops it *)
  | Invoke (t : nat) (method : string) (args reply : any U) (callID : string)
  | Register (t : nat)
  | Transport (t : nat)
  | Write (t : nat) (written : outcome unit)
  | Receive (t h : nat)             (* [wait <- r] meets [<-wait] *)
  | CtxExpire (t : nat)             (* the context given to [t] becomes done *)
  | CtxDone (t : nat) (e : error)   (* [Invoke] picks [<-ctx.Done()] *)
  | Cleanup (t : nat)
  | Arrive (h : nat) (r : Response)
  | HandlerLookup (h : nat)
  | HandlerCtxDone (h : nat).       (* the handler function picks [<-ctx.Done()] *)

Definition set_inv (t : nat) (i : invoker) (done : bool) (pc : inv_pc) (s : sys) : sys :=
  mkSys (cc s) (table s) (<[t := mkInv (i_key i) (i_reply i) done pc]> (invs s)) (hands s).
Definition set_pc (t : nat) (i : invoker) (pc : inv_pc) (s : sys) : sys :=
  set_inv t i (i_done i) pc s.
Definition set_hand (h : nat) (hd : handler) (pc : hand_pc) (s : sys) : sys :=
  mkSys (cc s) (table s) (invs s) (<[h := mkHand (h_resp hd) pc]> (hands s)).
Definition set_table (tb : T) (s : sys) : sys := mkSys (cc s) tb (invs s) (hands s).
Definition set_cc (c : conn_view) (s : sys) : sys := mkSys c (table s) (invs s) (hands s).

Definition exec_inv (a : action) (t : nat) (i : invoker) (s : sys) : option sys :=
  match a, i_pc i with
  | Register _, IRegister =>
      Some (set_pc t i ITransport (set_table (ct_put (i_key i) t (table s)) s))
  | Transport _, ITransport => Some (set_pc t i
      (match cc s with
       | None => ICleanup None (Err "client Close() called")
       | Some (_, false) => ICleanup None (Err "wsrpc: transport not ready")
       | Some (_, true) => IWrite
       end) s)
  | Write _ written, IWrite => Some (set_pc t i
      (match written with
       | Ok _ => IWait
       | Err e => ICleanup None (Err e)
       | Panic p => ICleanup None (Panic p)
       end) s)
  | CtxExpire _, pc => Some (set_inv t i true pc s)
  | CtxDone _ e, IWait =>
      if i_done i then Some (set_pc t i (ICleanup None (Err ("call timeout: " +:+ e))) s)
      else None
  | Cleanup _, ICleanup r out =>
      Some (set_pc t i (IReturned r out) (set_table (ct_delete (i_key i) (table s)) s))
  | _, _ => None
  end.

(** The context the handler function closes over is the invoker's. *)
Definition ctx_done (t : nat) (s : sys) : bool :=
  match invs s !! t with Some i => i_done i | None => false end.

Definition exec_hand (a : action) (h : nat) (hd : handler) (s : sys) : option sys :=
  match a, h_pc hd with
  | HandlerLookup _, HLock => Some (set_hand h hd
      (match ct_get (h_key hd) (table s) with
       | Some ch => HSend ch
       | None => HDone None
       end) s)
  | HandlerCtxDone _, HSend ch =>
      if ctx_done ch s then Some (set_hand h hd (HDone None) s) else None
  | _, _ => None
  end.

Definition exec (a : action) (s : sys) : option sys :=
  match a with
  | ConnChange c => if cc s is Some _ then Some (set_cc (Some c) s) else None
  | ConnClose => Some (set_cc None s)
  | Invoke t method args reply callID =>
      if fresh_id callID s then
        match invs s !! t with
        | Some _ => None
        | None => Some (mkSys (cc s) (table s) (<[t := mkInv callID reply false
            (match prepare (cc s) method args callID with
             | Ok _ => IRegister
             | Err e => IReturned None (Err e)
             | Panic p => IReturned None (Panic p)
             end)]> (invs s)) (hands s))
        end
      else None
  | Register t | Transport t | Write t _ | CtxExpire t | CtxDone t _ | Cleanup t =>
      i ← invs s !! t; exec_inv a t i s
  | Receive t h =>
      i ← invs s !! t; hd ← hands s !! h;
      match i_pc i, h_pc hd with
      | IWait, HSend ch =>
          if decide (ch = t) then
            Some (set_hand h hd (HDone (Some ch))
              (set_pc t i (ICleanup (Some (h_resp hd)) (finish (h_resp hd) (i_reply i))) s))
          else None
      | _, _ => None
      end
  | Arrive h r =>
      if hands s !! h is Some _ then None
      else Some (mkSys (cc s) (table s) (invs s) (<[h := mkHand r HLock]> (hands s)))
  | HandlerLookup h | HandlerCtxDone h => hd ← hands s !! h; exec_hand a h hd s
  end.

(** ** The invariant *)

(** The call is in the table from its registration to its deferred removal. *)
Definition registered (pc : inv_pc) : bool :=
  match pc with ITransport | IWrite | IWait | ICleanup _ _ => true | _ => false end.

Definition answer (pc : inv_pc) : option (Response * outcome (proto_msg U)) :=
  match pc with
  | ICleanup (Some r) out | IReturned (Some r) out => Some (r, out)
  | _ => None
  end.

Record inv (s : sys) : Prop := mkInvariant {
  inv_table k t : ct_get k (table s) = Some t ↔
    ∃ i, invs s !! t = Some i ∧ i_key i = k ∧ registered (i_pc i) = true;
  inv_send h hd ch : hands s !! h = Some hd → h_pc hd = HSend ch →
    ∃ i, invs s !! ch = Some i ∧ i_key i = h_key hd;
  inv_ids t1 t2 i1 i2 : invs s !! t1 = Some i1 → invs s !! t2 = Some i2 →
    i_key i1 = i_key i2 → t1 = t2;
  inv_got t i r out : invs s !! t = Some i → answer (i_pc i) = Some (r, out) →
    out = finish r (i_reply i);
}.

Lemma clientcalls_fresh_spec callID s t i :
  fresh_id callID s = true → invs s !! t = Some i → i_key i ≠ callID.
Proof. intros Hf%bool_decide_eq_true Hi. by eapply Hf. Qed.

(** Case analysis of lookups in updated maps. *)
Ltac lookups :=
  repeat match goal with
  | H : <[_ := _]> _ !! _ = Some _ |- _ =>
      apply lookup_insert_Some in H as [[? ?]|[? H]]; simplify_eq/=
  end.

(** A fact about a stored invoker survives an update that keeps its key. *)
Lemma keep_inv (P : invoker → Prop) (m : gmap nat invoker) t i i' ch :
  m !! t = Some i → (P i → P i') →
  (∃ j, m !! ch = Some j ∧ P j) → ∃ j, <[t := i']> m !! ch = Some j ∧ P j.
Proof.
  intros Ht Hk (j&Hj&HP). destruct (decide (t = ch)) as [<-|].
  - rewrite lookup_insert_eq. simplify_eq. eauto.
  - rewrite lookup_insert_ne by done. eauto.
Qed.

(** Moving an invoker, with the table change that goes with it. *)
Lemma clientcalls_move_inv t i done pc tb s :
  inv s → invs s !! t = Some i →
  (∀ k, ct_get k tb = if decide (i_key i = k)
        then (if registered pc then Some t else None) else ct_get k (table s)) →
  (∀ r out, answer pc = Some (r, out) → out = finish r (i_reply i)) →
  inv (set_inv t i done pc (set_table tb s)).
Proof.
  intros [Htb Hs Hu Hg] Hi Hget Hans. split; simpl.
  - intros k t'. rewrite Hget. case_decide as Hk.
    + split.
      * destruct (registered pc) eqn:Hreg; [|done]. intros [= <-].
        eexists. rewrite lookup_insert_eq. done.
      * intros (j&Hj&Hkj&Hr). lookups; [by rewrite Hr|].
        match goal with Hn : _ ≠ _ |- _ => by destruct Hn; eapply Hu end.
    + rewrite Htb. split.
      * intros (j&Hj&Hkj&Hr). exists j. rewrite lookup_insert_ne; [done|congruence].
      * intros (j&Hj&Hkj&Hr). lookups. eauto.
  - intros h hd ch Hh Hpc. eapply keep_inv; [done| |by eapply Hs]. done.
  - intros t1 t2 i1 i2 Ha Hb Hk. lookups; try done; by eapply Hu.
  - intros t' i' r out Ha Hb. lookups; eauto.
Qed.

Lemma clientcalls_move_same t i done pc s :
  inv s → invs s !! t = Some i → registered pc = registered (i_pc i) →
  (∀ r out, answer pc = Some (r, out) → out = finish r (i_reply i)) →
  inv (set_inv t i done pc s).
Proof.
  intros Hi Ht Hreg Hans.
  change (inv (set_inv t i done pc (set_table (table s) s))). apply clientcalls_move_inv; [done..| |done].
  intros k. case_decide as Hk; [|done]. rewrite Hreg.
  destruct (registered (i_pc i)) eqn:Hr; [by apply (inv_table _ Hi); eauto|].
  apply eq_None_not_Some. intros [t' (j&Hj&Hkj&Hrj)%(inv_table _ Hi)].
  assert (t = t') as <- by (eapply (inv_ids _ Hi); [done..|congruence]). congruence.
Qed.

Lemma clientcalls_hand_inv h hd' s :
  inv s →
  (∀ ch, h_pc hd' = HSend ch → ∃ i, invs s !! ch = Some i ∧ i_key i = h_key hd') →
  inv (mkSys (cc s) (table s) (invs s) (<[h := hd']> (hands s))).
Proof.
  intros [Htb Hs Hu Hg] Hch. split; simpl; try done.
  intros h' hd ch Hh Hpc. lookups; eauto.
Qed.

Lemma clientcalls_invoke_inv t i s :
  inv s → invs s !! t = None → fresh_id (i_key i) s = true →
  registered (i_pc i) = false → answer (i_pc i) = None →
  inv (mkSys (cc s) (table s) (<[t := i]> (invs s)) (hands s)).
Proof.
  intros [Htb Hs Hu Hg] Hn Hf Hreg Hans. split; simpl.
  - intros k t'. rewrite Htb. split; intros (j&Hj&?&Hr).
    + exists j. rewrite lookup_insert_ne; [done|congruence].
    + lookups; [congruence|]. eauto.
  - intros h hd ch Hh Hpc. destruct (Hs _ _ _ Hh Hpc) as (j&?&?).
    exists j. rewrite lookup_insert_ne; [done|congruence].
  - intros t1 t2 i1 i2 Ha Hb Hk. lookups; try done; [| |by eapply Hu].
    + by destruct (clientcalls_fresh_spec _ _ _ _ Hf Ha).
    + by destruct (clientcalls_fresh_spec _ _ _ _ Hf Hb).
  - intros t' i' r out Ha Hb. lookups. eauto.
Qed.

Lemma clientcalls_exec_inv_inv a t i s s' :
  inv s → invs s !! t = Some i → exec_inv a t i s = Some s' → inv s'.
Proof.
  intros Hi Ht He. unfold exec_inv in He.
  destruct a; try done; destruct (i_pc i) eqn:Hpc; try done; simplify_eq;
    try (apply clientcalls_move_same; [done..|by rewrite Hpc|];
         rewrite <- Hpc; exact (λ r out, inv_got _ Hi t i r out Ht)).
  - apply clientcalls_move_inv; [done..| |done]. intros k. apply ct_get_put.
  - apply clientcalls_move_same; [done..| |]; rewrite ?Hpc;
      by destruct (cc s) as [[? []]|].
  - apply clientcalls_move_same; [done..| |]; rewrite ?Hpc; by destruct written.
  - destruct (i_done i) eqn:Hd; simplify_eq.
    apply clientcalls_move_same; [done..|by rewrite Hpc|done].
  - apply clientcalls_move_inv; [done..| |].
    + intros k. apply ct_get_delete.
    + intros r0 out0 Ha. apply (inv_got _ Hi t i); [done|]. rewrite Hpc. by destruct r.
Qed.

#[local] Arguments exec_inv : simpl never.
#[local] Arguments exec_hand : simpl never.

Ltac step_cases He :=
  simpl in He;
  repeat match type of He with
  | invs ?s !! ?t ≫= _ = _ =>
      let Ht := fresh "Ht" in let i := fresh "i" in
      destruct (invs s !! t) as [i|] eqn:Ht; [simpl in He|discriminate He]
  | hands ?s !! ?h ≫= _ = _ =>
      let Hh := fresh "Hh" in let hd := fresh "hd" in
      destruct (hands s !! h) as [hd|] eqn:Hh; [simpl in He|discriminate He]
  end.

Lemma clientcalls_exec_inv a s s' : inv s → exec a s = Some s' → inv s'.
Proof.
  intros Hi He. destruct a; step_cases He; try (by eapply clientcalls_exec_inv_inv).
  - destruct (cc s); simplify_eq. by destruct Hi.
  - simplify_eq. by destruct Hi.
  - destruct (fresh_id callID s) eqn:Hf; [|done].
    destruct (invs s !! t) eqn:Hn; simplify_eq.
    apply clientcalls_invoke_inv; [done..| |]; simpl; by destruct (prepare _ _ _ _).
  - destruct (i_pc i) eqn:Hpc, (h_pc hd) eqn:Hpc'; try done. case_decide; simplify_eq.
    apply (clientcalls_hand_inv h (mkHand (h_resp hd) (HDone (Some t)))
      (set_pc t i _ s)); [|done].
    apply clientcalls_move_same; [done..|by rewrite Hpc|by intros r out [= <- <-]].
  - destruct (hands s !! h) eqn:Hh; simplify_eq. by apply clientcalls_hand_inv.
  - unfold exec_hand in He. destruct (h_pc hd) eqn:Hpc; simplify_eq.
    apply clientcalls_hand_inv; [done|]. intros ch. simpl.
    destruct (ct_get (h_key hd) (table s)) as [ch'|] eqn:Hget; [|done]. intros [= ->].
    apply (inv_table _ Hi) in Hget as (j&?&?&_). eauto.
  - unfold exec_hand in He. destruct (h_pc hd) eqn:Hpc; try done.
    destruct (ctx_done ch s); simplify_eq. by apply clientcalls_hand_inv.
Qed.

Lemma clientcalls_reachable_inv s : reachable exec init s → inv s.
Proof.
  apply reachable_invariant; [|intros a s1 s2; apply clientcalls_exec_inv].
  split; simpl; intros; simplify_map_eq.
  rewrite ct_get_empty. split; [done|]. intros (?&?&_). simplify_map_eq.
Qed.

(** ** Refinement of [CallSpec] *)

Definition abs_inv (i : invoker) : CallSpec.call string Response :=
  match i_pc i with
  | ICleanup r _ | IReturned r _ => CallSpec.Returned (i_key i) r
  | _ => CallSpec.Pending (i_key i)
  end.

Definition abs_hand (hd : handler) : CallSpec.arrival string Response :=
  match h_pc hd with
  | HDone (Some ch) => CallSpec.Taken (h_key hd) (h_resp hd) ch
  | _ => CallSpec.Arrived (h_key hd) (h_resp hd)
  end.

Definition abs (s : sys) : CallSpec.state string Response :=
  CallSpec.mkState (abs_inv <$> invs s) (abs_hand <$> hands s).

Lemma clientcalls_abs_init : abs init = CallSpec.init.
Proof. unfold abs, init. simpl. by rewrite !fmap_empty. Qed.

(** A step of one invoker either shows nothing or is the call giving up. *)
Lemma clientcalls_abs_move t i i' s s' :
  invs s !! t = Some i → invs s' = <[t := i']> (invs s) → hands s' = hands s →
  abs_inv i' = abs_inv i ∨
    abs_inv i = CallSpec.Pending (i_key i) ∧ abs_inv i' = CallSpec.Returned (i_key i) None →
  rtc CallSpec.step (abs s) (abs s').
Proof.
  intros Ht Hs Hh Hor.
  assert (abs s' = CallSpec.mkState (<[t := abs_inv i']> (abs_inv <$> invs s))
    (abs_hand <$> hands s)) as ->.
  { unfold abs. by rewrite Hs, Hh, fmap_insert. }
  destruct Hor as [Heq|[Hp Hr]].
  - rewrite Heq, insert_id; [apply rtc_refl|]. by rewrite lookup_fmap, Ht.
  - rewrite Hr. apply rtc_once, (CallSpec.s_fail t (i_key i) (abs s)). simpl.
    by rewrite lookup_fmap, Ht, <- Hp.
Qed.

Lemma clientcalls_abs_hand h hd hd' s :
  hands s !! h = Some hd → abs_hand hd' = abs_hand hd →
  abs (mkSys (cc s) (table s) (invs s) (<[h := hd']> (hands s))) = abs s.
Proof.
  intros Hh Heq. unfold abs. simpl. rewrite fmap_insert, Heq, insert_id; [done|].
  by rewrite lookup_fmap, Hh.
Qed.

Lemma clientcalls_exec_inv_refines a t i s s' :
  invs s !! t = Some i → exec_inv a t i s = Some s' → rtc CallSpec.step (abs s) (abs s').
Proof.
  intros Ht He. unfold exec_inv in He.
  destruct a; try done; destruct (i_pc i) eqn:Hpc; try done;
    break_in He; (eapply clientcalls_abs_move; [done|reflexivity..|]);
    unfold abs_inv; simpl; rewrite Hpc; (by left) || (by right).
Qed.

Lemma clientcalls_invoke_refines t method args reply callID s s' :
  exec (Invoke t method args reply callID) s = Some s' →
  rtc CallSpec.step (abs s) (abs s').
Proof.
  simpl. intros He. destruct (fresh_id callID s) eqn:Hf; [|done].
  destruct (invs s !! t) eqn:Hn; [done|].
  assert (CallSpec.step (abs s) (CallSpec.mkState
    (<[t := CallSpec.Pending callID]> (abs_inv <$> invs s)) (abs_hand <$> hands s))) as Hst.
  { apply (CallSpec.s_start t callID (abs s)); simpl.
    - by rewrite lookup_fmap, Hn.
    - intros t' c. rewrite lookup_fmap. destruct (invs s !! t') as [i'|] eqn:Hi'; [|done].
      intros [= <-] Heq. apply (clientcalls_fresh_spec _ _ _ _ Hf Hi'). rewrite <- Heq.
      by destruct i' as [? ? ? []]. }
  assert (rtc CallSpec.step (abs s) (CallSpec.mkState
    (<[t := CallSpec.Returned callID None]> (abs_inv <$> invs s)) (abs_hand <$> hands s))).
  { eapply rtc_l; [exact Hst|].
    rewrite <- (insert_insert_eq _ t (CallSpec.Returned callID None) (CallSpec.Pending callID)).
    apply rtc_once, (CallSpec.s_fail t callID (CallSpec.mkState _ _)), lookup_insert_eq. }
  simplify_eq. unfold abs at 2. simpl. rewrite fmap_insert. unfold abs_inv at 1.
  destruct (prepare _ _ _ _); simpl; [by apply rtc_once|done..].
Qed.

Lemma clientcalls_receive_refines t h i hd s :
  inv s → invs s !! t = Some i → hands s !! h = Some hd →
  i_pc i = IWait → h_pc hd = HSend t →
  CallSpec.step (abs s) (abs (set_hand h hd (HDone (Some t))
    (set_pc t i (ICleanup (Some (h_resp hd)) (finish (h_resp hd) (i_reply i))) s))).
Proof.
  intros Hi Ht Hh Hpc Hpc'.
  destruct (inv_send _ Hi h hd t) as (j&?&Hk); [done..|]. simplify_eq.
  unfold abs. simpl. rewrite !fmap_insert. unfold abs_inv at 1, abs_hand at 1. simpl.
  unfold h_key at 1. simpl. fold (h_key hd). rewrite Hk.
  apply (CallSpec.s_complete t h (h_key hd) (h_resp hd) (abs s)); simpl;
    rewrite lookup_fmap, ?Ht, ?Hh; simpl; unfold abs_inv, abs_hand;
    by rewrite ?Hpc, ?Hpc', ?Hk.
Qed.

Lemma clientcalls_exec_refines a s s' :
  inv s → exec a s = Some s' → rtc CallSpec.step (abs s) (abs s').
Proof.
  intros Hi He. destruct a; try (by eapply clientcalls_invoke_refines); step_cases He;
    try (by eapply clientcalls_exec_inv_refines).
  - destruct (cc s); by simplify_eq.
  - by simplify_eq.
  - destruct (i_pc i) eqn:Hpc, (h_pc hd) eqn:Hpc'; try done. case_decide; simplify_eq.
    apply rtc_once. by apply clientcalls_receive_refines.
  - destruct (hands s !! h) eqn:Hh; simplify_eq. unfold abs. simpl.
    rewrite fmap_insert. apply rtc_once, (CallSpec.s_arrive h _ _ (abs s)). simpl.
    by rewrite lookup_fmap, Hh.
  - unfold exec_hand in He. destruct (h_pc hd) eqn:Hpc; simplify_eq.
    unfold set_hand. rewrite (clientcalls_abs_hand h hd); [apply rtc_refl|done|].
    unfold abs_hand. rewrite Hpc. simpl. by destruct (ct_get _ _).
  - unfold exec_hand in He. destruct (h_pc hd) eqn:Hpc; try done.
    destruct (ctx_done ch s); simplify_eq.
    unfold set_hand. rewrite (clientcalls_abs_hand h hd); [apply rtc_refl|done|].
    unfold abs_hand. by rewrite Hpc.
Qed.

Lemma clientcalls_reachable_refines s :
  reachable exec init s → rtc CallSpec.step CallSpec.init (abs s).
Proof.
  intros Hr. rewrite <- clientcalls_abs_init.
  destruct (simulation exec CallSpec.step (λ c a, inv c ∧ a = abs c)) with init s (abs init)
    as (a&Ha&_&->); [|split; [|done]|done|done].
  - intros x c c' a [Hc ->] He. exists (abs c').
    split_and!; [by eapply clientcalls_exec_refines|by eapply clientcalls_exec_inv|done].
  - apply clientcalls_reachable_inv, rtc_refl.
Qed.

(** A handler that sends to a call whose [Invoke] stopped waiting, with a
    context that is not done. *)
Definition stranded (t h : nat) (hd : handler) (s : sys) : Prop :=
  hands s !! h = Some hd ∧ h_pc hd = HSend t ∧
  ∃ i, invs s !! t = Some i ∧ i_done i = false ∧
    match i_pc i with ICleanup _ _ | IReturned _ _ => True | _ => False end.

Lemma stranded_step t h hd a s s' :
  (∀ t', a = CtxExpire t' → t' ≠ t) → stranded t h hd s → exec a s = Some s' →
  stranded t h hd s'.
Proof.
  intros Ha (Hh&Hpc&i&Ht&Hd&Hp) He. unfold stranded.
  destruct a; step_cases He; unfold exec_inv, exec_hand in He; simplify_eq/=.
  - destruct (cc s); simplify_eq/=. eauto 10.
  - eauto 10.
  - destruct (fresh_id _ _); [|done]. destruct (invs s !! t0) eqn:Hn; simplify_eq/=.
    split_and!; [done..|]. exists i. rewrite lookup_insert_ne; [done|congruence].
  - destruct (i_pc i0) eqn:Hq; simplify_eq/=. split_and!; [done..|].
    exists i. rewrite lookup_insert_ne; [done|]. intros ->. by simplify_eq; rewrite Hq in Hp.
  - destruct (i_pc i0) eqn:Hq; simplify_eq/=. split_and!; [done..|].
    exists i. rewrite lookup_insert_ne; [done|]. intros ->. by simplify_eq; rewrite Hq in Hp.
  - destruct (i_pc i0) eqn:Hq; simplify_eq/=. split_and!; [done..|].
    exists i. rewrite lookup_insert_ne; [done|]. intros ->. by simplify_eq; rewrite Hq in Hp.
  - destruct (i_pc i0) eqn:Hq, (h_pc hd0) eqn:Hq'; try done. case_decide; simplify_eq/=.
    assert (t0 ≠ t) as Hne by (intros ->; simplify_eq; by rewrite Hq in Hp).
    rewrite !lookup_insert_ne by congruence. eauto 10.
  - specialize (Ha _ eq_refl). rewrite lookup_insert_ne by done. eauto 10.
  - destruct (i_pc i0) eqn:Hq; try done. destruct (i_done i0); simplify_eq/=.
    split_and!; [done..|]. exists i. rewrite lookup_insert_ne; [done|].
    intros ->. by simplify_eq; rewrite Hq in Hp.
  - destruct (i_pc i0) eqn:Hq; simplify_eq/=. split_and!; [done..|].
    destruct (decide (t0 = t)) as [->|]; simplify_eq.
    + eexists. by rewrite lookup_insert_eq.
    + exists i. by rewrite lookup_insert_ne.
  - destruct (hands s !! h0) eqn:Hn; simplify_eq/=.
    rewrite lookup_insert_ne by congruence. eauto 10.
  - destruct (h_pc hd0) eqn:Hq; simplify_eq/=. rewrite lookup_insert_ne by congruence.
    eauto 10.
  - destruct (h_pc hd0) eqn:Hq; try done. destruct (ctx_done ch s) eqn:Hc; simplify_eq/=.
    rewrite lookup_insert_ne; [by eauto 10|]. intros ->.
    assert (ch = t) as -> by congruence. unfold ctx_done in Hc. by rewrite Ht, Hd in Hc.
Qed.

(** What the calls of a client keep: a call its id and its reply; and a response
    handler appears with the response that arrived. *)
Lemma clientcalls_keeps a s s' t i :
  exec a s = Some s' → invs s !! t = Some i →
  ∃ i', invs s' !! t = Some i' ∧ i_key i' = i_key i ∧ i_reply i' = i_reply i.
Proof.
  intros He Ht.
  assert (∀ t0 i0 b pc, invs s !! t0 = Some i0 →
    ∃ i', <[t0 := mkInv (i_key i0) (i_reply i0) b pc]> (invs s) !! t = Some i' ∧
      i_key i' = i_key i ∧ i_reply i' = i_reply i) as Hset.
  { intros t0 i0 b pc Ht0. destruct (decide (t0 = t)) as [->|].
    - eexists. rewrite lookup_insert_eq. split; [done|]. by simplify_eq.
    - exists i. by rewrite lookup_insert_ne. }
  destruct a; step_cases He; unfold exec_inv, exec_hand in He; break_in He;
    try (by exists i); try (by eapply Hset).
  all: exists i; rewrite lookup_insert_ne; [done|congruence].
Qed.

Lemma clientcalls_hands a s s' h hd' :
  exec a s = Some s' → hands s' !! h = Some hd' →
  (∃ hd, hands s !! h = Some hd ∧ h_resp hd = h_resp hd') ∨ a = Arrive h (h_resp hd').
Proof.
  intros He Hh'.
  destruct a; step_cases He; unfold exec_inv, exec_hand in He; break_in He;
    simpl in Hh'; lookups; eauto.
Qed.

Lemma clientcalls_invoked t method args reply callID s s' :
  exec (Invoke t method args reply callID) s = Some s' →
  invs s !! t = None ∧ ∃ i, invs s' !! t = Some i ∧ i_key i = callID ∧ i_reply i = reply.
Proof.
  simpl. destruct (fresh_id callID s); [|done]. destruct (invs s !! t) eqn:Ht; [done|].
  intros [= <-]. split; [done|]. eexists. simpl. by rewrite lookup_insert_eq.
Qed.

(** How an [Invoke] gets as far as it is. *)
Lemma clientcalls_moves a s s' t i' :
  exec a s = Some s' → invs s' !! t = Some i' →
  match i_pc i' with
  | IRegister => (∃ i, invs s !! t = Some i ∧ i_pc i = IRegister) ∨ invs s !! t = None
  | ITransport => ∃ i, invs s !! t = Some i ∧ (i_pc i = IRegister ∨ i_pc i = ITransport)
  | IWrite =>
      (∃ i, invs s !! t = Some i ∧ i_pc i = IWrite) ∨
      a = Transport t ∧ (∃ i, invs s !! t = Some i ∧ i_pc i = ITransport) ∧
      ∃ st, cc s = Some (st, true)
  | _ => True
  end.
Proof.
  intros He Hi'. destruct (i_pc i') eqn:Hpc; try done;
    destruct a; step_cases He; unfold exec_inv, exec_hand in He; break_in He;
    simpl in Hi'; lookups; repeat case_match; simplify_eq/=; eauto 12.
Qed.

Lemma clientcalls_view a s s' :
  exec a s = Some s' → match a with ConnChange _ | ConnClose => False | _ => True end → cc s' = cc s.
Proof.
  intros He Ha. destruct a; step_cases He; unfold exec_inv, exec_hand in He; break_in He; done.
Qed.

(** An [Invoke] that waits goes on only with a response, or after its context. *)
Lemma clientcalls_waits a s s' t i :
  exec a s = Some s' → invs s !! t = Some i → i_done i = true ∨ i_pc i = IWait →
  (∀ h hd, hands s !! h = Some hd → ∃ o, h_pc hd = HDone o) →
  ∃ i', invs s' !! t = Some i' ∧ (i_done i' = true ∨ i_pc i' = IWait).
Proof.
  intros He Ht Hi Hh.
  assert (∀ t0 i0 b pc, invs s !! t0 = Some i0 → (t0 = t → b = true ∨ pc = IWait) →
    ∃ i', <[t0 := mkInv (i_key i0) (i_reply i0) b pc]> (invs s) !! t = Some i' ∧
      (i_done i' = true ∨ i_pc i' = IWait)) as Hset.
  { intros t0 i0 b pc Ht0 Hb. destruct (decide (t0 = t)) as [->|].
    - eexists. rewrite lookup_insert_eq. split; [done|]. by apply Hb.
    - exists i. by rewrite lookup_insert_ne. }
  destruct a; step_cases He; unfold exec_inv, exec_hand in He; break_in He; simpl;
    try (by exists i); try (apply Hset; [done|]; intros ->; simplify_eq;
      first [by left|destruct Hi as [Hi|Hi]; [by left|first [congruence|by right]]]).
  1-3: exists i; rewrite lookup_insert_ne; [done|congruence].
  - match goal with H : hands s !! _ = Some _ |- _ => destruct (Hh _ _ H) as [o Ho] end. congruence.
Qed.

(** Without a new response, response handlers that have finished stay so. *)
Lemma clientcalls_hands_done a s s' :
  exec a s = Some s' → match a with Arrive _ _ => False | _ => True end →
  (∀ h hd, hands s !! h = Some hd → ∃ o, h_pc hd = HDone o) →
  ∀ h hd, hands s' !! h = Some hd → ∃ o, h_pc hd = HDone o.
Proof.
  intros He Ha Hh h hd Hhd.
  destruct a; try done; step_cases He; unfold exec_inv, exec_hand in He; break_in He; simpl in Hhd;
    lookups; eauto;
    match goal with H : hands s !! _ = Some _ |- _ => destruct (Hh _ _ H) as [? Ho] end; congruence.
Qed.

Lemma clientcalls_answer s t i r out :
  reachable exec init s → invs s !! t = Some i → answer (i_pc i) = Some (r, out) →
  out = finish r (i_reply i) ∧
  ∃ h hd, hands s !! h = Some hd ∧ h_key hd = i_key i ∧ h_resp hd = r ∧
    h_pc hd = HDone (Some t) ∧
    (∀ h' hd', hands s !! h' = Some hd' → h_pc hd' = HDone (Some t) → h' = h).
Proof.
  intros Hr Ht Hpc. split; [by apply (inv_got _ (clientcalls_reachable_inv s Hr) t i)|].
  pose proof (CallSpec.rtc_matched (abs s) (clientcalls_reachable_refines s Hr)) as Hm.
  destruct (CallSpec.matched_call _ Hm t (i_key i) r) as [h Hh].
  { simpl. rewrite lookup_fmap, Ht. simpl. unfold abs_inv.
    destruct (i_pc i) as [| | | |[]|[]]; by simplify_eq/=. }
  pose proof Hh as Hh1. simpl in Hh1. rewrite lookup_fmap in Hh1.
  destruct (hands s !! h) as [hd|] eqn:Hhd; [|done]. simpl in Hh1. unfold abs_hand in Hh1.
  destruct (h_pc hd) as [| |[ch|]] eqn:Hp; simplify_eq/=.
  exists h, hd. split_and!; [done..|]. intros h' hd' Hh' Hp'.
  eapply (CallSpec.matched_once _ Hm); [|exact Hh].
  simpl. rewrite lookup_fmap, Hh'. simpl. unfold abs_hand. by rewrite Hp'.
Qed.

(** ** Theorems *)

(** C13: The client's pending calls behave like the abstract matching of calls and
    responses [CallSpec]. *)
Theorem client_calls_refine s :
  reachable exec init s → rtc CallSpec.step CallSpec.init (abs s).
Proof. apply clientcalls_reachable_refines. Qed.

(** The call table holds exactly the calls between their registration and their
    deferred removal, each under its own id; so it is empty again when every
    [Invoke] has returned. *)
Theorem client_table_exact s :
  reachable exec init s →
  (∀ k t, ct_get k (table s) = Some t ↔
    ∃ i, invs s !! t = Some i ∧ i_key i = k ∧ registered (i_pc i) = true) ∧
  ((∀ t i, invs s !! t = Some i → ∃ r out, i_pc i = IReturned r out) →
    ∀ k, ct_get k (table s) = (None : option nat)).
Proof.
  intros Hi%clientcalls_reachable_inv. split; [apply (inv_table _ Hi)|].
  intros Hret k. apply eq_None_not_Some. intros [t (i&Ht&_&Hr)%(inv_table _ Hi)].
  destruct (Hret _ _ Ht) as (r&out&Hpc). by rewrite Hpc in Hr.
Qed.

(** An [Invoke] that is answered returns what [finish] makes of one response that
    arrived under its call id, and that response answered no other call. *)
Theorem client_answer_matches s t i r out :
  reachable exec init s → invs s !! t = Some i → answer (i_pc i) = Some (r, out) →
  out = finish r (i_reply i) ∧
  ∃ h hd, hands s !! h = Some hd ∧ h_key hd = i_key i ∧ h_resp hd = r ∧
    h_pc hd = HDone (Some t) ∧
    (∀ h' hd', hands s !! h' = Some hd' → h_pc hd' = HDone (Some t) → h' = h).
Proof. apply clientcalls_answer. Qed.

(** A waiting call whose context is done can always return, whatever the peers
    and the other goroutines do: it reports the timeout and leaves no entry. *)
Theorem client_expired_returns s t i e :
  reachable exec init s → invs s !! t = Some i → i_pc i = IWait → i_done i = true →
  ∃ s' i', run exec [CtxDone t e; Cleanup t] s = Some s' ∧ invs s' !! t = Some i' ∧
    i_pc i' = IReturned None (Err ("call timeout: " +:+ e)) ∧
    ct_get (i_key i) (table s') = None.
Proof.
  intros Hr Ht Hpc Hd. simpl. rewrite Ht. simpl. unfold exec_inv at 1. rewrite Hpc, Hd. simpl.
  rewrite lookup_insert_eq. simpl. eexists _, _. split; [done|]. simpl.
  rewrite lookup_insert_eq. split_and!; [done..|]. by rewrite ct_get_delete, decide_True.
Qed.

(** A response that arrives while its call waits completes it. *)
Theorem client_response_completes s t h i hd :
  reachable exec init s → invs s !! t = Some i → i_pc i = IWait →
  hands s !! h = Some hd → h_pc hd = HLock → h_key hd = i_key i →
  ∃ s' i', run exec [HandlerLookup h; Receive t h; Cleanup t] s = Some s' ∧
    invs s' !! t = Some i' ∧
    i_pc i' = IReturned (Some (h_resp hd)) (finish (h_resp hd) (i_reply i)) ∧
    ct_get (i_key i) (table s') = None.
Proof.
  intros Hr Ht Hpc Hh Hpch Hk. pose proof (clientcalls_reachable_inv s Hr) as Hi.
  assert (ct_get (h_key hd) (table s) = Some t) as Hget.
  { apply (inv_table _ Hi). exists i. by rewrite Hpc. }
  simpl. rewrite Hh. simpl. unfold exec_hand at 1. rewrite Hpch, Hget. simpl.
  rewrite Ht, lookup_insert_eq. simpl. rewrite Hpc, decide_True by done. simpl.
  rewrite lookup_insert_eq. simpl. eexists _, _. split; [done|]. simpl.
  rewrite lookup_insert_eq. split_and!; [done..|]. by rewrite ct_get_delete, decide_True.
Qed.

(** A response whose call has stopped waiting, because another response with the
    same id was taken first, leaves its handler goroutine in the handler
    function's [select] until the caller's context is done: with a context that
    never is, it never ends (and [Close] waits for it). *)
Theorem client_stranded_handler s t h hd acts s' :
  stranded t h hd s → (∀ t', CtxExpire t' ∈ acts → t' ≠ t) →
  run exec acts s = Some s' → hands s' !! h = Some hd ∧ h_pc hd = HSend t.
Proof.
  intros Hst Hacts Hrun. assert (stranded t h hd s') as (?&?&_); [|done].
  revert s Hst Hrun. induction acts as [|a acts IH]; intros s Hst Hrun; simpl in Hrun.
  { by simplify_eq. }
  destruct (exec a s) as [s1|] eqn:He; [|done]. simpl in Hrun.
  eapply IH; [|by eapply stranded_step; [|done..]; intros t' ->; apply Hacts; left|done].
  intros t' Ht'. apply Hacts. by right.
Qed.

(** [Invoke] on a closed connection panics in its first step: the nil check that
    answers "client Close() called" comes after the state was read. *)
Theorem client_invoke_after_close s t method args reply callID :
  cc s = None → invs s !! t = None → fresh_id callID s = true →
  ∃ s', exec (Invoke t method args reply callID) s = Some s' ∧
    invs s' !! t = Some (mkInv callID reply false (IReturned None (Panic NilDeref))).
Proof.
  intros Hc Ht Hf. simpl. rewrite Hf, Ht, Hc. eexists. split; [done|].
  apply lookup_insert_eq.
Qed.
End ClientCalls.

(** ** Witnesses: string messages, the client's flat table *)

Definition w_init : sys (U:=Toy.U) (T:=gmap string nat) := init.
Definition w_resp : Response := mkResponse "id1" (Some (Toy.str "pong")) "".
Definition w_call : list (action (U:=Toy.U)) :=
  [ConnChange (Connectivity.Ready, true); Invoke 0 "Ping" (toy_user "hi") (toy_user "") "id1";
   Register 0; Transport 0; Write 0 (Ok ()); Arrive 7 w_resp; Arrive 8 w_resp].
Definition w_answered : list (action (U:=Toy.U)) :=
  w_call ++ [HandlerLookup 7; HandlerLookup 8; Receive 0 7; Cleanup 0].
Definition w_wait_state := final exec w_call w_init.
Definition w_expired_state := final exec (w_call ++ [CtxExpire 0]) w_init.
Definition w_done_state := final exec w_answered w_init.
Definition w_inv (done : bool) (pc : inv_pc (U:=Toy.U)) : invoker :=
  mkInv "id1" (toy_user "") done pc.
Definition w_out : outcome (proto_msg Toy.U) := Ok (PUser (Some "pong")).

Lemma client_calls_refine_witness :
  rtc CallSpec.step CallSpec.init (abs w_done_state) ∧
  CallSpec.calls (abs w_done_state) !! 0 = Some (CallSpec.Returned "id1" (Some w_resp)).
Proof. split; [apply (client_calls_refine w_done_state); at_state|at_state]. Defined.

Lemma client_table_exact_witness : ct_get "id1" (table w_wait_state) = Some 0.
Proof.
  destruct (client_table_exact w_wait_state) as [Ht _]; [at_state|].
  apply Ht. exists (w_inv false IWait). split_and!; at_state.
Defined.

Lemma client_answer_matches_witness :
  w_out = finish w_resp (toy_user "") ∧
  ∃ h hd, hands w_done_state !! h = Some hd ∧ h_resp hd = w_resp.
Proof.
  destruct (client_answer_matches w_done_state 0 (w_inv false (IReturned (Some w_resp) w_out))
    w_resp w_out) as (Ho&h&hd&Hh&_&Hr&_); [at_state..|]. split; [exact Ho|by eauto].
Defined.

Lemma client_expired_returns_witness :
  ∃ s' i', run exec [CtxDone 0 "deadline"; Cleanup 0] w_expired_state = Some s' ∧
    invs s' !! 0 = Some i' ∧ i_pc i' = IReturned None (Err "call timeout: deadline").
Proof.
  destruct (client_expired_returns w_expired_state 0 (w_inv true IWait) "deadline")
    as (s'&i'&Hs&Hi&Hp&_); [at_state..|]. exists s', i'. split_and!; assumption.
Defined.

Lemma client_response_completes_witness :
  ∃ s' i', run exec [HandlerLookup 8; Receive 0 8; Cleanup 0] w_wait_state = Some s' ∧
    invs s' !! 0 = Some i' ∧ i_pc i' = IReturned (Some w_resp) w_out.
Proof.
  destruct (client_response_completes w_wait_state 0 8 (w_inv false IWait) (mkHand w_resp HLock))
    as (s'&i'&Hs&Hi&Hp&_); [at_state..|]. exists s', i'. split_and!; assumption.
Defined.

Lemma client_stranded_handler_witness :
  ∃ s', run exec [ConnClose] w_done_state = Some s' ∧
    hands s' !! 8 = Some (mkHand w_resp (HSend 0)).
Proof.
  eexists. split; [vm_compute; reflexivity|].
  eapply (client_stranded_handler w_done_state 0 8 (mkHand w_resp (HSend 0)) [ConnClose]).
  - split_and!; [at_state..|].
    exists (w_inv false (IReturned (Some w_resp) w_out)). split_and!; [at_state..|exact I].
  - intros t' Ht'. by apply list_elem_of_singleton in Ht'.
  - vm_compute. reflexivity.
Defined.

Definition w_closed_state : sys (U:=Toy.U) (T:=gmap string nat) := set_cc None w_init.

Lemma client_invoke_after_close_witness :
  ∃ s', exec (Invoke 0 "Ping" (toy_user "hi") (toy_user "") "id1") w_closed_state = Some s' ∧
    invs s' !! 0 = Some (w_inv false (IReturned None (Panic NilDeref))).
Proof.
  apply (client_invoke_after_close w_closed_state 0 "Ping" (toy_user "hi") (toy_user "") "id1");
    at_state.
Defined.
End ClientCalls.
