(* ===== verification/Service.v ===== *)
(** [service.go] and the handling of incoming requests by both endpoints:
    registration ([register] of [client.go] and [server.go]), validation and
    [handleMessageRequest] up to the sending of the reply. *)
From S2P Require Import Prelude Peer Message.

Module Service.
Import Message.

(** What a handler does: return a value and an error, or panic. *)
Inductive handler_result (U : Type) :=
  | HReturn (v : any U) (herr : option error)
  | HPanic (p : panic).
Arguments HReturn {_} _ _.
Arguments HPanic {_} _.

Section Service.
Context {U : Type} `{ProtoLib U} {Impl : Type}.

(** [func(interface{}) error]: fill a value from the request's payload. *)
Abbreviation decoder := (any U → outcome (proto_msg U)).

Definition methodHandler : Type := Impl → Peer.Context → decoder → handler_result U.

Record MethodDesc := mkMethodDesc { MethodName : string; Handler : methodHandler }.

(** [HandlerType] is set by the generated code and never read. *)
Record ServiceDesc := mkServiceDesc { ServiceName : string; Methods : list MethodDesc }.

Record serviceInfo := mkServiceInfo {
  serviceImpl : Impl;
  methods : gmap string MethodDesc;
}.

(** [register]: the field [service] is nil until it runs. *)
Definition register (sd : ServiceDesc) (ss : Impl) : option serviceInfo :=
  Some (mkServiceInfo ss (insert_all ((λ d, (MethodName d, d)) <$> Methods sd) ∅)).

(** [s.service.methods], through a possibly nil pointer. *)
Definition service_methods (svc : option serviceInfo) : outcome (gmap string MethodDesc) :=
  match svc with Some info => Ok (methods info) | None => Panic NilDeref end.

Definition request_decoder (r : option Request) : decoder :=
  λ v, UnmarshalProtoMessage (Request_GetPayload r) v.

(** [NewResponse] and [MarshalProtoMessage] on what the handler returned; an
    error of either ends the handling without a reply. *)
Definition encode_reply (r : option Request) (v : any U) (herr : option error) :
    outcome (option slice) :=
  match NewResponse (Request_GetCallId r) v herr with
  | Err _ => Ok None
  | Panic p => Panic p
  | Ok msg =>
      match MarshalProtoMessage (AnyProto (PMessage msg) : any U) with
      | Err _ => Ok None
      | Panic p => Panic p
      | Ok replyMsg => Ok (Some replyMsg)
      end
  end.

Definition run_handler (md : MethodDesc) (impl : Impl) (ctx : Peer.Context)
    (r : option Request) : outcome (option slice) :=
  match Handler md impl ctx (request_decoder r) with
  | HPanic p => Panic p
  | HReturn v herr => encode_reply r v herr
  end.

(** [ClientConn.handleMessageRequest], up to [tr.Write]: the bytes to write, if
    any. *)
Definition client_handleMessageRequest (svc : option serviceInfo) (r : option Request) :
    outcome (option slice) :=
  ms ← service_methods svc;
  match svc, ms !! Request_GetMethod r with
  | Some info, Some md => run_handler md (serviceImpl info) Peer.Background r
  | _, _ => Ok None
  end.

(** [uuid.Parse] and [Version], of the uuid package. *)
Context (uuid_Parse : string → outcome Z).

Definition validateMessageRequest (svc : option serviceInfo) (r : option Request) :
    outcome unit :=
  ms ← service_methods svc;
  match ms !! Request_GetMethod r with
  | None => Err ("unrecognized method: " +:+ Request_GetMethod r)
  | Some _ =>
      let invalid e := Err ("invalid callId " +:+ Request_GetCallId r +:+ ": " +:+ e) in
      match uuid_Parse (Request_GetCallId r) with
      | Ok v => if decide (v = 4%Z) then Ok tt else invalid "%!w(<nil>)"
      | Err e => invalid e
      | Panic p => Panic p
      end
  end.

(** [Server.handleMessageRequest], up to [s.sendMsg]. *)
Definition server_handleMessageRequest (svc : option serviceInfo) (pubKey : bytes)
    (r : option Request) : outcome (option slice) :=
  match validateMessageRequest svc r with
  | Err _ => Ok None
  | Panic p => Panic p
  | Ok _ =>
      ms ← service_methods svc;
      match svc, ms !! Request_GetMethod r with
      | Some info, Some md =>
          run_handler md (serviceImpl info)
            (Peer.NewContext Peer.Background (Some (Peer.mkPeer pubKey))) r
      | _, _ => Panic NilDeref
      end
  end.
End Service.

Arguments methodHandler : clear implicits.
Arguments MethodDesc : clear implicits.
Arguments ServiceDesc : clear implicits.
Arguments serviceInfo : clear implicits.

(** ** Registration *)

Section Registration.
Context {U : Type} `{ProtoLib U} {Impl : Type}.

Definition named (name : string) (ds : list (MethodDesc U Impl)) : list (MethodDesc U Impl) :=
  filter (λ d, MethodName d = name) ds.

Lemma insert_all_named name (ds : list (MethodDesc U Impl)) m :
  insert_all ((λ d, (MethodName d, d)) <$> ds) m !! name =
    match last (named name ds) with Some d => Some d | None => m !! name end.
Proof.
  unfold named. revert m. induction ds as [|d ds IH]; intros m; [done|].
  rewrite fmap_cons, insert_all_cons, IH, filter_cons.
  case_decide as Hd; [|by rewrite lookup_insert_ne].
  rewrite last_cons. destruct (last _); [done|]. by rewrite Hd, lookup_insert_eq.
Qed.

(** A registered service dispatches a name to the last descriptor that carries
    it and to nothing else, and keeps nothing of what was registered before. *)
Theorem register_last_wins (sd : ServiceDesc U Impl) (ss : Impl) :
  ∃ info, register sd ss = Some info ∧ serviceImpl info = ss ∧
    ∀ name, methods info !! name = last (named name (Methods sd)).
Proof.
  eexists. split_and!; [done..|]. intros name. simpl. rewrite insert_all_named.
  by destruct (last _).
Qed.
End Registration.

(** ** Handling of requests *)

Section Requests.
Context {U : Type} `{ProtoLib U} {Impl : Type} (uuid_Parse : string → outcome Z).

Lemma server_replies (svc : option (serviceInfo U Impl)) pubKey r b :
  server_handleMessageRequest uuid_Parse svc pubKey r = Ok (Some b) ↔
  ∃ info md v herr msg, svc = Some info ∧ methods info !! Request_GetMethod r = Some md ∧
    uuid_Parse (Request_GetCallId r) = Ok 4%Z ∧
    Handler md (serviceImpl info) (Peer.NewCallContext Peer.Background pubKey)
      (request_decoder r) = HReturn v herr ∧
    NewResponse (Request_GetCallId r) v herr = Ok msg ∧
    MarshalMessage msg = Ok b.
Proof.
  unfold server_handleMessageRequest, validateMessageRequest, run_handler, encode_reply.
  change (Peer.NewCallContext Peer.Background pubKey) with
    (Peer.NewContext Peer.Background (Some (Peer.mkPeer pubKey))).
  split.
  - destruct svc as [info|]; simpl; [|done].
    destruct (methods info !! Request_GetMethod r) as [md|] eqn:Hm; [|done].
    destruct (uuid_Parse (Request_GetCallId r)) as [v| |] eqn:Hu; [|done..].
    case_decide; [subst|done].
    destruct (Handler md _ _ _) as [v herr|] eqn:Hh; [|done].
    destruct (NewResponse (Request_GetCallId r) v herr) as [msg| |] eqn:Hn; [simpl|done..].
    destruct (MarshalMessage msg) as [b'| |] eqn:Hb; intros; simplify_eq.
    by exists info, md, v, herr, msg.
  - intros (info&md&v&herr&msg&->&Hm&Hu&Hh&Hn&Hb). simpl. by rewrite Hm, Hu, Hh, Hn, Hb.
Qed.

(** The server answers a request with bytes exactly when a service is
    registered, it has the method, the call id is a version 4 UUID, and the
    handler's result can be encoded; the handler then ran with the peer's key
    in its context. *)
Theorem server_replies_iff (svc : option (serviceInfo U Impl)) pubKey r b :
  server_handleMessageRequest uuid_Parse svc pubKey r = Ok (Some b) ↔
  ∃ info md v herr msg, svc = Some info ∧ methods info !! Request_GetMethod r = Some md ∧
    uuid_Parse (Request_GetCallId r) = Ok 4%Z ∧
    Handler md (serviceImpl info) (Peer.NewCallContext Peer.Background pubKey)
      (request_decoder r) = HReturn v herr ∧
    NewResponse (Request_GetCallId r) v herr = Ok msg ∧
    MarshalMessage msg = Ok b.
Proof. apply server_replies. Qed.

(** The client answers a request with bytes exactly when a service is registered,
    it has the method, and the handler's result can be encoded; it does not look
    at the call id, and the handler's context carries no peer. *)
Theorem client_replies_iff (svc : option (serviceInfo U Impl)) r b :
  client_handleMessageRequest svc r = Ok (Some b) ↔
  ∃ info md v herr msg, svc = Some info ∧ methods info !! Request_GetMethod r = Some md ∧
    Handler md (serviceImpl info) Peer.Background (request_decoder r) = HReturn v herr ∧
    NewResponse (Request_GetCallId r) v herr = Ok msg ∧
    MarshalMessage msg = Ok b.
Proof.
  unfold client_handleMessageRequest, run_handler, encode_reply. split.
  - destruct svc as [info|]; simpl; [|done].
    destruct (methods info !! Request_GetMethod r) as [md|] eqn:Hm; [|done].
    destruct (Handler md _ _ _) as [v herr|] eqn:Hh; [|done].
    destruct (NewResponse (Request_GetCallId r) v herr) as [msg| |] eqn:Hn; [simpl|done..].
    destruct (MarshalMessage msg) as [b'| |] eqn:Hb; intros; simplify_eq.
    by exists info, md, v, herr, msg.
  - intros (info&md&v&herr&msg&->&Hm&Hh&Hn&Hb). simpl. by rewrite Hm, Hh, Hn, Hb.
Qed.

(** A handler whose value is not a protobuf message, in particular the untyped
    nil that a generated handler returns when the payload does not decode, gets
    no reply sent, whatever its error: the caller is left waiting. *)
Theorem no_reply_without_message (md : MethodDesc U Impl) impl ctx r v herr :
  Handler md impl ctx (request_decoder r) = HReturn v herr →
  (∀ m, v ≠ AnyProto m) → run_handler md impl ctx r = Ok None.
Proof.
  intros Hh Hv. unfold run_handler, encode_reply. rewrite Hh.
  destruct v as [| |m]; [done..|]. by destruct (Hv m).
Qed.

(** A request that arrives before any service was registered makes the handling
    goroutine dereference nil, on both endpoints. *)
Theorem request_without_service pubKey r :
  server_handleMessageRequest (U:=U) (Impl:=Impl) uuid_Parse None pubKey r = Panic NilDeref ∧
  client_handleMessageRequest (U:=U) (Impl:=Impl) None r = Panic NilDeref.
Proof. done. Qed.
End Requests.

(** ** Witness: a handler that returns the untyped nil with an error *)

Definition w_failing : MethodDesc Toy.U () :=
  mkMethodDesc "Ping" (λ _ _ _, HReturn AnyNil (Some "bad payload")).

Lemma no_reply_without_message_witness :
  run_handler w_failing tt Peer.Background None = Ok None.
Proof.
  apply (no_reply_without_message w_failing tt Peer.Background None AnyNil (Some "bad payload"));
    [reflexivity|discriminate].
Defined.
End Service.
