(* ===== verification/Rpc.v ===== *)
(** A whole call, from the bytes [Invoke] hands to its transport on one side
    to the result it returns when the answer of the other side comes back; with
    the stubs that [cmd/protoc-gen-go-wsrpc] generates around both ends. *)
From S2P Require Import Prelude Connectivity Peer Message Methods CallSpec Service.
From S2P Require Import ServerCalls ClientCalls.

Module Rpc.
Import Message Service.

Section Rpc.
Context {U : Type} `{ProtoLaws U} {Impl : Type}.

(** The handler [genServerMethod] generates: [new_in] is [new(Input)] and
    [method] the service's method. *)
Definition generated_handler (new_in : U)
    (method : Impl → Peer.Context → U → any U * option error) : methodHandler U Impl :=
  λ srv ctx dec,
    match dec (AnyProto (PUser new_in)) with
    | Ok (PUser in_) => let '(v, herr) := method srv ctx in_ in HReturn v herr
    | Ok (PMessage _) => let '(v, herr) := method srv ctx new_in in HReturn v herr
    | Err e => HReturn AnyNil (Some e)
    | Panic p => HPanic p
    end.

(** The client stub [genClientMethod] generates, around the outcome of
    [cc.Invoke(ctx, name, in, out)]. *)
Definition generated_client (invoked : outcome (proto_msg U)) : outcome U :=
  match invoked with
  | Ok (PUser out) => Ok out
  | Ok (PMessage _) => Err ""
  | Err e => Err e
  | Panic p => Panic p
  end.

(** What [prepare] of either endpoint builds for a call. *)
Definition prepared (method : string) (args : any U) (callID : string) (b : slice) : Prop :=
  ∃ msg, NewRequest callID method args = Ok msg ∧ MarshalMessage msg = Ok b.

(** Decoding it gives back the call. *)
Lemma prepared_request method args callID b q :
  prepared method args callID b →
  decode_envelope b = Ok (mkMessage (Some (Message_Request q))) →
  req_Method q = method ∧ req_CallId q = callID ∧
  ∀ u, args = AnyProto (PUser u) →
    ∃ pl, MarshalUser u = Ok pl ∧ Request_GetPayload (Some q) = norm_slice pl.
Proof.
  intros (msg&(pl&Hpl&[= <-])%bind_ok_inv&Hb) Hq. simpl in Hb.
  rewrite decode_envelope_eq, (unmarshal_message _ _ Hb) in Hq. injection Hq as <-.
  split_and!; [done..|]. intros u ->. simpl in Hpl. by exists pl.
Qed.

(** What a method call of value [v] and error [herr] amounts to for the remote
    caller. *)
Definition remote_result (v : U) (herr : option error) : outcome U :=
  match herr with
  | Some e => if bool_decide (e = "") then Ok (decoded v) else Err e
  | None => Ok (decoded v)
  end.

Lemma generated_handler_decodes new_in method srv ctx r u pl :
  same_type u new_in → MarshalUser u = Ok pl →
  Request_GetPayload (Some r) = norm_slice pl →
  generated_handler new_in method srv ctx (request_decoder (Some r)) =
    let '(v, herr) := method srv ctx (decoded u) in HReturn v herr.
Proof.
  intros Ht Hpl Hr. unfold generated_handler, request_decoder. rewrite Hr. simpl.
  rewrite unmarshal_norm, (unmarshal_user _ _ _ Ht Hpl). simpl. by destruct (method _ _ _).
Qed.

(** The answer of a handler, decoded and finished by the caller. *)
Lemma answer_roundtrip callID v herr out msg b :
  NewResponse callID (AnyProto (PUser v)) herr = Ok msg → MarshalMessage msg = Ok b →
  same_type v out →
  ∃ resp, decode_envelope b = Ok (mkMessage (Some (Message_Response resp))) ∧
    Response_GetCallId (Some resp) = callID ∧
    generated_client (ClientCalls.finish resp (AnyProto (PUser out))) = remote_result v herr ∧
    generated_client (ServerCalls.finish resp (AnyProto (PUser out))) = remote_result v herr.
Proof.
  intros (pl&Hpl&[= <-])%bind_ok_inv Hb Ht. simpl in Hpl.
  rewrite decode_envelope_eq, (unmarshal_message _ _ Hb). eexists. split; [done|].
  unfold ServerCalls.finish, ClientCalls.finish, generated_client, remote_result. simpl.
  assert (UnmarshalUser (norm_slice pl) out = Ok (decoded v)) as ->.
  { rewrite unmarshal_norm. by apply unmarshal_user. }
  destruct herr as [e|]; simpl; [by destruct (bool_decide (e = ""))|done].
Qed.

(** The answer to a prepared call of a generated handler, in the context the endpoint
    gives it, as either endpoint finishes it. *)
Lemma answered_call (sd : ServiceDesc U Impl) impl ctx name md new_in method u v herr o id b rq b' resp :
  last (named name (Methods sd)) = Some md → Handler md = generated_handler new_in method →
  same_type u new_in → same_type v o →
  method impl ctx (decoded u) = (AnyProto (PUser v), herr) →
  prepared name (AnyProto (PUser u)) id b →
  decode_envelope b = Ok (mkMessage (Some (Message_Request rq))) →
  (∃ info md v herr msg, register sd impl = Some info ∧
    methods info !! Request_GetMethod (Some rq) = Some md ∧
    Handler md (serviceImpl info) ctx (request_decoder (Some rq)) = HReturn v herr ∧
    NewResponse (Request_GetCallId (Some rq)) v herr = Ok msg ∧ MarshalMessage msg = Ok b') →
  decode_envelope b' = Ok (mkMessage (Some (Message_Response resp))) →
  generated_client (ClientCalls.finish resp (AnyProto (PUser o))) = remote_result v herr ∧
  generated_client (ServerCalls.finish resp (AnyProto (PUser o))) = remote_result v herr.
Proof.
  intros Hmd Hgen Hin Hvo Hm Hp Hdec (info&md'&v'&herr'&msg&Hinfo&Hmd'&Hh&Hn&Hbb) Hresp.
  destruct (prepared_request _ _ _ _ _ Hp Hdec) as (Hname&_&Hpl).
  destruct (Hpl u eq_refl) as (pl&Hpl1&Hpl2).
  destruct (register_last_wins sd impl) as (info'&Hreg&Himpl&Hms).
  rewrite Hreg in Hinfo. injection Hinfo as <-. rewrite Hms in Hmd'. simpl in Hmd'.
  rewrite Hname, Hmd in Hmd'. injection Hmd' as <-. rewrite Hgen, Himpl in Hh.
  erewrite generated_handler_decodes in Hh by done. rewrite Hm in Hh. injection Hh as <- <-.
  destruct (answer_roundtrip _ _ _ o _ _ Hn Hbb Hvo) as (resp'&Hd&_&Hc&Hs).
  rewrite Hd in Hresp. by injection Hresp as <-.
Qed.
End Rpc.

Section EndToEnd.
Context {U : Type} `{ProtoLaws U} {Impl : Type} (uuid_Parse : string → outcome Z).

(** A client's call, end to end.  The server decodes the bytes [Invoke] sent to a
    request; if the call id is a version 4 UUID and the method's value can be
    encoded, the method runs on the decoded copy of the argument with the client's
    key in its context, the server answers, and the answer, delivered to the
    waiting call, makes the client stub return the method's error if it has a
    non-empty message and the decoded copy of its value otherwise. *)
Theorem client_call_end_to_end tr name u callID b pubKey (sd : ServiceDesc U Impl) impl
    new_in method md v herr out msg b' :
  ClientCalls.prepare (Some (Connectivity.Ready, tr)) name (AnyProto (PUser u)) callID = Ok b →
  last (named name (Methods sd)) = Some md → Handler md = generated_handler new_in method →
  same_type u new_in → same_type v out →
  method impl (Peer.NewCallContext Peer.Background pubKey) (decoded u) =
    (AnyProto (PUser v), herr) →
  uuid_Parse callID = Ok 4%Z →
  NewResponse callID (AnyProto (PUser v)) herr = Ok msg → MarshalMessage msg = Ok b' →
  ∃ r resp, decode_envelope b = Ok (mkMessage (Some (Message_Request r))) ∧
    server_handleMessageRequest uuid_Parse (register sd impl) pubKey (Some r) = Ok (Some b') ∧
    decode_envelope b' = Ok (mkMessage (Some (Message_Response resp))) ∧
    Response_GetCallId (Some resp) = callID ∧
    generated_client (ClientCalls.finish resp (AnyProto (PUser out))) = remote_result v herr.
Proof.
  intros Hp Hl Hmd Ht Hto Hm Hu Hn Hb'. unfold ClientCalls.prepare in Hp.
  rewrite decide_True in Hp by done. apply bind_ok_inv in Hp as (rmsg&Hmsg&Hb).
  apply bind_ok_inv in Hmsg as (pl&Hpl&[= <-]). simpl in Hpl, Hb.
  rewrite decode_envelope_eq, (unmarshal_message _ _ Hb).
  destruct (answer_roundtrip _ _ _ out _ _ Hn Hb') as (resp&?&?&?&_); [done|].
  eexists _, resp. split; [done|]. split_and!; [|done..].
  rewrite server_replies. destruct (register_last_wins sd impl) as (info&->&Hi&Hms).
  exists info, md, (AnyProto (PUser v)), herr, msg.
  split_and!; [done|by rewrite Hms|done| |done..].
  rewrite Hmd. erewrite generated_handler_decodes by done. by rewrite Hi, Hm.
Qed.

(** A server's call to a connected client, end to end, the same way; the method's
    context carries no peer and the call id is not checked. *)
Theorem server_call_end_to_end ctx name u callID pub b (sd : ServiceDesc U Impl) impl
    new_in method md v herr out msg b' :
  ServerCalls.prepare ctx name (AnyProto (PUser u)) callID = Ok (pub, b) →
  last (named name (Methods sd)) = Some md → Handler md = generated_handler new_in method →
  same_type u new_in → same_type v out →
  method impl Peer.Background (decoded u) = (AnyProto (PUser v), herr) →
  NewResponse callID (AnyProto (PUser v)) herr = Ok msg → MarshalMessage msg = Ok b' →
  ∃ p r resp, Peer.FromContext ctx = (Some p, true) ∧ pub = Peer.PublicKey p ∧
    decode_envelope b = Ok (mkMessage (Some (Message_Request r))) ∧
    client_handleMessageRequest (register sd impl) (Some r) = Ok (Some b') ∧
    decode_envelope b' = Ok (mkMessage (Some (Message_Response resp))) ∧
    Response_GetCallId (Some resp) = callID ∧
    generated_client (ServerCalls.finish resp (AnyProto (PUser out))) = remote_result v herr.
Proof.
  intros Hp Hl Hmd Ht Hto Hm Hn Hb'. unfold ServerCalls.prepare in Hp.
  apply bind_ok_inv in Hp as (rmsg&Hmsg&(rq&Hb&Hctx)%bind_ok_inv).
  apply bind_ok_inv in Hmsg as (pl&Hpl&[= <-]). simpl in Hpl, Hb.
  destruct (Peer.FromContext ctx) as [[p|] []] eqn:Hf; simplify_eq.
  rewrite decode_envelope_eq, (unmarshal_message _ _ Hb).
  destruct (answer_roundtrip _ _ _ out _ _ Hn Hb') as (resp&?&?&_&?); [done|].
  eexists p, _, resp. split_and!; [done..| |done|done|done].
  rewrite client_replies_iff. destruct (register_last_wins sd impl) as (info&->&Hi&Hms).
  exists info, md, (AnyProto (PUser v)), herr, msg.
  split_and!; [done|by rewrite Hms| |done..].
  rewrite Hmd. erewrite generated_handler_decodes by done. by rewrite Hi, Hm.
Qed.
End EndToEnd.

(** ** Witnesses: an echo service on string messages *)

Definition w_echo (_ : ()) (_ : Peer.Context) (x : Toy.U) : any Toy.U * option error :=
  (AnyProto (PUser (Some ("re: " +:+ default "" x))), None).
Definition w_sd : ServiceDesc Toy.U () :=
  mkServiceDesc "Echo" [mkMethodDesc "Ping" (generated_handler None w_echo)].
Definition w_uuid (s : string) : outcome Z := if decide (s = "id1") then Ok 4%Z else Err "bad".
Definition w_request : slice :=
  Some (Toy.encode (mkMessage (Some (Message_Request (mkRequest "Ping" "id1" (Some (Toy.str "hi"))))))).
Definition w_reply : slice :=
  Some (Toy.encode (mkMessage (Some (Message_Response
    (mkResponse "id1" (Some (Toy.str "re: hi")) ""))))).

Definition w_response : Message :=
  mkMessage (Some (Message_Response (mkResponse "id1" (Some (Toy.str "re: hi")) ""))).

Lemma client_call_end_to_end_witness :
  ∃ r resp, decode_envelope (U:=Toy.U) w_request = Ok (mkMessage (Some (Message_Request r))) ∧
    server_handleMessageRequest w_uuid (register w_sd tt) [x01] (Some r) = Ok (Some w_reply) ∧
    generated_client (ClientCalls.finish resp (AnyProto (PUser (None : Toy.U)))) =
      Ok (Some "re: hi").
Proof.
  destruct (client_call_end_to_end (U:=Toy.U) w_uuid true "Ping" (Some "hi") "id1" w_request
    [x01] w_sd tt None w_echo (mkMethodDesc "Ping" (generated_handler None w_echo))
    (Some "re: hi") None None w_response w_reply) as (r&resp&Hr&Hgo&_&_&Hres);
    [reflexivity..|exact I|exact I|reflexivity|reflexivity|reflexivity|reflexivity|].
  exists r, resp. split_and!; [exact Hr|exact Hgo|exact Hres].
Defined.

Lemma server_call_end_to_end_witness :
  ∃ r resp, decode_envelope (U:=Toy.U) w_request = Ok (mkMessage (Some (Message_Request r))) ∧
    client_handleMessageRequest (register w_sd tt) (Some r) = Ok (Some w_reply) ∧
    generated_client (ServerCalls.finish resp (AnyProto (PUser (None : Toy.U)))) =
      Ok (Some "re: hi").
Proof.
  destruct (server_call_end_to_end (U:=Toy.U) (Peer.NewCallContext Peer.Background [x01]) "Ping"
    (Some "hi") "id1" [x01] w_request w_sd tt None w_echo
    (mkMethodDesc "Ping" (generated_handler None w_echo))
    (Some "re: hi") None None w_response w_reply) as (p&r&resp&_&_&Hr&Hgo&_&_&Hres);
    [reflexivity..|exact I|exact I|reflexivity|reflexivity|reflexivity|].
  exists r, resp. split_and!; [exact Hr|exact Hgo|exact Hres].
Defined.
End Rpc.
