(* ===== verification/ConnMgr.v ===== *)
(** [connectionsManager] of [server.go]: the registered connections and the
    channel that announces their changes, and the dropping of the connections
    of deleted keys.

    Transports and notification channels are named by numbers; [closed] holds
    the channels that have been closed.  Each operation is one critical section
    of [cm.mu]. *)
From S2P Require Import Prelude Credentials.

Module ConnMgr.
Import Credentials.

Record connectionsManager := mkCM {
  conns : gmap StaticSizedPublicKey nat;
  notifyChan : option nat;
  closed : gset nat;
  next_chan : nat;
}.

Definition newConnectionsManager : connectionsManager := mkCM ∅ None ∅ 0.

Definition getTransport (k : StaticSizedPublicKey) (cm : connectionsManager) : outcome nat :=
  match conns cm !! k with
  | Some tr => Ok tr
  | None => Err "client not connected"
  end.

(** [close(cm.notifyChan); cm.notifyChan = nil], if there is a channel. *)
Definition notify (cm : connectionsManager) : outcome connectionsManager :=
  match notifyChan cm with
  | None => Ok cm
  | Some ch =>
      _ ← close_chan (bool_decide (ch ∈ closed cm));
      Ok (mkCM (conns cm) None ({[ch]} ∪ closed cm) (next_chan cm))
  end.

Definition set_conns (m : gmap StaticSizedPublicKey nat) (cm : connectionsManager) :
    connectionsManager :=
  mkCM m (notifyChan cm) (closed cm) (next_chan cm).

Definition registerConnection (k : StaticSizedPublicKey) (tr : nat)
    (cm : connectionsManager) : outcome connectionsManager :=
  notify (set_conns (<[k := tr]> (conns cm)) cm).

Definition removeConnection (k : StaticSizedPublicKey) (cm : connectionsManager) :
    outcome connectionsManager :=
  notify (set_conns (delete k (conns cm)) cm).

(** The order of Go's map iteration is not specified; this is one. *)
Definition getConnectionPublicKeys (cm : connectionsManager) : list StaticSizedPublicKey :=
  (map_to_list (conns cm)).*1.

Definition getNotifyChan (cm : connectionsManager) : nat * connectionsManager :=
  match notifyChan cm with
  | Some ch => (ch, cm)
  | None => (next_chan cm,
      mkCM (conns cm) (Some (next_chan cm)) (closed cm) (S (next_chan cm)))
  end.

(** [close]: the transports it calls [Close] on. *)
Definition close (cm : connectionsManager) : list nat := (map_to_list (conns cm)).*2.

Definition OpenConnections (cm : connectionsManager) : nat := size (conns cm).

(** ** [removeConnectionsToDeletedKeys] *)

(** [pubKeysMap]: the keys that convert; the others are logged. *)
Definition allowed_keys (pks : list bytes) : gset StaticSizedPublicKey :=
  list_to_set (omap (λ pk, match ToStaticallySizedPublicKey pk with
                           | Ok k => Some k | _ => None end) pks).

(** The body of the loop: close the transport and drop the entry. *)
Definition drop_conn (allowed : gset StaticSizedPublicKey) (kt : StaticSizedPublicKey * nat)
    (st : outcome (list nat * connectionsManager)) : outcome (list nat * connectionsManager) :=
  '(trs, cm) ← st;
  if decide (kt.1 ∈ allowed) then Ok (trs, cm)
  else (cm ← removeConnection kt.1 cm; Ok (kt.2 :: trs, cm)).

(** The closed transports, and the manager left. *)
Definition removeConnectionsToDeletedKeys (pks : list bytes) (cm : connectionsManager) :
    outcome (list nat * connectionsManager) :=
  foldr (drop_conn (allowed_keys pks)) (Ok ([], cm)) (map_to_list (conns cm)).

(** ** Well-formedness *)

(** The channel handed out is open, and channels are numbered as they are made. *)
Record ok (cm : connectionsManager) : Prop := mkOk {
  ok_notify ch : notifyChan cm = Some ch → ch ∉ closed cm ∧ ch < next_chan cm;
  ok_closed ch : ch ∈ closed cm → ch < next_chan cm;
}.

Lemma new_ok : ok newConnectionsManager.
Proof. split; simpl; [done|set_solver]. Qed.

Lemma notify_ok cm : ok cm →
  ∃ cm', notify cm = Ok cm' ∧ ok cm' ∧ conns cm' = conns cm ∧ notifyChan cm' = None ∧
    next_chan cm' = next_chan cm ∧
    ∀ ch, ch ∈ closed cm' ↔ ch ∈ closed cm ∨ notifyChan cm = Some ch.
Proof.
  intros Hok. pose proof Hok as [Hn Hc]. unfold notify.
  destruct (notifyChan cm) as [ch|] eqn:Hch.
  - destruct (Hn ch) as [Hout Hlt]; [done|]. rewrite bool_decide_false by done. simpl.
    eexists. split; [done|]. split_and!; simpl; [|done..|set_solver].
    split; simpl; [done|]. set_solver.
  - exists cm. split_and!; try done. intros ch. naive_solver.
Qed.

Lemma set_conns_ok m cm : ok cm → ok (set_conns m cm).
Proof. intros [Hn Hc]. by split. Qed.

Lemma registerConnection_ok k tr cm : ok cm →
  ∃ cm', registerConnection k tr cm = Ok cm' ∧ ok cm' ∧
    conns cm' = <[k := tr]> (conns cm) ∧ notifyChan cm' = None ∧
    next_chan cm' = next_chan cm ∧
    ∀ ch, ch ∈ closed cm' ↔ ch ∈ closed cm ∨ notifyChan cm = Some ch.
Proof.
  intros Hok. destruct (notify_ok (set_conns (<[k := tr]> (conns cm)) cm))
    as (cm'&?&?&?&?&?&?); [by apply set_conns_ok|]. exists cm'. by split_and!.
Qed.

Lemma removeConnection_ok k cm : ok cm →
  ∃ cm', removeConnection k cm = Ok cm' ∧ ok cm' ∧
    conns cm' = delete k (conns cm) ∧ notifyChan cm' = None ∧
    next_chan cm' = next_chan cm ∧
    ∀ ch, ch ∈ closed cm' ↔ ch ∈ closed cm ∨ notifyChan cm = Some ch.
Proof.
  intros Hok. destruct (notify_ok (set_conns (delete k (conns cm)) cm))
    as (cm'&?&?&?&?&?&?); [by apply set_conns_ok|]. exists cm'. by split_and!.
Qed.

Lemma getNotifyChan_ok cm : ok cm →
  ok (getNotifyChan cm).2 ∧ (getNotifyChan cm).1 ∉ closed cm ∧
  notifyChan (getNotifyChan cm).2 = Some (getNotifyChan cm).1 ∧
  conns (getNotifyChan cm).2 = conns cm ∧ closed (getNotifyChan cm).2 = closed cm.
Proof.
  intros Hok. pose proof Hok as [Hn Hc]. unfold getNotifyChan.
  destruct (notifyChan cm) as [ch|] eqn:Hch; simpl.
  - destruct (Hn ch) as [? ?]; [done|]. by split_and!.
  - split_and!; [|intros ?%Hc; lia|done..].
    split; simpl; [|intros ch ?%Hc; lia].
    intros ch [= <-]. split; [intros ?%Hc; lia|lia].
Qed.

(** ** Sequences of operations *)

Inductive op :=
  | OpRegister (k : StaticSizedPublicKey) (tr : nat)
  | OpRemove (k : StaticSizedPublicKey)
  | OpGet (k : StaticSizedPublicKey)
  | OpNotifyChan
  | OpDropDeleted (pks : list bytes).

Definition apply_op (a : op) (cm : connectionsManager) : outcome connectionsManager :=
  match a with
  | OpRegister k tr => registerConnection k tr cm
  | OpRemove k => removeConnection k cm
  | OpGet k => Ok cm
  | OpNotifyChan => Ok (getNotifyChan cm).2
  | OpDropDeleted pks => '(_, cm) ← removeConnectionsToDeletedKeys pks cm; Ok cm
  end.

Fixpoint apply_ops (ops : list op) (cm : connectionsManager) : outcome connectionsManager :=
  match ops with
  | [] => Ok cm
  | a :: ops => apply_op a cm ≫= apply_ops ops
  end.

(** The specification: a map from keys to transports. *)
Definition spec_op (a : op) (m : gmap StaticSizedPublicKey nat) :
    gmap StaticSizedPublicKey nat :=
  match a with
  | OpRegister k tr => <[k := tr]> m
  | OpRemove k => delete k m
  | OpDropDeleted pks => filter (λ kt, kt.1 ∈ allowed_keys pks) m
  | _ => m
  end.

(** The operations that close the channel handed out: every [registerConnection] and every
    [removeConnection], of a key that is not there as well, and the loop that drops deleted
    keys if it drops one. *)
Definition announces (a : op) (m : gmap StaticSizedPublicKey nat) : Prop :=
  match a with
  | OpRegister _ _ | OpRemove _ => True
  | OpDropDeleted pks => ∃ k, is_Some (m !! k) ∧ k ∉ allowed_keys pks
  | _ => False
  end.

(** The entries dropped while a prefix of the connections has been visited. *)
Definition drop_list (allowed : gset StaticSizedPublicKey)
    (l : list (StaticSizedPublicKey * nat)) : list (StaticSizedPublicKey * nat) :=
  filter (λ kt, kt.1 ∉ allowed) l.

Lemma drop_conns_ok allowed l cm : ok cm →
  ∃ cm', foldr (drop_conn allowed) (Ok ([], cm)) l = Ok ((drop_list allowed l).*2, cm') ∧
    ok cm' ∧ conns cm' = foldr delete (conns cm) (drop_list allowed l).*1 ∧
    next_chan cm' = next_chan cm ∧
    (drop_list allowed l = [] → cm' = cm) ∧
    (drop_list allowed l ≠ [] → notifyChan cm' = None ∧
      ∀ ch, ch ∈ closed cm' ↔ ch ∈ closed cm ∨ notifyChan cm = Some ch).
Proof.
  intros Hok. induction l as [|[k t] l (cm1&Heq&Hok1&Hc1&Hn1&He1&Hne1)].
  { exists cm. by split_and!. }
  simpl. rewrite Heq. unfold drop_conn, drop_list in *. simpl.
  destruct (decide (k ∈ allowed)) as [Hin|Hin].
  - rewrite filter_cons_False by (simpl; naive_solver). exists cm1. by split_and!.
  - rewrite filter_cons_True by done.
    destruct (removeConnection_ok k cm1 Hok1) as (cm2&Heq2&Hok2&Hc2&Hnc2&Hn2&Hcl2).
    rewrite Heq2. simpl. exists cm2.
    split_and!; [done..|by rewrite Hc2, Hc1|congruence|done|]. intros _. split; [done|].
    intros ch. rewrite Hcl2.
    destruct (decide (filter (λ kt, kt.1 ∉ allowed) l = [])) as [Hnil|Hnil].
    + by rewrite He1.
    + destruct (Hne1 Hnil) as [-> Hcl1]. rewrite Hcl1. naive_solver.
Qed.

Lemma drop_list_elem allowed l k t :
  (k, t) ∈ drop_list allowed l ↔ (k, t) ∈ l ∧ k ∉ allowed.
Proof. unfold drop_list. rewrite list_elem_of_filter. naive_solver. Qed.

Lemma foldr_delete_lookup (ks : list StaticSizedPublicKey) (m : gmap StaticSizedPublicKey nat) k :
  foldr delete m ks !! k = if decide (k ∈ ks) then None else m !! k.
Proof.
  induction ks as [|k' ks IH]; [by rewrite decide_False by set_solver|].
  change (delete k' (foldr delete m ks) !! k = if decide (k ∈ k' :: ks) then None else m !! k).
  rewrite lookup_delete, IH. repeat case_decide; set_solver.
Qed.

Lemma drop_filter (allowed : gset StaticSizedPublicKey) (m : gmap StaticSizedPublicKey nat) :
  foldr delete m (drop_list allowed (map_to_list m)).*1 =
    filter (λ kt, kt.1 ∈ allowed) m.
Proof.
  apply map_eq. intros k. rewrite foldr_delete_lookup, map_lookup_filter.
  case_decide as Hk.
  - apply list_elem_of_fmap in Hk as ([k' t]&->&[Hm Hn]%drop_list_elem). simpl.
    apply elem_of_map_to_list in Hm. rewrite Hm. simpl. by rewrite option_guard_False.
  - destruct (m !! k) as [t|] eqn:Hm; simpl; [|done].
    destruct (decide (k ∈ allowed)); [by rewrite option_guard_True|].
    destruct Hk. apply list_elem_of_fmap. exists (k, t). split; [done|].
    apply drop_list_elem. by rewrite elem_of_map_to_list.
Qed.

Lemma drop_list_nil (allowed : gset StaticSizedPublicKey) (m : gmap StaticSizedPublicKey nat) :
  drop_list allowed (map_to_list m) ≠ [] ↔ ∃ k, is_Some (m !! k) ∧ k ∉ allowed.
Proof.
  split.
  - destruct (drop_list allowed (map_to_list m)) as [|[k t] l] eqn:Hd; [done|]. intros _.
    assert ((k, t) ∈ drop_list allowed (map_to_list m)) as [Hm ?]%drop_list_elem.
    { rewrite Hd. by left. }
    apply elem_of_map_to_list in Hm. eauto.
  - intros (k&[t Hm]&Hk) Hnil.
    assert ((k, t) ∈ drop_list allowed (map_to_list m)) as Hin.
    { apply drop_list_elem. by rewrite elem_of_map_to_list. }
    rewrite Hnil in Hin. by apply not_elem_of_nil in Hin.
Qed.

(** One operation: it does not panic, acts on the map as specified, and closes
    the channel that was handed out if and only if it is one that announces. *)
Lemma apply_op_ok a cm : ok cm →
  ∃ cm', apply_op a cm = Ok cm' ∧ ok cm' ∧ conns cm' = spec_op a (conns cm) ∧
    (announces a (conns cm) → ∀ ch, ch ∈ closed cm' ↔ ch ∈ closed cm ∨ notifyChan cm = Some ch) ∧
    (¬ announces a (conns cm) → closed cm' = closed cm ∧
       ∀ ch, notifyChan cm = Some ch → notifyChan cm' = Some ch).
Proof.
  intros Hok. destruct a as [k tr|k|k| |pks]; simpl.
  - destruct (registerConnection_ok k tr cm Hok) as (cm'&?&?&?&?&?&?).
    exists cm'. split_and!; naive_solver.
  - destruct (removeConnection_ok k cm Hok) as (cm'&?&?&?&?&?&?).
    exists cm'. split_and!; naive_solver.
  - exists cm. split_and!; naive_solver.
  - destruct (getNotifyChan_ok cm Hok) as (?&?&?&?&?). eexists. split_and!; try done.
    intros _. split; [done|]. intros ch Hch. unfold getNotifyChan. by rewrite Hch.
  - unfold removeConnectionsToDeletedKeys.
    destruct (drop_conns_ok (allowed_keys pks) (map_to_list (conns cm)) cm Hok)
      as (cm'&Heq&Hok'&Hc&_&He&Hne). rewrite Heq. simpl. exists cm'.
    rewrite drop_filter in Hc. split_and!; [done..| |].
    + intros Ha%drop_list_nil. by apply Hne.
    + intros Ha. assert (cm' = cm) as ->; [|done]. apply He.
      destruct (drop_list _ _) eqn:Hd; [done|]. destruct Ha.
      apply drop_list_nil. by rewrite Hd.
Qed.

Lemma apply_ops_ok ops cm : ok cm →
  ∃ cm', apply_ops ops cm = Ok cm' ∧ ok cm' ∧ conns cm' = foldl (flip spec_op) (conns cm) ops.
Proof.
  revert cm. induction ops as [|a ops IH]; intros cm Hok; simpl; [by eauto|].
  destruct (apply_op_ok a cm Hok) as (cm1&->&Hok1&Hc1&_). simpl.
  destruct (IH cm1 Hok1) as (cm2&->&?&Hc2). exists cm2. by rewrite Hc2, Hc1.
Qed.

(** ** Theorems *)

(** C35: From a new manager, no sequence of operations panics (the channel is never
    closed twice), and the connections are those of a plain map: registration
    overwrites, removal deletes, and dropping deleted keys keeps the allowed. *)
Theorem connmgr_refines_map ops :
  ∃ cm, apply_ops ops newConnectionsManager = Ok cm ∧
    conns cm = foldl (flip spec_op) ∅ ops ∧
    (∀ k, getTransport k cm =
       match foldl (flip spec_op) ∅ ops !! k with
       | Some tr => Ok tr | None => Err "client not connected" end) ∧
    OpenConnections cm = size (foldl (flip spec_op) (∅ : gmap StaticSizedPublicKey nat) ops).
Proof.
  destruct (apply_ops_ok ops _ new_ok) as (cm&Heq&_&Hc). simpl in Hc.
  exists cm. unfold getTransport, OpenConnections. by rewrite Hc.
Qed.

(** Some operation of the sequence announces. *)
Fixpoint announced (ops : list op) (m : gmap StaticSizedPublicKey nat) : Prop :=
  match ops with
  | [] => False
  | a :: ops => announces a m ∨ announced ops (spec_op a m)
  end.

Lemma closed_stays ops cm cm' ch : ok cm →
  apply_ops ops cm = Ok cm' → ch ∈ closed cm → ch ∈ closed cm'.
Proof.
  revert cm. induction ops as [|a ops IH]; intros cm Hok Hr Hin; simpl in Hr.
  { by simplify_eq. }
  destruct (apply_op_ok a cm Hok) as (cm1&He&Hok1&_&Ha&Hna).
  rewrite He in Hr. simpl in Hr. apply (IH cm1); [done..|].
  destruct a; simpl in Ha, Hna; try (rewrite Ha by done; by left);
    try (by destruct Hna as [-> _]; [tauto|]).
  destruct (decide (drop_list (allowed_keys pks) (map_to_list (conns cm)) = [])) as [Hd|Hd].
  - destruct Hna as [-> _]; [|done]. by intros Hex%drop_list_nil.
  - rewrite Ha by (by apply drop_list_nil). by left.
Qed.

(** Whether an operation announces is decided by the loop it runs. *)
Lemma announces_dec a m : announces a m ∨ ¬ announces a m.
Proof.
  destruct a; simpl; try tauto. rewrite <- drop_list_nil.
  destruct (drop_list _ _); [right|left]; naive_solver.
Qed.

Lemma apply_ops_app ops1 ops2 cm : apply_ops (ops1 ++ ops2) cm = apply_ops ops1 cm ≫= apply_ops ops2.
Proof.
  revert cm. induction ops1 as [|a ops1 IH]; intros cm; [done|]. simpl.
  destruct (apply_op a cm); simpl; [apply IH|done|done].
Qed.

(** A channel handed out stays open until an operation announces. *)
Lemma announced_closes ops cm cm' ch : ok cm → notifyChan cm = Some ch →
  apply_ops ops cm = Ok cm' → ch ∈ closed cm' ↔ announced ops (conns cm).
Proof.
  revert cm. induction ops as [|a ops IH]; intros cm Hok Hn Hr; simpl in Hr |- *.
  { simplify_eq. split; [|done]. by apply (ok_notify _ Hok). }
  destruct (apply_op_ok a cm Hok) as (cm1&He&Hok1&Hc1&Ha&Hna).
  rewrite He in Hr. simpl in Hr. destruct (announces_dec a (conns cm)) as [Han|Han].
  - split; [by left|]. intros _. apply (closed_stays ops cm1); [done..|].
    apply Ha; [done|by right].
  - destruct (Hna Han) as [Hcl Hn1]. rewrite (IH cm1 Hok1 (Hn1 _ Hn) Hr), Hc1. tauto.
Qed.

(** What announces nothing changes nothing. *)
Lemma not_announced_same ops m : ¬ announced ops m → foldl (flip spec_op) m ops = m.
Proof.
  revert m. induction ops as [|a ops IH]; intros m Hn; [done|]. simpl in Hn |- *.
  assert (spec_op a m = m) as Heq.
  { destruct a; simpl in *; try tauto. apply map_filter_id. intros k tr Hk. simpl.
    destruct (decide (k ∈ allowed_keys pks)); [done|]. destruct Hn. left. by exists k. }
  change (flip spec_op m a) with (spec_op a m). rewrite Heq in *. apply IH. tauto.
Qed.

(** C36: A watcher misses no change: while the channel that [getNotifyChan] returned is
    open, the connections have not changed, neither at the end nor in between.  It is
    closed after any later operations exactly if one of them was a registration, a
    removal, or the dropping of a connection for a deleted key; a removal closes it even
    if the key was not there, so that a watcher can be woken for nothing. *)
Theorem notify_exact ops1 cm ops2 cm' :
  apply_ops ops1 newConnectionsManager = Ok cm →
  apply_ops ops2 (getNotifyChan cm).2 = Ok cm' →
  ((getNotifyChan cm).1 ∈ closed cm' ↔ announced ops2 (conns cm)) ∧
  ((getNotifyChan cm).1 ∉ closed cm' → conns cm' = conns cm ∧
     ∀ pre cm1, pre `prefix_of` ops2 → apply_ops pre (getNotifyChan cm).2 = Ok cm1 → conns cm1 = conns cm).
Proof.
  intros Ha Hb. destruct (apply_ops_ok ops1 _ new_ok) as (cm0&Heq&Hok&_).
  rewrite Ha in Heq. injection Heq as <-.
  destruct (getNotifyChan_ok cm Hok) as (Hok1&_&Hn&Hc&_).
  assert (∀ ops cm1, apply_ops ops (getNotifyChan cm).2 = Ok cm1 →
    (getNotifyChan cm).1 ∈ closed cm1 ↔ announced ops (conns cm)) as Hiff.
  { intros ops cm1 H1. rewrite <- Hc. by apply (announced_closes ops (getNotifyChan cm).2). }
  assert (∀ ops cm1, apply_ops ops (getNotifyChan cm).2 = Ok cm1 →
    (getNotifyChan cm).1 ∉ closed cm1 → conns cm1 = conns cm) as Hsame.
  { intros ops cm1 H1 Hout. destruct (apply_ops_ok ops _ Hok1) as (cm2&Heq2&_&Hc2).
    rewrite H1 in Heq2. injection Heq2 as <-. rewrite Hc2, Hc. apply not_announced_same.
    by rewrite <- (Hiff ops cm1 H1). }
  split; [by apply Hiff|]. intros Hout. split; [by eapply Hsame|].
  intros pre cm1 [rest ->] H1. eapply Hsame; [done|]. intros Hin. apply Hout.
  rewrite apply_ops_app, H1 in Hb. destruct (apply_ops_ok pre _ Hok1) as (cm2&Heq2&Hok2&_).
  rewrite H1 in Heq2. injection Heq2 as <-. by eapply closed_stays.
Qed.

(** The spurious wakeup: a connection dropped for its key is removed again when its
    transport ends ([afterWritePump]), which closes a channel handed out in between. *)
Theorem removal_wakes_for_nothing k cm : ok cm → conns cm !! k = None →
  ∃ cm', removeConnection k (getNotifyChan cm).2 = Ok cm' ∧ conns cm' = conns cm ∧
    (getNotifyChan cm).1 ∈ closed cm'.
Proof.
  intros Hok Hk. destruct (getNotifyChan_ok cm Hok) as (Hok1&_&Hn&Hc&_).
  destruct (removeConnection_ok k _ Hok1) as (cm'&Hr&_&Hc'&_&_&Hcl). exists cm'. split_and!; [done| |].
  - rewrite Hc', Hc. by apply delete_id.
  - apply Hcl. by right.
Qed.

(** Dropping the connections of deleted keys closes the transport of every
    connection whose key is not allowed any more, no other, and leaves exactly
    the allowed connections registered. *)
Theorem drop_deleted_exact ops cm pks :
  apply_ops ops newConnectionsManager = Ok cm →
  ∃ trs cm', removeConnectionsToDeletedKeys pks cm = Ok (trs, cm') ∧
    (∀ tr, tr ∈ trs ↔ ∃ k, conns cm !! k = Some tr ∧ k ∉ allowed_keys pks) ∧
    conns cm' = filter (λ kt, kt.1 ∈ allowed_keys pks) (conns cm).
Proof.
  intros Ha. destruct (apply_ops_ok ops _ new_ok) as (cm0&Heq&Hok&_).
  rewrite Ha in Heq. injection Heq as <-.
  unfold removeConnectionsToDeletedKeys.
  destruct (drop_conns_ok (allowed_keys pks) (map_to_list (conns cm)) cm Hok)
    as (cm'&Heq'&_&Hc&_). exists (drop_list (allowed_keys pks) (map_to_list (conns cm))).*2, cm'.
  split_and!; [done| |by rewrite Hc, drop_filter].
  intros tr. rewrite list_elem_of_fmap. split.
  - intros ([k t]&->&[Hm%elem_of_map_to_list ?]%drop_list_elem). eauto.
  - intros (k&Hm&?). exists (k, tr). by rewrite drop_list_elem, elem_of_map_to_list.
Qed.

(** ** Witnesses *)

Definition w_key (b : byte) : bytes := replicate 32 b.
Definition w_ops : list op := [OpRegister (w_key x01) 1; OpRegister (w_key x02) 2].
Definition w_cm : connectionsManager := match apply_ops w_ops newConnectionsManager with
  | Ok cm => cm | _ => newConnectionsManager end.
Definition w_later : list op := [OpGet (w_key x01); OpDropDeleted [w_key x01]].
Definition w_cm' : connectionsManager := match apply_ops w_later (getNotifyChan w_cm).2 with
  | Ok cm => cm | _ => newConnectionsManager end.

Definition w_quiet : list op := [OpGet (w_key x01); OpDropDeleted [w_key x01; w_key x02]].
Definition w_quiet_cm : connectionsManager := match apply_ops w_quiet (getNotifyChan w_cm).2 with
  | Ok cm => cm | _ => newConnectionsManager end.

Lemma notify_exact_witness : announced w_later (conns w_cm) ∧ conns w_quiet_cm = conns w_cm.
Proof.
  split.
  - apply (notify_exact w_ops w_cm w_later w_cm'); [vm_compute; reflexivity..|].
    apply (bool_decide_unpack _). vm_compute. exact I.
  - apply (notify_exact w_ops w_cm w_quiet w_quiet_cm); [vm_compute; reflexivity..|].
    apply (bool_decide_unpack _). vm_compute. exact I.
Defined.

Lemma removal_wakes_for_nothing_witness :
  ∃ cm', removeConnection (w_key x03) (getNotifyChan w_cm).2 = Ok cm' ∧ conns cm' = conns w_cm.
Proof.
  destruct (removal_wakes_for_nothing (w_key x03) w_cm) as (cm'&Hr&Hc&_);
    [|vm_compute; reflexivity|exists cm'; split; [exact Hr|exact Hc]].
  assert (notifyChan w_cm = None ∧ closed w_cm = ∅) as [Hn Hcl] by (split; vm_compute; reflexivity).
  split; intros ch; rewrite ?Hn, ?Hcl; [discriminate|]. intros Hch. by apply not_elem_of_empty in Hch.
Defined.

Lemma drop_deleted_exact_witness :
  ∃ trs cm', removeConnectionsToDeletedKeys [w_key x01] w_cm = Ok (trs, cm') ∧
    conns cm' = filter (λ kt, kt.1 ∈ allowed_keys [w_key x01]) (conns w_cm).
Proof.
  destruct (drop_deleted_exact w_ops w_cm [w_key x01]) as (trs&cm'&Hr&_&Hc);
    [vm_compute; reflexivity|]. exists trs, cm'. split; assumption.
Defined.
End ConnMgr.
