(* ===== verification/Server.v ===== *)
(** [server.go]: the life of the server's connections.  [wshandler] admits a
    connection, [handleRead] dispatches its messages, the transport's
    [afterWritePump] callback takes it out again, [UpdatePublicKeys] drops the
    connections of deleted keys and [Stop] shuts everything down.

    A step is one critical section of [s.mu] (with the one of [connMgr.mu]
    nested in it), or one channel operation.  The calls between the two
    endpoints and their use of [s.mu] are in [ServerCalls]. *)
From S2P Require Import Prelude Credentials Message ConnMgr.

Module Server.
Import Credentials Message ConnMgr.

Section Server.
Context {U : Type} `{ProtoLib U}.
Context (ParseCertificate : bytes → outcome Certificate).

(** A transport, as the server sees it. *)
Record trans := mkTrans {
  t_cert : Certificate;       (* ghost: what the peer presented *)
  t_key : StaticSizedPublicKey;
  t_closing : bool;           (* [Close] was called *)
  t_down : bool;              (* its connection failed *)
  t_after : bool;             (* [afterWritePump] ran, so [done] is closed *)
}.

Inductive ws_pc :=
  | WCheck                        (* about to check [quit] *)
  | WEnsure                       (* in [ensureSingleClientConnection] *)
  | WUpgrade (k : StaticSizedPublicKey)
  | WStart (k : StaticSizedPublicKey)      (* upgraded *)
  | WRegister (k : StaticSizedPublicKey) (tr : nat)
      (* made and started the transport, holding [s.mu] for reading *)
  | WServe (tr : nat)             (* in the [select] *)
  | WReturned
  | WLeaked (p : panic).          (* panicked between [s.mu.RLock()] and its [RUnlock()],
                                     which is not deferred; net/http recovers, and [s.mu]
                                     stays locked *)

Record wsh := mkWs { w_cert : Certificate; w_pc : ws_pc }.

Inductive read_pc := RStart | RLoop (tr : nat) | RReturned.

Record reader := mkReader {
  rd_key : StaticSizedPublicKey;
  rd_done : nat;     (* the transport whose [done] channel it was given *)
  rd_pc : read_pc;
}.

Inductive stop_pc :=
  | SFire
  | SDrop
  | SClose (cm : option connectionsManager)  (* the manager it took *)
  | SWait
  | SReturned
  | SPanicked (p : panic).

Record server := mkServer {
  connMgr : option connectionsManager;
  quit : bool;
  done : bool;
  serveWG : Z;
  hp : heap;                 (* the PublicKeys objects *)
  creds : option nat;        (* [s.opts.creds.PublicKeys] *)
  trs : gmap nat trans;
  handlers : gmap nat wsh;
  readers : gmap nat reader;
  stops : gmap nat stop_pc;
  dispatched : list (StaticSizedPublicKey * nat * isMessage_Exchange);
  crash : option panic;      (* a panic of a goroutine nobody recovers *)
}.

(** [NewServer], with the keys its options installed. *)
Definition NewServer (ks : list bytes) : server :=
  let '(r, h) := alloc ks (mkHeap 0 ∅) in
  mkServer (Some newConnectionsManager) false false 0 h (Some r) ∅ ∅ ∅ ∅ [] None.

(** ** Field updates *)
Definition set_cm (cm : option connectionsManager) (s : server) : server :=
  mkServer cm (quit s) (done s) (serveWG s) (hp s) (creds s) (trs s) (handlers s)
    (readers s) (stops s) (dispatched s) (crash s).
Definition set_quit (s : server) : server :=
  mkServer (connMgr s) true (done s) (serveWG s) (hp s) (creds s) (trs s) (handlers s)
    (readers s) (stops s) (dispatched s) (crash s).
Definition set_done (s : server) : server :=
  mkServer (connMgr s) (quit s) true (serveWG s) (hp s) (creds s) (trs s) (handlers s)
    (readers s) (stops s) (dispatched s) (crash s).
Definition set_wg (n : Z) (s : server) : server :=
  mkServer (connMgr s) (quit s) (done s) n (hp s) (creds s) (trs s) (handlers s)
    (readers s) (stops s) (dispatched s) (crash s).
Definition set_hp (h : heap) (s : server) : server :=
  mkServer (connMgr s) (quit s) (done s) (serveWG s) h (creds s) (trs s) (handlers s)
    (readers s) (stops s) (dispatched s) (crash s).
Definition set_trs (m : gmap nat trans) (s : server) : server :=
  mkServer (connMgr s) (quit s) (done s) (serveWG s) (hp s) (creds s) m (handlers s)
    (readers s) (stops s) (dispatched s) (crash s).
Definition set_ws (h : nat) (w : wsh) (s : server) : server :=
  mkServer (connMgr s) (quit s) (done s) (serveWG s) (hp s) (creds s) (trs s)
    (<[h := w]> (handlers s)) (readers s) (stops s) (dispatched s) (crash s).
Definition set_reader (r : nat) (rd : reader) (s : server) : server :=
  mkServer (connMgr s) (quit s) (done s) (serveWG s) (hp s) (creds s) (trs s) (handlers s)
    (<[r := rd]> (readers s)) (stops s) (dispatched s) (crash s).
Definition set_stop (x : nat) (pc : stop_pc) (s : server) : server :=
  mkServer (connMgr s) (quit s) (done s) (serveWG s) (hp s) (creds s) (trs s) (handlers s)
    (readers s) (<[x := pc]> (stops s)) (dispatched s) (crash s).
Definition set_log (l : list (StaticSizedPublicKey * nat * isMessage_Exchange))
    (s : server) : server :=
  mkServer (connMgr s) (quit s) (done s) (serveWG s) (hp s) (creds s) (trs s) (handlers s)
    (readers s) (stops s) l (crash s).
Definition set_crash (p : panic) (s : server) : server :=
  mkServer (connMgr s) (quit s) (done s) (serveWG s) (hp s) (creds s) (trs s) (handlers s)
    (readers s) (stops s) (dispatched s) (Some p).

(** [Close] of some transports: it marks them, and only once. *)
Definition mark_closing (t : trans) : trans :=
  mkTrans (t_cert t) (t_key t) true (t_down t) (t_after t).
Definition close_all (l : list nat) (m : gmap nat trans) : gmap nat trans :=
  foldr (alter mark_closing) m l.

(** ** The operations *)

(** [s.connMgr.getTransport], through a possibly nil manager. *)
Definition lookup_transport (k : StaticSizedPublicKey) (s : server) : outcome nat :=
  match connMgr s with Some cm => getTransport k cm | None => Panic NilDeref end.

Definition ensureSingleClientConnection (cert : Certificate) (s : server) :
    outcome StaticSizedPublicKey :=
  match PubKeyFromCert cert with
  | Err _ => Err "could not extracting public key from certificate"
  | Panic p => Panic p
  | Ok pubKey =>
      match lookup_transport pubKey s with
      | Ok _ => Err "only one connection allowed per client"
      | Err _ => Ok pubKey
      | Panic p => Panic p
      end
  end.

(** The critical section of [wshandler] under [s.mu.RLock()], in two steps:
    the transport [tr] it makes is running, and may already fail and run its
    callback, when the second registers it.  The reader [rd] starts after. *)
Definition start_transport (h : nat) (w : wsh) (k : StaticSizedPublicKey) (tr : nat)
    (s : server) : server :=
  match connMgr s with
  | None => set_ws h (mkWs (w_cert w) WReturned) s
  | Some _ =>
      set_ws h (mkWs (w_cert w) (WRegister k tr))
        (set_trs (<[tr := mkTrans (w_cert w) k false false false]> (trs s))
          (set_wg (serveWG s + 1) s))
  end.

Definition register_transport (h : nat) (w : wsh) (k : StaticSizedPublicKey)
    (tr rd : nat) (s : server) : server :=
  match connMgr s with
  | None => set_ws h (mkWs (w_cert w) (WLeaked NilDeref)) s
  | Some cm =>
      match registerConnection k tr cm with
      | Ok cm' =>
          set_reader rd (mkReader k tr RStart)
            (set_ws h (mkWs (w_cert w) (WServe tr)) (set_cm (Some cm') s))
      | Err _ => s
      | Panic p => set_ws h (mkWs (w_cert w) (WLeaked p)) s
      end
  end.

(** [afterWritePump]: the callback of transport [tr]. *)
Definition wg_done (n : Z) : outcome Z :=
  if decide (n - 1 < 0)%Z then Panic NegativeWaitGroup else Ok (n - 1)%Z.

Definition afterWritePump (tr : nat) (t : trans) (s : server) : outcome server :=
  s1 ← match connMgr s with
       | None => Ok s
       | Some cm => cm' ← removeConnection (t_key t) cm; Ok (set_cm (Some cm') s)
       end;
  n ← wg_done (serveWG s1);
  _ ← close_chan (t_after t);
  Ok (set_trs (<[tr := mkTrans (t_cert t) (t_key t) (t_closing t) (t_down t) true]> (trs s1))
       (set_wg n s1)).

(** The loop body of [handleRead] on a message [in_] from transport [tr]. *)
Definition dispatch (k : StaticSizedPublicKey) (tr : nat) (in_ : slice) (s : server) : server :=
  match decode_envelope in_ with
  | Ok (mkMessage (Some ex)) => set_log (dispatched s ++ [(k, tr, ex)]) s
  | Ok (mkMessage None) | Err _ => s
  | Panic p => set_crash p s
  end.

(** [UpdatePublicKeys]: what it returns, and the server it leaves. *)
Definition UpdatePublicKeys (ks : list bytes) (s : server) : outcome unit * server :=
  match ValidPublicKeysFromEd25519 ks (hp s) with
  | Err e => (Err ("invalid public keys: " +:+ e), s)
  | Panic p => (Panic p, s)
  | Ok (pubs, h1) =>
      match creds s with
      | None => (Panic NilDeref, set_hp h1 s)
      | Some r =>
          match Replace r pubs h1 with
          | Ok h2 =>
              match connMgr s with
              | None => (Panic NilDeref, set_hp h2 s)
              | Some cm =>
                  match removeConnectionsToDeletedKeys ks cm with
                  | Ok (l, cm') =>
                      (Ok tt, set_trs (close_all l (trs s)) (set_cm (Some cm') (set_hp h2 s)))
                  | Err e => (Err e, set_hp h2 s)
                  | Panic p => (Panic p, set_hp h2 s)
                  end
              end
          | Err e => (Err e, set_hp h1 s)
          | Panic p => (Panic p, set_hp h1 s)
          end
      end
  end.

Definition GetConnectionNotifyChan (s : server) : outcome nat * server :=
  match connMgr s with
  | None => (Panic NilDeref, s)
  | Some cm => (Ok (getNotifyChan cm).1, set_cm (Some (getNotifyChan cm).2) s)
  end.

Definition GetConnectedPeerPublicKeys (s : server) : outcome (list StaticSizedPublicKey) :=
  match connMgr s with
  | None => Panic NilDeref
  | Some cm => Ok (getConnectionPublicKeys cm)
  end.

Definition OpenConnections (s : server) : outcome nat :=
  match connMgr s with
  | None => Panic NilDeref
  | Some cm => Ok (ConnMgr.OpenConnections cm)
  end.

(** ** The transition system *)

Inductive action :=
  | Accept (h : nat) (raw : bytes)      (* a TLS handshake that verified *)
  | CheckQuit (h : nat)
  | Ensure (h : nat)
  | Upgrade (h : nat) (upgraded : bool)
  | Start (h tr : nat)
  | Register (h rd : nat)
  | HandlerReturn (h : nat)
  | TransportDown (tr : nat)            (* the connection fails *)
  | AfterWritePump (tr : nat)
  | ReadStart (rd : nat)
  | ReadMessage (rd : nat) (in_ : slice)
  | ReadDone (rd : nat)
  | Stop (x : nat)
  | StopStep (x : nat)
  | UpdateKeys (ks : list bytes)
  | NotifyChan.

Definition registering (pc : ws_pc) : bool :=
  match pc with WRegister _ _ => true | _ => false end.
(** The handlers that hold [s.mu] for reading across a step. *)
Definition holds_read (pc : ws_pc) : bool :=
  match pc with WRegister _ _ | WLeaked _ => true | _ => false end.
(** Nobody does: a writer may enter. *)
Definition may_write (s : server) : bool :=
  bool_decide (map_Forall (λ _ w, holds_read (w_pc w) = false) (handlers s)).

(** The check crypto/tls runs on the one certificate presented. *)
Definition handshake (raw : bytes) (s : server) : option Certificate :=
  match creds s, ParseCertificate raw with
  | Some r, Ok cert =>
      match VerifyPeerCertificate ParseCertificate r [raw] (hp s) with
      | Ok _ => Some cert
      | _ => None
      end
  | _, _ => None
  end.

Definition exec_ws (a : action) (h : nat) (w : wsh) (s : server) : option server :=
  let go pc := Some (set_ws h (mkWs (w_cert w) pc) s) in
  match a, w_pc w with
  | CheckQuit _, WCheck => if quit s then go WReturned else go WEnsure
  | Ensure _, WEnsure =>
      match ensureSingleClientConnection (w_cert w) s with
      | Ok k => go (WUpgrade k)
      | Err _ => go WReturned
      | Panic p => go (WLeaked p)       (* in [getTransport], under [s.mu] *)
      end
  | Upgrade _ upgraded, WUpgrade k => if upgraded then go (WStart k) else go WReturned
  | Start _ tr, WStart k =>
      if trs s !! tr is Some _ then None else Some (start_transport h w k tr s)
  | Register _ rd, WRegister k tr =>
      if readers s !! rd is Some _ then None else Some (register_transport h w k tr rd s)
  | HandlerReturn _, WServe tr =>
      match trs s !! tr with
      | Some t => if t_after t || quit s then go WReturned else None
      | None => None
      end
  | _, _ => None
  end.

Definition exec_tr (a : action) (tr : nat) (t : trans) (s : server) : option server :=
  match a with
  | TransportDown _ =>
      Some (set_trs (<[tr := mkTrans (t_cert t) (t_key t) (t_closing t) true (t_after t)]> (trs s)) s)
  | AfterWritePump _ =>
      if negb (t_after t) && (t_closing t || t_down t) then
        match afterWritePump tr t s with
        | Ok s' => Some s'
        | Err _ => None
        | Panic p => Some (set_crash p s)
        end
      else None
  | _ => None
  end.

Definition exec_rd (a : action) (r : nat) (rd : reader) (s : server) : option server :=
  let go pc := Some (set_reader r (mkReader (rd_key rd) (rd_done rd) pc) s) in
  match a, rd_pc rd with
  | ReadStart _, RStart =>
      match connMgr s with
      | None => go RReturned
      | Some cm =>
          match getTransport (rd_key rd) cm with
          | Ok tr => go (RLoop tr)
          | _ => go RReturned
          end
      end
  | ReadMessage _ in_, RLoop tr => Some (dispatch (rd_key rd) tr in_ s)
  | ReadDone _, RLoop _ =>
      match trs s !! rd_done rd with
      | Some t => if t_after t then go RReturned else None
      | None => None
      end
  | _, _ => None
  end.

Definition exec_stop (x : nat) (pc : stop_pc) (s : server) : option server :=
  match pc with
  | SFire => Some (set_stop x SDrop (set_quit s))
  | SDrop =>
      if may_write s then Some (set_stop x (SClose (connMgr s)) (set_cm None s)) else None
  | SClose None => Some (set_stop x (SPanicked NilDeref) (set_done s))
  | SClose (Some cm) =>
      Some (set_stop x SWait (set_trs (close_all (ConnMgr.close cm) (trs s)) s))
  | SWait => if decide (serveWG s = 0)%Z then Some (set_stop x SReturned (set_done s)) else None
  | _ => None
  end.

Definition exec (a : action) (s : server) : option server :=
  match a with
  | Accept h raw =>
      match handlers s !! h, handshake raw s with
      | None, Some cert => Some (set_ws h (mkWs cert WCheck) s)
      | _, _ => None
      end
  | CheckQuit h | Ensure h | Upgrade h _ | Start h _ | Register h _ | HandlerReturn h =>
      w ← handlers s !! h; exec_ws a h w s
  | TransportDown tr | AfterWritePump tr => t ← trs s !! tr; exec_tr a tr t s
  | ReadStart r | ReadMessage r _ | ReadDone r => rd ← readers s !! r; exec_rd a r rd s
  | Stop x => if stops s !! x is Some _ then None else Some (set_stop x SFire s)
  | StopStep x => pc ← stops s !! x; exec_stop x pc s
  | UpdateKeys ks => if may_write s then Some (UpdatePublicKeys ks s).2 else None
  | NotifyChan => Some (GetConnectionNotifyChan s).2
  end.

(** ** The invariant *)

(** A transport of key [k]: its record, made from the peer's certificate. *)
Definition of_key (tr : nat) (k : StaticSizedPublicKey) (m : gmap nat trans) : Prop :=
  ∃ t, m !! tr = Some t ∧ t_key t = k.

(** The transports whose callback has not run. *)
Definition live (m : gmap nat trans) : gmap nat trans := filter (λ it, t_after it.2 = false) m.

Definition past_drop (pc : stop_pc) : bool :=
  match pc with SFire | SDrop => false | _ => true end.

Record inv (s : server) : Prop := mkInv {
  iv_cm cm : connMgr s = Some cm → ok cm;
  iv_conn cm k tr : connMgr s = Some cm → conns cm !! k = Some tr → of_key tr k (trs s);
  iv_key tr t : trs s !! tr = Some t → PubKeyFromCert (t_cert t) = Ok (t_key t);
  iv_ws h w k : handlers s !! h = Some w → w_pc w = WUpgrade k ∨ w_pc w = WStart k →
    PubKeyFromCert (w_cert w) = Ok k;
  iv_reg h w k tr : handlers s !! h = Some w → w_pc w = WRegister k tr →
    is_Some (connMgr s) ∧ of_key tr k (trs s);
  iv_wg : serveWG s = Z.of_nat (size (live (trs s)));
  iv_reader r rd tr : readers s !! r = Some rd → rd_pc rd = RLoop tr →
    of_key tr (rd_key rd) (trs s);
  iv_log k tr ex : (k, tr, ex) ∈ dispatched s → of_key tr k (trs s);
  iv_crash : crash s = None;
  iv_stop x pc : stops s !! x = Some pc → past_drop pc = true → connMgr s = None;
  iv_ret x : stops s !! x = Some SReturned → live (trs s) = ∅;
}.

Lemma server_NewServer_inv ks : inv (NewServer ks).
Proof.
  split; simpl; intros; simplify_map_eq; try done; set_solver.
Qed.

Ltac lookups :=
  repeat match goal with
  | H : <[_ := _]> _ !! _ = Some _ |- _ =>
      apply lookup_insert_Some in H as [[? ?]|[? H]]; simplify_eq/=
  end.

(** *** Updates of the transports *)

(** Transports are never forgotten and keep their key. *)
Definition trs_le (m m' : gmap nat trans) : Prop :=
  ∀ tr t, m !! tr = Some t →
    ∃ t', m' !! tr = Some t' ∧ t_key t' = t_key t.

Lemma of_key_le m m' tr k : trs_le m m' → of_key tr k m → of_key tr k m'.
Proof. intros Hle (t&Ht&<-). destruct (Hle _ _ Ht) as (t'&?&?). by exists t'. Qed.

Lemma trs_le_refl m : trs_le m m.
Proof. intros tr t Ht. eauto. Qed.

Lemma trs_le_insert m tr t t' :
  m !! tr = Some t → t_key t' = t_key t → trs_le m (<[tr := t']> m).
Proof.
  intros Ht Hk tr' t'' H'. destruct (decide (tr = tr')) as [<-|].
  - rewrite lookup_insert_eq. simplify_eq. eauto.
  - rewrite lookup_insert_ne by done. eauto.
Qed.

Lemma trs_le_new m tr t' : m !! tr = None → trs_le m (<[tr := t']> m).
Proof.
  intros Hn tr' t'' H'. rewrite lookup_insert_ne by congruence. eauto.
Qed.

(** What closing a list of transports does to one of them. *)
Lemma close_all_lookup l m tr :
  close_all l m !! tr = if decide (tr ∈ l) then mark_closing <$> m !! tr else m !! tr.
Proof.
  induction l as [|tr' l IH].
  { by rewrite decide_False by set_solver. }
  change (alter mark_closing tr' (close_all l m) !! tr =
    if decide (tr ∈ tr' :: l) then mark_closing <$> m !! tr else m !! tr).
  destruct (decide (tr' = tr)) as [->|Hne].
  - rewrite lookup_alter_eq, IH, (decide_True (P:=tr ∈ tr :: l)) by by left.
    case_decide; [|done]. by destruct (m !! tr).
  - rewrite lookup_alter_ne, IH by done.
    repeat case_decide; set_solver.
Qed.

Lemma trs_le_close_all l m : trs_le m (close_all l m).
Proof.
  intros tr t Ht. rewrite close_all_lookup, Ht. simpl. case_decide; eauto.
Qed.

(** The set of live transports depends only on the [t_after] flags. *)
Lemma live_dom m tr : tr ∈ dom (live m) ↔ ∃ t, m !! tr = Some t ∧ t_after t = false.
Proof.
  unfold live. rewrite elem_of_dom. split.
  - intros [t [Ht Ha]%map_lookup_filter_Some]. eauto.
  - intros (t&Ht&Ha). exists t. by apply map_lookup_filter_Some.
Qed.

Lemma live_size m m' :
  (∀ tr, t_after <$> m !! tr = t_after <$> m' !! tr) → size (live m) = size (live m').
Proof.
  intros Heq. rewrite <- !size_dom. f_equal. apply set_eq. intros tr.
  rewrite !live_dom. specialize (Heq tr).
  destruct (m !! tr) as [t|], (m' !! tr) as [t'|]; simplify_eq/=; naive_solver.
Qed.

Lemma live_empty m : live m = ∅ ↔ ∀ tr t, m !! tr = Some t → t_after t = true.
Proof.
  split.
  - intros Hl tr t Ht. destruct (t_after t) eqn:Ha; [done|].
    assert (live m !! tr = Some t) as Hin by (by apply map_lookup_filter_Some).
    rewrite Hl in Hin. by rewrite lookup_empty in Hin.
  - intros Hall. apply map_empty. intros tr. apply eq_None_not_Some.
    intros [t [Ht Ha]%map_lookup_filter_Some]. simpl in Ha. by rewrite (Hall _ _ Ht) in Ha.
Qed.

Lemma live_new m tr t :
  m !! tr = None → t_after t = false → size (live (<[tr := t]> m)) = S (size (live m)).
Proof.
  intros Hn Ha. unfold live. rewrite map_filter_insert_True by done.
  apply map_size_insert_None. apply map_lookup_filter_None. by left.
Qed.

Lemma live_finish m tr t t' :
  m !! tr = Some t → t_after t = false → t_after t' = true →
  S (size (live (<[tr := t']> m))) = size (live m).
Proof.
  intros Ht Ha Ha'. unfold live.
  rewrite map_filter_insert_False by (simpl; congruence).
  rewrite map_filter_delete, map_size_delete_Some.
  - assert (size (filter (λ it, t_after it.2 = false) m) ≠ 0); [|lia].
    apply map_size_ne_0_lookup. exists tr, t. by apply map_lookup_filter_Some.
  - exists t. by apply map_lookup_filter_Some.
Qed.

Lemma live_close_all l m : size (live (close_all l m)) = size (live m).
Proof.
  apply live_size. intros tr. rewrite close_all_lookup. case_decide; [|done].
  by destruct (m !! tr).
Qed.

(** Replacing the transports by a later version of them with as many live. *)
Lemma set_trs_inv m s :
  inv s → trs_le (trs s) m → size (live m) = size (live (trs s)) →
  (∀ tr t, m !! tr = Some t → PubKeyFromCert (t_cert t) = Ok (t_key t)) →
  inv (set_trs m s).
Proof.
  intros [Hcm Hco Hke Hws Hre Hwg Hrd Hlo Hcr Hst Hret] Hle Hsz Hk.
  split; simpl; try done.
  - intros. eapply of_key_le; eauto.
  - intros h w k tr Hh Hp. destruct (Hre _ _ _ _ Hh Hp). split; [done|].
    by eapply of_key_le.
  - by rewrite Hsz.
  - intros. eapply of_key_le; eauto.
  - intros. eapply of_key_le; eauto.
  - intros x Hx. apply map_size_empty_iff. by rewrite Hsz, (Hret _ Hx).
Qed.

(** Moving one handler that is not registering. *)
Lemma set_ws_inv h w s :
  inv s → registering (w_pc w) = false →
  (∀ k, w_pc w = WUpgrade k ∨ w_pc w = WStart k → PubKeyFromCert (w_cert w) = Ok k) →
  inv (set_ws h w s).
Proof.
  intros [Hcm Hco Hke Hws Hre Hwg Hrd Hlo Hcr Hst Hret] Hr Hk. split; simpl; try done.
  - intros h' w' k Hh Hp. lookups; eauto.
  - intros h' w' k tr Hh Hp. lookups; [by rewrite Hp in Hr|eauto].
Qed.

Lemma set_reader_inv r rd s :
  inv s → (∀ tr, rd_pc rd = RLoop tr → of_key tr (rd_key rd) (trs s)) →
  inv (set_reader r rd s).
Proof.
  intros [Hcm Hco Hke Hws Hre Hwg Hrd Hlo Hcr Hst Hret] Hk. split; simpl; try done.
  intros r' rd' tr Hr Hp. lookups; eauto.
Qed.

(** Another manager whose connections are among the present ones. *)
Lemma set_cm_inv cm cm' s :
  inv s → connMgr s = Some cm → ok cm' →
  (∀ k tr, conns cm' !! k = Some tr → of_key tr k (trs s)) →
  inv (set_cm (Some cm') s).
Proof.
  intros [Hcm Hco Hke Hws Hre Hwg Hrd Hlo Hcr Hst Hret] Hc Hok Hk. split; simpl; try done.
  - by intros ? [= <-].
  - by intros ? k tr [= <-]; eauto.
  - intros h w k tr Hh Hp. split; [done|]. by eapply Hre.
  - intros x pc Hx Hp. rewrite (Hst _ _ Hx Hp) in Hc. done.
Qed.

(** *** The operations *)

Lemma start_transport_inv h w k tr s :
  inv s → handlers s !! h = Some w → w_pc w = WStart k → trs s !! tr = None →
  inv (start_transport h w k tr s).
Proof.
  intros Hi Hh Hpc Hn. unfold start_transport. destruct (connMgr s) as [cm|] eqn:Hc;
    [|by apply set_ws_inv; naive_solver].
  pose proof (iv_ws _ Hi h w k Hh (or_intror Hpc)) as Hk.
  destruct Hi as [Hcm Hco Hke Hws Hre Hwg Hrd Hlo Hcr Hst Hret].
  set (m' := <[tr := _]> (trs s)).
  assert (trs_le (trs s) m') as Hle by by apply trs_le_new.
  split; simpl; try done.
  - intros. eapply of_key_le; eauto.
  - intros tr' t' H'. unfold m' in H'. lookups; eauto.
  - intros h' w' k' Hh' Hp. lookups; eauto. naive_solver.
  - intros h' w' k' tr' Hh' Hp. lookups.
    + split; [by rewrite Hc|]. eexists. unfold m'. by rewrite lookup_insert_eq.
    + split; [by rewrite Hc|]. eapply of_key_le; [done|]. by eapply Hre.
  - unfold m'. rewrite live_new by done. lia.
  - intros. eapply of_key_le; eauto.
  - intros. eapply of_key_le; eauto.
  - intros x Hx. specialize (Hst x SReturned Hx eq_refl). congruence.
Qed.

Lemma register_transport_inv h w k tr rd s :
  inv s → handlers s !! h = Some w → w_pc w = WRegister k tr →
  inv (register_transport h w k tr rd s).
Proof.
  intros Hi Hh Hpc. destruct (iv_reg _ Hi h w k tr Hh Hpc) as [[cm Hc] Hk].
  unfold register_transport. rewrite Hc.
  destruct (registerConnection_ok k tr cm (iv_cm _ Hi cm Hc)) as (cm'&->&Hok&Hco&_).
  apply set_reader_inv; [|done]. apply set_ws_inv; [|done|naive_solver].
  eapply set_cm_inv; [done..|]. intros k' tr'. rewrite Hco. intros Hl. lookups; [done|].
  by eapply (iv_conn _ Hi).
Qed.

Lemma afterWritePump_inv tr t s :
  inv s → trs s !! tr = Some t → t_after t = false →
  ∃ s', afterWritePump tr t s = Ok s' ∧ inv s'.
Proof.
  intros Hi Ht Ha. unfold afterWritePump.
  set (t' := mkTrans (t_cert t) (t_key t) (t_closing t) (t_down t) true).
  assert (∃ s1, (match connMgr s with
       | None => Ok s
       | Some cm => cm' ← removeConnection (t_key t) cm; Ok (set_cm (Some cm') s)
       end) = Ok s1 ∧ inv s1 ∧ trs s1 = trs s ∧ serveWG s1 = serveWG s)
    as (s1&->&Hi1&Ht1&Hwg1).
  { destruct (connMgr s) as [cm|] eqn:Hc; [|by exists s].
    destruct (removeConnection_ok (t_key t) cm (iv_cm _ Hi cm Hc)) as (cm'&->&Hok&Hco&_).
    simpl. eexists. split_and!; [done| |done..]. eapply set_cm_inv; [done..|].
    intros k tr'. rewrite Hco. intros [_ Hl]%lookup_delete_Some. by eapply (iv_conn _ Hi). }
  simpl. pose proof (live_finish (trs s1) tr t t' ltac:(by rewrite Ht1) Ha eq_refl) as Hsz.
  pose proof (iv_wg _ Hi1) as Hwg. unfold wg_done.
  rewrite decide_False by lia. simpl. rewrite Ha. simpl. eexists. split; [done|].
  assert (trs_le (trs s1) (<[tr := t']> (trs s1))) as Hle.
  { apply trs_le_insert with t; [by rewrite Ht1|done]. }
  destruct Hi1 as [Hcm Hco Hke Hws Hre Hwg' Hrd Hlo Hcr Hst Hret]. split; simpl; try done.
  - intros. eapply of_key_le; eauto.
  - intros tr' t'' H'. lookups; [|eauto]. apply (iv_key _ Hi _ _ Ht).
  - intros h w k tr' Hh Hp. destruct (Hre _ _ _ _ Hh Hp). split; [done|]. by eapply of_key_le.
  - lia.
  - intros. eapply of_key_le; eauto.
  - intros. eapply of_key_le; eauto.
  - intros x Hx. specialize (Hret _ Hx). rewrite Hret, map_size_empty in Hsz. lia.
Qed.

Lemma set_hp_inv h s : inv s → inv (set_hp h s).
Proof. by intros []. Qed.

Lemma close_all_inv l s : inv s → inv (set_trs (close_all l (trs s)) s).
Proof.
  intros Hi. apply set_trs_inv; [done|apply trs_le_close_all|apply live_close_all|].
  intros tr t. rewrite close_all_lookup. case_decide; [|by apply (iv_key _ Hi)].
  destruct (trs s !! tr) as [t'|] eqn:Ht; [|done]. intros [= <-]. by apply (iv_key _ Hi) in Ht.
Qed.

(** What dropping deleted keys does to the server's transports and manager. *)
Lemma UpdatePublicKeys_inv ks s : inv s → inv (UpdatePublicKeys ks s).2.
Proof.
  intros Hi. unfold UpdatePublicKeys.
  destruct (ValidPublicKeysFromEd25519 ks (hp s)) as [[pubs h1]| |]; [|done..].
  destruct (creds s) as [r|]; [|by apply set_hp_inv].
  destruct (Replace r pubs h1) as [h2| |]; [|by apply set_hp_inv..].
  destruct (connMgr s) as [cm|] eqn:Hc; [|by apply set_hp_inv].
  unfold removeConnectionsToDeletedKeys.
  destruct (drop_conns_ok (allowed_keys ks) (map_to_list (conns cm)) cm (iv_cm _ Hi cm Hc))
    as (cm'&->&Hok&Hco&_). simpl. rewrite drop_filter in Hco.
  apply (close_all_inv _ (set_cm (Some cm') (set_hp h2 s))).
  apply set_cm_inv with cm; [by apply set_hp_inv|done..|].
  intros k tr. rewrite Hco. intros [Hl _]%map_lookup_filter_Some. by eapply (iv_conn _ Hi).
Qed.

Lemma may_write_spec s h w :
  may_write s = true → handlers s !! h = Some w → holds_read (w_pc w) = false.
Proof. intros Hm%bool_decide_eq_true Hh. by apply (Hm h w Hh). Qed.

Lemma exec_stop_inv x pc s s' :
  inv s → stops s !! x = Some pc → exec_stop x pc s = Some s' → inv s'.
Proof.
  intros Hi Hx He. destruct pc as [| |[cm|]| | |]; simpl in He; try done.
  - simplify_eq. destruct Hi. split; simpl; try done; intros; lookups; eauto.
  - destruct (may_write s) eqn:Hm; simplify_eq. 
    destruct Hi as [Hcm Hco Hke Hws Hre Hwg Hrd Hlo Hcr Hst Hret]. split; simpl; try done.
    + intros h w k tr Hh Hp. pose proof (may_write_spec _ _ _ Hm Hh) as Hr.
      by rewrite Hp in Hr.
    + intros x' Hx'. lookups. eauto.
  - simplify_eq. assert (connMgr s = None) as Hn by by eapply (iv_stop _ Hi).
    destruct (close_all_inv (ConnMgr.close cm) s Hi). split; simpl in *; try done;
      intros; lookups; eauto.
  - simplify_eq. assert (connMgr s = None) as Hn by by eapply (iv_stop _ Hi).
    destruct Hi. split; simpl; try done; intros; lookups; eauto.
  - case_decide as Hw; simplify_eq.
    assert (connMgr s = None) as Hn by by eapply (iv_stop _ Hi).
    destruct Hi as [Hcm Hco Hke Hws Hre Hwg Hrd Hlo Hcr Hst Hret]. split; simpl; try done.
    intros x' Hx'. apply map_size_empty_iff. lia.
Qed.

Context (no_panic : ∀ b p, UnmarshalMessage (U:=U) b ≠ Panic p).

Lemma dispatch_inv k tr in_ s : inv s → of_key tr k (trs s) → inv (dispatch k tr in_ s).
Proof.
  intros Hi Hk. unfold dispatch. rewrite decode_envelope_eq.
  destruct (UnmarshalMessage in_) as [[[ex|]]| |p] eqn:He; try done;
    [|by destruct (no_panic in_ p)].
  destruct Hi. split; simpl; try done. intros k' tr' ex' [Hin|Hin]%elem_of_app; [eauto|].
  apply list_elem_of_singleton in Hin. by simplify_eq.
Qed.

Lemma exec_ws_inv a h w s s' :
  inv s → handlers s !! h = Some w → exec_ws a h w s = Some s' → inv s'.
Proof.
  intros Hi Hh He. unfold exec_ws in He.
  destruct a; try done; destruct (w_pc w) eqn:Hpc; try done.
  - destruct (quit s); simplify_eq; apply set_ws_inv; naive_solver.
  - destruct (ensureSingleClientConnection (w_cert w) s) as [k| |] eqn:Hens; simplify_eq;
      apply set_ws_inv; try naive_solver.
    simpl. intros k' [[= <-]|]; [|done]. unfold ensureSingleClientConnection in Hens.
    destruct (PubKeyFromCert (w_cert w)); try done.
    by destruct (lookup_transport _ _); simplify_eq.
  - pose proof (iv_ws _ Hi h w k Hh (or_introl Hpc)).
    destruct upgraded; simplify_eq; apply set_ws_inv; naive_solver.
  - destruct (trs s !! tr) eqn:Hn; simplify_eq. by apply start_transport_inv.
  - destruct (readers s !! rd) eqn:Hn; simplify_eq. by apply register_transport_inv.
  - destruct (trs s !! tr) as [t|]; [|done]. destruct (_ || _); simplify_eq.
    apply set_ws_inv; naive_solver.
Qed.

Lemma exec_tr_inv a tr t s s' :
  inv s → trs s !! tr = Some t → exec_tr a tr t s = Some s' → inv s'.
Proof.
  intros Hi Ht He. unfold exec_tr in He. destruct a; try done; simplify_eq.
  - apply set_trs_inv; [done|by eapply trs_le_insert| |].
    + apply live_size. intros tr'. destruct (decide (tr = tr')) as [<-|].
      * by rewrite lookup_insert_eq, Ht.
      * by rewrite lookup_insert_ne.
    + intros tr' t' H'. lookups; by eapply (iv_key _ Hi).
  - destruct (t_after t) eqn:Ha; [done|]. simpl in He.
    destruct (t_closing t || t_down t); [|done].
    destruct (afterWritePump_inv tr t s Hi Ht Ha) as (s1&Heq&Hi1).
    rewrite Heq in He. by simplify_eq.
Qed.

Lemma exec_rd_inv a r rd s s' :
  inv s → readers s !! r = Some rd → exec_rd a r rd s = Some s' → inv s'.
Proof.
  intros Hi Hr He. unfold exec_rd in He.
  destruct a; try done; destruct (rd_pc rd) eqn:Hpc; try done.
  - destruct (connMgr s) as [cm|] eqn:Hc; simplify_eq; [|by apply set_reader_inv].
    unfold getTransport in He. destruct (conns cm !! rd_key rd) eqn:Hk; simplify_eq;
      apply set_reader_inv; try done. simpl. intros ? [= <-]. by eapply (iv_conn _ Hi).
  - simplify_eq. apply dispatch_inv; [done|]. by eapply (iv_reader _ Hi).
  - destruct (trs s !! rd_done rd) as [t|]; [|done]. destruct (t_after t); simplify_eq.
    by apply set_reader_inv.
Qed.

#[local] Arguments exec_ws : simpl never.
#[local] Arguments exec_tr : simpl never.
#[local] Arguments exec_rd : simpl never.
#[local] Arguments exec_stop : simpl never.

Lemma server_exec_inv a s s' : inv s → exec a s = Some s' → inv s'.
Proof.
  intros Hi He. destruct a; simpl in He;
    try (match type of He with
    | ?m ≫= _ = _ => destruct m eqn:Hl; [simpl in He|done]
    end; first [by eapply exec_ws_inv|by eapply exec_tr_inv|by eapply exec_rd_inv
               |by eapply exec_stop_inv]).
  - destruct (handlers s !! h); [done|]. destruct (handshake raw s); simplify_eq.
    apply set_ws_inv; naive_solver.
  - destruct (stops s !! x) eqn:Hx; simplify_eq. destruct Hi.
    split; simpl; try done; intros; lookups; eauto.
  - destruct (may_write s); simplify_eq. by apply UpdatePublicKeys_inv.
  - simplify_eq. unfold GetConnectionNotifyChan.
    destruct (connMgr s) as [cm|] eqn:Hc; [|done]. simpl.
    destruct (getNotifyChan_ok cm (iv_cm _ Hi cm Hc)) as (Hok&_&_&Hco&_).
    eapply set_cm_inv; [done..|]. intros k tr. rewrite Hco. by apply (iv_conn _ Hi).
Qed.

Lemma server_reachable_inv ks s : reachable exec (NewServer ks) s → inv s.
Proof.
  apply reachable_invariant; [apply server_NewServer_inv|].
  intros a s1 s2. apply server_exec_inv.
Qed.

(** ** Where the certificates come from *)

(** The keys the TLS check accepts at the moment. *)
Definition allowed_now (s : server) : list bytes :=
  match creds s with Some r => default [] (objs (hp s) !! r) | None => [] end.

Lemma handshake_allowed raw s cert k :
  handshake raw s = Some cert → PubKeyFromCert cert = Ok k →
  ∃ pk, pk ∈ allowed_now s ∧ ToStaticallySizedPublicKey pk = Ok k.
Proof.
  unfold handshake, allowed_now. intros Hh (pk&Hpk&Hk)%bind_ok_inv.
  destruct (creds s) as [r|]; [|done].
  destruct (ParseCertificate raw) as [cert'| |] eqn:Hp; [|done..].
  destruct (VerifyPeerCertificate ParseCertificate r [raw] (hp s)) as [[]| |] eqn:Hv; simplify_eq.
  exists pk. split; [|done]. unfold VerifyPeerCertificate in Hv. rewrite Hp in Hv. simpl in Hv.
  rewrite Hpk in Hv. simpl in Hv. apply bind_ok_inv in Hv as (ok&Hok&Hv).
  destruct ok; [|done]. pose proof Hok as (ks&Hks&_)%bind_ok_inv. unfold Keys in Hks.
  destruct (objs (hp s) !! r) as [ks'|] eqn:Ho; [|done].
  rewrite (isValidPublicKey_spec _ _ _ _ Ho) in Hok. injection Hok as Hok.
  by apply bool_decide_eq_true in Hok.
Qed.

(** Certificates travel from handshakes to handlers to transports. *)
Record certs (P Q : nat → Certificate → Prop) (s : server) : Prop := mkCerts {
  certs_ws h w : handlers s !! h = Some w → P h (w_cert w);
  certs_tr tr t : trs s !! tr = Some t → Q tr (t_cert t);
}.

Lemma certs_set_ws P Q h w s : certs P Q s → P h (w_cert w) → certs P Q (set_ws h w s).
Proof. intros [Hw Ht] HP. split; simpl; [|done]. intros h' w' H'. lookups; eauto. Qed.

Lemma certs_set_tr P Q tr t s : certs P Q s → Q tr (t_cert t) → certs P Q (set_trs (<[tr := t]> (trs s)) s).
Proof. intros [Hw Ht] HP. split; simpl; [done|]. intros tr' t' H'. lookups; eauto. Qed.

Lemma certs_same P Q s s' :
  handlers s' = handlers s → trs s' = trs s → certs P Q s → certs P Q s'.
Proof. intros Ha Hb [Hw Ht]. by split; rewrite ?Ha, ?Hb. Qed.

Lemma certs_close_all P Q l s : certs P Q s → certs P Q (set_trs (close_all l (trs s)) s).
Proof.
  intros [Hw Ht]. split; simpl; [done|]. intros tr t. rewrite close_all_lookup.
  case_decide; [|eauto]. destruct (trs s !! tr) as [t'|] eqn:Htr; [|done].
  intros [= <-]. by apply Ht in Htr.
Qed.

Lemma certs_update P Q ks s : certs P Q s → certs P Q (UpdatePublicKeys ks s).2.
Proof.
  intros Hc. unfold UpdatePublicKeys.
  destruct (ValidPublicKeysFromEd25519 ks (hp s)) as [[pubs h1]| |]; [|done..].
  destruct (creds s) as [r|]; [|by apply (certs_same P Q s)].
  destruct (Replace r pubs h1) as [h2| |]; [|by apply (certs_same P Q s)..].
  destruct (connMgr s) as [cm|]; [|by apply (certs_same P Q s)].
  destruct (removeConnectionsToDeletedKeys ks cm) as [[l cm']| |]; [|by apply (certs_same P Q s)..].
  simpl. apply (certs_close_all P Q l (set_cm (Some cm') (set_hp h2 s))).
  by apply (certs_same P Q s).
Qed.

(** The goroutines of each kind, on the certificates. *)
Lemma certs_exec_ws P Q a h w s s' :
  (∀ h' tr, a = Start h' tr → Q tr (w_cert w)) →
  certs P Q s → handlers s !! h = Some w → exec_ws a h w s = Some s' → certs P Q s'.
Proof.
  intros HQ Hc Hl He. pose proof (certs_ws _ _ _ Hc _ _ Hl) as Hw. unfold exec_ws in He.
  destruct a, (w_pc w); try done.
  - destruct (quit s); simplify_eq; by apply certs_set_ws.
  - destruct (ensureSingleClientConnection _ _); simplify_eq; by apply certs_set_ws.
  - destruct upgraded; simplify_eq; by apply certs_set_ws.
  - unfold start_transport in He.
    destruct (trs s !! tr), (connMgr s); simplify_eq; [|by apply certs_set_ws].
    apply certs_set_ws; [|done].
    apply (certs_set_tr P Q tr _ (set_wg _ s)); [by apply (certs_same P Q s)|by eapply HQ].
  - unfold register_transport in He.
    destruct (readers s !! rd), (connMgr s) as [cm|]; simplify_eq; [|by apply certs_set_ws].
    destruct (registerConnection k tr cm); [|done|by apply certs_set_ws].
    apply (certs_same P Q (set_ws h (mkWs (w_cert w) (WServe tr)) (set_cm (Some a) s))); [done..|].
    apply certs_set_ws; [by apply (certs_same P Q s)|exact Hw].
  - destruct (trs s !! tr); [|done].
    destruct (_ || _); simplify_eq. by apply certs_set_ws.
Qed.

Lemma certs_exec_tr P Q a tr t s s' :
  certs P Q s → trs s !! tr = Some t → exec_tr a tr t s = Some s' → certs P Q s'.
Proof.
  intros Hc Hl He. pose proof (certs_tr _ _ _ Hc _ _ Hl) as Ht. unfold exec_tr in He.
  destruct a; try done; simplify_eq; [by apply certs_set_tr|].
  destruct (_ && _); [|done].
  destruct (afterWritePump tr t s) as [s1| |p] eqn:Ha; simplify_eq; [|by apply (certs_same P Q s)].
  apply bind_ok_inv in Ha as (s2&Hs2&(n&_&(b&_&[= <-])%bind_ok_inv)%bind_ok_inv).
  assert (handlers s2 = handlers s ∧ trs s2 = trs s) as [Hh2 Ht2].
  { destruct (connMgr s); [|by simplify_eq]. by apply bind_ok_inv in Hs2 as (?&_&[= <-]). }
  eapply (certs_set_tr P Q tr _ (set_wg n s2)); [by apply (certs_same P Q s)|exact Ht].
Qed.

Lemma certs_exec_rd P Q a r rd s s' : certs P Q s → exec_rd a r rd s = Some s' → certs P Q s'.
Proof.
  intros Hc He. unfold exec_rd in He. destruct a, (rd_pc rd); try done.
  - destruct (connMgr s); [destruct (getTransport _ _)|]; simplify_eq; by apply (certs_same P Q s).
  - unfold dispatch in He. simplify_eq.
    destruct (decode_envelope in_) as [[[]]| |]; by apply (certs_same P Q s).
  - destruct (trs s !! rd_done rd); [|done].
    destruct (t_after t); simplify_eq. by apply (certs_same P Q s).
Qed.

Lemma certs_exec_stop P Q x pc s s' : certs P Q s → exec_stop x pc s = Some s' → certs P Q s'.
Proof.
  intros Hc He. unfold exec_stop in He. destruct pc as [| |[cm|]| | |]; try done; simplify_eq;
    try (by apply (certs_same P Q s)).
  - destruct (may_write s); simplify_eq. by apply (certs_same P Q s).
  - apply (certs_same P Q (set_trs (close_all (ConnMgr.close cm) (trs s)) s)); [done..|].
    by apply certs_close_all.
  - case_decide; simplify_eq. by apply (certs_same P Q s).
Qed.

Lemma certs_step P Q a s s' :
  (∀ h raw cert, a = Accept h raw → handshake raw s = Some cert → P h cert) →
  (∀ h tr w, a = Start h tr → handlers s !! h = Some w → Q tr (w_cert w)) →
  certs P Q s → exec a s = Some s' → certs P Q s'.
Proof.
  intros HP HQ Hc He. destruct a; simpl in He;
    try (match type of He with
    | ?m ≫= _ = _ => destruct m eqn:Hl; [simpl in He|done]
    end);
    first [eapply certs_exec_ws; [|done..]; intros; simplify_eq; by eapply HQ
          |by eapply certs_exec_tr|by eapply certs_exec_rd|by eapply certs_exec_stop|idtac].
  - destruct (handlers s !! h); [done|]. destruct (handshake raw s) eqn:Hh; simplify_eq.
    apply certs_set_ws; [done|]. by eapply HP.
  - destruct (stops s !! x); simplify_eq. by apply (certs_same P Q s).
  - destruct (may_write s); simplify_eq. by apply certs_update.
  - simplify_eq. unfold GetConnectionNotifyChan. destruct (connMgr s); [|done].
    by apply (certs_same P Q s).
Qed.

Lemma certs_mono (P P' Q Q' : nat → Certificate → Prop) s :
  (∀ h cert, P h cert → P' h cert) → (∀ tr cert, Q tr cert → Q' tr cert) →
  certs P Q s → certs P' Q' s.
Proof. intros HP HQ [Hw Ht]. split; eauto. Qed.

(** *** A server inside a larger system, whose steps take at most one of it *)

Section Embedded.
Context {St Act : Type} (execS : Act → St → option St) (s0 : St) (sv : St → server)
  (srv : Act → option action).
Hypothesis starts_empty : handlers (sv s0) = ∅ ∧ trs (sv s0) = ∅.
Hypothesis one_step : ∀ a s s', execS a s = Some s' → sv s' = sv s ∨
  ∃ b, exec b (sv s) = Some (sv s') ∧
    match b with Accept _ _ | Start _ _ => srv a = Some b | _ => True end.

(** The handshake that let handler [h] in. *)
Definition let_in (h : nat) (cert : Certificate) : St → Prop :=
  past execS s0 (λ a s, ∃ raw, srv a = Some (Accept h raw) ∧ handshake raw (sv s) = Some cert).
(** And the transport that it started. *)
Definition started (tr : nat) (cert : Certificate) : St → Prop :=
  past execS s0 (λ a s, ∃ h, srv a = Some (Start h tr) ∧ let_in h cert s).

(** Every certificate around went through its own connection's handshake. *)
Lemma certs_past s :
  reachable execS s0 s → certs (λ h cert, let_in h cert s) (λ tr cert, started tr cert s) (sv s).
Proof.
  apply (reachable_invariant_under execS (λ s, reachable execS s0 s)
    (λ s, certs (λ h cert, let_in h cert s) (λ tr cert, started tr cert s) (sv s))); [done| |].
  - destruct starts_empty as [Hh Ht]. split; rewrite ?Hh, ?Ht; intros; simplify_map_eq.
  - intros a s1 s2 Hr Hc He.
    assert (certs (λ h cert, let_in h cert s2) (λ tr cert, started tr cert s2) (sv s1)) as Hc'.
    { eapply certs_mono; [..|exact Hc]; intros ?? Hp; exact (past_step _ _ _ _ _ _ Hp He). }
    destruct (one_step _ _ _ He) as [->|(b&Hb&Hs)]; [done|].
    apply certs_step with b (sv s1); try done.
    + intros h raw cert -> Hh. eapply past_now; [done| |done]. by exists raw.
    + intros h tr w -> Hw. eapply past_now; [done| |done]. exists h. split; [done|].
      by apply (certs_ws _ _ _ Hc).
Qed.

(** A transport's certificate is the one its own handshake parsed, and the key in it
    was among those allowed at that moment. *)
Lemma transport_past s tr t k :
  reachable execS s0 s → trs (sv s) !! tr = Some t → PubKeyFromCert (t_cert t) = Ok k →
  past execS s0 (λ a1 s1, ∃ h, srv a1 = Some (Start h tr) ∧
    past execS s0 (λ a2 s2, ∃ raw pk, srv a2 = Some (Accept h raw) ∧
      ParseCertificate raw = Ok (t_cert t) ∧ pk ∈ allowed_now (sv s2) ∧
      ToStaticallySizedPublicKey pk = Ok k) s1) s.
Proof.
  intros Hr Ht Hk. pose proof (certs_tr _ _ _ (certs_past s Hr) tr t Ht) as Hp.
  eapply past_mono; [|exact Hp]. intros a1 s1 (h&Ha&Hl). exists h. split; [done|].
  eapply past_mono; [|exact Hl]. intros a2 s2 (raw&Ha2&Hh).
  destruct (handshake_allowed raw _ _ _ Hh Hk) as (pk&?&?). exists raw, pk.
  split_and!; [done| |done..]. unfold handshake in Hh.
  destruct (creds (sv s2)), (ParseCertificate raw); try done.
  by destruct (VerifyPeerCertificate _ _ _ _); simplify_eq.
Qed.
End Embedded.

(** On the server alone. *)
Lemma server_transport_authentic ks s tr t :
  reachable exec (NewServer ks) s → trs s !! tr = Some t →
  PubKeyFromCert (t_cert t) = Ok (t_key t) ∧
  past exec (NewServer ks) (λ a1 s1, ∃ h, a1 = Start h tr ∧
    past exec (NewServer ks) (λ a2 s2, ∃ raw pk, a2 = Accept h raw ∧
      ParseCertificate raw = Ok (t_cert t) ∧ pk ∈ allowed_now s2 ∧
      ToStaticallySizedPublicKey pk = Ok (t_key t)) s1) s.
Proof.
  intros Hr Ht. pose proof (iv_key _ (server_reachable_inv ks s Hr) tr t Ht) as Hk. split; [done|].
  assert (∀ a s1 s2, exec a s1 = Some s2 → id s2 = id s1 ∨ ∃ b, exec b (id s1) = Some (id s2) ∧
    match b with Accept _ _ | Start _ _ => Some a = Some b | _ => True end) as Hone.
  { intros a s1 s2 He. right. exists a. split; [done|]. by destruct a. }
  eapply past_mono; [|exact (transport_past exec (NewServer ks) id Some (conj eq_refl eq_refl) Hone s tr t _ Hr Ht Hk)].
  intros a1 s1 (h&[= ->]&Hp). exists h. split; [done|]. eapply past_mono; [|exact Hp].
  intros a2 s2 (raw&pk&[= ->]&Hq). by exists raw, pk.
Qed.

Lemma afterWritePump_frame tr t s s' :
  afterWritePump tr t s = Ok s' →
  trs s' = <[tr := mkTrans (t_cert t) (t_key t) (t_closing t) (t_down t) true]> (trs s) ∧
  stops s' = stops s.
Proof.
  intros (s2&Hs2&(n&_&(b&_&[= <-])%bind_ok_inv)%bind_ok_inv)%bind_ok_inv.
  assert (trs s2 = trs s ∧ stops s2 = stops s) as [Ht2 Hst2].
  { destruct (connMgr s); [|by simplify_eq]. by apply bind_ok_inv in Hs2 as (?&_&[= <-]). }
  simpl. by rewrite Ht2, Hst2.
Qed.

(** Every live transport can run its callback. *)
Definition ending (m : gmap nat trans) : Prop :=
  ∀ tr t, m !! tr = Some t → t_after t = false → t_closing t || t_down t = true.

Lemma drain x n s :
  inv s → size (live (trs s)) = n → stops s !! x = Some SWait → ending (trs s) →
  ∃ acts s', run exec acts s = Some s' ∧ stops s' !! x = Some SReturned ∧ done s' = true ∧
    (∀ a, a ∈ acts → a = StopStep x ∨ ∃ tr, a = AfterWritePump tr).
Proof.
  revert s. induction n as [|n IH]; intros s Hi Hsz Hx Hend.
  - exists [StopStep x]. simpl. rewrite Hx. simpl. unfold exec_stop.
    rewrite decide_True by (rewrite (iv_wg _ Hi); lia). simpl. eexists. split; [done|].
    simpl. rewrite lookup_insert_eq. split_and!; [done..|].
    intros a ->%list_elem_of_singleton. by left.
  - assert (size (live (trs s)) ≠ 0) as (tr&t&[Ht Ha]%map_lookup_filter_Some)%map_size_ne_0_lookup
      by lia. simpl in Ha.
    destruct (afterWritePump_inv tr t s Hi Ht Ha) as (s1&Heq&Hi1).
    destruct (afterWritePump_frame tr t s s1 Heq) as [Htr Hst].
    pose proof (live_finish (trs s) tr t
      (mkTrans (t_cert t) (t_key t) (t_closing t) (t_down t) true) Ht Ha eq_refl) as Hf.
    destruct (IH s1) as (acts&s'&Hrun&Hx'&Hd&Hacts).
    + done.
    + rewrite Htr. lia.
    + by rewrite Hst.
    + rewrite Htr. intros tr' t' H' Ha'. lookups. by eapply Hend.
    + exists (AfterWritePump tr :: acts), s'. simpl. rewrite Ht. simpl. unfold exec_tr.
      rewrite Ha, (Hend tr t Ht Ha), Heq. simpl. split_and!; [done..|].
      intros a [->|?]%elem_of_cons; eauto.
Qed.

(** What every step keeps: a returned [Stop], and the keys unless it is an
    update of them. *)
Record frame (s s' : server) : Prop := mkFrame {
  frame_creds : creds s' = creds s;
  frame_hp : hp s' = hp s ∨ ∃ ks, s' = (UpdatePublicKeys ks s).2;
  frame_stop x : stops s !! x = Some SReturned → stops s' !! x = Some SReturned;
}.

Lemma frame_same s s' :
  creds s' = creds s → hp s' = hp s → stops s' = stops s → frame s s'.
Proof. intros ? ? Hs. split; [done|by left|by rewrite Hs]. Qed.

Lemma afterWritePump_keys tr t s s' :
  afterWritePump tr t s = Ok s' → creds s' = creds s ∧ hp s' = hp s.
Proof.
  intros (s2&Hs2&(n&_&(b&_&[= <-])%bind_ok_inv)%bind_ok_inv)%bind_ok_inv. simpl.
  destruct (connMgr s); [|by simplify_eq]. by apply bind_ok_inv in Hs2 as (?&_&[= <-]).
Qed.

Lemma UpdatePublicKeys_frame ks s : frame s (UpdatePublicKeys ks s).2.
Proof. split; [|by eauto|]; unfold UpdatePublicKeys; repeat (case_match; try done). Qed.

Lemma exec_stop_frame x pc s s' :
  stops s !! x = Some pc → exec_stop x pc s = Some s' → frame s s'.
Proof.
  intros Hx He.
  assert (pc ≠ SReturned → ∀ pc' s1, creds s1 = creds s → hp s1 = hp s → stops s1 = stops s →
    frame s (set_stop x pc' s1)) as Hgo.
  { intros Hpc pc' s1 Hc Hh Hs. split; simpl; [done|by left|].
    intros x' Hx'. rewrite Hs, lookup_insert_ne; [done|]. intros ->. congruence. }
  unfold exec_stop in He. destruct pc as [| |[cm|]| | |]; try done;
    try (destruct (may_write s)); try case_decide; simplify_eq; by apply Hgo.
Qed.

Lemma server_step_frame a s s' : exec a s = Some s' → frame s s'.
Proof.
  intros He. destruct a; simpl in He;
    try (match type of He with
    | ?m ≫= _ = _ => destruct m eqn:Hl; [simpl in He|done]
    end).
  - destruct (handlers s !! h), (handshake raw s); simplify_eq. by apply frame_same.
  - unfold exec_ws in He. destruct (w_pc w); try done.
    destruct (quit s); simplify_eq; by apply frame_same.
  - unfold exec_ws in He. destruct (w_pc w); try done.
    destruct (ensureSingleClientConnection _ _); simplify_eq; by apply frame_same.
  - unfold exec_ws in He. destruct (w_pc w); try done.
    destruct upgraded; simplify_eq; by apply frame_same.
  - unfold exec_ws, start_transport in He. destruct (w_pc w); try done.
    destruct (trs s !! tr), (connMgr s); simplify_eq; by apply frame_same.
  - unfold exec_ws, register_transport in He. destruct (w_pc w); try done.
    destruct (readers s !! rd), (connMgr s) as [cm|]; simplify_eq; [|by apply frame_same].
    destruct (registerConnection k tr cm); by apply frame_same.
  - unfold exec_ws in He. destruct (w_pc w); try done. destruct (trs s !! tr); [|done].
    destruct (_ || _); simplify_eq; by apply frame_same.
  - unfold exec_tr in He. simplify_eq. by apply frame_same.
  - unfold exec_tr in He. destruct (_ && _); [|done].
    destruct (afterWritePump tr t s) as [s1| |p] eqn:Ha; simplify_eq; [|by apply frame_same].
    pose proof (afterWritePump_keys _ _ _ _ Ha) as [? ?].
    apply afterWritePump_frame in Ha as [_ ?]. by apply frame_same.
  - unfold exec_rd in He. destruct (rd_pc r); try done.
    destruct (connMgr s); [destruct (getTransport _ _)|]; simplify_eq; by apply frame_same.
  - unfold exec_rd, dispatch in He. destruct (rd_pc r); try done. simplify_eq.
    destruct (decode_envelope in_) as [[[]]| |]; by apply frame_same.
  - unfold exec_rd in He. destruct (rd_pc r); try done. destruct (trs s !! rd_done r); [|done].
    destruct (t_after t); simplify_eq. by apply frame_same.
  - destruct (stops s !! x) eqn:Hx; simplify_eq. split; simpl; [done|by left|].
    intros x' Hx'. rewrite lookup_insert_ne; [done|congruence].
  - by eapply exec_stop_frame.
  - destruct (may_write s); simplify_eq. apply UpdatePublicKeys_frame.
  - simplify_eq. unfold GetConnectionNotifyChan. destruct (connMgr s); by apply frame_same.
Qed.

Lemma stopped_stays x s s' :
  reachable exec s s' → stops s !! x = Some SReturned → stops s' !! x = Some SReturned.
Proof.
  intros Hr Hx. revert Hx. induction Hr as [|s1 s2 s3 [a Ha] _ IH]; [done|].
  intros Hx. by apply IH, (frame_stop _ _ (server_step_frame _ _ _ Ha)).
Qed.

(** The keys stay behind the pointer the TLS configuration captured. *)
Record keys_ok (s : server) : Prop := mkKeysOk {
  keys_ptr : creds s = Some 0;
  keys_heap : heap_ok (hp s);
  keys_obj : is_Some (objs (hp s) !! 0);
}.

(** A successful update of the keys, taken apart. *)
Lemma UpdatePublicKeys_heap ks s :
  keys_ok s → Forall static_key ks →
  ∃ h2, Replace 0 (alloc ks (hp s)).1 (alloc ks (hp s)).2 = Ok h2 ∧ heap_ok h2 ∧
    objs h2 !! 0 = Some ks.
Proof.
  intros [Hcr Hok [old Hold]] Hks.
  rewrite (Replace_ok 0 _ _ old ks); [|by apply alloc_old|apply alloc_lookup].
  eexists. split; [done|]. split; [|apply lookup_insert_eq].
  intros l v. simpl. intros [[<- _]|[_ Hl]]%lookup_insert_Some; [lia|].
  by apply (alloc_heap_ok ks _ Hok l v).
Qed.

Lemma UpdatePublicKeys_keys ks s : keys_ok s → keys_ok (UpdatePublicKeys ks s).2.
Proof.
  intros Hk. destruct (check_lengths ks) as [[]|e|p] eqn:Hl.
  - apply check_lengths_ok in Hl as Hks.
    destruct (UpdatePublicKeys_heap ks s Hk Hks) as (h2&Hrep&Hok&Hobj).
    assert (hp (UpdatePublicKeys ks s).2 = h2) as Hh.
    { unfold UpdatePublicKeys, ValidPublicKeysFromEd25519. rewrite Hl. simpl.
      rewrite (keys_ptr _ Hk). unfold alloc in Hrep. simpl in Hrep. rewrite Hrep.
      by destruct (connMgr s); [destruct (removeConnectionsToDeletedKeys ks c) as [[]| |]|]. }
    split; rewrite ?Hh; [|done|by eauto].
    rewrite (frame_creds _ _ (UpdatePublicKeys_frame ks s)). apply Hk.
  - unfold UpdatePublicKeys, ValidPublicKeysFromEd25519. by rewrite Hl.
  - by apply check_lengths_no_panic in Hl.
Qed.

Lemma server_keys_ok ks s : reachable exec (NewServer ks) s → keys_ok s.
Proof.
  apply reachable_invariant.
  - split; simpl; [done| |eexists; apply lookup_insert_eq].
    intros l v. simpl. intros [[<- _]|[_ Hl]]%lookup_insert_Some; [lia|].
    by rewrite lookup_empty in Hl.
  - intros a s1 s2 Hk He. destruct (server_step_frame _ _ _ He) as [Hc [Hh|[ks' ->]] _];
      [|by apply UpdatePublicKeys_keys].
    destruct Hk. split; by rewrite ?Hc, ?Hh.
Qed.

(** ** Theorems *)

(** A message is handled under the public key that the connection it was read
    from authenticated with: the key is the one of the certificate presented on
    that connection, and the TLS check of its own handshake found it among the keys
    allowed at the time.  This holds although [handleRead] looks its transport up by key only. *)
Theorem server_dispatch_authentic ks s k tr ex :
  reachable exec (NewServer ks) s → (k, tr, ex) ∈ dispatched s →
  ∃ t, trs s !! tr = Some t ∧ t_key t = k ∧ PubKeyFromCert (t_cert t) = Ok k ∧
    past exec (NewServer ks) (λ a1 s1, ∃ h, a1 = Start h tr ∧
      past exec (NewServer ks) (λ a2 s2, ∃ raw pk, a2 = Accept h raw ∧
        ParseCertificate raw = Ok (t_cert t) ∧ pk ∈ allowed_now s2 ∧
        ToStaticallySizedPublicKey pk = Ok k) s1) s.
Proof.
  intros Hr Hin. destruct (iv_log _ (server_reachable_inv ks s Hr) k tr ex Hin) as (t&Ht&<-).
  destruct (server_transport_authentic ks s tr t Hr Ht) as [Hk Hp]. by exists t.
Qed.

(** Whatever the interleaving, no goroutine of the server panics: the WaitGroup
    never goes below zero, [done] and the notification channel are never closed
    twice; and the WaitGroup counts the transports still to run their callback. *)
Theorem server_goroutines_safe ks s :
  reachable exec (NewServer ks) s →
  crash s = None ∧ serveWG s = Z.of_nat (size (live (trs s))).
Proof. intros Hi%server_reachable_inv. split; apply Hi. Qed.

(** C19: When [Stop] has returned, every connection ever made has run its callback,
    and no connection is made or registered in any later state. *)
Theorem server_stop_complete ks s x s' :
  reachable exec (NewServer ks) s → stops s !! x = Some SReturned → reachable exec s s' →
  connMgr s' = None ∧ ∀ tr t, trs s' !! tr = Some t → t_after t = true.
Proof.
  intros Hr Hx Hr'. pose proof (stopped_stays x s s' Hr' Hx) as Hx'.
  assert (inv s') as Hi.
  { apply (server_reachable_inv ks). unfold reachable in *. by etrans. }
  split; [by apply (iv_stop _ Hi x SReturned)|]. apply live_empty. by apply (iv_ret _ Hi x).
Qed.

(** A waiting [Stop] returns once the connections that are still live have been
    closed or have failed: running their callbacks, and nothing else, lets it. *)
Theorem server_stop_progress ks s x :
  reachable exec (NewServer ks) s → stops s !! x = Some SWait → ending (trs s) →
  ∃ acts s', run exec acts s = Some s' ∧ stops s' !! x = Some SReturned ∧ done s' = true ∧
    (∀ a, a ∈ acts → a = StopStep x ∨ ∃ tr, a = AfterWritePump tr).
Proof. intros Hi%server_reachable_inv Hx Hend. by eapply drain. Qed.

(** C30: [UpdatePublicKeys] with valid keys on a running server succeeds; from then on
    the TLS check accepts exactly these keys, the registered connections are the
    former ones whose key is still allowed, the transport of every dropped one is
    closing, and no other transport is touched. *)
Theorem server_update_keys ks s cm ks' :
  reachable exec (NewServer ks) s → connMgr s = Some cm → Forall static_key ks' →
  ∃ s' cm', UpdatePublicKeys ks' s = (Ok tt, s') ∧ allowed_now s' = ks' ∧
    connMgr s' = Some cm' ∧
    conns cm' = filter (λ kt, kt.1 ∈ allowed_keys ks') (conns cm) ∧
    (∀ k tr, conns cm !! k = Some tr → k ∉ allowed_keys ks' →
       ∃ t, trs s' !! tr = Some t ∧ t_closing t = true) ∧
    (∀ tr, (∀ k, conns cm !! k = Some tr → k ∈ allowed_keys ks') → trs s' !! tr = trs s !! tr).
Proof.
  intros Hr Hc Hks. pose proof (server_reachable_inv ks s Hr) as Hi.
  pose proof (server_keys_ok ks s Hr) as Hk.
  destruct (UpdatePublicKeys_heap ks' s Hk Hks) as (h2&Hrep&_&Hobj).
  unfold UpdatePublicKeys, ValidPublicKeysFromEd25519.
  apply check_lengths_ok in Hks. rewrite Hks. simpl. rewrite (keys_ptr _ Hk).
  unfold alloc in Hrep. simpl in Hrep. rewrite Hrep, Hc. unfold removeConnectionsToDeletedKeys.
  destruct (drop_conns_ok (allowed_keys ks') (map_to_list (conns cm)) cm (iv_cm _ Hi cm Hc))
    as (cm'&->&_&Hco&_). rewrite drop_filter in Hco.
  eexists _, cm'. split; [done|]. split_and!; [|done|done| |].
  - unfold allowed_now. simpl. by rewrite (keys_ptr _ Hk), Hobj.
  - intros k tr Hkt Hn. destruct (iv_conn _ Hi cm k tr Hc Hkt) as (t&Ht&_). simpl.
    exists (mark_closing t). split; [|done]. rewrite close_all_lookup, decide_True, Ht; [done|].
    apply list_elem_of_fmap. exists (k, tr). split; [done|]. apply drop_list_elem.
    by rewrite elem_of_map_to_list.
  - intros tr Hall. simpl. rewrite close_all_lookup, decide_False; [done|].
    intros ([k tr']&->&Hin)%list_elem_of_fmap. apply drop_list_elem in Hin as [Hin Hn].
    apply Hn, Hall. by apply elem_of_map_to_list.
Qed.

(** After [Stop] took the manager, the server's other entry points dereference
    nil: a second [Stop], [UpdatePublicKeys] (after it replaced the keys), and
    the connection queries. *)
Theorem server_calls_after_stop ks s x ks' :
  reachable exec (NewServer ks) s → connMgr s = None → Forall static_key ks' →
  stops s !! x = Some (SClose None) →
  (∃ s', UpdatePublicKeys ks' s = (Panic NilDeref, s') ∧ allowed_now s' = ks') ∧
  (GetConnectionNotifyChan s).1 = Panic NilDeref ∧
  GetConnectedPeerPublicKeys s = Panic NilDeref ∧ OpenConnections s = Panic NilDeref ∧
  exec (StopStep x) s = Some (set_stop x (SPanicked NilDeref) (set_done s)).
Proof.
  intros Hr Hc Hks Hx. pose proof (server_keys_ok ks s Hr) as Hk.
  destruct (UpdatePublicKeys_heap ks' s Hk Hks) as (h2&Hrep&_&Hobj).
  unfold UpdatePublicKeys, GetConnectionNotifyChan, GetConnectedPeerPublicKeys,
    OpenConnections, ValidPublicKeysFromEd25519.
  apply check_lengths_ok in Hks. rewrite Hks. simpl. rewrite (keys_ptr _ Hk).
  unfold alloc in Hrep. simpl in Hrep. rewrite Hrep, Hc.
  split_and!; [|done..|by rewrite Hx]. eexists. split; [done|].
  unfold allowed_now. simpl. by rewrite (keys_ptr _ Hk), Hobj.
Qed.

(** *** A lock that net/http leaves behind *)

Lemma UpdatePublicKeys_handlers ks s : handlers (UpdatePublicKeys ks s).2 = handlers s.
Proof. unfold UpdatePublicKeys. by repeat case_match. Qed.

Lemma leaked_step h w p a s s' :
  handlers s !! h = Some w → w_pc w = WLeaked p → exec a s = Some s' → handlers s' !! h = Some w.
Proof.
  intros Hh Hp He.
  assert (∀ h' w', is_Some (handlers s !! h') → w_pc <$> handlers s !! h' ≠ Some (WLeaked p) →
    <[h' := w']> (handlers s) !! h = Some w) as Hset.
  { intros h' w' _ Hn. rewrite lookup_insert_ne; [done|]. intros ->. rewrite Hh in Hn. by rewrite <- Hp in Hn. }
  destruct a; simpl in He; try (apply bind_Some in He as (y&Hy&He)).
  - destruct (handlers s !! h0) eqn:Hn, (handshake raw s); simplify_eq. simpl.
    rewrite lookup_insert_ne by congruence. done.
  - unfold exec_ws in He. destruct (w_pc y) eqn:Hy'; try done.
    destruct (quit s); simplify_eq; apply Hset; by rewrite ?Hy; simpl; rewrite ?Hy'.
  - unfold exec_ws in He. destruct (w_pc y) eqn:Hy'; try done.
    destruct (ensureSingleClientConnection _ _); simplify_eq; apply Hset; by rewrite ?Hy; simpl; rewrite ?Hy'.
  - unfold exec_ws in He. destruct (w_pc y) eqn:Hy'; try done.
    destruct upgraded; simplify_eq; apply Hset; by rewrite ?Hy; simpl; rewrite ?Hy'.
  - unfold exec_ws, start_transport in He. destruct (w_pc y) eqn:Hy'; try done.
    destruct (trs s !! tr), (connMgr s); simplify_eq; apply Hset; by rewrite ?Hy; simpl; rewrite ?Hy'.
  - unfold exec_ws, register_transport in He. destruct (w_pc y) eqn:Hy'; try done.
    destruct (readers s !! rd), (connMgr s); simplify_eq; [|apply Hset; by rewrite ?Hy; simpl; rewrite ?Hy'].
    destruct (registerConnection _ _ _); try done; apply Hset; by rewrite ?Hy; simpl; rewrite ?Hy'.
  - unfold exec_ws in He. destruct (w_pc y) eqn:Hy'; try done. destruct (trs s !! tr); [|done].
    destruct (_ || _); simplify_eq; apply Hset; by rewrite ?Hy; simpl; rewrite ?Hy'.
  - unfold exec_tr in He. by simplify_eq.
  - unfold exec_tr in He. destruct (_ && _); [|done].
    destruct (afterWritePump tr y s) as [s1| |] eqn:Ha; simplify_eq; [|done].
    apply bind_ok_inv in Ha as (s2&Hs2&(n&_&(b&_&[= <-])%bind_ok_inv)%bind_ok_inv). simpl.
    destruct (connMgr s); [|by simplify_eq]. by apply bind_ok_inv in Hs2 as (?&_&[= <-]).
  - unfold exec_rd in He. by repeat case_match; simplify_eq.
  - unfold exec_rd, dispatch in He. by repeat case_match; simplify_eq.
  - unfold exec_rd in He. by repeat case_match; simplify_eq.
  - by destruct (stops s !! x); simplify_eq.
  - unfold exec_stop in He. by repeat case_match; simplify_eq.
  - destruct (may_write s); simplify_eq. by rewrite UpdatePublicKeys_handlers.
  - simplify_eq. unfold GetConnectionNotifyChan. by destruct (connMgr s).
Qed.

(** A handshake that gets to [ensureSingleClientConnection] after [Stop] took the manager
    panics between [s.mu.RLock()] and [s.mu.RUnlock()].  net/http recovers, so the process
    goes on, but [s.mu] stays locked: from then on no writer gets it, neither another
    [Stop] nor [UpdatePublicKeys]. *)
Theorem server_leaked_lock s h w k :
  handlers s !! h = Some w → w_pc w = WEnsure → connMgr s = None →
  PubKeyFromCert (w_cert w) = Ok k →
  ∃ s1, exec (Ensure h) s = Some s1 ∧ crash s1 = crash s ∧
    ∀ s', reachable exec s1 s' → may_write s' = false ∧
      (∀ ks, exec (UpdateKeys ks) s' = None) ∧
      ∀ x, stops s' !! x = Some SDrop → exec (StopStep x) s' = None.
Proof.
  intros Hh Hpc Hc Hk. set (w' := mkWs (w_cert w) (WLeaked NilDeref)).
  exists (set_ws h w' s). split; [|split; [done|]].
  - simpl. rewrite Hh. simpl. unfold exec_ws, ensureSingleClientConnection, lookup_transport.
    by rewrite Hpc, Hk, Hc.
  - intros s' Hr. assert (handlers s' !! h = Some w') as Hl.
    { revert Hr. apply (reachable_invariant exec (λ s', handlers s' !! h = Some w')); [apply lookup_insert_eq|].
      intros a s1 s2 Hl He. by apply (leaked_step h w' NilDeref a s1 s2). }
    assert (may_write s' = false) as Hm.
    { apply not_true_iff_false. intros Hm%(may_write_spec _ h w'); done. }
    split_and!; [done|intros ks; simpl; by rewrite Hm|].
    intros x Hx. simpl. rewrite Hx. simpl. unfold exec_stop. by rewrite Hm.
Qed.
End Server.

(** ** Concrete runs: two peers, string messages, certificates that are the key *)

Definition w_parse (raw : bytes) : outcome Certificate :=
  Ok (mkCertificate Ed25519 (PKEd25519 raw)).
Definition w_cert_of (k : bytes) : Certificate := mkCertificate Ed25519 (PKEd25519 k).
Definition k1 : bytes := w_key x01.
Definition k2 : bytes := w_key x02.
Definition w_exec : action → server → option server := exec (U:=Toy.U) w_parse.
Definition w_start : server := NewServer [k1; k2].

Lemma toy_no_panic b p : UnmarshalMessage (U:=Toy.U) b ≠ Panic p.
Proof. simpl. by destruct (Toy.decode (Toy.raw b)). Qed.

(** A connection of key [k], handled by [h], up to its upgrade; and registered. *)
Definition w_upgraded (h : nat) (k : bytes) : list action :=
  [Accept h k; CheckQuit h; Ensure h; Upgrade h true].
Definition w_connect (h : nat) (k : bytes) (tr : nat) : list action :=
  w_upgraded h k ++ [Start h tr; Register h tr].
Definition w_stop (x : nat) : list action := [Stop x; StopStep x; StopStep x; StopStep x].

(** Two connections of one peer pass [ensureSingleClientConnection] before either
    is registered. *)
Definition w_race : list action :=
  w_upgraded 1 k1 ++ w_upgraded 2 k1 ++ [Start 1 10; Register 1 10; Start 2 20; Register 2 20].
Definition w_race_state := final w_exec w_race w_start.

(** The single-connection check is not atomic with the registration: two live
    connections of one key can exist, the first out of the manager's reach; and
    when the first ends, its callback takes the second out of the manager, which
    stays live but answers no [Invoke] any more. *)
Theorem server_single_connection_race :
  (∃ s t1 t2, reachable w_exec w_start s ∧ trs s !! 10 = Some t1 ∧ trs s !! 20 = Some t2 ∧
     t_key t1 = t_key t2 ∧ t_after t1 = false ∧ t_after t2 = false ∧
     t_closing t1 = false ∧ t_closing t2 = false) ∧
  (∃ s t2, reachable w_exec w_start s ∧ trs s !! 20 = Some t2 ∧ t_after t2 = false ∧
     t_closing t2 = false ∧ t_down t2 = false ∧
     lookup_transport (t_key t2) s = Err "client not connected").
Proof.
  split.
  - exists w_race_state. do 2 eexists. split_and!; [at_state..|].
    all: vm_compute; reflexivity.
  - exists (final w_exec (w_race ++ [TransportDown 10; AfterWritePump 10]) w_start).
    eexists. split_and!; [at_state..|]. vm_compute. reflexivity.
Qed.

(** A connection that fails between the start of its transport and its
    registration is registered after its callback ran: its entry is never removed
    by it, and the check turns the peer's next connection away. *)
Theorem server_dead_connection_registered :
  ∃ s t, reachable w_exec w_start s ∧ trs s !! 10 = Some t ∧ t_after t = true ∧
    lookup_transport k1 s = Ok 10 ∧
    ensureSingleClientConnection (w_cert_of k1) s = Err "only one connection allowed per client".
Proof.
  exists (final w_exec (w_upgraded 1 k1 ++
    [Start 1 10; TransportDown 10; AfterWritePump 10; Register 1 10]) w_start).
  eexists. split_and!; at_state.
Qed.

(** A handshake that verified before [UpdatePublicKeys] removed the key leads to
    a registered connection after it: the update does not reach connections that
    are still being admitted. *)
Theorem server_revoked_key_registered :
  ∃ s t, reachable w_exec w_start s ∧ trs s !! 10 = Some t ∧ t_key t = k1 ∧
    t_closing t = false ∧ lookup_transport k1 s = Ok 10 ∧ allowed_now s = [k2].
Proof.
  exists (final w_exec (w_upgraded 1 k1 ++ [UpdateKeys [k2]; Start 1 10; Register 1 10]) w_start).
  eexists. split_and!; at_state.
Qed.

(** Such a handshake: it checked [quit] before [Stop] fired it. *)
Definition w_leak_state : server :=
  final w_exec ([Accept 1 k1; CheckQuit 1] ++ w_stop 1 ++ [StopStep 1]) w_start.

(** [Stop] closes the connections the manager knows; one that another connection
    of the same key displaced is not among them, and [Stop] waits for it. *)
Theorem server_stop_waits_for_displaced :
  ∃ s t, reachable w_exec w_start s ∧ stops s !! 1 = Some SWait ∧ trs s !! 10 = Some t ∧
    t_closing t = false ∧ t_down t = false ∧ t_after t = false ∧
    w_exec (StopStep 1) s = None.
Proof.
  exists (final w_exec (w_race ++ w_stop 1 ++ [AfterWritePump 20]) w_start).
  eexists. split_and!; at_state.
Qed.

(** ** Witnesses *)

Definition w_hello : slice :=
  Some (Toy.encode (mkMessage (Some (Message_Request (mkRequest "Ping" "id1" None))))).
Definition w_hello_req : isMessage_Exchange := Message_Request (mkRequest "Ping" "id1" None).
Definition w_talk_state : server :=
  final w_exec (w_connect 1 k1 10 ++ w_connect 2 k2 20 ++ [ReadStart 10; ReadMessage 10 w_hello])
    w_start.
Definition w_stopping_state : server :=
  final w_exec (w_connect 1 k1 10 ++ w_connect 2 k2 20 ++ w_stop 1) w_start.
Definition w_stopped_state : server :=
  final w_exec (w_connect 1 k1 10 ++ w_stop 1 ++ [AfterWritePump 10; StopStep 1]) w_start.
Definition w_second_stop_state : server :=
  final w_exec (w_stop 1 ++ [Stop 2; StopStep 2; StopStep 2]) w_start.

Lemma server_dispatch_authentic_witness :
  ∃ t, trs w_talk_state !! 10 = Some t ∧ t_key t = k1 ∧ PubKeyFromCert (t_cert t) = Ok k1.
Proof.
  destruct (server_dispatch_authentic (U:=Toy.U) w_parse toy_no_panic [k1; k2] w_talk_state
    k1 10 w_hello_req) as (t&Ht&Hk&Hc&_).
  - at_state.
  - assert (dispatched w_talk_state = [(k1, 10, w_hello_req)]) as -> by at_state. by left.
  - exists t. split_and!; assumption.
Defined.

Lemma server_goroutines_safe_witness : crash w_talk_state = None ∧ serveWG w_talk_state = 2%Z.
Proof.
  destruct (server_goroutines_safe (U:=Toy.U) w_parse toy_no_panic [k1; k2] w_talk_state)
    as [Hc Hw]; [at_state|]. split; [exact Hc|]. rewrite Hw. vm_compute. reflexivity.
Defined.

Lemma server_stop_complete_witness :
  connMgr w_stopped_state = None ∧
  ∀ tr t, trs w_stopped_state !! tr = Some t → t_after t = true.
Proof.
  apply (server_stop_complete (U:=Toy.U) w_parse toy_no_panic [k1; k2] w_stopped_state 1
    w_stopped_state); [at_state..|apply rtc_refl].
Defined.

Lemma server_stop_progress_witness :
  ∃ acts s', run w_exec acts w_stopping_state = Some s' ∧ stops s' !! 1 = Some SReturned.
Proof.
  destruct (server_stop_progress (U:=Toy.U) w_parse toy_no_panic [k1; k2] w_stopping_state 1)
    as (acts&s'&Hr&Hs&_).
  - at_state.
  - at_state.
  - intros tr t Ht. revert tr t Ht.
    apply (bool_decide_unpack (map_Forall (λ _ t, t_after t = false → t_closing t || t_down t = true)
      (trs w_stopping_state))). vm_compute. exact I.
  - exists acts, s'. split; assumption.
Defined.

Definition w_talk_cm : connectionsManager :=
  match connMgr w_talk_state with Some cm => cm | None => newConnectionsManager end.

Lemma w_static_k2 : Forall static_key [k2].
Proof. repeat constructor. Defined.

Lemma server_update_keys_witness :
  ∃ s' cm', UpdatePublicKeys [k2] w_talk_state = (Ok tt, s') ∧ allowed_now s' = [k2] ∧
    connMgr s' = Some cm'.
Proof.
  destruct (server_update_keys (U:=Toy.U) w_parse toy_no_panic [k1; k2] w_talk_state w_talk_cm [k2])
    as (s'&cm'&Hu&Ha&Hc&_); [at_state..|apply w_static_k2|].
  exists s', cm'. split_and!; assumption.
Defined.

Lemma server_leaked_lock_witness :
  stops w_leak_state !! 1 = Some SReturned ∧
  ∃ s1, w_exec (Ensure 1) w_leak_state = Some s1 ∧ may_write s1 = false.
Proof.
  split; [at_state|].
  destruct (server_leaked_lock (U:=Toy.U) w_parse w_leak_state 1 (mkWs (w_cert_of k1) WEnsure) k1)
    as (s1&He&_&Hs); [at_state|reflexivity|at_state|reflexivity|].
  exists s1. split; [exact He|]. apply (Hs s1), rtc_refl.
Defined.

Lemma server_calls_after_stop_witness :
  GetConnectedPeerPublicKeys w_second_stop_state = Panic NilDeref ∧
  w_exec (StopStep 2) w_second_stop_state =
    Some (set_stop 2 (SPanicked NilDeref) (set_done w_second_stop_state)).
Proof.
  destruct (server_calls_after_stop (U:=Toy.U) w_parse [k1; k2] w_second_stop_state 2 [k2])
    as (_&_&Hp&_&Hs); [at_state..|apply w_static_k2|at_state|].
  split; assumption.
Defined.
End Server.
