(* ===== verification/Keepalive.v ===== *)
(** [internal/transport/transport.go] and the constructors of the two websocket
    transports: the effective limits of a transport, and the read deadline that
    [readPump] and the pong handler keep.

    Times are nanoseconds.  A frame carries the time at which [ReadMessage]
    takes it off the connection; gorilla's [ReadMessage] runs the pong handler
    on a pong, answers the peer's pings itself, returns a data message, and
    fails once the deadline passed. *)
From S2P Require Import Prelude.

Module Keepalive.

Definition defaultWriteTimeout : Z := 10 * second.
Definition defaultReadLimit : Z := 100000000.
Definition pongWait : Z := 20 * second.
Definition pingPeriod : Z := Z.quot (pongWait * 9) 10.

(** ** Limits *)

(** The two fields of [ConnectOptions] that [newWebsocketClientConfig] reads. *)
Record ConnectOptions := mkConnectOptions { co_WriteTimeout : Z; co_ReadLimit : Z }.

Record ServerConfig := mkServerConfig { sc_ReadLimit : Z; sc_WriteTimeout : Z }.

(** What a transport is left with: the timeout it stores and the limit it passes
    to [conn.SetReadLimit]. *)
Record limits := mkLimits { writeTimeout : Z; readLimit : Z }.

Definition newWebsocketClientConfig (opts : ConnectOptions) : limits :=
  let writeTimeout :=
    if decide (co_WriteTimeout opts ≠ 0%Z) then co_WriteTimeout opts else defaultWriteTimeout in
  let readLimit :=
    if decide (co_ReadLimit opts ≠ 0%Z) then co_ReadLimit opts else defaultReadLimit in
  mkLimits writeTimeout readLimit.

Definition newWebsocketServerWithConfig (config : ServerConfig) : limits :=
  let writeTimeout :=
    if decide (sc_WriteTimeout config ≠ 0%Z) then sc_WriteTimeout config else defaultWriteTimeout in
  let readLimit :=
    if decide (sc_ReadLimit config ≠ 0%Z) then sc_ReadLimit config else defaultReadLimit in
  mkLimits writeTimeout readLimit.

(** ** The read deadline *)

Inductive frame := Pong | Ping | Data (p : bytes).

#[global] Instance frame_eq_dec : EqDecision frame.
Proof. solve_decision. Defined.

(** The handler that [handlePong] returns, run at time [now]: the new deadline. *)
Definition handlePong (now : Z) : Z := (now + pongWait)%Z.

(** The reads of [readPump], from the deadline [d], of the given frames in
    arrival order: the data messages delivered, and the deadline of the next
    read, or [None] after a read that timed out. *)
Fixpoint reads (d : Z) (frames : list (Z * frame)) : list bytes * option Z :=
  match frames with
  | [] => ([], Some d)
  | (t, f) :: frames =>
      if decide (t < d)%Z then
        match f with
        | Pong => reads (handlePong t) frames
        | Ping => reads d frames
        | Data p => let '(ps, d') := reads d frames in (p :: ps, d')
        end
      else ([], None)
  end.

(** [readPump] sets the first deadline when it starts. *)
Definition readPump (start : Z) (frames : list (Z * frame)) : list bytes * option Z :=
  reads (start + pongWait)%Z frames.

(** The pump is still reading. *)
Definition survives (start : Z) (frames : list (Z * frame)) : bool :=
  bool_decide (is_Some (readPump start frames).2).

(** The ticks of [writePump]'s ticker, started at [start]: the [n]th ping goes
    out at [ping_time start n]. *)
Definition ping_time (start : Z) (n : nat) : Z := (start + pingPeriod * (Z.of_nat n + 1))%Z.

(** The pongs to the first pings when the [n]th takes [rtts !! n] to be
    written, answered and read. *)
Definition pongs (start : Z) (rtts : list Z) : list (Z * frame) :=
  imap (λ n rtt, (ping_time start n + rtt, Pong)%Z) rtts.

(** ** Theorems *)

Lemma reads_pongs start n d rtts :
  is_Some (reads d (imap (λ i rtt, (ping_time start (n + i) + rtt, Pong)%Z) rtts)).2 ↔
  ∀ i r, rtts !! i = Some r →
    (ping_time start (n + i) + r <
      match i with
      | O => d
      | S i' => ping_time start (n + i') + default 0 (rtts !! i') + pongWait
      end)%Z.
Proof.
  revert n d. induction rtts as [|r rtts IH]; intros n d; simpl.
  { split; [|by eexists]. intros _ i r Hr. by rewrite lookup_nil in Hr. }
  rewrite Nat.add_0_r. case_decide as Hd; simpl.
  - specialize (IH (S n) (handlePong (ping_time start n + r))).
    assert (∀ l, imap ((λ (i : nat) (rtt : Z), ((ping_time start (n + i) + rtt)%Z, Pong)) ∘ S) l =
      imap (λ (i : nat) (rtt : Z), ((ping_time start (S n + i) + rtt)%Z, Pong)) l) as Himap.
    { intros l. apply imap_ext. intros i x _. simpl. by rewrite <- plus_n_Sm. }
    rewrite Himap, IH. clear IH Himap. unfold handlePong. split.
    + intros Hs [|[|i]] r' Hr'; simpl in Hr'; simplify_eq; [by rewrite Nat.add_0_r|..]; simpl.
      * rewrite Nat.add_0_r. specialize (Hs 0 _ Hr'). simpl in Hs.
        rewrite Nat.add_0_r in Hs. by replace (n + 1) with (S n) by lia.
      * specialize (Hs (S i) _ Hr'). simpl in Hs.
        rewrite <- !plus_n_Sm in *. exact Hs.
    + intros Hs [|i] r' Hr'.
      * specialize (Hs 1 _ Hr'). simpl in Hs. rewrite Nat.add_0_r in *.
        by replace (n + 1) with (S n) in Hs by lia.
      * specialize (Hs (S (S i)) _ Hr'). simpl in Hs. simpl.
        rewrite <- !plus_n_Sm in *. exact Hs.
  - split; [by intros [? ?]|]. intros Hs. specialize (Hs 0 r eq_refl). simpl in Hs.
    rewrite Nat.add_0_r in Hs. lia.
Qed.

(** C40: With pings at every tick, the connection outlives the pongs to them exactly
    when each pong takes less than two seconds more than the one before it (the
    first, less than two seconds): the margin of [pingPeriod] below [pongWait]
    bounds how fast the delay may grow, not the delay. *)
Theorem keepalive_iff start rtts :
  survives start (pongs start rtts) = true ↔
  ∀ i r, rtts !! i = Some r →
    (r < match i with O => 0 | S i' => default 0 (rtts !! i') end + 2 * second)%Z.
Proof.
  unfold survives, readPump, pongs. rewrite bool_decide_eq_true.
  rewrite (reads_pongs start 0). simpl.
  split; intros Hs i r Hr; specialize (Hs i r Hr); unfold ping_time, pingPeriod, pongWait, second in *;
    change (Z.quot (20 * 1000000000 * 9) 10) with 18000000000%Z in *; destruct i; simpl in *; lia.
Qed.

(** Neither data nor the peer's pings extend the deadline: a connection that outlives a
    sequence of frames outlives its pongs alone, and one that outlives its pongs
    still times out on data that comes after the last deadline they set.  What
    was delivered is in order and complete up to the timeout. *)
Theorem data_does_not_keep_alive start frames :
  survives start frames = true →
  survives start (filter (λ f, f.2 = Pong) frames) = true ∧
  (readPump start frames).1 = omap (λ f, match f.2 with Data p => Some p | _ => None end) frames ∧
  ∀ t p, (start + pongWait ≤ t)%Z → Forall (λ f, (f.1 + pongWait ≤ t)%Z) (filter (λ f, f.2 = Pong) frames) →
    survives start (frames ++ [(t, Data p)]) = false.
Proof.
  unfold survives, readPump. rewrite !bool_decide_eq_true. generalize (start + pongWait)%Z.
  induction frames as [|[t f] frames IH]; intros d; simpl.
  - intros _. split_and!; [done|done|]. intros t p Ht _. rewrite decide_False by lia.
    by apply bool_decide_eq_false_2; intros [? ?].
  - case_decide as Ht; [|by intros [? ?]]. destruct f as [| |p].
    + intros Hs. destruct (IH _ Hs) as (H1&H2&H3). rewrite filter_cons_True by done. simpl.
      rewrite decide_True by done. split_and!; [done|done|]. intros t' p Hd Hf.
      apply Forall_cons in Hf as [Hf1 Hf2]. apply H3; [|done]. unfold handlePong. simpl in Hf1. lia.
    + intros Hs. rewrite filter_cons_False by done. by apply IH.
    + intros Hs. rewrite filter_cons_False by done.
      destruct (reads d frames) as [ps d'] eqn:Hr.
      destruct (IH d) as (H1&H2&H3); [by rewrite Hr|].
      rewrite Hr in H2. simpl in *. split_and!; [done|by rewrite H2|].
      intros t' p' Hd Hf. specialize (H3 t' p' Hd Hf).
      destruct (reads d (frames ++ [(t', Data p')])) eqn:Hr'. simpl in *. done.
Qed.

(** No transport is without limits: a zero in the options stands for the
    package's defaults, and any other value is used as it is. *)
Theorem transport_limits opts config :
  let c := newWebsocketClientConfig opts in
  let s := newWebsocketServerWithConfig config in
  (writeTimeout c ≠ 0 ∧ readLimit c ≠ 0 ∧ writeTimeout s ≠ 0 ∧ readLimit s ≠ 0)%Z ∧
  (co_WriteTimeout opts ≠ 0%Z → writeTimeout c = co_WriteTimeout opts) ∧
  (co_ReadLimit opts ≠ 0%Z → readLimit c = co_ReadLimit opts) ∧
  (sc_WriteTimeout config ≠ 0%Z → writeTimeout s = sc_WriteTimeout config) ∧
  (sc_ReadLimit config ≠ 0%Z → readLimit s = sc_ReadLimit config).
Proof.
  simpl. split_and!; repeat case_decide; (done || by vm_compute).
Qed.

(** ** Witnesses *)

Lemma data_does_not_keep_alive_witness :
  survives 0 (filter (λ f, f.2 = Pong) [(19 * second, Pong); (20 * second, Data [x01])]%Z) = true ∧
  (readPump 0 [(19 * second, Pong); (20 * second, Data [x01])]%Z).1 = [[x01]] ∧
  ∀ t p, (0 + pongWait ≤ t)%Z →
    Forall (λ f, (f.1 + pongWait ≤ t)%Z)
      (filter (λ f, f.2 = Pong) [(19 * second, Pong); (20 * second, Data [x01])]%Z) →
    survives 0 ([(19 * second, Pong); (20 * second, Data [x01])]%Z ++ [(t, Data p)]) = false.
Proof.
  exact (data_does_not_keep_alive 0 [(19 * second, Pong); (20 * second, Data [x01])]%Z eq_refl).
Defined.
End Keepalive.
