(* ===== verification/Transport.v ===== *)
(** [internal/transport]: the two ends of a websocket transport,
    [websocket_client.go] and [websocket_server.go].

    A transport is a read pump, a write pump, the goroutines inside [Write] and
    [Close], and the websocket connection, whose answers are choices of the
    environment.  Channels are unbuffered: a send and its receive are one step.
    The deadlines that the pumps set and the pongs that extend them show as a
    [ReadMessage] or [WriteMessage] that fails. *)
From S2P Require Import Prelude.

Module Transport.

Inductive side := ClientSide | ServerSide.

(** The read pump. *)
Inductive read_pc :=
  | RRead                 (* in [conn.ReadMessage] *)
  | RSend (m : bytes)     (* in [read <- msg] *)
  | RExited.              (* returned: [closeWritePump] is closed *)

(** The write pump, and what runs when it returns. *)
Inductive write_pc :=
  | WSelect
  | WMsg (m : bytes)      (* in [conn.WriteMessage] *)
  | WLinger               (* close message sent, waiting for the peer *)
  | WExit                 (* returned; deferred calls about to run *)
  | WCallback             (* server: deferred [s.Close()] done *)
  | WDone.

Inductive writer_pc := WrWait | WrOk | WrErr (e : error).
Record writer := mkWriter { w_msg : bytes; w_ctx : bool (* ctx is done *); w_pc : writer_pc }.

(** Goroutines in the client's [Close]. *)
Inductive close_pc := CWait | CReturned.

Record tr := mkTr {
  closing : bool;         (* the server's [state] *)
  closeConn : bool;       (* closed signal channels *)
  closeWritePump : bool;
  conn_closed : bool;     (* [conn.Close()] was called *)
  rp : read_pc;
  wp : write_pc;
  writers : gmap nat writer;
  taken : list nat;       (* the writers whose message was taken, in order *)
  wire : list bytes;      (* the messages [conn.WriteMessage] accepted *)
  recvd : list bytes;     (* the messages [conn.ReadMessage] returned *)
  delivered : list bytes; (* the messages received from [Read()] *)
  afters : nat;           (* the times [afterWritePump] ran *)
  wg : nat;               (* the client's [wg]: pumps still running *)
  closers : gmap nat close_pc;
  crash : option panic;
}.

(** Both pumps just started. *)
Definition init : tr :=
  mkTr false false false false RRead WSelect ∅ [] [] [] [] 0 2 ∅ None.

Definition set_rp (pc : read_pc) (s : tr) : tr :=
  mkTr (closing s) (closeConn s) (closeWritePump s) (conn_closed s) pc (wp s) (writers s)
    (taken s) (wire s) (recvd s) (delivered s) (afters s) (wg s) (closers s) (crash s).
Definition set_wp (pc : write_pc) (s : tr) : tr :=
  mkTr (closing s) (closeConn s) (closeWritePump s) (conn_closed s) (rp s) pc (writers s)
    (taken s) (wire s) (recvd s) (delivered s) (afters s) (wg s) (closers s) (crash s).
Definition set_writer (t : nat) (w : writer) (s : tr) : tr :=
  mkTr (closing s) (closeConn s) (closeWritePump s) (conn_closed s) (rp s) (wp s)
    (<[t := w]> (writers s))
    (taken s) (wire s) (recvd s) (delivered s) (afters s) (wg s) (closers s) (crash s).
Definition set_closer (c : nat) (pc : close_pc) (s : tr) : tr :=
  mkTr (closing s) (closeConn s) (closeWritePump s) (conn_closed s) (rp s) (wp s) (writers s)
    (taken s) (wire s) (recvd s) (delivered s) (afters s) (wg s) (<[c := pc]> (closers s)) (crash s).
Definition conn_Close (s : tr) : tr :=
  mkTr (closing s) (closeConn s) (closeWritePump s) true (rp s) (wp s) (writers s)
    (taken s) (wire s) (recvd s) (delivered s) (afters s) (wg s) (closers s) (crash s).
Definition set_crash (p : panic) (s : tr) : tr :=
  mkTr (closing s) (closeConn s) (closeWritePump s) (conn_closed s) (rp s) (wp s) (writers s)
    (taken s) (wire s) (recvd s) (delivered s) (afters s) (wg s) (closers s) (Some p).
Definition set_closeConn (cl b : bool) (s : tr) : tr :=
  mkTr cl b (closeWritePump s) (conn_closed s) (rp s) (wp s) (writers s)
    (taken s) (wire s) (recvd s) (delivered s) (afters s) (wg s) (closers s) (crash s).
Definition add_taken (t : nat) (s : tr) : tr :=
  mkTr (closing s) (closeConn s) (closeWritePump s) (conn_closed s) (rp s) (wp s) (writers s)
    (taken s ++ [t]) (wire s) (recvd s) (delivered s) (afters s) (wg s) (closers s) (crash s).
Definition add_wire (m : bytes) (s : tr) : tr :=
  mkTr (closing s) (closeConn s) (closeWritePump s) (conn_closed s) (rp s) (wp s) (writers s)
    (taken s) (wire s ++ [m]) (recvd s) (delivered s) (afters s) (wg s) (closers s) (crash s).
Definition add_recvd (m : bytes) (s : tr) : tr :=
  mkTr (closing s) (closeConn s) (closeWritePump s) (conn_closed s) (rp s) (wp s) (writers s)
    (taken s) (wire s) (recvd s ++ [m]) (delivered s) (afters s) (wg s) (closers s) (crash s).
Definition add_delivered (m : bytes) (s : tr) : tr :=
  mkTr (closing s) (closeConn s) (closeWritePump s) (conn_closed s) (rp s) (wp s) (writers s)
    (taken s) (wire s) (recvd s) (delivered s ++ [m]) (afters s) (wg s) (closers s) (crash s).
Definition afterWritePump (s : tr) : tr :=
  mkTr (closing s) (closeConn s) (closeWritePump s) (conn_closed s) (rp s) (wp s) (writers s)
    (taken s) (wire s) (recvd s) (delivered s) (S (afters s)) (wg s) (closers s) (crash s).
Definition wg_Done (s : tr) : tr :=
  mkTr (closing s) (closeConn s) (closeWritePump s) (conn_closed s) (rp s) (wp s) (writers s)
    (taken s) (wire s) (recvd s) (delivered s) (afters s) (wg s - 1) (closers s) (crash s).
Definition set_closeWritePump (b : bool) (s : tr) : tr :=
  mkTr (closing s) (closeConn s) b (conn_closed s) (rp s) (wp s) (writers s)
    (taken s) (wire s) (recvd s) (delivered s) (afters s) (wg s) (closers s) (crash s).

(** A call that may panic in a goroutine of the transport. *)
Definition or_crash (o : outcome tr) (s : tr) : tr :=
  match o with Ok s' => s' | Err _ => s | Panic p => set_crash p s end.

(** ** [Write]

    The ready branches of its [select]; sending meets the write pump's
    receive ([PTake]). *)
Inductive write_branch := OnCloseWritePump | OnCloseConn | OnCtx.

Definition Write_branch (b : write_branch) (t : nat) (w : writer) (s : tr) : option tr :=
  let fail e := Some (set_writer t (mkWriter (w_msg w) (w_ctx w) (WrErr e)) s) in
  match w_pc w, b with
  | WrWait, OnCloseWritePump =>
      if closeWritePump s
      then fail "[wsrpc] could not write message, websocket is closed" else None
  | WrWait, OnCloseConn =>
      if closeConn s
      then fail "[wsrpc] could not write message, transport is closed" else None
  | WrWait, OnCtx =>
      if w_ctx w then fail "[wsrpc] could not write message, context is done" else None
  | _, _ => None
  end.

(** ** [Close] *)
Definition server_Close (s : tr) : outcome tr :=
  if closing s then Ok s
  else c ← close_chan (closeConn s); Ok (set_closeConn true c s).

(** The client's, up to [c.wg.Wait()]. *)
Definition client_Close (s : tr) : outcome tr :=
  c ← close_chan (closeConn s); Ok (set_closeConn (closing s) c s).

(** ** The read pump

    A closed connection may still return messages it had buffered. *)
Inductive read_event := ReadMsg (m : bytes) | ReadErr.

Definition server_readPump (e : read_event) (s : tr) : option tr :=
  match e, rp s with
  | ReadMsg m, RRead => Some (set_rp (RSend m) (add_recvd m s))
  | ReadErr, RRead =>
      Some (or_crash (c ← close_chan (closeWritePump s);
        Ok (set_rp RExited (set_closeWritePump c s))) s)
  | _, _ => None
  end.

Definition client_readPump (e : read_event) (s : tr) : option tr :=
  match e, rp s with
  | ReadMsg m, RRead => Some (set_rp (RSend m) (add_recvd m s))
  | ReadErr, RRead =>
      Some (or_crash (c ← close_chan (closeWritePump s);
        Ok (wg_Done (set_rp RExited (set_closeWritePump c s)))) s)
  | _, _ => None
  end.

(** ** The write pump

    The ready branches of its [select], what the connection answered, and the
    deferred calls. *)
Inductive pump_event :=
  | PClosedRead           (* [<-closeWritePump] *)
  | PTake (t : nat)       (* [msg := <-write], from writer [t] *)
  | PWrote (ok : bool)    (* [WriteMessage] returned *)
  | PTick (ok : bool)     (* [<-ticker.C], and the ping's result *)
  | PClosed (ok : bool)   (* [<-closeConn], and the close message's result *)
  | PLingered             (* [<-closeWritePump] or [<-time.After(time.Second)] *)
  | PDefer.

Definition take_from (t : nat) (s : tr) : option tr :=
  w ← writers s !! t;
  match w_pc w with
  | WrWait => Some (set_wp (WMsg (w_msg w))
      (set_writer t (mkWriter (w_msg w) (w_ctx w) WrOk) (add_taken t s)))
  | _ => None
  end.

Definition server_writePump (e : pump_event) (s : tr) : option tr :=
  match e, wp s with
  | PClosedRead, WSelect => if closeWritePump s then Some (set_wp WExit s) else None
  | PTake t, WSelect => take_from t s
  | PWrote true, WMsg m => Some (set_wp WSelect (add_wire m s))
  | PWrote false, WMsg m => Some (set_wp WExit s)
  | PTick true, WSelect => Some s
  | PTick false, WSelect => Some (set_wp WExit (conn_Close s))
  | PClosed ok, WSelect =>
      if closeConn s then
        Some (if ok : bool then set_wp WLinger (conn_Close s) else set_wp WExit s)
      else None
  | PLingered, WLinger => Some (set_wp WExit s)
  | PDefer, WExit => Some (or_crash (s' ← server_Close s; Ok (set_wp WCallback s')) s)
  | PDefer, WCallback => Some (set_wp WDone (afterWritePump s))
  | _, _ => None
  end.

Definition client_writePump (e : pump_event) (s : tr) : option tr :=
  match e, wp s with
  | PClosedRead, WSelect => if closeWritePump s then Some (set_wp WExit s) else None
  | PTake t, WSelect => take_from t s
  | PWrote true, WMsg m => Some (set_wp WSelect (add_wire m s))
  | PWrote false, WMsg m => Some (set_wp WExit (conn_Close s))
  | PTick true, WSelect => Some s
  | PTick false, WSelect => Some (set_wp WExit (conn_Close s))
  | PClosed ok, WSelect =>
      if closeConn s then
        Some (if ok : bool then set_wp WLinger (conn_Close s) else set_wp WExit s)
      else None
  | PLingered, WLinger => Some (set_wp WExit s)
  | PDefer, WExit => Some (wg_Done (set_wp WDone (afterWritePump s)))
  | _, _ => None
  end.

(** ** The transition system of a side *)
Inductive action :=
  | Write (t : nat) (msg : bytes)
  | CtxDone (t : nat)
  | WriteFail (t : nat) (b : write_branch)
  | Close (c : nat)
  | CloseReturn (c : nat)
  | ReadEvent (e : read_event)
  | Receive                        (* a receive from [Read()] *)
  | PumpEvent (e : pump_event).

Definition exec (sd : side) (a : action) (s : tr) : option tr :=
  match a with
  | Write t msg =>
      if writers s !! t is Some _ then None
      else Some (set_writer t (mkWriter msg false WrWait) s)
  | CtxDone t => w ← writers s !! t; Some (set_writer t (mkWriter (w_msg w) true (w_pc w)) s)
  | WriteFail t b => w ← writers s !! t; Write_branch b t w s
  | Close c =>
      match sd with
      | ServerSide => Some (or_crash (server_Close s) s)
      | ClientSide =>
          if closers s !! c is Some _ then None
          else Some (or_crash (s' ← client_Close s; Ok (set_closer c CWait s')) s)
      end
  | CloseReturn c =>
      match closers s !! c with
      | Some CWait => if decide (wg s = 0) then Some (set_closer c CReturned s) else None
      | _ => None
      end
  | ReadEvent e =>
      match sd with ServerSide => server_readPump e s | ClientSide => client_readPump e s end
  | Receive =>
      match rp s with
      | RSend m => Some (set_rp RRead (add_delivered m s))
      | _ => None
      end
  | PumpEvent e =>
      match sd with ServerSide => server_writePump e s | ClientSide => client_writePump e s end
  end.

(** Split a step into its cases. *)
Ltac tr_step He :=
  simpl in He;
  unfold server_readPump, client_readPump, server_writePump, client_writePump, take_from,
    Write_branch, server_Close, client_Close, close_chan in He;
  repeat first
    [ done
    | apply bind_Some in He as (?&?&He)
    | progress simplify_eq/=
    | match type of He with context [match ?x with _ => _ end] => destruct x eqn:? end ];
  repeat (match goal with |- context [if ?x then _ else _] =>
      lazymatch type of x with bool => destruct x eqn:? end end; simpl).

(** ** The control invariant *)

Definition read_running (pc : read_pc) : bool := match pc with RExited => false | _ => true end.
Definition write_running (pc : write_pc) : bool := match pc with WDone => false | _ => true end.

Record ctl (sd : side) (s : tr) : Prop := mkCtl {
  ctl_read : closeWritePump s = negb (read_running (rp s));
  ctl_after : afters s = if write_running (wp s) then 0 else 1;
  ctl_closing : sd = ServerSide → closing s = closeConn s;
  ctl_callback : wp s = WCallback → sd = ServerSide ∧ closeConn s = true;
  ctl_done : sd = ServerSide → wp s = WDone → closeConn s = true;
  ctl_linger : wp s = WLinger → closeConn s = true;
  ctl_crash : sd = ServerSide ∨ closeConn s = false → crash s = None;
  ctl_wg : sd = ClientSide → wg s = Nat.b2n (read_running (rp s)) + Nat.b2n (write_running (wp s));
}.

Lemma init_ctl sd : ctl sd init.
Proof. split; simpl; intros; try done. Qed.

Lemma ctl_writer sd t w s : ctl sd s → ctl sd (set_writer t w s).
Proof. by intros []. Qed.

Lemma ctl_closer sd c pc s : ctl sd s → ctl sd (set_closer c pc s).
Proof. by intros []. Qed.

Lemma Write_branch_inv b t w s s' :
  Write_branch b t w s = Some s' →
  w_pc w = WrWait ∧ ∃ e, s' = set_writer t (mkWriter (w_msg w) (w_ctx w) (WrErr e)) s.
Proof. unfold Write_branch. intros Hb. break_in Hb; eauto. Qed.

Lemma take_from_inv t s s' :
  take_from t s = Some s' →
  ∃ w, writers s !! t = Some w ∧ w_pc w = WrWait ∧
    s' = set_wp (WMsg (w_msg w)) (set_writer t (mkWriter (w_msg w) (w_ctx w) WrOk) (add_taken t s)).
Proof.
  unfold take_from. destruct (writers s !! t) as [w|]; simpl; [|done].
  destruct (w_pc w) eqn:Hpc; intros; simplify_eq. eauto.
Qed.

Ltac solve_ctl :=
  match goal with H : ctl _ _ |- _ => destruct H end;
  try match goal with E : rp _ = _ |- _ => rewrite E in * end;
  try match goal with E : wp _ = _ |- _ => rewrite E in * end;
  split; simpl in *; intros; simplify_eq/=; try done; try congruence;
  try match goal with E : rp ?s = _ |- context [rp ?s] => rewrite E; simpl end;
  try match goal with E : wp ?s = _ |- context [wp ?s] => rewrite E; simpl end;
  try (intuition (congruence || lia)).

Lemma readPump_ctl sd e s s' :
  ctl sd s →
  match sd with ServerSide => server_readPump e s | ClientSide => client_readPump e s end = Some s' →
  ctl sd s'.
Proof.
  intros Hi He. pose proof (ctl_read _ _ Hi) as Hcw.
  destruct sd, e; simpl in He; destruct (rp s) eqn:Hrp; try done;
    simpl in Hcw; try (rewrite Hcw in He; simpl in He); break_in He; solve_ctl.
Qed.

Lemma server_Close_ok s :
  ctl ServerSide s → ∃ s', server_Close s = Ok s' ∧ ctl ServerSide s' ∧ closeConn s' = true ∧
    wp s' = wp s ∧ rp s' = rp s ∧ afters s' = afters s.
Proof.
  intros Hi. unfold server_Close. pose proof (ctl_closing _ _ Hi eq_refl) as Hc.
  destruct (closing s) eqn:Hcl.
  - exists s. by split_and!.
  - rewrite <- Hc. simpl. eexists. split_and!; [done|solve_ctl|done..].
Qed.

Lemma client_Close_ctl s : ctl ClientSide s → ctl ClientSide (or_crash (client_Close s) s).
Proof.
  intros Hi. unfold client_Close. destruct (closeConn s) eqn:Hc; simpl; solve_ctl.
Qed.

Lemma writePump_ctl sd e s s' :
  ctl sd s →
  match sd with ServerSide => server_writePump e s | ClientSide => client_writePump e s end = Some s' →
  ctl sd s'.
Proof.
  intros Hi He. destruct sd.
  - unfold client_writePump in He. destruct e; destruct (wp s) eqn:Hwp; try done;
      first [apply take_from_inv in He as (w&_&_&->)|break_in He]; solve_ctl.
  - destruct (server_Close_ok s Hi) as (s1&Hs1&Hi1&Hc1&Hw1&Hr1&Ha1).
    unfold server_writePump in He. destruct e; destruct (wp s) eqn:Hwp; try done;
      try (rewrite Hs1 in He); first [apply take_from_inv in He as (w&_&_&->)|break_in He];
      try (clear Hs1 Hi1 Hw1 Hr1; solve_ctl; fail).
    clear Hi Hs1. solve_ctl.
Qed.

Lemma exec_ctl sd a s s' : ctl sd s → exec sd a s = Some s' → ctl sd s'.
Proof.
  intros Hi He. destruct a; simpl in He.
  - destruct (writers s !! t); simplify_eq. by apply ctl_writer.
  - destruct (writers s !! t); simplify_eq/=. by apply ctl_writer.
  - destruct (writers s !! t) as [w|]; [|done]. simpl in He.
    apply Write_branch_inv in He as (_&e&->). by apply ctl_writer.
  - destruct sd.
    + destruct (closers s !! c) eqn:Hc; simplify_eq.
      pose proof (client_Close_ctl s Hi) as Hcl.
      destruct (client_Close s); simpl in *; [by apply ctl_closer|done..].
    + destruct (server_Close_ok s Hi) as (s1&Hs1&?&_). rewrite Hs1 in He. by simplify_eq/=.
  - destruct (closers s !! c) as [[]|]; try done. case_decide; simplify_eq. by apply ctl_closer.
  - by eapply readPump_ctl.
  - destruct (rp s) eqn:Hrp; simplify_eq. solve_ctl; rewrite ?Hrp in *; done.
  - by eapply writePump_ctl.
Qed.

Lemma transport_reachable_ctl sd s : reachable (exec sd) init s → ctl sd s.
Proof.
  apply reachable_invariant; [apply init_ctl|]. intros a s1 s2. apply exec_ctl.
Qed.

(** ** The flow of messages *)

(** The messages taken from writers, in order. *)
Definition msgs (s : tr) : list bytes :=
  (λ t, default [] (w_msg <$> writers s !! t)) <$> taken s.

Definition in_hand (pc : write_pc) : list bytes := match pc with WMsg m => [m] | _ => [] end.
Definition in_reader (pc : read_pc) : list bytes := match pc with RSend m => [m] | _ => [] end.
Definition stopped (pc : write_pc) : bool :=
  match pc with WExit | WCallback | WDone => true | _ => false end.

Record flow (s : tr) : Prop := mkFlow {
  fl_taken t : t ∈ taken s ↔ ∃ w, writers s !! t = Some w ∧ w_pc w = WrOk;
  fl_nodup : NoDup (taken s);
  fl_wire : ∃ lost, msgs s = wire s ++ in_hand (wp s) ++ lost ∧ length lost ≤ 1 ∧
    (lost ≠ [] → stopped (wp s) = true);
  fl_read : recvd s = delivered s ++ in_reader (rp s);
}.

Lemma init_flow : flow init.
Proof.
  split; simpl; [|apply NoDup_nil_2|by exists []; split_and!; [|simpl; lia|]|done]. intros t. split; [set_solver|].
  intros (w&Hw&_). by rewrite lookup_empty in Hw.
Qed.

(** Steps that touch neither the writers nor the messages. *)
Lemma flow_same s s' :
  writers s' = writers s → taken s' = taken s → wire s' = wire s → recvd s' = recvd s →
  delivered s' = delivered s → in_hand (wp s') = in_hand (wp s) →
  (stopped (wp s) = true → stopped (wp s') = true) →
  in_reader (rp s') = in_reader (rp s) → flow s → flow s'.
Proof.
  intros Hw Ht Hwi Hr Hd Hih Hst Hrd [Hta Hnd (lost&Hm&Hle&Hs) Hre].
  split; unfold msgs in *; rewrite ?Hw, ?Ht, ?Hwi, ?Hr, ?Hd, ?Hih, ?Hrd; try done.
  exists lost. split_and!; auto.
Qed.

(** A writer that is new, or keeps its message and whether it was taken. *)
Lemma flow_writer t w s :
  flow s →
  match writers s !! t with
  | Some w0 => w_msg w = w_msg w0 ∧ (w_pc w = WrOk ↔ w_pc w0 = WrOk)
  | None => w_pc w = WrWait
  end → flow (set_writer t w s).
Proof.
  intros [Hta Hnd (lost&Hm&Hle&Hs) Hre] Hw. split; simpl; try done.
  - intros t'. rewrite Hta. destruct (decide (t = t')) as [<-|Hne].
    + rewrite lookup_insert_eq. destruct (writers s !! t) as [w1|].
      * destruct Hw as [_ Hw]. split; intros (w0&[= <-]&?); eexists; split; try done; by apply Hw.
      * split; intros (w0&?&?); simplify_eq. congruence.
    + by rewrite lookup_insert_ne.
  - exists lost. split_and!; [|done..]. rewrite <- Hm. unfold msgs. simpl.
    apply list_fmap_ext. intros i t' Ht'. destruct (decide (t = t')) as [<-|Hne].
    + rewrite lookup_insert_eq. apply list_elem_of_lookup_2, Hta in Ht' as (w0&Hw0&_).
      rewrite Hw0 in *. destruct Hw as [Hw _]. simpl. by rewrite Hw.
    + by rewrite lookup_insert_ne.
Qed.

Lemma flow_take t s s' : wp s = WSelect → flow s → take_from t s = Some s' → flow s'.
Proof.
  intros Hwp [Hta Hnd (lost&Hm&Hle&Hs) Hre] (w&Hw&Hpc&->)%take_from_inv.
  assert (t ∉ taken s) as Hn by (intros (w0&?&?)%Hta; congruence).
  assert (lost = []) as ->.
  { rewrite Hwp in Hs. destruct lost; [done|]. by specialize (Hs ltac:(done)). }
  split; simpl.
  - intros t'. rewrite elem_of_app, list_elem_of_singleton, Hta.
    destruct (decide (t = t')) as [<-|Hne].
    + rewrite lookup_insert_eq. naive_solver.
    + rewrite lookup_insert_ne by done. naive_solver.
  - apply NoDup_app. split_and!; [done| |apply NoDup_singleton].
    intros t' Ht' ->%list_elem_of_singleton. done.
  - exists []. split_and!; [|lia|done]. unfold msgs in *. simpl in *.
    rewrite fmap_app. simpl. rewrite lookup_insert_eq. simpl.
    rewrite app_nil_r in Hm. rewrite Hwp in Hm. simpl in Hm. rewrite app_nil_r in Hm.
    rewrite <- Hm. f_equal. apply list_fmap_ext. intros i t' Ht'.
    rewrite lookup_insert_ne; [done|]. intros ->. by apply list_elem_of_lookup_2 in Ht'.
  - done.
Qed.

Lemma writePump_flow sd e s s' :
  flow s →
  match sd with ServerSide => server_writePump e s | ClientSide => client_writePump e s end = Some s' →
  flow s'.
Proof.
  intros Hi He. destruct e.
  2: { destruct sd; simpl in He; destruct (wp s) eqn:Hwp; try done; by eapply flow_take. }
  2: { destruct sd, ok; simpl in He; destruct (wp s) eqn:Hwp; try done; simplify_eq;
       destruct Hi as [Hta Hnd (lost&Hm&Hle&Hs) Hre]; rewrite Hwp in *; simpl in *;
       (assert (lost = []) as -> by (destruct lost; [done|]; by specialize (Hs ltac:(done))));
       split; simpl; try done;
       first [exists []; unfold msgs in *; simpl in *; split_and!; [by rewrite Hm, <- !app_assoc|lia|done]
             |exists [m]; unfold msgs in *; simpl in *; split_and!; [done|lia|done]]. }
  all: destruct sd; simpl in He; destruct (wp s) eqn:Hwp; try done;
    unfold server_Close, close_chan in He; break_in He; try done;
    try (destruct (closeConn s)); (apply (flow_same s); simpl; rewrite ?Hwp; done).
Qed.

Lemma readPump_flow sd e s s' :
  flow s →
  match sd with ServerSide => server_readPump e s | ClientSide => client_readPump e s end = Some s' →
  flow s'.
Proof.
  intros Hi He. destruct sd, e; simpl in He; destruct (rp s) eqn:Hrp; try done.
  1,3: simplify_eq; destruct Hi as [Hta Hnd Hwi Hre];
    rewrite Hrp in Hre; simpl in Hre; rewrite app_nil_r in Hre;
    split; simpl; try done; by rewrite Hre.
  all: unfold close_chan in He; destruct (closeWritePump s); simplify_eq/=;
    (apply (flow_same s); simpl; rewrite ?Hrp; done).
Qed.

Lemma exec_flow sd a s s' : flow s → exec sd a s = Some s' → flow s'.
Proof.
  intros Hi He. destruct a; simpl in He.
  - destruct (writers s !! t) eqn:Hw; simplify_eq. apply flow_writer; [done|]. by rewrite Hw.
  - destruct (writers s !! t) eqn:Hw; simplify_eq/=. apply flow_writer; [done|]. by rewrite Hw.
  - destruct (writers s !! t) as [w|] eqn:Hw; [|done]. simpl in He.
    apply Write_branch_inv in He as (Hpc&e&->). apply flow_writer; [done|]. rewrite Hw.
    simpl. by rewrite Hpc.
  - unfold client_Close, server_Close, close_chan in He. destruct sd.
    + destruct (closers s !! c), (closeConn s); simplify_eq/=; by apply (flow_same s).
    + destruct (closing s), (closeConn s); simplify_eq/=; try done; by apply (flow_same s).
  - destruct (closers s !! c) as [[]|]; try done. case_decide; simplify_eq. by apply (flow_same s).
  - by eapply readPump_flow.
  - destruct (rp s) eqn:Hrp; simplify_eq. destruct Hi as [Hta Hnd Hwi Hre].
    rewrite Hrp in Hre. split; simpl; try done. by rewrite app_nil_r.
  - by eapply writePump_flow.
Qed.

Lemma transport_reachable_flow sd s : reachable (exec sd) init s → flow s.
Proof.
  apply reachable_invariant; [apply init_flow|]. intros a s1 s2. apply exec_flow.
Qed.

(** ** Progress of the write pump *)

(** The pump's own steps, without taking another message. *)
Definition own_step (a : action) : Prop := ∃ e, a = PumpEvent e ∧ ∀ t, e ≠ PTake t.

(** The write pump of [s] can finish in at most [n] steps of its own. *)
Definition finishes (sd : side) (n : nat) (s : tr) : Prop :=
  ∃ acts s', run (exec sd) acts s = Some s' ∧ wp s' = WDone ∧ rp s' = rp s ∧
    closers s' = closers s ∧ Forall own_step acts ∧ length acts ≤ n.

Lemma finishes_step sd n s e s1 :
  exec sd (PumpEvent e) s = Some s1 → (∀ t, e ≠ PTake t) →
  rp s1 = rp s → closers s1 = closers s → finishes sd n s1 → finishes sd (S n) s.
Proof.
  intros He Hne Hr Hc (acts&s'&Hrun&Hw&Hrp&Hcl&Hf&Hl).
  exists (PumpEvent e :: acts), s'.
  change (run (exec sd) (PumpEvent e :: acts) s) with
    (exec sd (PumpEvent e) s ≫= run (exec sd) acts). rewrite He. simpl.
  split_and!; [done|done|congruence|congruence| |lia].
  constructor; [|done]. by exists e.
Qed.

Lemma finishes_exit sd s : ctl sd s → wp s = WExit → finishes sd 2 s.
Proof.
  intros Hi Hwp. destruct sd.
  - eapply (finishes_step _ _ _ PDefer); [simpl; by rewrite Hwp|done..|].
    exists [], (wg_Done (set_wp WDone (afterWritePump s))). split_and!; simpl; try done; lia.
  - destruct (server_Close_ok s Hi) as (s1&Hs1&Hi1&_).
    assert (rp s1 = rp s ∧ closers s1 = closers s) as [Hr1 Hc1].
    { unfold server_Close, close_chan in Hs1.
      by destruct (closing s), (closeConn s); simplify_eq/=. }
    eapply (finishes_step _ _ _ PDefer);
      [simpl; rewrite Hwp, Hs1; simpl; reflexivity|done|done|done|].
    eapply (finishes_step _ _ _ PDefer); [simpl; reflexivity|done|done|done|].
    eexists [], _. split_and!; simpl; try done; lia.
Qed.

Lemma finishes_linger sd s : ctl sd s → wp s = WLinger → finishes sd 3 s.
Proof.
  intros Hi Hwp. assert (exec sd (PumpEvent PLingered) s = Some (set_wp WExit s)) as He.
  { destruct sd; simpl; by rewrite Hwp. }
  eapply (finishes_step _ _ _ PLingered); [done..|].
  apply finishes_exit; [|done]. by eapply exec_ctl.
Qed.

Lemma finishes_select sd s :
  ctl sd s → closeConn s = true → wp s = WSelect → finishes sd 4 s.
Proof.
  intros Hi Hc Hwp.
  assert (exec sd (PumpEvent (PClosed true)) s = Some (set_wp WLinger (conn_Close s))) as He.
  { destruct sd; simpl; by rewrite Hwp, Hc. }
  eapply (finishes_step _ _ _ (PClosed true)); [done..|].
  apply finishes_linger; [|done]. by eapply exec_ctl.
Qed.

Lemma finishes_mono sd n m s : n ≤ m → finishes sd n s → finishes sd m s.
Proof.
  intros Hnm (acts&s'&?&?&?&?&?&?). exists acts, s'. split_and!; try done. lia.
Qed.

Lemma closing_finishes sd s : ctl sd s → closeConn s = true → finishes sd 5 s.
Proof.
  intros Hi Hc. destruct (wp s) as [|m| | | |] eqn:Hwp.
  - apply (finishes_mono _ 4); [lia|by apply finishes_select].
  - assert (exec sd (PumpEvent (PWrote true)) s = Some (set_wp WSelect (add_wire m s))) as He.
    { destruct sd; simpl; by rewrite Hwp. }
    eapply (finishes_step _ _ _ (PWrote true)); [done..|].
    apply finishes_select; [by eapply exec_ctl|done..].
  - apply (finishes_mono _ 3); [lia|by apply finishes_linger].
  - apply (finishes_mono _ 2); [lia|by apply finishes_exit].
  - destruct (ctl_callback _ _ Hi Hwp) as [-> _].
    apply (finishes_mono _ 1); [lia|].
    eapply (finishes_step _ _ _ PDefer); [simpl; by rewrite Hwp|done..|].
    eexists [], _. split_and!; simpl; try done; lia.
  - exists [], s. split_and!; simpl; try done; lia.
Qed.

(** The client's read pump blocked on a message nobody receives. *)
Definition read_blocked (m : bytes) (c : nat) (s : tr) : Prop :=
  rp s = RSend m ∧ closers s !! c = Some CWait.

Lemma read_blocked_step a m c s s' :
  ctl ClientSide s → a ≠ Receive → read_blocked m c s → exec ClientSide a s = Some s' →
  read_blocked m c s'.
Proof.
  intros Hi Hne [Hrp Hc] He. pose proof (ctl_wg _ _ Hi eq_refl) as Hwg.
  rewrite Hrp in Hwg. simpl in Hwg. destruct a; simpl in He; try done.
  - destruct (writers s !! t); by simplify_eq.
  - destruct (writers s !! t); by simplify_eq/=.
  - destruct (writers s !! t) as [w|]; [|done]. simpl in He.
    by apply Write_branch_inv in He as (_&e&->).
  - destruct (closers s !! c0) eqn:Hc0; simplify_eq. unfold client_Close, close_chan.
    destruct (closeConn s); simpl; [done|]. split; simpl; [done|].
    rewrite lookup_insert_ne; [done|congruence].
  - destruct (closers s !! c0) as [[]|]; try done. rewrite decide_False in He by lia. done.
  - destruct e; simpl in He; by rewrite Hrp in He.
  - destruct e; simpl in He; destruct (wp s); try done;
      first [apply take_from_inv in He as (w&_&_&->)|break_in He]; done.
Qed.

(** ** Theorems *)

(** On either side, what goes out is what was accepted, in order: the messages
    whose [Write] returned nil are, in the order they were taken, those the
    connection accepted, then the one being written, then at most one that the
    connection refused before the pump stopped.  What comes in is delivered in
    order without loss, but for the message waiting to be received. *)
Theorem transport_fifo sd s :
  reachable (exec sd) init s →
  NoDup (taken s) ∧
  (∀ t, t ∈ taken s ↔ ∃ w, writers s !! t = Some w ∧ w_pc w = WrOk) ∧
  (∃ lost, msgs s = wire s ++ in_hand (wp s) ++ lost ∧ length lost ≤ 1 ∧
     (lost ≠ [] → stopped (wp s) = true)) ∧
  recvd s = delivered s ++ in_reader (rp s).
Proof. intros Hi%transport_reachable_flow. split_and!; apply Hi. Qed.

(** The server's transport never panics, however often [Close] is called; it runs
    its callback once, when the write pump is done; and then every waiting [Write]
    can return its error. *)
Theorem server_transport_safe s :
  reachable (exec ServerSide) init s →
  crash s = None ∧ afters s ≤ 1 ∧ (afters s = 1 ↔ wp s = WDone) ∧
  (wp s = WDone → ∀ t w, writers s !! t = Some w → w_pc w = WrWait →
     is_Some (exec ServerSide (WriteFail t OnCloseConn) s)).
Proof.
  intros Hi%transport_reachable_ctl. split_and!.
  - apply (ctl_crash _ _ Hi). by left.
  - rewrite (ctl_after _ _ Hi). destruct (wp s); simpl; lia.
  - rewrite (ctl_after _ _ Hi). by destruct (wp s).
  - intros Hw t w Ht Hpc. simpl. rewrite Ht.
    simpl. unfold Write_branch. by rewrite Hpc, (ctl_done _ _ Hi eq_refl Hw).
Qed.

(** Once a side's transport is closed, its write pump can finish within five
    steps of its own, without its peer, its reader or its writers, and has then
    run [afterWritePump] exactly once. *)
Theorem transport_close_finishes sd s :
  reachable (exec sd) init s → closeConn s = true →
  ∃ acts s', run (exec sd) acts s = Some s' ∧ Forall own_step acts ∧ length acts ≤ 5 ∧
    wp s' = WDone ∧ afters s' = 1.
Proof.
  intros Hr Hc. pose proof (transport_reachable_ctl sd s Hr) as Hi.
  destruct (closing_finishes sd s Hi Hc) as (acts&s'&Hrun&Hw&_&_&Hf&Hl).
  exists acts, s'. split_and!; [done..|].
  assert (ctl sd s') as Hi'.
  { apply transport_reachable_ctl. unfold reachable in *. etrans; [done|].
    by eapply run_reachable. }
  by rewrite (ctl_after _ _ Hi'), Hw.
Qed.

(** The client's [Close] can return when its read pump is not blocked: the pumps
    finish, the read by the failing connection, and the wait is over. *)
Theorem client_close_returns s c :
  reachable (exec ClientSide) init s → closeConn s = true →
  closers s !! c = Some CWait → (∀ m, rp s ≠ RSend m) →
  ∃ acts s', run (exec ClientSide) acts s = Some s' ∧ closers s' !! c = Some CReturned.
Proof.
  intros Hr Hc Hcl Hrp. pose proof (transport_reachable_ctl _ s Hr) as Hi.
  destruct (closing_finishes _ s Hi Hc) as (acts&s1&Hrun&Hw1&Hr1&Hc1&_&_).
  assert (ctl ClientSide s1) as Hi1.
  { apply transport_reachable_ctl. unfold reachable in *. etrans; [done|].
    by eapply run_reachable. }
  pose proof (ctl_wg _ _ Hi1 eq_refl) as Hwg. rewrite Hw1 in Hwg.
  destruct (rp s) as [|m|] eqn:Hrps; [|by destruct (Hrp m)|].
  - exists (acts ++ [ReadEvent ReadErr; CloseReturn c]). rewrite run_app, Hrun. simpl.
    rewrite Hr1. simpl. pose proof (ctl_read _ _ Hi1) as Hcw. rewrite Hr1 in Hcw. simpl in Hcw.
    rewrite Hcw. simpl. rewrite Hc1, Hcl. rewrite Hr1 in Hwg. simpl in Hwg.
    rewrite decide_True by lia. simpl. eexists. split; [done|]. simpl. apply lookup_insert_eq.
  - exists (acts ++ [CloseReturn c]). rewrite run_app, Hrun. simpl. rewrite Hc1, Hcl.
    rewrite Hr1 in Hwg. simpl in Hwg. rewrite decide_True by lia. simpl.
    eexists. split; [done|]. simpl. apply lookup_insert_eq.
Qed.

(** When the client's read pump holds a message that nobody receives, [Close]
    does not return: whatever else happens, it waits until someone does. *)
Theorem client_close_needs_reader s c m acts s' :
  reachable (exec ClientSide) init s → rp s = RSend m → closers s !! c = Some CWait →
  Receive ∉ acts → run (exec ClientSide) acts s = Some s' →
  rp s' = RSend m ∧ closers s' !! c = Some CWait.
Proof.
  intros Hr Hrp Hc Hno Hrun. assert (ctl ClientSide s) as Hi by by apply transport_reachable_ctl.
  assert (read_blocked m c s) as Hb by done. clear Hr Hrp Hc.
  revert s Hi Hb Hrun. induction acts as [|a acts IH]; intros s Hi Hb Hrun; simpl in Hrun.
  { by simplify_eq. }
  apply not_elem_of_cons in Hno as [Hne Hno].
  destruct (exec ClientSide a s) as [s1|] eqn:He; [|done]. simpl in Hrun.
  apply (IH Hno s1); [by eapply exec_ctl| |done]. by eapply read_blocked_step.
Qed.

(** Closing a client's transport twice panics; a server's second [Close] does
    nothing. *)
Theorem second_close s c :
  closeConn s = true →
  (closers s !! c = None →
     exec ClientSide (Close c) s = Some (set_crash CloseOfClosed s)) ∧
  (reachable (exec ServerSide) init s → exec ServerSide (Close c) s = Some s).
Proof.
  intros Hc. split.
  - intros Hn. simpl. rewrite Hn. unfold client_Close. by rewrite Hc.
  - intros Hi%transport_reachable_ctl. simpl. unfold server_Close.
    by rewrite (ctl_closing _ _ Hi eq_refl), Hc.
Qed.

(** When the peer goes away both pumps end, on either side, and the connection
    is not closed: [conn.Close] is for a failed ping and for [Close] only. *)
Theorem conn_left_open sd :
  ∃ s, reachable (exec sd) init s ∧ rp s = RExited ∧ wp s = WDone ∧ afters s = 1 ∧
    conn_closed s = false.
Proof.
  exists (final (exec sd) (ReadEvent ReadErr :: PumpEvent PClosedRead ::
    match sd with ServerSide => [PumpEvent PDefer; PumpEvent PDefer] | ClientSide => [PumpEvent PDefer] end)
    init).
  destruct sd; split_and!; at_state.
Qed.

(** ** Witnesses *)

Definition w_m1 : bytes := [x01].
Definition w_m2 : bytes := [x02].
Definition w_flow : list action :=
  [Write 1 w_m1; Write 2 w_m2; PumpEvent (PTake 2); PumpEvent (PWrote true);
   PumpEvent (PTake 1); ReadEvent (ReadMsg w_m1); Receive; PumpEvent (PWrote false)].
Definition w_flow_state := final (exec ServerSide) w_flow init.
Definition w_dead_state :=
  final (exec ServerSide) (w_flow ++ [Write 3 w_m1; PumpEvent PDefer; PumpEvent PDefer; Close 1]) init.
Definition w_closed_state := final (exec ServerSide) [Write 1 w_m1; Close 1] init.
Definition w_client_closed := final (exec ClientSide) [Close 1] init.
Definition w_blocked_state := final (exec ClientSide) [ReadEvent (ReadMsg w_m1); Close 1] init.
Definition w_blocked_acts : list action :=
  [PumpEvent (PClosed true); PumpEvent PLingered; PumpEvent PDefer].

Lemma transport_fifo_witness :
  ∃ lost, [w_m2; w_m1] = [w_m2] ++ lost ∧ length lost ≤ 1.
Proof.
  destruct (transport_fifo ServerSide w_flow_state) as (_&_&(lost&Hm&Hl&_)&_); [at_state|].
  exists lost. split; [exact Hm|exact Hl].
Defined.

Lemma server_transport_safe_witness :
  crash w_dead_state = None ∧ afters w_dead_state = 1 ∧
  is_Some (exec ServerSide (WriteFail 3 OnCloseConn) w_dead_state).
Proof.
  destruct (server_transport_safe w_dead_state) as (Hc&_&Ha&Hw); [at_state|].
  split_and!; [exact Hc|apply Ha; at_state|].
  apply (Hw ltac:(at_state) 3 (mkWriter w_m1 false WrWait)); at_state.
Defined.

Lemma transport_close_finishes_witness :
  ∃ acts s', run (exec ServerSide) acts w_closed_state = Some s' ∧ afters s' = 1.
Proof.
  destruct (transport_close_finishes ServerSide w_closed_state) as (acts&s'&Hr&_&_&_&Ha);
    [at_state..|]. exists acts, s'. split; assumption.
Defined.

Lemma client_close_returns_witness :
  ∃ acts s', run (exec ClientSide) acts w_client_closed = Some s' ∧
    closers s' !! 1 = Some CReturned.
Proof.
  apply (client_close_returns w_client_closed 1); [at_state..|discriminate].
Defined.

Lemma client_close_needs_reader_witness :
  ∃ s', run (exec ClientSide) w_blocked_acts w_blocked_state = Some s' ∧
    closers s' !! 1 = Some CWait.
Proof.
  eexists. split; [vm_compute; reflexivity|].
  apply (client_close_needs_reader w_blocked_state 1 w_m1 w_blocked_acts);
    [at_state|at_state|at_state| |vm_compute; reflexivity].
  unfold w_blocked_acts. intros Hin.
  repeat (apply elem_of_cons in Hin as [Hin|Hin]; [discriminate Hin|]).
  by apply not_elem_of_nil in Hin.
Defined.

Lemma second_close_witness :
  exec ClientSide (Close 2) w_client_closed = Some (set_crash CloseOfClosed w_client_closed) ∧
  exec ServerSide (Close 2) w_closed_state = Some w_closed_state.
Proof.
  split.
  - apply (second_close w_client_closed 2); at_state.
  - apply (second_close w_closed_state 2); at_state.
Defined.
End Transport.
