(* ===== verification/StateManager.v ===== *)
(** [connectivityStateManager] of [client.go] and the functions that wait on
    it: [WaitForStateChange], [WaitForReady] and the blocking loop of
    [DialWithContext].

    Each method of the manager is one critical section of [csm.mu].  The
    goroutines that wait step between those critical sections, so that a change
    may fall anywhere between them. *)
From S2P Require Import Prelude Connectivity.

Module StateManager.
Import Connectivity.

(** Notification channels are numbered; [closed] holds the closed ones. *)
Record csm := mkCsm {
  state : State;
  notifyChan : option nat;
  closed : gset nat;
  next_chan : nat;
}.

(** The zero value. *)
Definition new_csm : csm := mkCsm Idle None ∅ 0.

Definition updateState (st : State) (m : csm) : outcome csm :=
  if decide (state m = st) then Ok m
  else
    match notifyChan m with
    | None => Ok (mkCsm st None (closed m) (next_chan m))
    | Some ch =>
        _ ← close_chan (bool_decide (ch ∈ closed m));
        Ok (mkCsm st None ({[ch]} ∪ closed m) (next_chan m))
    end.

Definition getState (m : csm) : State := state m.

Definition getNotifyChan (m : csm) : nat * csm :=
  match notifyChan m with
  | Some ch => (ch, m)
  | None => (next_chan m, mkCsm (state m) (Some (next_chan m)) (closed m) (S (next_chan m)))
  end.

(** ** The waiting functions *)

Inductive wait_kind :=
  | ForReady                  (* [WaitForReady] *)
  | ForChange (src : State)   (* [WaitForStateChange(ctx, src)] *)
  | ForDial.                  (* the loop of [DialWithContext] *)

Inductive wait_pc :=
  | WState                        (* dial loop: about to read the state *)
  | WGet (src : State)            (* about to get the channel *)
  | WRead (src : State) (ch : nat) (* about to read the state again *)
  | WBlock (src : State) (ch : nat) (* in the [select] *)
  | WReturned (b : bool).

Record waiter := mkWaiter { w_kind : wait_kind; w_ctx : bool; w_pc : wait_pc }.

Record sys := mkSys { mgr : csm; waiters : gmap nat waiter; crash : option panic }.

Definition init : sys := mkSys new_csm ∅ None.

Inductive action :=
  | Update (st : State)
  | Wait (t : nat) (k : wait_kind)
  | CtxDone (t : nat)
  | WaiterStep (t : nat)      (* one call of the manager, or the woken channel *)
  | WaiterCancel (t : nat).   (* [<-ctx.Done()] *)

Definition set_waiter (t : nat) (w : waiter) (s : sys) : sys :=
  mkSys (mgr s) (<[t := w]> (waiters s)) (crash s).

(** Where a waiter starts, and where it goes when its channel is closed.
    [WaitForReady] compares with no particular state. *)
Definition start_pc (k : wait_kind) : wait_pc :=
  match k with ForReady => WGet Idle | ForChange src => WGet src | ForDial => WState end.

Definition WaitForReady (st : State) (ch : nat) : wait_pc :=
  match st with
  | Ready => WReturned true
  | Shutdown => WReturned false
  | _ => WBlock st ch
  end.

Definition WaitForStateChange (src st : State) (ch : nat) (returns : bool → wait_pc) : wait_pc :=
  if decide (st = src) then WBlock src ch else returns true.

(** The loop of [DialWithContext] around [WaitForStateChange]. *)
Definition dial_after (changed : bool) : wait_pc :=
  if changed then WState else WReturned false.

Definition waiter_step (w : waiter) (m : csm) : option (wait_pc * csm) :=
  match w_pc w with
  | WState => Some (if decide (getState m = Ready) then WReturned true else WGet (getState m), m)
  | WGet src => let '(ch, m') := getNotifyChan m in Some (WRead src ch, m')
  | WRead src ch => Some
      (match w_kind w with
       | ForReady => WaitForReady (getState m) ch
       | ForChange _ => WaitForStateChange src (getState m) ch WReturned
       | ForDial => WaitForStateChange src (getState m) ch dial_after
       end, m)
  | WBlock src ch =>
      if bool_decide (ch ∈ closed m) then Some
        (match w_kind w with
         | ForReady => WGet Idle
         | ForChange _ => WReturned true
         | ForDial => dial_after true
         end, m)
      else None
  | WReturned _ => None
  end.

Definition exec (a : action) (s : sys) : option sys :=
  match a with
  | Update st => Some
      (match updateState st (mgr s) with
       | Ok m => mkSys m (waiters s) (crash s)
       | Err _ => s
       | Panic p => mkSys (mgr s) (waiters s) (Some p)
       end)
  | Wait t k =>
      if waiters s !! t is Some _ then None
      else Some (set_waiter t (mkWaiter k false (start_pc k)) s)
  | CtxDone t => w ← waiters s !! t; Some (set_waiter t (mkWaiter (w_kind w) true (w_pc w)) s)
  | WaiterStep t =>
      w ← waiters s !! t;
      '(pc, m) ← waiter_step w (mgr s);
      Some (mkSys m (<[t := mkWaiter (w_kind w) (w_ctx w) pc]> (waiters s)) (crash s))
  | WaiterCancel t =>
      w ← waiters s !! t;
      match w_pc w with
      | WBlock _ _ =>
          if w_ctx w then Some (set_waiter t (mkWaiter (w_kind w) (w_ctx w) (WReturned false)) s)
          else None
      | _ => None
      end
  end.

(** ** The manager *)

Record ok (m : csm) : Prop := mkOk {
  ok_notify ch : notifyChan m = Some ch → ch ∉ closed m ∧ ch < next_chan m;
  ok_closed ch : ch ∈ closed m → ch < next_chan m;
}.

(** A channel that was handed out and is still open is the current one. *)
Definition handed (ch : nat) (m : csm) : Prop := ch ∈ closed m ∨ notifyChan m = Some ch.

Lemma new_csm_ok : ok new_csm.
Proof. split; simpl; [done|set_solver]. Qed.

Lemma updateState_ok st m : ok m →
  ∃ m', updateState st m = Ok m' ∧ ok m' ∧ state m' = st ∧
    (∀ ch, handed ch m → handed ch m') ∧
    (∀ ch, handed ch m → state m ≠ st → ch ∈ closed m') ∧
    (state m = st → m' = m).
Proof.
  intros Hok. pose proof Hok as [Hn Hc]. unfold updateState, handed.
  case_decide as Hst; [by exists m|].
  destruct (notifyChan m) as [ch|] eqn:Hch.
  - destruct (Hn ch) as [Hout Hlt]; [done|]. rewrite bool_decide_false by done. simpl.
    eexists. split; [done|]. split_and!; simpl; [split; simpl; [done|set_solver]|done|..|done];
      intros ch' Hor; naive_solver set_solver.
  - eexists. split; [done|]. split_and!; simpl; [by split|done|..|done]; naive_solver.
Qed.

Lemma csm_getNotifyChan_ok m : ok m →
  ok (getNotifyChan m).2 ∧ handed (getNotifyChan m).1 (getNotifyChan m).2 ∧
  state (getNotifyChan m).2 = state m ∧ closed (getNotifyChan m).2 = closed m ∧
  (∀ ch, handed ch m → handed ch (getNotifyChan m).2).
Proof.
  intros Hok. pose proof Hok as [Hn Hc]. unfold getNotifyChan, handed.
  destruct (notifyChan m) as [ch|] eqn:Hch; simpl.
  - split_and!; try done; rewrite ?Hch; eauto.
  - split_and!; try done; [|by right|].
    + split; simpl; [|intros ch ?%Hc; lia]. intros ch [= <-].
      split; [intros ?%Hc; lia|lia].
    + intros ch [?|?]; [by left|done].
Qed.

(** ** The invariant *)

(** A waiter in the [select] on an open channel saw the present state. *)
Definition waiter_ok (w : waiter) (m : csm) : Prop :=
  match w_pc w with
  | WRead _ ch => handed ch m
  | WBlock src ch => handed ch m ∧ (ch ∉ closed m → state m = src) ∧
      match w_kind w with
      | ForReady => src ≠ Ready ∧ src ≠ Shutdown
      | ForChange src' => src = src'
      | ForDial => src ≠ Ready
      end
  | _ => True
  end.

(** What the dial loop compares with is never Ready, and [WaitForStateChange]
    keeps its argument; only the dial loop reads the state first. *)
Definition waiter_src (w : waiter) : Prop :=
  match w_kind w, w_pc w with
  | ForDial, (WGet src | WRead src _) => src ≠ Ready
  | ForChange src', (WGet src | WRead src _) => src = src'
  | (ForChange _ | ForReady), WState => False
  | _, _ => True
  end.

Record inv (s : sys) : Prop := mkInv {
  iv_mgr : ok (mgr s);
  iv_waiter t w : waiters s !! t = Some w → waiter_ok w (mgr s) ∧ waiter_src w;
  iv_crash : crash s = None;
}.

Ltac lookups :=
  repeat match goal with
  | H : <[_ := _]> _ !! _ = Some _ |- _ =>
      apply lookup_insert_Some in H as [[? ?]|[? H]]; simplify_eq/=
  end.

(** The other waiters while the manager moves on. *)
Lemma waiter_ok_mono w m m' :
  (∀ ch, handed ch m → handed ch m') →
  (∀ ch, handed ch m → ch ∉ closed m' → ch ∉ closed m ∧ state m' = state m) →
  waiter_ok w m → waiter_ok w m'.
Proof.
  intros Hh Hc. unfold waiter_ok. destruct (w_pc w); try done; [auto|].
  intros (Hin&Hst&Hk). split_and!; [auto| |done].
  intros Hn. destruct (Hc _ Hin Hn) as [Hn' ->]. auto.
Qed.

Lemma set_waiter_inv t w s :
  inv s → waiter_ok w (mgr s) → waiter_src w → inv (set_waiter t w s).
Proof.
  intros [Hm Hw Hc] Hok Hsrc. split; simpl; try done. intros t' w' H'. lookups; eauto.
Qed.

Lemma update_inv st s : inv s → ∃ m, updateState st (mgr s) = Ok m ∧
  inv (mkSys m (waiters s) (crash s)).
Proof.
  intros [Hm Hw Hc]. destruct (updateState_ok st (mgr s) Hm) as (m&Hu&Hok&Hst&Hh&Hcl&Hsame).
  exists m. split; [done|]. split; simpl; [done| |done].
  intros t w Ht. destruct (Hw t w Ht) as [Hwo ?]. split; [|done].
  eapply waiter_ok_mono; [done| |done]. intros ch Hin Hn.
  destruct (decide (state (mgr s) = st)) as [Heq|Hne].
  - by rewrite (Hsame Heq) in *.
  - by destruct (Hn (Hcl ch Hin Hne)).
Qed.

Lemma waiter_step_inv t w pc m s :
  inv s → waiters s !! t = Some w → waiter_step w (mgr s) = Some (pc, m) →
  inv (mkSys m (<[t := mkWaiter (w_kind w) (w_ctx w) pc]> (waiters s)) (crash s)).
Proof.
  intros Hi Ht He. pose proof (iv_waiter _ Hi t w Ht) as [Hok Hsrc].
  destruct (csm_getNotifyChan_ok (mgr s) (iv_mgr _ Hi)) as (Hgok&Hgh&Hgs&Hgc&Hgm).
  assert (∀ pc', waiter_ok (mkWaiter (w_kind w) (w_ctx w) pc') (mgr s) →
    waiter_src (mkWaiter (w_kind w) (w_ctx w) pc') →
    inv (mkSys (mgr s) (<[t := mkWaiter (w_kind w) (w_ctx w) pc']> (waiters s)) (crash s))) as Hset.
  { intros pc' Ha Hb. by apply (set_waiter_inv t _ s). }
  unfold waiter_step, getState, WaitForStateChange in He. unfold waiter_ok, waiter_src in Hok, Hsrc.
  destruct (w_pc w) as [|src|src ch|src ch|b] eqn:Hpc; simplify_eq.
  - destruct (w_kind w) eqn:Hk; try done.
    apply Hset; unfold waiter_ok, waiter_src; simpl; by case_decide.
  - destruct (getNotifyChan (mgr s)) as [ch m'] eqn:Hg. simplify_eq/=. split; simpl.
    + done.
    + intros t' w' H'. lookups; [split; [done|by unfold waiter_src; simpl]|].
      destruct (iv_waiter _ Hi t' w' H') as [? ?]. split; [|done].
      eapply waiter_ok_mono; [done| |done]. intros ch' _. rewrite Hgc, Hgs. done.
    + by apply Hi.
  - apply Hset; unfold waiter_ok, waiter_src; simpl.
    + destruct (w_kind w); simpl.
      * unfold WaitForReady. by destruct (state (mgr s)).
      * case_decide; simpl; naive_solver.
      * case_decide; simpl; naive_solver.
    + destruct (w_kind w); simpl; unfold WaitForReady; repeat case_match; done.
  - destruct (bool_decide (ch ∈ closed (mgr s))); simplify_eq.
    apply Hset; unfold waiter_ok, waiter_src; simpl; by destruct (w_kind w).
Qed.

Lemma statemanager_exec_inv a s s' : inv s → exec a s = Some s' → inv s'.
Proof.
  intros Hi He. destruct a; simpl in He.
  - destruct (update_inv st s Hi) as (m&Hu&?). rewrite Hu in He. by simplify_eq.
  - destruct (waiters s !! t); simplify_eq. apply set_waiter_inv; [done|by destruct k..].
  - destruct (waiters s !! t) as [w|] eqn:Ht; simplify_eq/=.
    destruct (iv_waiter _ Hi t w Ht). by apply set_waiter_inv.
  - destruct (waiters s !! t) as [w|] eqn:Ht; [simpl in He|done].
    destruct (waiter_step w (mgr s)) as [[pc m]|] eqn:Hs; simplify_eq/=.
    by apply waiter_step_inv.
  - destruct (waiters s !! t) as [w|] eqn:Ht; [simpl in He|done].
    destruct (w_pc w); try done. destruct (w_ctx w); simplify_eq.
    apply set_waiter_inv; [done| |]; unfold waiter_src; simpl; [done|by destruct (w_kind w)].
Qed.

Lemma statemanager_reachable_inv s : reachable exec init s → inv s.
Proof.
  apply reachable_invariant; [|intros a s1 s2; apply statemanager_exec_inv].
  split; [apply new_csm_ok|done|done].
Qed.

(** ** Theorems *)

(** C31: No wakeup is lost, wherever the changes fall.  The manager never closes a channel
    twice: no change so far has, and none that may come now will.  A waiter blocked on an
    open channel has seen the present state, so a blocked [WaitForReady] means the
    connection is neither ready nor shut down, a blocked [WaitForStateChange] that the
    state is still the given one, and a blocked dial that it is not ready.  And a change
    closes the channel of everyone who is blocked. *)
Theorem waiters_miss_nothing s :
  reachable exec init s →
  crash s = None ∧
  (∀ st, ∃ m, updateState st (mgr s) = Ok m ∧ getState m = st ∧
     (getState (mgr s) ≠ st → ∀ t w src ch, waiters s !! t = Some w → w_pc w = WBlock src ch → ch ∈ closed m)) ∧
  ∀ t w src ch, waiters s !! t = Some w → w_pc w = WBlock src ch → ch ∉ closed (mgr s) →
    match w_kind w with
    | ForReady => getState (mgr s) ≠ Ready ∧ getState (mgr s) ≠ Shutdown
    | ForChange src' => getState (mgr s) = src'
    | ForDial => getState (mgr s) ≠ Ready
    end.
Proof.
  intros Hi%statemanager_reachable_inv. split_and!; [apply Hi| |].
  - intros st. destruct (updateState_ok st _ (iv_mgr _ Hi)) as (m&Hu&_&Hst&_&Hcl&_).
    exists m. split_and!; [done..|]. intros Hne t w src ch Ht Hpc.
    destruct (iv_waiter _ Hi t w Ht) as [Hok _]. unfold waiter_ok in Hok. rewrite Hpc in Hok.
    apply Hcl; [apply Hok|done].
  - intros t w src ch Ht Hpc Hn.
    destruct (iv_waiter _ Hi t w Ht) as [Hok _]. unfold waiter_ok in Hok. rewrite Hpc in Hok.
    destruct Hok as (_&Hst&Hk). unfold getState. rewrite (Hst Hn). by destruct (w_kind w).
Qed.

(** One step of a waiter, as the system makes it. *)
Lemma waiter_exec t w pc m s :
  waiters s !! t = Some w → waiter_step w (mgr s) = Some (pc, m) →
  exec (WaiterStep t) s =
    Some (mkSys m (<[t := mkWaiter (w_kind w) (w_ctx w) pc]> (waiters s)) (crash s)).
Proof. intros Ht Hs. simpl. rewrite Ht. simpl. by rewrite Hs. Qed.

(** A waiter of [s] that reaches its true return in [n] steps of its own. *)
Definition returns (t n : nat) (s : sys) : Prop :=
  ∃ s' w', run exec (replicate n (WaiterStep t)) s = Some s' ∧
    waiters s' !! t = Some w' ∧ w_pc w' = WReturned true.

Lemma returns_step t n w pc m s :
  waiters s !! t = Some w → waiter_step w (mgr s) = Some (pc, m) →
  returns t n (mkSys m (<[t := mkWaiter (w_kind w) (w_ctx w) pc]> (waiters s)) (crash s)) →
  returns t (S n) s.
Proof.
  intros Ht Hs (s'&w'&Hr&Hw). exists s', w'. split; [|done].
  change (run exec (replicate (S n) (WaiterStep t)) s) with
    (exec (WaiterStep t) s ≫= run exec (replicate n (WaiterStep t))).
  by rewrite (waiter_exec _ _ _ _ _ Ht Hs).
Qed.

Lemma returns_zero t w s :
  waiters s !! t = Some w → w_pc w = WReturned true → returns t 0 s.
Proof. intros Ht Hpc. by exists s, w. Qed.

Section Ready.
Context (t : nat) (s : sys) (w : waiter).
Context (Hw : waiters s !! t = Some w) (Hready : getState (mgr s) = Ready).

Lemma returns_dial_state : w_kind w = ForDial → w_pc w = WState → returns t 1 s.
Proof.
  intros Hk Hpc. eapply returns_step; [done| |eapply returns_zero].
  - unfold waiter_step. by rewrite Hpc, Hready.
  - apply lookup_insert_eq.
  - done.
Qed.

Lemma returns_ready_read src ch : w_kind w = ForReady → w_pc w = WRead src ch → returns t 1 s.
Proof.
  intros Hk Hpc. eapply returns_step; [done| |eapply returns_zero].
  - unfold waiter_step. by rewrite Hpc, Hk, Hready.
  - apply lookup_insert_eq.
  - done.
Qed.
End Ready.

Lemma returns_dial_read t s w src ch :
  waiters s !! t = Some w → getState (mgr s) = Ready → w_kind w = ForDial → src ≠ Ready →
  w_pc w = WRead src ch → returns t 2 s.
Proof.
  intros Hw Hr Hk Hsrc Hpc. eapply (returns_step t 1 w WState (mgr s)); [done| |].
  - unfold waiter_step, WaitForStateChange. rewrite Hpc, Hk, Hr. by rewrite decide_False by done.
  - by eapply (returns_dial_state t _ (mkWaiter (w_kind w) (w_ctx w) WState));
      [apply lookup_insert_eq|..].
Qed.

Lemma returns_get t s w src :
  inv s → waiters s !! t = Some w → getState (mgr s) = Ready →
  w_kind w = ForReady ∨ w_kind w = ForDial ∧ src ≠ Ready →
  w_pc w = WGet src → ∃ n, n ≤ 3 ∧ returns t n s.
Proof.
  intros Hi Hw Hr Hk Hpc.
  destruct (csm_getNotifyChan_ok (mgr s) (iv_mgr _ Hi)) as (_&_&Hst&_).
  destruct (getNotifyChan (mgr s)) as [ch m] eqn:Hg. simpl in Hst.
  assert (waiter_step w (mgr s) = Some (WRead src ch, m)) as Hs.
  { unfold waiter_step. by rewrite Hpc, Hg. }
  unfold getState in *. destruct Hk as [Hk|[Hk Hsrc]].
  - exists 2. split; [lia|]. eapply returns_step; [done|exact Hs|].
    by eapply (returns_ready_read t _ (mkWaiter (w_kind w) (w_ctx w) (WRead src ch)));
      [apply lookup_insert_eq|unfold getState; simpl; congruence|..].
  - exists 3. split; [lia|]. eapply returns_step; [done|exact Hs|].
    by eapply (returns_dial_read t _ (mkWaiter (w_kind w) (w_ctx w) (WRead src ch)));
      [apply lookup_insert_eq|unfold getState; simpl; congruence|..].
Qed.

(** While the state is Ready, a waiting [WaitForReady] or blocking dial returns
    true within four steps of its own. *)
Theorem ready_waiters_return s t w :
  reachable exec init s → waiters s !! t = Some w →
  w_kind w = ForReady ∨ w_kind w = ForDial →
  getState (mgr s) = Ready → (∀ b, w_pc w ≠ WReturned b) →
  ∃ n s' w', n ≤ 4 ∧ run exec (replicate n (WaiterStep t)) s = Some s' ∧
    waiters s' !! t = Some w' ∧ w_pc w' = WReturned true.
Proof.
  intros Hi%statemanager_reachable_inv Hw Hk Hr Hnr.
  assert (∃ n, n ≤ 4 ∧ returns t n s) as (n&?&s'&w'&?); [|by exists n, s', w'].
  destruct (iv_waiter _ Hi t w Hw) as [Hok Hsrc]. unfold waiter_ok, waiter_src in Hok, Hsrc.
  destruct (w_pc w) as [|src|src ch|src ch|b] eqn:Hpc.
  - exists 1. split; [lia|]. apply (returns_dial_state t s w); try done. by destruct Hk as [Hk|Hk]; rewrite Hk in *.
  - destruct (returns_get t s w src) as (n&?&?); try done; [|exists n; split; [lia|done]].
    destruct Hk as [Hk|Hk]; rewrite Hk in *; naive_solver.
  - destruct Hk as [Hk|Hk]; rewrite Hk in *.
    + exists 1. split; [lia|]. by eapply returns_ready_read.
    + exists 2. split; [lia|]. by eapply returns_dial_read.
  - destruct Hok as (_&Hst&Hsr).
    assert (ch ∈ closed (mgr s)) as Hcl.
    { destruct (decide (ch ∈ closed (mgr s))) as [|Hn]; [done|]. specialize (Hst Hn).
      unfold getState in Hr. destruct Hk as [Hk|Hk]; rewrite Hk in *; naive_solver. }
    destruct Hk as [Hk|Hk].
    + assert (waiter_step w (mgr s) = Some (WGet Idle, mgr s)) as Hs.
      { unfold waiter_step. by rewrite Hpc, Hk, bool_decide_true. }
      destruct (returns_get t (mkSys (mgr s) (<[t := mkWaiter (w_kind w) (w_ctx w) (WGet Idle)]>
        (waiters s)) (crash s)) (mkWaiter (w_kind w) (w_ctx w) (WGet Idle)) Idle) as (n&?&?);
        [by apply waiter_step_inv|apply lookup_insert_eq|done|by left|done|].
      exists (S n). split; [lia|]. by eapply returns_step.
    + exists 2. split; [lia|].
      assert (waiter_step w (mgr s) = Some (WState, mgr s)) as Hs.
      { unfold waiter_step. by rewrite Hpc, Hk, bool_decide_true. }
      eapply returns_step; [done|exact Hs|].
      by eapply (returns_dial_state t _ (mkWaiter (w_kind w) (w_ctx w) WState));
        [apply lookup_insert_eq|..].
  - by destruct (Hnr b).
Qed.

(** ** Witnesses *)

Definition w_wait : list action :=
  [Update Connecting; Wait 1 ForReady; WaiterStep 1; WaiterStep 1].
Definition w_block_state := final exec w_wait init.
Definition w_woken_state := final exec (w_wait ++ [Update Ready]) init.

Lemma waiters_miss_nothing_witness :
  (getState (mgr w_block_state) ≠ Ready ∧ getState (mgr w_block_state) ≠ Shutdown) ∧
  ∃ m, updateState Ready (mgr w_block_state) = Ok m ∧ 0 ∈ closed m.
Proof.
  destruct (waiters_miss_nothing w_block_state) as (_&Hup&Hw); [at_state|]. split.
  - apply (Hw 1 (mkWaiter ForReady false (WBlock Connecting 0)) Connecting 0); [at_state..|].
    apply (bool_decide_unpack (0 ∉ closed (mgr w_block_state))). vm_compute. exact I.
  - destruct (Hup Ready) as (m&Hm&_&Hcl). exists m. split; [exact Hm|].
    apply (Hcl ltac:(by vm_compute) 1 (mkWaiter ForReady false (WBlock Connecting 0)) Connecting 0); at_state.
Defined.

Lemma ready_waiters_return_witness :
  ∃ n s' w', n ≤ 4 ∧ run exec (replicate n (WaiterStep 1)) w_woken_state = Some s' ∧
    waiters s' !! 1 = Some w' ∧ w_pc w' = WReturned true.
Proof.
  apply (ready_waiters_return w_woken_state 1 (mkWaiter ForReady false (WBlock Connecting 0)));
    [at_state..|by left|at_state|discriminate].
Defined.
End StateManager.
