(* ===== verification/AddrConn.v ===== *)
(** [client.go]: the life of the client's connection.  [connect] starts
    [resetTransport], which dials, publishes its state to the
    [ClientConn], waits for the transport to end and dials again; [teardown]
    ends it; [listenForConnectivityChange] and [listenForRead] follow the
    published states and start the readers.

    [ac.mu] is held across a dial and across the sending of a state, so the
    goroutine that holds it is part of the state.  A state is published by a
    send on the unbuffered [stateCh], received by
    [listenForConnectivityChange]. *)
From S2P Require Import Prelude Connectivity StateManager.

Module AddrConn.
Import Connectivity.

(** The goroutine of [connect] and, started by it, of [resetTransport]. *)
Inductive reset_pc :=
  | RConnect             (* in [connect], about to lock *)
  | RConnected           (* state set, publishing, holding the lock *)
  | RLoop                (* at the top of the loop *)
  | RDial                (* publishing CONNECTING, then dialling; lock held *)
  | RFailed              (* the dial failed *)
  | RFailedPub           (* publishing TRANSIENT_FAILURE; lock held *)
  | RBackoff             (* in the backoff [select] *)
  | RDialled (tr : nat)  (* the dial succeeded *)
  | RReadyPub (tr : nat) (* publishing READY; lock held *)
  | RUp (tr : nat)       (* waiting for [reconnect] *)
  | RExited.

(** The [afterWritePump] callback of a transport. *)
Inductive cb_pc :=
  | CbLive        (* the transport runs *)
  | CbLock        (* the callback is about to lock *)
  | CbPub         (* publishing IDLE, if it was READY; lock held *)
  | CbFire        (* about to fire [reconnect] *)
  | CbDone.

(** [ClientConn.Close] and the [teardown] it calls. *)
Inductive down_pc :=
  | DNone
  | DLock                      (* [cc.cancel()] done; about to lock *)
  | DPub (cur : option nat)    (* publishing SHUTDOWN; lock held *)
  | DClose (cur : option nat)  (* about to close the transport it took *)
  | DWaitTr (tr : nat)         (* in [curTr.Close()], here until its callback is done;
                                  its wait for the read pump is in [Transport] *)
  | DWait                      (* in [ac.wg.Wait()] *)
  | DDown.                     (* [teardown] returned *)

(** [listenForConnectivityChange]. *)
Inductive lc_pc := LcSelect | LcUpdate (s : State) | LcExited.

(** [listenForRead]. *)
Inductive lr_pc := LrGet | LrWait (ch : nat) | LrAct | LrExited.

(** [handleRead]. *)
Inductive hr_pc := HrStart | HrRead (tr : nat) | HrExited.

#[export] Instance hr_pc_eq_dec : EqDecision hr_pc.
Proof. solve_decision. Defined.

Inductive thread := TReset | TDown | TCallback (tr : nat).

#[global] Instance thread_eq_dec : EqDecision thread.
Proof. solve_decision. Defined.

Record sys := mkSys {
  st : State;                 (* [ac.state] *)
  transport : option nat;     (* [ac.transport] *)
  mu : option thread;         (* who holds [ac.mu] *)
  pub : option State;         (* the state its holder is sending on [stateCh] *)
  closed_cc : bool;           (* [cc.addrConn] is nil *)
  cc_done : bool;             (* [cc.ctx] is done *)
  ac_done : bool;             (* [ac.ctx] is done *)
  rs : reset_pc;
  cbs : gmap nat cb_pc;
  fired : gset nat;           (* the transports whose [reconnect] fired *)
  tr_closed : gset nat;       (* the transports [Close] was called on *)
  td : down_pc;
  csm : StateManager.csm;
  lc : lc_pc;
  lr : lr_pc;
  readers : gmap nat hr_pc;
  crash : option panic;
}.

(** [DialWithContext] up to [connect]: [newAddrConn] asks for a channel. *)
Definition init : sys :=
  mkSys Idle None None None false false false RConnect ∅ ∅ ∅ DNone
    (StateManager.getNotifyChan StateManager.new_csm).2 LcSelect LrGet ∅ None.

(** ** Field updates *)
Definition set_ac (x : State) (tr : option nat) (m : option thread) (p : option State) (s : sys) : sys :=
  mkSys x tr m p (closed_cc s) (cc_done s) (ac_done s) (rs s) (cbs s) (fired s) (tr_closed s)
    (td s) (csm s) (lc s) (lr s) (readers s) (crash s).
Definition set_mu (m : option thread) (s : sys) : sys := set_ac (st s) (transport s) m (pub s) s.
Definition set_pub (p : option State) (s : sys) : sys := set_ac (st s) (transport s) (mu s) p s.
Definition set_transport (tr : option nat) (s : sys) : sys := set_ac (st s) tr (mu s) (pub s) s.
Definition set_done (cl c a : bool) (s : sys) : sys :=
  mkSys (st s) (transport s) (mu s) (pub s) cl c a (rs s) (cbs s) (fired s) (tr_closed s)
    (td s) (csm s) (lc s) (lr s) (readers s) (crash s).
Definition set_rs (pc : reset_pc) (s : sys) : sys :=
  mkSys (st s) (transport s) (mu s) (pub s) (closed_cc s) (cc_done s) (ac_done s) pc (cbs s)
    (fired s) (tr_closed s) (td s) (csm s) (lc s) (lr s) (readers s) (crash s).
Definition set_cb (tr : nat) (pc : cb_pc) (s : sys) : sys :=
  mkSys (st s) (transport s) (mu s) (pub s) (closed_cc s) (cc_done s) (ac_done s) (rs s)
    (<[tr := pc]> (cbs s)) (fired s) (tr_closed s) (td s) (csm s) (lc s) (lr s) (readers s) (crash s).
Definition fire (tr : nat) (s : sys) : sys :=
  mkSys (st s) (transport s) (mu s) (pub s) (closed_cc s) (cc_done s) (ac_done s) (rs s) (cbs s)
    ({[tr]} ∪ fired s) (tr_closed s) (td s) (csm s) (lc s) (lr s) (readers s) (crash s).
Definition tr_Close (tr : nat) (s : sys) : sys :=
  mkSys (st s) (transport s) (mu s) (pub s) (closed_cc s) (cc_done s) (ac_done s) (rs s) (cbs s)
    (fired s) ({[tr]} ∪ tr_closed s) (td s) (csm s) (lc s) (lr s) (readers s) (crash s).
Definition set_td (pc : down_pc) (s : sys) : sys :=
  mkSys (st s) (transport s) (mu s) (pub s) (closed_cc s) (cc_done s) (ac_done s) (rs s) (cbs s)
    (fired s) (tr_closed s) pc (csm s) (lc s) (lr s) (readers s) (crash s).
Definition set_csm (m : StateManager.csm) (s : sys) : sys :=
  mkSys (st s) (transport s) (mu s) (pub s) (closed_cc s) (cc_done s) (ac_done s) (rs s) (cbs s)
    (fired s) (tr_closed s) (td s) m (lc s) (lr s) (readers s) (crash s).
Definition set_lc (pc : lc_pc) (s : sys) : sys :=
  mkSys (st s) (transport s) (mu s) (pub s) (closed_cc s) (cc_done s) (ac_done s) (rs s) (cbs s)
    (fired s) (tr_closed s) (td s) (csm s) pc (lr s) (readers s) (crash s).
Definition set_lr (pc : lr_pc) (s : sys) : sys :=
  mkSys (st s) (transport s) (mu s) (pub s) (closed_cc s) (cc_done s) (ac_done s) (rs s) (cbs s)
    (fired s) (tr_closed s) (td s) (csm s) (lc s) pc (readers s) (crash s).
Definition set_reader (r : nat) (pc : hr_pc) (s : sys) : sys :=
  mkSys (st s) (transport s) (mu s) (pub s) (closed_cc s) (cc_done s) (ac_done s) (rs s) (cbs s)
    (fired s) (tr_closed s) (td s) (csm s) (lc s) (lr s) (<[r := pc]> (readers s)) (crash s).
Definition set_crash (p : panic) (s : sys) : sys :=
  mkSys (st s) (transport s) (mu s) (pub s) (closed_cc s) (cc_done s) (ac_done s) (rs s) (cbs s)
    (fired s) (tr_closed s) (td s) (csm s) (lc s) (lr s) (readers s) (Some p).

(** ** The operations *)

(** [updateConnectivityState] by the holder of [ac.mu]: set the state and start
    to send it; nothing if it is the state already. *)
Definition updateConnectivityState (x : State) (s : sys) : sys :=
  if decide (st s = x) then s else set_ac x (transport s) (mu s) (Some x) s.

(** Taking [ac.mu]. *)
Definition lock (t : thread) (s : sys) (k : sys → sys) : option sys :=
  match mu s with Some _ => None | None => Some (k (set_mu (Some t) s)) end.

(** Going on with the lock, once the state is sent or given up. *)
Definition sent (s : sys) (k : sys → sys) : option sys :=
  match pub s with Some _ => None | None => Some (k s) end.

Definition connect (s : sys) : option sys :=
  match rs s with
  | RConnect => lock TReset s (λ s,
      if decide (st s = Shutdown) then set_mu None (set_rs RExited s)
      else if decide (st s ≠ Idle) then set_mu None (set_rs RExited s)
      else set_rs RConnected (updateConnectivityState Connecting s))
  | RConnected => sent s (λ s, set_mu None (set_rs RLoop s))
  | _ => None
  end.

Inductive reset_event :=
  | Go                            (* the next step *)
  | Dialled (dial : option nat)   (* the dial's result: a new transport *)
  | Timer                         (* the backoff timer fired *)
  | Cancelled.                    (* [<-ac.ctx.Done()] *)

Definition resetTransport (e : reset_event) (s : sys) : option sys :=
  match rs s, e with
  | RLoop, Go => lock TReset s (λ s,
      if decide (st s = Shutdown) then set_mu None (set_rs RExited s)
      else set_rs RDial (updateConnectivityState Connecting (set_transport None s)))
  | RDial, Dialled dial =>
      match dial with
      | None => sent s (λ s, set_mu None (set_rs RFailed s))
      | Some tr =>
          if cbs s !! tr is Some _ then None
          else sent s (λ s, set_mu None (set_rs (RDialled tr) (set_cb tr CbLive s)))
      end
  | RFailed, Go => lock TReset s (λ s,
      if decide (st s = Shutdown) then set_mu None (set_rs RExited s)
      else set_rs RFailedPub (updateConnectivityState TransientFailure s))
  | RFailedPub, Go => sent s (λ s, set_mu None (set_rs RBackoff s))
  | RBackoff, Timer => Some (set_rs RLoop s)
  | RBackoff, Cancelled => if ac_done s then Some (set_rs RExited s) else None
  | RDialled tr, Go => lock TReset s (λ s,
      if decide (st s = Shutdown) then set_mu None (set_rs RExited s)
      else set_rs (RReadyPub tr) (updateConnectivityState Ready (set_transport (Some tr) s)))
  | RReadyPub tr, Go => sent s (λ s, set_mu None (set_rs (RUp tr) s))
  | RUp tr, Go => if bool_decide (tr ∈ fired s) then Some (set_rs RLoop s) else None
  | RUp tr, Cancelled => if ac_done s then Some (set_rs RExited s) else None
  | _, _ => None
  end.

(** The callback [createTransport] gives the transport [tr]: each runs it once. *)
Definition afterWritePump (tr : nat) (pc : cb_pc) (s : sys) : option sys :=
  match pc with
  | CbLive => Some (set_cb tr CbLock s)
  | CbLock => lock (TCallback tr) s (λ s,
      set_cb tr CbPub (if decide (st s = Ready) then updateConnectivityState Idle s else s))
  | CbPub => sent s (λ s, set_mu None (set_cb tr CbFire s))
  | CbFire => Some (set_cb tr CbDone (fire tr s))
  | CbDone => None
  end.

(** [Close] up to [addrConn.teardown()].  What other goroutines do between its
    [cc.cancel()] and [cc.addrConn = nil] they do in a run where [CallerCancel] comes
    first, which is the same call of the context's cancel ([close_gap]). *)
Definition Close (s : sys) : option sys :=
  match rs s with
  | RConnect | RConnected => None     (* [Dial] has not returned *)
  | _ =>
      if closed_cc s then Some (set_crash NilDeref s)
      else Some (set_td DLock (set_done true true true s))
  end.

Definition teardown (s : sys) : option sys :=
  match td s with
  | DLock => lock TDown s (λ s,
      if decide (st s = Shutdown) then set_mu None (set_td DDown s)
      else
        let cur := transport s in
        set_td (DPub cur) (updateConnectivityState Shutdown (set_transport None s)))
  | DPub cur => sent s (λ s, set_mu None (set_td (DClose cur) s))
  | DClose (Some tr) => Some (set_td (DWaitTr tr) (tr_Close tr s))
  | DClose None => Some (set_td DWait s)
  | DWaitTr tr => match cbs s !! tr with Some CbDone => Some (set_td DWait s) | _ => None end
  | DWait => match rs s with RExited => Some (set_td DDown s) | _ => None end
  | _ => None
  end.

Definition listenForConnectivityChange (s : sys) : option sys :=
  match lc s with
  | LcUpdate x => Some
      match StateManager.updateState x (csm s) with
      | Ok m => set_lc LcSelect (set_csm m s)
      | Err _ => s
      | Panic p => set_crash p s
      end
  | LcSelect => if cc_done s then Some (set_lc LcExited s) else None
  | LcExited => None
  end.

(** [r] names the goroutine it starts when the state is Ready. *)
Definition listenForRead (r : nat) (s : sys) : option sys :=
  match lr s with
  | LrGet =>
      let '(ch, m) := StateManager.getNotifyChan (csm s) in Some (set_lr (LrWait ch) (set_csm m s))
  | LrWait ch =>
      if bool_decide (ch ∈ StateManager.closed (csm s)) then Some (set_lr LrAct s) else None
  | LrAct =>
      if decide (StateManager.getState (csm s) = Ready) then
        if readers s !! r is Some _ then None else Some (set_lr LrGet (set_reader r HrStart s))
      else Some (set_lr LrGet s)
  | LrExited => None
  end.

Definition handleRead (r : nat) (pc : hr_pc) (s : sys) : option sys :=
  match pc with
  | HrStart =>
      if closed_cc s then Some (set_reader r HrExited s)
      else match mu s with
           | Some _ => None
           | None => Some (set_reader r
               (match transport s with Some tr => HrRead tr | None => HrExited end) s)
           end
  | HrRead _ => if cc_done s then Some (set_reader r HrExited s) else None
  | HrExited => None
  end.

(** ** The transition system *)
Inductive action :=
  | Connect
  | Reset (e : reset_event)
  | Publish                  (* [stateCh <- s] meets its receiver *)
  | PublishCancelled         (* [<-ac.ctx.Done()] in [updateConnectivityState] *)
  | Callback (tr : nat)
  | CallClose
  | Teardown
  | ListenChange
  | ListenRead (r : nat)
  | ListenReadDone           (* [<-cc.ctx.Done()] in [listenForRead] *)
  | Reader (r : nat)
  | CallerCancel.            (* the context given to the dial is cancelled *)

Definition exec (a : action) (s : sys) : option sys :=
  match a with
  | Connect => connect s
  | Reset e => resetTransport e s
  | Publish =>
      match pub s, lc s with
      | Some x, LcSelect => Some (set_lc (LcUpdate x) (set_pub None s))
      | _, _ => None
      end
  | PublishCancelled =>
      match pub s with
      | Some _ => if ac_done s then Some (set_pub None s) else None
      | None => None
      end
  | Callback tr => pc ← cbs s !! tr; afterWritePump tr pc s
  | CallClose => Close s
  | Teardown => teardown s
  | ListenChange => listenForConnectivityChange s
  | ListenRead r => listenForRead r s
  | ListenReadDone =>
      match lr s with
      | LrWait _ => if cc_done s then Some (set_lr LrExited s) else None
      | _ => None
      end
  | Reader r => pc ← readers s !! r; handleRead r pc s
  | CallerCancel => Some (set_done (closed_cc s) true true s)
  end.

(** ** The invariant *)

Definition rs_holds (pc : reset_pc) : bool :=
  match pc with RConnected | RDial | RFailedPub | RReadyPub _ => true | _ => false end.

Definition starting (pc : reset_pc) : bool :=
  match pc with RConnect | RConnected => true | _ => false end.

(** The states a point of [resetTransport] can find. *)
Definition rs_st (pc : reset_pc) (x : State) : bool :=
  match pc, x with
  | RConnect, Idle | RConnected, Connecting | RDial, Connecting
  | (RFailed | RDialled _), (Connecting | Shutdown)
  | RFailedPub, TransientFailure | RBackoff, (TransientFailure | Shutdown)
  | RReadyPub _, Ready | RUp _, (Ready | Idle | Shutdown)
  | (RLoop | RExited), _ => true
  | _, _ => false
  end.

(** [teardown] has set SHUTDOWN. *)
Definition down (pc : down_pc) : bool :=
  match pc with DNone | DLock => false | _ => true end.

(** What the [ClientConn] shows, while the contexts live: the state of the
    connection, unless a state is on its way. *)
Definition follows (s : sys) : Prop :=
  match pub s, lc s with
  | Some _, _ => True
  | None, LcUpdate x => x = st s
  | None, LcSelect => StateManager.state (csm s) = st s
  | None, LcExited => False
  end.

Record inv (s : sys) : Prop := mkInv {
  iv_rs : rs_holds (rs s) = true → mu s = Some TReset;
  iv_td cur : td s = DPub cur → mu s = Some TDown;
  iv_cb tr : cbs s !! tr = Some CbPub → mu s = Some (TCallback tr);
  iv_pub x : pub s = Some x → st s = x ∧ mu s ≠ None;
  iv_st : rs_st (rs s) (st s) = true;
  iv_ready : st s = Ready → is_Some (transport s);
  iv_shut : st s = Shutdown → transport s = None;
  iv_start : td s ≠ DNone → starting (rs s) = false;
  iv_done : td s ≠ DNone → cc_done s = true;
  iv_ctx : ac_done s = cc_done s;
  iv_down : down (td s) = true → st s = Shutdown;
  iv_csm : StateManager.ok (csm s);
  iv_lc : lc s = LcExited → cc_done s = true;
  iv_follow : cc_done s = false → follows s;
}.

Lemma addrconn_init_inv : inv init.
Proof.
  split; simpl; try done. apply (StateManager.csm_getNotifyChan_ok StateManager.new_csm).
  apply StateManager.new_csm_ok.
Qed.

Lemma lock_inv t s k s' : lock t s k = Some s' → mu s = None ∧ s' = k (set_mu (Some t) s).
Proof. unfold lock. destruct (mu s); naive_solver. Qed.

Lemma sent_inv s k s' : sent s k = Some s' → pub s = None ∧ s' = k s.
Proof. unfold sent. destruct (pub s); naive_solver. Qed.

(** Nobody else is inside while the lock is free, or another holds it. *)
Lemma free_pub s : inv s → mu s = None → pub s = None.
Proof. intros Hi Hm. destruct (pub s) as [x|] eqn:Hp; [|done]. by destruct (iv_pub _ Hi x Hp). Qed.

Lemma free_rs s : inv s → mu s = None → rs_holds (rs s) = false.
Proof.
  intros Hi Hm. destruct (rs_holds (rs s)) eqn:Hh; [|done]. by rewrite (iv_rs _ Hi Hh) in Hm.
Qed.

(** Who could be inside, from what the goal assumes. *)
Ltac owners :=
  repeat match goal with
  | I : ∀ cur, td ?s = DPub cur → _, H : td ?s = DPub _ |- _ => apply I in H
  | I : ∀ tr, cbs ?s !! tr = Some CbPub → _, H : cbs ?s !! _ = Some CbPub |- _ => apply I in H
  | I : ∀ x, pub ?s = Some x → _, H : pub ?s = Some _ |- _ => apply I in H as [? ?]
  | I : true = true → _ |- _ => specialize (I eq_refl)
  | I : ?P → _, H : ?P |- _ => specialize (I H)
  | H : <[_ := _]> _ !! _ = Some _ |- _ => apply lookup_insert_Some in H as [[? ?]|[? H]]
  end; simplify_eq/=.

(** Split the invariant and settle its fields one by one. *)
Ltac solve_inv :=
  match goal with H : inv _ |- _ => destruct H end;
  split; unfold follows in *; simpl in *; intros;
  try match goal with E : rs _ = _ |- _ => rewrite ?E in *; clear E end; simpl in *;
  first [done|congruence|assumption|owners; first [done|congruence|tauto|eauto|idtac]];
  try (by match goal with s : sys |- _ => destruct (st s) end).

Ltac fields :=
  unfold updateConnectivityState in *; simpl in *; repeat case_decide; simplify_eq/=.

(** Unfold a step of the connection's goroutines. *)
Ltac ac_step He :=
  simpl in He; unfold connect, resetTransport, afterWritePump, Close, teardown,
    listenForConnectivityChange, listenForRead, handleRead in He;
  repeat first
    [ done
    | apply lock_inv in He as [? ->] | apply sent_inv in He as [? ->]
    | apply bind_Some in He as (?&?&He)
    | progress simplify_eq/=
    | match type of He with context [match ?x with _ => _ end] => destruct x eqn:? end ];
  fields.

Lemma resetTransport_inv e s s' : inv s → resetTransport e s = Some s' → inv s'.
Proof.
  intros Hi He. pose proof (free_pub s Hi) as Hfp. pose proof (iv_st _ Hi) as Hst.
  unfold resetTransport in He.
  destruct (rs s) as [| | | | | | |tr|tr|tr|] eqn:Hrs, e as [|d| |]; try done;
    try (apply lock_inv in He as [Hm ->]; specialize (Hfp Hm));
    try (apply sent_inv in He as [Hp ->]).
  all: try (destruct d as [tr'|]; [destruct (cbs s !! tr') eqn:Hn; [done|]|];
    apply sent_inv in He as [Hp ->]).
  all: fields; break_in He.
  all: solve_inv.
Qed.

Lemma connect_inv s s' : inv s → connect s = Some s' → inv s'.
Proof.
  intros Hi He. pose proof (free_pub s Hi) as Hfp. pose proof (iv_st _ Hi) as Hst.
  unfold connect in He. destruct (rs s) eqn:Hrs; try done;
    [apply lock_inv in He as [Hm ->]; specialize (Hfp Hm)|apply sent_inv in He as [Hp ->]].
  all: fields; solve_inv.
Qed.

Lemma rs_idle pc : rs_st pc Ready = true → rs_holds pc = false → rs_st pc Idle = true.
Proof. by destruct pc. Qed.

Lemma rs_shutdown pc x :
  rs_st pc x = true → rs_holds pc = false → starting pc = false → rs_st pc Shutdown = true.
Proof. by destruct pc. Qed.

Lemma callback_inv tr pc s s' :
  inv s → cbs s !! tr = Some pc → afterWritePump tr pc s = Some s' → inv s'.
Proof.
  intros Hi Htr He. pose proof (free_pub s Hi) as Hfp.
  unfold afterWritePump in He. destruct pc; try done;
    try (apply lock_inv in He as [Hm ->]; specialize (Hfp Hm));
    try (apply sent_inv in He as [Hp ->]; pose proof (iv_cb _ Hi tr Htr) as Hm); fields.
  all: try (solve_inv; fail).
  pose proof (rs_idle (rs s)) as Hidle.
  pose proof (free_rs s Hi Hm) as Hh.
  pose proof (iv_st _ Hi) as Hst. rewrite H in Hst. specialize (Hidle Hst Hh). solve_inv.
Qed.

Lemma Close_inv s s' : inv s → Close s = Some s' → inv s'.
Proof.
  intros Hi He. assert (starting (rs s) = false) as Hst.
  { unfold Close in He. by destruct (rs s). }
  assert (s' = if closed_cc s then set_crash NilDeref s
               else set_td DLock (set_done true true true s)) as ->.
  { unfold Close in He. destruct (rs s), (closed_cc s); by simplify_eq. }
  destruct (closed_cc s); solve_inv.
Qed.

Lemma teardown_inv s s' : inv s → teardown s = Some s' → inv s'.
Proof.
  intros Hi He. pose proof (free_pub s Hi) as Hfp.
  assert (td s ≠ DNone) as Hn by (intros Htd; unfold teardown in He; by rewrite Htd in He).
  pose proof (iv_start _ Hi Hn) as Hstart. pose proof (iv_done _ Hi Hn) as Hdone.
  pose proof (rs_shutdown (rs s) (st s) (iv_st _ Hi)) as Hrs.
  pose proof (free_rs s Hi) as Hfr. pose proof (iv_down _ Hi) as Hdown.
  unfold teardown in He. destruct (td s) as [| |cur|[tr|]|tr| |] eqn:Htd; try done; simpl in Hdown;
    try specialize (Hdown eq_refl);
    try (apply lock_inv in He as [Hm ->]; specialize (Hfp Hm); specialize (Hrs (Hfr Hm) Hstart));
    try (apply sent_inv in He as [Hp ->]; pose proof (iv_td _ Hi cur Htd) as Hm);
    fields; first [break_in He|idtac]; solve_inv.
Qed.

Lemma listenForConnectivityChange_inv s s' :
  inv s → listenForConnectivityChange s = Some s' → inv s' ∧ crash s' = crash s.
Proof.
  intros Hi He. unfold listenForConnectivityChange in He. destruct (lc s) as [|x|] eqn:Hlc; try done.
  - destruct (cc_done s) eqn:Hd; simplify_eq. split; [solve_inv|done].
  - destruct (StateManager.updateState_ok x (csm s) (iv_csm _ Hi)) as (m&Hu&Hok&Hx&_).
    rewrite Hu in He. simplify_eq. split; [|done]. pose proof (iv_follow _ Hi) as Hf.
    unfold follows in Hf. rewrite Hlc in Hf. solve_inv. 
Qed.

Lemma listenForRead_inv r s s' : inv s → listenForRead r s = Some s' → inv s' ∧ crash s' = crash s.
Proof.
  intros Hi He. unfold listenForRead in He.
  destruct (StateManager.csm_getNotifyChan_ok (csm s) (iv_csm _ Hi)) as (Hok&_&Hst&_).
  destruct (lr s) as [|ch| |]; try done.
  - destruct (StateManager.getNotifyChan (csm s)) as [ch m]. simplify_eq/=. split; [|done].
    solve_inv. by rewrite Hst.
  - case_bool_decide; simplify_eq. split; [solve_inv|done].
  - case_decide; [destruct (readers s !! r)|]; simplify_eq; split; try done; solve_inv.
Qed.

Lemma handleRead_inv r pc s s' : inv s → handleRead r pc s = Some s' → inv s'.
Proof.
  intros Hi He. unfold handleRead in He. destruct pc as [|tr|]; try done; break_in He; solve_inv.
Qed.

Lemma addrconn_exec_inv a s s' : inv s → exec a s = Some s' → inv s'.
Proof.
  intros Hi He. destruct a; simpl in He.
  - by eapply connect_inv.
  - by eapply resetTransport_inv.
  - destruct (pub s) as [x|] eqn:Hp, (lc s) eqn:Hlc; simplify_eq.
    destruct (iv_pub _ Hi x Hp) as [Hx _]. solve_inv.
  - destruct (pub s) eqn:Hp; [|done]. pose proof (iv_ctx _ Hi) as Hc.
    destruct (ac_done s) eqn:Ha; simplify_eq. solve_inv.
  - destruct (cbs s !! tr) eqn:Ht; [|done]. by eapply callback_inv.
  - by eapply Close_inv.
  - by eapply teardown_inv.
  - by eapply listenForConnectivityChange_inv.
  - by eapply listenForRead_inv.
  - destruct (lr s); try done. destruct (cc_done s); simplify_eq. solve_inv.
  - destruct (readers s !! r) eqn:Hr; [|done]. by eapply handleRead_inv.
  - simplify_eq. solve_inv.
Qed.

Lemma addrconn_reachable_inv s : reachable exec init s → inv s.
Proof.
  apply reachable_invariant; [apply addrconn_init_inv|]. intros a s1 s2. apply addrconn_exec_inv.
Qed.

(** ** The states of the connection *)

(** The changes of state the connection can make. *)
Definition edge (x y : State) : bool :=
  match x, y with
  | Idle, Connecting
  | Connecting, Ready | Connecting, TransientFailure
  | TransientFailure, Connecting
  | Ready, Idle | Ready, Connecting => true
  | Shutdown, _ => false
  | _, Shutdown => true
  | _, _ => false
  end.

Lemma update_st x s : st (updateConnectivityState x s) = x.
Proof. unfold updateConnectivityState. by case_decide. Qed.

(** A step of [resetTransport] moves along the edges. *)
Lemma reset_edge e s s' :
  inv s → resetTransport e s = Some s' → st s' = st s ∨ edge (st s) (st s') = true.
Proof.
  intros Hi He. pose proof (iv_st _ Hi) as Hst. unfold resetTransport in He.
  destruct (rs s) as [| | | | | | |tr|tr|tr|], e as [|d| |]; try done;
    try (apply lock_inv in He as [Hm ->]; simpl);
    try (apply sent_inv in He as [Hp ->]; simpl);
    try (destruct d as [tr'|]; [destruct (cbs s !! tr'); [done|]|];
         apply sent_inv in He as [Hp ->]; by left);
    try (break_in He; by left).
  all: first [by left|case_decide; simpl; [by left|]; rewrite update_st;
    destruct (st s); simpl in *; first [done|by left|by right]].
Qed.

Lemma addrconn_step_edge a s s' :
  inv s → exec a s = Some s' → st s' = st s ∨ edge (st s) (st s') = true.
Proof.
  intros Hi He. destruct a; simpl in He.
  - pose proof (iv_st _ Hi) as Hst. unfold connect in He. destruct (rs s); try done.
    + apply lock_inv in He as [_ ->]. simpl. repeat case_decide; simpl; try (by left).
      rewrite update_st. destruct (st s); try done. by right.
    + apply sent_inv in He as [_ ->]. by left.
  - by eapply reset_edge.
  - destruct (pub s), (lc s); simplify_eq; by left.
  - destruct (pub s), (ac_done s); simplify_eq; by left.
  - destruct (cbs s !! tr) as [pc|]; [simpl in He|done]. unfold afterWritePump in He.
    destruct pc; try done; try (apply lock_inv in He as [_ ->]; simpl);
      try (apply sent_inv in He as [_ ->]); simplify_eq; try (by left).
    case_decide as Hr; [|by left]. rewrite update_st. right. simpl in Hr. by rewrite Hr.
  - unfold Close in He. destruct (rs s), (closed_cc s); simplify_eq; by left.
  - unfold teardown in He. destruct (td s) as [| |cur|[tr|]|tr| |]; try done;
      try (apply lock_inv in He as [_ ->]; simpl);
      try (apply sent_inv in He as [_ ->]; by left); try (break_in He; by left).
    case_decide as Hr; [by left|]. simpl. rewrite update_st. right. simpl in Hr.
    by destruct (st s).
  - destruct (listenForConnectivityChange_inv s s' Hi He) as [_ _].
    unfold listenForConnectivityChange in He. destruct (lc s) as [|x|]; try done.
    + break_in He; by left.
    + simplify_eq. destruct (StateManager.updateState x (csm s)); by left.
  - unfold listenForRead in He. destruct (lr s); try done; break_in He; by left.
  - destruct (lr s), (cc_done s); simplify_eq; by left.
  - destruct (readers s !! r) as [pc|]; [simpl in He|done]. unfold handleRead in He.
    destruct pc; try done; break_in He; by left.
  - simplify_eq. by left.
Qed.

(** Once [listenForConnectivityChange] has returned, the shown state is frozen. *)
Definition frozen (x : State) (s : sys) : Prop :=
  lc s = LcExited ∧ StateManager.getState (csm s) = x.

Lemma frozen_step x a s s' : frozen x s → exec a s = Some s' → frozen x s'.
Proof.
  unfold frozen. intros [Hl Hs] He. destruct a; simpl in He.
  - unfold connect in He. destruct (rs s); try done;
      [apply lock_inv in He as [_ ->]|apply sent_inv in He as [_ ->]]; fields; done.
  - unfold resetTransport in He.
    destruct (rs s) as [| | | | | | |tr|tr|tr|], e as [|d| |]; try done;
      try (destruct d as [tr'|]; [destruct (cbs s !! tr'); [done|]|]);
      try (apply lock_inv in He as [_ ->]); try (apply sent_inv in He as [_ ->]); fields;
      try done; break_in He; done.
  - by rewrite Hl in He; destruct (pub s).
  - destruct (pub s), (ac_done s); by simplify_eq.
  - destruct (cbs s !! tr) as [pc|]; [simpl in He|done]. unfold afterWritePump in He.
    destruct pc; try done; try (apply lock_inv in He as [_ ->]);
      try (apply sent_inv in He as [_ ->]); fields; done.
  - unfold Close in He. destruct (rs s), (closed_cc s); by simplify_eq.
  - unfold teardown in He. destruct (td s) as [| |cur|[tr|]|tr| |]; try done;
      try (apply lock_inv in He as [_ ->]); try (apply sent_inv in He as [_ ->]); fields;
      try done; break_in He; done.
  - unfold listenForConnectivityChange in He. by rewrite Hl in He.
  - unfold listenForRead, StateManager.getNotifyChan in He.
    destruct (lr s), (StateManager.notifyChan (csm s)); try done; break_in He; done.
  - destruct (lr s), (cc_done s); by simplify_eq.
  - destruct (readers s !! r) as [pc|]; [simpl in He|done]. unfold handleRead in He.
    destruct pc; try done; break_in He; done.
  - by simplify_eq.
Qed.

Lemma frozen_forever x s s' : frozen x s → reachable exec s s' → frozen x s'.
Proof.
  intros Hf Hr. induction Hr as [|s1 s2 s3 [a Ha] _ IH]; [done|].
  by apply IH, (frozen_step x a s1).
Qed.

(** When [listenForRead] and every [handleRead] have returned, that is how it stays. *)
Lemma addrconn_readers_over a s s' :
  exec a s = Some s' → lr s = LrExited → (∀ r pc, readers s !! r = Some pc → pc = HrExited) →
  lr s' = LrExited ∧ ∀ r pc, readers s' !! r = Some pc → pc = HrExited.
Proof.
  intros He Hl Hr. destruct a; ac_step He;
    try match goal with |- context [StateManager.updateState ?x ?m] => destruct (StateManager.updateState x m) end;
    try (by split); try congruence;
    match goal with H : readers _ !! _ = Some _ |- _ => by apply Hr in H end.
Qed.

(** *** Whose callback is still to run

    At most the present transport's: [resetTransport] waits for [reconnect], which the
    callback fires at its end, before it dials again.  So a connection that is IDLE
    with a transport is IDLE because this transport's callback made it so. *)
Record callbacks (s : sys) : Prop := mkCallbacks {
  cbk_cur tr pc : cbs s !! tr = Some pc → pc ≠ CbDone →
    match rs s with
    | RDialled t | RReadyPub t | RUp t => t = tr
    | RExited => st s = Shutdown ∨ transport s = Some tr
    | _ => False
    end;
  cbk_fired tr : tr ∈ fired s → cbs s !! tr = Some CbDone;
  cbk_tr : match rs s with RReadyPub t | RUp t => st s = Shutdown ∨ transport s = Some t | _ => True end;
  cbk_known tr : transport s = Some tr → is_Some (cbs s !! tr);
  cbk_dialled tr : rs s = RDialled tr → is_Some (cbs s !! tr);
  cbk_idle tr : st s = Idle → transport s = Some tr → cbs s !! tr ≠ Some CbLive;
}.

Lemma addrconn_init_callbacks : callbacks init.
Proof. split; simpl; try done. Qed.

(** They depend on five fields. *)
Lemma callbacks_same s s' :
  st s' = st s → transport s' = transport s → rs s' = rs s → cbs s' = cbs s → fired s' = fired s →
  callbacks s → callbacks s'.
Proof. intros H1 H2 H3 H4 H5 [Hcur Hf Htr Hk Hd Hid]. split; by rewrite ?H1, ?H2, ?H3, ?H4, ?H5. Qed.

(** A callback moves on, to its end when it fires, and may make the connection IDLE. *)
Lemma callbacks_move tr pc pc' s s' :
  callbacks s → rs_st (rs s) (st s) = true →
  cbs s !! tr = Some pc → pc ≠ CbDone → pc' ≠ CbLive →
  transport s' = transport s → rs s' = rs s → cbs s' = <[tr := pc']> (cbs s) →
  fired s' = fired s ∨ pc' = CbDone ∧ fired s' = {[tr]} ∪ fired s →
  st s' = st s ∨ st s = Ready ∧ st s' = Idle → callbacks s'.
Proof.
  intros [Hcur Hf Htr Hk Hd Hid] Hrs Hpc Hn Hl Ht Hr Hc Hfi Hst.
  pose proof (Hcur tr pc Hpc Hn) as Hme.
  assert (st s = Ready → transport s = Some tr) as Hready.
  { intros Hs. rewrite Hs in *. destruct (rs s); try done; [subst|subst|].
    1,2: by destruct Htr. by destruct Hme. }
  split; rewrite ?Ht, ?Hr, ?Hc.
  - intros tr' pc2 H1 H2. assert (match rs s with RDialled t | RReadyPub t | RUp t => t = tr'
      | RExited => st s = Shutdown ∨ transport s = Some tr' | _ => False end) as Hold.
    { apply lookup_insert_Some in H1 as [[<- <-]|[_ H1]]; [done|by eapply Hcur]. }
    destruct (rs s); try done. destruct Hold as [Hs|Hs]; [|by right].
    destruct Hst as [->|[Hs' _]]; [by left|congruence].
  - intros tr' Hin. destruct (decide (tr = tr')) as [<-|Hne].
    + rewrite lookup_insert_eq. destruct Hfi as [Hfi|[-> _]]; [|done].
      rewrite Hfi in Hin. apply Hf in Hin. congruence.
    + rewrite lookup_insert_ne by done. apply Hf. destruct Hfi as [<-|[_ Hfi]]; [done|]. set_solver.
  - destruct (rs s); try done; destruct Htr as [Hs|Hs]; [|by right| |by right];
      (destruct Hst as [->|[Hs' _]]; [by left|congruence]).
  - intros tr' Htr'. rewrite lookup_insert_is_Some'. right. by apply Hk.
  - intros tr' Hr'. rewrite lookup_insert_is_Some'. right. by apply Hd.
  - intros tr' Hs Htr'. destruct (decide (tr = tr')) as [<-|Hne]; [rewrite lookup_insert_eq; congruence|].
    rewrite lookup_insert_ne by done. destruct Hst as [Hst|[Hs' _]]; [apply Hid; congruence|].
    specialize (Hready Hs'). congruence.
Qed.

(** No callback is to run. *)
Lemma callbacks_quiet s s' :
  callbacks s → (∀ tr pc, cbs s !! tr = Some pc → pc = CbDone) →
  cbs s' = cbs s → fired s' = fired s → transport s' = transport s ∨ transport s' = None →
  match rs s' with RDialled _ | RReadyPub _ | RUp _ => False | _ => True end → callbacks s'.
Proof.
  intros [Hcur Hf Htr Hk Hd Hid] Hq Hc Hfi Ht Hr. split; rewrite ?Hc, ?Hfi; try done.
  - intros tr pc Hpc Hn. by apply Hq in Hpc.
  - by destruct (rs s').
  - intros tr Htr'. apply Hk. destruct Ht; congruence.
  - intros tr Hr'. by rewrite Hr' in Hr.
  - intros tr _ _ Hl. by apply Hq in Hl.
Qed.

Lemma callbacks_all_done s :
  callbacks s → match rs s with RDialled _ | RReadyPub _ | RExited => False | RUp t => t ∈ fired s | _ => True end →
  ∀ tr pc, cbs s !! tr = Some pc → pc = CbDone.
Proof.
  intros Hc Hr tr pc Hpc. destruct pc; try done; exfalso;
    (pose proof (cbk_cur _ Hc tr _ Hpc ltac:(done)) as Hcur; destruct (rs s); try done; subst;
     apply (cbk_fired _ Hc) in Hr; congruence).
Qed.

(** The steps of [connect] and [resetTransport]. *)
Lemma callbacks_reset a s s' :
  callbacks s → rs_st (rs s) (st s) = true →
  match a with Connect | Reset _ => True | _ => False end → exec a s = Some s' → callbacks s'.
Proof.
  intros Hc Hst Ha He. pose proof (callbacks_all_done s Hc) as Hq. pose proof Hc as [Hcur Hf Htr Hk Hd Hid].
  destruct a; try done; ac_step He;
    try match goal with E : rs _ = _ |- _ => rewrite E in *; simpl in Hst end;
    try match goal with E : bool_decide _ = true |- _ => apply bool_decide_eq_true in E end;
    try (eapply callbacks_quiet; [done|by apply Hq|simpl; by auto..]).
  - split; simpl; try done.
    + intros tr pc. rewrite lookup_insert_Some. intros [[<- _]|[_ Hpc]] Hn; [done|]. by apply (Hq I) in Hpc.
    + intros tr Hin%Hf. rewrite lookup_insert_ne; [done|]. congruence.
    + intros tr Hin%Hk. rewrite lookup_insert_is_Some'. by right.
    + intros tr [= ->]. rewrite lookup_insert_eq. by eexists.
    + intros tr Hi Htr'. rewrite Hi in Hst. done.
  - split; simpl; try done. intros tr' pc Hpc Hn. by left.
  - split; simpl; [by eauto|done|by right| |done|intros; congruence].
    intros tr' [= <-]. by apply Hd.
  - split; simpl; [by eauto|done|by right| |done|done].
    intros tr' [= <-]. by apply Hd.
  - split; simpl; try done. intros tr' pc Hpc Hn. by rewrite <- (Hcur tr' pc Hpc Hn).
Qed.

Lemma callbacks_step a s s' : inv s → callbacks s → exec a s = Some s' → callbacks s'.
Proof.
  intros Hi Hc He. pose proof (iv_st _ Hi) as Hst.
  pose proof (λ Ha, callbacks_reset a s s' Hc Hst Ha He) as Hreset. destruct a; try exact (Hreset I);
    try (ac_step He; try destruct (StateManager.updateState _ _); by apply (callbacks_same s)).
  - simpl in He. apply bind_Some in He as (pc&Hpc&He).
    unfold afterWritePump in He. destruct pc; try done;
      try (apply lock_inv in He as [_ ->]); try (apply sent_inv in He as [_ ->]); simplify_eq;
      try (by eapply (callbacks_move tr _ _ s _ Hc Hst Hpc); try done; simpl; auto).
    eapply (callbacks_move tr _ CbPub s _ Hc Hst Hpc); try done; fields; auto.
  - assert (transport s' = transport s ∧ st s' = st s ∨ transport s' = None ∧ st s' = Shutdown) as Hts
      by (ac_step He; auto).
    assert (rs s' = rs s ∧ cbs s' = cbs s ∧ fired s' = fired s) as (Hr&Hcb&Hfi) by (ac_step He; done).
    destruct Hts as [[Ht Hs]|[Ht Hs]]; [by apply (callbacks_same s)|].
    destruct Hc as [Hcur Hf Htr Hk Hd Hid]. split; rewrite ?Ht, ?Hs, ?Hr, ?Hcb, ?Hfi; try done.
    + intros tr pc Hpc Hn. specialize (Hcur tr pc Hpc Hn). destruct (rs s); auto.
    + destruct (rs s); auto.
Qed.

Lemma addrconn_callbacks s : reachable exec init s → callbacks s.
Proof.
  apply (reachable_invariant_under exec inv callbacks init); [apply addrconn_reachable_inv|apply addrconn_init_callbacks|].
  intros a s1 s2. apply callbacks_step.
Qed.

(** [cc.addrConn] stays nil. *)
Lemma addrconn_closed_stays a s s' : exec a s = Some s' → closed_cc s = true → closed_cc s' = true.
Proof.
  intros He Hc. destruct a; ac_step He; simpl; try congruence; by destruct (StateManager.updateState _ _).
Qed.

(** The two effects of [Close], one after the other. *)
Lemma close_gap s s' :
  exec CallClose s = Some s' → closed_cc s = false →
  ∃ s1, exec CallerCancel s = Some s1 ∧ closed_cc s1 = closed_cc s ∧ td s1 = td s ∧
    cc_done s1 = true ∧ ac_done s1 = true ∧ exec CallClose s1 = Some s'.
Proof.
  simpl. unfold Close. intros He Hc. rewrite Hc in He.
  exists (set_done (closed_cc s) true true s). simpl. rewrite Hc.
  by split_and!; try done; destruct (rs s).
Qed.

(** *** The goroutines of [cc.wg] that follow the connection, after [Close] *)

(** [listenForConnectivityChange], [listenForRead] and every [handleRead] returned. *)
Record listeners_over (s : sys) : Prop := mkListenersOver {
  lo_change : lc s = LcExited;
  lo_listen : lr s = LrExited;
  lo_readers r pc : readers s !! r = Some pc → pc = HrExited;
}.

Definition listening (a : action) : Prop :=
  match a with ListenChange | ListenRead _ | ListenReadDone | Reader _ => True | _ => False end.

(** A run of these goroutines, which leaves [teardown] where it is. *)
Definition listens (n : nat) (s s' : sys) : Prop :=
  ∃ acts, run exec acts s = Some s' ∧ Forall listening acts ∧ length acts ≤ n ∧
    inv s' ∧ closed_cc s' = true ∧ cc_done s' = true ∧ td s' = td s.

Lemma listens_trans n m s s1 s2 : listens n s s1 → listens m s1 s2 → listens (n + m) s s2.
Proof.
  intros (l1&Hr1&Hf1&Hl1&_&_&_&Ht1) (l2&Hr2&Hf2&Hl2&?&?&?&Ht2). exists (l1 ++ l2).
  rewrite (run_then _ _ _ _ _ Hr1), length_app. split_and!; try done; [by apply Forall_app|lia|congruence].
Qed.

Lemma listens_refl s : inv s → closed_cc s = true → cc_done s = true → listens 0 s s.
Proof. intros. exists []. by split_and!. Qed.

Lemma listens_step a s s' :
  inv s → listening a → exec a s = Some s' → closed_cc s' = true → cc_done s' = true → td s' = td s → listens 1 s s'.
Proof.
  intros Hi Ha He Hc Hd Ht. exists [a]. rewrite (run_step _ _ _ _ _ He).
  split_and!; [done|by constructor|simpl; lia|by eapply addrconn_exec_inv|done..].
Qed.

Lemma listens_weaken n m s s' : n ≤ m → listens n s s' → listens m s s'.
Proof. intros Hnm (l&?&?&?&?&?&?&?). exists l. split_and!; try done. lia. Qed.

(** [listenForConnectivityChange] takes over the state it has and returns. *)
Lemma change_ends s :
  inv s → closed_cc s = true → cc_done s = true →
  ∃ s', listens 2 s s' ∧ lc s' = LcExited ∧ lr s' = lr s ∧ readers s' = readers s.
Proof.
  intros Hi Hc Hd.
  assert (∀ s, inv s → closed_cc s = true → cc_done s = true → lc s = LcSelect →
    listens 1 s (set_lc LcExited s)) as Hsel.
  { intros s0 Hi0 Hc0 Hd0 Hl. apply (listens_step ListenChange); try done.
    simpl. unfold listenForConnectivityChange. by rewrite Hl, Hd0. }
  destruct (lc s) as [|x|] eqn:Hl.
  - exists (set_lc LcExited s). split; [|done]. apply (listens_weaken 1); [lia|by apply Hsel].
  - destruct (StateManager.updateState_ok x (csm s) (iv_csm _ Hi)) as (m&Hm&_).
    set (s1 := set_lc LcSelect (set_csm m s)).
    assert (listens 1 s s1) as H1.
    { apply (listens_step ListenChange); try done. simpl. unfold listenForConnectivityChange. by rewrite Hl, Hm. }
    exists (set_lc LcExited s1). split; [|done]. apply (listens_trans 1 1 s s1); [done|].
    apply Hsel; try done. by destruct H1 as (?&_&_&_&?&_).
  - exists s. split; [|done]. apply (listens_weaken 0); [lia|by apply listens_refl].
Qed.

(** So does [listenForRead], which may start a last [handleRead] before. *)
Lemma listen_ends s :
  inv s → closed_cc s = true → cc_done s = true →
  ∃ s', listens 3 s s' ∧ lr s' = LrExited ∧ lc s' = lc s ∧ size (readers s') ≤ S (size (readers s)).
Proof.
  intros Hi Hc Hd.
  assert (∀ s ch, inv s → closed_cc s = true → cc_done s = true → lr s = LrWait ch →
    listens 1 s (set_lr LrExited s)) as Hwait.
  { intros s0 ch Hi0 Hc0 Hd0 Hl. apply (listens_step ListenReadDone); try done. simpl. by rewrite Hl, Hd0. }
  assert (∀ s, inv s → closed_cc s = true → cc_done s = true → lr s = LrGet →
    ∃ s', listens 2 s s' ∧ lr s' = LrExited ∧ lc s' = lc s ∧ readers s' = readers s) as Hget.
  { intros s0 Hi0 Hc0 Hd0 Hl. destruct (StateManager.getNotifyChan (csm s0)) as [ch m] eqn:Hg.
    set (s1 := set_lr (LrWait ch) (set_csm m s0)).
    assert (listens 1 s0 s1) as H1.
    { apply (listens_step (ListenRead 0)); try done. simpl. unfold listenForRead. by rewrite Hl, Hg. }
    exists (set_lr LrExited s1). split; [|done]. apply (listens_trans 1 1 s0 s1); [done|].
    apply (Hwait s1 ch); try done. by destruct H1 as (?&_&_&_&?&_). }
  destruct (lr s) as [|ch| |] eqn:Hl.
  - destruct (Hget s Hi Hc Hd Hl) as (s'&Hs'&?&?&Hrd). exists s'. split_and!; [|done..|rewrite Hrd; lia]. by apply (listens_weaken 2); [lia|].
  - exists (set_lr LrExited s). split; [|simpl; split_and!; [done..|lia]]. apply (listens_weaken 1); [lia|by apply (Hwait s ch)].
  - set (r := fresh (dom (readers s))).
    assert (readers s !! r = None) as Hr by (apply not_elem_of_dom, is_fresh).
    assert (∃ s1, listens 1 s s1 ∧ lr s1 = LrGet ∧ lc s1 = lc s ∧ size (readers s1) ≤ S (size (readers s)))
      as (s1&H1&Hl1&Hlc1&Hs1).
    { destruct (decide (StateManager.getState (csm s) = Ready)) as [He|He].
      - exists (set_lr LrGet (set_reader r HrStart s)).
        split; [|split_and!; [done..|simpl; by rewrite map_size_insert_None]].
        apply (listens_step (ListenRead r)); try done. simpl. unfold listenForRead. by rewrite Hl, decide_True, Hr.
      - exists (set_lr LrGet s). split; [|simpl; split_and!; [done..|lia]].
        apply (listens_step (ListenRead r)); try done. simpl. unfold listenForRead. by rewrite Hl, decide_False. }
    pose proof H1 as (?&_&_&_&Hi1&Hc1&Hd1&_).
    destruct (Hget s1 Hi1 Hc1 Hd1 Hl1) as (s'&Hs'&Hx&Hlc&Hrd). exists s'.
    split; [by apply (listens_trans 1 2 s s1)|]. by rewrite Hlc, Hrd.
  - exists s. split; [|split_and!; [done..|lia]]. apply (listens_weaken 0); [lia|by apply listens_refl].
Qed.

Definition reading (m : gmap nat hr_pc) : gmap nat hr_pc := filter (λ it, it.2 ≠ HrExited) m.

(** And every [handleRead]. *)
Lemma readers_end n s :
  inv s → closed_cc s = true → cc_done s = true → size (reading (readers s)) = n →
  ∃ s', listens n s s' ∧ (∀ r pc, readers s' !! r = Some pc → pc = HrExited) ∧
    lr s' = lr s ∧ lc s' = lc s.
Proof.
  revert s. induction n as [|n IH]; intros s Hi Hc Hd Hn.
  - exists s. split; [by apply listens_refl|]. split; [|done]. intros r pc Hr.
    apply dec_stable. intros Hpc. apply map_size_empty_inv in Hn.
    assert (reading (readers s) !! r = Some pc) as Hin by by apply map_lookup_filter_Some.
    by rewrite Hn in Hin.
  - assert (size (reading (readers s)) ≠ 0) as (r&pc&[Hr Hpc]%map_lookup_filter_Some)%map_size_ne_0_lookup by lia.
    simpl in Hpc. set (s1 := set_reader r HrExited s).
    assert (listens 1 s s1) as H1.
    { apply (listens_step (Reader r)); try done. simpl. rewrite Hr. simpl. unfold handleRead.
      destruct pc; [by rewrite Hc|by rewrite Hd|done]. }
    pose proof H1 as (?&_&_&_&Hi1&Hc1&Hd1&_).
    assert (size (reading (readers s1)) = n) as Hn1.
    { unfold reading, s1. simpl. rewrite map_filter_insert_False by (intros Hf; by apply Hf).
      rewrite map_filter_delete, map_size_delete_Some; [unfold reading in Hn; lia|].
      exists pc. by apply map_lookup_filter_Some. }
    destruct (IH s1 Hi1 Hc1 Hd1 Hn1) as (s'&Hs'&?&Hl&Hlc). exists s'.
    split; [by apply (listens_trans 1 n s s1)|]. done.
Qed.

(** All of them, one after the other. *)
Lemma listeners_end s :
  inv s → closed_cc s = true → cc_done s = true →
  ∃ s', listens (6 + size (readers s)) s s' ∧ listeners_over s'.
Proof.
  intros Hi Hc Hd. destruct (change_ends s Hi Hc Hd) as (s1&H1&Hl1&_&Hr1).
  pose proof H1 as (?&_&_&_&Hi1&Hc1&Hd1&_).
  destruct (listen_ends s1 Hi1 Hc1 Hd1) as (s2&H2&Hl2&Hlc2&Hr2).
  pose proof H2 as (?&_&_&_&Hi2&Hc2&Hd2&_).
  destruct (readers_end _ s2 Hi2 Hc2 Hd2 eq_refl) as (s3&H3&Hr3&Hl3&Hlc3).
  exists s3. split; [|split; congruence || done].
  apply (listens_weaken (2 + (3 + size (reading (readers s2))))).
  - rewrite <- Hr1. pose proof (map_size_filter (λ it, it.2 ≠ HrExited) (readers s2)). unfold reading. lia.
  - by eapply listens_trans; [|eapply listens_trans].
Qed.

(** ** Theorems *)

(** C32: Every step, of whatever goroutine, leaves the connection's state or moves it
    along the edges of its diagram; SHUTDOWN is never left. *)
Theorem addrconn_edges s a s' :
  reachable exec init s → exec a s = Some s' →
  st s' = st s ∨ edge (st s) (st s') = true.
Proof. intros Hi%addrconn_reachable_inv He. by apply (addrconn_step_edge a). Qed.

(** A READY connection has a transport, and one that is shut down has none, in
    this state and in every later one. *)
Theorem addrconn_transport s s' :
  reachable exec init s → reachable exec s s' →
  (st s = Ready → is_Some (transport s)) ∧
  (st s = Shutdown → st s' = Shutdown ∧ transport s' = None).
Proof.
  intros Hr Hr'. pose proof (addrconn_reachable_inv s Hr) as Hi. split; [apply Hi|].
  intros Hs. assert (inv s') as Hi'.
  { apply addrconn_reachable_inv. unfold reachable in *. by etrans. }
  assert (st s' = Shutdown) as Hs'; [|split; [done|by apply (iv_shut _ Hi')]].
  clear Hi' Hr. induction Hr' as [|s1 s2 s3 [a Ha] _ IH]; [done|].
  assert (inv s2) as Hi2 by by eapply addrconn_exec_inv.
  apply IH; [done|]. destruct (addrconn_step_edge a s1 s2 Hi Ha) as [->|He]; [done|].
  by rewrite Hs in He.
Qed.

(** While the connection's contexts live, what the [ClientConn] shows is the
    connection's state, but for one change being sent and one being applied. *)
Theorem addrconn_state_follows s :
  reachable exec init s → cc_done s = false →
  match pub s, lc s with
  | Some x, _ => st s = x
  | None, LcUpdate x => st s = x
  | None, _ => StateManager.getState (csm s) = st s
  end.
Proof.
  intros Hi%addrconn_reachable_inv Hd. pose proof (iv_follow _ Hi Hd) as Hf.
  unfold follows in Hf. destruct (pub s) as [x|] eqn:Hp; [by apply (iv_pub _ Hi)|].
  by destruct (lc s).
Qed.

(** ** Concrete runs *)

(** Dialling transport [tr], and bringing it up with all states applied. *)
Definition w_publish : list action := [Publish; ListenChange].
Definition w_connect : list action := [Connect] ++ w_publish ++ [Connect].
Definition w_up (tr : nat) : list action :=
  [Reset Go; Reset (Dialled (Some tr)); Reset Go] ++ w_publish ++ [Reset Go].

(** [Close] need not publish SHUTDOWN: the context is cancelled first, so the
    send may be given up and the listener may be gone.  The [ClientConn] then
    shows READY for ever, and [WaitForReady] on it returns true. *)
Theorem close_leaves_ready :
  ∃ s, reachable exec init s ∧ td s = DDown ∧ st s = Shutdown ∧
    ∀ s', reachable exec s s' → StateManager.getState (csm s') = Ready.
Proof.
  exists (final exec (w_connect ++ w_up 1 ++
    [CallClose; ListenChange; Teardown; PublishCancelled; Teardown; Teardown;
     Callback 1; Callback 1; Callback 1; Callback 1; Teardown; Reset Cancelled; Teardown]) init).
  split_and!; [at_state..|]. intros s' Hr.
  apply (frozen_forever Ready) in Hr as [_ ?]; [done|]. split; at_state.
Qed.

(** [listenForRead] asks for the notification channel only after it has handled
    the previous change, so a change in between is missed: the connection is up
    and shown READY, nothing is on its way, and no goroutine reads responses. *)
Theorem listen_for_read_misses_ready :
  ∃ s ch, reachable exec init s ∧ st s = Ready ∧ StateManager.getState (csm s) = Ready ∧
    pub s = None ∧ lc s = LcSelect ∧ cc_done s = false ∧ readers s = ∅ ∧
    lr s = LrWait ch ∧ bool_decide (ch ∈ StateManager.closed (csm s)) = false.
Proof.
  exists (final exec ([ListenRead 1; Connect; Publish; ListenChange; Connect;
    ListenRead 1; Reset Go; Reset (Dialled (Some 1)); Reset Go; ListenRead 1] ++ w_publish ++
    [Reset Go; ListenRead 1]) init).
  eexists. split_and!; [at_state..|]. at_state.
Qed.

(** A dial that succeeds while [Close] shuts the connection down leaves its
    transport running: nothing closes it, and every goroutine that could has
    ended. *)
Theorem close_leaks_dialled_transport :
  ∃ s, reachable exec init s ∧ td s = DDown ∧ rs s = RExited ∧
    cbs s !! 1 = Some CbLive ∧ bool_decide (1 ∈ tr_closed s) = false.
Proof.
  exists (final exec (w_connect ++ [Reset Go; Reset (Dialled (Some 1)); CallClose; Teardown;
    PublishCancelled; Teardown; Teardown; Reset Go; Teardown]) init).
  split_and!; at_state.
Qed.

(** [handleRead] ends with the [ClientConn] only: after a reconnect the reader of
    the ended transport is still there. *)
Theorem readers_outlive_transports :
  ∃ s, reachable exec init s ∧ st s = Ready ∧ transport s = Some 2 ∧
    cbs s !! 1 = Some CbDone ∧ readers s !! 1 = Some (HrRead 1) ∧ handleRead 1 (HrRead 1) s = None.
Proof.
  exists (final exec ([ListenRead 1] ++ w_connect ++ [ListenRead 1; ListenRead 1; ListenRead 1] ++
    w_up 1 ++ [ListenRead 1; ListenRead 1; Reader 1] ++
    [Callback 1; Callback 1; Publish; ListenChange; Callback 1; Callback 1; Reset Go;
     Reset Go; Publish; ListenChange; Reset (Dialled (Some 2)); Reset Go] ++ w_publish ++ [Reset Go])
    init).
  split_and!; at_state.
Qed.

(** A second [Close] dereferences the nil connection. *)
Theorem second_close_panics s :
  closed_cc s = true → starting (rs s) = false → exec CallClose s = Some (set_crash NilDeref s).
Proof. intros Hc Hs. simpl. unfold Close. rewrite Hc. by destruct (rs s). Qed.

(** ** Witnesses *)

Definition w_ready_state := final exec (w_connect ++ w_up 1) init.
Definition w_closed_state :=
  final exec (w_connect ++ w_up 1 ++ [CallClose; Teardown; PublishCancelled; Teardown]) init.

Lemma addrconn_edges_witness :
  ∃ s', exec (Callback 1) w_ready_state = Some s' ∧
    (st s' = st w_ready_state ∨ edge (st w_ready_state) (st s') = true).
Proof.
  eexists. split; [vm_compute; reflexivity|].
  apply (addrconn_edges w_ready_state (Callback 1)); [at_state|vm_compute; reflexivity].
Defined.

Lemma addrconn_transport_witness :
  is_Some (transport w_ready_state) ∧
  (st w_closed_state = Shutdown ∧ transport w_closed_state = None).
Proof.
  split.
  - destruct (addrconn_transport w_ready_state w_ready_state) as [Hr _];
      [at_state|apply rtc_refl|]. apply Hr. at_state.
  - apply (addrconn_transport w_closed_state w_closed_state); [at_state|apply rtc_refl|at_state].
Defined.

Lemma addrconn_state_follows_witness :
  StateManager.getState (csm w_ready_state) = st w_ready_state.
Proof.
  exact (addrconn_state_follows w_ready_state ltac:(at_state) ltac:(at_state)).
Defined.

Lemma second_close_panics_witness :
  exec CallClose w_closed_state = Some (set_crash NilDeref w_closed_state).
Proof. apply (second_close_panics w_closed_state); at_state. Defined.
End AddrConn.
