(* ===== verification/Backoff.v ===== *)
(** [internal/backoff/backoff.go]: the reconnection strategy, one object that
    every [ClientConn] of the process shares.

    The exponential backoff itself is [github.com/cenkalti/backoff], which is
    not part of the repository: its object and its two methods are an instance
    of [BackOff]. *)
From Stdlib Require Import QArith_base.
From S2P Require Import Prelude.

Module Backoff.

Record Config := mkConfig {
  BaseDelay : Z;
  Multiplier : Q;
  Jitter : Q;
  MaxDelay : Z;
}.

Definition defaultConfig : Config :=
  mkConfig (1 * second) (Qmake 16 10) (Qmake 2 10) (120 * second).

(** The exported fields of the library's [ExponentialBackOff]. *)
Record ExponentialBackOff := mkExponentialBackOff {
  InitialInterval : Z;
  LibMultiplier : Q;
  RandomizationFactor : Q;
  MaxInterval : Z;
  MaxElapsedTime : Z;
}.

(** The library: an object holds the configuration and some state; [NextBackOff]
    consumes a random number. *)
Class BackOff (B : Type) := {
  object : ExponentialBackOff → B;
  lib_NextBackOff : B → Z → Z * B;
  lib_Reset : B → B;
}.

Section Strategy.
Context `{BackOff B}.

Definition NewExponential (config : Config) : B :=
  lib_Reset (object (mkExponentialBackOff (BaseDelay config) (Multiplier config)
    (Jitter config) (MaxDelay config) 0)).

Definition DefaultExponential : B := NewExponential defaultConfig.

(** [Exponential]'s methods; each holds its mutex for the whole of it. *)
Definition NextBackOff (es : B) (rnd : Z) : Z * B := lib_NextBackOff es rnd.
Definition Reset (es : B) : B := lib_Reset es.

(** The calls that the connections make on the shared strategy, in the order in
    which they take its mutex: [resetTransport] asks for a wait at the top of
    every round and resets once it is connected. *)
Inductive call := AskWait (conn : nat) (rnd : Z) | Connected (conn : nat).

(** The strategy after the calls, and the waits it handed out. *)
Fixpoint run (calls : list call) (es : B) : list (nat * Z) * B :=
  match calls with
  | [] => ([], es)
  | AskWait c rnd :: calls =>
      let '(d, es) := NextBackOff es rnd in
      let '(ws, es) := run calls es in ((c, d) :: ws, es)
  | Connected c :: calls => run calls (Reset es)
  end.
End Strategy.

(** What the library documents: [Reset] leaves nothing of an object but its
    configuration, which no method changes. *)
Class BackOffLaws (B : Type) `{BackOff B} := {
  config_of : B → ExponentialBackOff;
  config_object c : config_of (object c) = c;
  config_next es rnd : config_of (lib_NextBackOff es rnd).2 = config_of es;
  config_reset es : config_of (lib_Reset es) = config_of es;
  reset_fresh es : lib_Reset es = lib_Reset (object (config_of es));
}.

Section Theorems.
Context `{BackOffLaws B}.

Lemma backoff_run_app pre post (es : B) :
  run (pre ++ post) es =
    let '(ws, es) := run pre es in let '(ws', es) := run post es in (ws ++ ws', es).
Proof.
  revert es. induction pre as [|[c rnd|c] pre IH]; intros es; simpl.
  - by destruct (run post es).
  - destruct (NextBackOff es rnd) as [d es']. rewrite IH.
    destruct (run pre es') as [ws es'']. by destruct (run post es'').
  - apply IH.
Qed.

Lemma run_config calls (es : B) : config_of (run calls es).2 = config_of es.
Proof.
  revert es. induction calls as [|[c rnd|c] calls IH]; intros es; simpl; [done|..].
  - unfold NextBackOff. pose proof (config_next es rnd) as Hc.
    destruct (lib_NextBackOff es rnd) as [d es'].
    specialize (IH es'). destruct (run calls es') as [ws es'']. simpl in *. congruence.
  - rewrite IH. apply config_reset.
Qed.

(** The same calls, all made by one connection. *)
Definition anonymous (e : call) : call :=
  match e with AskWait _ rnd => AskWait 0 rnd | Connected _ => Connected 0 end.

(** All connections share one strategy: when any of them connects, the waits of
    every other start over from the first, however often those have failed; and
    until one connects, each wait of one connection lengthens the next wait of
    any other as its own does. *)
Theorem backoff_shared config pre c post :
  let es : B := NewExponential config in
  (run (pre ++ Connected c :: post) es).1 = (run pre es).1 ++ (run post es).1 ∧
  ∀ calls, (run calls es).2 = (run (anonymous <$> calls) es).2.
Proof.
  simpl. split.
  - rewrite backoff_run_app. pose proof (run_config pre (NewExponential config)) as Hc.
    destruct (run pre (NewExponential config)) as [ws es]. simpl in *.
    assert (Reset es = NewExponential config) as ->.
    { unfold Reset. rewrite reset_fresh, Hc. unfold NewExponential at 1.
      by rewrite config_reset, config_object. }
    by destruct (run post (NewExponential config)).
  - intros calls. generalize (NewExponential config : B).
    induction calls as [|[c' r|c'] calls IH]; intros es; simpl; [done|..].
    + destruct (NextBackOff es r) as [d es']. specialize (IH es').
      destruct (run calls es') as [ws e1].
      change (list_fmap call call anonymous calls) with (anonymous <$> calls).
      by destruct (run (anonymous <$> calls) es').
    + apply IH.
Qed.
End Theorems.

(** ** A deterministic library *)

(** Doubling up to the maximum, without jitter. *)
Record toy := mkToy { toy_config : ExponentialBackOff; toy_interval : Z }.

#[global] Instance toy_lib : BackOff toy := {
  object c := mkToy c 0;
  lib_NextBackOff es _ :=
    (toy_interval es, mkToy (toy_config es) (Z.min (toy_interval es * 2) (MaxInterval (toy_config es))));
  lib_Reset es := mkToy (toy_config es) (InitialInterval (toy_config es));
}.

#[global] Instance toy_laws : BackOffLaws toy.
Proof. refine {| config_of := toy_config |}; intros; reflexivity. Defined.

(** The second connection fails three times, the first connects, and the second
    waits one second again. *)
Example shared_waits :
  (run [AskWait 2 0; AskWait 2 0; AskWait 1 0; Connected 1; AskWait 2 0] (DefaultExponential (B:=toy))).1 =
    [(2, second); (2, (2 * second)%Z); (1, (4 * second)%Z); (2, second)].
Proof. reflexivity. Qed.
End Backoff.
