(* ===== verification/Options.v ===== *)
(** [serveroptions.go] and [dialoptions.go]: the options, how [NewServer] and
    [DialWithContext] apply them, and what a transport made from the result is
    limited to.

    An option is a function on the options record and on the heap of
    [PublicKeys] objects, in which the credential options allocate; the
    inductive types list the options the package offers. *)
From S2P Require Import Prelude Credentials Keepalive.

Module Options.
Import Credentials.

Section Options.
(** The cryptographic parameters of [Credentials.TLS]. *)
Context {Signer : Type} (signer_of : bytes → Signer) (CreateCertificate : Signer → outcome bytes).

(** ** Server options *)

Record serverOptions := mkServerOptions {
  writeBufferSize : Z;
  readBufferSize : Z;
  creds : TransportCredentials;
  healthcheckAddr : string;
  healthcheckTimeout : Z;
  wsTimeout : Z;
  wsReadLimit : Z;
}.

Definition noCreds : TransportCredentials := NewTLS None None.

Definition defaultServerOptions : serverOptions :=
  mkServerOptions 4096 4096 noCreds "" (5 * second) (10 * second) 10000000.

Definition set_creds (c : TransportCredentials) (o : serverOptions) : serverOptions :=
  mkServerOptions (writeBufferSize o) (readBufferSize o) c (healthcheckAddr o)
    (healthcheckTimeout o) (wsTimeout o) (wsReadLimit o).

Definition WithHTTPReadTimeout (hctime wstime : Z) (o : serverOptions) : serverOptions :=
  mkServerOptions (writeBufferSize o) (readBufferSize o) (creds o) (healthcheckAddr o)
    hctime wstime (wsReadLimit o).

Definition WithWSReadLimit (numBytes : Z) (o : serverOptions) : serverOptions :=
  mkServerOptions (writeBufferSize o) (readBufferSize o) (creds o) (healthcheckAddr o)
    (healthcheckTimeout o) (wsTimeout o) numBytes.

Definition WriteBufferSize (s : Z) (o : serverOptions) : serverOptions :=
  mkServerOptions s (readBufferSize o) (creds o) (healthcheckAddr o)
    (healthcheckTimeout o) (wsTimeout o) (wsReadLimit o).

Definition ReadBufferSize (s : Z) (o : serverOptions) : serverOptions :=
  mkServerOptions (writeBufferSize o) s (creds o) (healthcheckAddr o)
    (healthcheckTimeout o) (wsTimeout o) (wsReadLimit o).

Definition WithHealthcheck (addr : string) (o : serverOptions) : serverOptions :=
  mkServerOptions (writeBufferSize o) (readBufferSize o) (creds o) addr
    (healthcheckTimeout o) (wsTimeout o) (wsReadLimit o).

(** The two credential options: on any error they return without a word.
    The keys may have been allocated by then. *)
Definition WithCreds (privKey : bytes) (pubKeys : list bytes) (o : serverOptions) (h : heap) :
    outcome (serverOptions * heap) :=
  match ValidPrivateKeyFromEd25519 privKey with
  | Err _ => Ok (o, h)
  | Panic p => Panic p
  | Ok privKey =>
      match ValidPublicKeysFromEd25519 pubKeys h with
      | Err _ => Ok (o, h)
      | Panic p => Panic p
      | Ok (pubs, h) =>
          match NewServerTLSConfig signer_of CreateCertificate privKey pubs with
          | Err _ => Ok (o, h)
          | Panic p => Panic p
          | Ok config => Ok (set_creds (NewTLS (Some config) (Some pubs)) o, h)
          end
      end
  end.

Definition WithSigner (signer : Signer) (pubKeys : list bytes) (o : serverOptions) (h : heap) :
    outcome (serverOptions * heap) :=
  match ValidPublicKeysFromEd25519 pubKeys h with
  | Err _ => Ok (o, h)
  | Panic p => Panic p
  | Ok (pubs, h) =>
      match NewServerTLSSigner CreateCertificate signer pubs with
      | Err _ => Ok (o, h)
      | Panic p => Panic p
      | Ok config => Ok (set_creds (NewTLS (Some config) (Some pubs)) o, h)
      end
  end.

(** The options [NewServer] can be given. *)
Inductive ServerOption :=
  | OptHTTPReadTimeout (hctime wstime : Z)
  | OptWSReadLimit (numBytes : Z)
  | OptCreds (privKey : bytes) (pubKeys : list bytes)
  | OptSigner (signer : Signer) (pubKeys : list bytes)
  | OptWriteBufferSize (s : Z)
  | OptReadBufferSize (s : Z)
  | OptHealthcheck (addr : string).

Definition server_apply (opt : ServerOption) (o : serverOptions) (h : heap) :
    outcome (serverOptions * heap) :=
  match opt with
  | OptHTTPReadTimeout hctime wstime => Ok (WithHTTPReadTimeout hctime wstime o, h)
  | OptWSReadLimit n => Ok (WithWSReadLimit n o, h)
  | OptCreds privKey pubKeys => WithCreds privKey pubKeys o h
  | OptSigner signer pubKeys => WithSigner signer pubKeys o h
  | OptWriteBufferSize s => Ok (WriteBufferSize s o, h)
  | OptReadBufferSize s => Ok (ReadBufferSize s o, h)
  | OptHealthcheck addr => Ok (WithHealthcheck addr o, h)
  end.

Fixpoint apply_server_options (opt : list ServerOption) (o : serverOptions) (h : heap) :
    outcome (serverOptions * heap) :=
  match opt with
  | [] => Ok (o, h)
  | opt :: opts => '(o, h) ← server_apply opt o h; apply_server_options opts o h
  end.

(** The options [NewServer] leaves in the server. *)
Definition NewServer (opt : list ServerOption) (h : heap) : outcome (serverOptions * heap) :=
  apply_server_options opt defaultServerOptions h.

(** The transport's configuration that [wshandler] builds from them. *)
Definition transport_config (o : serverOptions) : Keepalive.ServerConfig :=
  Keepalive.mkServerConfig (wsReadLimit o) (wsTimeout o).

(** [wssrv.ServeTLS(lis, "", "")]: with no certificate files, [net/http] serves
    only if the TLS configuration it is given holds a certificate.  [Serve]
    discards the error and waits on. *)
Definition serves (o : serverOptions) : bool :=
  match Config (creds o) with
  | Some c => bool_decide (Certificates c ≠ [])
  | None => false
  end.

(** ** Dial options *)

Record connectOptions := mkConnectOptions {
  WriteTimeout : Z;
  ReadLimit : Z;
  TransportCreds : TransportCredentials;
}.

(** [bs] is set by [DialWithContext] and not by an option. *)
Record dialOptions := mkDialOptions {
  copts : connectOptions;
  block : bool;
  logger : nat;
}.

(** The zero [ConnectOptions], and the default logger, here number 0. *)
Definition defaultDialOptions : dialOptions :=
  mkDialOptions (mkConnectOptions 0 0 noCreds) false 0.

Definition set_transport_creds (c : TransportCredentials) (o : dialOptions) : dialOptions :=
  mkDialOptions (mkConnectOptions (WriteTimeout (copts o)) (ReadLimit (copts o)) c)
    (block o) (logger o).

Definition WithTransportCreds (privKey serverPubKey : bytes) (o : dialOptions) (h : heap) :
    outcome (dialOptions * heap) :=
  privKey ← ValidPrivateKeyFromEd25519 privKey;
  '(pubs, h) ← ValidPublicKeysFromEd25519 [serverPubKey] h;
  config ← NewClientTLSConfig signer_of CreateCertificate privKey pubs;
  Ok (set_transport_creds (NewTLS (Some config) (Some pubs)) o, h).

Definition WithTransportSigner (signer : Signer) (serverPubKey : bytes) (o : dialOptions) (h : heap) :
    outcome (dialOptions * heap) :=
  '(pubs, h) ← ValidPublicKeysFromEd25519 [serverPubKey] h;
  config ← NewClientTLSSigner CreateCertificate signer pubs;
  Ok (set_transport_creds (NewTLS (Some config) (Some pubs)) o, h).

Definition WithBlock (o : dialOptions) : dialOptions := mkDialOptions (copts o) true (logger o).

Definition WithWriteTimeout (d : Z) (o : dialOptions) : dialOptions :=
  mkDialOptions (mkConnectOptions d (ReadLimit (copts o)) (TransportCreds (copts o)))
    (block o) (logger o).

Definition WithReadLimit (size : Z) (o : dialOptions) : dialOptions :=
  mkDialOptions (mkConnectOptions (WriteTimeout (copts o)) size (TransportCreds (copts o)))
    (block o) (logger o).

Definition WithLogger (lggr : nat) (o : dialOptions) : dialOptions :=
  mkDialOptions (copts o) (block o) lggr.

Inductive DialOption :=
  | OptTransportCreds (privKey serverPubKey : bytes)
  | OptTransportSigner (signer : Signer) (serverPubKey : bytes)
  | OptBlock
  | OptWriteTimeout (d : Z)
  | OptReadLimit (size : Z)
  | OptLogger (lggr : nat).

Definition dial_apply (opt : DialOption) (o : dialOptions) (h : heap) : outcome (dialOptions * heap) :=
  match opt with
  | OptTransportCreds privKey serverPubKey => WithTransportCreds privKey serverPubKey o h
  | OptTransportSigner signer serverPubKey => WithTransportSigner signer serverPubKey o h
  | OptBlock => Ok (WithBlock o, h)
  | OptWriteTimeout d => Ok (WithWriteTimeout d o, h)
  | OptReadLimit size => Ok (WithReadLimit size o, h)
  | OptLogger lggr => Ok (WithLogger lggr o, h)
  end.

(** The loop of [DialWithContext], from option number [i]. *)
Fixpoint apply_dial_options (i : nat) (opts : list DialOption) (o : dialOptions) (h : heap) :
    outcome (dialOptions * heap) :=
  match opts with
  | [] => Ok (o, h)
  | opt :: opts =>
      '(o, h) ← wrap_err ("dial option " +:+ pretty i +:+ " failed: ") (dial_apply opt o h);
      apply_dial_options (S i) opts o h
  end.

Definition dial_options (opts : list DialOption) (h : heap) : outcome (dialOptions * heap) :=
  apply_dial_options 0 opts defaultDialOptions h.

(** The fields that the transport's limits are computed from. *)
Definition connect_limits (o : dialOptions) : Keepalive.ConnectOptions :=
  Keepalive.mkConnectOptions (WriteTimeout (copts o)) (ReadLimit (copts o)).

(** ** Specifications

    What one option contributes to a field, and the last contribution. *)

Definition last_of {O A : Type} (f : O → option A) (d : A) (opts : list O) : A :=
  default d (last (omap f opts)).

Definition sets_timeouts (opt : ServerOption) : option (Z * Z) :=
  match opt with OptHTTPReadTimeout hc ws => Some (hc, ws) | _ => None end.
Definition sets_read_limit (opt : ServerOption) : option Z :=
  match opt with OptWSReadLimit n => Some n | _ => None end.
Definition sets_write_buffer (opt : ServerOption) : option Z :=
  match opt with OptWriteBufferSize s => Some s | _ => None end.
Definition sets_read_buffer (opt : ServerOption) : option Z :=
  match opt with OptReadBufferSize s => Some s | _ => None end.
Definition sets_healthcheck (opt : ServerOption) : option string :=
  match opt with OptHealthcheck a => Some a | _ => None end.

(** The certificate and the public keys of a credential option that is accepted:
    lengths in order, certificate made. *)
Definition accepted (signer : outcome Signer) (pubKeys : list bytes) : option (bytes * list bytes) :=
  match signer, check_lengths pubKeys with
  | Ok signer, Ok _ =>
      match CreateCertificate signer with Ok cert => Some (cert, pubKeys) | _ => None end
  | _, _ => None
  end.

Definition signer_of_key (privKey : bytes) : outcome Signer :=
  priv ← ValidPrivateKeyFromEd25519 privKey; Ok (signer_of (key priv)).

Definition sets_creds (opt : ServerOption) : option (bytes * list bytes) :=
  match opt with
  | OptCreds privKey pubKeys => accepted (signer_of_key privKey) pubKeys
  | OptSigner signer pubKeys => accepted (Ok signer) pubKeys
  | _ => None
  end.

Definition no_creds_panic : Prop := ∀ signer p, CreateCertificate signer ≠ Panic p.

(** The credentials hold this certificate and these keys, in this heap. *)
Definition creds_are (a : ClientAuthType) (ck : option (bytes * list bytes)) (c : TransportCredentials)
    (h : heap) : Prop :=
  match ck with
  | None => c = noCreds
  | Some (cert, pubs) => ∃ r,
      c = NewTLS (Some (mkConfig [cert] true VersionTLS13 VersionTLS13 r a)) (Some r) ∧
      objs h !! r = Some pubs
  end.

Lemma last_of_cons {O A} (f : O → option A) d opt opts :
  last_of f d (opt :: opts) = last_of f (default d (f opt)) opts.
Proof.
  unfold last_of. simpl. destruct (f opt) as [a|]; [|done].
  change (list_omap _ _ f opts) with (omap f opts).
  rewrite last_cons. by destruct (last (omap f opts)).
Qed.

(** The heap only grows. *)
Definition heap_grows (h h' : heap) : Prop :=
  heap_ok h' ∧ ∀ r v, objs h !! r = Some v → objs h' !! r = Some v.

Lemma alloc_grows v h : heap_ok h → heap_grows h (alloc v h).2.
Proof. split; [by apply alloc_heap_ok|]. intros r v'. by apply alloc_old. Qed.

Lemma creds_are_grow a ck c h h' : heap_grows h h' → creds_are a ck c h → creds_are a ck c h'.
Proof.
  intros [_ Hg]. destruct ck as [[cert pubs]|]; [|done]. intros (r&->&Hr). exists r. auto.
Qed.

(** Validating the keys and making the configuration, for any signer. *)
Lemma mutual_config signer pubKeys h :
  heap_ok h → no_creds_panic →
  match accepted (Ok signer) pubKeys with
  | Some (cert, pubs) => ∃ r h', ValidPublicKeysFromEd25519 pubKeys h = Ok (r, h') ∧
      heap_grows h h' ∧ objs h' !! r = Some pubs ∧
      newMutualTLSConfig CreateCertificate signer r =
        Ok (mkConfig [cert] true VersionTLS13 VersionTLS13 r NoClientCert)
  | None =>
      (∃ e, ValidPublicKeysFromEd25519 pubKeys h = Err e) ∨
      ∃ r h' e, ValidPublicKeysFromEd25519 pubKeys h = Ok (r, h') ∧ heap_grows h h' ∧
        newMutualTLSConfig CreateCertificate signer r = Err e
  end.
Proof.
  intros Hh Hc. specialize (Hc signer).
  unfold accepted, ValidPublicKeysFromEd25519, newMutualTLSConfig, newMinimalX509Cert.
  destruct (check_lengths pubKeys) as [[]|e|p] eqn:Hl; simpl.
  - destruct (CreateCertificate signer) as [cert|e|p] eqn:Hcert; simpl; [| |by destruct (Hc p)].
    + exists (alloc pubKeys h).1, (alloc pubKeys h).2.
      split_and!; [done|by apply alloc_grows|apply alloc_lookup|done].
    + right. exists (alloc pubKeys h).1, (alloc pubKeys h).2, e.
      split_and!; [done|by apply alloc_grows|done].
  - left. by exists e.
  - by destruct (check_lengths_no_panic _ _ Hl).
Qed.

Lemma with_creds_signer privKey pubKeys o h :
  WithCreds privKey pubKeys o h =
    match signer_of_key privKey with
    | Ok signer => WithSigner signer pubKeys o h
    | Err _ => Ok (o, h)
    | Panic p => Panic p
    end.
Proof.
  unfold WithCreds, signer_of_key. by destruct (ValidPrivateKeyFromEd25519 privKey).
Qed.

Lemma with_signer_step signer pubKeys o h ck :
  heap_ok h → no_creds_panic → creds_are RequireAnyClientCert ck (creds o) h →
  ∃ c h', WithSigner signer pubKeys o h = Ok (set_creds c o, h') ∧ heap_grows h h' ∧
    creds_are RequireAnyClientCert
      (match accepted (Ok signer) pubKeys with Some x => Some x | None => ck end) c h'.
Proof.
  intros Hh Hc Hck. pose proof (mutual_config signer pubKeys h Hh Hc) as Hm.
  assert (o = set_creds (creds o) o) as Ho by by destruct o.
  unfold WithSigner, NewServerTLSSigner. destruct (accepted _ _) as [[cert pubs]|].
  - destruct Hm as (r&h'&->&Hg&Hr&->). simpl. do 2 eexists. split_and!; [done|done|by exists r].
  - destruct Hm as [[e ->]|(r&h'&e&->&Hg&->)]; exists (creds o); eexists;
      (split_and!; [by rewrite <- Ho|done|by eapply creds_are_grow]).
Qed.

(** One server option: it always succeeds, and sets its field or none. *)
Lemma server_apply_step opt o h ck :
  heap_ok h → no_creds_panic → creds_are RequireAnyClientCert ck (creds o) h →
  ∃ o' h', server_apply opt o h = Ok (o', h') ∧ heap_grows h h' ∧
    creds_are RequireAnyClientCert
      (match sets_creds opt with Some x => Some x | None => ck end) (creds o') h' ∧
    (healthcheckTimeout o', wsTimeout o') =
      default (healthcheckTimeout o, wsTimeout o) (sets_timeouts opt) ∧
    wsReadLimit o' = default (wsReadLimit o) (sets_read_limit opt) ∧
    writeBufferSize o' = default (writeBufferSize o) (sets_write_buffer opt) ∧
    readBufferSize o' = default (readBufferSize o) (sets_read_buffer opt) ∧
    healthcheckAddr o' = default (healthcheckAddr o) (sets_healthcheck opt).
Proof.
  intros Hh Hc Hck.
  assert (heap_grows h h) as Hg by by split.
  destruct opt as [hc ws|n|privKey pubKeys|signer pubKeys|s|s|a]; cbn [server_apply sets_creds];
    try (do 2 eexists; split_and!; done).
  - rewrite with_creds_signer. destruct (signer_of_key privKey) as [s|e|p] eqn:Hs.
    + destruct (with_signer_step s pubKeys o h ck Hh Hc Hck) as (c&h'&->&?&?).
      do 2 eexists. split_and!; done.
    + do 2 eexists. split_and!; done.
    + exfalso. revert Hs. unfold signer_of_key, ValidPrivateKeyFromEd25519. by case_match.
  - destruct (with_signer_step signer pubKeys o h ck Hh Hc Hck) as (c&h'&->&?&?).
    do 2 eexists. split_and!; done.
Qed.

Lemma apply_server_options_spec opts o h ck :
  heap_ok h → no_creds_panic → creds_are RequireAnyClientCert ck (creds o) h →
  ∃ o' h', apply_server_options opts o h = Ok (o', h') ∧
    creds_are RequireAnyClientCert
      (match last (omap sets_creds opts) with Some x => Some x | None => ck end) (creds o') h' ∧
    (healthcheckTimeout o', wsTimeout o') = last_of sets_timeouts (healthcheckTimeout o, wsTimeout o) opts ∧
    wsReadLimit o' = last_of sets_read_limit (wsReadLimit o) opts ∧
    writeBufferSize o' = last_of sets_write_buffer (writeBufferSize o) opts ∧
    readBufferSize o' = last_of sets_read_buffer (readBufferSize o) opts ∧
    healthcheckAddr o' = last_of sets_healthcheck (healthcheckAddr o) opts.
Proof.
  intros Hh Hc. revert o h ck Hh. induction opts as [|opt opts IH]; intros o h ck Hh Hck.
  { by exists o, h. }
  destruct (server_apply_step opt o h ck Hh Hc Hck) as (o1&h1&Ha&[Hh1 _]&Hck1&E1&E2&E3&E4&E5).
  destruct (IH o1 h1 _ Hh1 Hck1) as (o2&h2&Ha2&Hck2&F1&F2&F3&F4&F5).
  exists o2, h2. cbn [apply_server_options]. rewrite Ha. simpl. rewrite !last_of_cons.
  rewrite <- E1, <- E2, <- E3, <- E4, <- E5. split_and!; [done| |done..].
  change (list_omap _ _ sets_creds opts) with (omap sets_creds opts).
  destruct (sets_creds opt) as [x|]; [|done]. simpl. rewrite last_cons.
  change (list_omap _ _ sets_creds opts) with (omap sets_creds opts).
  by destruct (last (omap sets_creds opts)).
Qed.

(** *** Dial options *)

Definition sets_transport_creds (opt : DialOption) : option (bytes * list bytes) :=
  match opt with
  | OptTransportCreds privKey serverPubKey => accepted (signer_of_key privKey) [serverPubKey]
  | OptTransportSigner signer serverPubKey => accepted (Ok signer) [serverPubKey]
  | _ => None
  end.
Definition sets_write_timeout (opt : DialOption) : option Z :=
  match opt with OptWriteTimeout d => Some d | _ => None end.
Definition sets_dial_read_limit (opt : DialOption) : option Z :=
  match opt with OptReadLimit n => Some n | _ => None end.
Definition sets_logger (opt : DialOption) : option nat :=
  match opt with OptLogger l => Some l | _ => None end.
Definition sets_block (opt : DialOption) : option bool :=
  match opt with OptBlock => Some true | _ => None end.

(** The error that a credential option reports: of the private key first, then
    of the server's key, then of making the certificate. *)
Definition refused_signer (signer : outcome Signer) (pubKeys : list bytes) : option error :=
  match signer with
  | Ok signer =>
      match check_lengths pubKeys with
      | Ok _ => match CreateCertificate signer with Err e => Some e | _ => None end
      | Err e => Some e
      | Panic _ => None
      end
  | Err e => Some e
  | Panic _ => None
  end.

Definition refused (opt : DialOption) : option error :=
  match opt with
  | OptTransportCreds privKey serverPubKey => refused_signer (signer_of_key privKey) [serverPubKey]
  | OptTransportSigner signer serverPubKey => refused_signer (Ok signer) [serverPubKey]
  | _ => None
  end.

Lemma with_transport_creds_signer privKey pub o h :
  WithTransportCreds privKey pub o h =
    (signer_of_key privKey ≫= λ signer, WithTransportSigner signer pub o h).
Proof.
  unfold WithTransportCreds, signer_of_key. by destruct (ValidPrivateKeyFromEd25519 privKey).
Qed.

Lemma with_transport_signer_step signer pub o h ck :
  heap_ok h → no_creds_panic → creds_are NoClientCert ck (TransportCreds (copts o)) h →
  match refused_signer (Ok signer) [pub] with
  | Some e => WithTransportSigner signer pub o h = Err e
  | None => ∃ c h', WithTransportSigner signer pub o h = Ok (set_transport_creds c o, h') ∧
      heap_grows h h' ∧
      creds_are NoClientCert
        (match accepted (Ok signer) [pub] with Some x => Some x | None => ck end) c h'
  end.
Proof.
  intros Hh Hc Hck. specialize (Hc signer).
  unfold WithTransportSigner, NewClientTLSSigner, newMutualTLSConfig, newMinimalX509Cert,
    ValidPublicKeysFromEd25519, refused_signer, accepted.
  destruct (check_lengths [pub]) as [[]|e|p] eqn:Hl; simpl;
    [|done|by destruct (check_lengths_no_panic _ _ Hl)].
  destruct (CreateCertificate signer) as [cert|e|p]; simpl; [|done|by destruct (Hc p)].
  do 2 eexists. split_and!; [done|by apply (alloc_grows [pub])|].
  eexists. split; [done|apply (alloc_lookup [pub])].
Qed.

(** One dial option: the error it reports, or the field it sets. *)
Lemma dial_apply_step opt o h ck :
  heap_ok h → no_creds_panic → creds_are NoClientCert ck (TransportCreds (copts o)) h →
  match refused opt with
  | Some e => dial_apply opt o h = Err e
  | None => ∃ o' h', dial_apply opt o h = Ok (o', h') ∧ heap_grows h h' ∧
      creds_are NoClientCert (match sets_transport_creds opt with Some x => Some x | None => ck end)
        (TransportCreds (copts o')) h' ∧
      WriteTimeout (copts o') = default (WriteTimeout (copts o)) (sets_write_timeout opt) ∧
      ReadLimit (copts o') = default (ReadLimit (copts o)) (sets_dial_read_limit opt) ∧
      block o' = default (block o) (sets_block opt) ∧
      logger o' = default (logger o) (sets_logger opt)
  end.
Proof.
  intros Hh Hc Hck.
  assert (heap_grows h h) as Hg by by split.
  destruct opt as [privKey pub|signer pub| |d|n|l]; cbn [dial_apply refused sets_transport_creds];
    try (do 2 eexists; split_and!; done).
  - rewrite with_transport_creds_signer. destruct (signer_of_key privKey) as [s|e|p] eqn:Hs.
    + pose proof (with_transport_signer_step s pub o h ck Hh Hc Hck) as Hw.
      destruct (refused_signer (Ok s) [pub]); [done|]. destruct Hw as (c&h'&Hw&?&?).
      do 2 eexists. split_and!; done.
    + done.
    + exfalso. revert Hs. unfold signer_of_key, ValidPrivateKeyFromEd25519. by case_match.
  - pose proof (with_transport_signer_step signer pub o h ck Hh Hc Hck) as Hw.
    destruct (refused_signer (Ok signer) [pub]); [done|]. destruct Hw as (c&h'&Hw&?&?).
    do 2 eexists. split_and!; done.
Qed.

Lemma apply_dial_options_ok i opts o h ck :
  heap_ok h → no_creds_panic → creds_are NoClientCert ck (TransportCreds (copts o)) h →
  Forall (λ opt, refused opt = None) opts →
  ∃ o' h', (∀ post, apply_dial_options i (opts ++ post) o h =
      apply_dial_options (i + length opts) post o' h') ∧ heap_ok h' ∧
    creds_are NoClientCert
      (match last (omap sets_transport_creds opts) with Some x => Some x | None => ck end)
      (TransportCreds (copts o')) h' ∧
    WriteTimeout (copts o') = last_of sets_write_timeout (WriteTimeout (copts o)) opts ∧
    ReadLimit (copts o') = last_of sets_dial_read_limit (ReadLimit (copts o)) opts ∧
    block o' = last_of sets_block (block o) opts ∧
    logger o' = last_of sets_logger (logger o) opts.
Proof.
  intros Hh Hc Hck Hr. revert i o h ck Hh Hck. induction Hr as [|opt opts Ho Hr IH]; intros i o h ck Hh Hck.
  { exists o, h. split_and!; try done. intros post. simpl. by rewrite Nat.add_0_r. }
  pose proof (dial_apply_step opt o h ck Hh Hc Hck) as Hs. rewrite Ho in Hs.
  destruct Hs as (o1&h1&Ha&[Hh1 _]&Hck1&E1&E2&E3&E4).
  destruct (IH (S i) o1 h1 _ Hh1 Hck1) as (o2&h2&Ha2&Hh2&Hck2&F1&F2&F3&F4).
  exists o2, h2. rewrite !last_of_cons, <- E1, <- E2, <- E3, <- E4. split_and!; try done.
  - intros post. simpl. rewrite Ha. simpl. rewrite Ha2. by rewrite <- Nat.add_succ_comm.
  - cbn [omap list_omap]. change (list_omap _ _ sets_transport_creds opts) with (omap sets_transport_creds opts).
    destruct (sets_transport_creds opt) as [x|]; [|done]. rewrite last_cons.
    by destruct (last (omap sets_transport_creds opts)).
Qed.

(** ** Theorems *)

(** [NewServer] never fails.  Each field is set by the last option for it, with
    the declared default if there is none; the credentials are those of the last
    credential option whose keys are valid, and the invalid ones are passed over
    in silence.  If none is valid the server has no certificate, and [Serve]
    serves nothing. *)
Theorem new_server_options opts h :
  heap_ok h → no_creds_panic →
  ∃ o h', NewServer opts h = Ok (o, h') ∧
    (healthcheckTimeout o, wsTimeout o) = last_of sets_timeouts (5 * second, 10 * second)%Z opts ∧
    wsReadLimit o = last_of sets_read_limit 10000000%Z opts ∧
    writeBufferSize o = last_of sets_write_buffer 4096%Z opts ∧
    readBufferSize o = last_of sets_read_buffer 4096%Z opts ∧
    healthcheckAddr o = last_of sets_healthcheck "" opts ∧
    creds_are RequireAnyClientCert (last (omap sets_creds opts)) (creds o) h' ∧
    (serves o = true ↔ Exists (λ opt, is_Some (sets_creds opt)) opts).
Proof.
  intros Hh Hc.
  destruct (apply_server_options_spec opts defaultServerOptions h None Hh Hc eq_refl)
    as (o&h'&Ha&Hck&E1&E2&E3&E4&E5).
  assert (creds_are RequireAnyClientCert (last (omap sets_creds opts)) (creds o) h') as Hck'
    by (revert Hck; by destruct (last (omap sets_creds opts))).
  exists o, h'. split_and!; try done. clear Hck.
  assert (Exists (λ opt, is_Some (sets_creds opt)) opts ↔ is_Some (last (omap sets_creds opts))) as ->.
  { rewrite last_is_Some, Exists_exists. split.
    - intros (opt&Hin&x&Hx) Hn. apply (not_elem_of_nil x). rewrite <- Hn.
      apply list_elem_of_omap. by exists opt.
    - destruct (omap sets_creds opts) as [|x l] eqn:Hl; [done|]. intros _.
      assert (x ∈ omap sets_creds opts) as Hx by (rewrite Hl; left).
      apply list_elem_of_omap in Hx as (opt&?&?). by exists opt. }
  unfold serves. destruct (last (omap sets_creds opts)) as [[cert pubs]|]; simpl in Hck'.
  - destruct Hck' as (r&->&_). simpl. split; [by eexists|by intros _].
  - rewrite Hck'. simpl. split; [done|by intros [? ?]].
Qed.

(** A server given a timeout of zero has a write timeout of ten seconds, and one
    given a read limit of zero has a limit ten times the server's default. *)
Theorem zero_server_options opts h o h' :
  heap_ok h → no_creds_panic → NewServer opts h = Ok (o, h') →
  let l := Keepalive.newWebsocketServerWithConfig (transport_config o) in
  ((last_of sets_timeouts (5 * second, 10 * second) opts).2 = 0 →
    Keepalive.writeTimeout l = 10 * second)%Z ∧
  (last_of sets_read_limit 10000000 opts = 0 →
    Keepalive.readLimit l = 10 * wsReadLimit defaultServerOptions)%Z.
Proof.
  intros Hh Hc Hn. simpl.
  destruct (apply_server_options_spec opts defaultServerOptions h None Hh Hc eq_refl)
    as (o1&h1&Ha&_&E1&E2&_).
  unfold NewServer in Hn. rewrite Ha in Hn. simplify_eq. simpl in *.
  rewrite <- E1, <- E2. simpl. split; intros ->; by rewrite decide_False by tauto.
Qed.

(** The options of [DialWithContext]: the first one that is refused ends the
    dial with an error that gives its number and its reason; if none is, each
    field is set by the last option for it, the credentials included. *)
Theorem dial_options_all_or_error opts h :
  heap_ok h → no_creds_panic →
  (∀ pre opt post e, opts = pre ++ opt :: post → Forall (λ opt, refused opt = None) pre →
    refused opt = Some e →
    dial_options opts h = Err (("dial option " +:+ pretty (length pre) +:+ " failed: ") +:+ e)) ∧
  (Forall (λ opt, refused opt = None) opts →
    ∃ o h', dial_options opts h = Ok (o, h') ∧
      WriteTimeout (copts o) = last_of sets_write_timeout 0%Z opts ∧
      ReadLimit (copts o) = last_of sets_dial_read_limit 0%Z opts ∧
      block o = last_of sets_block false opts ∧
      logger o = last_of sets_logger 0 opts ∧
      creds_are NoClientCert (last (omap sets_transport_creds opts)) (TransportCreds (copts o)) h').
Proof.
  intros Hh Hc. split.
  - intros pre opt post e -> Hpre He.
    destruct (apply_dial_options_ok 0 pre defaultDialOptions h None Hh Hc eq_refl Hpre)
      as (o&h'&Ha&Hh'&Hck&_).
    unfold dial_options. rewrite Ha. simpl.
    pose proof (dial_apply_step opt o h' _ Hh' Hc Hck) as Hs. rewrite He in Hs.
    by rewrite Hs.
  - intros Hall.
    destruct (apply_dial_options_ok 0 opts defaultDialOptions h None Hh Hc eq_refl Hall)
      as (o&h'&Ha&_&Hck&E1&E2&E3&E4).
    exists o, h'. split_and!; try done.
    + unfold dial_options. specialize (Ha []). by rewrite app_nil_r in Ha.
    + revert Hck. by destruct (last (omap sets_transport_creds opts)).
Qed.
End Options.

(** ** Witnesses *)

Lemma w_create_no_panic : no_creds_panic toy_create.
Proof. done. Qed.

Lemma heap0_ok : heap_ok heap0.
Proof. intros l v Hl. cbn in Hl. by rewrite lookup_empty in Hl. Qed.

Definition w_priv : bytes := key1 ++ key1.
Definition w_server_options : list (ServerOption (Signer:=bytes)) :=
  [OptWSReadLimit 0; OptCreds w_priv [key2]; OptHTTPReadTimeout 0 0; OptCreds w_priv [[x01]]].

Lemma new_server_options_witness :
  ∃ o h', NewServer toy_signer toy_create w_server_options heap0 = Ok (o, h') ∧
    wsTimeout o = 0%Z ∧ wsReadLimit o = 0%Z ∧ serves o = true.
Proof.
  destruct (new_server_options toy_signer toy_create w_server_options heap0 heap0_ok w_create_no_panic)
    as (o&h'&Hn&Ht&Hl&_&_&_&_&Hs).
  exists o, h'. split_and!; [exact Hn| |exact Hl|].
  - vm_compute in Ht. by injection Ht.
  - apply Hs. right. left. vm_compute. by eexists.
Defined.

Lemma zero_server_options_witness :
  ∃ o h', NewServer toy_signer toy_create w_server_options heap0 = Ok (o, h') ∧
    Keepalive.writeTimeout (Keepalive.newWebsocketServerWithConfig (transport_config o)) = (10 * second)%Z ∧
    Keepalive.readLimit (Keepalive.newWebsocketServerWithConfig (transport_config o)) = 100000000%Z.
Proof.
  destruct (new_server_options toy_signer toy_create w_server_options heap0 heap0_ok w_create_no_panic)
    as (o&h'&Hn&_).
  destruct (zero_server_options toy_signer toy_create w_server_options heap0 o h' heap0_ok w_create_no_panic Hn)
    as [Ht Hl].
  exists o, h'. split_and!; [exact Hn|by apply Ht|by rewrite Hl].
Defined.

Definition w_dial_options : list (DialOption (Signer:=bytes)) :=
  [OptBlock; OptTransportCreds w_priv [x01]; OptReadLimit 5].

Lemma dial_options_all_or_error_witness :
  dial_options toy_signer toy_create w_dial_options heap0 =
    Err "dial option 1 failed: invalid key length: 1, expected: 32".
Proof.
  refine (proj1 (dial_options_all_or_error toy_signer toy_create w_dial_options heap0 heap0_ok w_create_no_panic)
    [OptBlock] (OptTransportCreds w_priv [x01]) [OptReadLimit 5]
    "invalid key length: 1, expected: 32" eq_refl _ _).
  - by repeat constructor.
  - reflexivity.
Defined.
End Options.
