(* ===== verification/UniClient.v ===== *)
(** [uni_client.go]: the synchronous client, its reconnect loop and [Invoke].

    The connection, the timer and the context answer as the environment
    chooses; a loop consumes a list of those answers, one entry per iteration,
    and is still running ([None]) when the list is used up. *)
From S2P Require Import Prelude Message.

Module UniClient.
Import Message.

(** A connection, by its number. *)
Abbreviation Conn := nat (only parsing).

(** ** Reconnecting *)

Definition max (d1 d2 : Z) : Z := if decide (d1 > d2)%Z then d1 else d2.

(** The next [reconnectWait], in the arithmetic of [time.Duration]. *)
Definition next_wait (w : Z) : Z := max (wrap64 (w * 2)) (1 * minute).

(** One round: the dial succeeds, or fails and the [select] picks the timer or
    the context's error. *)
Inductive round := Connected (c : Conn) | TimerFired | CtxDone (e : error).

(** The loop with its current wait: the result, and the waits it began. *)
Fixpoint retry_loop (rounds : list round) (reconnectWait : Z) : option (outcome Conn) * list Z :=
  match rounds with
  | [] => (None, [])
  | Connected c :: _ => (Some (Ok c), [])
  | CtxDone e :: _ => (Some (Err e), [reconnectWait])
  | TimerFired :: rounds =>
      let '(r, ws) := retry_loop rounds (next_wait reconnectWait) in (r, reconnectWait :: ws)
  end.

Definition retryConnectWithBackoff (rounds : list round) : option (outcome Conn) * list Z :=
  retry_loop rounds second.

(** ** [Invoke] *)

Section Invoke.
Context {U : Type} `{ProtoLib U}.

(** One iteration of the loop: what the write answers, what the read answers if
    it comes to it, what [ctx.Err()] says after a failure, and what
    [connectFn] answers. *)
Record iteration := mkIter {
  io_write : outcome unit;
  io_read : outcome slice;
  ctx_err : option error;
  reconnect : outcome Conn;
}.

(** The loop: its result, the connection left, and the connections written to.
    A panic of a callee would leave it; the connections do not panic. *)
Fixpoint invoke_loop (its : list iteration) (conn : Conn) :
    option (outcome slice) * Conn * list Conn :=
  match its with
  | [] => (None, conn, [])
  | it :: its =>
      let retry :=
        match ctx_err it with
        | Some e => (Some (Err e), conn, [conn])
        | None =>
            match reconnect it with
            | Ok freshConn =>
                let '(r, c, l) := invoke_loop its freshConn in (r, c, conn :: l)
            | Err e => (Some (Err e), conn, [conn])
            | Panic p => (Some (Panic p), conn, [conn])
            end
        end in
      match io_write it with
      | Ok _ =>
          match io_read it with
          | Ok resBytes => (Some (Ok resBytes), conn, [conn])
          | Err _ => retry
          | Panic p => (Some (Panic p), conn, [conn])
          end
      | Err _ => retry
      | Panic p => (Some (Panic p), conn, [conn])
      end
  end.

(** After the loop. *)
Definition finish (resBytes : slice) (reply : any U) : outcome (proto_msg U) :=
  msg ← decode_envelope resBytes;
  match Exchange msg with
  | Some (Message_Response r) =>
      match resp_Payload r with
      | None => Err "response payload is nil"
      | Some p => UnmarshalProtoMessage (Some p) reply
      end
  | _ => Err "unexpected message type"
  end.

Definition prepare (callID method : string) (args : any U) : outcome slice :=
  req ← NewRequest callID method args;
  MarshalProtoMessage (AnyProto (PMessage req) : any U).

(** The whole call, with [connMu] held throughout: the result if it returns, the
    connection left, and the bytes written to each connection in turn. *)
Definition Invoke (callID method : string) (args reply : any U) (its : list iteration)
    (conn : Conn) : option (outcome (proto_msg U)) * Conn * list (Conn * slice) :=
  match prepare callID method args with
  | Err e => (Some (Err e), conn, [])
  | Panic p => (Some (Panic p), conn, [])
  | Ok reqBytes =>
      let '(r, c, l) := invoke_loop its conn in
      ((λ o, o ≫= λ resBytes, finish resBytes reply) <$> r, c, (λ c, (c, reqBytes)) <$> l)
  end.
End Invoke.

(** ** The waits *)

Fixpoint wait_after (n : nat) : Z :=
  match n with O => second | S n => next_wait (wait_after n) end.

Definition wait_closed (n : nat) : Z :=
  match n with O => second | S n => (minute * 2 ^ Z.of_nat (n `mod` 28))%Z end.

(** One doubling of the closed form: it stays in range for 28 steps, then wraps
    below zero and starts over at a minute. *)
Lemma next_wait_closed k :
  k < 28 → next_wait (minute * 2 ^ Z.of_nat k) = (minute * 2 ^ Z.of_nat (S k `mod` 28))%Z.
Proof.
  intros Hk. do 28 (destruct k as [|k]; [vm_compute; reflexivity|]). lia.
Qed.

Lemma wait_after_closed n : wait_after n = wait_closed n.
Proof.
  induction n as [|n IH]; [done|]. cbn [wait_after]. rewrite IH. clear IH.
  destruct n as [|n]; [vm_compute; reflexivity|]. unfold wait_closed.
  pose proof (Nat.div_mod n 28 ltac:(lia)) as Hd.
  pose proof (Nat.mod_upper_bound n 28 ltac:(lia)) as Hm.
  rewrite (next_wait_closed _ Hm). f_equal. f_equal. f_equal.
  replace (S n) with (S (n `mod` 28) + n `div` 28 * 28) by lia.
  by rewrite Nat.Div0.mod_add.
Qed.

Lemma wait_closed_range n : (second ≤ wait_closed n < 2^63)%Z.
Proof.
  destruct n as [|n]; [by vm_compute|]. unfold wait_closed.
  pose proof (Nat.mod_upper_bound n 28 ltac:(lia)) as Hm.
  pose proof (Z.pow_pos_nonneg 2 (Z.of_nat (n `mod` 28)) ltac:(lia) ltac:(lia)).
  pose proof (Z.pow_le_mono_r 2 (Z.of_nat (n `mod` 28)) 27 ltac:(lia) ltac:(lia)).
  revert H H0. generalize (2 ^ Z.of_nat (n `mod` 28))%Z. intros z ??.
  unfold minute, second in *. change (2^27)%Z with 134217728%Z in *. lia.
Qed.

Lemma retry_loop_waits n k rounds r ws :
  retry_loop rounds (wait_after k) = (r, ws) → n < length ws →
  ws !! n = Some (wait_after (k + n)).
Proof.
  revert n k r ws. induction rounds as [|[c| |e] rounds IH]; intros n k r ws Hr Hn; simpl in Hr.
  - simplify_eq/=. lia.
  - simplify_eq/=. lia.
  - destruct (retry_loop rounds (next_wait (wait_after k))) as [r' ws'] eqn:Hl. simplify_eq/=.
    destruct n as [|n]; simpl; [by rewrite Nat.add_0_r|].
    rewrite (IH n (S k) _ _ Hl) by lia. f_equal. f_equal. lia.
  - simplify_eq/=. destruct n; [|lia]. by rewrite Nat.add_0_r.
Qed.

(** ** Theorems *)

(** The waits between connection attempts are one second, then a minute doubling
    each time, to more than two hundred years, until the doubling overflows and
    the sequence starts over at a minute: no wait is negative or zero, and the
    minute is a lower bound, not a cap. *)
Theorem reconnect_waits rounds r ws n :
  retryConnectWithBackoff rounds = (r, ws) → n < length ws →
  ws !! n = Some (wait_closed n) ∧ (second ≤ wait_closed n < 2^63)%Z.
Proof.
  intros Hr Hn. split; [|apply wait_closed_range].
  rewrite <- wait_after_closed. by apply (retry_loop_waits n 0 rounds r ws).
Qed.

(** The reconnect loop ends exactly when a dial succeeds or the context's end is
    picked, with the result of the first of the two. *)
Theorem reconnect_returns rounds :
  match (retryConnectWithBackoff rounds).1 with
  | None => Forall (eq TimerFired) rounds
  | Some o => ∃ k rest, rounds = replicate k TimerFired ++
      (match o with Ok c => [Connected c] | Err e => [CtxDone e] | Panic _ => [] end) ++ rest ∧
      ∀ p, o ≠ Panic p
  end.
Proof.
  unfold retryConnectWithBackoff. generalize second.
  induction rounds as [|[c| |e] rounds IH]; intros w; simpl.
  - constructor.
  - exists 0, rounds. done.
  - specialize (IH (next_wait w)). destruct (retry_loop rounds (next_wait w)) as [[o|] ws]; simpl in *.
    + destruct IH as (k&rest&->&?). by exists (S k), rest.
    + by constructor.
  - exists 0, rounds. done.
Qed.

Section Theorems.
Context {U : Type} `{ProtoLaws U}.

(** A failure after which [Invoke] goes round again. *)
Definition retried (it : iteration) (c : Conn) : Prop :=
  ((∃ e, io_write it = Err e) ∨ (∃ u e, io_write it = Ok u ∧ io_read it = Err e)) ∧
  ctx_err it = None ∧ reconnect it = Ok c.

Definition answered (it : iteration) (b : slice) : Prop :=
  (∃ u, io_write it = Ok u) ∧ io_read it = Ok b.

(** However many connections fail it, [Invoke] sends the same bytes, so the same
    call id, to each in turn, and returns what it makes of the first answer;
    [cs] are the connections it makes on the way. *)
Theorem uni_invoke_retries callID method args reply its cs it rest b conn reqBytes :
  prepare callID method args = Ok reqBytes →
  Forall2 retried its cs → answered it b →
  ∃ last, Invoke callID method args reply (its ++ it :: rest) conn =
    (Some (finish b reply), last, (λ c, (c, reqBytes)) <$> (conn :: cs)).
Proof.
  intros Hp Hits [[u Hw] Hr]. unfold Invoke. rewrite Hp.
  assert (∃ last, invoke_loop (its ++ it :: rest) conn = (Some (Ok b), last, conn :: cs))
    as (last&->); [|by exists last].
  revert conn. induction Hits as [|it' c its' cs' [Hf [Hc Hre]] _ IH]; intros conn; simpl.
  - rewrite Hw, Hr. by exists conn.
  - destruct (IH c) as (last&Hl). rewrite Hc, Hre, Hl. exists last.
    destruct Hf as [[e ->]|(u'&e&->&->)]; done.
Qed.

(** What [Invoke] makes of a response: the error the remote method returned is
    never reported.  A response with a non-empty payload reads as success, and
    one whose payload is empty as "response payload is nil". *)
Theorem uni_finish_ignores_error callID u herr out msg b pl :
  NewResponse callID (AnyProto (PUser u)) herr = Ok msg → MarshalMessage msg = Ok b →
  MarshalUser u = Ok pl → same_type u out →
  finish b (AnyProto (PUser out)) =
    match norm_slice pl with
    | None => Err "response payload is nil"
    | Some _ => Ok (PUser (decoded u))
    end.
Proof.
  intros (pl'&Hpl'&[= <-])%bind_ok_inv Hb Hpl Ht. simpl in Hpl'. rewrite Hpl in Hpl'.
  simplify_eq. unfold finish. rewrite decode_envelope_eq, (unmarshal_message _ _ Hb). simpl.
  destruct (norm_slice pl') as [p|] eqn:Hn; simpl; [|done].
  rewrite <- Hn, unmarshal_norm. by rewrite (unmarshal_user _ _ _ Ht Hpl).
Qed.
End Theorems.

(** ** Witnesses *)

Lemma reconnect_waits_witness :
  [second; minute] !! 1 = Some (wait_closed 1) ∧ (second ≤ wait_closed 1 < 2^63)%Z.
Proof.
  apply (reconnect_waits [TimerFired; TimerFired; Connected 3] (Some (Ok 3)) [second; minute] 1);
    [vm_compute; reflexivity|simpl; lia].
Defined.

Definition w_failing : iteration := mkIter (Err "broken pipe") (Err "") None (Ok 5).
Definition w_answer : slice :=
  Some (Toy.encode (mkMessage (Some (Message_Response (mkResponse "id1" (Some (Toy.str "pong")) "oops"))))).
Definition w_answering : iteration := mkIter (Ok tt) (Ok w_answer) None (Err "").
Definition w_request : slice :=
  Some (Toy.encode (mkMessage (Some (Message_Request (mkRequest "Ping" "id1" (Some (Toy.str "hi"))))))).

Lemma uni_invoke_retries_witness :
  ∃ last, Invoke "id1" "Ping" (toy_user "hi") (toy_user "") [w_failing; w_answering] 4 =
    (Some (Ok (PUser (Some "pong"))), last, [(4, w_request); (5, w_request)]).
Proof.
  destruct (uni_invoke_retries (U:=Toy.U) "id1" "Ping" (toy_user "hi") (toy_user "") [w_failing] [5]
    w_answering [] w_answer 4 w_request) as (last&Hl).
  - vm_compute. reflexivity.
  - constructor; [|constructor]. split; [left; by exists "broken pipe"|done].
  - split; [by exists tt|done].
  - exists last. exact Hl.
Defined.

Lemma uni_finish_ignores_error_witness :
  finish (U:=Toy.U) w_answer (AnyProto (PUser None)) = Ok (PUser (Some "pong")).
Proof.
  refine (eq_trans (uni_finish_ignores_error (U:=Toy.U) "id1" (Some "pong") (Some "oops") None
    (mkMessage (Some (Message_Response (mkResponse "id1" (Some (Toy.str "pong")) "oops"))))
    w_answer (Some (Toy.str "pong")) _ _ _ _) _); [vm_compute; reflexivity..|exact I|].
  vm_compute. reflexivity.
Defined.
End UniClient.
