(* ===== verification/Protogen.v ===== *)
(** What the two code generators use of [protogen] and of Go's strings: the
    descriptors they are given, the file they print to, and functions that read
    a printed file back.

    A [protogen.GeneratedFile] is the list of what [g.P] was called with, each
    argument list joined to one chunk and ended by a newline; imports and
    formatting, which protogen adds later, are left out.
    [QualifiedGoIdent], which depends on those imports, is a parameter. *)
From S2P Require Import Prelude.
From Stdlib Require Import Ascii.

Module Protogen.

(** ** Strings *)

Definition nl : ascii := "010"%char.
Definition dq : ascii := "034"%char.

Definition cat (vs : list string) : string := foldr String.append "" vs.

(** A character as a string. *)
Definition chr (c : ascii) : string := String c "".

Fixpoint all_chars (p : ascii → bool) (s : string) : bool :=
  match s with "" => true | String c s => p c && all_chars p s end.

(** Letters, digits and the underscore, which Go identifiers are made of; and
    the dot as well, in qualified names. *)
Definition is_upper (c : ascii) : bool :=
  (65 <=? nat_of_ascii c)%nat && (nat_of_ascii c <=? 90)%nat.
Definition is_lower (c : ascii) : bool :=
  (97 <=? nat_of_ascii c)%nat && (nat_of_ascii c <=? 122)%nat.
Definition is_digit (c : ascii) : bool :=
  (48 <=? nat_of_ascii c)%nat && (nat_of_ascii c <=? 57)%nat.
Definition ident_char (c : ascii) : bool :=
  is_upper c || is_lower c || is_digit c || Ascii.eqb c "_".
Definition name_char (c : ascii) : bool := ident_char c || Ascii.eqb c ".".

Definition ident (s : string) : bool := all_chars ident_char s.
Definition name (s : string) : bool := all_chars name_char s.
Definition quotable (s : string) : bool := all_chars (λ c, negb (Ascii.eqb c dq)) s.
Definition one_line (s : string) : bool := all_chars (λ c, negb (Ascii.eqb c nl)) s.

(** [strings.ToLower] of a string of one byte; a byte that is no character of
    its own becomes U+FFFD. *)
Definition ToLower1 (c : ascii) : string :=
  if is_upper c then chr (ascii_of_nat (nat_of_ascii c + 32))
  else if (nat_of_ascii c <? 128)%nat then chr c
  else cat [chr "239"; chr "191"; chr "189"].

(** [strconv.Quote] of an ASCII string. *)
Definition hex_digit (n : nat) : ascii :=
  ascii_of_nat (if (n <? 10)%nat then 48 + n else 87 + n).

Definition quote_char (c : ascii) : string :=
  if Ascii.eqb c dq || Ascii.eqb c "\" then cat [chr "\"; chr c]
  else
    match nat_of_ascii c with
    | 7 => "\a" | 8 => "\b" | 9 => "\t" | 10 => "\n" | 11 => "\v" | 12 => "\f" | 13 => "\r"
    | n =>
        if (n <? 32)%nat || (n =? 127)%nat
        then cat ["\x"; chr (hex_digit (n / 16)); chr (hex_digit (n mod 16))]
        else chr c
    end.

Fixpoint quote_body (s : string) : string :=
  match s with "" => "" | String c s => quote_char c +:+ quote_body s end.

Definition Quote (s : string) : string := cat [chr dq; quote_body s; chr dq].

(** [strings.Join]. *)
Fixpoint Join (vs : list string) (sep : string) : string :=
  match vs with
  | [] => ""
  | [v] => v
  | v :: vs => cat [v; sep; Join vs sep]
  end.

(** ** Descriptors *)

Record GoIdent := mkGoIdent { GoImportPath : string; GoName : string }.

(** [Leading] holds the lines of the leading comment; [m_Name] is
    [Desc.Name()]. *)
Record Method := mkMethod {
  m_GoName : string;
  m_Name : string;
  m_Input : GoIdent;
  m_Output : GoIdent;
  m_Leading : list string;
}.

Record Service := mkService {
  s_GoName : string;
  s_FullName : string;    (* [Desc.FullName()] *)
  s_Methods : list Method;
}.

Record File := mkFile {
  GeneratedFilenamePrefix : string;
  f_GoImportPath : string;
  GoPackageName : string;
  ProtoName : string;     (* [Proto.GetName()] *)
  Generate : bool;
  Services : list Service;
}.

Record Version := mkVersion { Major : Z; Minor : Z; Patch : Z; Suffix : string }.

(** [Comments.String()]. *)
Definition print_comments (ls : list string) : string := cat ((λ l, cat ["//"; l; chr nl]) <$> ls).

(** ** Printing *)

Record GeneratedFile := mkGenerated { filename : string; importPath : string; content : string }.

Definition gen := outcome (list string).

Definition P (vs : list string) : gen := Ok [cat vs].

Definition seq (a b : gen) : gen := l ← a; l' ← b; Ok (l ++ l').

Fixpoint for_each {A} (xs : list A) (body : A → gen) : gen :=
  match xs with [] => Ok [] | x :: xs => seq (body x) (for_each xs body) end.

Definition text (chunks : list string) : string := cat ((λ c, cat [c; chr nl]) <$> chunks).

(** ** Reading *)

Fixpoint lines_of (s : string) : list string :=
  match s with
  | "" => [""]
  | String c s =>
      if Ascii.eqb c nl then "" :: lines_of s
      else match lines_of s with l :: ls => String c l :: ls | [] => [String c ""] end
  end.

Fixpoint strip_prefix (p s : string) : option string :=
  match p, s with
  | "", s => Some s
  | String a p, String b s => if Ascii.eqb a b then strip_prefix p s else None
  | _, _ => None
  end.

(** A line without its indentation. *)
Fixpoint trim (s : string) : string :=
  match s with
  | String c s' => if Ascii.eqb c "009" || Ascii.eqb c " " then trim s' else s
  | "" => ""
  end.

(** What comes before the first [c], and after it. *)
Fixpoint until (c : ascii) (s : string) : option (string * string) :=
  match s with
  | "" => None
  | String a s =>
      if Ascii.eqb a c then Some ("", s)
      else '(b, r) ← until c s; Some (String a b, r)
  end.

(** Read every line of what a generator prints. *)
Definition reads {B} (f : string → option B) (o : gen) : outcome (list B) :=
  chunks ← o; Ok (omap f (chunks ≫= lines_of)).

(** [g.P(..)] after [g.P(..)]. *)
Declare Scope gen_scope.
Delimit Scope gen_scope with gen.
Infix ";>" := seq (at level 100, right associativity) : gen_scope.

(** ** Lemmas on strings *)

Lemma app_cons_string c s t : String c s +:+ t = String c (s +:+ t).
Proof. done. Qed.

Lemma app_nil_l_string s : "" +:+ s = s.
Proof. done. Qed.

Lemma app_nil_r_string s : s +:+ "" = s.
Proof. induction s as [|c s IH]; [done|]. by rewrite app_cons_string, IH. Qed.

Lemma app_assoc_string s1 s2 s3 : (s1 +:+ s2) +:+ s3 = s1 +:+ s2 +:+ s3.
Proof. induction s1 as [|c s1 IH]; [done|]. by rewrite !app_cons_string, IH. Qed.

Lemma app_chr_inj a b c d : a +:+ chr c = b +:+ chr d → a = b ∧ c = d.
Proof.
  unfold chr. revert b. induction a as [|x a IHa]; intros [|y b];
    rewrite ?app_cons_string, ?app_nil_l_string; intros Hab.
  - by injection Hab.
  - by destruct b.
  - by destruct a.
  - injection Hab as -> Hab. by destruct (IHa _ Hab) as [-> ->].
Qed.

Lemma app_inj_l_string s t u : s +:+ u = t +:+ u → s = t.
Proof.
  revert s t. induction u as [|c u IH]; intros a b; [by rewrite !app_nil_r_string|].
  assert (∀ a, a +:+ String c u = (a +:+ chr c) +:+ u) as Hr by (intros; by rewrite app_assoc_string).
  rewrite !Hr. by intros [? _]%IH%app_chr_inj.
Qed.

Lemma app_inj_r_string s t u : s +:+ t = s +:+ u → t = u.
Proof. induction s as [|c s IH]; [done|]. rewrite !app_cons_string. by intros [= ?%IH]. Qed.

Lemma cat_inj_cons v vs ws : cat (v :: vs) = cat (v :: ws) → cat vs = cat ws.
Proof. apply app_inj_r_string. Qed.

Lemma cat_cons v vs : cat (v :: vs) = v +:+ cat vs.
Proof. done. Qed.

Lemma cat_one v : cat [v] = v.
Proof. apply app_nil_r_string. Qed.

Lemma all_chars_app p s t : all_chars p (s +:+ t) = all_chars p s && all_chars p t.
Proof. induction s as [|c s IH]; [done|]. rewrite app_cons_string. simpl. rewrite IH. by destruct (p c). Qed.

Lemma all_chars_cat p vs : all_chars p (cat vs) = forallb (all_chars p) vs.
Proof.
  induction vs as [|v vs IH]; [done|]. rewrite cat_cons, all_chars_app, IH. done.
Qed.

Lemma all_chars_mono (p q : ascii → bool) s :
  (∀ c, p c = true → q c = true) → all_chars p s = true → all_chars q s = true.
Proof.
  intros Hpq. induction s as [|c s IH]; [done|]. cbn.
  rewrite !andb_true_iff. naive_solver.
Qed.

Lemma name_one_line s : name s = true → one_line s = true.
Proof.
  apply all_chars_mono. intros c Hc. destruct (Ascii.eqb_spec c nl) as [->|]; done.
Qed.

Lemma name_quotable s : name s = true → quotable s = true.
Proof.
  apply all_chars_mono. intros c Hc. destruct (Ascii.eqb_spec c dq) as [->|]; done.
Qed.

Lemma ident_name s : ident s = true → name s = true.
Proof. apply all_chars_mono. intros c. unfold name_char. by intros ->. Qed.

Lemma name_not_char c s : name (String c s) = true → name_char c = true ∧ name s = true.
Proof. unfold name. cbn. by rewrite andb_true_iff. Qed.

(** *** Reading *)

Lemma strip_prefix_app p s : strip_prefix p (p +:+ s) = Some s.
Proof. induction p as [|c p IH]; [done|]. rewrite app_cons_string. simpl. by rewrite Ascii.eqb_refl. Qed.

(** A prefix with a character that no identifier has, other than an opening
    parenthesis, is not the start of an identifier and a parenthesis. *)
Fixpoint not_a_call (p : string) : bool :=
  match p with
  | "" => false
  | String c p => if ident_char c then not_a_call p else negb (Ascii.eqb c "(")
  end.

Lemma strip_prefix_call p a r :
  not_a_call p = true → ident a = true → strip_prefix p (a +:+ String "(" r) = None.
Proof.
  revert a. induction p as [|c p IH]; intros a Hp Ha; [done|]. cbn in Hp.
  destruct a as [|b a]; rewrite ?app_nil_l_string, ?app_cons_string; cbn.
  - destruct (Ascii.eqb_spec c "(") as [->|]; [|done]. done.
  - unfold ident in Ha. cbn in Ha. apply andb_true_iff in Ha as [Hb Ha].
    destruct (Ascii.eqb_spec c b) as [->|]; [|done]. rewrite Hb in Hp. by apply IH.
Qed.

Lemma until_free c a r :
  all_chars (λ b, negb (Ascii.eqb b c)) a = true → until c (a +:+ String c r) = Some (a, r).
Proof.
  induction a as [|b a IH]; cbn; intros Ha.
  - rewrite app_nil_l_string. cbn. by rewrite Ascii.eqb_refl.
  - apply andb_true_iff in Ha as [Hb%negb_true_iff Ha]. rewrite app_cons_string. cbn.
    by rewrite Hb, (IH Ha).
Qed.

Lemma until_name c a r :
  name_char c = false → name a = true → until c (a +:+ String c r) = Some (a, r).
Proof.
  intros Hc Ha. apply until_free. revert Ha. apply all_chars_mono. intros b Hb.
  destruct (Ascii.eqb_spec b c) as [->|]; [congruence|done].
Qed.

Lemma quote_char_name c : name_char c = true → quote_char c = chr c.
Proof.
  destruct c as [[] [] [] [] [] [] [] []]; vm_compute; (discriminate || reflexivity).
Qed.

Lemma quote_name s : name s = true → Quote s = chr dq +:+ s +:+ chr dq.
Proof.
  intros Hs. unfold Quote. rewrite !cat_cons. do 2 f_equal.
  induction s as [|c s IH]; [done|]. apply name_not_char in Hs as [Hc Hs]. cbn [quote_body].
  by rewrite (IH Hs), (quote_char_name _ Hc).
Qed.

(** *** Lines *)

Lemma lines_of_nonempty s : lines_of s ≠ [].
Proof. destruct s as [|c s]; [done|]. cbn. destruct (Ascii.eqb c nl); [done|]. by destruct (lines_of s). Qed.

Lemma lines_of_app_nl a b : lines_of (a +:+ String nl b) = lines_of a ++ lines_of b.
Proof.
  induction a as [|c a IH]; [done|]. rewrite app_cons_string. cbn. rewrite IH.
  destruct (Ascii.eqb c nl); [done|].
  destruct (lines_of a) as [|l ls] eqn:Ha; [by destruct (lines_of_nonempty a)|done].
Qed.

Lemma lines_of_one s : one_line s = true → lines_of s = [s].
Proof.
  induction s as [|c s IH]; [done|]. unfold one_line. cbn. rewrite andb_true_iff, negb_true_iff.
  intros [-> Hs]. by rewrite IH.
Qed.

Lemma end_line s r : (s +:+ chr nl) +:+ r = s +:+ String nl r.
Proof. by rewrite app_assoc_string. Qed.

Lemma cat_app vs ws : cat (vs ++ ws) = cat vs +:+ cat ws.
Proof. induction vs as [|v vs IH]; [done|]. cbn [app]. by rewrite !cat_cons, IH, app_assoc_string. Qed.

Lemma lines_of_cat vs ws : lines_of (cat (vs ++ chr nl :: ws)) = lines_of (cat vs) ++ lines_of (cat ws).
Proof. rewrite cat_app, cat_cons. apply lines_of_app_nl. Qed.

Lemma lines_of_text chunks : lines_of (text chunks) = (chunks ≫= lines_of) ++ [""].
Proof.
  unfold text. induction chunks as [|c chunks IH]; [done|].
  rewrite fmap_cons, !cat_cons, app_nil_r_string, end_line, lines_of_app_nl, IH.
  by rewrite app_assoc.
Qed.

Lemma lines_of_comments ls s :
  Forall (λ l, one_line l = true) ls → one_line s = true →
  lines_of (cat [print_comments ls; s]) = ((λ l, "//" +:+ l) <$> ls) ++ [s].
Proof.
  intros Hls Hs. rewrite cat_cons, cat_one. unfold print_comments.
  induction Hls as [|l ls Hl Hls IH]; [by apply lines_of_one|].
  rewrite fmap_cons, !cat_cons, app_nil_r_string.
  rewrite <- (app_assoc_string "//" l), app_assoc_string, end_line, lines_of_app_nl.
  rewrite IH, lines_of_one; [done|]. unfold one_line in *. by rewrite all_chars_app, Hl.
Qed.

(** *** Printing *)

Lemma seq_assoc a b c : seq (seq a b) c = seq a (seq b c).
Proof. destruct a, b, c; cbn; try done. by rewrite app_assoc. Qed.

Lemma seq_ok a b : (∃ l, a = Ok l) → (∃ l, b = Ok l) → ∃ l, seq a b = Ok l.
Proof. intros [la ->] [lb ->]. by eexists. Qed.

Lemma seq_panic a b p : (∃ l, a = Ok l) → b = Panic p → seq a b = Panic p.
Proof. by intros [l ->] ->. Qed.

Lemma for_each_ok {A} (xs : list A) body :
  (∀ x, x ∈ xs → ∃ l, body x = Ok l) → ∃ l, for_each xs body = Ok l.
Proof.
  induction xs as [|x xs IH]; intros Hx; [by eexists|].
  apply seq_ok; [apply Hx; by left|apply IH; intros; apply Hx; by right].
Qed.

(** *** Reading what is printed *)

Section Reads.
Context {B : Type} (f : string → option B).

Lemma reads_seq a b : reads f (seq a b) = (l ← reads f a; l' ← reads f b; Ok (l ++ l')).
Proof.
  unfold reads, seq. destruct a as [la| |]; [simpl|done..].
  destruct b as [lb| |]; [simpl|done..]. by rewrite bind_app, omap_app.
Qed.

Lemma reads_P vs : one_line (cat vs) = true → reads f (P vs) = Ok (option_list (f (cat vs))).
Proof.
  intros Hl. unfold reads, P. simpl. rewrite (lines_of_one _ Hl). simpl.
  by destruct (f (cat vs)).
Qed.

Lemma reads_skip vs k :
  one_line (cat vs) = true → f (cat vs) = None → reads f (seq (P vs) k) = reads f k.
Proof.
  intros Hl Hf. rewrite reads_seq, (reads_P _ Hl), Hf. simpl. by destruct (reads f k).
Qed.

Lemma reads_hit vs k b :
  one_line (cat vs) = true → f (cat vs) = Some b →
  reads f (seq (P vs) k) = (l ← reads f k; Ok (b :: l)).
Proof. intros Hl Hf. rewrite reads_seq, (reads_P _ Hl), Hf. done. Qed.

Lemma reads_lines vs k :
  reads f (seq (P vs) k) = (l ← reads f k; Ok (omap f (lines_of (cat vs)) ++ l)).
Proof. rewrite reads_seq. unfold reads at 1, P. simpl. by rewrite app_nil_r. Qed.

Lemma reads_skip_for {A} (xs : list A) body k :
  Forall (λ x, reads f (body x) = Ok []) xs →
  reads f (seq (for_each xs body) k) = reads f k.
Proof.
  intros Hx. rewrite reads_seq.
  assert (reads f (for_each xs body) = Ok []) as ->; [|simpl; by destruct (reads f k)].
  induction Hx as [|x xs Hx _ IH]; [done|]. simpl. by rewrite reads_seq, Hx, IH.
Qed.

Lemma reads_for {A} (xs : list A) body (g : A → list B) :
  Forall (λ x, reads f (body x) = Ok (g x)) xs →
  reads f (for_each xs body) = Ok (xs ≫= g).
Proof.
  intros Hx. induction Hx as [|x xs Hx _ IH]; [done|]. simpl. by rewrite reads_seq, Hx, IH.
Qed.

(** A commented signature is not a line the reader looks for. *)
Lemma reads_commented ls s :
  Forall (λ l, one_line l = true) ls → one_line s = true →
  (∀ l, f ("//" +:+ l) = None) → f s = None → reads f (P [print_comments ls; s]) = Ok [].
Proof.
  intros Hls Hs Hc Hf.
  change (Ok (omap f (lines_of (cat [print_comments ls; s]) ++ [])) = Ok []).
  rewrite lines_of_comments, app_nil_r, omap_app by done. simpl. rewrite Hf, app_nil_r. f_equal.
  clear Hls. induction ls as [|l ls IH]; [done|]. simpl. by rewrite Hc.
Qed.

(** A commented signature that it does look for. *)
Lemma reads_commented_hit ls s b :
  Forall (λ l, one_line l = true) ls → one_line s = true →
  (∀ l, f ("//" +:+ l) = None) → f s = Some b → reads f (P [print_comments ls; s]) = Ok [b].
Proof.
  intros Hls Hs Hc Hf.
  change (Ok (omap f (lines_of (cat [print_comments ls; s]) ++ [])) = Ok [b]).
  rewrite lines_of_comments, app_nil_r, omap_app by done. simpl. rewrite Hf. f_equal.
  clear Hls. induction ls as [|l ls IH]; [done|]. simpl. by rewrite Hc.
Qed.

Lemma reads_block a k v :
  reads f a = Ok v → reads f (seq a k) = (l ← reads f k; Ok (v ++ l)).
Proof. intros Ha. by rewrite reads_seq, Ha. Qed.

Lemma reads_inv o v : reads f o = Ok v → ∃ l, o = Ok l ∧ reads f (Ok l) = Ok v.
Proof. destruct o as [l| |]; [eauto|done..]. Qed.

Lemma reads_content chunks :
  f "" = None → omap f (lines_of (text chunks)) = omap f (chunks ≫= lines_of).
Proof. intros Hf. rewrite lines_of_text, omap_app. simpl. by rewrite Hf, app_nil_r. Qed.
End Reads.

(** A reader looks for lines that are neither blank, nor a comment, nor the
    signature of a method. *)
Class Reader {B} (f : string → option B) : Prop := mkReader {
  reader_blank : f "" = None;
  reader_comment l : f ("//" +:+ l) = None;
  reader_call a r : ident a = true → f (a +:+ String "(" r) = None;
}.

Lemma prefix_reader {B} p (k : string → option B) :
  not_a_call p = true → strip_prefix p "" = None → (∀ l, strip_prefix p ("//" +:+ l) = None) →
  Reader (λ l, strip_prefix p l ≫= k).
Proof.
  intros Hp Hb Hc. split; intros; rewrite ?Hb, ?Hc, ?strip_prefix_call by done; done.
Qed.

Lemma reads_nested {B} (f : string → option B) a b k :
  reads f (seq (seq a b) k) = reads f (seq a (seq b k)).
Proof.
  rewrite !reads_seq. destruct (reads f a) as [la| |]; [simpl|done..].
  destruct (reads f b) as [lb| |]; [simpl|done..].
  destruct (reads f k) as [lk| |]; [simpl|done..]. by rewrite app_assoc.
Qed.

Lemma trim_call a r : ident a = true → trim (a +:+ String "(" r) = a +:+ String "(" r.
Proof.
  destruct a as [|c a]; [done|]. unfold ident. cbn. rewrite andb_true_iff. intros [Hc _].
  rewrite app_cons_string. cbn.
  destruct (Ascii.eqb_spec c "009") as [->|]; [done|].
  by destruct (Ascii.eqb_spec c " ") as [->|].
Qed.

(** *** Names *)

Lemma name_app s t : name s = true → name t = true → name (s +:+ t) = true.
Proof. unfold name. rewrite all_chars_app. by intros -> ->. Qed.

Lemma one_line_cons v vs :
  one_line v = true → one_line (cat vs) = true → one_line (cat (v :: vs)) = true.
Proof. unfold one_line. rewrite cat_cons, all_chars_app. by intros -> ->. Qed.

Lemma name_cons v vs : name v = true → name (cat vs) = true → name (cat (v :: vs)) = true.
Proof. unfold name. rewrite cat_cons, all_chars_app. by intros -> ->. Qed.

Lemma name_ToLower1 c : name_char c = true → name (ToLower1 c) = true.
Proof.
  destruct c as [[] [] [] [] [] [] [] []]; vm_compute; (discriminate || reflexivity).
Qed.

Lemma one_line_quote s : name s = true → one_line (Quote s) = true.
Proof.
  intros Hs. rewrite (quote_name _ Hs). unfold one_line. rewrite !all_chars_app.
  apply name_one_line in Hs. unfold one_line in Hs. by rewrite Hs.
Qed.
End Protogen.

(** Lines printed from names and fixed text. *)
Create HintDb printed.
#[export] Hint Resolve Protogen.ident_name Protogen.name_one_line Protogen.name_quotable
  Protogen.one_line_quote Protogen.name_app : printed.
#[export] Hint Extern 1 (Protogen.name _ = true) => reflexivity : printed.

Ltac one_line :=
  first [ reflexivity | assumption
        | lazymatch goal with |- Protogen.one_line (Protogen.cat (_ :: _)) = true =>
            apply Protogen.one_line_cons; one_line end
        | solve [eauto with printed] ].

(** Step over a line, or over a line of interest. *)
Ltac skip := rewrite ?Protogen.reads_nested; rewrite Protogen.reads_skip; [|one_line|reflexivity].
