(* ===== verification/GenRead.v ===== *)
(** Reading a generated Go file back: what each of its lines declares or refers
    to, and the calls that follow from it.

    Two readers take the lines of a file.  [read_line] follows the calls: it knows
    the declarations, calls and descriptor entries that both generators print,
    without their indentation, and looks past the types of a signature.
    [read_form] follows the types: it knows every form of line of the plain
    generator that names a type, signatures, results and fields included, and
    gives all the names such a line holds.  Each ignores every other line. *)
From S2P Require Import Prelude Protogen.
From Stdlib Require Import Ascii.

Module GenRead.
Import Protogen.

(** What a line declares or refers to, if it does. *)
Inductive item :=
  | DeclInterface (t : string)          (* type t interface { *)
  | DeclStruct (t : string)             (* type t struct { *)
  | NewValue (t : string)               (* return &t{cc} *)
  | StubFunc (t m : string)             (* func (c *t) m(.. { *)
  | StubInvoke (n : string)             (* err := c.cc.Invoke(ctx, "n", in, out) *)
  | RegisterDesc (d : string)           (* s.RegisterService(&d, srv) *)
  | HandlerFunc (f : string)            (* func _f(.. { *)
  | DecodeInto (t : string)             (* in := new(t) *)
  | HandlerCall (t m : string)          (* return srv.(t).m(ctx, in) *)
  | FullMethod (n : string)             (* FullMethod: "n", *)
  | InterceptedCall (t m q : string)    (* the call on a request of type q *)
  | DeclDesc (d : string)               (* var d = .. { *)
  | DescService (n : string)            (* ServiceName: "n", *)
  | EntryName (n : string)              (* MethodName: "n", *)
  | EntryHandler (f : string).          (* Handler: f, *)

Definition line_type (l : string) : option item :=
  r ← strip_prefix "type " l; '(t, r) ← until " " r;
  if bool_decide (r = "interface {") then Some (DeclInterface t)
  else if bool_decide (r = "struct {") then Some (DeclStruct t) else None.
Definition line_new (l : string) : option item :=
  r ← strip_prefix "return &" l; '(t, r) ← until "{" r;
  if bool_decide (r = "cc}") then Some (NewValue t) else None.
Definition line_stub (l : string) : option item :=
  r ← strip_prefix "func (c *" l; '(t, r) ← until ")" r;
  r ← strip_prefix " " r; '(m, _) ← until "(" r; Some (StubFunc t m).
Definition line_invoke (l : string) : option item :=
  r ← strip_prefix ("err := c.cc.Invoke(ctx, " +:+ chr dq) l; '(n, r) ← until dq r;
  if bool_decide (r = ", in, out)") then Some (StubInvoke n) else None.
Definition line_register (l : string) : option item :=
  r ← strip_prefix "s.RegisterService(&" l; '(d, _) ← until "," r; Some (RegisterDesc d).
Definition line_handler (l : string) : option item :=
  r ← strip_prefix "func _" l; '(f, _) ← until "(" r; Some (HandlerFunc ("_" +:+ f)).
Definition line_call (l : string) : option item :=
  r ← strip_prefix "return srv.(" l; '(t, r) ← until ")" r;
  r ← strip_prefix "." r; '(m, r) ← until "(" r;
  if bool_decide (r = "ctx, in)") then Some (HandlerCall t m) else None.
Definition line_decode (l : string) : option item :=
  r ← strip_prefix "in := new(" l; '(t, _) ← until ")" r; Some (DecodeInto t).
Definition line_full (l : string) : option item :=
  r ← strip_prefix ("FullMethod: " +:+ chr dq) l; '(n, _) ← until dq r; Some (FullMethod n).
Definition line_intercepted (l : string) : option item :=
  r ← strip_prefix "return srv.(" l; '(t, r) ← until ")" r;
  r ← strip_prefix "." r; '(m, r) ← until "(" r;
  r ← strip_prefix "ctx, req.(*" r; '(q, _) ← until ")" r; Some (InterceptedCall t m q).
Definition line_desc (l : string) : option item :=
  r ← strip_prefix "var " l; '(d, _) ← until " " r; Some (DeclDesc d).
Definition line_service (l : string) : option item :=
  r ← strip_prefix ("ServiceName: " +:+ chr dq) l; '(n, _) ← until dq r; Some (DescService n).
Definition line_name (l : string) : option item :=
  r ← strip_prefix ("MethodName: " +:+ chr dq) l; '(n, _) ← until dq r; Some (EntryName n).
Definition line_entry (l : string) : option item :=
  r ← strip_prefix "Handler: " l; '(f, _) ← until "," r; Some (EntryHandler f).

(** The first of the forms that a line has. *)
Fixpoint one_of (forms : list (string → option item)) (l : string) : option item :=
  match forms with
  | [] => None
  | f :: forms => match f l with Some i => Some i | None => one_of forms l end
  end.

Definition forms : list (string → option item) :=
  [line_type; line_new; line_stub; line_invoke; line_register; line_handler; line_decode;
   line_call; line_full; line_intercepted; line_desc; line_service; line_name; line_entry].

Definition read_line (l : string) : option item := one_of forms (trim l).

(** The items of a source file. *)
Definition read_source (src : string) : list item := omap read_line (lines_of src).

(** ** The types that a line names *)

(** The form of a line: fixed text and names. *)
Inductive piece := Lit (s : string) | Name.

(** A line's leading name, if it has one, and the rest. *)
Fixpoint word (s : string) : string * string :=
  match s with
  | "" => ("", "")
  | String c s' => if name_char c then let '(a, r) := word s' in (String c a, r) else ("", s)
  end.

(** The names of a line of a form. *)
Fixpoint match_line (p : list piece) (l : string) : option (list string) :=
  match p with
  | [] => match l with "" => Some [] | _ => None end
  | Lit s :: p => r ← strip_prefix s l; match_line p r
  | Name :: p => let '(a, r) := word l in ns ← match_line p r; Some (a :: ns)
  end.

Inductive form :=
  | TypeLine         (* type t k { *)
  | FieldLine        (* cc t *)
  | FactoryLine      (* func Newt (cc c) r { *)
  | RegisterLine     (* func Registert(s r, srv i) { *)
  | StubLine         (* func (c *t) m(ctx c, in *q) ( *r, error){ *)
  | OutLine          (* out := new(r) *)
  | HandlerLine      (* func f(srv interface{}, ctx c, dec ..) (..) { *)
  | InLine           (* in := new(q) *)
  | DescriptorLine   (* var d = t { *)
  | ServedLine       (* HandlerType: ( *t)(nil), *)
  | MethodsLine      (* Methods: []t{ *)
  | ServerLine       (* m(c, *q) ( *r, error) *)
  | ClientLine.      (* m(ctx c, in *q) ( *r, error) *)

#[export] Instance form_eq_dec : EqDecision form.
Proof. solve_decision. Defined.

Definition pattern (k : form) : list piece :=
  match k with
  | TypeLine => [Lit "type "; Name; Lit " "; Name; Lit " {"]
  | FieldLine => [Lit "cc "; Name]
  | FactoryLine => [Lit "func New"; Name; Lit " (cc "; Name; Lit ") "; Name; Lit " {"]
  | RegisterLine => [Lit "func Register"; Name; Lit "(s "; Name; Lit ", srv "; Name; Lit ") {"]
  | StubLine =>
      [Lit "func (c *"; Name; Lit ") "; Name; Lit "(ctx "; Name; Lit ", in *"; Name; Lit ") (*"; Name;
       Lit ", error){"]
  | OutLine => [Lit "out := new("; Name; Lit ")"]
  | HandlerLine =>
      [Lit "func "; Name; Lit "(srv interface{}, ctx "; Name;
       Lit ", dec func(interface{}) error) (interface{}, error) {"]
  | InLine => [Lit "in := new("; Name; Lit ")"]
  | DescriptorLine => [Lit "var "; Name; Lit " = "; Name; Lit " {"]
  | ServedLine => [Lit "HandlerType: (*"; Name; Lit ")(nil),"]
  | MethodsLine => [Lit "Methods: []"; Name; Lit "{"]
  | ServerLine => [Name; Lit "("; Name; Lit ", *"; Name; Lit ") (*"; Name; Lit ", error)"]
  | ClientLine => [Name; Lit "(ctx "; Name; Lit ", in *"; Name; Lit ") (*"; Name; Lit ", error)"]
  end.

Fixpoint first_form (ks : list form) (l : string) : option (form * list string) :=
  match ks with
  | [] => None
  | k :: ks => match match_line (pattern k) l with Some ns => Some (k, ns) | None => first_form ks l end
  end.

Definition typed_forms : list form :=
  [TypeLine; FieldLine; FactoryLine; RegisterLine; StubLine; OutLine; HandlerLine; InLine;
   DescriptorLine; ServedLine; MethodsLine; ServerLine; ClientLine].

Definition read_form (l : string) : option (form * list string) := first_form typed_forms l.

(** The lines of a source file that name types, with their names. *)
Definition read_forms (src : string) : list (form * list string) := omap read_form (lines_of src).

(** ** What the items of a file amount to *)

#[export] Instance item_eq_dec : EqDecision item.
Proof. solve_decision. Defined.

(** The items that give a name to something: two of them alike would not
    compile. *)
Definition declares (i : item) : bool :=
  match i with
  | DeclInterface _ | DeclStruct _ | StubFunc _ _ | HandlerFunc _ | DeclDesc _ => true
  | _ => false
  end.

(** What follows the first occurrence of an item. *)
Fixpoint after (i : item) (items : list item) : option (list item) :=
  match items with
  | [] => None
  | j :: items => if decide (i = j) then Some items else after i items
  end.

(** The name that method [m] of the stub [t] invokes. *)
Definition stub_invokes (items : list item) (t m : string) : option string :=
  match after (StubFunc t m) items with Some (StubInvoke n :: _) => Some n | _ => None end.

(** What a handler decodes its request into and the method it calls. *)
Definition handler_calls (items : list item) (f : string) : option (string * string * string) :=
  match after (HandlerFunc f) items with
  | Some (DecodeInto q :: HandlerCall t m :: _) => Some (q, t, m)
  | _ => None
  end.

(** The names and handlers of a descriptor. *)
Fixpoint entries (items : list item) : list (string * string) :=
  match items with
  | EntryName n :: EntryHandler h :: items => (n, h) :: entries items
  | _ => []
  end.

Definition descriptor (items : list item) (d : string) : option (string * list (string * string)) :=
  match after (DeclDesc d) items with
  | Some (DescService n :: items) => Some (n, entries items)
  | _ => None
  end.

(** *** Their lemmas *)

Definition has (items js : list item) : Prop := ∃ pre post, items = pre ++ js ++ post.

Lemma has_l items items' js : has items js → has (items ++ items') js.
Proof. intros (pre&post&->). exists pre, (post ++ items'). by rewrite <- !app_assoc. Qed.

Lemma has_r items items' js : has items' js → has (items ++ items') js.
Proof. intros (pre&post&->). exists (items ++ pre), post. by rewrite <- !app_assoc. Qed.

Lemma has_cons i items js : has items js → has (i :: items) js.
Proof. apply (has_r [i]). Qed.

Lemma has_self js : has js js.
Proof. exists [], []. by rewrite app_nil_r. Qed.

Lemma has_prefix js js' : has (js ++ js') js.
Proof. by exists [], js'. Qed.

Lemma has_bind {A} (x : A) xs (f : A → list item) js : x ∈ xs → has (f x) js → has (xs ≫= f) js.
Proof.
  intros (l1&l2&->)%list_elem_of_split Hx. rewrite bind_app. apply has_r. by apply has_l.
Qed.

Lemma after_hit i pre post : i ∉ pre → after i (pre ++ i :: post) = Some post.
Proof.
  induction pre as [|j pre IH]; cbn; intros Hi.
  - by rewrite decide_True.
  - apply not_elem_of_cons in Hi as [Hj Hi]. rewrite decide_False by done. by apply IH.
Qed.

(** In a file that declares nothing twice, a declaration has one body. *)
Lemma after_decl i items pre post :
  NoDup (filter (λ j, declares j = true) items) → declares i = true →
  items = pre ++ i :: post → after i items = Some post.
Proof.
  intros Hn Hd ->. apply after_hit. rewrite filter_app, filter_cons_True in Hn by done.
  apply NoDup_app in Hn as (_&Hn&_). intros Hi. apply (Hn i); [|by left].
  by apply list_elem_of_filter.
Qed.

Lemma after_has i items js :
  NoDup (filter (λ j, declares j = true) items) → declares i = true →
  has items (i :: js) → ∃ post, after i items = Some (js ++ post).
Proof. intros Hn Hd (pre&post&He). exists post. by apply (after_decl _ _ pre). Qed.

Lemma entries_app (es : list (string * string)) post :
  match post with EntryName _ :: _ => False | _ => True end →
  entries ((es ≫= λ e, [EntryName e.1; EntryHandler e.2]) ++ post) = es.
Proof.
  intros Hp. induction es as [|[n h] es IH]; [|by rewrite bind_cons; cbn; rewrite IH].
  destruct post as [|[] post]; done.
Qed.

(** *** The reader *)

Lemma one_of_reader forms : Forall Reader forms → Reader (one_of forms).
Proof.
  intros Hf. split; intros; induction Hf as [|f fs Hr _ IH]; cbn; try done.
  - by rewrite reader_blank.
  - by rewrite reader_comment.
  - by rewrite reader_call.
Qed.

#[export] Instance read_line_reader : Reader read_line.
Proof.
  assert (Reader (one_of forms)) as Hf.
  { apply one_of_reader. repeat (apply Forall_cons; split; [by apply prefix_reader|]). by constructor. }
  split; intros; unfold read_line.
  - apply reader_blank.
  - apply reader_comment.
  - rewrite trim_call by done. by apply reader_call.
Qed.

Lemma one_of_skip f forms l : f l = None → one_of (f :: forms) l = one_of forms l.
Proof. cbn. by intros ->. Qed.

Lemma one_of_hit f forms l i : f l = Some i → one_of (f :: forms) l = Some i.
Proof. cbn. by intros ->. Qed.

Lemma trim_solid c v vs :
  Ascii.eqb c "009" || Ascii.eqb c " " = false → trim (cat (String c v :: vs)) = cat (String c v :: vs).
Proof. intros Hc. rewrite cat_cons, app_cons_string. simpl. by rewrite Hc. Qed.

Lemma trim_tab vs : trim (cat (chr "009" :: vs)) = trim (cat vs).
Proof. done. Qed.

Ltac found :=
  unfold read_line; rewrite ?trim_tab; rewrite trim_solid by reflexivity; unfold forms; repeat (rewrite one_of_skip by reflexivity); apply one_of_hit.

(** *** The lines it looks for *)

Lemma read_interface t :
  name t = true → read_line (cat ["type "; t; " interface {"]) = Some (DeclInterface t).
Proof.
  intros Ht. found. rewrite !cat_cons. unfold line_type. rewrite strip_prefix_app. simpl.
  change (" interface {" +:+ "") with (String " " "interface {"). by rewrite until_name.
Qed.

Lemma read_struct t :
  name t = true → read_line (cat ["type "; t; " struct {"]) = Some (DeclStruct t).
Proof.
  intros Ht. found. rewrite !cat_cons. unfold line_type. rewrite strip_prefix_app. simpl.
  change (" struct {" +:+ "") with (String " " "struct {"). by rewrite until_name.
Qed.

Lemma read_new t : name t = true → read_line (cat ["return &"; t; "{cc}"]) = Some (NewValue t).
Proof.
  intros Ht. found. rewrite !cat_cons. unfold line_new. rewrite strip_prefix_app. simpl.
  change ("{cc}" +:+ "") with (String "{" "cc}"). by rewrite until_name.
Qed.

(** The receiver's type is a name and a suffix that is part of the fixed text. *)
Lemma read_stub_suffix u t m r :
  name u = true → name t = true → name m = true →
  read_line (cat ["func (c *"; u; t +:+ ") "; m +:+ String "(" r; "{"]) = Some (StubFunc (u +:+ t) m).
Proof.
  intros Hu Ht Hm. found. rewrite !cat_cons, (app_assoc_string t), <- (app_assoc_string u t).
  rewrite (app_cons_string ")"). unfold line_stub. rewrite strip_prefix_app. simpl.
  rewrite until_name; [simpl|done|by apply name_app].
  change (" " +:+ (m +:+ String "(" r) +:+ cat ["{"]) with (String " " ((m +:+ String "(" r) +:+ cat ["{"])).
  rewrite ?app_nil_l_string. cbn [strip_prefix Ascii.eqb Bool.eqb mbind option_bind].
  by rewrite app_assoc_string, (app_cons_string "("), until_name.
Qed.

Lemma read_stub u m r :
  name u = true → name m = true →
  read_line (cat ["func (c *"; u; "Client) "; m +:+ String "(" r; "{"]) =
    Some (StubFunc (u +:+ "Client") m).
Proof. intros. by apply (read_stub_suffix u "Client"). Qed.

Lemma read_grpc_stub u m r :
  name u = true → name m = true →
  read_line (cat ["func (c *"; u; "GrpcClient) "; m +:+ String "(" r; "{"]) =
    Some (StubFunc (u +:+ "GrpcClient") m).
Proof. intros. by apply (read_stub_suffix u "GrpcClient"). Qed.

Lemma read_invoke n :
  quotable n = true →
  read_line (cat ["err := c.cc.Invoke(ctx, "; chr dq; n; chr dq; ", in, out)"]) = Some (StubInvoke n).
Proof.
  intros Hn. found. rewrite !cat_cons.
  change (('(n, r) ← until dq (n +:+ String dq ", in, out)");
    if bool_decide (r = ", in, out)") then Some (StubInvoke n) else None) = Some (StubInvoke n)).
  by rewrite until_free.
Qed.

Lemma read_register d :
  name d = true → read_line (cat ["s.RegisterService(&"; d; ", srv)"]) = Some (RegisterDesc d).
Proof.
  intros Hd. found. rewrite !cat_cons. unfold line_register. rewrite strip_prefix_app. simpl.
  change (", srv)" +:+ "") with (String "," " srv)"). by rewrite until_name.
Qed.

Lemma read_handler f r rest :
  name f = true →
  read_line (cat ("func " :: ("_" +:+ f) :: String "(" r :: rest)) = Some (HandlerFunc ("_" +:+ f)).
Proof.
  intros Hf. found. rewrite !cat_cons, (app_assoc_string "_"), (app_cons_string "(").
  change (('(f, _) ← until "(" (f +:+ String "(" (r +:+ cat rest));
    Some (HandlerFunc ("_" +:+ f))) = Some (HandlerFunc ("_" +:+ f))).
  by rewrite until_name.
Qed.

Lemma read_call t m :
  name t = true → name m = true →
  read_line (cat ["return srv.("; t; "Server)."; m; "(ctx, in)"]) =
    Some (HandlerCall (t +:+ "Server") m).
Proof.
  intros Ht Hm. found. rewrite !cat_cons, <- (app_assoc_string t "Server).").
  rewrite (eq_refl : "Server)." = "Server" +:+ String ")" "."), <- (app_assoc_string t "Server").
  rewrite app_assoc_string, (app_cons_string ")").
  unfold line_call. rewrite strip_prefix_app. simpl.
  rewrite until_name; [simpl|done|by apply name_app].
  change ("(ctx, in)" +:+ "") with (String "(" "ctx, in)").
  by rewrite app_nil_l_string, until_name.
Qed.

Lemma read_typed_call t m :
  name t = true → name m = true →
  read_line (cat [chr "009"; chr "009"; "return srv.("; t; ")."; m; "(ctx, in)"]) = Some (HandlerCall t m).
Proof.
  intros Ht Hm. found. rewrite !cat_cons. unfold line_call. rewrite strip_prefix_app. simpl.
  change (")." +:+ m +:+ "(ctx, in)" +:+ "") with (String ")" (String "." (m +:+ String "(" "ctx, in)"))).
  rewrite until_name by done. simpl. by rewrite until_name.
Qed.

Lemma read_full n1 n2 :
  quotable n1 = true → quotable n2 = true →
  read_line (cat [chr "009"; "FullMethod: "; chr dq; "/pb."; n1; "/"; n2; chr dq; ","]) =
    Some (FullMethod (cat ["/pb."; n1; "/"; n2])).
Proof.
  intros H1 H2. found. rewrite !cat_cons.
  assert ("/pb." +:+ n1 +:+ "/" +:+ n2 +:+ chr dq +:+ "," +:+ cat [] =
    cat ["/pb."; n1; "/"; n2] +:+ String dq ",") as ->.
  { rewrite !cat_cons, !app_assoc_string. done. }
  change (('(n, _) ← until dq (cat ["/pb."; n1; "/"; n2] +:+ String dq ","); Some (FullMethod n)) =
    Some (FullMethod (cat ["/pb."; n1; "/"; n2]))).
  rewrite until_free; [done|]. rewrite all_chars_cat. cbn. unfold quotable in *. by rewrite H1, H2.
Qed.

Lemma read_intercepted t m q :
  name t = true → name m = true → name q = true →
  read_line (cat ["return srv.("; t; ")."; m; "(ctx, req.(*"; q; "Request))"]) =
    Some (InterceptedCall t m (q +:+ "Request")).
Proof.
  intros Ht Hm Hq. unfold read_line. rewrite trim_solid by reflexivity. unfold forms.
  do 7 (rewrite one_of_skip by reflexivity).
  assert (cat ["return srv.("; t; ")."; m; "(ctx, req.(*"; q; "Request))"] =
    "return srv.(" +:+ t +:+ String ")" (String "." (m +:+ String "("
      ("ctx, req.(*" +:+ (q +:+ "Request") +:+ String ")" ")")))) as ->.
  { rewrite !cat_cons, (app_assoc_string q). done. }
  rewrite one_of_skip.
  - rewrite one_of_skip by reflexivity. apply one_of_hit. unfold line_intercepted.
    rewrite strip_prefix_app. simpl. rewrite until_name by done. simpl. rewrite until_name by done. simpl.
    rewrite app_nil_l_string, until_name; [done|done|by apply name_app].
  - unfold line_call. rewrite strip_prefix_app. simpl. rewrite until_name by done. simpl.
    rewrite until_name by done. done.
Qed.

Lemma read_decode t : name t = true → read_line (cat ["in := new("; t; ")"]) = Some (DecodeInto t).
Proof.
  intros Ht. found. rewrite !cat_cons. unfold line_decode. rewrite strip_prefix_app. simpl.
  change (")" +:+ "") with (String ")" ""). by rewrite until_name.
Qed.

Lemma read_desc d r :
  name d = true → read_line (cat ["var "; d; " = "; r; " {"]) = Some (DeclDesc d).
Proof.
  intros Hd. found. rewrite !cat_cons.
  change (('(d, _) ← until " " (d +:+ String " " ("= " +:+ r +:+ cat [" {"])); Some (DeclDesc d)) =
    Some (DeclDesc d)).
  by rewrite until_name.
Qed.

Lemma read_service n :
  name n = true → read_line (cat ["ServiceName: "; Quote n; ","]) = Some (DescService n).
Proof.
  intros Hn. found. rewrite !cat_cons, (quote_name _ Hn), !app_assoc_string.
  change (('(n, _) ← until dq (n +:+ String dq ","); Some (DescService n)) = Some (DescService n)).
  by rewrite until_name.
Qed.

Lemma read_name n :
  name n = true → read_line (cat ["MethodName: "; Quote n; ","]) = Some (EntryName n).
Proof.
  intros Hn. found. rewrite !cat_cons, (quote_name _ Hn), !app_assoc_string.
  change (('(n, _) ← until dq (n +:+ String dq ","); Some (EntryName n)) = Some (EntryName n)).
  by rewrite until_name.
Qed.

Lemma read_entry h :
  name h = true → read_line (cat ["Handler: "; h; ","]) = Some (EntryHandler h).
Proof.
  intros Hh. found. rewrite !cat_cons.
  change (('(h, _) ← until "," (h +:+ ","); Some (EntryHandler h)) = Some (EntryHandler h)).
  by rewrite until_name.
Qed.
(** *** The forms it looks for *)

(** A line of a form with the given names. *)
Fixpoint fill (p : list piece) (ns : list string) : string :=
  match p, ns with
  | Lit s :: p, ns => s +:+ fill p ns
  | Name :: p, n :: ns => n +:+ fill p ns
  | _, _ => ""
  end.

(** No text after a name goes on with it. *)
Fixpoint separated (p : list piece) : bool :=
  match p with
  | [] => true
  | Lit _ :: p => separated p
  | Name :: p =>
      match p with
      | [] => true
      | Lit (String c _) :: _ => negb (name_char c) && separated p
      | _ => false
      end
  end.

Fixpoint holes (p : list piece) : nat :=
  match p with [] => 0 | Lit _ :: p => holes p | Name :: p => S (holes p) end.

Lemma word_end a : name a = true → word a = (a, "").
Proof.
  induction a as [|c a IH]; [done|]. intros [Hc Ha]%name_not_char. cbn. by rewrite Hc, (IH Ha).
Qed.

Lemma word_app a c r : name a = true → name_char c = false → word (a +:+ String c r) = (a, String c r).
Proof.
  intros Ha Hc. induction a as [|b a IH].
  - rewrite app_nil_l_string. cbn. by rewrite Hc.
  - apply name_not_char in Ha as [Hb Ha]. rewrite app_cons_string. cbn. by rewrite Hb, (IH Ha).
Qed.

Lemma match_fill p ns :
  separated p = true → holes p = length ns → Forall (λ n, name n = true) ns →
  match_line p (fill p ns) = Some ns.
Proof.
  intros Hp Hl Hns. revert ns Hl Hns. induction p as [|[s|] p IH]; intros ns Hl Hns.
  - by destruct ns.
  - cbn. rewrite strip_prefix_app. by apply IH.
  - destruct Hns as [|n ns Hn Hns]; [done|]. injection Hl as Hl. cbn [match_line fill].
    assert (word (n +:+ fill p ns) = (n, fill p ns) ∧ separated p = true) as [-> Hp'].
    { destruct p as [|[[|c s]|] p]; try done.
      - cbn. rewrite app_nil_r_string. split; [by apply word_end|done].
      - cbn in Hp. apply andb_true_iff in Hp as [Hc%negb_true_iff Hp].
        cbn [fill]. rewrite app_cons_string. split; [by apply word_app|done]. }
    by rewrite (IH Hp' ns Hl Hns).
Qed.

(** The forms tried before one. *)
Fixpoint before (k : form) (ks : list form) : list form :=
  match ks with [] => [] | j :: ks => if decide (j = k) then [] else j :: before k ks end.

Lemma first_form_hit ks k l ns :
  k ∈ ks → Forall (λ j, match_line (pattern j) l = None) (before k ks) →
  match_line (pattern k) l = Some ns → first_form ks l = Some (k, ns).
Proof.
  intros Hk Hb Hl. induction ks as [|j ks IH]; [by apply elem_of_nil in Hk|]. cbn [before first_form] in *.
  destruct (decide (j = k)) as [->|Hj]; [by rewrite Hl|].
  apply Forall_cons in Hb as [-> Hb]. apply IH; [|done]. set_solver.
Qed.

Lemma read_form_of k ns l :
  l = fill (pattern k) ns → holes (pattern k) = length ns → Forall (λ n, name n = true) ns →
  Forall (λ j, match_line (pattern j) l = None) (before k typed_forms) →
  read_form l = Some (k, ns).
Proof.
  intros Hl Hh Hns Hb. apply first_form_hit; [|exact Hb|].
  - unfold typed_forms. destruct k; set_solver.
  - rewrite Hl. apply match_fill; [by destruct k|done|done].
Qed.
(** No other form starts with the signature of a method. *)
Lemma call_misses a r :
  ident a = true →
  Forall (λ j, match_line (pattern j) (a +:+ String "(" r) = None) (before ServerLine typed_forms).
Proof. intros Ha. repeat constructor; cbn [match_line pattern]; by rewrite strip_prefix_call. Qed.

Lemma client_not_server_form a r :
  ident a = true → match_line (pattern ServerLine) (a +:+ String "(" ("ctx " +:+ r)) = None.
Proof. intros Ha. cbn [match_line pattern]. by rewrite word_app by (done || by apply ident_name). Qed.
End GenRead.

(** Read a line that says something. *)
Ltac hit lem :=
  rewrite ?Protogen.reads_nested; erewrite Protogen.reads_hit; [|one_line|by apply lem; auto with printed].

(** Read a line as one of a form with the given names. *)
Ltac refill :=
  rewrite ?Protogen.cat_cons; cbn [GenRead.pattern GenRead.fill];
  rewrite ?Protogen.app_assoc_string, ?Protogen.app_nil_r_string; reflexivity.

Ltac names :=
  repeat first [apply Forall_nil; exact I | apply Forall_cons; split]; eauto with printed.

Ltac typed k ns :=
  rewrite ?Protogen.reads_nested;
  rewrite (Protogen.reads_hit _ _ _ (k, ns));
  [|one_line|apply GenRead.read_form_of; [refill|reflexivity|names|repeat constructor]].
