(* ===== verification/GenWsrpc.v ===== *)
(** [cmd/protoc-gen-go-wsrpc]: the generator of wsRPC clients, servers and
    service descriptors, and what its output says when it is read back.

    The plugin's input is a list of descriptors; a run prints one file for each
    file to generate that has services.  [g.AnnotateSymbol], which writes
    metadata and no text, is left out.  The parent of a method is the service
    that lists it. *)
From S2P Require Import Prelude Protogen GenRead.
From Stdlib Require Import Ascii.

Module GenWsrpc.
Import Protogen GenRead.

Definition contextPackage : string := "context".
Definition wsrpcPackage : string := "github.com/smartcontractkit/wsrpc".
Definition version : string := "0.0.1".

(** [strFlags.Set], the parser of the [client-services] parameter. *)
Definition strFlags_Set (f : list string) (value : string) : list string := f ++ [value].

Definition unexport (s : string) : outcome string :=
  match s with
  | "" => Panic IndexOutOfRange
  | String c s => Ok (ToLower1 c +:+ s)
  end.

Definition protocVersion (v : option Version) : string :=
  match v with
  | None => "(unknown)"
  | Some v =>
      let suffix := if bool_decide (Suffix v = "") then "" else "-" +:+ Suffix v in
      cat ["v"; pretty (Major v); "."; pretty (Minor v); "."; pretty (Patch v); suffix]
  end.

Section Generator.
Context (QualifiedGoIdent : GoIdent → string).

(** [package.Ident(name)], printed. *)
Definition Ident (package name : string) : string := QualifiedGoIdent (mkGoIdent package name).

Definition clientSignature (method : Method) : string :=
  cat [m_GoName method; "(ctx "; Ident contextPackage "Context";
       ", in *"; QualifiedGoIdent (m_Input method);
       ") ("; "*"; QualifiedGoIdent (m_Output method); ", error)"].

Definition serverSignature (method : Method) : string :=
  let reqArgs := [Ident contextPackage "Context"; cat ["*"; QualifiedGoIdent (m_Input method)]] in
  let ret := cat ["(*"; QualifiedGoIdent (m_Output method); ", error)"] in
  cat [m_GoName method; "("; Join reqArgs ", "; ") "; ret].

Definition genClientMethod (service : Service) (method : Method) : gen :=
  recv ← unexport (s_GoName service);
  (P ["func (c *"; recv; "Client) "; clientSignature method; "{"] ;>
   P ["out := new("; QualifiedGoIdent (m_Output method); ")"] ;>
   P ["err := c.cc.Invoke(ctx, "; chr dq; m_Name method; chr dq; ", in, out)"] ;>
   P ["if err != nil { return nil, err }"] ;>
   P ["return out, nil"] ;>
   P ["}"] ;>
   P [])%gen.

Definition handlerName (service : Service) (method : Method) : string :=
  cat ["_"; s_GoName service; "_"; m_GoName method; "_Handler"].

Definition genServerMethod (service : Service) (method : Method) : outcome (list string * string) :=
  let hname := handlerName service method in
  l ← (P ["func "; hname; "(srv interface{}, ctx "; Ident contextPackage "Context";
          ", dec func(interface{}) error) (interface{}, error) {"] ;>
       P ["in := new("; QualifiedGoIdent (m_Input method); ")"] ;>
       P ["if err := dec(in); err != nil { return nil, err }"] ;>
       P ["return srv.("; s_GoName service; "Server)."; m_GoName method; "(ctx, in)"] ;>
       P ["}"] ;>
       P [])%gen;
  Ok (l, hname).

(** The loop over the handlers, and what it does with the lines and the names. *)
Fixpoint genServerMethods (service : Service) (methods : list Method) :
    outcome (list string * list string) :=
  match methods with
  | [] => Ok ([], [])
  | method :: methods =>
      '(l, hname) ← genServerMethod service method;
      '(ls, hnames) ← genServerMethods service methods;
      Ok (l ++ ls, hname :: hnames)
  end.

(** One entry of the descriptor. *)
Definition genDescriptorEntry (handlerNames : list string) (im : nat * Method) : gen :=
  match handlerNames !! im.1 with
  | None => Panic IndexOutOfRange
  | Some hname =>
      (P ["{"] ;>
       P ["MethodName: "; Quote (m_Name im.2); ","] ;>
       P ["Handler: "; hname; ","] ;>
       P ["},"])%gen
  end.

Definition genService (service : Service) : gen :=
  let clientName := cat [s_GoName service; "Client"] in
  let serverType := cat [s_GoName service; "Server"] in
  let serviceDescVar := cat [s_GoName service; "_ServiceDesc"] in
  (P ["// "; clientName; " is the client API for "; s_GoName service; " service."] ;>
   P ["//"] ;>
   (* Client interface. *)
   P ["type "; clientName; " interface {"] ;>
   for_each (s_Methods service) (λ method,
     P [print_comments (m_Leading method); clientSignature method]) ;>
   P ["}"] ;>
   P [] ;>
   (* Client structure. *)
   (clientType ← unexport clientName;
    P ["type "; clientType; " struct {"] ;>
    P ["cc "; Ident wsrpcPackage "ClientInterface"] ;>
    P ["}"] ;>
    P [] ;>
    (* NewClient factory. *)
    P ["func New"; clientName; " (cc "; Ident wsrpcPackage "ClientInterface"; ") "; clientName; " {"] ;>
    P ["return &"; clientType; "{cc}"] ;>
    P ["}"] ;>
    P []) ;>
   for_each (s_Methods service) (genClientMethod service) ;>
   (* Server interface. *)
   P ["// "; serverType; " is the server API for "; s_GoName service; " service."] ;>
   P ["type "; serverType; " interface {"] ;>
   for_each (s_Methods service) (λ method,
     P [print_comments (m_Leading method); serverSignature method]) ;>
   P ["}"] ;>
   P [] ;>
   (* Server registration. *)
   P ["func Register"; s_GoName service; "Server(s "; Ident wsrpcPackage "ServiceRegistrar";
      ", srv "; serverType; ") {"] ;>
   P ["s.RegisterService(&"; serviceDescVar; ", srv)"] ;>
   P ["}"] ;>
   P [] ;>
   (* Server handler implementations, and the service descriptor. *)
   ('(handlers, handlerNames) ← genServerMethods service (s_Methods service);
    Ok handlers ;>
    P ["// "; serviceDescVar; " is the "; Ident wsrpcPackage "ServiceDesc"; " for ";
       s_GoName service; " service."] ;>
    P ["// It's only intended for direct use with "; Ident wsrpcPackage "RegisterService"; ","] ;>
    P ["// and not to be introspected or modified (even as a copy)"] ;>
    P ["var "; serviceDescVar; " = "; Ident wsrpcPackage "ServiceDesc"; " {"] ;>
    P ["ServiceName: "; Quote (s_FullName service); ","] ;>
    P ["HandlerType: (*"; serverType; ")(nil),"] ;>
    P ["Methods: []"; Ident wsrpcPackage "MethodDesc"; "{"] ;>
    for_each (imap pair (s_Methods service)) (genDescriptorEntry handlerNames) ;>
    P ["},"] ;>
    P ["}"] ;>
    P []))%gen.

Definition generateFileContent (file : File) : gen :=
  match Services file with [] => Ok [] | services => for_each services genService end.

Definition generateFile (compiler : option Version) (file : File) : outcome (option GeneratedFile) :=
  match Services file with
  | [] => Ok None
  | _ =>
      chunks ←
        (P ["// Code generated by protoc-gen-go-wsrpc. DO NOT EDIT."] ;>
         P ["// versions:"] ;>
         P ["// - protoc-gen-go-wsrpc v"; version] ;>
         P ["// - protoc             "; protocVersion compiler] ;>
         P [] ;>
         P ["package "; GoPackageName file] ;>
         P [] ;>
         generateFileContent file)%gen;
      Ok (Some (mkGenerated (GeneratedFilenamePrefix file +:+ "_wsrpc.pb.go")
        (f_GoImportPath file) (text chunks)))
  end.

(** The callback of [main]: the files of the plugin's response. *)
Fixpoint run (compiler : option Version) (files : list File) : outcome (list GeneratedFile) :=
  match files with
  | [] => Ok []
  | f :: files =>
      if negb (Generate f) then run compiler files
      else
        g ← generateFile compiler f;
        gs ← run compiler files;
        Ok (option_list g ++ gs)
  end.
End Generator.

(** ** Well-formed input

    What [protoc] guarantees of the descriptors and [protogen] of the names it
    prints. *)

(** [unexport] of a name that is not empty. *)
Definition lower_first (s : string) : string :=
  match s with "" => "" | String c s => ToLower1 c +:+ s end.

Definition starts_upper (s : string) : bool :=
  match s with "" => false | String c _ => is_upper c end.

Section Theorems.
Context (QualifiedGoIdent : GoIdent → string).

Class QualifiedNames : Prop :=
  qualified_name id : name (GoName id) = true → name (QualifiedGoIdent id) = true.

Record method_ok (m : Method) : Prop := mkMethodOk {
  mo_go : ident (m_GoName m) = true;
  mo_name : name (m_Name m) = true;
  mo_input : name (GoName (m_Input m)) = true;
  mo_output : name (GoName (m_Output m)) = true;
  mo_leading : Forall (λ l, one_line l = true) (m_Leading m);
}.

Record service_ok (s : Service) : Prop := mkServiceOk {
  so_upper : starts_upper (s_GoName s) = true;
  so_go : ident (s_GoName s) = true;
  so_full : name (s_FullName s) = true;
  so_methods : Forall method_ok (s_Methods s);
}.

Record file_ok (f : File) : Prop := mkFileOk {
  fo_package : ident (GoPackageName f) = true;
  fo_services : Forall service_ok (Services f);
}.

Context `{HQ : QualifiedNames}.

Lemma unexport_lower s : s ≠ "" → unexport s = Ok (lower_first s).
Proof. by destruct s. Qed.

Lemma so_nonempty s : service_ok s → s_GoName s ≠ "".
Proof. intros [Hu _ _ _]. by intros He; rewrite He in Hu. Qed.

Lemma lower_first_inj s t :
  starts_upper s = true → starts_upper t = true → lower_first s = lower_first t → s = t.
Proof.
  assert (∀ c, is_upper c = true →
    ∃ d, ToLower1 c = chr d ∧ ascii_of_nat (nat_of_ascii d - 32) = c) as Hc.
  { intros c Hc. unfold ToLower1. rewrite Hc. eexists. split; [done|].
    revert Hc. destruct c as [[] [] [] [] [] [] [] []]; vm_compute; (discriminate || reflexivity). }
  destruct s as [|c s], t as [|c' t]; try done. cbn [starts_upper lower_first].
  intros (d&->&<-)%Hc (d'&->&<-)%Hc. unfold chr. rewrite !app_cons_string, !app_nil_l_string.
  by intros [= -> ->].
Qed.

Lemma lower_first_app s t : s ≠ "" → lower_first (s +:+ t) = lower_first s +:+ t.
Proof. destruct s as [|c s]; [done|]. intros _. cbn. by rewrite app_assoc_string. Qed.

Lemma lower_first_name s : name s = true → name (lower_first s) = true.
Proof.
  destruct s as [|c s]; [done|]. intros [Hc Hs]%name_not_char.
  by apply name_app; [apply name_ToLower1|].
Qed.

Lemma package_ident_name package n : name n = true → name (Ident QualifiedGoIdent package n) = true.
Proof. intros Hn. by apply HQ. Qed.

Lemma handlerName_name service method :
  service_ok service → method_ok method → name (handlerName service method) = true.
Proof. intros [] []. unfold handlerName. repeat (apply name_cons; [auto with printed|]). done. Qed.

Lemma clientSignature_call m :
  ∃ r, clientSignature QualifiedGoIdent m = m_GoName m +:+ String "(" r.
Proof. eexists. unfold clientSignature. rewrite cat_cons. reflexivity. Qed.

Lemma serverSignature_call m :
  ∃ r, serverSignature QualifiedGoIdent m = m_GoName m +:+ String "(" r.
Proof. eexists. unfold serverSignature. rewrite cat_cons. reflexivity. Qed.

Lemma clientSignature_line m : method_ok m → one_line (clientSignature QualifiedGoIdent m) = true.
Proof.
  intros []. unfold clientSignature.
  pose proof (package_ident_name contextPackage "Context" eq_refl).
  pose proof (HQ _ mo_input0). pose proof (HQ _ mo_output0). one_line.
Qed.

Lemma serverSignature_line m : method_ok m → one_line (serverSignature QualifiedGoIdent m) = true.
Proof.
  intros []. unfold serverSignature, Join.
  pose proof (package_ident_name contextPackage "Context" eq_refl).
  pose proof (HQ _ mo_input0). pose proof (HQ _ mo_output0).
  one_line.
Qed.

#[local] Hint Resolve package_ident_name lower_first_name : printed.

(** *** The blocks of a service *)

(** The signatures of an interface say nothing to [read_line]. *)
Lemma reads_interface ms (sig : Method → string) k :
  Forall method_ok ms →
  (∀ m, method_ok m → one_line (sig m) = true ∧ ∃ r, sig m = m_GoName m +:+ String "(" r) →
  reads read_line (seq (for_each ms (λ m, P [print_comments (m_Leading m); sig m])) k) =
    reads read_line k.
Proof.
  intros Hms Hsig. apply reads_skip_for. eapply Forall_impl; [exact Hms|]. intros m Hm.
  destruct (Hsig m Hm) as [Hl [r Hr]]. destruct Hm.
  apply reads_commented; [done|done|apply reader_comment|]. rewrite Hr. by apply reader_call.
Qed.

Definition stub_items (s : Service) (m : Method) : list item :=
  [StubFunc (lower_first (s_GoName s) +:+ "Client") (m_GoName m); StubInvoke (m_Name m)].
Definition handler_items (s : Service) (m : Method) : list item :=
  [HandlerFunc (handlerName s m); DecodeInto (QualifiedGoIdent (m_Input m));
   HandlerCall (s_GoName s +:+ "Server") (m_GoName m)].
Definition entry_items (s : Service) (m : Method) : list item :=
  [EntryName (m_Name m); EntryHandler (handlerName s m)].

Lemma genClientMethod_items s m :
  service_ok s → method_ok m →
  reads read_line (genClientMethod QualifiedGoIdent s m) = Ok (stub_items s m).
Proof.
  intros Hs Hm. unfold genClientMethod. rewrite unexport_lower by by apply so_nonempty.
  destruct Hs.
  pose proof (clientSignature_line m Hm). pose proof (lower_first_name _ (ident_name _ so_go0)).
  destruct (clientSignature_call m) as [r Hr]. rewrite Hr in *.
  destruct Hm. pose proof (HQ _ mo_output0).
  cbn [mbind outcome_bind]. hit read_stub. skip. hit read_invoke. do 3 skip. reflexivity.
Qed.

Lemma genServerMethod_items s m :
  service_ok s → method_ok m →
  ∃ l, genServerMethod QualifiedGoIdent s m = Ok (l, handlerName s m) ∧
    reads read_line (Ok l) = Ok (handler_items s m).
Proof.
  intros Hs Hm. pose proof (handlerName_name s m Hs Hm) as Hn.
  pose proof (package_ident_name contextPackage "Context" eq_refl).
  destruct Hs, Hm. pose proof (HQ _ mo_input0).
  unfold genServerMethod. match goal with |- context [mbind _ ?o] => set (block := o) end.
  assert (reads read_line block = Ok (handler_items s m)) as (l&->&Hl)%reads_inv; [|by exists l].
  unfold block. unfold handlerName at 1. rewrite cat_cons.
  erewrite reads_hit; [|one_line|apply read_handler; repeat (apply name_cons; [auto with printed|]); done].
  hit read_decode. skip. hit read_call. skip. reflexivity.
Qed.

Lemma genServerMethods_items s ms :
  service_ok s → Forall method_ok ms →
  ∃ l, genServerMethods QualifiedGoIdent s ms = Ok (l, handlerName s <$> ms) ∧
    reads read_line (Ok l) = Ok (ms ≫= handler_items s).
Proof.
  intros Hs. induction 1 as [|m ms Hm _ (ls&IH&Hls)]; [by eexists|].
  destruct (genServerMethod_items s m Hs Hm) as (l&Hl&Hi).
  cbn [genServerMethods]. rewrite Hl. cbn [mbind outcome_bind]. rewrite IH.
  eexists. split; [reflexivity|].
  change (Ok (l ++ ls)) with (seq (Ok l) (Ok ls)). by rewrite reads_seq, Hi, Hls.
Qed.

Lemma genDescriptorEntry_items (nm : Method → string) ms i m :
  name (nm m) = true → method_ok m → ms !! i = Some m →
  reads read_line (genDescriptorEntry (nm <$> ms) (i, m)) = Ok [EntryName (m_Name m); EntryHandler (nm m)].
Proof.
  intros Hn Hm Hi. destruct Hm.
  unfold genDescriptorEntry. simpl (fst _). rewrite list_lookup_fmap, Hi. cbn [fmap option_fmap option_map].
  skip. hit read_name. hit read_entry. reflexivity.
Qed.

Lemma imap_pair_snd {A} (l : list A) : snd <$> imap pair l = l.
Proof.
  rewrite fmap_imap. apply list_eq. intros i. rewrite list_lookup_imap. by destruct (l !! i).
Qed.

Lemma genDescriptor_items (nm : Method → string) ms :
  (∀ m, method_ok m → name (nm m) = true) → Forall method_ok ms →
  reads read_line (for_each (imap pair ms) (genDescriptorEntry (nm <$> ms))) =
    Ok (ms ≫= λ m, [EntryName (m_Name m); EntryHandler (nm m)]).
Proof.
  intros Hn Hms.
  rewrite (reads_for _ _ _ ((λ m, [EntryName (m_Name m); EntryHandler (nm m)]) ∘ snd)).
  - f_equal. by rewrite <- list_fmap_bind, imap_pair_snd.
  - apply Forall_forall. intros [i m] Hin.
    apply elem_of_lookup_imap in Hin as (i'&m'&[= -> ->]&Hi).
    apply genDescriptorEntry_items; [apply Hn|..|done]; by eapply Forall_lookup_1.
Qed.

Definition service_items (s : Service) : list item :=
  let client := lower_first (s_GoName s) +:+ "Client" in
  [DeclInterface (s_GoName s +:+ "Client"); DeclStruct client; NewValue client] ++
  (s_Methods s ≫= stub_items s) ++
  [DeclInterface (s_GoName s +:+ "Server"); RegisterDesc (s_GoName s +:+ "_ServiceDesc")] ++
  (s_Methods s ≫= handler_items s) ++
  [DeclDesc (s_GoName s +:+ "_ServiceDesc"); DescService (s_FullName s)] ++
  (s_Methods s ≫= entry_items s).

Lemma genService_items s :
  service_ok s → reads read_line (genService QualifiedGoIdent s) = Ok (service_items s).
Proof.
  intros Hs. pose proof (so_nonempty s Hs). pose proof Hs as []. unfold genService, service_items.
  rewrite !cat_cons, !app_nil_r_string, unexport_lower by (by destruct (s_GoName s)).
  assert (∀ m, method_ok m → one_line (clientSignature QualifiedGoIdent m) = true ∧
    ∃ r, clientSignature QualifiedGoIdent m = m_GoName m +:+ String "(" r) as Hcs
    by (intros m Hm; split; [by apply clientSignature_line|apply clientSignature_call]).
  assert (∀ m, method_ok m → one_line (serverSignature QualifiedGoIdent m) = true ∧
    ∃ r, serverSignature QualifiedGoIdent m = m_GoName m +:+ String "(" r) as Hss
    by (intros m Hm; split; [by apply serverSignature_line|apply serverSignature_call]).
  destruct (genServerMethods_items s (s_Methods s) Hs so_methods0) as (l&Hgs&Hls).
  rewrite Hgs. cbn [mbind outcome_bind].
  do 2 skip. hit read_interface. rewrite (reads_interface _ _ _ so_methods0 Hcs).
  do 2 skip. hit read_struct. do 4 skip. hit read_new. do 2 skip.
  rewrite (reads_block _ _ _ (s_Methods s ≫= stub_items s)); [|apply reads_for].
  - skip. hit read_interface. rewrite (reads_interface _ _ _ so_methods0 Hss).
    do 3 skip. hit read_register. do 2 skip.
    rewrite (reads_block _ _ _ _ Hls). do 3 skip. hit read_desc. hit read_service. do 2 skip.
    rewrite (reads_block _ _ _ _ (genDescriptor_items (handlerName s) _
      (λ m, handlerName_name s m Hs) so_methods0)). do 2 skip.
    simpl. by rewrite app_nil_r, lower_first_app.
  - eapply Forall_impl; [exact so_methods0|]. intros m Hm. by apply genClientMethod_items.
Qed.

(** *** The types of a service *)

(** The lines of a service that name types, with the names. *)
Definition client_form (m : Method) : form * list string :=
  (ClientLine, [m_GoName m; Ident QualifiedGoIdent contextPackage "Context";
     QualifiedGoIdent (m_Input m); QualifiedGoIdent (m_Output m)]).
Definition server_form (m : Method) : form * list string :=
  (ServerLine, [m_GoName m; Ident QualifiedGoIdent contextPackage "Context";
     QualifiedGoIdent (m_Input m); QualifiedGoIdent (m_Output m)]).
Definition stub_forms (s : Service) (m : Method) : list (form * list string) :=
  [(StubLine, [lower_first (s_GoName s) +:+ "Client"; m_GoName m;
     Ident QualifiedGoIdent contextPackage "Context";
     QualifiedGoIdent (m_Input m); QualifiedGoIdent (m_Output m)]);
   (OutLine, [QualifiedGoIdent (m_Output m)])].
Definition handler_forms (s : Service) (m : Method) : list (form * list string) :=
  [(HandlerLine, [handlerName s m; Ident QualifiedGoIdent contextPackage "Context"]);
   (InLine, [QualifiedGoIdent (m_Input m)])].

Definition service_forms (s : Service) : list (form * list string) :=
  let client := s_GoName s +:+ "Client" in
  let server := s_GoName s +:+ "Server" in
  let wsrpc := Ident QualifiedGoIdent wsrpcPackage in
  [(TypeLine, [client; "interface"])] ++ (client_form <$> s_Methods s) ++
  [(TypeLine, [lower_first client; "struct"]); (FieldLine, [wsrpc "ClientInterface"]);
   (FactoryLine, [client; wsrpc "ClientInterface"; client])] ++
  (s_Methods s ≫= stub_forms s) ++
  [(TypeLine, [server; "interface"])] ++ (server_form <$> s_Methods s) ++
  [(RegisterLine, [server; wsrpc "ServiceRegistrar"; server])] ++
  (s_Methods s ≫= handler_forms s) ++
  [(DescriptorLine, [s_GoName s +:+ "_ServiceDesc"; wsrpc "ServiceDesc"]); (ServedLine, [server]);
   (MethodsLine, [wsrpc "MethodDesc"])].

Lemma comment_form l : read_form ("//" +:+ l) = None.
Proof. reflexivity. Qed.

Lemma clientSignature_form m :
  method_ok m → read_form (clientSignature QualifiedGoIdent m) = Some (client_form m).
Proof.
  intros []. pose proof (package_ident_name contextPackage "Context" eq_refl).
  pose proof (HQ _ mo_input0). pose proof (HQ _ mo_output0). unfold clientSignature.
  apply read_form_of; [refill|reflexivity|names|]. rewrite !cat_cons.
  change (before ClientLine typed_forms) with (before ServerLine typed_forms ++ [ServerLine]).
  apply Forall_app. split; [by apply call_misses|].
  apply Forall_singleton. by apply client_not_server_form.
Qed.

Lemma serverSignature_form m :
  method_ok m → read_form (serverSignature QualifiedGoIdent m) = Some (server_form m).
Proof.
  intros []. pose proof (package_ident_name contextPackage "Context" eq_refl).
  pose proof (HQ _ mo_input0). pose proof (HQ _ mo_output0). unfold serverSignature, Join.
  apply read_form_of; [refill|reflexivity|names|]. rewrite !cat_cons. by apply call_misses.
Qed.

Lemma reads_signatures ms (sig : Method → string) (g : Method → form * list string) k :
  Forall method_ok ms →
  (∀ m, method_ok m → one_line (sig m) = true ∧ read_form (sig m) = Some (g m)) →
  reads read_form (seq (for_each ms (λ m, P [print_comments (m_Leading m); sig m])) k) =
    (l ← reads read_form k; Ok ((g <$> ms) ++ l)).
Proof.
  intros Hms Hsig. apply reads_block. rewrite (reads_for _ _ _ (λ m, [g m])).
  - by rewrite bind_singleton.
  - eapply Forall_impl; [exact Hms|]. intros m Hm. destruct (Hsig m Hm). destruct Hm.
    by apply reads_commented_hit.
Qed.

Lemma genClientMethod_forms s m :
  service_ok s → method_ok m →
  reads read_form (genClientMethod QualifiedGoIdent s m) = Ok (stub_forms s m).
Proof.
  intros Hs Hm. unfold genClientMethod. rewrite unexport_lower by by apply so_nonempty.
  destruct Hs. pose proof (clientSignature_line m Hm).
  pose proof (lower_first_name _ (ident_name _ so_go0)).
  pose proof (package_ident_name contextPackage "Context" eq_refl).
  destruct Hm. pose proof (HQ _ mo_input0). pose proof (HQ _ mo_output0).
  cbn [mbind outcome_bind]. unfold stub_forms, clientSignature in *.
  typed StubLine [lower_first (s_GoName s) +:+ "Client"; m_GoName m;
     Ident QualifiedGoIdent contextPackage "Context";
     QualifiedGoIdent (m_Input m); QualifiedGoIdent (m_Output m)].
  typed OutLine [QualifiedGoIdent (m_Output m)].
  do 4 skip. reflexivity.
Qed.

Lemma genServerMethod_forms s m l :
  service_ok s → method_ok m → genServerMethod QualifiedGoIdent s m = Ok (l, handlerName s m) →
  reads read_form (Ok l) = Ok (handler_forms s m).
Proof.
  intros Hs Hm. pose proof (handlerName_name s m Hs Hm) as Hn.
  pose proof (package_ident_name contextPackage "Context" eq_refl).
  destruct Hs, Hm. pose proof (HQ _ mo_input0).
  unfold genServerMethod. match goal with |- context [mbind _ ?o] => set (block := o) end.
  assert (reads read_form block = Ok (handler_forms s m)) as (l'&->&Hl)%reads_inv; [|by intros [= <-]].
  unfold block, handler_forms.
  typed HandlerLine [handlerName s m; Ident QualifiedGoIdent contextPackage "Context"].
  typed InLine [QualifiedGoIdent (m_Input m)].
  do 3 skip. reflexivity.
Qed.

Lemma genServerMethods_forms s ms l :
  service_ok s → Forall method_ok ms →
  genServerMethods QualifiedGoIdent s ms = Ok (l, handlerName s <$> ms) →
  reads read_form (Ok l) = Ok (ms ≫= handler_forms s).
Proof.
  intros Hs Hms. revert l. induction Hms as [|m ms Hm Hms IH]; intros l; [by intros [= <-]|].
  cbn [genServerMethods].
  destruct (genServerMethod_items s m Hs Hm) as (l1&Hl1&_). rewrite Hl1. cbn [mbind outcome_bind].
  destruct (genServerMethods_items s ms Hs Hms) as (l2&Hl2&_). rewrite Hl2. intros [= <-].
  change (Ok (l1 ++ l2)) with (seq (Ok l1) (Ok l2)).
  by rewrite reads_seq, (genServerMethod_forms s m l1 Hs Hm Hl1), (IH l2 Hl2).
Qed.

(** An entry of the descriptor names no type. *)
Lemma genDescriptor_forms (nm : Method → string) ms k :
  (∀ m, method_ok m → name (nm m) = true) → Forall method_ok ms →
  reads read_form (seq (for_each (imap pair ms) (genDescriptorEntry (nm <$> ms))) k) =
    reads read_form k.
Proof.
  intros Hn Hms. apply reads_skip_for, Forall_forall. intros [i m] (i'&m'&[= -> ->]&Hi)%elem_of_lookup_imap.
  pose proof (Forall_lookup_1 _ _ _ _ Hms Hi) as Hm. pose proof (Hn _ Hm). destruct Hm.
  unfold genDescriptorEntry. simpl (fst _). rewrite list_lookup_fmap, Hi. cbn [fmap option_fmap option_map].
  do 3 skip. reflexivity.
Qed.

Lemma genService_forms s :
  service_ok s → reads read_form (genService QualifiedGoIdent s) = Ok (service_forms s).
Proof.
  intros Hs. pose proof (so_nonempty s Hs). pose proof Hs as []. unfold genService, service_forms.
  rewrite !cat_cons, !app_nil_r_string, unexport_lower by (by destruct (s_GoName s)).
  destruct (genServerMethods_items s (s_Methods s) Hs so_methods0) as (l&Hgs&_).
  pose proof (genServerMethods_forms s _ l Hs so_methods0 Hgs) as Hls.
  rewrite Hgs. cbn [mbind outcome_bind].
  do 2 skip. typed TypeLine [s_GoName s +:+ "Client"; "interface"].
  rewrite (reads_signatures _ _ _ _ so_methods0)
    by (split; [by apply clientSignature_line|by apply clientSignature_form]).
  do 2 skip.
  typed TypeLine [lower_first (s_GoName s +:+ "Client"); "struct"].
  typed FieldLine [Ident QualifiedGoIdent wsrpcPackage "ClientInterface"].
  do 2 skip.
  typed FactoryLine [s_GoName s +:+ "Client"; Ident QualifiedGoIdent wsrpcPackage "ClientInterface";
    s_GoName s +:+ "Client"].
  do 3 skip.
  rewrite (reads_block _ _ _ (s_Methods s ≫= stub_forms s)); [|apply reads_for].
  - skip. typed TypeLine [s_GoName s +:+ "Server"; "interface"].
    rewrite (reads_signatures _ _ _ _ so_methods0)
      by (split; [by apply serverSignature_line|by apply serverSignature_form]).
    do 2 skip.
    typed RegisterLine [s_GoName s +:+ "Server"; Ident QualifiedGoIdent wsrpcPackage "ServiceRegistrar";
      s_GoName s +:+ "Server"].
    do 3 skip. rewrite (reads_block _ _ _ _ Hls). do 3 skip.
    typed DescriptorLine [s_GoName s +:+ "_ServiceDesc"; Ident QualifiedGoIdent wsrpcPackage "ServiceDesc"].
    skip. typed ServedLine [s_GoName s +:+ "Server"].
    typed MethodsLine [Ident QualifiedGoIdent wsrpcPackage "MethodDesc"].
    rewrite (genDescriptor_forms _ _ _ (λ m, handlerName_name s m Hs) so_methods0).
    do 2 skip. simpl. reflexivity.
  - eapply Forall_impl; [exact so_methods0|]. intros m Hm. by apply genClientMethod_forms.
Qed.


(** *** The whole file *)

Definition version_ok (v : option Version) : Prop :=
  match v with Some v => one_line (Suffix v) = true | None => True end.

Lemma pretty_N_char_line n : Ascii.eqb (pretty_N_char n) nl = false.
Proof. unfold pretty_N_char. by repeat (case_match; try done). Qed.

Lemma pretty_N_go_line x s : one_line s = true → one_line (pretty_N_go x s) = true.
Proof.
  revert s. induction (N.lt_wf_0 x) as [x _ IH]. intros s Hs.
  destruct (decide (0 < x)%N) as [Hx|Hx].
  - rewrite pretty_N_go_step by done. apply IH; [by apply N.div_lt|].
    unfold one_line in *. cbn. by rewrite pretty_N_char_line, Hs.
  - assert (x = 0%N) as -> by lia. by rewrite pretty_N_go_0.
Qed.

Lemma pretty_line (z : Z) : one_line (pretty z) = true.
Proof.
  assert (∀ n : N, one_line (pretty n) = true) as Hn.
  { intros n. unfold pretty, pretty_N. case_decide; [done|]. by apply pretty_N_go_line. }
  destruct z; [done|apply Hn|].
  change (one_line ("-" +:+ pretty (N.pos p)) = true). unfold one_line. rewrite all_chars_app. apply Hn.
Qed.

Lemma protocVersion_line v : version_ok v → one_line (protocVersion v) = true.
Proof.
  destruct v as [v|]; [|done]. intros Hv. unfold protocVersion.
  pose proof (pretty_line (Major v)). pose proof (pretty_line (Minor v)).
  pose proof (pretty_line (Patch v)).
  assert (one_line (if bool_decide (Suffix v = "") then "" else "-" +:+ Suffix v) = true).
  { case_bool_decide; [done|]. unfold one_line. by rewrite all_chars_app. }
  one_line.
Qed.

Definition file_items (f : File) : list item := Services f ≫= service_items.

Lemma generateFileContent_items f :
  file_ok f → reads read_line (generateFileContent QualifiedGoIdent f) = Ok (file_items f).
Proof.
  intros [_ Hs]. unfold generateFileContent, file_items.
  assert (reads read_line (for_each (Services f) (genService QualifiedGoIdent)) =
    Ok (Services f ≫= service_items)) as Hf.
  { apply reads_for. eapply Forall_impl; [exact Hs|]. apply genService_items. }
  by destruct (Services f).
Qed.

Lemma printed_file compiler f :
  file_ok f → version_ok compiler → Services f ≠ [] →
  ∃ g, generateFile QualifiedGoIdent compiler f = Ok (Some g) ∧
    filename g = GeneratedFilenamePrefix f +:+ "_wsrpc.pb.go" ∧
    importPath g = f_GoImportPath f ∧
    read_source (content g) = file_items f.
Proof.
  intros Hf Hv%protocVersion_line Hs. pose proof (generateFileContent_items f Hf) as Hc.
  destruct Hf. unfold generateFile. destruct (Services f) as [|s0 ss]; [done|].
  match goal with |- context [mbind _ ?o] => set (chunks := o) end.
  assert (reads read_line chunks = Ok (file_items f)) as (l&->&Hl)%reads_inv.
  { unfold chunks. do 7 skip. exact Hc. }
  eexists. split_and!; [done..|]. cbn [content]. unfold read_source.
  rewrite reads_content by done. by injection Hl.
Qed.

Definition file_forms (f : File) : list (form * list string) := Services f ≫= service_forms.

Lemma printed_forms compiler f g :
  file_ok f → version_ok compiler →
  generateFile QualifiedGoIdent compiler f = Ok (Some g) → read_forms (content g) = file_forms f.
Proof.
  intros [Hp Hok] Hv%protocVersion_line. unfold generateFile, generateFileContent, file_forms.
  destruct (Services f) as [|s0 ss]; [done|].
  match goal with |- context [mbind _ ?o] => set (chunks := o) end.
  assert (reads read_form chunks = Ok ((s0 :: ss) ≫= service_forms)) as (l&->&Hl)%reads_inv.
  { unfold chunks. do 7 skip. apply reads_for. eapply Forall_impl; [exact Hok|]. apply genService_forms. }
  intros [= <-]. cbn [content]. unfold read_forms. rewrite reads_content by done. by injection Hl.
Qed.

(** *** Failures *)

(** [unexport] slices the name of a service, once per method. *)
Definition nameless (s : Service) : bool :=
  bool_decide (s_GoName s = "") && negb (bool_decide (s_Methods s = [])).

Lemma genServerMethods_ok s ms :
  ∃ l, genServerMethods QualifiedGoIdent s ms = Ok (l, handlerName s <$> ms).
Proof.
  induction ms as [|m ms [l IH]]; [by eexists|]. cbn [genServerMethods].
  unfold genServerMethod. cbn [mbind outcome_bind seq P]. rewrite IH. by eexists.
Qed.

Lemma genDescriptor_ok (nm : Method → string) ms :
  ∃ l, for_each (imap pair ms) (genDescriptorEntry (nm <$> ms)) = Ok l.
Proof.
  apply for_each_ok. intros [i m] (i'&m'&[= -> ->]&Hi)%elem_of_lookup_imap.
  unfold genDescriptorEntry. simpl (fst _). rewrite list_lookup_fmap, Hi. by eexists.
Qed.

Ltac prints := repeat first
  [ apply seq_ok | apply for_each_ok; intros ? _; eexists; reflexivity
  | apply genDescriptor_ok | eexists; reflexivity ].

Lemma genClientMethods_outcome s :
  if nameless s
  then ∀ k, seq (for_each (s_Methods s) (genClientMethod QualifiedGoIdent s)) k = Panic IndexOutOfRange
  else ∃ l, for_each (s_Methods s) (genClientMethod QualifiedGoIdent s) = Ok l.
Proof.
  unfold nameless. case_bool_decide as Hg; cbn [andb].
  - destruct (s_Methods s) as [|m ms]; cbn [negb]; [by eexists|].
    intros k. cbn [for_each]. unfold genClientMethod. by rewrite Hg.
  - apply for_each_ok. intros m _. unfold genClientMethod. rewrite unexport_lower by done.
    cbn [mbind outcome_bind]. prints.
Qed.

Lemma genService_outcome s :
  if nameless s then genService QualifiedGoIdent s = Panic IndexOutOfRange
  else ∃ l, genService QualifiedGoIdent s = Ok l.
Proof.
  pose proof (genClientMethods_outcome s) as Hc. destruct (genServerMethods_ok s (s_Methods s)) as [l Hl].
  unfold genService. rewrite Hl, unexport_lower by (by destruct (s_GoName s)).
  cbn [mbind outcome_bind]. destruct (nameless s).
  - repeat (apply seq_panic; [solve [prints]|]). by rewrite Hc.
  - prints. exact Hc.
Qed.

Definition crashes (f : File) : bool := Generate f && existsb nameless (Services f).
Definition to_print (f : File) : bool := Generate f && negb (bool_decide (Services f = [])).

Lemma generateFile_outcome compiler f :
  Services f ≠ [] →
  if existsb nameless (Services f)
  then generateFile QualifiedGoIdent compiler f = Panic IndexOutOfRange
  else ∃ g, generateFile QualifiedGoIdent compiler f = Ok (Some g) ∧
    filename g = GeneratedFilenamePrefix f +:+ "_wsrpc.pb.go".
Proof.
  intros Hf.
  assert (if existsb nameless (Services f)
    then for_each (Services f) (genService QualifiedGoIdent) = Panic IndexOutOfRange
    else ∃ l, for_each (Services f) (genService QualifiedGoIdent) = Ok l) as Hs.
  { clear Hf. induction (Services f) as [|s ss IH]; [by eexists|]. cbn [existsb for_each].
    pose proof (genService_outcome s) as Hg. destruct (nameless s); cbn [orb].
    - by rewrite Hg.
    - destruct (existsb nameless ss); [by apply seq_panic|by apply seq_ok]. }
  unfold generateFile, generateFileContent. destruct (Services f) as [|s ss]; [done|].
  destruct (existsb nameless (s :: ss)).
  - by rewrite Hs.
  - destruct Hs as [l Hs]. rewrite Hs. by eexists.
Qed.

Lemma run_outcome compiler files :
  if existsb crashes files
  then run QualifiedGoIdent compiler files = Panic IndexOutOfRange
  else ∃ gs, run QualifiedGoIdent compiler files = Ok gs ∧
    filename <$> gs =
      (λ f, GeneratedFilenamePrefix f +:+ "_wsrpc.pb.go") <$> filter (λ f, to_print f = true) files.
Proof.
  induction files as [|f files IH]; [by exists []|]. cbn [existsb run].
  unfold crashes at 1. destruct (Generate f) eqn:Hf; cbn [negb andb orb];
    [|by rewrite filter_cons_False by (unfold to_print; by rewrite Hf)].
  pose proof (generateFile_outcome compiler f) as Hg.
  destruct (decide (Services f = [])) as [He|He].
  - unfold generateFile. rewrite filter_cons_False by (unfold to_print; by rewrite Hf, He).
    rewrite He. cbn [existsb orb].
    cbn [mbind outcome_bind]. destruct (existsb crashes files); [by rewrite IH|].
    destruct IH as (gs&->&IH). by exists gs.
  - specialize (Hg He).
    rewrite filter_cons_True by (unfold to_print; by rewrite Hf, bool_decide_false).
    destruct (existsb nameless (Services f)); cbn [orb]; [by rewrite Hg|].
    destruct Hg as (g&->&Hg). cbn [mbind outcome_bind].
    destruct (existsb crashes files); [by rewrite IH|].
    destruct IH as (gs&->&IH). exists (g :: gs). split; [done|].
    rewrite !fmap_cons. by rewrite Hg, IH.
Qed.

(** C15: A file with services prints, under its prefix and [_wsrpc.pb.go], a source
    that reads back as its services' clients, servers, handlers and descriptors.
    Its calls read as [file_items]: each method under its name, its stub's call,
    its handler, the type that decodes and the method that calls.  Its types read
    as [file_forms]: in order, every signature of an interface or a stub with its
    input and output, every value made, every field, factory and registration,
    and the handler type of each descriptor.  Comments, and the fixed lines
    between, are not read. *)
Theorem generated_reads_back compiler f :
  file_ok f → version_ok compiler → Services f ≠ [] →
  ∃ g, generateFile QualifiedGoIdent compiler f = Ok (Some g) ∧
    filename g = GeneratedFilenamePrefix f +:+ "_wsrpc.pb.go" ∧
    importPath g = f_GoImportPath f ∧
    read_source (content g) = file_items f ∧
    read_forms (content g) = file_forms f.
Proof.
  intros Hf Hv Hs. destruct (printed_file compiler f Hf Hv Hs) as (g&Hg&Hn&Hi&Hr).
  exists g. split_and!; try done. by apply (printed_forms compiler).
Qed.

(** A run fails exactly if it meets a service without a name, and with methods,
    in a file to generate; otherwise it prints one file for each file to
    generate that has services, in their order. *)
Theorem generator_outcome compiler files :
  if existsb crashes files
  then run QualifiedGoIdent compiler files = Panic IndexOutOfRange
  else ∃ gs, run QualifiedGoIdent compiler files = Ok gs ∧
    filename <$> gs =
      (λ f, GeneratedFilenamePrefix f +:+ "_wsrpc.pb.go") <$> filter (λ f, to_print f = true) files.
Proof. apply run_outcome. Qed.
End Theorems.

#[export] Hint Resolve package_ident_name lower_first_name : printed.

Lemma generator_outcome_nameless :
  run (λ id, GoName id) None
    [mkFile "a" "p" "p" "a.proto" false [mkService "" "" [mkMethod "M" "M" (mkGoIdent "p" "Q") (mkGoIdent "p" "R") []]];
     mkFile "b" "p" "p" "b.proto" true [mkService "" "" []]] ≠ Panic IndexOutOfRange ∧
  run (λ id, GoName id) None
    [mkFile "b" "p" "p" "b.proto" true [mkService "" "" [mkMethod "M" "M" (mkGoIdent "p" "Q") (mkGoIdent "p" "R") []]]]
    = Panic IndexOutOfRange.
Proof. split; [discriminate|reflexivity]. Qed.

(** ** Witness: [intgtest/internal/rpcs/rpcs.proto] *)

(** A name of the package [p] is printed bare, any other behind the last element
    of its import path, here always an identifier. *)
Definition w_qualified (p : string) (id : GoIdent) : string :=
  if bool_decide (GoImportPath id = p) then GoName id
  else if bool_decide (GoImportPath id = contextPackage) then "context." +:+ GoName id
  else "wsrpc." +:+ GoName id.

#[global] Instance w_qualified_names p : QualifiedNames (w_qualified p).
Proof. intros id Hid. unfold w_qualified. repeat case_bool_decide; try done; by apply name_app. Qed.

Definition w_rpcs : string := "github.com/smartcontractkit/wsrpc/intgtest/internal/rpcs".
Definition w_echo : Service :=
  mkService "Echo" "rpcs.Echo"
    [mkMethod "Echo" "Echo" (mkGoIdent w_rpcs "EchoRequest") (mkGoIdent w_rpcs "EchoResponse") []].
Definition w_file : File :=
  mkFile "intgtest/internal/rpcs/rpcs" w_rpcs "rpcs" "rpcs.proto" true [w_echo].
Definition w_protoc : option Version := Some (mkVersion 3 21 7 "").

Lemma w_file_ok : file_ok w_file.
Proof. repeat first [done | constructor]. Qed.

Definition w_source : string :=
  match generateFile (w_qualified w_rpcs) w_protoc w_file with Ok (Some g) => content g | _ => "" end.

(** Some lines of the file of the repository, before formatting. *)
Example w_source_lines :
  lines_of w_source !! 3 = Some "// - protoc             v3.21.7" ∧
  lines_of w_source !! 21 =
    Some "func (c *echoClient) Echo(ctx context.Context, in *EchoRequest) (*EchoResponse, error){" ∧
  lines_of w_source !! 37 =
    Some "func _Echo_Echo_Handler(srv interface{}, ctx context.Context, dec func(interface{}) error) (interface{}, error) {".
Proof. repeat split. Qed.

Lemma generated_reads_back_witness :
  ∃ g, generateFile (w_qualified w_rpcs) w_protoc w_file = Ok (Some g) ∧
    filename g = "intgtest/internal/rpcs/rpcs_wsrpc.pb.go" ∧
    read_source (content g) =
      [DeclInterface "EchoClient"; DeclStruct "echoClient"; NewValue "echoClient";
       StubFunc "echoClient" "Echo"; StubInvoke "Echo"; DeclInterface "EchoServer";
       RegisterDesc "Echo_ServiceDesc"; HandlerFunc "_Echo_Echo_Handler";
       DecodeInto "EchoRequest"; HandlerCall "EchoServer" "Echo"; DeclDesc "Echo_ServiceDesc";
       DescService "rpcs.Echo"; EntryName "Echo"; EntryHandler "_Echo_Echo_Handler"] ∧
    read_forms (content g) =
      [(TypeLine, ["EchoClient"; "interface"]);
       (ClientLine, ["Echo"; "context.Context"; "EchoRequest"; "EchoResponse"]);
       (TypeLine, ["echoClient"; "struct"]);
       (FieldLine, ["wsrpc.ClientInterface"]);
       (FactoryLine, ["EchoClient"; "wsrpc.ClientInterface"; "EchoClient"]);
       (StubLine, ["echoClient"; "Echo"; "context.Context"; "EchoRequest"; "EchoResponse"]);
       (OutLine, ["EchoResponse"]);
       (TypeLine, ["EchoServer"; "interface"]);
       (ServerLine, ["Echo"; "context.Context"; "EchoRequest"; "EchoResponse"]);
       (RegisterLine, ["EchoServer"; "wsrpc.ServiceRegistrar"; "EchoServer"]);
       (HandlerLine, ["_Echo_Echo_Handler"; "context.Context"]);
       (InLine, ["EchoRequest"]);
       (DescriptorLine, ["Echo_ServiceDesc"; "wsrpc.ServiceDesc"]);
       (ServedLine, ["EchoServer"]);
       (MethodsLine, ["wsrpc.MethodDesc"])].
Proof.
  destruct (generated_reads_back (w_qualified w_rpcs) w_protoc w_file w_file_ok) as (g&Hg&Hn&_&Hr&Hf);
    [reflexivity|discriminate|].
  exists g. split; [exact Hg|]. split; [exact Hn|]. rewrite Hr, Hf. split; reflexivity.
Defined.
End GenWsrpc.
