(* ===== verification/GenUse.v ===== *)
(** Using what [cmd/protoc-gen-go-wsrpc] prints: the names of a generated file
    refer to each other and clash with none, and a call through a printed stub
    ends in the method of the server that registered the printed descriptor. *)
From S2P Require Import Prelude Protogen GenRead GenWsrpc.
From S2P Require Import Peer Message Service Rpc.
From Stdlib Require Import Ascii.

Module GenUse.

Section Use.
Import Protogen GenRead GenWsrpc.
Context (QualifiedGoIdent : GoIdent → string).
Abbreviation handler_items := (GenWsrpc.handler_items QualifiedGoIdent).
Abbreviation service_items := (GenWsrpc.service_items QualifiedGoIdent).
Abbreviation file_items := (GenWsrpc.file_items QualifiedGoIdent).

(** ** Names *)

(** Every name an item refers to is declared, or served, in the same file. *)
Definition scoped (items : list item) (i : item) : Prop :=
  match i with
  | NewValue t | StubFunc t _ => DeclStruct t ∈ items
  | RegisterDesc d => DeclDesc d ∈ items
  | HandlerCall t _ | InterceptedCall t _ _ => DeclInterface t ∈ items
  | EntryHandler f => HandlerFunc f ∈ items
  | StubInvoke n => EntryName n ∈ items
  | _ => True
  end.

Lemma scoped_mono items items' i : items ⊆ items' → scoped items i → scoped items' i.
Proof. destruct i; cbn; auto. Qed.

Lemma service_items_scoped s i : i ∈ service_items s → scoped (service_items s) i.
Proof.
  assert (∀ j, j ∈ (s_Methods s ≫= handler_items s) → j ∈ service_items s) as Hh.
  { intros j Hj. unfold service_items. rewrite !elem_of_app. tauto. }
  assert (∀ j, j ∈ (s_Methods s ≫= entry_items s) → j ∈ service_items s) as He.
  { intros j Hj. unfold service_items. rewrite !elem_of_app. tauto. }
  unfold service_items at 1. rewrite !elem_of_app, !elem_of_cons, !list_elem_of_bind.
  assert (∀ t, t ∈ [DeclStruct (lower_first (s_GoName s) +:+ "Client");
    DeclInterface (s_GoName s +:+ "Server"); DeclDesc (s_GoName s +:+ "_ServiceDesc")] →
    t ∈ service_items s) as Hd.
  { intros t. unfold service_items. rewrite !elem_of_app, !elem_of_cons, elem_of_nil. tauto. }
  intros [Hi|[(m&Hi&Hm)|[Hi|[(m&Hi&Hm)|[Hi|(m&Hi&Hm)]]]]];
    unfold stub_items, handler_items, entry_items in Hi;
    rewrite ?elem_of_cons, ?elem_of_nil in Hi; destruct_or?; subst; try done; cbn.
  all: try (apply Hd; rewrite !elem_of_cons; tauto).
  - apply He, list_elem_of_bind. exists m. split; [left|done].
  - apply Hh, list_elem_of_bind. exists m. split; [left|done].
Qed.

Lemma file_items_scoped f i : i ∈ file_items f → scoped (file_items f) i.
Proof.
  unfold file_items at 1. intros (s&Hi&Hs)%list_elem_of_bind.
  eapply scoped_mono; [|by apply service_items_scoped].
  intros j Hj. apply list_elem_of_bind. eauto.
Qed.

(** ** Types *)

(** What a file may name without declaring it: a type of the packages that its
    code is for, and a message of its own services, which another generator
    declares. *)
Definition library (t : string) : Prop :=
  ∃ id, t = QualifiedGoIdent id ∧
    id ∈ [mkGoIdent contextPackage "Context"; mkGoIdent wsrpcPackage "ClientInterface";
          mkGoIdent wsrpcPackage "ServiceRegistrar"; mkGoIdent wsrpcPackage "ServiceDesc";
          mkGoIdent wsrpcPackage "MethodDesc"].

Definition message (f : File) (t : string) : Prop :=
  ∃ s m, s ∈ Services f ∧ m ∈ s_Methods s ∧
    (t = QualifiedGoIdent (m_Input m) ∨ t = QualifiedGoIdent (m_Output m)).

(** Every type that a line names is declared in the file, as what the line takes
    it for, or one of these; and each method of a client's interface has a stub of
    its signature. *)
Definition typed (f : File) (items : list item) (lines : list (form * list string))
    (l : form * list string) : Prop :=
  match l with
  | (TypeLine, [t; k]) => k = "interface" ∧ DeclInterface t ∈ items ∨ k = "struct" ∧ DeclStruct t ∈ items
  | (FactoryLine, [_; p; t]) | (RegisterLine, [_; p; t]) => library p ∧ DeclInterface t ∈ items
  | (StubLine, [t; _; c; q; r]) => DeclStruct t ∈ items ∧ library c ∧ message f q ∧ message f r
  | (ClientLine, [m; c; q; r]) =>
      library c ∧ message f q ∧ message f r ∧
      ∃ t, DeclStruct t ∈ items ∧ (StubLine, [t; m; c; q; r]) ∈ lines
  | (ServerLine, [_; c; q; r]) => library c ∧ message f q ∧ message f r
  | (OutLine, [t]) | (InLine, [t]) => message f t
  | (ServedLine, [t]) => DeclInterface t ∈ items
  | (HandlerLine, [h; c]) => HandlerFunc h ∈ items ∧ library c
  | (DescriptorLine, [d; t]) => DeclDesc d ∈ items ∧ library t
  | (FieldLine, [t]) | (MethodsLine, [t]) => library t
  | _ => False
  end.

Lemma context_library : library (Ident QualifiedGoIdent contextPackage "Context").
Proof. eexists. split; [done|]. set_solver. Qed.

Lemma wsrpc_library n :
  n ∈ ["ClientInterface"; "ServiceRegistrar"; "ServiceDesc"; "MethodDesc"] →
  library (Ident QualifiedGoIdent wsrpcPackage n).
Proof. intros Hn. exists (mkGoIdent wsrpcPackage n). split; [done|]. set_solver. Qed.

Lemma method_messages f s m :
  s ∈ Services f → m ∈ s_Methods s →
  message f (QualifiedGoIdent (m_Input m)) ∧ message f (QualifiedGoIdent (m_Output m)).
Proof. intros Hs Hm. split; exists s, m; auto. Qed.

Lemma service_decls s :
  DeclInterface (s_GoName s +:+ "Client") ∈ service_items s ∧
  DeclStruct (lower_first (s_GoName s) +:+ "Client") ∈ service_items s ∧
  DeclInterface (s_GoName s +:+ "Server") ∈ service_items s ∧
  DeclDesc (s_GoName s +:+ "_ServiceDesc") ∈ service_items s ∧
  ∀ m, m ∈ s_Methods s → HandlerFunc (handlerName s m) ∈ service_items s.
Proof.
  unfold service_items. rewrite !elem_of_app, !elem_of_cons. split_and!; try tauto.
  intros m Hm. rewrite !elem_of_app. do 3 right. left. apply list_elem_of_bind. exists m. split; [left|done].
Qed.

Lemma file_decl f s i : s ∈ Services f → i ∈ service_items s → i ∈ file_items f.
Proof. intros Hs Hi. apply list_elem_of_bind. eauto. Qed.

Lemma stub_line f s m :
  s ∈ Services f → m ∈ s_Methods s →
  (StubLine, [lower_first (s_GoName s) +:+ "Client"; m_GoName m;
     Ident QualifiedGoIdent contextPackage "Context";
     QualifiedGoIdent (m_Input m); QualifiedGoIdent (m_Output m)]) ∈ file_forms QualifiedGoIdent f.
Proof.
  intros Hs Hm. apply list_elem_of_bind. exists s. split; [|done]. unfold service_forms.
  do 3 (apply elem_of_app; right). apply elem_of_app. left.
  apply list_elem_of_bind. exists m. split; [left|done].
Qed.

Lemma file_forms_typed f l :
  Forall service_ok (Services f) →
  l ∈ file_forms QualifiedGoIdent f → typed f (file_items f) (file_forms QualifiedGoIdent f) l.
Proof.
  intros Hok (s&Hl&Hs)%list_elem_of_bind.
  destruct (service_decls s) as (Hc&Hst&Hsv&Hd&Hh).
  apply (file_decl f s _ Hs) in Hc, Hst, Hsv, Hd. pose proof context_library as Hcx.
  pose proof (method_messages f s) as Hm. pose proof (stub_line f s) as Hl'.
  rewrite Forall_forall in Hok. pose proof (lower_first_app _ "Client" (so_nonempty _ (Hok s Hs))) as Hlf.
  unfold service_forms in Hl. rewrite Hlf, !elem_of_app, !elem_of_cons, !list_elem_of_bind, !list_elem_of_fmap in Hl.
  setoid_rewrite elem_of_nil in Hl.
  destruct_or! Hl; try destruct Hl as (m&Hl&Hmm); try (pose proof (Hm m Hs Hmm) as []);
    subst; cbn.
  all: try (split_and?; auto using wsrpc_library with set_solver; fail).
  - split_and!; eauto.
  - unfold stub_forms in Hl. rewrite !elem_of_cons, elem_of_nil in Hl.
    destruct_or! Hl; try done; subst; cbn; auto.
  - unfold handler_forms in Hl. rewrite !elem_of_cons, elem_of_nil in Hl.
    destruct_or! Hl; try done; subst; [|done].
    split; [|exact Hcx]. eapply file_decl; [exact Hs|]. by apply Hh.
Qed.

(** ** Calls *)

(** What makes a client's call through a stub end in the server's method. *)
Record serves (items : list item) (s : Service) : Prop := mkServes {
  sv_stub m : m ∈ s_Methods s → has items (stub_items s m);
  sv_handler m : m ∈ s_Methods s → has items (handler_items s m);
  sv_desc : ∃ pre post,
    items = pre ++ DeclDesc (s_GoName s +:+ "_ServiceDesc") :: DescService (s_FullName s) ::
      (s_Methods s ≫= entry_items s) ++ post ∧
    match post with EntryName _ :: _ => False | _ => True end;
}.

Lemma service_items_desc s :
  ∃ front, service_items s = front ++ DeclDesc (s_GoName s +:+ "_ServiceDesc") ::
    DescService (s_FullName s) :: (s_Methods s ≫= entry_items s).
Proof. eexists. unfold service_items. rewrite !app_assoc, <- (app_assoc _ [_; _]). reflexivity. Qed.

Lemma file_serves f s : s ∈ Services f → serves (file_items f) s.
Proof.
  intros Hs. split.
  - intros m Hm. apply (has_bind s); [done|]. unfold service_items.
    apply has_r, has_l. by apply (has_bind m); [|apply has_self].
  - intros m Hm. apply (has_bind s); [done|]. unfold service_items.
    do 3 apply has_r. apply has_l. by apply (has_bind m); [|apply has_self].
  - apply list_elem_of_split in Hs as (l1&l2&Hs). unfold file_items. rewrite Hs, bind_app, bind_cons.
    destruct (service_items_desc s) as [front ->].
    exists ((l1 ≫= service_items) ++ front), (l2 ≫= service_items).
    split; [|by destruct l2]. by rewrite <- !app_assoc.
Qed.

Section Calls.
Context (items : list item) (s : Service).
Hypothesis Hn : NoDup (filter (λ j, declares j = true) items).
Hypothesis Hs : serves items s.

Lemma serves_stub m :
  m ∈ s_Methods s →
  stub_invokes items (lower_first (s_GoName s) +:+ "Client") (m_GoName m) = Some (m_Name m).
Proof.
  intros Hm. unfold stub_invokes.
  by destruct (after_has (StubFunc _ _) _ [_] Hn eq_refl (sv_stub _ _ Hs m Hm)) as [post ->].
Qed.

Lemma serves_handler m :
  m ∈ s_Methods s →
  handler_calls items (handlerName s m) =
    Some (QualifiedGoIdent (m_Input m), s_GoName s +:+ "Server", m_GoName m).
Proof.
  intros Hm. unfold handler_calls.
  by destruct (after_has (HandlerFunc _) _ [_; _] Hn eq_refl (sv_handler _ _ Hs m Hm)) as [post ->].
Qed.

Lemma serves_descriptor :
  descriptor items (s_GoName s +:+ "_ServiceDesc") =
    Some (s_FullName s, (λ m, (m_Name m, handlerName s m)) <$> s_Methods s).
Proof.
  destruct (sv_desc _ _ Hs) as (pre&post&Hi&Hp). unfold descriptor.
  rewrite (after_decl (DeclDesc _) _ _ _ Hn eq_refl Hi). do 2 f_equal.
  rewrite <- (entries_app ((λ m, (m_Name m, handlerName s m)) <$> s_Methods s) post Hp).
  by rewrite list_fmap_bind.
Qed.
End Calls.

(** ** Handler names *)

Definition no_underscore (t : string) : bool := all_chars (λ b, negb (Ascii.eqb b "_")) t.

Lemma handlerName_inj s m s' m' :
  no_underscore (s_GoName s) = true → no_underscore (s_GoName s') = true →
  handlerName s m = handlerName s' m' → s_GoName s = s_GoName s' ∧ m_GoName m = m_GoName m'.
Proof.
  unfold no_underscore, handlerName. intros Hs Hs'. rewrite !cat_cons. intros [= Hh].
  assert (∀ t u, "_" +:+ t +:+ u = String "_" (t +:+ u)) as Hc by done.
  rewrite !app_nil_l_string, !Hc in Hh.
  apply (f_equal (until "_")) in Hh. rewrite !until_free in Hh by done.
  injection Hh as Hg Hm. split; [done|]. by eapply app_inj_l_string.
Qed.

(** ** No name is declared twice *)

Record distinct_names (f : File) : Prop := mkDistinct {
  dn_services : NoDup (s_GoName <$> Services f);
  dn_underscore : Forall (λ s, no_underscore (s_GoName s) = true) (Services f);
  dn_methods : Forall (λ s, NoDup (m_GoName <$> s_Methods s)) (Services f);
}.

Definition decl_items (s : Service) : list item :=
  let client := lower_first (s_GoName s) +:+ "Client" in
  [DeclInterface (s_GoName s +:+ "Client"); DeclStruct client] ++
  (StubFunc client ∘ m_GoName <$> s_Methods s) ++
  [DeclInterface (s_GoName s +:+ "Server")] ++
  (HandlerFunc ∘ handlerName s <$> s_Methods s) ++
  [DeclDesc (s_GoName s +:+ "_ServiceDesc")].

Lemma file_items_decls f :
  filter (λ j, declares j = true) (file_items f) = Services f ≫= decl_items.
Proof.
  unfold file_items. rewrite filter_bind. apply list_bind_ext; [|done]. intros s.
  unfold service_items, decl_items. rewrite !filter_app, !filter_bind.
  unfold stub_items, handler_items, entry_items.
  set (c := lower_first (s_GoName s) +:+ "Client").
  change (λ m, filter _ [StubFunc c (m_GoName m); _]) with (λ m, [StubFunc c (m_GoName m)]).
  change (λ m, filter _ [HandlerFunc (handlerName s m); _; _])
    with (λ m, [HandlerFunc (handlerName s m)]).
  change (λ m, filter _ [EntryName (m_Name m); _]) with (λ m : Method, @nil item).
  by rewrite !bind_singleton, bind_empty, app_nil_r.
Qed.

Lemma client_not_server s t : s +:+ "Client" ≠ t +:+ "Server".
Proof.
  change ("Client") with ("Clien" +:+ chr "t"). change ("Server") with ("Serve" +:+ chr "r").
  rewrite <- !app_assoc_string. by intros [_ [=]]%app_chr_inj.
Qed.

Lemma decl_items_inv s y :
  y ∈ decl_items s →
  match y with
  | DeclInterface t => t = s_GoName s +:+ "Client" ∨ t = s_GoName s +:+ "Server"
  | DeclStruct t | StubFunc t _ => t = lower_first (s_GoName s) +:+ "Client"
  | HandlerFunc h => ∃ m, h = handlerName s m
  | DeclDesc d => d = s_GoName s +:+ "_ServiceDesc"
  | _ => False
  end.
Proof.
  unfold decl_items. rewrite !elem_of_app, !elem_of_cons, !list_elem_of_fmap, !elem_of_nil.
  intros [[->|[->|[]]]|[(m&->&_)|[[->|[]]|[(m&->&_)|[->|[]]]]]]; simpl; eauto.
Qed.

Lemma decl_items_own s s' y :
  service_ok s → service_ok s' → no_underscore (s_GoName s) = true → no_underscore (s_GoName s') = true →
  y ∈ decl_items s → y ∈ decl_items s' → s_GoName s = s_GoName s'.
Proof.
  intros Hs Hs' Hu Hu' Hy%decl_items_inv Hy'%decl_items_inv.
  destruct y as [t|t|t|t m|n|d|h|q|t m|n|t m q|d|n|n|h]; try done.
  - destruct Hy as [->| ->], Hy' as [Ht|Ht]; [|by destruct (client_not_server _ _ Ht)|
      by destruct (client_not_server _ _ (eq_sym Ht))|]; by apply app_inj_l_string in Ht.
  - subst. apply app_inj_l_string, lower_first_inj in Hy'; by destruct Hs, Hs'.
  - subst. apply app_inj_l_string, lower_first_inj in Hy'; by destruct Hs, Hs'.
  - destruct Hy as [m ->], Hy' as [m' Hm]. by apply handlerName_inj in Hm as [? _].
  - subst. by apply app_inj_l_string in Hy'.
Qed.

Ltac clash Hf :=
  intros; repeat match goal with
  | |- ¬ _ => intros ?
  | H : _ ∨ _ |- _ => destruct H
  | H : _ ∈ _ <$> _ |- _ => apply Hf in H as [? H]
  | H : _ ∈ [_] |- _ => apply list_elem_of_singleton in H
  | H : _ ∈ _ :: _ |- _ => apply elem_of_cons in H
  | H : ?y = _ |- _ => is_var y; subst y
  end; try tauto; simpl in *; congruence.

Lemma decl_items_once s :
  service_ok s → no_underscore (s_GoName s) = true → NoDup (m_GoName <$> s_Methods s) →
  NoDup (decl_items s).
Proof.
  intros Hs Hu Hm. unfold decl_items.
  assert (NoDup (StubFunc (lower_first (s_GoName s) +:+ "Client") ∘ m_GoName <$> s_Methods s)).
  { apply (NoDup_fmap_key _ m_GoName); [|done]. by intros ? ? _ _ [=]. }
  assert (NoDup (HandlerFunc ∘ handlerName s <$> s_Methods s)).
  { apply (NoDup_fmap_key _ m_GoName); [|done]. intros m m' _ _ Hh.
    change (HandlerFunc (handlerName s m) = HandlerFunc (handlerName s m')) in Hh.
    assert (handlerName s m = handlerName s m') as He by congruence.
    by apply handlerName_inj in He as [_ ?]. }
  pose proof (client_not_server (s_GoName s) (s_GoName s)).
  assert (∀ A (f : A → item) l (y : item), y ∈ f <$> l → ∃ x, y = f x) as Hf
    by (intros A f l y (x&->&_)%list_elem_of_fmap; eauto).
  repeat (apply NoDup_app; split_and!); try done; rewrite ?NoDup_cons, ?elem_of_cons, ?elem_of_nil.
  - split_and!; [|set_solver|constructor]. intros [[=]|[]].
  - intros y Hy. rewrite !elem_of_app, !elem_of_cons, elem_of_nil. clash Hf.
  - intros y Hy. rewrite !elem_of_app, !elem_of_cons, elem_of_nil. clash Hf.
  - split; [set_solver|constructor].
  - intros y Hy. rewrite !elem_of_app, !elem_of_cons, elem_of_nil. clash Hf.
  - intros y Hy. clash Hf.
  - split; [set_solver|constructor].
Qed.

Lemma declared_once f :
  file_ok f → distinct_names f → NoDup (filter (λ j, declares j = true) (file_items f)).
Proof.
  intros [_ Hok] [Hn Hu Hm]. rewrite file_items_decls. rewrite Forall_forall in Hok, Hu, Hm.
  apply NoDup_bind.
  - intros s s' y Hs Hs' Hy Hy'. eapply NoDup_fmap_elem; [exact Hn|done..|].
    eapply decl_items_own; [..|exact Hy|exact Hy']; auto.
  - intros s Hs. apply decl_items_once; auto.
  - by eapply NoDup_fmap_1.
Qed.

(** ** Serving a generated file

    A printed handler is [Rpc.generated_handler]: [new q] is Go's [new(q)] and
    the server is its methods by name. *)
Section Serve.
Context {U : Type} `{Message.ProtoLib U} (new : string → U).

Definition Impl : Type := string → Peer.Peer.Context → U → Message.any U * option error.

Definition load_method (items : list item) (e : string * string) :
    option (Service.MethodDesc U Impl) :=
  '(q, _, m) ← handler_calls items e.2;
  Some (Service.mkMethodDesc e.1 (Rpc.generated_handler (new q) (λ srv, srv m))).

Definition load (items : list item) (d : string) : option (Service.ServiceDesc U Impl) :=
  '(n, es) ← descriptor items d;
  ms ← mapM (load_method items) es;
  Some (Service.mkServiceDesc n ms).

Definition loaded (m : Method) : Service.MethodDesc U Impl :=
  Service.mkMethodDesc (m_Name m)
    (Rpc.generated_handler (new (QualifiedGoIdent (m_Input m))) (λ srv, srv (m_GoName m))).

Lemma load_service items s :
  NoDup (filter (λ j, declares j = true) items) → serves items s →
  load items (s_GoName s +:+ "_ServiceDesc") =
    Some (Service.mkServiceDesc (s_FullName s) (loaded <$> s_Methods s)).
Proof.
  intros Hn Hs. unfold load. rewrite (serves_descriptor _ _ Hn Hs). simpl.
  assert (mapM (load_method items) ((λ m, (m_Name m, handlerName s m)) <$> s_Methods s) =
    Some (loaded <$> s_Methods s)) as ->; [|done].
  apply mapM_Some. rewrite Forall2_fmap. apply Forall_Forall2_diag, Forall_forall.
  intros m Hm. unfold load_method. simpl. by rewrite (serves_handler _ _ Hn Hs m Hm).
Qed.

Lemma loaded_last ms m :
  NoDup (m_Name <$> ms) → m ∈ ms → last (Service.named (m_Name m) (loaded <$> ms)) = Some (loaded m).
Proof.
  intros Hn (l1&l2&->)%list_elem_of_split. unfold Service.named.
  rewrite fmap_app, fmap_cons in Hn. rewrite fmap_app, fmap_cons. apply NoDup_app in Hn as (_&Hd&[Hm _]%NoDup_cons).
  rewrite filter_app, filter_cons_True by done.
  assert (∀ l, m_Name m ∉ m_Name <$> l →
    filter (λ d : Service.MethodDesc U Impl, Service.MethodName d = m_Name m) (loaded <$> l) = []) as Hf.
  { intros l. induction l as [|x l IH]; [done|]. rewrite !fmap_cons, not_elem_of_cons. intros [Hx Hl].
    rewrite filter_cons_False by (simpl; congruence). by apply IH. }
  rewrite !Hf; [done|done|]. intros Hi. apply (Hd _ Hi). by left.
Qed.
End Serve.

(** ** What a generated file is good for *)

Context `{HQ : !QualifiedNames QualifiedGoIdent}.

(** C34: In a printed file, every struct, interface, descriptor and handler that a
    line refers to is declared there, and every name that a stub invokes is served.
    Every type in a signature, a result, a field, a factory, a registration or a
    descriptor is one that the file declares, as the struct or interface the line
    takes it for, or a name that [QualifiedGoIdent] gives to a message of the
    file's services or to a type of the context and wsrpc packages, which are
    declared elsewhere; and each method of a client's interface has a stub with
    its signature. *)
Theorem generated_well_scoped compiler f :
  file_ok f → version_ok compiler → Services f ≠ [] →
  ∃ g, generateFile QualifiedGoIdent compiler f = Ok (Some g) ∧
    (∀ i, i ∈ read_source (content g) → scoped (read_source (content g)) i) ∧
    (∀ l, l ∈ read_forms (content g) →
      typed f (read_source (content g)) (read_forms (content g)) l).
Proof.
  intros Hf Hv Hs. destruct (printed_file QualifiedGoIdent compiler f Hf Hv Hs) as (g&Hg&_&_&Hr).
  exists g. split; [done|]. rewrite Hr, (printed_forms QualifiedGoIdent compiler f g Hf Hv Hg).
  split; [apply file_items_scoped|]. intros l. apply file_forms_typed, Hf.
Qed.

(** If the names of the services have no underscore and services, and the methods
    of each, have distinct names, a printed file declares no type, method, handler
    or descriptor twice. *)
Theorem generated_declares_once compiler f :
  file_ok f → version_ok compiler → distinct_names f → Services f ≠ [] →
  ∃ g, generateFile QualifiedGoIdent compiler f = Ok (Some g) ∧
    NoDup (filter (λ i, declares i = true) (read_source (content g))).
Proof.
  intros Hf Hv Hd Hs. destruct (printed_file QualifiedGoIdent compiler f Hf Hv Hs) as (g&Hg&_&_&Hr).
  exists g. split; [done|]. rewrite Hr. by apply declared_once.
Qed.

(** Underscores make two services share a handler name, which the printed file
    then declares twice. *)
Theorem generated_handler_clash compiler :
  version_ok compiler →
  ∃ f g, file_ok f ∧ NoDup (s_GoName <$> Services f) ∧
    Forall (λ s, NoDup (m_GoName <$> s_Methods s)) (Services f) ∧
    generateFile QualifiedGoIdent compiler f = Ok (Some g) ∧
    ¬ NoDup (filter (λ i, declares i = true) (read_source (content g))).
Proof.
  intros Hv.
  set (id n := mkGoIdent "pkg" n).
  set (f := mkFile "p" "pkg" "p" "p.proto" true
    [mkService "A" "p.A" [mkMethod "B_C" "B_C" (id "Q") (id "R") []];
     mkService "A_B" "p.A_B" [mkMethod "C" "C" (id "Q") (id "R") []]]).
  assert (file_ok f) as Hf by (repeat first [done | constructor]).
  destruct (printed_file QualifiedGoIdent compiler f Hf Hv) as (g&Hg&_&_&Hr); [done|].
  exists f, g. split_and!; [done| |repeat constructor; set_solver|done|].
  - apply (bool_decide_unpack _). by vm_compute.
  - rewrite Hr, file_items_decls. unfold f. cbn.
    rewrite !NoDup_cons. set_solver.
Qed.

(** C14: A call through a printed stub reaches the method it is named after: the stub
    invokes a name under which the server that registered the printed descriptor
    finds the printed handler, and that handler decodes the method's input type
    and calls the method.  Both endpoints run it for every request they accept. *)
Theorem generated_call_reaches_method {U} `{Message.ProtoLib U} (new : string → U) uuid_Parse
    compiler f s m :
  file_ok f → version_ok compiler → distinct_names f →
  s ∈ Services f → NoDup (m_Name <$> s_Methods s) → m ∈ s_Methods s →
  ∃ g n sd md, generateFile QualifiedGoIdent compiler f = Ok (Some g) ∧
    stub_invokes (read_source (content g)) (lower_first (s_GoName s) +:+ "Client") (m_GoName m) =
      Some n ∧
    load new (read_source (content g)) (s_GoName s +:+ "_ServiceDesc") = Some sd ∧
    Service.ServiceName sd = s_FullName s ∧
    Service.Handler md = Rpc.generated_handler (new (QualifiedGoIdent (m_Input m)))
      (λ srv, srv (m_GoName m)) ∧
    ∀ srv pub r, Message.Request_GetMethod r = n →
      Service.client_handleMessageRequest (Service.register sd srv) r =
        Service.run_handler md srv Peer.Peer.Background r ∧
      (Service.validateMessageRequest uuid_Parse (Service.register sd srv) r = Ok tt →
       Service.server_handleMessageRequest uuid_Parse (Service.register sd srv) pub r =
         Service.run_handler md srv
           (Peer.Peer.NewContext Peer.Peer.Background (Some (Peer.Peer.mkPeer pub))) r).
Proof.
  intros Hf Hv Hd Hs Hn Hm.
  destruct (printed_file QualifiedGoIdent compiler f Hf Hv) as (g&Hg&_&_&Hr);
    [by intros He; rewrite He in Hs; apply elem_of_nil in Hs|].
  pose proof (declared_once f Hf Hd) as Ho. pose proof (file_serves f s Hs) as Hv'.
  eexists g, _, _, (loaded new m). rewrite Hr.
  split; [done|]. split; [by apply serves_stub|]. split; [by apply load_service|].
  split; [done|]. split; [done|]. intros srv pub r Hrq.
  assert (∀ info, Service.register (Service.mkServiceDesc (s_FullName s) (loaded new <$> s_Methods s)) srv
      = Some info → Service.methods info !! Message.Request_GetMethod r = Some (loaded new m)) as Hl.
  { intros info [= <-]. simpl. rewrite Service.insert_all_named, Hrq, loaded_last; done. }
  specialize (Hl _ eq_refl). simpl in Hl. split.
  - unfold Service.client_handleMessageRequest. simpl. by rewrite Hl.
  - intros Hval. unfold Service.server_handleMessageRequest. rewrite Hval. simpl. by rewrite Hl.
Qed.
End Use.

(** ** Witnesses: [intgtest/internal/rpcs/rpcs.proto] *)
Import GenWsrpc.

Lemma w_distinct : distinct_names w_file.
Proof. split; apply (bool_decide_unpack _); by vm_compute. Qed.

Definition w_items : list GenRead.item := GenRead.read_source w_source.

Lemma generated_well_scoped_witness :
  ∃ g, generateFile (w_qualified w_rpcs) w_protoc w_file = Ok (Some g) ∧
    (∀ i, i ∈ GenRead.read_source (Protogen.content g) →
      scoped (GenRead.read_source (Protogen.content g)) i) ∧
    (∀ l, l ∈ GenRead.read_forms (Protogen.content g) →
      typed (w_qualified w_rpcs) w_file (GenRead.read_source (Protogen.content g))
        (GenRead.read_forms (Protogen.content g)) l).
Proof.
  apply (generated_well_scoped (w_qualified w_rpcs) w_protoc w_file w_file_ok);
    [reflexivity|discriminate].
Defined.

Lemma generated_declares_once_witness :
  ∃ g, generateFile (w_qualified w_rpcs) w_protoc w_file = Ok (Some g) ∧
    NoDup (filter (λ i, GenRead.declares i = true) (GenRead.read_source (Protogen.content g))).
Proof.
  apply (generated_declares_once (w_qualified w_rpcs) w_protoc w_file w_file_ok);
    [reflexivity|exact w_distinct|discriminate].
Defined.

Lemma generated_handler_clash_witness :
  ∃ f g, GenWsrpc.generateFile (w_qualified w_rpcs) None f = Ok (Some g) ∧
    ¬ NoDup (filter (λ i, GenRead.declares i = true) (GenRead.read_source (Protogen.content g))).
Proof.
  destruct (generated_handler_clash (w_qualified w_rpcs) None I) as (f&g&_&_&_&Hg&Hn).
  exists f, g. split; [exact Hg|exact Hn].
Defined.

Definition w_srv : Impl (U:=Message.Toy.U) :=
  λ m _ _, (Message.AnyProto (Message.PUser (Some ("called " +:+ m))), None).

Lemma generated_call_reaches_method_witness :
  ∃ n sd md, GenRead.stub_invokes w_items "echoClient" "Echo" = Some n ∧
    load (λ _, None : Message.Toy.U) w_items "Echo_ServiceDesc" = Some sd ∧
    ∀ r, Message.Request_GetMethod r = n →
      Service.client_handleMessageRequest (Service.register sd w_srv) r =
        Service.run_handler md w_srv Peer.Peer.Background r.
Proof.
  destruct (generated_call_reaches_method (w_qualified w_rpcs) (U:=Message.Toy.U)
    (λ _, None) (λ _, Ok 4%Z) w_protoc w_file w_echo (Protogen.mkMethod "Echo" "Echo"
      (Protogen.mkGoIdent w_rpcs "EchoRequest") (Protogen.mkGoIdent w_rpcs "EchoResponse") []))
    as (g&n&sd&md&Hg&Hn&Hl&_&Hh&Hr);
    [exact w_file_ok|reflexivity|exact w_distinct|left|repeat constructor; set_solver|left|].
  exists n, sd, md. vm_compute in Hg. injection Hg as <-. split; [exact Hn|]. split; [exact Hl|].
  intros r Hr'. exact (proj1 (Hr w_srv [] r Hr')).
Defined.
End GenUse.
