(* ===== verification/GenGrpc.v ===== *)
(** [cmd/protoc-gen-go-wsrpcgrpc]: the generator that prints, next to the wsRPC
    code of [cmd/protoc-gen-go-wsrpc], a gRPC client, handlers and descriptor for
    the same service; that it extends the plain generator, and which calls of
    the gRPC half arrive.

    The source repeats the plain generator's helpers, and so does this file.
    [g.AnnotateSymbol] is left out, as there.  What gRPC does with the printed
    code is its documented behaviour: a server routes a call by
    [/service/method] of the descriptors registered with it. *)
From S2P Require Import Prelude Protogen GenRead GenWsrpc.
From S2P Require Import Message Service GenUse.
From Stdlib Require Import Ascii.

Module GenGrpc.
Import Protogen GenRead.

Definition contextPackage : string := "context".
Definition wsrpcPackage : string := "github.com/smartcontractkit/wsrpc".
Definition grpcPackage : string := "google.golang.org/grpc".
Definition codesPackage : string := "google.golang.org/grpc/codes".
Definition statusPackage : string := "google.golang.org/grpc/status".
Definition version : string := "0.0.1".

Definition unexport (s : string) : outcome string :=
  match s with
  | "" => Panic IndexOutOfRange
  | String c s => Ok (ToLower1 c +:+ s)
  end.

Definition protocVersion (v : option Version) : string :=
  match v with
  | None => "(unknown)"
  | Some v =>
      let suffix := if bool_decide (Suffix v = "") then "" else "-" +:+ Suffix v in
      cat ["v"; pretty (Major v); "."; pretty (Minor v); "."; pretty (Patch v); suffix]
  end.

Section Generator.
Context (QualifiedGoIdent : GoIdent → string).

Definition Ident (package name : string) : string := QualifiedGoIdent (mkGoIdent package name).

Definition clientSignature (method : Method) : string :=
  cat [m_GoName method; "(ctx "; Ident contextPackage "Context";
       ", in *"; QualifiedGoIdent (m_Input method);
       ") ("; "*"; QualifiedGoIdent (m_Output method); ", error)"].

Definition genWsrpcClientMethod (service : Service) (method : Method) : gen :=
  recv ← unexport (s_GoName service);
  (P ["func (c *"; recv; "Client) "; clientSignature method; "{"] ;>
   P ["out := new("; QualifiedGoIdent (m_Output method); ")"] ;>
   P ["err := c.cc.Invoke(ctx, "; chr dq; m_Name method; chr dq; ", in, out)"] ;>
   P ["if err != nil { return nil, err }"] ;>
   P ["return out, nil"] ;>
   P ["}"] ;>
   P [])%gen.

Definition genGrpcClientMethod (service : Service) (method : Method) : gen :=
  recv ← unexport (s_GoName service);
  (P ["func (c *"; recv; "GrpcClient) "; clientSignature method; "{"] ;>
   P ["out := new("; QualifiedGoIdent (m_Output method); ")"] ;>
   P ["err := c.cc.Invoke(ctx, "; chr dq; "/pb."; s_GoName service; "/"; m_Name method; chr dq;
      ", in, out)"] ;>
   P ["if err != nil { return nil, err }"] ;>
   P ["return out, nil"] ;>
   P ["}"] ;>
   P [])%gen.

Definition serverSignature (method : Method) : string :=
  let reqArgs := [Ident contextPackage "Context"; cat ["*"; QualifiedGoIdent (m_Input method)]] in
  let ret := cat ["(*"; QualifiedGoIdent (m_Output method); ", error)"] in
  cat [m_GoName method; "("; Join reqArgs ", "; ") "; ret].

Definition printUnimplementedServerMethod (service : Service) (method : Method) : gen :=
  let serverType := cat [s_GoName service; "Server"] in
  let unimplementedServerType := cat ["Unimplemented"; serverType] in
  let reqType := QualifiedGoIdent (m_Input method) in
  let retType := QualifiedGoIdent (m_Output method) in
  let reqArgs := [Ident contextPackage "Context"; cat ["*"; reqType]] in
  let ret := cat ["(*"; retType; ", error)"] in
  (P ["func ("; unimplementedServerType; ") "; m_GoName method; "("; Join reqArgs ", "; ") "; ret;
      " {"] ;>
   P ["return nil, "; Ident statusPackage "Errorf"; "("; Ident codesPackage "Unimplemented"; ", ";
      chr dq; "method "; m_GoName method; " not implemented"; chr dq; ")"] ;>
   P ["}"])%gen.

Definition genWsrpcServerMethod (service : Service) (method : Method) :
    outcome (list string * string) :=
  let hname := cat ["_"; s_GoName service; "_"; m_GoName method; "_Handler"] in
  l ← (P ["func "; hname; "(srv interface{}, ctx "; Ident contextPackage "Context";
          ", dec func(interface{}) error) (interface{}, error) {"] ;>
       P ["in := new("; QualifiedGoIdent (m_Input method); ")"] ;>
       P ["if err := dec(in); err != nil { return nil, err }"] ;>
       P ["return srv.("; s_GoName service; "Server)."; m_GoName method; "(ctx, in)"] ;>
       P ["}"] ;>
       P [])%gen;
  Ok (l, hname).

Definition tab : string := chr "009".
Definition newline : string := chr nl.

Definition genGrpcServerMethod (service : Service) (method : Method) :
    outcome (list string * string) :=
  let serverType := cat [s_GoName service; "Server"] in
  let hname := cat ["_"; s_GoName service; "_"; m_GoName method; "_Grpc_Handler"] in
  l ← (P ["func "; hname; "(srv interface{}, ctx "; Ident contextPackage "Context";
          ", dec func(interface{}) error, interceptor grpc.UnaryServerInterceptor) (interface{}, error) {"] ;>
       P ["in := new("; QualifiedGoIdent (m_Input method); ")"] ;>
       P ["if err := dec(in); err != nil { return nil, err }"] ;>
       P ["if interceptor == nil {"; newline; tab; tab; "return srv.("; serverType; ").";
          m_GoName method; "(ctx, in)"; newline; tab; "}"] ;>
       P ["info := &"; Ident grpcPackage "UnaryServerInfo"; "{"] ;>
       P [tab; "Server:     srv,"] ;>
       P [tab; "FullMethod: "; chr dq; "/pb."; s_GoName service; "/"; m_GoName method; chr dq; ","] ;>
       P ["}"] ;>
       P ["handler := func(ctx "; Ident contextPackage "Context";
          ", req interface{}) (interface{}, error) {"] ;>
       P ["return srv.("; serverType; ")."; m_GoName method; "(ctx, req.(*"; m_GoName method;
          "Request))"] ;>
       P ["}"] ;>
       P ["return interceptor(ctx, in, info, handler)"] ;>
       P ["}"])%gen;
  Ok (l, hname).

(** The loop over the handlers: what it prints, and the two slices of names. *)
Fixpoint genServerMethods (service : Service) (methods : list Method) :
    outcome (list string * list string * list string) :=
  match methods with
  | [] => Ok ([], [], [])
  | method :: methods =>
      '(l, hname) ← genWsrpcServerMethod service method;
      '(l', hname') ← genGrpcServerMethod service method;
      '(ls, wsrpcHandlerNames, grpcHandlerNames) ← genServerMethods service methods;
      Ok (l ++ l' ++ ls, hname :: wsrpcHandlerNames, hname' :: grpcHandlerNames)
  end.

(** One entry of either descriptor. *)
Definition genDescriptorEntry (handlerNames : list string) (im : nat * Method) : gen :=
  match handlerNames !! im.1 with
  | None => Panic IndexOutOfRange
  | Some hname =>
      (P ["{"] ;>
       P ["MethodName: "; Quote (m_Name im.2); ","] ;>
       P ["Handler: "; hname; ","] ;>
       P ["},"])%gen
  end.

(** [genService], in three parts: the clients. *)
Definition genService_clients (service : Service) : gen :=
  let wsrpcClientName := cat [s_GoName service; "Client"] in
  let grpcClientName := cat [s_GoName service; "Grpc"; "Client"] in
  (P ["// This is a compile-time assertion to ensure that this generated file"] ;>
   P ["// is compatible with the grpc package it is being compiled against."] ;>
   P ["// Requires gRPC-Go v1.32.0 or later."] ;>
   P ["const _ = grpc.SupportPackageIsVersion7"] ;>
   P ["// "; wsrpcClientName; " is the client API for "; s_GoName service; " service."] ;>
   P ["//"] ;>
   (* Client interface. *)
   P ["type "; wsrpcClientName; " interface {"] ;>
   for_each (s_Methods service) (λ method,
     P [print_comments (m_Leading method); clientSignature method]) ;>
   P ["}"] ;>
   P [] ;>
   (wsrpcClientType ← unexport wsrpcClientName;
    grpcClientType ← unexport grpcClientName;
    (* wsrpc Client structure. *)
    P ["type "; wsrpcClientType; " struct {"] ;>
    P ["cc "; Ident wsrpcPackage "ClientInterface"] ;>
    P ["}"] ;>
    P [] ;>
    (* grpc Client structure. *)
    P ["type "; grpcClientType; " struct {"] ;>
    P ["cc "; Ident grpcPackage "ClientConnInterface"] ;>
    P ["}"] ;>
    P [] ;>
    (* wsrpc NewClient factory. *)
    P ["func New"; wsrpcClientName; " (cc "; Ident wsrpcPackage "ClientInterface"; ") ";
       wsrpcClientName; " {"] ;>
    P ["return &"; wsrpcClientType; "{cc}"] ;>
    P ["}"] ;>
    P [] ;>
    (* grpc NewClient factory. *)
    P ["func New"; grpcClientName; " (cc "; Ident grpcPackage "ClientConnInterface"; ") ";
       wsrpcClientName; " {"] ;>
    P ["return &"; grpcClientType; "{cc}"] ;>
    P ["}"] ;>
    P []) ;>
   for_each (s_Methods service) (λ method,
     genWsrpcClientMethod service method ;> genGrpcClientMethod service method))%gen.

(** The server interface, its two companions, and the registrations. *)
Definition genService_servers (service : Service) : gen :=
  let serverType := cat [s_GoName service; "Server"] in
  let unimplementedServerType := cat ["Unimplemented"; serverType] in
  let unsafeServerType := cat ["Unsafe"; serverType] in
  let wsrpcServiceDescVar := cat [s_GoName service; "_ServiceDesc"] in
  let grpcServiceDescVar := cat [s_GoName service; "_ServiceDesc"; "_Grpc"] in
  (P ["// "; serverType; " is the server API for "; s_GoName service; " service."] ;>
   P ["type "; serverType; " interface {"] ;>
   for_each (s_Methods service) (λ method,
     P [print_comments (m_Leading method); serverSignature method]) ;>
   P ["mustEmbed"; unimplementedServerType; "()"] ;>
   P ["}"] ;>
   P [] ;>
   (* Unimplemented server type. *)
   P ["// "; unimplementedServerType; " must be embedded to have forward compatible implementations."] ;>
   P ["type "; unimplementedServerType; " struct {"] ;>
   P ["}"] ;>
   P [] ;>
   for_each (s_Methods service) (printUnimplementedServerMethod service) ;>
   P ["func ("; unimplementedServerType; ") mustEmbed"; unimplementedServerType; "() {}"] ;>
   (* Unsafe server type. *)
   P ["// "; unsafeServerType; " may be embedded to opt out of forward compatibility for this service."] ;>
   P ["// Use of this interface is not recommended, as added methods to "; serverType; " will"] ;>
   P ["// result in compilation errors."] ;>
   P ["type "; unsafeServerType; " interface {"] ;>
   P ["mustEmbed"; unimplementedServerType; "()"] ;>
   P ["}"] ;>
   (* Wsrpc server registration. *)
   P ["func Register"; s_GoName service; "Server(s "; Ident wsrpcPackage "ServiceRegistrar";
      ", srv "; serverType; ") {"] ;>
   P ["s.RegisterService(&"; wsrpcServiceDescVar; ", srv)"] ;>
   P ["}"] ;>
   P [] ;>
   (* Grpc server registration. *)
   P ["func RegisterGrpc"; s_GoName service; "Server(s "; Ident grpcPackage "ServiceRegistrar";
      ", srv "; serverType; ") {"] ;>
   P ["s.RegisterService(&"; grpcServiceDescVar; ", srv)"] ;>
   P ["}"] ;>
   P [])%gen.

(** The handlers and the two descriptors. *)
Definition genService_descriptors (file : File) (service : Service) : gen :=
  let serverType := cat [s_GoName service; "Server"] in
  let wsrpcServiceDescVar := cat [s_GoName service; "_ServiceDesc"] in
  let grpcServiceDescVar := cat [s_GoName service; "_ServiceDesc"; "_Grpc"] in
  ('(handlers, wsrpcHandlerNames, grpcHandlerNames) ← genServerMethods service (s_Methods service);
   Ok handlers ;>
   (* Wsrpc Service descriptor. *)
   P ["// "; wsrpcServiceDescVar; " is the "; Ident wsrpcPackage "ServiceDesc"; " for ";
      s_GoName service; " service."] ;>
   P ["// It's only intended for direct use with "; Ident wsrpcPackage "RegisterService"; ","] ;>
   P ["// and not to be introspected or modified (even as a copy)"] ;>
   P ["var "; wsrpcServiceDescVar; " = "; Ident wsrpcPackage "ServiceDesc"; " {"] ;>
   P ["ServiceName: "; Quote (s_FullName service); ","] ;>
   P ["HandlerType: (*"; serverType; ")(nil),"] ;>
   P ["Methods: []"; Ident wsrpcPackage "MethodDesc"; "{"] ;>
   for_each (imap pair (s_Methods service)) (genDescriptorEntry wsrpcHandlerNames) ;>
   P ["},"] ;>
   P ["}"] ;>
   P [] ;>
   (* Grpc Service descriptor. *)
   P ["// "; grpcServiceDescVar; " is the "; Ident grpcPackage "ServiceDesc"; " for ";
      s_GoName service; " service."] ;>
   P ["// It's only intended for direct use with "; Ident grpcPackage "RegisterService"; ","] ;>
   P ["// and not to be introspected or modified (even as a copy)"] ;>
   P ["var "; grpcServiceDescVar; " = "; Ident grpcPackage "ServiceDesc"; " {"] ;>
   P ["ServiceName: "; Quote (s_FullName service); ","] ;>
   P ["HandlerType: (*"; serverType; ")(nil),"] ;>
   P ["Methods: []"; Ident grpcPackage "MethodDesc"; "{"] ;>
   for_each (imap pair (s_Methods service)) (genDescriptorEntry grpcHandlerNames) ;>
   P ["},"] ;>
   P ["Streams:  []"; Ident grpcPackage "StreamDesc"; "{},"] ;>
   P ["Metadata: "; chr dq; ProtoName file; chr dq; ","] ;>
   P ["}"] ;>
   P [])%gen.

Definition genService (file : File) (service : Service) : gen :=
  (genService_clients service ;> genService_servers service ;>
   genService_descriptors file service)%gen.

Definition generateFileContent (file : File) : gen :=
  match Services file with [] => Ok [] | services => for_each services (genService file) end.

Definition generateFile (compiler : option Version) (file : File) : outcome (option GeneratedFile) :=
  match Services file with
  | [] => Ok None
  | _ =>
      chunks ←
        (P ["// Code generated by protoc-gen-go-wsrpc. DO NOT EDIT."] ;>
         P ["// versions:"] ;>
         P ["// - protoc-gen-go-wsrpc v"; version] ;>
         P ["// - protoc             "; protocVersion compiler] ;>
         P [] ;>
         P ["package "; GoPackageName file] ;>
         P [] ;>
         generateFileContent file)%gen;
      Ok (Some (mkGenerated (GeneratedFilenamePrefix file +:+ "_wsrpc.pb.go")
        (f_GoImportPath file) (text chunks)))
  end.

(** The callback of [main]. *)
Fixpoint run (compiler : option Version) (files : list File) : outcome (list GeneratedFile) :=
  match files with
  | [] => Ok []
  | f :: files =>
      if negb (Generate f) then run compiler files
      else
        g ← generateFile compiler f;
        gs ← run compiler files;
        Ok (option_list g ++ gs)
  end.
End Generator.

(** [strFlags.Set]. *)
Definition strFlags_Set (f : list string) (value : string) : list string := f ++ [value].

(** ** What it prints extends what the plain generator prints *)

Definition extends (a b : gen) : Prop :=
  match a, b with
  | Ok l, Ok l' => l `sublist_of` l'
  | Err e, Err e' => e = e'
  | Panic p, Panic p' => p = p'
  | _, _ => False
  end.

Lemma extends_refl a : extends a a.
Proof. destruct a; cbn; reflexivity. Qed.

Lemma extends_seq a a' b b' : extends a a' → extends b b' → extends (seq a b) (seq a' b').
Proof.
  destruct a, a', b, b'; cbn; try done. intros ??. by apply sublist_app.
Qed.

Lemma extends_skip k a b : (∃ l, k = Ok l) → extends a b → extends a (seq k b).
Proof. intros [l ->]. destruct a, b; cbn; try done. intros ?. by apply sublist_inserts_l. Qed.

Lemma extends_more k a b : (∃ l, k = Ok l) → extends a b → extends a (seq b k).
Proof. intros [l ->]. destruct a, b; cbn; try done. intros ?. by apply sublist_inserts_r. Qed.

Lemma extends_for {A} (xs : list A) f g :
  (∀ x, extends (f x) (g x)) → extends (for_each xs f) (for_each xs g).
Proof. intros Hx. induction xs as [|x xs IH]; [apply extends_refl|by apply extends_seq]. Qed.

(** Match the next line of both, or step over a line of the longer one. *)
Ltac follow := first
  [ apply extends_seq; [solve [assumption | apply extends_refl | by apply extends_for]|]
  | apply extends_skip; [solve [eexists; reflexivity | apply for_each_ok; intros ? _; eexists; reflexivity]|] ].

Section Theorems.
Context (QualifiedGoIdent : GoIdent → string).

Lemma genClientMethod_extends s m :
  extends (GenWsrpc.genClientMethod QualifiedGoIdent s m)
    (seq (genWsrpcClientMethod QualifiedGoIdent s m) (genGrpcClientMethod QualifiedGoIdent s m)).
Proof.
  unfold GenWsrpc.genClientMethod, genWsrpcClientMethod, genGrpcClientMethod.
  destruct (s_GoName s) as [|c n]; [done|]. apply extends_more; [by eexists|]. apply extends_refl.
Qed.

Definition grpcHandlerName (service : Service) (method : Method) : string :=
  cat ["_"; s_GoName service; "_"; m_GoName method; "_Grpc_Handler"].

Lemma genServerMethods_extends s ms :
  ∃ l l', GenWsrpc.genServerMethods QualifiedGoIdent s ms = Ok (l, GenWsrpc.handlerName s <$> ms) ∧
    genServerMethods QualifiedGoIdent s ms =
      Ok (l', GenWsrpc.handlerName s <$> ms, grpcHandlerName s <$> ms) ∧
    extends (Ok l) (Ok l').
Proof.
  induction ms as [|m ms (l&l'&IH&IH'&Hl)]; [by exists [], []; split_and!; [..|apply extends_refl]|].
  cbn [GenWsrpc.genServerMethods genServerMethods].
  unfold GenWsrpc.genServerMethod, genWsrpcServerMethod, genGrpcServerMethod.
  cbn [mbind outcome_bind seq P]. rewrite IH, IH'. eexists _, _. split; [done|]. split; [done|].
  apply sublist_app; [done|]. by apply sublist_inserts_l.
Qed.

Lemma genService_extends f s :
  extends (GenWsrpc.genService QualifiedGoIdent s) (genService QualifiedGoIdent f s).
Proof.
  destruct (genServerMethods_extends s (s_Methods s)) as (l&l'&Hl&Hl'&Hs).
  unfold GenWsrpc.genService, genService, genService_clients, genService_servers, genService_descriptors.
  rewrite Hl, Hl'. cbn [mbind outcome_bind]. clear Hl Hl'.
  assert (∃ u, unexport (cat [s_GoName s; "Client"]) = Ok u ∧
    GenWsrpc.unexport (cat [s_GoName s; "Client"]) = Ok u) as (u&->&->)
    by (destruct (s_GoName s); eexists; split; reflexivity).
  assert (∃ u, unexport (cat [s_GoName s; "Grpc"; "Client"]) = Ok u) as (u'&->)
    by (destruct (s_GoName s); by eexists).
  cbn [mbind outcome_bind]. rewrite !seq_assoc.
  pose proof (genClientMethod_extends s).
  repeat follow. apply extends_skip; [apply GenWsrpc.genDescriptor_ok|].
  repeat (apply extends_skip; [by eexists|]). apply extends_refl.
Qed.

(** C33: The gRPC generator extends the plain one: on every file it fails exactly when
    the plain one does, and otherwise prints a file of the same name which holds
    all of the plain one's lines, in their order. *)
Theorem grpc_extends_wsrpc compiler f :
  match GenWsrpc.generateFile QualifiedGoIdent compiler f,
        generateFile QualifiedGoIdent compiler f with
  | Ok None, Ok None => True
  | Ok (Some g), Ok (Some g') =>
      filename g = filename g' ∧ importPath g = importPath g' ∧
      lines_of (content g) `sublist_of` lines_of (content g')
  | Err e, Err e' => e = e'
  | Panic p, Panic p' => p = p'
  | _, _ => False
  end.
Proof.
  unfold GenWsrpc.generateFile, generateFile.
  assert (extends (GenWsrpc.generateFileContent QualifiedGoIdent f)
    (generateFileContent QualifiedGoIdent f)) as Hc.
  { unfold GenWsrpc.generateFileContent, generateFileContent.
    destruct (Services f) as [|s ss]; [apply extends_refl|]. apply extends_for, genService_extends. }
  destruct (Services f) as [|s ss]; [done|].
  destruct (GenWsrpc.generateFileContent QualifiedGoIdent f) as [l|e|p],
    (generateFileContent QualifiedGoIdent f) as [l'|e'|p']; try exact Hc.
  split; [done|]. split; [done|]. cbn [content]. rewrite !lines_of_text.
  apply sublist_app; [|done]. apply sublist_bind.
  repeat apply sublist_skip. exact Hc.
Qed.
End Theorems.

(** ** What it prints, read back *)

Section Printed.
Context (QualifiedGoIdent : GoIdent → string) `{HQ : !GenWsrpc.QualifiedNames QualifiedGoIdent}.
Import GenWsrpc GenUse.

Lemma same_signatures m :
  GenGrpc.clientSignature QualifiedGoIdent m = GenWsrpc.clientSignature QualifiedGoIdent m ∧
  GenGrpc.serverSignature QualifiedGoIdent m = GenWsrpc.serverSignature QualifiedGoIdent m.
Proof. done. Qed.

Definition grpc_path (s : Service) (m : Method) : string := cat ["/pb."; s_GoName s; "/"; m_Name m].

Definition grpc_stub_items (s : Service) (m : Method) : list item :=
  [StubFunc (lower_first (s_GoName s) +:+ "GrpcClient") (m_GoName m); StubInvoke (grpc_path s m)].

Definition grpc_handler_items (s : Service) (m : Method) : list item :=
  [HandlerFunc (grpcHandlerName s m); DecodeInto (QualifiedGoIdent (m_Input m));
   HandlerCall (s_GoName s +:+ "Server") (m_GoName m);
   FullMethod (cat ["/pb."; s_GoName s; "/"; m_GoName m]);
   InterceptedCall (s_GoName s +:+ "Server") (m_GoName m) (m_GoName m +:+ "Request")].

Definition grpc_entry_items (s : Service) (m : Method) : list item :=
  [EntryName (m_Name m); EntryHandler (grpcHandlerName s m)].

Lemma genGrpcClientMethod_items s m :
  service_ok s → method_ok m →
  reads read_line (genGrpcClientMethod QualifiedGoIdent s m) = Ok (grpc_stub_items s m).
Proof.
  intros Hs Hm. unfold genGrpcClientMethod.
  change (GenGrpc.unexport (s_GoName s)) with (GenWsrpc.unexport (s_GoName s)).
  rewrite unexport_lower by by apply so_nonempty. destruct Hs.
  rewrite (proj1 (same_signatures m)).
  pose proof (clientSignature_line QualifiedGoIdent m Hm).
  pose proof (lower_first_name _ (ident_name _ so_go0)).
  destruct (clientSignature_call QualifiedGoIdent m) as [r Hr]. rewrite Hr in *.
  destruct Hm. pose proof (HQ _ mo_output0).
  cbn [mbind outcome_bind]. hit read_grpc_stub. skip.
  assert (quotable (grpc_path s m) = true).
  { unfold grpc_path, quotable. rewrite all_chars_cat. cbn.
    apply ident_name, name_quotable in so_go0. apply name_quotable in mo_name0.
    unfold quotable in so_go0, mo_name0. by rewrite so_go0, mo_name0. }
  assert (∀ k, reads read_line (P ["err := c.cc.Invoke(ctx, "; chr dq; "/pb."; s_GoName s; "/";
      m_Name m; chr dq; ", in, out)"] ;> k)%gen =
    reads read_line (P ["err := c.cc.Invoke(ctx, "; chr dq; grpc_path s m; chr dq; ", in, out)"] ;> k)%gen) as ->.
  { intros k. unfold P, grpc_path. rewrite !cat_cons, !app_assoc_string. done. }
  assert (one_line (grpc_path s m) = true) by (unfold grpc_path; one_line).
  hit read_invoke. do 3 skip. reflexivity.
Qed.

Lemma grpcHandlerName_name s m :
  service_ok s → method_ok m → name (grpcHandlerName s m) = true.
Proof. intros [] []. unfold grpcHandlerName. repeat (apply name_cons; [auto with printed|]). done. Qed.

(** The call of the method without an interceptor stands on a line of its own. *)
Lemma nil_interceptor_items t m :
  name t = true → name m = true →
  omap read_line (lines_of (cat ["if interceptor == nil {"; newline; tab; tab; "return srv.("; t; ").";
    m; "(ctx, in)"; newline; tab; "}"])) = [HandlerCall t m].
Proof.
  intros Ht Hm.
  change (cat ["if interceptor == nil {"; newline; tab; tab; "return srv.("; t; ")."; m; "(ctx, in)";
    newline; tab; "}"]) with
    (cat (["if interceptor == nil {"] ++ chr nl :: ([chr "009"; chr "009"; "return srv.("; t; ")."; m;
      "(ctx, in)"] ++ chr nl :: [tab; "}"]))).
  rewrite !lines_of_cat, !omap_app.
  rewrite (lines_of_one (cat [chr "009"; _; _; _; _; _; _])) by one_line.
  cbn [omap list_omap]. by rewrite (read_typed_call t m Ht Hm).
Qed.

Lemma genGrpcServerMethod_items s m :
  service_ok s → method_ok m →
  ∃ l, genGrpcServerMethod QualifiedGoIdent s m = Ok (l, grpcHandlerName s m) ∧
    reads read_line (Ok l) = Ok (grpc_handler_items s m).
Proof.
  intros Hs Hm. pose proof (grpcHandlerName_name s m Hs Hm) as Hn.
  pose proof (package_ident_name QualifiedGoIdent contextPackage "Context" eq_refl : name (GenGrpc.Ident QualifiedGoIdent _ _) = true).
  pose proof (package_ident_name QualifiedGoIdent grpcPackage "UnaryServerInfo" eq_refl : name (GenGrpc.Ident QualifiedGoIdent _ _) = true).
  destruct Hs, Hm. pose proof (HQ _ mo_input0).
  assert (name (s_GoName s +:+ "Server") = true) by (apply name_app; auto with printed).
  assert (quotable (s_GoName s) = true) by auto with printed.
  assert (quotable (m_GoName m) = true) by auto with printed.
  unfold genGrpcServerMethod. match goal with |- context [mbind _ ?o] => set (block := o) end.
  assert (reads read_line block = Ok (grpc_handler_items s m)) as (l&->&Hl)%reads_inv; [|by exists l].
  unfold block.
  change (cat [s_GoName s; "Server"]) with (s_GoName s +:+ "Server" +:+ "").
  rewrite app_nil_r_string.
  rewrite (cat_cons "_"). erewrite reads_hit; [|one_line|apply read_handler; repeat (apply name_cons; [auto with printed|]); done].
  hit read_decode. skip. rewrite reads_lines, nil_interceptor_items by auto with printed.
  do 2 skip. hit read_full. do 2 skip. hit read_intercepted. do 2 skip. reflexivity.
Qed.
Lemma grpc_genServerMethods_items s ms :
  service_ok s → Forall method_ok ms →
  ∃ l, GenGrpc.genServerMethods QualifiedGoIdent s ms =
      Ok (l, handlerName s <$> ms, grpcHandlerName s <$> ms) ∧
    reads read_line (Ok l) =
      Ok (ms ≫= λ m, handler_items QualifiedGoIdent s m ++ grpc_handler_items s m).
Proof.
  intros Hs. induction 1 as [|m ms Hm _ (ls&IH&Hls)]; [by eexists|].
  destruct (genServerMethod_items QualifiedGoIdent s m Hs Hm) as (l&Hl&Hi).
  destruct (genGrpcServerMethod_items s m Hs Hm) as (l'&Hl'&Hi').
  cbn [GenGrpc.genServerMethods].
  change (genWsrpcServerMethod QualifiedGoIdent s m) with (genServerMethod QualifiedGoIdent s m).
  rewrite Hl. cbn [mbind outcome_bind]. rewrite Hl'. cbn [mbind outcome_bind]. rewrite IH.
  eexists. split; [reflexivity|].
  change (Ok (l ++ l' ++ ls)) with (seq (Ok l) (seq (Ok l') (Ok ls))).
  rewrite !reads_seq, Hi, Hi', Hls. cbn [mbind outcome_bind]. by rewrite bind_cons, app_assoc.
Qed.

Lemma printUnimplementedServerMethod_items s m :
  service_ok s → method_ok m →
  reads read_line (printUnimplementedServerMethod QualifiedGoIdent s m) = Ok [].
Proof.
  intros [] []. unfold printUnimplementedServerMethod, Join.
  pose proof (package_ident_name QualifiedGoIdent contextPackage "Context" eq_refl : name (GenGrpc.Ident QualifiedGoIdent _ _) = true).
  pose proof (package_ident_name QualifiedGoIdent statusPackage "Errorf" eq_refl : name (GenGrpc.Ident QualifiedGoIdent _ _) = true).
  pose proof (package_ident_name QualifiedGoIdent codesPackage "Unimplemented" eq_refl : name (GenGrpc.Ident QualifiedGoIdent _ _) = true).
  pose proof (HQ _ mo_input0). pose proof (HQ _ mo_output0).
  do 2 skip. reflexivity.
Qed.

Lemma grpc_ident_name p n : name n = true → name (GenGrpc.Ident QualifiedGoIdent p n) = true.
Proof. intros Hn. by apply HQ. Qed.
#[local] Hint Resolve grpc_ident_name grpcHandlerName_name : printed.

Lemma interface_items ms k :
  Forall method_ok ms →
  reads read_line (for_each ms (λ m,
    P [print_comments (m_Leading m); GenGrpc.clientSignature QualifiedGoIdent m]) ;> k)%gen =
    reads read_line k ∧
  reads read_line (for_each ms (λ m,
    P [print_comments (m_Leading m); GenGrpc.serverSignature QualifiedGoIdent m]) ;> k)%gen =
    reads read_line k.
Proof.
  intros Hms. split; apply reads_interface; try done; intros m Hm.
  - split; [by apply clientSignature_line|apply clientSignature_call].
  - split; [by apply serverSignature_line|apply serverSignature_call].
Qed.

Definition grpc_client_items (s : Service) : list item :=
  let client := lower_first (s_GoName s) +:+ "Client" in
  let grpcClient := lower_first (s_GoName s) +:+ "GrpcClient" in
  [DeclInterface (s_GoName s +:+ "Client"); DeclStruct client; DeclStruct grpcClient;
   NewValue client; NewValue grpcClient] ++
  (s_Methods s ≫= λ m, stub_items s m ++ grpc_stub_items s m).

Definition grpc_server_items (s : Service) : list item :=
  [DeclInterface (s_GoName s +:+ "Server"); DeclStruct ("Unimplemented" +:+ s_GoName s +:+ "Server");
   DeclInterface ("Unsafe" +:+ s_GoName s +:+ "Server");
   RegisterDesc (s_GoName s +:+ "_ServiceDesc"); RegisterDesc (s_GoName s +:+ "_ServiceDesc_Grpc")].

Definition grpc_descriptor_items (s : Service) : list item :=
  (s_Methods s ≫= λ m, handler_items QualifiedGoIdent s m ++ grpc_handler_items s m) ++
  [DeclDesc (s_GoName s +:+ "_ServiceDesc"); DescService (s_FullName s)] ++
  (s_Methods s ≫= entry_items s) ++
  [DeclDesc (s_GoName s +:+ "_ServiceDesc_Grpc"); DescService (s_FullName s)] ++
  (s_Methods s ≫= grpc_entry_items s).

Definition grpc_service_items (s : Service) : list item :=
  grpc_client_items s ++ grpc_server_items s ++ grpc_descriptor_items s.

(** Go's [+] of the names of a service, evaluated. *)
Ltac concat :=
  rewrite ?cat_cons, ?app_nil_r_string;
  change ("Grpc" +:+ "Client") with "GrpcClient";
  change ("_ServiceDesc" +:+ "_Grpc") with "_ServiceDesc_Grpc".

Lemma genService_clients_items s :
  service_ok s → reads read_line (genService_clients QualifiedGoIdent s) = Ok (grpc_client_items s).
Proof.
  intros Hs. pose proof (so_nonempty s Hs). pose proof Hs as []. unfold genService_clients. concat.
  change GenGrpc.unexport with GenWsrpc.unexport.
  rewrite !unexport_lower by (by destruct (s_GoName s)). cbn [mbind outcome_bind].
  do 6 skip. hit read_interface. rewrite (proj1 (interface_items _ _ so_methods0)).
  do 2 skip. hit read_struct. do 3 skip. hit read_struct. do 4 skip. hit read_new. do 3 skip.
  hit read_new. do 2 skip.
  rewrite (reads_for _ _ _ (λ m, stub_items s m ++ grpc_stub_items s m)).
  - simpl. unfold grpc_client_items. by rewrite !lower_first_app.
  - eapply Forall_impl; [exact so_methods0|]. intros m Hm.
    change (genWsrpcClientMethod QualifiedGoIdent s m) with (genClientMethod QualifiedGoIdent s m).
    by rewrite reads_seq, genClientMethod_items, genGrpcClientMethod_items.
Qed.

Lemma genService_servers_items s :
  service_ok s → reads read_line (genService_servers QualifiedGoIdent s) = Ok (grpc_server_items s).
Proof.
  intros Hs. pose proof Hs as []. unfold genService_servers. concat.
  skip. hit read_interface. rewrite (proj2 (interface_items _ _ so_methods0)).
  do 4 skip. hit read_struct. do 2 skip.
  rewrite reads_skip_for.
  - do 4 skip. hit read_interface. do 3 skip. hit read_register. do 3 skip. hit read_register.
    skip. reflexivity.
  - eapply Forall_impl; [exact so_methods0|]. intros m Hm. by apply printUnimplementedServerMethod_items.
Qed.

Lemma genService_descriptors_items f s :
  one_line (ProtoName f) = true → service_ok s →
  reads read_line (genService_descriptors QualifiedGoIdent f s) = Ok (grpc_descriptor_items s).
Proof.
  intros Hf Hs. pose proof Hs as []. unfold genService_descriptors.
  destruct (grpc_genServerMethods_items s (s_Methods s) Hs so_methods0) as (l&Hgs&Hls).
  rewrite Hgs. concat. cbn [mbind outcome_bind].
  change GenGrpc.genDescriptorEntry with GenWsrpc.genDescriptorEntry.
  rewrite (reads_block _ _ _ _ Hls). do 3 skip. hit read_desc. hit read_service. do 2 skip.
  rewrite (reads_block _ _ _ _ (genDescriptor_items (handlerName s) _
    (λ m, handlerName_name s m Hs) so_methods0)).
  do 6 skip. hit read_desc. hit read_service. do 2 skip.
  rewrite (reads_block _ _ _ _ (genDescriptor_items (grpcHandlerName s) _
    (λ m, grpcHandlerName_name s m Hs) so_methods0)).
  do 4 skip. simpl. unfold grpc_descriptor_items. by rewrite app_nil_r.
Qed.

Lemma grpc_genService_items f s :
  one_line (ProtoName f) = true → service_ok s →
  reads read_line (GenGrpc.genService QualifiedGoIdent f s) = Ok (grpc_service_items s).
Proof.
  intros Hf Hs. unfold GenGrpc.genService.
  by rewrite !reads_seq, genService_clients_items, genService_servers_items, genService_descriptors_items.
Qed.

Definition grpc_file_items (f : File) : list item := Services f ≫= grpc_service_items.

Lemma grpc_printed_file compiler f :
  file_ok f → version_ok compiler → one_line (ProtoName f) = true → Services f ≠ [] →
  ∃ g, GenGrpc.generateFile QualifiedGoIdent compiler f = Ok (Some g) ∧
    read_source (content g) = grpc_file_items f.
Proof.
  intros [Hp Hok] Hv%protocVersion_line Hn Hs. unfold GenGrpc.generateFile, GenGrpc.generateFileContent.
  unfold grpc_file_items. destruct (Services f) as [|s0 ss] eqn:He; [done|]. clear Hs.
  match goal with |- context [mbind _ ?o] => set (chunks := o) end.
  assert (reads read_line chunks = Ok ((s0 :: ss) ≫= grpc_service_items)) as (l&->&Hl)%reads_inv.
  { unfold chunks. change (GenGrpc.protocVersion compiler) with (GenWsrpc.protocVersion compiler).
    do 7 skip. apply reads_for. eapply Forall_impl; [exact Hok|]. intros s. by apply grpc_genService_items. }
  eexists. split; [done|]. cbn [content]. unfold read_source. rewrite reads_content by done. by injection Hl.
Qed.

(** *** Calls *)

Lemma grpc_file_serves f s : s ∈ Services f → serves QualifiedGoIdent (grpc_file_items f) s.
Proof.
  intros Hs. assert (∀ js, has (grpc_service_items s) js → has (grpc_file_items f) js) as Hf
    by (intros js; by apply has_bind).
  split.
  - intros m Hm. apply Hf, has_l, has_r. apply (has_bind m); [done|apply has_prefix].
  - intros m Hm. apply Hf, has_r, has_r, has_l. apply (has_bind m); [done|apply has_prefix].
  - apply list_elem_of_split in Hs as (l1&l2&Hs). unfold grpc_file_items.
    rewrite Hs, bind_app, bind_cons. unfold grpc_service_items at 2, grpc_descriptor_items.
    eexists ((l1 ≫= grpc_service_items) ++ grpc_client_items s ++ grpc_server_items s ++
      (s_Methods s ≫= λ m, handler_items QualifiedGoIdent s m ++ grpc_handler_items s m)), _.
    split; [by rewrite <- !app_assoc|done].
Qed.

Lemma grpc_file_has f s m :
  s ∈ Services f → m ∈ s_Methods s →
  has (grpc_file_items f) (grpc_stub_items s m) ∧ has (grpc_file_items f) (grpc_handler_items s m).
Proof.
  intros Hs Hm. split; apply (has_bind s); try done.
  - apply has_l, has_r. apply (has_bind m); [done|apply has_r, has_self].
  - apply has_r, has_r, has_l. apply (has_bind m); [done|apply has_r, has_self].
Qed.

Lemma grpc_file_descriptor f s :
  NoDup (filter (λ j, declares j = true) (grpc_file_items f)) → s ∈ Services f →
  descriptor (grpc_file_items f) (s_GoName s +:+ "_ServiceDesc_Grpc") =
    Some (s_FullName s, (λ m, (m_Name m, grpcHandlerName s m)) <$> s_Methods s).
Proof.
  intros Hn (l1&l2&Hs)%list_elem_of_split. unfold descriptor.
  assert (grpc_file_items f = ((l1 ≫= grpc_service_items) ++ grpc_client_items s ++ grpc_server_items s ++
      (s_Methods s ≫= λ m, handler_items QualifiedGoIdent s m ++ grpc_handler_items s m) ++
      [DeclDesc (s_GoName s +:+ "_ServiceDesc"); DescService (s_FullName s)] ++
      (s_Methods s ≫= entry_items s)) ++ DeclDesc (s_GoName s +:+ "_ServiceDesc_Grpc") ::
      DescService (s_FullName s) :: (s_Methods s ≫= grpc_entry_items s) ++ (l2 ≫= grpc_service_items)) as Hi.
  { unfold grpc_file_items. rewrite Hs, bind_app, bind_cons.
    unfold grpc_service_items at 2, grpc_descriptor_items. by rewrite <- !app_assoc. }
  rewrite (after_decl (DeclDesc _) _ _ _ Hn eq_refl Hi). do 2 f_equal.
  rewrite <- (entries_app ((λ m, (m_Name m, grpcHandlerName s m)) <$> s_Methods s)
    (l2 ≫= grpc_service_items)) by (by destruct l2).
  by rewrite list_fmap_bind.
Qed.

(** The path under which a gRPC server finds a method of a registered
    descriptor. *)
Definition grpc_route (service method : string) : string := cat ["/"; service; "/"; method].

Lemma grpc_path_route s m m' :
  name (s_GoName s) = true → name (s_FullName s) = true →
  grpc_path s m = grpc_route (s_FullName s) m' ↔
  s_FullName s = "pb." +:+ s_GoName s ∧ m_Name m = m'.
Proof.
  intros Hg Hf. unfold grpc_path, grpc_route. rewrite !cat_cons.
  assert ("/pb." +:+ s_GoName s +:+ "/" +:+ m_Name m +:+ cat [] =
    String "/" (("pb." +:+ s_GoName s) +:+ String "/" (m_Name m +:+ ""))) as ->
    by (by rewrite app_assoc_string).
  change ("/" +:+ s_FullName s +:+ "/" +:+ m' +:+ cat []) with
    (String "/" (s_FullName s +:+ String "/" (m' +:+ ""))).
  rewrite !app_nil_r_string. split; [|by intros [<- ->]].
  intros [= Hp]. apply (f_equal (until "/")) in Hp.
  rewrite !until_name in Hp; [by injection Hp|done|done|done|by apply name_app].
Qed.

(** Of a generated gRPC client and server of the same file, the client's call of a
    method reaches the server exactly if the service's full name is its Go name in
    a package [pb]: the client prints that package into every path. *)
Theorem grpc_call_reaches_server_iff compiler f s m :
  file_ok f → version_ok compiler → one_line (ProtoName f) = true →
  NoDup (filter (λ j, declares j = true) (grpc_file_items f)) →
  s ∈ Services f → m ∈ s_Methods s →
  ∃ g path n es, GenGrpc.generateFile QualifiedGoIdent compiler f = Ok (Some g) ∧
    stub_invokes (read_source (content g)) (lower_first (s_GoName s) +:+ "GrpcClient") (m_GoName m) =
      Some path ∧
    descriptor (read_source (content g)) (s_GoName s +:+ "_ServiceDesc_Grpc") = Some (n, es) ∧
    (path ∈ (grpc_route n ∘ fst <$> es) ↔ s_FullName s = "pb." +:+ s_GoName s).
Proof.
  intros Hf Hv Hp Hn Hs Hm.
  destruct (grpc_printed_file compiler f Hf Hv Hp) as (g&Hg&Hr);
    [by intros He; rewrite He in Hs; apply elem_of_nil in Hs|].
  destruct (after_has (StubFunc _ _) _ [_] Hn eq_refl (proj1 (grpc_file_has f s m Hs Hm))) as [post Ha].
  exists g, (grpc_path s m), (s_FullName s), ((λ m, (m_Name m, grpcHandlerName s m)) <$> s_Methods s).
  rewrite Hr. split; [done|]. split; [unfold stub_invokes; by rewrite Ha|].
  split; [by apply grpc_file_descriptor|].
  apply fo_services in Hf. apply (proj1 (Forall_forall _ _) Hf) in Hs as Hs'. destruct Hs'.
  apply ident_name in so_go0. rewrite <- list_fmap_compose, list_elem_of_fmap. split.
  - intros (m'&Hm'&_). by apply (grpc_path_route s m (m_Name m')) in Hm' as [? _].
  - intros He. exists m. split; [|done]. by apply grpc_path_route.
Qed.

(** The gRPC handler of a method passes an interceptor the path the client calls
    exactly if the method's proto name is its Go name, and hands the intercepted
    request to the method as the type it decoded exactly if the input type is
    named after the method. *)
Theorem grpc_interceptor compiler f s m :
  file_ok f → version_ok compiler → one_line (ProtoName f) = true →
  NoDup (filter (λ j, declares j = true) (grpc_file_items f)) →
  s ∈ Services f → m ∈ s_Methods s →
  ∃ g d t p q rest, GenGrpc.generateFile QualifiedGoIdent compiler f = Ok (Some g) ∧
    after (HandlerFunc (grpcHandlerName s m)) (read_source (content g)) =
      Some (DecodeInto d :: HandlerCall t (m_GoName m) :: FullMethod p ::
        InterceptedCall t (m_GoName m) q :: rest) ∧
    (stub_invokes (read_source (content g)) (lower_first (s_GoName s) +:+ "GrpcClient") (m_GoName m) =
      Some p ↔ m_Name m = m_GoName m) ∧
    (q = d ↔ QualifiedGoIdent (m_Input m) = m_GoName m +:+ "Request").
Proof.
  intros Hf Hv Hp Hn Hs Hm.
  destruct (grpc_printed_file compiler f Hf Hv Hp) as (g&Hg&Hr);
    [by intros He; rewrite He in Hs; apply elem_of_nil in Hs|].
  destruct (grpc_file_has f s m Hs Hm) as [Hst Hha].
  destruct (after_has (StubFunc _ _) _ [_] Hn eq_refl Hst) as [post Ha].
  destruct (after_has (HandlerFunc _) _ [_; _; _; _] Hn eq_refl Hha) as [rest Hb].
  eexists g, _, _, _, _, rest. rewrite Hr. split; [done|]. split; [exact Hb|].
  unfold stub_invokes. rewrite Ha. split; [|done].
  unfold grpc_path. split; [|by intros ->].
  intros Hq%(inj Some). do 3 apply cat_inj_cons in Hq. by rewrite !cat_one in Hq.
Qed.

(** The wsRPC half of the file serves its calls as the plain generator's file
    does. *)
Theorem grpc_file_serves_wsrpc {U} `{Message.Message.ProtoLib U} (new : string → U) compiler f s m :
  file_ok f → version_ok compiler → one_line (ProtoName f) = true →
  NoDup (filter (λ j, declares j = true) (grpc_file_items f)) →
  s ∈ Services f → NoDup (m_Name <$> s_Methods s) → m ∈ s_Methods s →
  ∃ g sd, GenGrpc.generateFile QualifiedGoIdent compiler f = Ok (Some g) ∧
    stub_invokes (read_source (content g)) (lower_first (s_GoName s) +:+ "Client") (m_GoName m) =
      Some (m_Name m) ∧
    load new (read_source (content g)) (s_GoName s +:+ "_ServiceDesc") = Some sd ∧
    last (Service.Service.named (m_Name m) (Service.Service.Methods sd)) =
      Some (loaded QualifiedGoIdent new m).
Proof.
  intros Hf Hv Hp Hn Hs Hd Hm.
  destruct (grpc_printed_file compiler f Hf Hv Hp) as (g&Hg&Hr);
    [by intros He; rewrite He in Hs; apply elem_of_nil in Hs|].
  pose proof (grpc_file_serves f s Hs) as Hsv. eexists g, _. rewrite Hr.
  split; [done|]. split; [by eapply serves_stub|]. split; [by apply load_service|].
  by apply loaded_last.
Qed.
End Printed.

(** ** Witness: [intgtest/internal/rpcs/rpcs.proto] *)

Definition w_grpc_items : list item :=
  match generateFile (GenWsrpc.w_qualified GenWsrpc.w_rpcs) GenWsrpc.w_protoc GenWsrpc.w_file with
  | Ok (Some g) => read_source (content g)
  | _ => []
  end.

Definition w_method : Method :=
  mkMethod "Echo" "Echo" (mkGoIdent GenWsrpc.w_rpcs "EchoRequest")
    (mkGoIdent GenWsrpc.w_rpcs "EchoResponse") [].

Lemma w_once :
  NoDup (filter (λ j, declares j = true)
    (grpc_file_items (GenWsrpc.w_qualified GenWsrpc.w_rpcs) GenWsrpc.w_file)).
Proof. apply (bool_decide_unpack _). by vm_compute. Qed.

(** The package of the repository's test service is [rpcs]: its generated gRPC
    client calls a path that its generated gRPC server does not have. *)
Lemma grpc_call_reaches_server_iff_witness :
  ∃ path es, stub_invokes w_grpc_items "echoGrpcClient" "Echo" = Some path ∧
    descriptor w_grpc_items "Echo_ServiceDesc_Grpc" = Some ("rpcs.Echo", es) ∧
    path ∉ (grpc_route "rpcs.Echo" ∘ fst <$> es).
Proof.
  destruct (grpc_call_reaches_server_iff (GenWsrpc.w_qualified GenWsrpc.w_rpcs) GenWsrpc.w_protoc
    GenWsrpc.w_file GenWsrpc.w_echo w_method) as (g&path&n&es&Hg&Hp&Hd&Hi);
    [exact GenWsrpc.w_file_ok|reflexivity|reflexivity|exact w_once|left|left|].
  vm_compute in Hg. injection Hg as <-. exists path, es. split; [exact Hp|].
  assert (n = "rpcs.Echo") as -> by (vm_compute in Hd; by injection Hd).
  split; [exact Hd|]. intros Hin%Hi. discriminate Hin.
Defined.

Lemma grpc_interceptor_witness :
  ∃ d t p q rest, after (HandlerFunc "_Echo_Echo_Grpc_Handler") w_grpc_items =
    Some (DecodeInto d :: HandlerCall t "Echo" :: FullMethod p :: InterceptedCall t "Echo" q :: rest) ∧
    q = d ∧ stub_invokes w_grpc_items "echoGrpcClient" "Echo" = Some p.
Proof.
  destruct (grpc_interceptor (GenWsrpc.w_qualified GenWsrpc.w_rpcs) GenWsrpc.w_protoc
    GenWsrpc.w_file GenWsrpc.w_echo w_method) as (g&d&t&p&q&rest&Hg&Ha&Hp&Hq);
    [exact GenWsrpc.w_file_ok|reflexivity|reflexivity|exact w_once|left|left|].
  vm_compute in Hg. injection Hg as <-. exists d, t, p, q, rest. split; [exact Ha|].
  split; [apply Hq; reflexivity|apply Hp; reflexivity].
Defined.
End GenGrpc.
