(* ===== verification/GenMain.v ===== *)
(** [main.go] of the two code generators: the command line, the flags that [protoc]'s
    parameter sets, and the loop over the files of the request.

    The two differ in the name they print and in [generateFile], which the Section takes
    as [run] ([GenWsrpc.run], [GenGrpc.run]).  [protogen.Options.Run] is a parameter; what
    [main] relies on is its documentation: it hands every generator parameter that it does
    not know to [ParamFunc], in order, and if none is refused it answers with the files of
    the plugin function, or its error.  The feature bit that the response also carries
    ([SupportedFeatures]) is left out. *)
From S2P Require Import Prelude Protogen GenWsrpc GenGrpc.
From Stdlib Require Import Ascii.

Module GenMain.
Import Protogen.

(** ** [flag] *)

(** [strconv.ParseBool]. *)
Definition ParseBool (s : string) : option bool :=
  if bool_decide (s ∈ ["1"; "t"; "T"; "true"; "TRUE"; "True"]) then Some true
  else if bool_decide (s ∈ ["0"; "f"; "F"; "false"; "FALSE"; "False"]) then Some false
  else None.

(** The name and the value of a flag: what stands before and after the first [=] that is
    not its first character. *)
Fixpoint cut_eq (s : string) : string * option string :=
  match s with
  | "" => ("", None)
  | String c s =>
      if Ascii.eqb c "=" then ("", Some s)
      else let '(n, v) := cut_eq s in (String c n, v)
  end.

Definition split_flag (s : string) : string * option string :=
  match s with
  | "" => ("", None)
  | String c s => let '(n, v) := cut_eq s in (String c n, v)
  end.

(** What stands after the dashes of an argument; none if it is no flag. *)
Inductive dashed := NoFlag | Flag (name : string).

Definition undash (arg : string) : dashed :=
  match arg with
  | String "-" "" => NoFlag
  | String "-" (String "-" "") => NoFlag   (* [--] ends the flags *)
  | String "-" (String "-" name) => Flag name
  | String "-" name => Flag name
  | _ => NoFlag
  end.

Definition bad_name (name : string) : bool :=
  match name with
  | "" => true
  | String c _ => Ascii.eqb c "-" || Ascii.eqb c "="
  end.

Inductive parsed :=
  | Parsed (showVersion : bool)
  | Help
  | Bad (e : error).

(** [flag.Parse] with the one flag [version]. *)
Fixpoint Parse (showVersion : bool) (args : list string) : parsed :=
  match args with
  | [] => Parsed showVersion
  | arg :: args =>
      match undash arg with
      | NoFlag => Parsed showVersion
      | Flag name =>
          if bad_name name then Bad ("bad flag syntax: " +:+ arg)
          else
            let '(name, value) := split_flag name in
            if bool_decide (name = "version") then
              match value with
              | None => Parse true args
              | Some v =>
                  match ParseBool v with
                  | Some b => Parse b args
                  | None => Bad (cat ["invalid boolean value "; Quote v; " for -version: parse error"])
                  end
              end
            else if bool_decide (name ∈ ["help"; "h"]) then Help
            else Bad ("flag provided but not defined: -" +:+ name)
      end
  end.

(** ** The flags of [protoc]'s parameter *)

Definition strFlags := list string.

(** [strFlags.String]: [fmt.Sprintf] with [%s] of a slice. *)
Fixpoint join (f : strFlags) : string :=
  match f with [] => "" | [v] => v | v :: f => cat [v; " "; join f] end.
Definition strFlags_String (f : strFlags) : string := cat ["["; join f; "]"].

(** [flags.Set]: the set has the one flag [client-services], whose [Set] is the same in
    both generators. *)
Definition flags_Set (name value : string) (clientServices : strFlags) : outcome strFlags :=
  if bool_decide (name = "client-services") then Ok (GenWsrpc.strFlags_Set clientServices value)
  else Err ("no such flag -" +:+ name).

(** [ParamFunc] on each parameter. *)
Fixpoint set_all (ParamFunc : string → string → strFlags → outcome strFlags)
    (ps : list (string * string)) (f : strFlags) : outcome strFlags :=
  match ps with
  | [] => Ok f
  | (name, value) :: ps => f' ← ParamFunc name value f; set_all ParamFunc ps f'
  end.

(** ** [main] *)

(** How the process ends. *)
Inductive ending :=
  | Returns (stdout : string)                       (* [main] returns without a plugin run *)
  | Exits (code : Z) (message : error)              (* [flag.Parse] exits *)
  | Refuses (e : error)                             (* a parameter was refused *)
  | Answers (r : outcome (list GeneratedFile)).     (* the plugin's response *)

Section Main.
(** The request, the parameters in it that protogen does not know, its files and the
    version of its compiler. *)
Context {Request : Type} (params : Request → list (string * string))
  (files : Request → list File) (compiler : Request → option Version).
Context (Run : (string → string → strFlags → outcome strFlags) →
  (option Version → list File → outcome (list GeneratedFile)) → strFlags → Request → ending).
Hypothesis run_accepts : ∀ ParamFunc f fs q fs',
  set_all ParamFunc (params q) fs = Ok fs' → Run ParamFunc f fs q = Answers (f (compiler q) (files q)).
Hypothesis run_refuses : ∀ ParamFunc f fs q e,
  set_all ParamFunc (params q) fs = Err e → Run ParamFunc f fs q = Refuses e.

(** The generator's name, its version and its [generateFile] over the files. *)
Context (program version : string) (run : option Version → list File → outcome (list GeneratedFile)).

Definition main (args : list string) (q : Request) : ending :=
  match Parse false args with
  | Parsed true => Returns (cat [program; " "; version; chr nl])
  | Parsed false => Run flags_Set run [] q
  | Help => Exits 0 "flag: help requested"
  | Bad e => Exits 2 e
  end.

Lemma set_all_services (ps : list (string * string)) f :
  (∀ p, p ∈ ps → p.1 = "client-services") → set_all flags_Set ps f = Ok (f ++ ps.*2).
Proof.
  revert f. induction ps as [|[n v] ps IH]; intros f Hps; [simpl; by rewrite app_nil_r|].
  pose proof (Hps (n, v) (list_elem_of_here _ _)) as Hn. simpl in Hn. subst n.
  change (set_all flags_Set (("client-services", v) :: ps) f) with (set_all flags_Set ps (f ++ [v])).
  rewrite IH; [simpl; by rewrite <- app_assoc|]. intros p Hp. apply Hps. by right.
Qed.

Lemma set_all_unknown (ps : list (string * string)) f :
  (∃ p, p ∈ ps ∧ p.1 ≠ "client-services") →
  ∃ name, set_all flags_Set ps f = Err ("no such flag -" +:+ name) ∧ name ∈ ps.*1 ∧ name ≠ "client-services".
Proof.
  revert f. induction ps as [|[n v] ps IH]; intros f (p&Hp&Hn); [by apply not_elem_of_nil in Hp|].
  cbn [set_all]. unfold flags_Set at 2. destruct (decide (n = "client-services")) as [Hc|Hc];
    [rewrite bool_decide_true by done|rewrite bool_decide_false by done]; simpl.
  - destruct (IH (f ++ [v])) as (name&Hs&Hin&Hne).
    { exists p. split; [|done]. by apply elem_of_cons in Hp as [->|?]. }
    exists name. unfold GenWsrpc.strFlags_Set. rewrite Hs. split_and!; [done|by right|done].
  - exists n. split_and!; [done|by left|done].
Qed.

(** What a generator does with a request when it is run without arguments, as [protoc]
    does: if each parameter that protogen does not know is [client-services], its
    response is that of the files, and does not depend on which services they name; a
    parameter of any other name is refused. *)
Theorem generator_answers q :
  (if decide (Forall (λ p, p.1 = "client-services") (params q))
   then main [] q = Answers (run (compiler q) (files q))
   else ∃ name, main [] q = Refuses ("no such flag -" +:+ name) ∧ name ∈ (params q).*1 ∧ name ≠ "client-services").
Proof.
  unfold main. simpl. case_decide as Hp.
  - eapply run_accepts, set_all_services. by apply Forall_forall.
  - apply not_Forall_Exists, Exists_exists in Hp as (p&Hp&Hn); [|intros ?; apply _].
    destruct (set_all_unknown (params q) []) as (name&Hs&Hin&Hne); [by exists p|].
    exists name. split_and!; [by apply run_refuses|done..].
Qed.

(** A command line asks for the version with any number of spellings of the flag, of which
    the last counts; then no request is read. *)
Theorem generator_version n q :
  main (replicate n "--version=0" ++ ["-version"]) q = Returns (cat [program; " "; version; chr nl]) ∧
  main (replicate n "-version" ++ ["--version=F"; "input.proto"; "-x"]) q = main [] q.
Proof.
  assert (∀ b m args, Parse b (replicate m "--version=0" ++ ["-version"]) = Parsed true ∧
    (Parse b (replicate m "-version" ++ "--version=F" :: args) = Parse false args)) as H1.
  { intros b m. revert b. induction m as [|m IH]; intros b args; [done|]. simpl. split; apply IH. exact []. }
  split; unfold main; [by rewrite (proj1 (H1 false n []))|]. by rewrite (proj2 (H1 false n _)).
Qed.
End Main.

(** The two programs. *)
Definition wsrpc_main {Request} Run (QualifiedGoIdent : GoIdent → string) :
    list string → Request → ending :=
  main Run "protoc-gen-go-wsrpc" GenWsrpc.version (GenWsrpc.run QualifiedGoIdent).
Definition wsrpcgrpc_main {Request} Run (QualifiedGoIdent : GoIdent → string) :
    list string → Request → ending :=
  main Run "protoc-gen-go-wsrpcgrpc" GenGrpc.version (GenGrpc.run QualifiedGoIdent).

(** ** Witnesses: the echo service's request, and a [Run] as documented *)

Definition w_request : Type := list (string * string) * list File.

Definition w_Run (ParamFunc : string → string → strFlags → outcome strFlags)
    (f : option Version → list File → outcome (list GeneratedFile)) (fs : strFlags) (q : w_request) : ending :=
  match set_all ParamFunc q.1 fs with
  | Ok _ => Answers (f GenWsrpc.w_protoc q.2)
  | Err e => Refuses e
  | Panic _ => Refuses "panic"
  end.

Lemma generator_answers_witness :
  wsrpc_main w_Run (GenWsrpc.w_qualified "wsrpc") [] ([("client-services", "Echo"); ("client-services", "Ping")], [GenWsrpc.w_file]) =
    Answers (GenWsrpc.run (GenWsrpc.w_qualified "wsrpc") GenWsrpc.w_protoc [GenWsrpc.w_file]).
Proof.
  pose proof (generator_answers (Request:=w_request) fst snd (λ _, GenWsrpc.w_protoc) w_Run) as Hans.
  assert (∀ ParamFunc f fs (q : w_request) fs', set_all ParamFunc q.1 fs = Ok fs' →
    w_Run ParamFunc f fs q = Answers (f GenWsrpc.w_protoc q.2)) as H1.
  { intros ParamFunc f fs q fs' Hq. unfold w_Run. rewrite Hq. reflexivity. }
  assert (∀ ParamFunc f fs (q : w_request) e, set_all ParamFunc q.1 fs = Err e → w_Run ParamFunc f fs q = Refuses e) as H2.
  { intros ParamFunc f fs q e Hq. unfold w_Run. rewrite Hq. reflexivity. }
  specialize (Hans H1 H2 "protoc-gen-go-wsrpc" GenWsrpc.version (GenWsrpc.run (GenWsrpc.w_qualified "wsrpc"))
    ([("client-services", "Echo"); ("client-services", "Ping")], [GenWsrpc.w_file])).
  rewrite decide_True in Hans; [exact Hans|]. repeat constructor.
Defined.
End GenMain.
