(* ===== verification/Logger.v ===== *)
(** [logger/logger.go]: the logger handed to clients and servers, a zap logger
    with a name of its own, and [With] and [Named], which look a method of that
    name up by reflection in any other implementation.

    Zap is a parameter, of which the theorems use that [Named] adds a path
    segment and that [With] keeps the name.  A method found by reflection is its
    parameter types, as far as [reflect.Value.Call] distinguishes them, and its
    body. *)
From S2P Require Import Prelude.

Module Logger.

(** ** Reflection

    Parameter types: [string]; [interface{}]; a defined interface type without
    methods; and a type that neither a string nor a slice of [interface{}] is
    assignable to.  [v_static] says whether the static type of a result
    implements [Logger], [v_dynamic] is its dynamic value if it has one. *)
Inductive gotype := TString | TAny | TEmptyInterface | TOther.

Section Logger.
Context {A : Type} {Z_ F : Type}.

(** A [logger] embeds a [*zap.SugaredLogger], here [Z_]. *)
Record logger := mkLogger { SugaredLogger : Z_; l_name : string }.

(** A value of the interface [Logger]: nil, a possibly nil [*logger], or a value
    of a type of another package. *)
Inductive Logger := NilLogger | LoggerPtr (l : option logger) | Foreign (f : F).

Inductive dynamic := DLogger (l : Logger) | DOther.

Record value := mkValue { v_static : bool; v_dynamic : option dynamic }.

Inductive argument := ArgString (n : string) | ArgKeyvals (keyvals : list A) | ArgNone.

(** [m_in] has the element type of a variadic parameter last. *)
Record method := mkMethod {
  m_in : list gotype;
  m_variadic : bool;
  m_body : list argument → outcome (list value);
}.

(** [reflect.Value.CallSlice] with one value of type [[]interface{}]. *)
Definition CallSlice (m : method) (keyvals : list A) : outcome (list value) :=
  if negb (m_variadic m) then Panic ExplicitPanic  (* CallSlice of non-variadic function *)
  else
    match m_in m with
    | [TAny] => m_body m [ArgKeyvals keyvals]
    | _ => Panic ExplicitPanic  (* too few or too many arguments, or not assignable *)
    end.

Definition string_assignable (t : gotype) : bool :=
  match t with TString | TAny | TEmptyInterface => true | TOther => false end.

(** [reflect.Value.Call] with one string. *)
Definition Call (m : method) (n : string) : outcome (list value) :=
  match m_in m, m_variadic m with
  | [t], _ => if string_assignable t then m_body m [ArgString n] else Panic ExplicitPanic
  | [t; _], true => if string_assignable t then m_body m [ArgString n; ArgNone] else Panic ExplicitPanic
  | _, _ => Panic ExplicitPanic
  end.

(** ** The package *)

Context (zap_With : Z_ → list A → Z_) (zap_Named : Z_ → string → Z_).

(** [Config.New]: [cfg.Build] of the production configuration at a level. *)
Definition Config_New (Build : Z → outcome Z_) (Level : Z) : outcome Logger :=
  core ← Build Level; Ok (LoggerPtr (Some (mkLogger core ""))).

(** [New], with the zero level of [defaultConfig]. *)
Definition New (Build : Z → outcome Z_) : outcome Logger := Config_New Build 0.

(** [init]: [DefaultLogger], or a panic. *)
Definition init (Build : Z → outcome Z_) : outcome Logger :=
  match New Build with Err _ => Panic ExplicitPanic | o => o end.

Definition Nop (nop : Z_) : Logger := LoggerPtr (Some (mkLogger nop "")).

Definition with_ (l : logger) (args : list A) : logger :=
  mkLogger (zap_With (SugaredLogger l) args) "".

Definition joinName (old new : string) : string :=
  if bool_decide (old = "") then new else old +:+ "." +:+ new.

Definition named (l : logger) (name : string) : logger :=
  mkLogger (zap_Named (SugaredLogger l) name) (joinName (l_name l) name).

Definition Name (l : logger) : string := l_name l.

(** [reflect.ValueOf(l).MethodByName], for a value of another package. *)
Context (MethodByName : F → string → option method).

Definition With (l : Logger) (keyvals : list A) : outcome Logger :=
  match l with
  | LoggerPtr (Some t) => Ok (LoggerPtr (Some (with_ t keyvals)))
  | LoggerPtr None => Panic NilDeref
  | NilLogger => Panic ExplicitPanic  (* MethodByName on zero Value *)
  | Foreign v =>
      match MethodByName v "With" with
      | None => Ok l
      | Some m =>
          r ← CallSlice m keyvals;
          match r with
          | [r0] =>
              if negb (v_static r0) then Ok l
              else
                match v_dynamic r0 with
                | Some (DLogger w) => Ok w
                | _ => Ok NilLogger  (* a nil value of an interface type *)
                end
          | _ => Ok l
          end
      end
  end.

Definition Named (l : Logger) (n : string) : outcome Logger :=
  match l with
  | LoggerPtr (Some t) => Ok (LoggerPtr (Some (named t n)))
  | LoggerPtr None => Panic NilDeref
  | NilLogger => Panic ExplicitPanic
  | Foreign v =>
      match MethodByName v "Named" with
      | None => Ok l
      | Some m =>
          r ← Call m n;
          match r with
          | [r0] => match v_dynamic r0 with Some (DLogger ret) => Ok ret | _ => Ok l end
          | _ => Ok l
          end
      end
  end.

(** ** Names *)

Inductive derivation := DNamed (n : string) | DWith (keyvals : list A).

Definition derive1 (l : logger) (d : derivation) : logger :=
  match d with DNamed n => named l n | DWith keyvals => with_ l keyvals end.

Definition derive (ds : list derivation) (l : logger) : logger := foldl derive1 l ds.

Definition names (ds : list derivation) : list string :=
  omap (λ d, match d with DNamed n => Some n | DWith _ => None end) ds.

Definition has_with (ds : list derivation) : bool :=
  existsb (λ d, match d with DWith _ => true | _ => false end) ds.

(** The derivations after the last [With]. *)
Fixpoint since_with (ds : list derivation) : list derivation :=
  match ds with
  | [] => []
  | DWith _ :: ds => since_with ds
  | DNamed n :: ds =>
      if has_with ds then since_with ds else DNamed n :: ds
  end.

Lemma since_with_id ds : has_with ds = false → since_with ds = ds.
Proof. destruct ds as [|[n|kvs] ds]; [done| |done]. cbn. unfold has_with. by intros ->. Qed.

Definition joined (ns : list string) : string := foldl joinName "" ns.

Section Names.
Context (zap_name : Z_ → string).
Hypothesis zap_Named_name : ∀ z n, zap_name (zap_Named z n) =
  if bool_decide (n = "") then zap_name z else joinName (zap_name z) n.
Hypothesis zap_With_name : ∀ z keyvals, zap_name (zap_With z keyvals) = zap_name z.

(** What a derived logger says its name is, and the name that stands in the log:
    the name joins the segments added since the last [With], the log has all of
    them, the empty ones left out. *)
Theorem logger_names ds z :
  zap_name z = "" →
  let l := derive ds (mkLogger z "") in
  Name l = joined (names (since_with ds)) ∧
  zap_name (SugaredLogger l) = joined (filter (λ n, n ≠ "") (names ds)).
Proof.
  intros Hz.
  assert (∀ l, Name (derive ds l) = if has_with ds then joined (names (since_with ds))
    else foldl joinName (Name l) (names ds)) as Hn.
  { induction ds as [|[n|kvs] ds IH]; intros l; [done|..]; unfold derive in *; cbn [foldl].
    - rewrite IH. cbn [has_with existsb orb since_with]. unfold has_with.
      by destruct (existsb _ ds).
    - rewrite IH. cbn [has_with existsb orb since_with]. fold (has_with ds).
      destruct (has_with ds) eqn:He; [done|]. by rewrite since_with_id. }
  assert (∀ l, zap_name (SugaredLogger (derive ds l)) =
    foldl joinName (zap_name (SugaredLogger l)) (filter (λ n, n ≠ "") (names ds))) as Hzn.
  { clear Hn. induction ds as [|[n|kvs] ds IH]; intros l; [done|..]; unfold derive in *; cbn [foldl].
    - rewrite IH. cbn [derive1 named SugaredLogger]. rewrite zap_Named_name.
      change (names (DNamed n :: ds)) with (n :: names ds).
      case_bool_decide as Hn; [by rewrite filter_cons_False by naive_solver|].
      by rewrite filter_cons_True.
    - rewrite IH. cbn [derive1 with_ SugaredLogger]. by rewrite zap_With_name. }
  split; [|rewrite Hzn; cbn; by rewrite Hz].
  rewrite Hn. destruct (has_with ds) eqn:He; [done|]. by rewrite since_with_id.
Qed.
End Names.

(** ** Failures *)

Definition returns (m : method) : Prop := ∀ args, ∃ r, m_body m args = Ok r.

(** A method that a keyvals slice, or a string, can be passed to. *)
Definition takes_keyvals (m : method) : bool :=
  m_variadic m && match m_in m with [TAny] => true | _ => false end.

Definition takes_string (m : method) : bool :=
  match m_in m with
  | [t] => string_assignable t
  | [t; _] => m_variadic m && string_assignable t
  | _ => false
  end.

(** [With] and [Named] on a logger of another package, whose own methods return,
    panic exactly if the method of that name is there and does not take a
    [...interface{}], respectively a string; neither falls back on the logger
    then.  On a nil logger both panic. *)
Theorem derivation_panics f keyvals n :
  (∀ x m, MethodByName f x = Some m → returns m) →
  ((∃ p, With (Foreign f) keyvals = Panic p) ↔
    ∃ m, MethodByName f "With" = Some m ∧ takes_keyvals m = false) ∧
  ((∃ p, Named (Foreign f) n = Panic p) ↔
    ∃ m, MethodByName f "Named" = Some m ∧ takes_string m = false) ∧
  With NilLogger keyvals = Panic ExplicitPanic ∧ Named NilLogger n = Panic ExplicitPanic.
Proof.
  intros Hr. split_and!; [..|done|done].
  - unfold With. destruct (MethodByName f "With") as [m|] eqn:Hm; [|naive_solver].
    assert ((∃ p, CallSlice m keyvals = Panic p) ∧ takes_keyvals m = false ∨
      (∃ r, CallSlice m keyvals = Ok r) ∧ takes_keyvals m = true) as Hc.
    { unfold CallSlice, takes_keyvals. destruct (m_variadic m); [|by eauto].
      destruct (m_in m) as [|[] [|]]; simpl; eauto. right. split; [by eapply Hr|done]. }
    destruct Hc as [[[p ->] Ht]|[[r ->] Ht]]; simpl; [split; eauto|].
    split; [intros [p Hp]; exfalso; by repeat case_match|].
    intros (m'&[= <-]&Hf). congruence.
  - unfold Named. destruct (MethodByName f "Named") as [m|] eqn:Hm; [|naive_solver].
    assert ((∃ p, Call m n = Panic p) ∧ takes_string m = false ∨
      (∃ r, Call m n = Ok r) ∧ takes_string m = true) as Hc.
    { unfold Call, takes_string. destruct (m_in m) as [|t [|t' [|]]], (m_variadic m); simpl; eauto;
        destruct (string_assignable t); eauto; right; (split; [by eapply Hr|done]). }
    destruct Hc as [[[p ->] Ht]|[[r ->] Ht]]; simpl; [split; eauto|].
    split; [intros [p Hp]; exfalso; by repeat case_match|].
    intros (m'&[= <-]&Hf). congruence.
Qed.

(** [Named] never turns a logger into nil.  [With] does: a method that is declared
    to return a [Logger] and returns nil is believed. *)
Theorem derivation_not_nil l n l' :
  (∀ f m args r v, MethodByName f "Named" = Some m → m_body m args = Ok r → v ∈ r →
     v_dynamic v ≠ Some (DLogger NilLogger)) →
  l ≠ NilLogger → Named l n = Ok l' → l' ≠ NilLogger.
Proof.
  intros Hb Hl. unfold Named. destruct l as [|[t|]|f]; [done|by intros [= <-]|done|].
  destruct (MethodByName f "Named") as [m|] eqn:Hm; [|by intros [= <-]].
  intros (r&Hr&Ho)%bind_ok_inv.
  assert (∃ args, m_body m args = Ok r) as [args Hbody].
  { unfold Call in Hr. destruct (m_in m) as [|t [|t' [|]]], (m_variadic m); try done;
      destruct (string_assignable t); eauto; done. }
  destruct r as [|v [|]]; simplify_eq; try done.
  destruct (v_dynamic v) as [[w|]|] eqn:Hv; simplify_eq; try done.
  intros ->. by eapply Hb; [..|left|].
Qed.
End Logger.

(** ** Witnesses: zap as the name alone, and a foreign logger whose [With] takes a
    string and whose [Named] takes any value *)

Definition w_zap_Named (z n : string) : string := if bool_decide (n = "") then z else joinName z n.
Definition w_zap_With (z : string) (_ : list string) : string := z.

Definition w_methods (f : unit) (x : string) : option (method (A:=string) (Z_:=string) (F:=unit)) :=
  if bool_decide (x = "With") then
    Some (mkMethod [TString] false (λ _, Ok [mkValue true (Some (DLogger (Foreign tt)))]))
  else if bool_decide (x = "Named") then
    Some (mkMethod [TAny] false (λ _, Ok [mkValue false (Some (DLogger (Nop "named")))]))
  else None.

Lemma logger_names_witness :
  let l := derive w_zap_With w_zap_Named [DNamed "server"; DWith ["k"; "v"]; DNamed "conn"]
    (mkLogger "" "") in
  Name l = "conn" ∧ SugaredLogger l = "server.conn".
Proof.
  apply (logger_names w_zap_With w_zap_Named (λ z, z) (λ z n, eq_refl) (λ z kvs, eq_refl)
    [DNamed "server"; DWith ["k"; "v"]; DNamed "conn"] "" eq_refl).
Defined.

Lemma derivation_panics_witness :
  (∃ p, With w_zap_With w_methods (Foreign tt) ["k"; "v"] = Panic p) ∧
  ¬ ∃ p, Named w_zap_Named w_methods (Foreign tt) "n" = Panic p.
Proof.
  destruct (derivation_panics w_zap_With w_zap_Named w_methods tt ["k"; "v"] "n") as (Hw&Hn&_).
  - intros x m. unfold w_methods. repeat case_bool_decide; intros [= <-] args; by eexists.
  - split.
    + apply Hw. eexists. split; reflexivity.
    + intros Hp. apply Hn in Hp as (m&[= <-]&[=]).
Defined.

Lemma derivation_not_nil_witness :
  Named w_zap_Named w_methods (Foreign tt) "n" = Ok (Nop "named") ∧
  Nop (F:=unit) "named" ≠ NilLogger.
Proof.
  split; [reflexivity|].
  apply (derivation_not_nil w_zap_Named w_methods (Foreign tt) "n"); [|discriminate|reflexivity].
  intros f m args r v. unfold w_methods. repeat case_bool_decide; try discriminate.
  intros [= <-] [= <-] ->%list_elem_of_singleton. discriminate.
Defined.

(** A [With] that returns a nil [Logger]. *)
Example with_returns_nil :
  With w_zap_With
    (λ _ _, Some (mkMethod [TAny] true (λ _, Ok [mkValue true None]))) (Foreign tt) [] =
  Ok (NilLogger (Z_:=string)).
Proof. done. Qed.
End Logger.
