(* ===== verification/Wsrpclog.v ===== *)
(** [wsrpclog/logger.go]: the switchable logger over the standard [log] package. *)
From S2P Require Import Prelude.

Module Wsrpclog.

Section Wsrpclog.
Context {V : Type}.

Record logger := mkLogger { Verbose : bool }.

(** What the standard [log] package is asked to print. *)
Inductive printed := LogPrintln (v : list V) | LogPrintf (format : string) (v : list V).

Definition init : logger := mkLogger false.
Definition SetVerboseLogger (Default : logger) : logger := mkLogger true.

Definition logger_Print (l : logger) (v : list V) : list printed :=
  if Verbose l then [LogPrintln v] else [].
Definition logger_Printf (l : logger) (format : string) (v : list V) : list printed :=
  if Verbose l then [LogPrintf format v] else [].
Definition logger_Println (l : logger) (v : list V) : list printed :=
  if Verbose l then [LogPrintln v] else [].

(** A call of one of the package's functions: the new [Default] and the output. *)
Inductive call :=
  | CallSetVerbose
  | CallPrint (v : list V)
  | CallPrintf (format : string) (v : list V)
  | CallPrintln (v : list V).

Definition do_call (Default : logger) (c : call) : logger * list printed :=
  match c with
  | CallSetVerbose => (SetVerboseLogger Default, [])
  | CallPrint v => (Default, logger_Print Default v)
  | CallPrintf format v => (Default, logger_Printf Default format v)
  | CallPrintln v => (Default, logger_Println Default v)
  end.

Fixpoint do_calls (Default : logger) (cs : list call) : list printed :=
  match cs with
  | [] => []
  | c :: cs => let '(d, out) := do_call Default c in out ++ do_calls d cs
  end.

Definition request (c : call) : option printed :=
  match c with
  | CallSetVerbose => None
  | CallPrint v | CallPrintln v => Some (LogPrintln v)
  | CallPrintf format v => Some (LogPrintf format v)
  end.

Definition is_set (c : call) : bool := match c with CallSetVerbose => true | _ => false end.

(** The package is silent until [SetVerboseLogger], and from then on prints every
    call, in order; [Print] prints as [Println] does. *)
Theorem silent_until_verbose cs1 cs2 :
  Forall (λ c, is_set c = false) cs1 →
  do_calls init cs1 = [] ∧
  do_calls init (cs1 ++ CallSetVerbose :: cs2) = omap request cs2.
Proof.
  assert (∀ cs, do_calls (mkLogger true) cs = omap request cs) as Hv.
  { induction cs as [|c cs IH]; [done|]. destruct c; cbn [do_calls do_call]; try exact IH;
      cbn; f_equal; exact IH. }
  induction 1 as [|c cs Hc _ [IH1 IH2]]; [split; [done|apply Hv]|].
  by destruct c.
Qed.
End Wsrpclog.

End Wsrpclog.
