(* ===== verification/UniDial.v ===== *)
(** [uni_client.go]: making a synchronous client, its first connection, and its
    methods under [connMu].

    [websocket.Dialer.DialContext] is a parameter: what it answers to the n-th
    attempt of a dial.  The context answers after each failed attempt; a dial
    consumes the answers to its first [fuel] attempts and is still running
    ([None]) after them. *)
From S2P Require Import Prelude Message Credentials UniClient.

Module UniDial.
Import Message Credentials UniClient.

(** [conn] is nil until a dial succeeds. *)
Record UniClientConn := mkUniClientConn {
  conn : option nat;
  target : string;
  uc_tls : tlsConfig;
}.

Definition set_conn (uc : UniClientConn) (c : option nat) : UniClientConn :=
  mkUniClientConn c (target uc) (uc_tls uc).

Definition NewTLSUniClientConn (tgt : string) (tls : tlsConfig) : UniClientConn :=
  mkUniClientConn None tgt tls.

Section Dial.
Context {Signer : Type} (signer_of : bytes → Signer)
  (CreateCertificate : Signer → outcome bytes).

(** The n-th [DialContext], and what the [select] picks if it fails: the timer,
    or the context's error. *)
Context (DialContext : tlsConfig → string → nat → nat + error) (pick : nat → option error).

Definition connect (tgt : string) (tls : tlsConfig) (n : nat) : nat + error :=
  match DialContext tls ("wss://" +:+ tgt) n with
  | inr e => inr ("error while dialing " +:+ e)
  | inl c => inl c
  end.

(** An attempt of [retryConnectWithBackoff]. *)
Definition attempt (tgt : string) (tls : tlsConfig) (n : nat) : round :=
  match connect tgt tls n with
  | inl c => Connected c
  | inr _ => match pick n with None => TimerFired | Some e => CtxDone e end
  end.

Definition attempts (uc : UniClientConn) (fuel : nat) : list round :=
  attempt (target uc) (uc_tls uc) <$> seq 0 fuel.

Definition connectFn (uc : UniClientConn) (fuel : nat) : option (outcome nat) :=
  (retryConnectWithBackoff (attempts uc fuel)).1.

(** [uc.conn, err = uc.connectFn(ctx)]. *)
Definition Dial (uc : UniClientConn) (fuel : nat) : option (UniClientConn * option error) :=
  r ← connectFn uc fuel;
  match r with
  | Ok c => Some (set_conn uc (Some c), None)
  | Err e => Some (set_conn uc None, Some e)
  | Panic _ => None
  end.

(** Everything before the dial. *)
Definition setup (tgt : string) (priv pub : bytes) (h : heap) : outcome (UniClientConn * heap) :=
  privKey ← ValidPrivateKeyFromEd25519 priv;
  '(pubs, h) ← ValidPublicKeysFromEd25519 [pub] h;
  tls ← NewClientTLSConfig signer_of CreateCertificate privKey pubs;
  Ok (NewTLSUniClientConn tgt tls, h).

Definition DialUniWithContext (tgt : string) (priv pub : bytes) (h : heap) (fuel : nat) :
    option (outcome (option UniClientConn * option error)) :=
  match setup tgt priv pub h with
  | Err e => Some (Ok (None, Some e))
  | Panic p => Some (Panic p)
  | Ok (u, _) => '(u, err) ← Dial u fuel; Some (Ok (Some u, err))
  end.
End Dial.

(** ** The methods under [connMu] *)

Section Methods.
Context {U : Type} `{ProtoLib U}.

(** [Invoke] on a client: the connection is not looked at before the request is
    encoded, and a nil one is called. *)
Definition client_Invoke (uc : UniClientConn) (callID method : string) (args reply : any U)
    (its : list iteration) : option (outcome (proto_msg U)) * UniClientConn :=
  match prepare callID method args with
  | Err e => (Some (Err e), uc)
  | Panic p => (Some (Panic p), uc)
  | Ok _ =>
      match conn uc with
      | None => (Some (Panic NilDeref), uc)
      | Some c =>
          let '(r, c, _) := Invoke callID method args reply its c in (r, set_conn uc (Some c))
      end
  end.

(** [answer] is what the connection's [Close] answers. *)
Definition Close (uc : UniClientConn) (answer : outcome unit) : outcome unit :=
  match conn uc with None => Panic NilDeref | Some _ => answer end.

(** Calls on one client, in the order in which they take [connMu]; each holds it
    until it returns. *)
Inductive op :=
  | OpInvoke (callID method : string) (args reply : any U) (its : list iteration)
  | OpClose (answer : outcome unit).

(** What an operation does with the lock held, its result forgotten: [None] while
    it has not returned. *)
Definition locked (uc : UniClientConn) (o : op) : option UniClientConn :=
  match o with
  | OpInvoke callID method args reply its =>
      match client_Invoke uc callID method args reply its with
      | (Some _, uc) => Some uc
      | (None, _) => None
      end
  | OpClose _ => Some uc
  end.

(** The operations that took the lock. *)
Fixpoint session (uc : UniClientConn) (ops : list op) : list op :=
  match ops with
  | [] => []
  | o :: ops => o :: match locked uc o with Some uc => session uc ops | None => [] end
  end.
End Methods.
Arguments op : clear implicits.

(** ** Theorems *)

#[local] Instance round_eq_dec : EqDecision round.
Proof. solve_decision. Defined.

Lemma retry_first rounds w :
  (retry_loop rounds w).1 =
    head (omap (λ r, match r with
      | Connected c => Some (Ok c) | CtxDone e => Some (Err e) | TimerFired => None end) rounds).
Proof.
  revert w. induction rounds as [|[c| |e] rounds IH]; intros w; cbn; [done..| |done].
  specialize (IH (next_wait w)). by destruct (retry_loop rounds (next_wait w)).
Qed.

Section Theorems.
Context {Signer : Type} (signer_of : bytes → Signer)
  (CreateCertificate : Signer → outcome bytes).
Context (DialContext : tlsConfig → string → nat → nat + error) (pick : nat → option error).
Context {U : Type} `{ProtoLib U}.

Abbreviation DialUni := (DialUniWithContext signer_of CreateCertificate DialContext pick).

Definition ends (r : round) : option (outcome nat) :=
  match r with Connected c => Some (Ok c) | CtxDone e => Some (Err e) | TimerFired => None end.

Lemma connectFn_first uc fuel :
  connectFn DialContext pick uc fuel = head (omap ends (attempts DialContext pick uc fuel)).
Proof. apply retry_first. Qed.

(** The first attempt that ends the dial, if there is one among the first [fuel]. *)
Lemma connectFn_ends uc i fuel :
  (∀ j, j < i → attempt DialContext pick (target uc) (uc_tls uc) j = TimerFired) → i < fuel →
  attempt DialContext pick (target uc) (uc_tls uc) i ≠ TimerFired →
  connectFn DialContext pick uc fuel = ends (attempt DialContext pick (target uc) (uc_tls uc) i).
Proof.
  intros Hb Hi He. rewrite connectFn_first. unfold attempts.
  replace fuel with (i + S (fuel - i - 1)) by lia. rewrite seq_app, fmap_app, omap_app.
  assert (omap ends (attempt DialContext pick (target uc) (uc_tls uc) <$> seq 0 i) = []) as ->.
  { assert (Forall (λ j, j < i) (seq 0 i)) as Hf by (apply Forall_forall; intros j; rewrite elem_of_seq; lia).
    induction Hf as [|j js Hj _ IH]; [done|]. rewrite fmap_cons. cbn. rewrite (Hb j Hj). exact IH. }
  cbn. by destruct (attempt _ _ _ _ i).
Qed.

Lemma first_end uc i :
  attempt DialContext pick (target uc) (uc_tls uc) i ≠ TimerFired →
  ∃ i0, attempt DialContext pick (target uc) (uc_tls uc) i0 ≠ TimerFired ∧
    ∀ j, j < i0 → attempt DialContext pick (target uc) (uc_tls uc) j = TimerFired.
Proof.
  intros Hi. induction (lt_wf i) as [i _ IH].
  destruct (decide (Forall (λ j, attempt DialContext pick (target uc) (uc_tls uc) j = TimerFired)
    (seq 0 i))) as [Hf|Hf].
  - exists i. split; [done|]. intros j Hj. rewrite Forall_forall in Hf. apply Hf, elem_of_seq. lia.
  - apply not_Forall_Exists in Hf; [|apply _]. apply Exists_exists in Hf as (j&Hj%elem_of_seq&Hf).
    apply (IH j); [lia|exact Hf].
Qed.

(** A dial ends: once some attempt connects, or finds the context done after it
    failed, enough further fuel does not change the result. *)
Theorem uni_dial_terminates tgt priv pub h u h' i :
  setup signer_of CreateCertificate tgt priv pub h = Ok (u, h') →
  attempt DialContext pick (target u) (uc_tls u) i ≠ TimerFired →
  ∃ n r, ∀ fuel, n ≤ fuel → DialUni tgt priv pub h fuel = Some (Ok r).
Proof.
  intros Hu Hi. destruct (first_end u i Hi) as (i0&Hi0&Hb). unfold DialUniWithContext, Dial. rewrite Hu.
  assert (∃ o, ends (attempt DialContext pick (target u) (uc_tls u) i0) = Some o ∧ ∀ p, o ≠ Panic p)
    as ([c|e|p]&Ho&Hp); [destruct (attempt _ _ _ _ i0); naive_solver| | |by destruct (Hp p)].
  - exists (S i0), (Some (set_conn u (Some c)), None). intros fuel Hf.
    by rewrite (connectFn_ends u i0 fuel Hb) by (done || lia); rewrite Ho.
  - exists (S i0), (Some (set_conn u None), Some e). intros fuel Hf.
    by rewrite (connectFn_ends u i0 fuel Hb) by (done || lia); rewrite Ho.
Qed.

(** C39: What [DialUniWithContext] returns: an error and no client if the keys or the
    certificate are rejected; a client with the connection of the attempt that
    succeeded and no error; or, when the context ends first, the context's error
    together with a client without a connection, which panics when it is used. *)
Theorem uni_dial_outcome tgt priv pub h fuel r :
  DialUni tgt priv pub h fuel = Some (Ok r) →
  match r with
  | (None, err) => ∃ e, err = Some e ∧ setup signer_of CreateCertificate tgt priv pub h = Err e
  | (Some u, None) => ∃ n c, n < fuel ∧ conn u = Some c ∧
      DialContext (uc_tls u) ("wss://" +:+ tgt) n = inl c
  | (Some u, Some e) => conn u = None ∧ (∃ n, pick n = Some e) ∧
      (∀ answer, Close u answer = Panic NilDeref) ∧
      ∀ callID method args reply its reqBytes, prepare (U:=U) callID method args = Ok reqBytes →
        (client_Invoke u callID method args reply its).1 = Some (Panic NilDeref)
  end.
Proof.
  unfold DialUniWithContext. destruct (setup _ _ tgt priv pub h) as [[u h']|e|p] eqn:Hu;
    [|intros [= <-]; by exists e|done].
  assert (target u = tgt) as Ht.
  { unfold setup in Hu. by repeat (apply bind_ok_inv in Hu as ([]&_&Hu) || apply bind_ok_inv in Hu as (?&_&Hu)); simplify_eq. }
  unfold Dial. destruct (connectFn DialContext pick u fuel) as [o|] eqn:Hc; [|done].
  rewrite connectFn_first in Hc. apply head_Some_elem_of, list_elem_of_omap in Hc as (rd&Hrd&Hends).
  apply list_elem_of_fmap in Hrd as (n&->&[_ Hn]%elem_of_seq). simpl in Hn.
  unfold attempt, connect in Hends. rewrite Ht in Hends.
  destruct (DialContext (uc_tls u) ("wss://" +:+ tgt) n) as [c|e] eqn:Hd.
  - simplify_eq/=. intros [= <-]. by exists n, c.
  - destruct (pick n) as [e'|] eqn:Hp; simplify_eq/=. intros [= <-].
    split_and!; [done|by exists n|done|]. intros * Hpr. unfold client_Invoke. by rewrite Hpr.
Qed.

(** [Close] waits: as long as [Invoke] keeps failing and reconnecting, it holds the
    lock, and no later operation of the client takes it. *)
Theorem close_waits_for_invoke uc c callID method (args reply : any U) its cs ops reqBytes :
  conn uc = Some c → prepare callID method args = Ok reqBytes → Forall2 retried its cs →
  session uc (OpInvoke callID method args reply its :: ops) = [OpInvoke callID method args reply its].
Proof.
  intros Hc Hp Hits. cbn [session locked]. unfold client_Invoke, Invoke. rewrite Hp, Hc.
  assert (∀ c, ∃ last l, invoke_loop its c = (None, last, l)) as Hl.
  { clear Hc. induction Hits as [|it c' its' cs' [Hf [Hcx Hre]] _ IH]; intros c0; [by eexists _, _|].
    destruct (IH c') as (last&l&IHl). cbn [invoke_loop]. rewrite Hcx, Hre, IHl.
    destruct Hf as [[e ->]|(u&e&->&->)]; by eexists _, _. }
  destruct (Hl c) as (last&l&->). done.
Qed.
End Theorems.

(** ** Witnesses: a dial that succeeds at the second attempt, one whose context
    ends, and a client that keeps reconnecting *)

Definition w_priv : bytes := replicate 64 x01.
Definition w_dial (tls : tlsConfig) (url : string) (n : nat) : nat + error :=
  match n with 0 => inr "refused" | _ => inl 7 end.
Definition w_pick (n : nat) : option error := None.
Definition w_refused (tls : tlsConfig) (url : string) (n : nat) : nat + error := inr "refused".
Definition w_ctx (n : nat) : option error := if decide (n = 1) then Some "deadline" else None.

Lemma uni_dial_terminates_witness :
  ∃ n r, ∀ fuel, n ≤ fuel →
    DialUniWithContext toy_signer toy_create w_dial w_pick "host" w_priv key1 heap0 fuel = Some (Ok r).
Proof.
  destruct (setup toy_signer toy_create "host" w_priv key1 heap0) as [[u h]| |] eqn:Hu;
    [|vm_compute in Hu; discriminate Hu..].
  apply (uni_dial_terminates toy_signer toy_create w_dial w_pick "host" w_priv key1 heap0 u h 1 Hu).
  discriminate.
Defined.

Lemma uni_dial_outcome_witness :
  ∃ u, DialUniWithContext toy_signer toy_create w_refused w_ctx "host" w_priv key1 heap0 2 =
      Some (Ok (Some u, Some "deadline")) ∧
    Close u (Ok tt) = Panic NilDeref.
Proof.
  destruct (DialUniWithContext toy_signer toy_create w_refused w_ctx "host" w_priv key1 heap0 2)
    as [[[[u|] [e|]]| |]|] eqn:Hu; [|vm_compute in Hu; discriminate Hu..].
  destruct (uni_dial_outcome toy_signer toy_create w_refused w_ctx (U:=Toy.U) "host" w_priv key1 heap0
    2 _ Hu) as (_&_&Hc&_).
  assert (e = "deadline") as -> by (vm_compute in Hu; by injection Hu).
  exists u. split; [reflexivity|apply Hc].
Defined.

Lemma close_waits_for_invoke_witness :
  session (mkUniClientConn (Some 4) "host" (mkConfig [] true 0 0 0 NoClientCert))
    [OpInvoke "id1" "Ping" (toy_user "hi") (toy_user "") [UniClient.w_failing]; OpClose (Ok tt)] =
  [OpInvoke "id1" "Ping" (toy_user "hi") (toy_user "") [UniClient.w_failing]].
Proof.
  apply (close_waits_for_invoke _ 4 "id1" "Ping" (toy_user "hi") (toy_user "") [UniClient.w_failing] [5]
    [OpClose (Ok tt)] UniClient.w_request); [reflexivity|vm_compute; reflexivity|].
  constructor; [|constructor]. split; [left; by exists "broken pipe"|done].
Defined.
End UniDial.
