(* ===== verification/Dial.v ===== *)
(** [Dial] and [DialWithContext] of [client.go]: the options, [connect] and, under
    [WithBlock], the loop that waits for READY, run as one goroutine next to the
    goroutines of [AddrConn].

    The waiting loop is the dial's own steps over the [connectivityStateManager]
    in the state of [AddrConn].  [Close] needs the [ClientConn] that a
    successful dial returns. *)
From S2P Require Import Prelude Connectivity StateManager AddrConn Credentials Options.

Module Dial.
Import Connectivity.

Inductive dial_pc :=
  | DConnect                        (* in [addrConn.connect()] *)
  | DState                          (* about to read the state *)
  | DGet (src : State)              (* in [WaitForStateChange]: about to get the channel *)
  | DRead (src : State) (ch : nat)  (* about to read the state again *)
  | DBlock (src : State) (ch : nat) (* in its [select] *)
  | DCancel                         (* about to call [addrConn.cancel()] *)
  | DReturned (err : bool).         (* the [ClientConn], or [ctx.Err()] *)

Record sys := mkSys { ac : AddrConn.sys; dl : dial_pc; block : bool }.

Inductive action :=
  | Ac (a : AddrConn.action)   (* a step of a goroutine of [AddrConn], or of the caller *)
  | DialStep                   (* the dial's next step *)
  | DialDone.                  (* [<-ctx.Done()] in [WaitForStateChange] *)

Definition allowed (a : AddrConn.action) (pc : dial_pc) : bool :=
  match a, pc with
  | AddrConn.CallClose, DReturned false => true
  | AddrConn.CallClose, _ => false
  | _, _ => true
  end.

Definition set_dl (pc : dial_pc) (s : sys) : sys := mkSys (ac s) pc (block s).
Definition set_ac (a : AddrConn.sys) (s : sys) : sys := mkSys a (dl s) (block s).

(** [DialWithContext] after the options, from the return of [connect] on. *)
Definition dial_step (s : sys) : option sys :=
  let m := AddrConn.csm (ac s) in
  match dl s with
  | DConnect =>
      if AddrConn.starting (AddrConn.rs (ac s)) then None
      else Some (set_dl (if block s then DState else DReturned false) s)
  | DState =>
      let curState := StateManager.getState m in
      Some (set_dl (if decide (curState = Ready) then DReturned false else DGet curState) s)
  | DGet src =>
      let '(ch, m') := StateManager.getNotifyChan m in
      Some (set_dl (DRead src ch) (set_ac (AddrConn.set_csm m' (ac s)) s))
  | DRead src ch =>
      Some (set_dl (if decide (StateManager.getState m = src) then DBlock src ch else DState) s)
  | DBlock src ch =>
      if bool_decide (ch ∈ StateManager.closed m) then Some (set_dl DState s) else None
  | DCancel =>
      Some (set_dl (DReturned true)
        (set_ac (AddrConn.set_done (AddrConn.closed_cc (ac s)) (AddrConn.cc_done (ac s)) true (ac s)) s))
  | DReturned _ => None
  end.

Definition exec (a : action) (s : sys) : option sys :=
  match a with
  | Ac a => if allowed a (dl s) then a' ← AddrConn.exec a (ac s); Some (set_ac a' s) else None
  | DialStep => dial_step s
  | DialDone =>
      match dl s with
      | DBlock _ _ => if AddrConn.cc_done (ac s) then Some (set_dl DCancel s) else None
      | _ => None
      end
  end.

Definition init (blocking : bool) : sys := mkSys AddrConn.init DConnect blocking.

Section Options.
Context {Signer : Type} (signer_of : bytes → Signer) (CreateCertificate : Signer → outcome bytes).

(** The loop over the options comes first: an error of theirs ends the dial before
    anything is started. *)
Definition DialWithContext (opts : list (Options.DialOption (Signer:=Signer))) (h : Credentials.heap) :
    outcome sys :=
  '(o, _) ← Options.dial_options signer_of CreateCertificate opts h;
  Ok (init (Options.block o)).
End Options.

(** ** What a step of [AddrConn] does to what the dial sees *)

Section AddrConnSteps.
Import AddrConn.

(** Unfold a step of the connection's goroutines. *)
Ltac ac_step He :=
  simpl in He; unfold connect, resetTransport, afterWritePump, Close, teardown,
    listenForConnectivityChange, listenForRead, handleRead in He;
  repeat first
    [ done
    | apply lock_inv in He as [? ->] | apply sent_inv in He as [? ->]
    | apply bind_Some in He as (?&?&He)
    | progress simplify_eq/=
    | match type of He with context [match ?x with _ => _ end] => destruct x eqn:? end ];
  fields.

Lemma csm_same a s s' : AddrConn.exec a s = Some s' →
  match a with ListenChange | ListenRead _ => True | _ => csm s' = csm s end.
Proof. intros He. destruct a; try done; ac_step He; done. Qed.

Lemma csm_moves a s s' : AddrConn.inv s → AddrConn.exec a s = Some s' →
  (∀ ch, StateManager.handed ch (csm s) → StateManager.handed ch (csm s')) ∧
  (∀ ch, StateManager.handed ch (csm s) → ch ∉ StateManager.closed (csm s') →
    ch ∉ StateManager.closed (csm s) ∧ StateManager.state (csm s') = StateManager.state (csm s)).
Proof.
  intros Hi He. pose proof (csm_same a s s' He) as Hs. pose proof (iv_csm _ Hi) as Hok.
  destruct a; try (rewrite Hs; by split).
  - simpl in He. unfold listenForConnectivityChange in He. destruct (lc s) as [|x|]; try done.
    { break_in He. by split. }
    destruct (StateManager.updateState_ok x (csm s) Hok) as (m&Hu&_&Hx&Hh&Hc&Hsame).
    rewrite Hu in He. injection He as <-. simpl. split; [done|]. intros ch Hin Hn.
    destruct (decide (StateManager.state (csm s) = x)) as [Heq|Hne]; [by rewrite (Hsame Heq) in *|].
    by destruct (Hn (Hc ch Hin Hne)).
  - simpl in He. unfold listenForRead in He.
    destruct (StateManager.csm_getNotifyChan_ok (csm s) Hok) as (_&_&Hst&Hcl&Hh).
    destruct (lr s) as [|ch'| |]; try done.
    + destruct (StateManager.getNotifyChan (csm s)) as [ch' m]. simplify_eq/=.
      split; [done|]. intros ch _ Hn. by rewrite Hst, <- Hcl.
    + break_in He. by split.
    + break_in He; by split.
Qed.

(** While [connect] runs, nobody but it takes the lock and nothing is dialled. *)
Record starting_ok (s : AddrConn.sys) : Prop := mkStartingOk {
  so_cbs : starting (rs s) = true → cbs s = ∅;
  so_mu : rs s = RConnect → mu s = None;
}.

Lemma listen_frame a s s' :
  AddrConn.inv s → AddrConn.exec a s = Some s' →
  match a with
  | ListenChange | ListenRead _ =>
      rs s' = rs s ∧ cbs s' = cbs s ∧ mu s' = mu s ∧ pub s' = pub s ∧ st s' = st s
  | _ => True
  end.
Proof.
  intros Hi He. destruct a; try done; simpl in He.
  - unfold listenForConnectivityChange in He. destruct (lc s) as [|x|]; try done; [by break_in He|].
    destruct (StateManager.updateState_ok x (csm s) (iv_csm _ Hi)) as (m&Hu&_).
    rewrite Hu in He. by injection He as <-.
  - unfold listenForRead in He. destruct (lr s), (StateManager.getNotifyChan (csm s)); try done;
      by break_in He.
Qed.

Lemma starting_ok_step a s s' :
  AddrConn.inv s → starting_ok s → AddrConn.exec a s = Some s' → starting_ok s'.
Proof.
  intros Hi [Hc Hm] He. pose proof (iv_start _ Hi) as Hs. pose proof (listen_frame a s s' Hi He) as Hf.
  split; intros Hst; destruct a.
  all: try (destruct Hf as (Hr&Hb&Hmu&_); rewrite ?Hr, ?Hb, ?Hmu in *; auto; fail).
  all: ac_step He; simpl in *; auto.
  all: try (exfalso; match goal with H : cbs _ !! _ = Some _ |- _ =>
    rewrite Hc, lookup_empty in H; [done|by try rewrite Hst] end).
  all: try (match goal with E : rs _ = _ |- _ => by rewrite E in Hst end).
  all: try (exfalso; rewrite Hst in Hs; by specialize (Hs ltac:(congruence))).
Qed.

(** Before the first transport nothing says READY. *)
Definition undialled_ok (s : AddrConn.sys) : Prop :=
  cbs s = ∅ →
    st s ≠ Ready ∧ pub s ≠ Some Ready ∧ lc s ≠ LcUpdate Ready ∧
    StateManager.state (csm s) ≠ Ready ∧
    match rs s with RDialled _ | RReadyPub _ | RUp _ => False | _ => True end.

Lemma undialled_step a s s' :
  AddrConn.inv s → undialled_ok s → AddrConn.exec a s = Some s' → undialled_ok s'.
Proof.
  intros Hi Hu He. unfold undialled_ok in *. destruct a.
  8: { pose proof (listen_frame _ _ _ Hi He) as (Hr&Hb&_&Hp&Hst). rewrite Hr, Hb, Hp, Hst.
        intros Hc. destruct (Hu Hc) as (?&?&Hl&Hm&?). simpl in He.
        unfold listenForConnectivityChange in He. destruct (lc s) as [|x|] eqn:Hlc; try done.
        - break_in He. by split_and!.
        - destruct (StateManager.updateState_ok x (csm s) (iv_csm _ Hi)) as (m&Hx&_&Hs&_).
          rewrite Hx in He. injection He as <-. simpl. split_and!; congruence. }
  all: try (ac_step He; simpl in *; intros Hb; try (by apply insert_non_empty in Hb);
    destruct (Hu Hb) as (?&?&?&?&?); repeat match goal with E : rs _ = _ |- _ => rewrite E in * end;
    split_and!; (done || congruence || idtac)).
  destruct (StateManager.csm_getNotifyChan_ok (csm s) (iv_csm _ Hi)) as (_&_&Hst&_).
  by match goal with E : StateManager.getNotifyChan _ = _ |- _ => rewrite E in Hst end; simpl in Hst; congruence.
Qed.

(** What is over is over. *)
Lemma ac_keeps a s s' :
  AddrConn.inv s → AddrConn.exec a s = Some s' →
  (starting (rs s) = false → starting (rs s') = false) ∧
  (cbs s ≠ ∅ → cbs s' ≠ ∅) ∧ (cc_done s = true → cc_done s' = true).
Proof.
  intros Hi He. pose proof (listen_frame a s s' Hi He) as Hf. destruct a.
  8: { destruct Hf as (->&->&_). split_and!; [done..|]. intros Hd. simpl in He.
       unfold listenForConnectivityChange in He. destruct (lc s) as [|x|]; try done; [by break_in He|].
       destruct (StateManager.updateState_ok x (csm s) (iv_csm _ Hi)) as (m&Hx&_).
       rewrite Hx in He. by injection He as <-. }
  all: ac_step He; simpl; split_and!; try done.
  all: try (intros _ Hc; by apply insert_non_empty in Hc).
  all: match goal with E : rs _ = _ |- _ => by rewrite E end.
Qed.

Lemma not_closing a s s' :
  AddrConn.inv s → td s = DNone → a ≠ CallClose → AddrConn.exec a s = Some s' →
  td s' = DNone ∧ tr_closed s' = tr_closed s.
Proof.
  intros Hi Ht Ha He. destruct a; try done.
  7: { simpl in He. unfold listenForConnectivityChange in He.
       destruct (lc s) as [|x|]; try done; [by break_in He|].
       destruct (StateManager.updateState_ok x (csm s) (iv_csm _ Hi)) as (m&Hx&_).
       rewrite Hx in He. by injection He as <-. }
  all: ac_step He; simpl in *; congruence || auto.
Qed.

Lemma set_csm_inv m s :
  AddrConn.inv s → StateManager.ok m → StateManager.state m = StateManager.state (csm s) →
  AddrConn.inv (set_csm m s).
Proof.
  intros Hi Hok Hst. destruct Hi. split; simpl; try done.
  intros Hd. specialize (iv_follow0 Hd). unfold follows in *. simpl. by rewrite Hst.
Qed.

Lemma set_done_inv s : AddrConn.inv s → cc_done s = true →
  AddrConn.inv (set_done (closed_cc s) (cc_done s) true s).
Proof. intros Hi Hd. destruct Hi. by split; simpl. Qed.
End AddrConnSteps.

(** ** The invariant *)

(** The dial compares with a state that is not READY, over a channel it was handed;
    blocked on an open one it saw the present state. *)
Definition dial_ok (s : sys) : Prop :=
  let m := AddrConn.csm (ac s) in
  match dl s with
  | DGet src => src ≠ Ready
  | DRead src ch => src ≠ Ready ∧ StateManager.handed ch m
  | DBlock src ch => src ≠ Ready ∧ StateManager.handed ch m ∧
      (ch ∉ StateManager.closed m → StateManager.state m = src)
  | DCancel | DReturned true => AddrConn.cc_done (ac s) = true
  | _ => True
  end.

Record inv (s : sys) : Prop := mkInv {
  di_ac : AddrConn.inv (ac s);
  di_starting : starting_ok (ac s);
  di_undialled : undialled_ok (ac s);
  di_start : dl s ≠ DConnect → AddrConn.starting (AddrConn.rs (ac s)) = false;
  di_block : block s = true → dl s = DReturned false → AddrConn.cbs (ac s) ≠ ∅;
  di_dial : dial_ok s;
  di_td : dl s ≠ DReturned false → AddrConn.td (ac s) = AddrConn.DNone;
}.

Lemma dial_init_inv blocking : inv (init blocking).
Proof.
  split; [apply AddrConn.addrconn_init_inv|by split|by intros _; split_and!|done..].
Qed.

Lemma ac_inv a s a' : inv s → allowed a (dl s) = true → AddrConn.exec a (ac s) = Some a' → inv (set_ac a' s).
Proof.
  intros [Hi Hs Hu Hst Hb Hd Ht] Hal He.
  destruct (ac_keeps a _ _ Hi He) as (Hk1&Hk2&Hk3). destruct (csm_moves a _ _ Hi He) as [Hm1 Hm2].
  split; simpl; [by eapply AddrConn.addrconn_exec_inv|by eapply starting_ok_step|
    by eapply undialled_step|auto|auto|..].
  2: { intros Hdl. eapply not_closing; [done|by apply Ht| |done]. intros ->. simpl in Hal.
       by destruct (dl s) as [| | | | | |[]]. }
  unfold dial_ok in *. simpl. destruct (dl s) as [| |src|src ch|src ch| |[]]; try done; auto.
  - destruct Hd; auto.
  - destruct Hd as (?&Hh&Hsrc). split_and!; [done|auto|]. intros Hn.
    destruct (Hm2 ch Hh Hn) as [Hn' ->]. auto.
Qed.

Lemma dial_step_inv s s' : inv s → dial_step s = Some s' → inv s'.
Proof.
  intros [Hi Hs Hu Hst Hb Hd Ht] He. unfold dial_step in He. unfold dial_ok in Hd.
  destruct (dl s) as [| |src|src ch|src ch| |b] eqn:Hdl; try done.
  - destruct (AddrConn.starting _) eqn:Hst'; [done|]. injection He as <-.
    split; simpl; try done; destruct (block s); try done; intros _; by apply Ht.
  - injection He as <-. unfold StateManager.getState.
    split; simpl; try done; [..|intros _; by apply Ht].
    + intros _. by apply Hst.
    + intros _. case_decide as Hr; [|done]. intros _ Hc. by destruct (Hu Hc) as (_&_&_&?&_).
    + unfold dial_ok. simpl. by case_decide.
  - destruct (StateManager.csm_getNotifyChan_ok (AddrConn.csm (ac s)) (AddrConn.iv_csm _ Hi))
      as (Hok&Hh&Hstate&_). destruct (StateManager.getNotifyChan _) as [ch m]. simpl in *.
    injection He as <-.
    split; simpl; [by apply set_csm_inv|by destruct Hs|..|done|done|intros _; by apply Ht].
    + intros Hc. destruct (Hu Hc) as (?&?&?&?&?). simpl. rewrite Hstate. by split_and!.
    + intros _. by apply Hst.
  - injection He as <-. destruct Hd as [Hne Hh]. unfold StateManager.getState.
    split; simpl; try done; [intros _; by apply Hst|intros _; by case_decide|..|intros _; by apply Ht].
    unfold dial_ok. simpl. by case_decide.
  - case_bool_decide; simplify_eq. split; simpl; try done; intros _; [by apply Hst|by apply Ht].
  - injection He as <-. split; simpl; try done; [by apply set_done_inv|by destruct Hs|..];
      intros _; [by apply Hst|by apply Ht].
Qed.

Lemma dial_exec_inv a s s' : inv s → exec a s = Some s' → inv s'.
Proof.
  intros Hi He. destruct a as [a| |]; simpl in He.
  - destruct (allowed a (dl s)) eqn:Hal; [|done].
    apply bind_Some in He as (a'&Ha&[= <-]). by eapply ac_inv.
  - by eapply dial_step_inv.
  - destruct (dl s) eqn:Hdl; try done. destruct (AddrConn.cc_done (ac s)) eqn:Hd; [|done].
    injection He as <-. destruct Hi. rewrite Hdl in *. split; simpl; auto.
Qed.

Lemma dial_reachable_inv blocking s : reachable exec (init blocking) s → inv s.
Proof.
  apply reachable_invariant; [apply dial_init_inv|]. intros a s1 s2. apply dial_exec_inv.
Qed.

Lemma block_kept a s s' : exec a s = Some s' → block s' = block s.
Proof.
  destruct a as [a| |]; simpl; intros He.
  - destruct (allowed a (dl s)); [|done]. by apply bind_Some in He as (a'&Ha&[= <-]).
  - unfold dial_step in He. destruct (dl s); try done; break_in He; done.
  - by break_in He.
Qed.

(** ** Theorems *)

Lemma dial_step_state s :
  dl s = DState → StateManager.getState (AddrConn.csm (ac s)) = Ready →
  exec DialStep s = Some (set_dl (DReturned false) s).
Proof. intros Hd Hr. simpl. unfold dial_step. rewrite Hd, Hr. done. Qed.

(** The dial's own steps lead to its return. *)
Definition returns (n : nat) (s : sys) : Prop :=
  ∃ s', run exec (replicate n DialStep) s = Some s' ∧ dl s' = DReturned false.

Lemma returns_from n s s' : exec DialStep s = Some s' → returns n s' → returns (S n) s.
Proof.
  intros He (s2&Hr&Hd). exists s2. split; [|done]. cbn [replicate run]. by rewrite He.
Qed.

Lemma returns_state s :
  dl s = DState → StateManager.getState (AddrConn.csm (ac s)) = Ready → returns 1 s.
Proof.
  intros Hd Hr. eapply returns_from; [by apply dial_step_state|]. by eexists.
Qed.

Lemma ready_returns s :
  inv s → StateManager.getState (AddrConn.csm (ac s)) = Ready →
  match dl s with DState | DGet _ | DRead _ _ | DBlock _ _ => True | _ => False end →
  ∃ n, n ≤ 3 ∧ returns n s.
Proof.
  intros Hi Hr Hd. pose proof (di_dial _ Hi) as Hok. unfold dial_ok in Hok.
  assert (∀ src ch, dl s = DRead src ch → src ≠ Ready → returns 2 s) as Hread.
  { intros src ch Hdl Hsrc. eapply returns_from.
    - simpl. unfold dial_step. rewrite Hdl, Hr, decide_False by done. done.
    - by apply returns_state. }
  destruct (dl s) as [| |src|src ch|src ch| |b] eqn:Hdl; try done.
  - exists 1. split; [lia|by apply returns_state].
  - exists 3. split; [lia|].
    destruct (StateManager.csm_getNotifyChan_ok (AddrConn.csm (ac s)) (AddrConn.iv_csm _ (di_ac _ Hi)))
      as (_&_&Hst&_).
    destruct (StateManager.getNotifyChan (AddrConn.csm (ac s))) as [ch m] eqn:Hg.
    apply returns_from with (set_dl (DRead src ch) (set_ac (AddrConn.set_csm m (ac s)) s)).
    + simpl. unfold dial_step. by rewrite Hdl, Hg.
    + eapply returns_from.
      * simpl. unfold dial_step. simpl. unfold StateManager.getState in *. simpl in Hst.
        rewrite Hst, Hr, decide_False by done. done.
      * apply returns_state; [done|]. simpl. unfold StateManager.getState in *. simpl in Hst. by rewrite Hst.
  - exists 2. split; [lia|]. destruct Hok as [Hne _]. by apply (Hread src ch).
  - exists 2. split; [lia|]. destruct Hok as (Hne&Hh&Hopen).
    apply returns_from with (set_dl DState s); [|by apply returns_state].
    simpl. unfold dial_step. rewrite Hdl, bool_decide_true; [done|].
    destruct (decide (ch ∈ StateManager.closed (AddrConn.csm (ac s)))) as [|Hn]; [done|].
    unfold StateManager.getState in Hr. specialize (Hopen Hn). congruence.
Qed.

(** The dial's own steps, the choice of [<-ctx.Done()] among them, lead to the context's
    error. *)
Definition returns_err (n : nat) (s : sys) : Prop :=
  ∃ acts s', run exec acts s = Some s' ∧ length acts ≤ n ∧
    Forall (λ a, a = DialStep ∨ a = DialDone) acts ∧ dl s' = DReturned true.

Lemma returns_err_from a n s s' :
  a = DialStep ∨ a = DialDone → exec a s = Some s' → returns_err n s' → returns_err (S n) s.
Proof.
  intros Ha He (acts&s2&Hr&Hl&Hf&Hd). exists (a :: acts), s2. rewrite (run_step _ _ _ _ _ He).
  split_and!; [done|simpl; lia|by constructor|done].
Qed.

Lemma returns_err_more n m s : n ≤ m → returns_err n s → returns_err m s.
Proof. intros Hnm (acts&s'&?&?&?&?). exists acts, s'. split_and!; try done. lia. Qed.

(** It has seen the state [src] and the channel: it gives up, unless the state changed. *)
Lemma blocked_gives_up src ch s :
  dl s = DBlock src ch → AddrConn.cc_done (ac s) = true → returns_err 2 s.
Proof.
  intros Hdl Hc. apply (returns_err_from DialDone _ _ (set_dl DCancel s)); [by right|simpl; by rewrite Hdl, Hc|].
  eapply (returns_err_from DialStep); [by left|done|]. eexists [], _. by split_and!.
Qed.

Lemma read_gives_up ch s :
  dl s = DRead (StateManager.getState (AddrConn.csm (ac s))) ch → AddrConn.cc_done (ac s) = true →
  returns_err 3 s.
Proof.
  intros Hdl Hc. eapply (returns_err_from DialStep); [by left|simpl; unfold dial_step; by rewrite Hdl, decide_True|].
  by eapply blocked_gives_up.
Qed.

Lemma state_gives_up s :
  dl s = DState → StateManager.getState (AddrConn.csm (ac s)) ≠ Ready → AddrConn.cc_done (ac s) = true →
  returns_err 5 s.
Proof.
  intros Hdl Hn Hc. set (src := StateManager.getState (AddrConn.csm (ac s))) in *.
  apply (returns_err_from DialStep _ _ (set_dl (DGet src) s)); [by left|simpl; unfold dial_step; by rewrite Hdl, decide_False|].
  destruct (StateManager.getNotifyChan (AddrConn.csm (ac s))) as [ch m] eqn:Hg.
  apply (returns_err_from DialStep _ _ (set_dl (DRead src ch) (set_ac (AddrConn.set_csm m (ac s)) s)));
    [by left|simpl; unfold dial_step; simpl; by rewrite Hg|].
  apply (read_gives_up ch); [|done]. simpl. f_equal. subst src. unfold StateManager.getState.
  unfold StateManager.getNotifyChan in Hg. by destruct (StateManager.notifyChan _); simplify_eq/=.
Qed.

Lemma done_returns s :
  AddrConn.cc_done (ac s) = true → StateManager.getState (AddrConn.csm (ac s)) ≠ Ready →
  match dl s with DState | DGet _ | DRead _ _ | DBlock _ _ => True | _ => False end → returns_err 7 s.
Proof.
  intros Hc Hn Hd.
  assert (∀ src ch s, dl s = DRead src ch → AddrConn.cc_done (ac s) = true →
    StateManager.getState (AddrConn.csm (ac s)) ≠ Ready → returns_err 6 s) as Hread.
  { intros src ch s0 Hdl Hc0 Hn0. destruct (decide (StateManager.getState (AddrConn.csm (ac s0)) = src)) as [<-|Hne].
    - apply (returns_err_more 3); [lia|by apply (read_gives_up ch)].
    - eapply (returns_err_from DialStep); [by left|simpl; unfold dial_step; by rewrite Hdl, decide_False|].
      by apply state_gives_up. }
  destruct (dl s) as [| |src|src ch|src ch| |b] eqn:Hdl; try done.
  - apply (returns_err_more 5); [lia|by apply state_gives_up].
  - destruct (StateManager.getNotifyChan (AddrConn.csm (ac s))) as [ch m] eqn:Hg.
    eapply (returns_err_from DialStep); [by left|simpl; unfold dial_step; by rewrite Hdl, Hg|].
    eapply Hread; [done|done|]. simpl. unfold StateManager.getState, StateManager.getNotifyChan in *.
    by destruct (StateManager.notifyChan _); simplify_eq/=.
  - apply (returns_err_more 6); [lia|by eapply Hread].
  - apply (returns_err_more 2); [lia|by eapply blocked_gives_up].
Qed.

(** C29: A blocked dial returns: whenever the connection is shown READY, at most three
    steps of the dial itself, with no help from any other goroutine, make it return the
    [ClientConn], so it misses no READY; and whenever its context is done and the
    connection is not shown READY, at most seven make it return the context's error. *)
Theorem blocked_dial_returns blocking s :
  reachable exec (init blocking) s →
  match dl s with DState | DGet _ | DRead _ _ | DBlock _ _ => True | _ => False end →
  if decide (StateManager.getState (AddrConn.csm (ac s)) = Ready) then ∃ n, n ≤ 3 ∧ returns n s
  else AddrConn.cc_done (ac s) = true → returns_err 7 s.
Proof.
  intros Hi%dial_reachable_inv Hd. case_decide as Hr; [by apply ready_returns|].
  intros Hc. by apply done_returns.
Qed.

Lemma failed_dial_closes_nothing s s' :
  inv s → dl s = DReturned true → reachable exec s s' →
  dl s' = DReturned true ∧ AddrConn.tr_closed (ac s') = AddrConn.tr_closed (ac s).
Proof.
  intros Hi Hd Hr. induction Hr as [|s1 s2 s3 [a Ha] _ IH]; [done|].
  assert (dl s2 = DReturned true ∧ AddrConn.tr_closed (ac s2) = AddrConn.tr_closed (ac s1)) as [Hd2 <-].
  { destruct a as [a| |]; simpl in Ha.
    - destruct (allowed a (dl s1)) eqn:Hal; [|done]. apply bind_Some in Ha as (a'&Ha&[= <-]).
      split; [done|]. rewrite Hd in Hal. simpl.
      apply (not_closing a _ _ (di_ac _ Hi)); [apply (di_td _ Hi); by rewrite Hd|by intros ->|done].
    - unfold dial_step in Ha. by rewrite Hd in Ha.
    - by rewrite Hd in Ha. }
  apply IH; [by eapply dial_exec_inv|done].
Qed.

(** What a dial returns: under [WithBlock] the [ClientConn] only after a transport
    was made, and the context's error only once the context is done.  Until it has
    returned the [ClientConn], and for ever if it returns the error, no transport
    is closed. *)
Theorem dial_outcome blocking s :
  reachable exec (init blocking) s →
  (dl s = DReturned false → block s = true → ∃ tr pc, AddrConn.cbs (ac s) !! tr = Some pc) ∧
  (dl s = DReturned true → AddrConn.cc_done (ac s) = true ∧
    ∀ s', reachable exec s s' → AddrConn.tr_closed (ac s') = AddrConn.tr_closed (ac s)) ∧
  (dl s ≠ DReturned false → AddrConn.td (ac s) = AddrConn.DNone).
Proof.
  intros Hr. pose proof (dial_reachable_inv _ _ Hr) as Hi. split_and!; [..|by apply (di_td _ Hi)].
  - intros Hd Hb. destruct (map_choose _ (di_block _ Hi Hb Hd)) as (tr&pc&?). by exists tr, pc.
  - intros Hd. pose proof (di_dial _ Hi) as Hok. unfold dial_ok in Hok. rewrite Hd in Hok.
    split; [done|]. intros s' Hr'. by apply failed_dial_closes_nothing.
Qed.

Definition dial_actions : list action :=
  [Ac AddrConn.Connect; Ac AddrConn.Publish; Ac AddrConn.PublishCancelled;
   Ac AddrConn.ListenChange; DialStep].

Definition returns_by (n : nat) (s : sys) : Prop :=
  ∃ acts s', length acts ≤ n ∧ Forall (λ a, a ∈ dial_actions) acts ∧
    run exec acts s = Some s' ∧ dl s' = DReturned false.

Lemma returns_by_step a n s s' :
  a ∈ dial_actions → exec a s = Some s' → returns_by n s' → returns_by (S n) s.
Proof.
  intros Ha He (acts&s2&Hl&Hf&Hr&Hd). exists (a :: acts), s2. split_and!; [simpl; lia| | |done].
  - by constructor.
  - cbn [run]. by rewrite He.
Qed.

Lemma returns_by_connected s :
  dl s = DConnect → block s = false → AddrConn.starting (AddrConn.rs (ac s)) = false →
  returns_by 1 s.
Proof.
  intros Hd Hb Hs. eapply (returns_by_step DialStep); [unfold dial_actions; set_solver| |].
  - simpl. unfold dial_step. by rewrite Hd, Hs.
  - exists [], (set_dl (DReturned false) s). rewrite Hb. split_and!; [simpl; lia|constructor|done|done].
Qed.

Lemma ac_step_by a n s a' :
  dl s = DConnect → Ac a ∈ dial_actions → AddrConn.exec a (ac s) = Some a' →
  returns_by n (set_ac a' s) → returns_by (S n) s.
Proof.
  intros Hd Ha He. apply (returns_by_step (Ac a)); [done|]. simpl. rewrite He.
  assert (allowed a (dl s) = true) as ->; [|done]. rewrite Hd.
  destruct a; try done. unfold dial_actions in Ha. set_solver.
Qed.

Lemma returns_by_more n n' s : n ≤ n' → returns_by n s → returns_by n' s.
Proof. intros Hn (acts&s'&Hl&?). exists acts, s'. split; [lia|done]. Qed.

Ltac by_action a := eapply (ac_step_by a); [done|unfold dial_actions; set_solver|..].

(** From [connect] with its state sent, and with the state still to be sent. *)
Lemma returns_by_sent s :
  dl s = DConnect → block s = false → AddrConn.rs (ac s) = AddrConn.RConnected →
  AddrConn.pub (ac s) = None → returns_by 2 s.
Proof.
  intros Hd Hb Hrs Hp. by_action AddrConn.Connect.
  - simpl. unfold AddrConn.connect, AddrConn.sent. by rewrite Hrs, Hp.
  - by apply returns_by_connected.
Qed.

Lemma returns_by_sending s :
  inv s → dl s = DConnect → block s = false → AddrConn.rs (ac s) = AddrConn.RConnected →
  returns_by 4 s.
Proof.
  intros Hi Hd Hb Hrs. pose proof (di_ac _ Hi) as Hac.
  destruct (AddrConn.pub (ac s)) as [x|] eqn:Hp;
    [|apply (returns_by_more 2); [lia|by apply returns_by_sent]].
  destruct (AddrConn.lc (ac s)) as [|y|] eqn:Hlc.
  - apply (returns_by_more 3); [lia|]. by_action AddrConn.Publish.
    + simpl. by rewrite Hp, Hlc.
    + by apply returns_by_sent.
  - destruct (StateManager.updateState_ok y (AddrConn.csm (ac s)) (AddrConn.iv_csm _ Hac)) as (m&Hu&_).
    by_action AddrConn.ListenChange.
    + simpl. unfold AddrConn.listenForConnectivityChange. rewrite Hlc, Hu. done.
    + by_action AddrConn.Publish; [simpl; by rewrite Hp|]. by apply returns_by_sent.
  - apply (returns_by_more 3); [lia|]. by_action AddrConn.PublishCancelled.
    + simpl. by rewrite Hp, (AddrConn.iv_ctx _ Hac), (AddrConn.iv_lc _ Hac Hlc).
    + by apply returns_by_sent.
Qed.

Lemma block_reachable s s' : reachable exec s s' → block s' = block s.
Proof. induction 1 as [|s1 s2 s3 [a Ha] _ IH]; [done|]. by rewrite IH, (block_kept _ _ _ Ha). Qed.

(** Without [WithBlock] the dial waits for no connection: from any point of
    [connect], at most five steps, of its own, of the receiver of its state and of
    that receiver's update, make it return. *)
Theorem unblocked_dial_returns s :
  reachable exec (init false) s → dl s = DConnect → returns_by 5 s.
Proof.
  intros Hr Hd. pose proof (dial_reachable_inv _ _ Hr) as Hi. apply block_reachable in Hr as Hb.
  destruct (AddrConn.starting (AddrConn.rs (ac s))) eqn:Hst;
    [|apply (returns_by_more 1); [lia|by apply returns_by_connected]].
  destruct (AddrConn.rs (ac s)) eqn:Hrs; try done;
    [|apply (returns_by_more 4); [lia|by apply returns_by_sending]].
  pose proof (so_mu _ (di_starting _ Hi) Hrs) as Hmu.
  pose proof (AddrConn.iv_st _ (di_ac _ Hi)) as Hx. rewrite Hrs in Hx.
  assert (AddrConn.exec AddrConn.Connect (ac s) = Some (AddrConn.set_rs AddrConn.RConnected
    (AddrConn.updateConnectivityState Connecting (AddrConn.set_mu (Some AddrConn.TReset) (ac s))))) as He.
  { simpl. unfold AddrConn.connect, AddrConn.lock. rewrite Hrs, Hmu. simpl.
    by destruct (AddrConn.st (ac s)). }
  by_action AddrConn.Connect; [exact He|].
  apply returns_by_sending; [|done..|].
  - eapply (ac_inv AddrConn.Connect); [done|by rewrite Hd|exact He].
  - done.
Qed.

(** ** Concrete runs *)

Definition w_publish : list action := Ac <$> [AddrConn.Publish; AddrConn.ListenChange].
Definition w_connect : list action := [Ac AddrConn.Connect] ++ w_publish ++ [Ac AddrConn.Connect; DialStep].
Definition w_dialled : list action :=
  Ac <$> [AddrConn.Reset AddrConn.Go; AddrConn.Reset (AddrConn.Dialled (Some 1))].
Definition w_up : list action :=
  w_dialled ++ [Ac (AddrConn.Reset AddrConn.Go)] ++ w_publish ++ [Ac (AddrConn.Reset AddrConn.Go)].

(** A blocking dial whose context ends just after its connection was made returns
    the error and leaves the transport running.  The caller has no [ClientConn]
    to close it with, and nothing else will. *)
Theorem failed_dial_leaks :
  ∃ s, reachable exec (init true) s ∧ dl s = DReturned true ∧
    AddrConn.rs (ac s) = AddrConn.RExited ∧ AddrConn.cbs (ac s) !! 1 = Some AddrConn.CbLive ∧
    ∀ s', reachable exec s s' → 1 ∉ AddrConn.tr_closed (ac s').
Proof.
  exists (final exec (w_connect ++ [DialStep; DialStep; DialStep] ++ w_dialled ++
    [Ac AddrConn.CallerCancel; DialDone; DialStep; Ac (AddrConn.Reset AddrConn.Go);
     Ac AddrConn.PublishCancelled; Ac (AddrConn.Reset AddrConn.Go);
     Ac (AddrConn.Reset AddrConn.Cancelled)]) (init true)).
  split_and!; [at_state..|]. intros s' Hr.
  apply failed_dial_closes_nothing in Hr as [_ He]; [|apply (dial_reachable_inv true)|]; [|at_state..].
  rewrite He. apply (proj1 (bool_decide_eq_false _)). at_state.
Qed.

Lemma reachable_ac s s' b :
  dl s = DReturned b → reachable exec s s' → reachable AddrConn.exec (ac s) (ac s').
Proof.
  intros Hd Hr. induction Hr as [|s1 s2 s3 [a Ha] _ IH]; [apply rtc_refl|].
  destruct a as [a| |]; simpl in Ha; [|by unfold dial_step in Ha; rewrite Hd in Ha|by rewrite Hd in Ha].
  destruct (allowed a (dl s1)); [|done]. apply bind_Some in Ha as (a'&Ha&[= <-]).
  eapply rtc_l; [by exists a|by apply IH].
Qed.

(** The context given to a dial is the client's own: cancelled after the dial
    returned, it ends the listeners and readers, and the client shows READY for
    ever over a transport that nobody reads. *)
Theorem dial_context_ends_client :
  ∃ s, reachable exec (init true) s ∧ dl s = DReturned false ∧
    AddrConn.readers (ac s) !! 1 = Some AddrConn.HrExited ∧
    AddrConn.cbs (ac s) !! 1 = Some AddrConn.CbLive ∧
    ∀ s', reachable exec s s' → StateManager.getState (AddrConn.csm (ac s')) = Ready.
Proof.
  exists (final exec ([Ac (AddrConn.ListenRead 1)] ++ w_connect ++
    [Ac (AddrConn.ListenRead 1); Ac (AddrConn.ListenRead 1); Ac (AddrConn.ListenRead 1)] ++ w_up ++
    [Ac (AddrConn.ListenRead 1); Ac (AddrConn.ListenRead 1); Ac (AddrConn.Reader 1); DialStep;
     Ac AddrConn.CallerCancel; Ac (AddrConn.Reader 1); Ac AddrConn.ListenChange]) (init true)).
  split_and!; [at_state..|]. intros s' Hr.
  apply (reachable_ac _ _ false) in Hr; [|at_state].
  apply (AddrConn.frozen_forever Ready) in Hr as [_ ?]; [done|]. split; at_state.
Qed.

(** ** Witnesses *)

Definition w_waiting_state := final exec (w_connect ++ [DialStep; DialStep; DialStep] ++ w_up) (init true).
Definition w_cancelled_state :=
  final exec (w_connect ++ [DialStep; DialStep; DialStep; Ac AddrConn.CallerCancel]) (init true).
Definition w_failed_state :=
  final exec (w_connect ++ [DialStep; DialStep; DialStep; Ac AddrConn.CallerCancel; DialDone; DialStep])
    (init true).

Lemma blocked_dial_returns_witness :
  (∃ n, n ≤ 3 ∧ returns n w_waiting_state) ∧ returns_err 7 w_cancelled_state.
Proof.
  pose proof (blocked_dial_returns true w_waiting_state) as H1.
  pose proof (blocked_dial_returns true w_cancelled_state) as H2.
  assert (StateManager.getState (AddrConn.csm (ac w_waiting_state)) = Ready) as E1 by at_state.
  assert (StateManager.getState (AddrConn.csm (ac w_cancelled_state)) = Connecting) as E2 by at_state.
  rewrite E1 in H1. rewrite E2 in H2. split.
  - apply H1; [at_state|]. vm_compute. exact I.
  - apply H2; [at_state|vm_compute; exact I|at_state].
Defined.

Lemma dial_outcome_witness :
  AddrConn.cc_done (ac w_failed_state) = true ∧
  AddrConn.td (ac w_failed_state) = AddrConn.DNone.
Proof.
  destruct (dial_outcome true w_failed_state) as (_&Hf&Ht); [at_state|].
  split; [apply Hf; at_state|apply Ht; vm_compute; discriminate].
Defined.

Lemma unblocked_dial_returns_witness : returns_by 5 (final exec [Ac AddrConn.Connect] (init false)).
Proof. apply unblocked_dial_returns; at_state. Defined.
End Dial.
