(* ===== verification/Serve.v ===== *)
(** [Server.Serve] of [server.go] next to the rest of the server: it starts the
    HTTP servers of the health check and of the websocket handler, waits for
    [done] and closes them again.

    [net/http] is its documented behaviour: a server hands requests to its handler
    until [Close] or an error of its listener, and [ServeTLS] after [Close]
    returns at once.  [Close] leaves the connections that were upgraded. *)
From S2P Require Import Prelude Credentials Message ConnMgr Server.

Module Serve.
Import Credentials Message ConnMgr Server.

Inductive http := HNone | HServing | HFailed | HClosed.

#[global] Instance http_eq_dec : EqDecision http.
Proof. solve_decision. Defined.

Inductive serve_pc :=
  | VHealth        (* listening for the health check *)
  | VStart         (* about to start the websocket server *)
  | VWait          (* at [<-s.done.Done()] *)
  | VCloseWs       (* in the deferred [wssrv.Close()] *)
  | VCloseHealth   (* in the deferred [hcsrv.Close()], if there is one *)
  | VReturned
  | VPanicked.     (* [panic(err)] of the health check's listener *)

Record serve := mkServe { v_pc : serve_pc; v_ws : http; v_hc : http }.

Section Serve.
Context {U : Type} `{ProtoLib U}.
Context (ParseCertificate : bytes → outcome Certificate) (healthcheckAddr : string).

Record sys := mkSys {
  sv : server;
  wssrv : option nat;       (* [s.wssrv], by the call that set it *)
  calls : gmap nat serve;
}.

Definition init (ks : list bytes) : sys := mkSys (NewServer ks) None ∅.

Inductive action :=
  | Srv (a : Server.action)
  | CallServe (v : nat)
  | ListenHealth (v : nat) (ok : bool)   (* [net.Listen] for the health check *)
  | ServeStep (v : nat)
  | ListenerFails (v : nat).             (* [ServeTLS] returns an error, which is dropped *)

Definition set_call (v : nat) (c : serve) (s : sys) : sys :=
  mkSys (sv s) (wssrv s) (<[v := c]> (calls s)).

(** Some [wssrv] is accepting connections. *)
Definition accepting (s : sys) : bool :=
  negb (bool_decide (map_Forall (λ _ c, v_ws c ≠ HServing) (calls s))).

Definition serve_step (v : nat) (c : serve) (s : sys) : option sys :=
  match v_pc c with
  | VStart => Some (mkSys (sv s) (Some v) (<[v := mkServe VWait HServing (v_hc c)]> (calls s)))
  | VWait => if done (sv s) then Some (set_call v (mkServe VCloseWs (v_ws c) (v_hc c)) s) else None
  | VCloseWs => Some (set_call v (mkServe VCloseHealth HClosed (v_hc c)) s)
  | VCloseHealth => Some (set_call v
      (mkServe VReturned (v_ws c) (if bool_decide (healthcheckAddr = "") then HNone else HClosed)) s)
  | _ => None
  end.

Definition exec (a : action) (s : sys) : option sys :=
  match a with
  | Srv a =>
      let go := s' ← Server.exec ParseCertificate a (sv s); Some (mkSys s' (wssrv s) (calls s)) in
      match a with Accept _ _ => if accepting s then go else None | _ => go end
  | CallServe v =>
      if calls s !! v is Some _ then None
      else Some (set_call v
        (mkServe (if bool_decide (healthcheckAddr = "") then VStart else VHealth) HNone HNone) s)
  | ListenHealth v ok =>
      c ← calls s !! v;
      match v_pc c with
      | VHealth => Some (set_call v
          (if ok then mkServe VStart (v_ws c) HServing else mkServe VPanicked (v_ws c) (v_hc c)) s)
      | _ => None
      end
  | ServeStep v => c ← calls s !! v; serve_step v c s
  | ListenerFails v =>
      c ← calls s !! v;
      if decide (v_ws c = HServing) then Some (set_call v (mkServe (v_pc c) HFailed (v_hc c)) s)
      else None
  end.

(** What [GET /healthz] answers. *)
Definition healthz (c : serve) : option Z := if decide (v_hc c = HServing) then Some 200%Z else None.

(** ** What ends the waiting: [Stop] *)

Definition stopping (s : server) : Prop := ∃ y pc, stops s !! y = Some pc ∧ past_drop pc = true.

Definition stop_over (pc : stop_pc) : Prop := pc = SReturned ∨ ∃ p, pc = SPanicked p.

Record stops_ok (s : server) : Prop := mkStopsOk {
  so_nil : connMgr s = None → stopping s;
  so_first x pc : stops s !! x = Some pc → pc = SClose None ∨ (∃ p, pc = SPanicked p) →
    ∃ y pc', y ≠ x ∧ stops s !! y = Some pc';
  so_done : done s = true → ∃ x pc, stops s !! x = Some pc ∧ stop_over pc;
}.

(** Everything but [Stop] leaves them alone. *)
Definition stop_same (s s' : server) : Prop :=
  stops s' = stops s ∧ done s' = done s ∧ (connMgr s' = None → connMgr s = None).

Lemma stop_same_ok s s' : stop_same s s' → stops_ok s → stops_ok s'.
Proof.
  intros (Hs&Hd&Hc) [Hn Hf Ho]. split; unfold stopping in *; rewrite ?Hs, ?Hd; [auto|exact Hf|exact Ho].
Qed.

Lemma stop_same_step a s s' :
  (∀ x, a ≠ Stop x ∧ a ≠ StopStep x) → Server.exec ParseCertificate a s = Some s' → stop_same s s'.
Proof.
  intros Ha He. destruct a; simpl in He; try (by destruct (Ha x));
    try (apply bind_Some in He as (?&?&He)).
  all: try (unfold exec_ws, exec_tr, exec_rd, start_transport, register_transport, dispatch in He;
    repeat (case_match; simplify_eq/=; try done); simplify_eq/=; by split_and!).
  - destruct (_ && _); [|done]. destruct (afterWritePump tr x s) as [s1| |p] eqn:Hw; simplify_eq; [|done].
    apply bind_ok_inv in Hw as (s2&Hs2&(n&_&(b&_&[= <-])%bind_ok_inv)%bind_ok_inv).
    destruct (connMgr s) as [cm|] eqn:Hcm; [|by simplify_eq].
    apply bind_ok_inv in Hs2 as (cm'&_&[= <-]). by split_and!.
  - destruct (may_write s); [|done]. injection He as <-. unfold UpdatePublicKeys.
    repeat (case_match; simplify_eq/=; try (by split_and!)).
  - injection He as <-. unfold GetConnectionNotifyChan. destruct (connMgr s) eqn:?; by split_and!.
Qed.

(** A [Stop] moves from [pc] to [pc']. *)
Lemma set_stop_ok x pc pc' s s1 :
  stops_ok s → stops s !! x = Some pc → stops s1 = stops s →
  (connMgr s1 = None → past_drop pc' = true ∨ connMgr s = None ∧ past_drop pc = false) →
  (pc' = SClose None ∨ (∃ p, pc' = SPanicked p) → pc = SClose None ∨ stopping s ∧ past_drop pc = false) →
  (done s1 = true → stop_over pc' ∨ done s = true ∧ ¬ stop_over pc) →
  stops_ok (set_stop x pc' s1).
Proof.
  intros [Hn Hf Ho] Hx Hs Hcm Hnil Hdone.
  assert (∀ y pcy, stops s !! y = Some pcy → y ≠ x → <[x := pc']> (stops s) !! y = Some pcy) as Hkeep
    by (intros; by rewrite lookup_insert_ne).
  split; unfold stopping; simpl; rewrite Hs.
  - intros Hc. destruct (Hcm Hc) as [Hp|[Hc' Hp]].
    + exists x, pc'. by rewrite lookup_insert_eq.
    + destruct (Hn Hc') as (y&pcy&Hy&?). exists y, pcy. split; [|done]. apply Hkeep; [done|congruence].
  - intros x' pcx Hx' Hpc. apply lookup_insert_Some in Hx' as [[<- <-]|[Hne Hx']].
    + destruct (Hnil Hpc) as [->|[(y&pcy&Hy&?) ?]].
      * destruct (Hf x _ Hx) as (y&pcy&Hne&Hy); [by left|]. exists y, pcy. auto.
      * assert (y ≠ x) by congruence. exists y, pcy. auto.
    + destruct (Hf x' pcx Hx' Hpc) as (y&pcy&Hne'&Hy). destruct (decide (y = x)) as [->|].
      * exists x, pc'. by rewrite lookup_insert_eq.
      * exists y, pcy. auto.
  - intros Hd. destruct (Hdone Hd) as [Hov|[Hd' Hov]].
    + exists x, pc'. by rewrite lookup_insert_eq.
    + destruct (Ho Hd') as (y&pcy&Hy&?). exists y, pcy. split; [|done]. apply Hkeep; [done|congruence].
Qed.

Lemma stops_ok_step a s s' :
  stops_ok s → Server.exec ParseCertificate a s = Some s' → stops_ok s'.
Proof.
  intros Hok He.
  assert ((∃ x, a = Stop x) ∨ (∃ x, a = StopStep x) ∨ ∀ x, a ≠ Stop x ∧ a ≠ StopStep x)
    as [[x ->]|[[x ->]|Hs]] by (destruct a; eauto; right; right; done).
  - simpl in He. destruct (stops s !! x) eqn:Hx; [done|]. injection He as <-. destruct Hok as [Hn Hf Ho].
    assert (∀ y pcy, stops s !! y = Some pcy → <[x := SFire]> (stops s) !! y = Some pcy) as Hkeep
      by (intros; rewrite lookup_insert_ne by congruence; done).
    split; unfold stopping in *; simpl.
    + intros Hc. destruct (Hn Hc) as (y&pcy&?&?). eauto.
    + intros x' pcx Hx' Hpc. apply lookup_insert_Some in Hx' as [[<- <-]|[Hne Hx']]; [naive_solver|].
      destruct (Hf x' pcx Hx' Hpc) as (y&pcy&?&?). eauto.
    + intros Hd. destruct (Ho Hd) as (y&pcy&?&?). eauto.
  - simpl in He. apply bind_Some in He as (pc&Hx&He). unfold exec_stop in He.
    destruct pc as [| |[cm|]| | |]; try done.
    + injection He as <-. eapply set_stop_ok; [done..| | |]; simpl; unfold stop_over; naive_solver.
    + destruct (may_write s); [|done]. injection He as <-.
      eapply set_stop_ok; [done..| | |]; simpl; unfold stop_over; [naive_solver| |naive_solver].
      intros [Hc|[p Hc]]; [|done]. injection Hc as Hc. right. split; [by apply (so_nil _ Hok)|done].
    + injection He as <-. eapply set_stop_ok; [done..| | |]; simpl; unfold stop_over; naive_solver.
    + injection He as <-. eapply set_stop_ok; [done..| | |]; simpl; unfold stop_over; naive_solver.
    + case_decide; [|done]. injection He as <-.
      eapply set_stop_ok; [done..| | |]; simpl; unfold stop_over; naive_solver.
  - eapply stop_same_ok; [|done]. by eapply stop_same_step.
Qed.

(** ** The invariant *)

Definition past_wait (pc : serve_pc) : bool :=
  match pc with VCloseWs | VCloseHealth | VReturned => true | _ => false end.

Record serve_ok (c : serve) (s : server) : Prop := mkServeOk {
  vo_done : past_wait (v_pc c) = true → done s = true;
  vo_closed : v_pc c = VCloseHealth ∨ v_pc c = VReturned → v_ws c = HClosed;
  vo_health : healthcheckAddr ≠ "" →
    match v_pc c with
    | VStart | VWait | VCloseWs | VCloseHealth => v_hc c = HServing
    | VReturned => v_hc c = HClosed
    | _ => v_hc c = HNone
    end;
}.

Record inv (s : sys) : Prop := mkInv {
  si_stops : stops_ok (sv s);
  si_calls v c : calls s !! v = Some c → serve_ok c (sv s);
}.

Lemma done_stays a s s' : Server.exec ParseCertificate a s = Some s' → done s = true → done s' = true.
Proof.
  intros He Hd.
  assert ((∃ x, a = Stop x) ∨ (∃ x, a = StopStep x) ∨ ∀ x, a ≠ Stop x ∧ a ≠ StopStep x)
    as [[x ->]|[[x ->]|Hs]] by (destruct a; eauto; right; right; done).
  - simpl in He. destruct (stops s !! x); [done|]. by injection He as <-.
  - simpl in He. apply bind_Some in He as (pc&Hx&He). unfold exec_stop in He.
    destruct pc as [| |[cm|]| | |]; try done; try (destruct (may_write s)); try case_decide;
      by simplify_eq/=.
  - destruct (stop_same_step a s s' Hs He) as (_&->&_). done.
Qed.

Lemma srv_inv a s s' :
  inv s → Server.exec ParseCertificate a (sv s) = Some s' → inv (mkSys s' (wssrv s) (calls s)).
Proof.
  intros [Hs Hc] He. split; simpl; [by eapply stops_ok_step|].
  intros v c Hv. destruct (Hc v c Hv) as [Hd ? ?]. split; [|done..]. intros Hp. by eapply done_stays, Hd.
Qed.

Lemma set_call_inv v c s : inv s → serve_ok c (sv s) → inv (set_call v c s).
Proof.
  intros [Hs Hc] Hok. split; simpl; [done|]. intros v' c' Hv'.
  apply lookup_insert_Some in Hv' as [[_ <-]|[_ Hv']]; eauto.
Qed.

Lemma serve_exec_inv a s s' : inv s → exec a s = Some s' → inv s'.
Proof.
  intros Hi He. destruct a as [a|v|v ok|v|v]; simpl in He.
  - assert (∃ s1, Server.exec ParseCertificate a (sv s) = Some s1 ∧ s' = mkSys s1 (wssrv s) (calls s))
      as (s1&Hs1&->); [|by eapply srv_inv].
    destruct a; try (destruct (accepting s); [|done]); apply bind_Some in He as (s1&?&[= <-]); eauto.
  - destruct (calls s !! v); [done|]. injection He as <-. apply set_call_inv; [done|].
    case_bool_decide; split; simpl; naive_solver.
  - apply bind_Some in He as (c&Hc&He). destruct (v_pc c) eqn:Hp; try done. injection He as <-.
    destruct (si_calls _ Hi v c Hc) as [? ? Hh]. rewrite Hp in *.
    apply set_call_inv; [done|]. destruct ok; split; simpl; naive_solver.
  - apply bind_Some in He as (c&Hc&He). destruct (si_calls _ Hi v c Hc) as [Hd Hcl Hh].
    unfold serve_step in He. destruct (v_pc c) eqn:Hp; try done.
    + injection He as <-. destruct Hi as [Hs Hcs]. split; simpl; [done|]. intros v' c' Hv'.
      apply lookup_insert_Some in Hv' as [[_ <-]|[_ Hv']]; [split; simpl; naive_solver|eauto].
    + destruct (done (sv s)) eqn:Hdone; [|done]. injection He as <-.
      apply set_call_inv; [done|]. split; simpl; naive_solver.
    + injection He as <-. apply set_call_inv; [done|]. split; simpl; naive_solver.
    + injection He as <-. apply set_call_inv; [done|]. case_bool_decide; split; simpl; naive_solver.
  - apply bind_Some in He as (c&Hc&He). destruct (si_calls _ Hi v c Hc) as [Hd Hcl Hh].
    case_decide as Hw; [|done]. injection He as <-. apply set_call_inv; [done|].
    split; simpl; [done| |done]. intros Hp. specialize (Hcl Hp). congruence.
Qed.

Lemma serve_reachable_inv ks s : reachable exec (init ks) s → inv s.
Proof.
  apply reachable_invariant.
  - split; simpl; [|done]. by split.
  - intros a s1 s2. apply serve_exec_inv.
Qed.

Lemma serve_server_reachable ks s :
  reachable exec (init ks) s → reachable (Server.exec ParseCertificate) (NewServer ks) (sv s).
Proof.
  apply (reachable_invariant exec (λ s, reachable (Server.exec ParseCertificate) (NewServer ks) (sv s)));
    [apply rtc_refl|].
  intros a s1 s2 Hr He.
  assert (sv s2 = sv s1 ∨ ∃ a, Server.exec ParseCertificate a (sv s1) = Some (sv s2)) as [->|[b Hb]];
    [|done|by eapply rtc_r; [|exists b]].
  destruct a as [a|v|v ok|v|v]; simpl in He.
  - right. exists a. destruct a; try (destruct (accepting s1); [|done]);
      apply bind_Some in He as (s'&?&[= <-]); done.
  - left. destruct (calls s1 !! v); [done|]. by injection He as <-.
  - left. apply bind_Some in He as (c&Hc&He). destruct (v_pc c); try done. by injection He as <-.
  - left. apply bind_Some in He as (c&Hc&He). unfold serve_step in He.
    destruct (v_pc c); try done; try (destruct (done (sv s1)); [|done]); by injection He as <-.
  - left. apply bind_Some in He as (c&Hc&He). case_decide; [|done]. by injection He as <-.
Qed.

(** What a [Serve] does once [done] is fired, from each of its positions. *)
Lemma serve_runs s v c :
  inv s → calls s !! v = Some c →
  match v_pc c with VStart | VWait | VCloseWs | VCloseHealth => True | _ => False end →
  done (sv s) = true →
  ∃ n s' c', n ≤ 4 ∧ run exec (replicate n (ServeStep v)) s = Some s' ∧ calls s' !! v = Some c' ∧
    v_pc c' = VReturned ∧ v_ws c' = HClosed ∧ healthz c' = None.
Proof.
  intros Hi Hc Hp Hd.
  pose proof (vo_closed _ _ (si_calls _ Hi v c Hc)) as Hcl.
  exists (match v_pc c with VStart => 4 | VWait => 3 | VCloseWs => 2 | _ => 1 end).
  destruct (v_pc c) eqn:Hpc; try done; simpl; rewrite Hc; simpl; unfold serve_step at 1; rewrite Hpc;
    repeat (progress (unfold serve_step; simpl; rewrite ?lookup_insert_eq, ?Hd; simpl)).
  all: eexists _, _; split; [lia|]; split; [done|]; simpl; rewrite lookup_insert_eq; split; [done|];
    unfold healthz; simpl; case_bool_decide; simpl; auto.
Qed.

(** ** Theorems *)

Hypothesis no_panic : ∀ b p, UnmarshalMessage b ≠ Panic p.

(** C28: [Serve] goes past its wait only after a call of [Stop] is over; if [Stop] was
    called once, every connection ever made has then run its callback and the
    server takes no new one. *)
Theorem serve_waits_for_stop ks s v c :
  reachable exec (init ks) s → calls s !! v = Some c → past_wait (v_pc c) = true →
  ∃ x pc, stops (sv s) !! x = Some pc ∧ stop_over pc ∧
    ((∀ y, is_Some (stops (sv s) !! y) → y = x) →
      pc = SReturned ∧ connMgr (sv s) = None ∧
      ∀ tr t, trs (sv s) !! tr = Some t → t_after t = true).
Proof.
  intros Hr Hc Hp. pose proof (serve_reachable_inv ks s Hr) as Hi.
  pose proof (server_reachable_inv _ no_panic ks _ (serve_server_reachable ks s Hr)) as Hsi.
  destruct (so_done _ (si_stops _ Hi) (vo_done _ _ (si_calls _ Hi v c Hc) Hp)) as (x&pc&Hx&Ho).
  exists x, pc. split; [done|]. split; [done|]. intros Hone.
  destruct Ho as [->|[p ->]].
  - split; [done|]. split; [by apply (iv_stop _ Hsi x SReturned)|]. apply live_empty.
    by apply (iv_ret _ Hsi x).
  - destruct (so_first _ (si_stops _ Hi) x _ Hx) as (y&pcy&Hne&Hy); [by right; eexists|].
    by destruct Hne; apply Hone.
Qed.

(** Once [done] is fired a [Serve] past the health check's listener returns by its
    own steps, with both of its HTTP servers closed; until it returns, whatever
    became of the websocket listener, a configured health check answers 200. *)
Theorem serve_returns_when_done ks s v c :
  reachable exec (init ks) s → calls s !! v = Some c →
  match v_pc c with VStart | VWait | VCloseWs | VCloseHealth => True | _ => False end →
  (healthcheckAddr ≠ "" → healthz c = Some 200%Z) ∧
  (done (sv s) = true →
    ∃ n s' c', n ≤ 4 ∧ run exec (replicate n (ServeStep v)) s = Some s' ∧ calls s' !! v = Some c' ∧
      v_pc c' = VReturned ∧ v_ws c' = HClosed ∧ healthz c' = None).
Proof.
  intros Hr Hc Hp. pose proof (serve_reachable_inv ks s Hr) as Hi. split.
  - intros Hh. pose proof (vo_health _ _ (si_calls _ Hi v c Hc) Hh) as Hv. unfold healthz.
    destruct (v_pc c); try done; by rewrite Hv.
  - intros Hd. by apply (serve_runs s v c).
Qed.
End Serve.

(** ** Concrete runs, with the health check at ":8080" *)

Definition w_serve : action → sys → option sys := exec (U:=Toy.U) w_parse ":8080".
Definition w_serving : list action := [CallServe 1; ListenHealth 1 true; ServeStep 1].
Definition w_srv (acts : list Server.action) : list action := Srv <$> acts.
Definition w_stop_run : list action :=
  w_serving ++ w_srv (w_connect 1 k1 10 ++ w_stop 1 ++
    [TransportDown 10; AfterWritePump 10; StopStep 1]).
Definition w_stopping : sys := final w_serve w_stop_run (init [k1; k2]).
Definition w_returned : sys :=
  final w_serve (w_stop_run ++ [ServeStep 1; ServeStep 1; ServeStep 1]) (init [k1; k2]).

(** One more call of [Stop] ends the waiting of [Serve] early: the first is in
    [serveWG.Wait()] for a connection that is not down; the second panics on the nil
    [connMgr], and its deferred [done.Fire()] lets [Serve] return (a caller of the
    second may recover) with that connection's callback still to come. *)
Theorem second_stop_releases_serve :
  ∃ s c t, reachable w_serve (init [k1; k2]) s ∧ calls s !! 1 = Some c ∧ v_pc c = VReturned ∧
    stops (sv s) !! 1 = Some SWait ∧ stops (sv s) !! 2 = Some (SPanicked NilDeref) ∧
    trs (sv s) !! 10 = Some t ∧ t_down t = false ∧ t_after t = false.
Proof.
  exists (final w_serve (w_serving ++ w_srv (w_connect 1 k1 10 ++ w_stop 1 ++
    [Stop 2; StopStep 2; StopStep 2; StopStep 2]) ++ [ServeStep 1; ServeStep 1; ServeStep 1])
    (init [k1; k2])).
  eexists _, _. split_and!; at_state.
Qed.

Lemma serve_waits_for_stop_witness :
  ∃ x pc, stops (sv w_returned) !! x = Some pc ∧ stop_over pc ∧
    ((∀ y, is_Some (stops (sv w_returned) !! y) → y = x) →
      pc = SReturned ∧ connMgr (sv w_returned) = None ∧
      ∀ tr t, trs (sv w_returned) !! tr = Some t → t_after t = true).
Proof.
  apply (serve_waits_for_stop (U:=Toy.U) w_parse ":8080" toy_no_panic [k1; k2] w_returned 1
    (mkServe VReturned HClosed HClosed)); at_state.
Defined.

Lemma serve_returns_when_done_witness :
  healthz (mkServe VWait HServing HServing) = Some 200%Z ∧
  ∃ n s' c', n ≤ 4 ∧ run w_serve (replicate n (ServeStep 1)) w_stopping = Some s' ∧
    calls s' !! 1 = Some c' ∧ v_pc c' = VReturned ∧ v_ws c' = HClosed ∧ healthz c' = None.
Proof.
  destruct (serve_returns_when_done (U:=Toy.U) w_parse ":8080" [k1; k2] w_stopping 1
    (mkServe VWait HServing HServing)) as [Hh Hd]; [at_state..|exact I|].
  split; [by apply Hh|by apply Hd].
Defined.
End Serve.
