(* ===== verification/Conn.v ===== *)
(** A websocket connection: a client's and a server's [Transport] whose
    [ReadMessage] returns what the other side's [WriteMessage] was given, in
    order and unchanged, until it fails.  That is what TCP under TLS promises,
    and the only thing the two ends know of each other. *)
From S2P Require Import Prelude Transport.

Module Conn.
Import Transport.

#[global] Instance side_eq_dec : EqDecision side.
Proof. solve_decision. Defined.

Definition other (sd : side) : side :=
  match sd with ClientSide => ServerSide | ServerSide => ClientSide end.

Record conn := mkConn { c_cl : tr; c_sv : tr }.

Definition init : conn := mkConn Transport.init Transport.init.

Definition near (sd : side) (k : conn) : tr :=
  match sd with ClientSide => c_cl k | ServerSide => c_sv k end.
Definition set_near (sd : side) (s : tr) (k : conn) : conn :=
  match sd with ClientSide => mkConn s (c_sv k) | ServerSide => mkConn (c_cl k) s end.

(** A step of one side. *)
Definition action : Type := side * Transport.action.

(** [ReadMessage] returns the next message the other side put on the wire. *)
Definition may_read (a : Transport.action) (near far : tr) : bool :=
  match a with
  | ReadEvent (ReadMsg m) => bool_decide (wire far !! length (recvd near) = Some m)
  | _ => true
  end.

Definition exec (a : action) (k : conn) : option conn :=
  let '(sd, a) := a in
  if may_read a (near sd k) (near (other sd) k) then
    s ← Transport.exec sd a (near sd k); Some (set_near sd s k)
  else None.

(** ** What a step does to what the other side sees *)

Lemma exec_wire sd a s s' : Transport.exec sd a s = Some s' → wire s `prefix_of` wire s'.
Proof. intros He. destruct a; tr_step He; first [reflexivity|by eexists]. Qed.

Lemma exec_recvd sd a s s' : Transport.exec sd a s = Some s' →
  recvd s' = match a with ReadEvent (ReadMsg m) => recvd s ++ [m] | _ => recvd s end.
Proof. intros He. destruct a; tr_step He; done. Qed.

Lemma exec_delivered sd a s s' : Transport.exec sd a s = Some s' →
  delivered s' = delivered s ++
    match a, rp s with Receive, RSend m => [m] | _, _ => [] end.
Proof. intros He. destruct a; tr_step He; by rewrite ?app_nil_r. Qed.

(** A writer keeps its message, and only [Write] makes one. *)
Lemma exec_writers sd a s s' w : Transport.exec sd a s = Some s' →
  w_msg <$> writers s' !! w =
    match a with
    | Write t msg => if decide (t = w) then Some msg else w_msg <$> writers s !! w
    | _ => w_msg <$> writers s !! w
    end.
Proof.
  intros He.
  assert (∀ t wr wr', writers s !! t = Some wr → w_msg wr' = w_msg wr →
    w_msg <$> <[t := wr']> (writers s) !! w = w_msg <$> writers s !! w) as Hsame.
  { intros t wr wr' Ht Hm. destruct (decide (t = w)) as [<-|].
    - by rewrite lookup_insert_eq, Ht; simpl; rewrite Hm.
    - by rewrite lookup_insert_ne. }
  destruct a; tr_step He; try done; try (by eapply Hsame).
  case_decide as Hw; [subst; by rewrite lookup_insert_eq|by rewrite lookup_insert_ne].
Qed.

(** ** The invariant *)

Lemma near_set sd sd' s k :
  near sd (set_near sd' s k) = if decide (sd = sd') then s else near sd k.
Proof. by destruct sd, sd'. Qed.
Lemma conn_near_reachable sd k :
  reachable exec init k → reachable (Transport.exec sd) Transport.init (near sd k).
Proof.
  apply (reachable_invariant exec (λ k, reachable (Transport.exec sd) Transport.init (near sd k))).
  - by destruct sd.
  - intros [sd' a] k1 k2 Hr He. simpl in He. destruct (may_read _ _ _); [|done].
    apply bind_Some in He as (s&He&[= <-]). rewrite near_set. case_decide; [subst|done].
    eapply rtc_r; [done|by exists a].
Qed.

(** What a side has read is an initial part of what the other put on the wire. *)
Lemma conn_carried k : reachable exec init k → ∀ sd, recvd (near sd k) `prefix_of` wire (near (other sd) k).
Proof.
  apply (reachable_invariant exec (λ k, ∀ sd, recvd (near sd k) `prefix_of` wire (near (other sd) k))).
  - by intros [].
  - intros [sd' a] k1 k2 Hp He sd. simpl in He. destruct (may_read _ _ _) eqn:Hm; [|done].
    apply bind_Some in He as (s&He&[= <-]). specialize (Hp sd). apply exec_wire in He as Hw.
    destruct (decide (sd = sd')) as [<-|Hne].
    2: { destruct sd, sd'; try done; simpl in *; by etrans. }
    rewrite !near_set, decide_True, decide_False by (done || by destruct sd).
    rewrite (exec_recvd _ _ _ _ He). destruct a as [| | | | |[m|]| |]; try done. simpl in Hm.
    apply bool_decide_eq_true in Hm. destruct Hp as [rest Hp]. rewrite Hp in *.
    rewrite lookup_app_r in Hm by lia. rewrite Nat.sub_diag in Hm.
    destruct rest as [|m' rest]; simplify_eq/=. exists rest. by rewrite <- app_assoc.
Qed.

(** The n-th message a side reads is the n-th one taken from a writer on the
    other side, whose [Write] returned nil. *)
Lemma conn_read sd k n m :
  reachable exec init k → recvd (near sd k) !! n = Some m →
  ∃ t w, taken (near (other sd) k) !! n = Some t ∧ writers (near (other sd) k) !! t = Some w ∧
    w_pc w = WrOk ∧ w_msg w = m.
Proof.
  intros Hr Hn.
  destruct (transport_reachable_flow _ _ (conn_near_reachable (other sd) k Hr))
    as [Hta _ (lost&Hms&_) _].
  assert (msgs (near (other sd) k) !! n = Some m) as Hmsg.
  { destruct (conn_carried k Hr sd) as [rest Hw]. rewrite Hms, Hw, <- !app_assoc.
    by apply lookup_app_l_Some. }
  unfold msgs in Hmsg. rewrite list_lookup_fmap in Hmsg.
  apply fmap_Some in Hmsg as (t&Ht&->). exists t.
  destruct (proj1 (Hta t)) as (w&Hw&Hpc); [by eapply list_elem_of_lookup_2|].
  exists w. by rewrite Hw.
Qed.

Lemma conn_delivered sd k n m :
  reachable exec init k → delivered (near sd k) !! n = Some m → recvd (near sd k) !! n = Some m.
Proof.
  intros Hr Hn.
  rewrite (fl_read _ (transport_reachable_flow _ _ (conn_near_reachable sd k Hr))).
  by apply lookup_app_l_Some.
Qed.

Lemma conn_in_reader sd k m :
  reachable exec init k → rp (near sd k) = RSend m →
  recvd (near sd k) !! length (delivered (near sd k)) = Some m.
Proof.
  intros Hr Hm.
  rewrite (fl_read _ (transport_reachable_flow _ _ (conn_near_reachable sd k Hr))), Hm.
  by rewrite lookup_app_r, Nat.sub_diag.
Qed.

(** ** What a step does to either side *)

Lemma conn_writers sd a k k' w wr' :
  exec a k = Some k' → writers (near sd k') !! w = Some wr' →
  (∃ wr, writers (near sd k) !! w = Some wr ∧ w_msg wr = w_msg wr') ∨
  a = (sd, Write w (w_msg wr')).
Proof.
  destruct a as [sd' a]. simpl. intros He Hw. destruct (may_read _ _ _); [|done].
  apply bind_Some in He as (s&He&[= <-]). rewrite near_set in Hw.
  case_decide as Hsd; [subst sd'|left; eauto].
  pose proof (exec_writers _ _ _ _ w He) as Hm. rewrite Hw in Hm. simpl in Hm.
  destruct a; try (symmetry in Hm; apply fmap_Some in Hm as (wr&?&?); left; by exists wr).
  case_decide; [subst; right; congruence|].
  symmetry in Hm; apply fmap_Some in Hm as (wr&?&?); left; by exists wr.
Qed.

Lemma conn_delivered_grows sd a k k' :
  exec a k = Some k' → delivered (near sd k) `prefix_of` delivered (near sd k').
Proof.
  destruct a as [sd' a]. simpl. intros He. destruct (may_read _ _ _); [|done].
  apply bind_Some in He as (s&He&[= <-]). rewrite near_set.
  case_decide; [subst|done]. rewrite (exec_delivered _ _ _ _ He). by eexists.
Qed.

Lemma conn_receive sd k k' m :
  exec (sd, Receive) k = Some k' → rp (near sd k) = RSend m →
  delivered (near sd k') = delivered (near sd k) ++ [m].
Proof.
  simpl. intros He Hm. apply bind_Some in He as (s&He&[= <-]).
  rewrite Hm in He. injection He as <-. by destruct sd.
Qed.

(** ** Draining the connection *)

Definition reading (sd : side) (a : action) : Prop :=
  a = (sd, Receive) ∨ ∃ m, a = (sd, ReadEvent (ReadMsg m)).

(** One more read, or receive, as long as something is missing. *)
Lemma drain_step sd k :
  reachable exec init k → wp (near (other sd) k) = WSelect →
  read_running (rp (near sd k)) = true → conn_closed (near sd k) = false →
  delivered (near sd k) = msgs (near (other sd) k) ∨
  ∃ a s, reading sd a ∧ exec a k = Some (set_near sd s k) ∧
    read_running (rp s) = true ∧ conn_closed s = false ∧
    length (recvd (near sd k)) + length (delivered (near sd k)) <
      length (recvd s) + length (delivered s) ≤ 2 * length (msgs (near (other sd) k)).
Proof.
  intros Hr Hwp Hrun Hcl.
  destruct (transport_reachable_flow _ _ (conn_near_reachable sd k Hr)) as [_ _ _ Hre].
  destruct (transport_reachable_flow _ _ (conn_near_reachable (other sd) k Hr))
    as [_ _ (lost&Hms&_&Hlost) _].
  assert (lost = []) as ->.
  { destruct lost; [done|]. rewrite Hwp in Hlost. by specialize (Hlost ltac:(done)). }
  rewrite Hwp in Hms. simpl in Hms. rewrite app_nil_r in Hms. rewrite Hms.
  destruct (conn_carried k Hr sd) as [rest Hw]. rewrite Hw. rewrite length_app.
  destruct (rp (near sd k)) as [|m|] eqn:Hrp; simpl in *; [|right|done].
  - rewrite app_nil_r in Hre. destruct rest as [|m rest]; [left; by rewrite app_nil_r|right].
    exists (sd, ReadEvent (ReadMsg m)), (set_rp (RSend m) (add_recvd m (near sd k))).
    split; [right; by exists m|]. split.
    { simpl. rewrite bool_decide_true by (rewrite Hw, lookup_app_r, Nat.sub_diag by lia; done).
      destruct sd; simpl in *; by rewrite Hrp. }
    simpl. rewrite Hre, !length_app. simpl. split_and!; [done..|lia|lia].
  - exists (sd, Receive), (set_rp RRead (add_delivered m (near sd k))).
    split; [by left|]. split; [by simpl; rewrite Hrp|].
    simpl. rewrite Hre, !length_app. simpl. split_and!; [done..|lia|lia].
Qed.

(** ** A message over a quiet connection *)

(** Both write pumps wait for a message and everything written has been received. *)
Definition quiet (k : conn) : Prop :=
  ∀ sd, wp (near sd k) = WSelect ∧ rp (near sd k) = RRead ∧ conn_closed (near sd k) = false ∧
    recvd (near sd k) = wire (near (other sd) k).

Definition carry_actions (sd : side) (w : nat) (m : bytes) : list action :=
  [(sd, PumpEvent (PTake w)); (sd, PumpEvent (PWrote true)); (other sd, ReadEvent (ReadMsg m))].

Lemma carry sd k w m :
  quiet k → writers (near sd k) !! w = None →
  ∃ k1 k2 k3, exec (sd, Write w m) k = Some k1 ∧ run exec (carry_actions sd w m) k1 = Some k2 ∧
    w_pc <$> writers (near sd k2) !! w = Some WrOk ∧ rp (near (other sd) k2) = RSend m ∧
    exec (other sd, Receive) k2 = Some k3 ∧ quiet k3 ∧
    writers (near (other sd) k3) = writers (near (other sd) k).
Proof.
  intros Hq Hw. destruct (Hq ClientSide) as (Hcw&Hcr&Hcc&Hcd). destruct (Hq ServerSide) as (Hsw&Hsr&Hsc&Hsd).
  destruct k as [cl sv]. simpl in *.
  destruct sd; simpl in *; rewrite Hw; simpl.
  - eexists _, _, _. split; [done|]. unfold carry_actions. simpl. rewrite Hcw. unfold take_from. simpl. rewrite lookup_insert_eq. simpl.
    rewrite Hsd, bool_decide_true by (by rewrite lookup_app_r, Nat.sub_diag).
    simpl. rewrite Hsr. simpl. split; [done|]. simpl. rewrite lookup_insert_eq.
    split_and!; [done..| |done]. intros []; simpl; split_and!; try done. by rewrite Hsd.
  - eexists _, _, _. split; [done|]. unfold carry_actions. simpl. rewrite Hsw. unfold take_from. simpl. rewrite lookup_insert_eq. simpl.
    rewrite Hcd, bool_decide_true by (by rewrite lookup_app_r, Nat.sub_diag).
    simpl. rewrite Hcr. simpl. split; [done|]. simpl. rewrite lookup_insert_eq.
    split_and!; [done..| |done]. intros []; simpl; split_and!; try done. by rewrite Hcd.
Qed.

(** ** Theorems *)

(** C18: Whatever a side's read loop has received is an initial part of the messages
    whose [Write] returned nil on the other side, each once, unchanged, and in the
    order in which the other side's write pump took them. *)
Theorem connection_delivers sd k :
  reachable exec init k →
  delivered (near sd k) `prefix_of` msgs (near (other sd) k) ∧
  NoDup (taken (near (other sd) k)) ∧
  ∀ t, t ∈ taken (near (other sd) k) ↔
    ∃ w, writers (near (other sd) k) !! t = Some w ∧ w_pc w = WrOk.
Proof.
  intros Hr. pose proof (transport_reachable_flow _ _ (conn_near_reachable (other sd) k Hr)) as Hf.
  split_and!; [|apply Hf..].
  pose proof (transport_reachable_flow _ _ (conn_near_reachable sd k Hr)) as Hnear.
  destruct (fl_wire _ Hf) as (lost&->&_). destruct (conn_carried k Hr sd) as [rest ->].
  rewrite (fl_read _ Hnear), <- !app_assoc. by eexists.
Qed.

(** Nothing gets stuck on the way: while the reading side's pump and connection
    are up and the other side's write pump is idle, the reading side alone can
    read and deliver every message the other side accepted. *)
Theorem connection_drains sd k :
  reachable exec init k → wp (near (other sd) k) = WSelect →
  read_running (rp (near sd k)) = true → conn_closed (near sd k) = false →
  ∃ acts k', run exec acts k = Some k' ∧ Forall (reading sd) acts ∧
    near (other sd) k' = near (other sd) k ∧
    delivered (near sd k') = msgs (near (other sd) k).
Proof.
  remember (2 * length (msgs (near (other sd) k)) -
    (length (recvd (near sd k)) + length (delivered (near sd k)))) as n eqn:Hn.
  revert k Hn. induction (lt_wf n) as [n _ IH]. intros k Hn Hr Hwp Hrp Hcl.
  destruct (drain_step sd k Hr Hwp Hrp Hcl) as [Hd|(a&s&Ha&He&Hrp'&Hcl'&Hlen)].
  { exists [], k. by split_and!. }
  assert (near (other sd) (set_near sd s k) = near (other sd) k) as Hfar by by destruct sd.
  assert (near sd (set_near sd s k) = s) as Hnear by by destruct sd.
  destruct (IH (2 * length (msgs (near (other sd) k)) - (length (recvd s) + length (delivered s))))
    with (set_near sd s k) as (acts&k'&Hrun&Hacts&Hf&Hd); rewrite ?Hfar, ?Hnear; try done; [lia| |].
  { eapply rtc_r; [done|by exists a]. }
  exists (a :: acts), k'. split; [simpl; by rewrite He|].
  split; [by constructor|]. rewrite Hf, Hd, Hfar. done.
Qed.

(** ** Witnesses: two messages of the client, one of them received *)

Definition w_a : bytes := [x01].
Definition w_b : bytes := [x02].
Definition w_sent : list action :=
  [(ClientSide, Write 1 w_a); (ClientSide, Write 2 w_b);
   (ClientSide, PumpEvent (PTake 2)); (ClientSide, PumpEvent (PWrote true));
   (ClientSide, PumpEvent (PTake 1)); (ClientSide, PumpEvent (PWrote true));
   (ServerSide, ReadEvent (ReadMsg w_b)); (ServerSide, Receive)].
Definition w_state : conn := final exec w_sent init.

Lemma connection_delivers_witness :
  delivered (c_sv w_state) = [w_b] ∧ [w_b] `prefix_of` msgs (c_cl w_state).
Proof.
  split; [at_state|].
  exact (proj1 (connection_delivers ServerSide w_state ltac:(at_state))).
Defined.

Lemma connection_drains_witness :
  ∃ acts k', run exec acts w_state = Some k' ∧ delivered (c_sv k') = [w_b; w_a].
Proof.
  destruct (connection_drains ServerSide w_state) as (acts&k'&Hrun&_&_&Hd); [at_state..|].
  exists acts, k'. split; [exact Hrun|]. simpl in Hd. rewrite Hd. at_state.
Defined.
End Conn.
