(* ===== verification/Exchange.v ===== *)
(** The calls of one endpoint all the way through: the goroutines of its [Invoke]s and
    response handlers, any number of websocket connections to any number of peers, one
    after the other or side by side ([Conn], each with the pumps of both ends), and the
    peers' goroutines that handle its requests.

    The endpoint's own goroutines are behind the interface [Caller], which the client
    ([ClientCalls]) and the server ([ServerCalls]) both implement.  The other direction
    of the RPCs appears as traffic: both ends may write any other message at any time,
    this endpoint none that is a request, a peer none that is a response; a peer that is
    not [honest] writes whatever it likes.  What a read loop does with a message is
    [handleRead] of [client.go] and [server.go]; which connection a [Write] gets, when a
    connection fails and when contexts end is the scheduler's choice. *)
From S2P Require Import Prelude Peer Message Service Rpc Transport Conn.

Module Exchange.
Import Message Transport Conn.
Import Rpc (prepared).

(** ** An endpoint that makes calls

    Its goroutines as a transition system, and what the connections see of it: the call
    of an [Invoke] (its peer, named by a [P], and the call id), whether it is in [tr.Write], what
    an action builds ([Invoke] of a method with arguments, and the bytes), the responses
    that arrived, and the actions in which a connection takes part. *)
Class Caller (U P C A : Type) := {
  calls_init : C;
  calls_exec : A → C → option C;
  call_of : C → nat → option (P * string);
  writing : C → nat → bool;
  arrived : C → nat → option (P * Response);
  builds : A → C → option (nat * (string * any U * slice));
  alone : A → bool;
  act_written : nat → outcome unit → A;
  act_arrive : nat → P → Response → A;
}.

Class CallerLaws (U P C A : Type) `{ProtoLib U} `{!Caller U P C A} : Prop := {
  caller_builds (a : A) (s s' : C) t method args b :
    calls_exec a s = Some s' → builds a s = Some (t, (method, args, b)) →
    call_of s t = None ∧ ∃ p id, call_of s' t = Some (p, id) ∧ prepared method args id b;
  caller_keeps (a : A) (s s' : C) t x :
    calls_exec a s = Some s' → call_of s t = Some x → call_of s' t = Some x;
  caller_init h : arrived (C:=C) calls_init h = None;
  caller_others (a : A) (s s' : C) h x :
    calls_exec a s = Some s' → alone a = true ∨ (∃ t o, a = act_written t o) →
    arrived s' h = Some x → arrived s h = Some x;
  caller_arrives h0 p r (s s' : C) h x :
    calls_exec (act_arrive h0 p r) s = Some s' →
    arrived s' h = Some x → arrived s h = Some x ∨ x = (p, r);
  caller_ids (s : C) t1 t2 p1 p2 id :
    reachable calls_exec calls_init s → call_of s t1 = Some (p1, id) → call_of s t2 = Some (p2, id) →
    t1 = t2;
}.

Section Exchange.
Context {U : Type} `{ProtoLaws U}.
Context {P C A : Type} `{!EqDecision P, !Caller U P C A, !CallerLaws U P C A}.
(** The side of the connections this endpoint is on, the peer that each connection goes
    to, the peers that run this library, and what a peer's [handleMessageRequest] makes
    of a request. *)
Context (me : side) (owner : nat → P) (honest : P → bool)
  (serve : P → Message.Request → outcome (option slice)).
Hypothesis serve_id : ∀ p q b r, serve p q = Ok (Some b) →
  decode_envelope b = Ok (mkMessage (Some (Message_Response r))) → resp_CallId r = req_CallId q.

(** The local variables of an [Invoke] that got as far as [registerMethodCall]:
    its arguments, the bytes of the request, and the [Write] it has handed them to. *)
Record request := mkReq {
  r_method : string;
  r_args : any U;
  r_bytes : slice;
  r_write : option (nat * nat);  (* connection and writer *)
}.

(** A peer's goroutine in [handleMessageRequest]. *)
Inductive run_pc :=
  | RunHandler
  | RunSend (replyMsg : slice)   (* about to send the reply *)
  | RunDone
  | RunPanicked (p : panic).

Record serving := mkServing {
  h_req : Message.Request;
  h_from : nat * nat;   (* the connection it came over, and its number there *)
  h_run : run_pc;
}.

Record sys := mkSys {
  calls : C;
  reqs : gmap nat request;
  conns : gmap nat conn;
  runs : gmap nat serving;
}.

Definition init : sys := mkSys calls_init ∅ ∅ ∅.

Definition set_calls (c : C) (s : sys) : sys := mkSys c (reqs s) (conns s) (runs s).
Definition set_req (t : nat) (r : request) (s : sys) : sys :=
  mkSys (calls s) (<[t := r]> (reqs s)) (conns s) (runs s).
Definition set_conn (c : nat) (k : conn) (s : sys) : sys :=
  mkSys (calls s) (reqs s) (<[c := k]> (conns s)) (runs s).
Definition set_run (h : nat) (x : serving) (s : sys) : sys :=
  mkSys (calls s) (reqs s) (conns s) (<[h := x]> (runs s)).

Inductive action :=
  | Call (a : A)                           (* a step of the endpoint's calls of its own *)
  | Open (c : nat)                         (* a new connection *)
  | CallWrite (t c w : nat)                (* [Invoke] enters [tr.Write] *)
  | CallWritten (t : nat)                  (* and gets its result *)
  | End (c : nat) (a : Conn.action)        (* a step of one end of a connection *)
  | PeerRead (c h : nat)                   (* a peer's read loop gets a message *)
  | Handle (h : nat)                       (* the handler runs *)
  | Reply (h c w : nat)                    (* its reply enters [tr.Write] *)
  | NoConnection (h : nat)                 (* there is no transport for it *)
  | OwnRead (c h : nat).                   (* this endpoint's read loop gets a message *)

(** Bytes on the wire: nil and empty are the same. *)
Definition carried (b : slice) : bytes := default [] b.

Definition as_request (m : bytes) : option Message.Request :=
  match decode_envelope (Some m) with
  | Ok (mkMessage (Some (Message_Request r))) => Some r
  | _ => None
  end.

Definition as_response (m : bytes) : option Message.Response :=
  match decode_envelope (Some m) with
  | Ok (mkMessage (Some (Message_Response r))) => Some r
  | _ => None
  end.

(** The steps of an end in which only the connection takes part, or which write other
    traffic; any, at the end of a peer that does not run this library. *)
Definition end_alone (c : nat) (a : Conn.action) : bool :=
  if decide (a.1 = me) then
    match a.2 with
    | Receive => false
    | Write _ m => bool_decide (as_request m = None)
    | _ => true
    end
  else if honest (owner c) then
    match a.2 with
    | Receive => false
    | Write _ m => bool_decide (as_response m = None)
    | _ => true
    end
  else true.

(** The [Invoke] keeps what [prepare] built. *)
Definition new_request (a : A) (s : sys) : sys :=
  match builds a (calls s) with
  | Some (t, (method, args, b)) => set_req t (mkReq method args b None) s
  | None => s
  end.

(** What [handleMessageRequest] does up to the sending of the reply. *)
Definition handle (x : serving) : run_pc :=
  match serve (owner (h_from x).1) (h_req x) with
  | Ok (Some replyMsg) => RunSend replyMsg
  | Ok None | Err _ => RunDone
  | Panic p => RunPanicked p
  end.

Definition exec (a : action) (s : sys) : option sys :=
  match a with
  | Call a =>
      if alone a then
        c ← calls_exec a (calls s); Some (set_calls c (new_request a s))
      else None
  | Open c =>
      match conns s !! c with Some _ => None | None => Some (set_conn c Conn.init s) end
  | CallWrite t c w =>
      '(p, _) ← call_of (calls s) t; r ← reqs s !! t; k ← conns s !! c;
      match writing (calls s) t && bool_decide (owner c = p), r_write r with
      | true, None =>
          k ← Conn.exec (me, Write w (carried (r_bytes r))) k;
          Some (set_conn c k (set_req t (mkReq (r_method r) (r_args r) (r_bytes r) (Some (c, w))) s))
      | _, _ => None
      end
  | CallWritten t =>
      r ← reqs s !! t; '(c, w) ← r_write r; k ← conns s !! c; wr ← writers (near me k) !! w;
      written ← match w_pc wr with
        | WrWait => None | WrOk => Some (Ok tt) | WrErr e => Some (Err e) end;
      c ← calls_exec (act_written t written) (calls s); Some (set_calls c s)
  | End c a =>
      k ← conns s !! c;
      if end_alone c a then k ← Conn.exec a k; Some (set_conn c k s) else None
  | PeerRead c h =>
      k ← conns s !! c;
      match rp (near (other me) k), runs s !! h with
      | RSend m, None =>
          k' ← Conn.exec (other me, Receive) k;
          Some (match as_request m with
                | Some r => set_run h
                    (mkServing r (c, length (delivered (near (other me) k))) RunHandler) (set_conn c k' s)
                | None => set_conn c k' s
                end)
      | _, _ => None
      end
  | Handle h =>
      x ← runs s !! h;
      match h_run x with
      | RunHandler => Some (set_run h (mkServing (h_req x) (h_from x) (handle x)) s)
      | _ => None
      end
  | Reply h c w =>
      x ← runs s !! h; k ← conns s !! c;
      match h_run x with
      | RunSend replyMsg =>
          if decide (owner c = owner (h_from x).1) then
            k ← Conn.exec (other me, Write w (carried replyMsg)) k;
            Some (set_conn c k (set_run h (mkServing (h_req x) (h_from x) RunDone) s))
          else None
      | _ => None
      end
  | NoConnection h =>
      x ← runs s !! h;
      match h_run x with
      | RunSend _ => Some (set_run h (mkServing (h_req x) (h_from x) RunDone) s)
      | _ => None
      end
  | OwnRead c h =>
      k ← conns s !! c;
      match rp (near me k) with
      | RSend m =>
          k ← Conn.exec (me, Receive) k;
          match as_response m with
          | Some r =>
              cs ← calls_exec (act_arrive h (owner c) r) (calls s);
              Some (set_calls cs (set_conn c k s))
          | None => Some (set_conn c k s)
          end
      | _ => None
      end
  end.

(** The cases of a step. *)
Lemma exec_effects a s s' : exec a s = Some s' →
  match a with
  | Call a => alone a = true ∧ ∃ c, calls_exec a (calls s) = Some c ∧ s' = set_calls c (new_request a s)
  | Open c => conns s !! c = None ∧ s' = set_conn c Conn.init s
  | CallWrite t c w => ∃ id r k k', call_of (calls s) t = Some (owner c, id) ∧
      reqs s !! t = Some r ∧ r_write r = None ∧
      conns s !! c = Some k ∧ Conn.exec (me, Write w (carried (r_bytes r))) k = Some k' ∧
      s' = set_conn c k' (set_req t (mkReq (r_method r) (r_args r) (r_bytes r) (Some (c, w))) s)
  | CallWritten t => ∃ written c,
      calls_exec (act_written t written) (calls s) = Some c ∧ s' = set_calls c s
  | End c a => end_alone c a = true ∧ ∃ k k', conns s !! c = Some k ∧ Conn.exec a k = Some k' ∧
      s' = set_conn c k' s
  | PeerRead c h => ∃ k k' m, conns s !! c = Some k ∧ runs s !! h = None ∧
      rp (near (other me) k) = RSend m ∧ Conn.exec (other me, Receive) k = Some k' ∧
      s' = match as_request m with
           | Some r => set_run h (mkServing r (c, length (delivered (near (other me) k))) RunHandler)
                         (set_conn c k' s)
           | None => set_conn c k' s
           end
  | Handle h => ∃ x, runs s !! h = Some x ∧ h_run x = RunHandler ∧
      s' = set_run h (mkServing (h_req x) (h_from x) (handle x)) s
  | Reply h c w => ∃ x b k k', runs s !! h = Some x ∧ h_run x = RunSend b ∧
      owner c = owner (h_from x).1 ∧
      conns s !! c = Some k ∧ Conn.exec (other me, Write w (carried b)) k = Some k' ∧
      s' = set_conn c k' (set_run h (mkServing (h_req x) (h_from x) RunDone) s)
  | NoConnection h => ∃ x, runs s !! h = Some x ∧
      s' = set_run h (mkServing (h_req x) (h_from x) RunDone) s
  | OwnRead c h => ∃ k k' m, conns s !! c = Some k ∧ rp (near me k) = RSend m ∧
      Conn.exec (me, Receive) k = Some k' ∧
      match as_response m with
      | Some r => ∃ cs, calls_exec (act_arrive h (owner c) r) (calls s) = Some cs ∧
                    s' = set_calls cs (set_conn c k' s)
      | None => s' = set_conn c k' s
      end
  end.
Proof.
  intros He. destruct a; cbn [exec] in He;
    repeat match type of He with
    | _ ≫= _ = Some _ => apply bind_Some in He as (?&?&He)
    end.
  - destruct (alone a); [|done]. apply bind_Some in He as (c&?&[= <-]). eauto.
  - destruct (conns s !! c) eqn:?; [done|]. by injection He as <-.
  - destruct x as [p id]. repeat (apply bind_Some in He as (?&?&He)).
    destruct (writing _ _); [|done]. simpl in He. case_bool_decide; [subst|done].
    destruct (r_write _) eqn:?; try done. apply bind_Some in He as (k'&?&[= <-]). eauto 12.
  - destruct x0 as [c w]. repeat (apply bind_Some in He as (?&?&He)). injection He as <-. eauto.
  - destruct (end_alone c a); [|done]. apply bind_Some in He as (k'&?&[= <-]). eauto 10.
  - destruct (rp _) eqn:?; try done. destruct (runs s !! h) eqn:?; try done.
    apply bind_Some in He as (k'&?&[= <-]). eauto 10.
  - destruct (h_run _) eqn:?; try done. injection He as <-. eauto.
  - destruct (h_run _) eqn:?; try done. case_decide; [|done]. apply bind_Some in He as (k'&?&[= <-]). eauto 12.
  - destruct (h_run _) eqn:?; try done. injection He as <-. eauto.
  - destruct (rp _) eqn:?; try done. apply bind_Some in He as (k'&?&He).
    eexists _, k', _. split_and!; [done..|]. destruct (as_response _) as [r|].
    + apply bind_Some in He as (cs&?&[= <-]). eauto.
    + by injection He as <-.
Qed.

(** The cases of a step in the context. *)
Ltac effects He a :=
  pose proof (exec_effects _ _ _ He) as Heff; destruct a;
  [ destruct Heff as (Halone&cs&Hcs&->)
  | destruct Heff as [Hnew ->]
  | destruct Heff as (id&r0&k0&k1&Hcall&Hr0&Hw0&Hk0&Hk1&->)
  | destruct Heff as (o&cs&Hcs&->)
  | destruct Heff as (Halone&k0&k1&Hk0&Hk1&->)
  | destruct Heff as (k0&k1&m0&Hk0&Hn0&Hm0&Hk1&->)
  | destruct Heff as (x0&Hx0&Hrun0&->)
  | destruct Heff as (x0&b0&k0&k1&Hx0&Hrun0&Howner&Hk0&Hk1&->)
  | destruct Heff as (x0&Hx0&->)
  | destruct Heff as (k0&k1&m0&Hk0&Hm0&Hk1&Hs) ].

(** ** The components run as they do alone *)

Lemma new_request_conns a s : conns (new_request a s) = conns s.
Proof. unfold new_request. by destruct (builds a _) as [[t [[m args] b]]|]. Qed.
Lemma new_request_runs a s : runs (new_request a s) = runs s.
Proof. unfold new_request. by destruct (builds a _) as [[t [[m args] b]]|]. Qed.

(** A receiving step changes the connection alone, but for the response it hands on. *)
Lemma own_read_parts c h s s' k1 m :
  match as_response m with
  | Some r => ∃ cs, calls_exec (act_arrive h (owner c) r) (calls s) = Some cs ∧
                s' = set_calls cs (set_conn c k1 s)
  | None => s' = set_conn c k1 s
  end →
  conns s' = <[c := k1]> (conns s) ∧ reqs s' = reqs s ∧ runs s' = runs s ∧
  (calls s' = calls s ∨ ∃ r, as_response m = Some r ∧
    calls_exec (act_arrive h (owner c) r) (calls s) = Some (calls s')).
Proof. destruct (as_response m) as [r|]; [intros (cs&Hcs&->)|intros ->]; eauto 10. Qed.

(** A connection of the new state was there, is new, or made one step: what is written
    into it is what an [Invoke] or a handler has, or other traffic. *)
Definition written (c : nat) (b : Conn.action) (s s' : sys) : Prop :=
  match b with
  | (sd, Write w m) =>
      if decide (sd = me) then as_request m = None ∨
        ∃ t r, reqs s' !! t = Some r ∧ r_write r = Some (c, w) ∧ m = carried (r_bytes r)
      else honest (owner c) = true → as_response m = None ∨
        ∃ h x b, runs s !! h = Some x ∧ h_run x = RunSend b ∧ owner (h_from x).1 = owner c ∧
          m = carried b
  | _ => True
  end.

Lemma other_me : other me ≠ me.
Proof. by destruct me. Qed.

Lemma end_written c a s s' : end_alone c a = true → written c a s s'.
Proof.
  unfold end_alone, written. destruct a as [sd []]; simpl; try done. case_decide; [subst|].
  - intros Ha%bool_decide_eq_true. by left.
  - destruct (honest _); [|by intros _ ?]. intros Ha%bool_decide_eq_true. by left.
Qed.

Lemma step_conn a s s' c k' :
  exec a s = Some s' → conns s' !! c = Some k' →
  conns s !! c = Some k' ∨ k' = Conn.init ∨
  ∃ k b, conns s !! c = Some k ∧ Conn.exec b k = Some k' ∧ written c b s s'.
Proof.
  intros He Hc.
  assert (∀ c0 k0 k1 b, conns s !! c0 = Some k0 → Conn.exec b k0 = Some k1 → written c0 b s s' →
    <[c0 := k1]> (conns s) !! c = Some k' → conns s !! c = Some k' ∨ k' = Conn.init ∨
    ∃ k b, conns s !! c = Some k ∧ Conn.exec b k = Some k' ∧ written c b s s') as Hset.
  { intros c0 k0 k1 b Hk0 Hk1 Hb [[<- <-]|[_ H']]%lookup_insert_Some; [right; right; eauto 10|by left]. }
  effects He a; simpl in Hc.
  - left. by rewrite <- (new_request_conns a s).
  - apply lookup_insert_Some in Hc as [[_ <-]|[_ Hc]]; auto.
  - eapply Hset; [done..| |done]. simpl. rewrite decide_True by done. right. eexists t, _.
    split; [apply lookup_insert_eq|done].
  - by left.
  - eapply Hset; [done..| |done]. by apply end_written.
  - assert (<[c0:=k1]> (conns s) !! c = Some k') as Hc' by by destruct (as_request m0). by eapply Hset.
  - by left.
  - eapply Hset; [done..| |done]. simpl. rewrite decide_False by apply other_me. intros _. right. by exists h, x0, b0.
  - by left.
  - apply own_read_parts in Hs as (Hcs&_). rewrite Hcs in Hc. by eapply Hset.
Qed.

(** What a step, but for [Open], does to the connections: one of its ends moves, or none. *)
Definition one_end (s s' : sys) (ok : nat → Conn.action → Prop) : Prop :=
  conns s' = conns s ∨
  ∃ c k k' b, conns s !! c = Some k ∧ Conn.exec b k = Some k' ∧ conns s' = <[c := k']> (conns s) ∧ ok c b.

Lemma one_end_mono s s' ok1 ok2 : one_end s s' ok1 → (∀ c b, ok1 c b → ok2 c b) → one_end s s' ok2.
Proof. intros [?|(c&k&k'&b&?&?&?&?)] Hok; [by left|right]. exists c, k, k', b. auto. Qed.

Definition ends (a : action) (c : nat) (b : Conn.action) : Prop :=
  match a with
  | End c' b' => c = c' ∧ b = b'
  | CallWrite _ c' w => c = c' ∧ ∃ m, b = (me, Write w m)
  | PeerRead _ _ | Reply _ _ _ => b.1 = other me
  | OwnRead c' _ => c = c' ∧ b = (me, Receive)
  | _ => False
  end.

Lemma exchange_ends a s s' :
  exec a s = Some s' → match a with Open _ => True | _ => one_end s s' (ends a) end.
Proof.
  intros He. unfold one_end. effects He a; simpl; try done; try (by left).
  - left. apply new_request_conns.
  - right. eauto 12.
  - right. eauto 12.
  - right. exists c, k0, k1, (other me, Receive). split_and!; [done..| |done]. by destruct (as_request m0).
  - right. by exists c, k0, k1, (other me, Write w (carried b0)).
  - apply own_read_parts in Hs as (Hc&_). right. by exists c, k0, k1, (me, Receive).
Qed.

(** No connection goes away, and what one end has delivered stays. *)
Lemma step_conn_kept a s s' c k :
  exec a s = Some s' → conns s !! c = Some k →
  ∃ k', conns s' !! c = Some k' ∧ ∀ sd, delivered (near sd k) `prefix_of` delivered (near sd k').
Proof.
  intros He Hc.
  assert (∀ c0 k0 k1 b, conns s !! c0 = Some k0 → Conn.exec b k0 = Some k1 →
    ∃ k', <[c0 := k1]> (conns s) !! c = Some k' ∧
      ∀ sd, delivered (near sd k) `prefix_of` delivered (near sd k')) as Hset.
  { intros c0 k0 k1 b Hk0 Hk1. destruct (decide (c0 = c)) as [->|].
    - exists k1. rewrite lookup_insert_eq. split; [done|]. intros sd. simplify_eq.
      by eapply conn_delivered_grows.
    - exists k. by rewrite lookup_insert_ne. }
  effects He a; simpl; try (by eapply Hset); try (by exists k).
  - exists k. by rewrite new_request_conns.
  - exists k. rewrite lookup_insert_ne by congruence. done.
  - destruct (as_request m0); by eapply Hset.
  - apply own_read_parts in Hs as (->&_). by eapply Hset.
Qed.

Lemma exchange_conns s c k :
  reachable exec init s → conns s !! c = Some k → reachable Conn.exec Conn.init k.
Proof.
  intros Hr. revert c k.
  apply (reachable_invariant exec (λ s, ∀ c k, conns s !! c = Some k →
    reachable Conn.exec Conn.init k) init); [done| |done].
  clear. intros a s s' IH He c k' Hc.
  destruct (step_conn _ _ _ _ _ He Hc) as [Hk|[->|(k&b&Hk&Hb&_)]];
    [by eapply IH|apply rtc_refl|]. eapply rtc_r; [by eapply IH|by exists b].
Qed.

(** The calls make a step of their own, or none; a response arrives from the peer of the
    connection it was read from. *)
Lemma step_calls a s s' :
  exec a s = Some s' →
  calls s' = calls s ∨ ∃ b, calls_exec b (calls s) = Some (calls s') ∧
    ((alone b = true ∨ ∃ t o, b = act_written t o) ∨
     ∃ c k k' h m r, conns s !! c = Some k ∧ rp (near me k) = RSend m ∧ as_response m = Some r ∧
       b = act_arrive h (owner c) r ∧ conns s' !! c = Some k' ∧
       delivered (near me k') = delivered (near me k) ++ [m]).
Proof.
  intros He. effects He a; simpl; try (by left).
  - right. exists a. auto.
  - right. eexists. split; [done|]. left. right. eauto.
  - left. by destruct (as_request m0).
  - apply own_read_parts in Hs as (Hcs&_&_&[Hs|(r&Hr&Hs)]); [by left|]. right. eexists. split; [done|].
    right. exists c, k0, k1, h, m0, r. rewrite Hcs. split_and!; [done..|apply lookup_insert_eq|].
    by apply (conn_receive me).
Qed.

Lemma exchange_calls s : reachable exec init s → reachable calls_exec calls_init (calls s).
Proof.
  apply (reachable_invariant exec (λ s, reachable calls_exec calls_init (calls s)) init);
    [apply rtc_refl|].
  intros a s1 s2 IH He. destruct (step_calls _ _ _ He) as [->|(b&Hb&_)]; [done|].
  eapply rtc_r; [done|by exists b].
Qed.

Lemma step_call_kept a s s' t x :
  exec a s = Some s' → call_of (calls s) t = Some x → call_of (calls s') t = Some x.
Proof.
  intros He Ht. destruct (step_calls _ _ _ He) as [->|(b&Hb&_)]; [done|by eapply caller_keeps].
Qed.

(** Along a run no connection goes away, what was delivered stays, and so do the calls. *)
Lemma exchange_kept s s' :
  reachable exec s s' →
  (∀ c k, conns s !! c = Some k → ∃ k', conns s' !! c = Some k' ∧
     ∀ sd, delivered (near sd k) `prefix_of` delivered (near sd k')) ∧
  ∀ t x, call_of (calls s) t = Some x → call_of (calls s') t = Some x.
Proof.
  induction 1 as [|s1 s2 s3 [a Ha] _ [IHk IHc]].
  - split; [|done]. intros c k Hk. by exists k.
  - split.
    + intros c k Hk. destruct (step_conn_kept _ _ _ _ _ Ha Hk) as (k1&Hk1&H1).
      destruct (IHk c k1 Hk1) as (k2&Hk2&H2). exists k2. split; [done|]. intros sd. by etrans; [apply H1|apply H2].
    + intros t x Hx. eapply IHc. by eapply step_call_kept.
Qed.

(** ** The requests *)

Definition same_request (r r' : request) : Prop :=
  r_method r' = r_method r ∧ r_args r' = r_args r ∧ r_bytes r' = r_bytes r ∧
  ∀ p, r_write r = Some p → r_write r' = Some p.

Lemma new_request_back a s t r' :
  reqs (new_request a s) !! t = Some r' →
  reqs s !! t = Some r' ∨
  builds a (calls s) = Some (t, (r_method r', r_args r', r_bytes r')) ∧ r_write r' = None.
Proof.
  unfold new_request. destruct (builds a _) as [[t0 [[m args] b]]|]; [|by left]. simpl.
  intros [[<- <-]|[_ H']]%lookup_insert_Some; [by right|by left].
Qed.

Lemma step_request_back a s s' t r' :
  exec a s = Some s' → reqs s' !! t = Some r' →
  (∃ r, reqs s !! t = Some r ∧ same_request r r' ∧
    ∀ c w, r_write r' = Some (c, w) → r_write r = Some (c, w) ∨
      ∃ id, call_of (calls s) t = Some (owner c, id)) ∨
  ∃ b, a = Call b ∧ builds b (calls s) = Some (t, (r_method r', r_args r', r_bytes r')) ∧
    calls_exec b (calls s) = Some (calls s') ∧ r_write r' = None.
Proof.
  intros He Hr'.
  assert (reqs s !! t = Some r' → ∃ r, reqs s !! t = Some r ∧ same_request r r' ∧
    ∀ c w, r_write r' = Some (c, w) → r_write r = Some (c, w) ∨
      ∃ id, call_of (calls s) t = Some (owner c, id)) as Hsame by (intros; exists r'; repeat split; auto).
  effects He a; simpl in Hr'; try (left; by apply Hsame).
  - apply new_request_back in Hr' as [Hr'|[Hb Hw]]; [left; by apply Hsame|]. right. by exists a.
  - apply lookup_insert_Some in Hr' as [[<- <-]|[_ Hr']]; [|left; by apply Hsame].
    left. exists r0. split; [done|]. split; [split_and!; [done..|by rewrite Hw0]|].
    intros c' w' [= <- <-]. right. by exists id.
  - left. apply Hsame. by destruct (as_request m0).
  - apply own_read_parts in Hs as (_&Hq&_). left. apply Hsame. by rewrite <- Hq.
Qed.

(** A request is what its [Invoke] built, and goes to the peer of its call. *)
Definition requests_ok (s : sys) : Prop :=
  ∀ t r, reqs s !! t = Some r → ∃ p id, call_of (calls s) t = Some (p, id) ∧
    prepared (r_method r) (r_args r) id (r_bytes r) ∧
    ∀ c w, r_write r = Some (c, w) → owner c = p.

Lemma exchange_requests s : reachable exec init s → requests_ok s.
Proof.
  apply (reachable_invariant exec requests_ok init); [done|].
  intros a s1 s2 IH He t r' Hr'.
  destruct (step_request_back _ _ _ _ _ He Hr') as [(r&Hr&(Hm&Ha&Hb&_)&Hw)|(b&->&Hb&Hc&Hw)].
  - destruct (IH t r Hr) as (p&id&Hi&Hp&Ho). rewrite Hm, Ha, Hb. exists p, id.
    split_and!; [by eapply step_call_kept|done|]. intros c w Hcw.
    destruct (Hw c w Hcw) as [Hcw'|[id' Hid]]; [by eapply Ho|congruence].
  - destruct (caller_builds _ _ _ _ _ _ _ Hc Hb) as (_&p&id&Hi&Hp).
    exists p, id. split_and!; [done..|]. intros c w. by rewrite Hw.
Qed.

Lemma step_request_kept a s s' t r :
  requests_ok s → exec a s = Some s' → reqs s !! t = Some r →
  ∃ r', reqs s' !! t = Some r' ∧ same_request r r'.
Proof.
  intros Hok He Hr. assert (same_request r r) as Hrefl by done.
  effects He a; simpl; eauto.
  - unfold new_request. destruct (builds a _) as [[t0 [[m args] b]]|] eqn:Hb; [|eauto].
    exists r. simpl. rewrite lookup_insert_ne; [done|]. intros ->.
    destruct (caller_builds _ _ _ _ _ _ _ Hcs Hb) as [Hn _].
    destruct (Hok t r Hr) as (p&id&Hi&_). congruence.
  - destruct (decide (t0 = t)) as [->|].
    + rewrite lookup_insert_eq. simplify_eq. eexists. split; [done|].
      split_and!; [done..|]. by rewrite Hw0.
    + rewrite lookup_insert_ne by done. eauto.
  - destruct (as_request m0); eauto.
  - apply own_read_parts in Hs as (_&->&_). eauto.
Qed.

(** A request in a writer of this endpoint's end is the bytes of the [Invoke] that
    entered that [Write]. *)
Definition own_writers (s : sys) : Prop :=
  ∀ c k w wr q, conns s !! c = Some k → writers (near me k) !! w = Some wr →
    as_request (w_msg wr) = Some q →
    ∃ t r, reqs s !! t = Some r ∧ r_write r = Some (c, w) ∧ w_msg wr = carried (r_bytes r).

Lemma exchange_own_writers s : reachable exec init s → own_writers s.
Proof.
  apply (reachable_invariant_under exec requests_ok own_writers); [apply exchange_requests|done|].
  intros a s1 s2 Hok IH He c k' w wr q Hk' Hw Hq.
  assert (∀ k wr0, conns s1 !! c = Some k → writers (near me k) !! w = Some wr0 →
    w_msg wr0 = w_msg wr → ∃ t r, reqs s2 !! t = Some r ∧ r_write r = Some (c, w) ∧
      w_msg wr = carried (r_bytes r)) as Hold.
  { intros k wr0 Hk Hw0 Hm. rewrite <- Hm in Hq. destruct (IH c k w wr0 q Hk Hw0 Hq) as (t&r&Hr&Hc&Hb).
    destruct (step_request_kept _ _ _ _ _ Hok He Hr) as (r'&Hr'&_&_&Hby&Hwr).
    exists t, r'. rewrite Hby, <- Hm. auto. }
  destruct (step_conn _ _ _ _ _ He Hk') as [Hk|[->|(k&b&Hk&Hb&Hwb)]]; [by eapply Hold|by destruct me|].
  destruct (conn_writers me _ _ _ _ _ Hb Hw) as [(wr0&Hw0&Hm)| ->]; [by eapply Hold|].
  simpl in Hwb. rewrite decide_True in Hwb by done. destruct Hwb as [Hn|Hr]; [congruence|done].
Qed.

(** ** The peers' handlers *)

Definition handles (p : P) (q : Message.Request) (b : slice) : Prop := serve p q = Ok (Some b).

Definition run_owner (x : serving) : P := owner (h_from x).1.

(** A goroutine that reads the [n]-th message of a connection. *)
Definition started (a : action) (h : nat) (x : serving) (s s' : sys) : Prop :=
  ∃ c k k' m, a = PeerRead c h ∧ conns s !! c = Some k ∧ conns s' !! c = Some k' ∧
    delivered (near (other me) k') = delivered (near (other me) k) ++ [m] ∧
    as_request m = Some (h_req x) ∧ h_from x = (c, length (delivered (near (other me) k))) ∧
    h_run x = RunHandler.

Lemma step_run_back a s s' h x' :
  exec a s = Some s' → runs s' !! h = Some x' →
  (∃ x, runs s !! h = Some x ∧ h_req x' = h_req x ∧ h_from x' = h_from x ∧
     ∀ b, h_run x' = RunSend b → h_run x = RunSend b ∨ handles (run_owner x) (h_req x) b) ∨
  runs s !! h = None ∧ started a h x' s s'.
Proof.
  intros He Hx'.
  assert (runs s !! h = Some x' → ∃ x, runs s !! h = Some x ∧ h_req x' = h_req x ∧
    h_from x' = h_from x ∧
    ∀ b, h_run x' = RunSend b → h_run x = RunSend b ∨ handles (run_owner x) (h_req x) b)
    as Hsame by (intros; exists x'; auto).
  effects He a; simpl in Hx'; auto.
  - left. apply Hsame. by rewrite <- (new_request_runs a s).
  - destruct (as_request m0) as [r|] eqn:Hr; [|auto].
    simpl in Hx'. apply lookup_insert_Some in Hx' as [[<- <-]|[_ Hx']]; [|auto].
    right. split; [done|]. exists c, k0, k1, m0. simpl. rewrite lookup_insert_eq. split_and!; try done.
    by apply (conn_receive (other me)).
  - apply lookup_insert_Some in Hx' as [[<- <-]|[_ Hx']]; [|auto]. left. exists x0.
    split_and!; [done..|]. simpl. unfold handle, handles, run_owner. intros b.
    destruct (serve _ _) as [[b'|]| |]; try done. intros [= ->]. by right.
  - apply lookup_insert_Some in Hx' as [[<- <-]|[_ Hx']]; [|auto]. left. by exists x0.
  - apply lookup_insert_Some in Hx' as [[<- <-]|[_ Hx']]; [|auto]. left. by exists x0.
  - apply own_read_parts in Hs as (_&_&Hx&_). left. apply Hsame. by rewrite <- Hx.
Qed.

Lemma step_run_kept a s s' h x :
  exec a s = Some s' → runs s !! h = Some x →
  ∃ x', runs s' !! h = Some x' ∧ h_req x' = h_req x ∧ h_from x' = h_from x.
Proof.
  intros He Hx.
  assert (∀ h0 x0 pc, runs s !! h0 = Some x0 → ∃ x',
    <[h0 := mkServing (h_req x0) (h_from x0) pc]> (runs s) !! h = Some x' ∧
      h_req x' = h_req x ∧ h_from x' = h_from x) as Hset.
  { intros h0 x0 pc Hx0. destruct (decide (h0 = h)) as [->|].
    - eexists. rewrite lookup_insert_eq. split; [done|]. by simplify_eq.
    - exists x. by rewrite lookup_insert_ne. }
  effects He a; simpl; eauto.
  - exists x. by rewrite new_request_runs.
  - destruct (as_request m0); [|eauto]. exists x. simpl. rewrite lookup_insert_ne; [done|congruence].
  - apply own_read_parts in Hs as (_&_&->&_). eauto.
Qed.

Record runs_ok (s : sys) : Prop := mkRunsOk {
  ro_from h x : runs s !! h = Some x → ∃ k m, conns s !! (h_from x).1 = Some k ∧
    delivered (near (other me) k) !! (h_from x).2 = Some m ∧ as_request m = Some (h_req x);
  ro_once h1 h2 x1 x2 : runs s !! h1 = Some x1 → runs s !! h2 = Some x2 →
    h_from x1 = h_from x2 → h1 = h2;
  ro_send h x b : runs s !! h = Some x → h_run x = RunSend b → handles (run_owner x) (h_req x) b;
}.

(** A new goroutine reads a message that no earlier one has read. *)
Lemma started_new a s s' x h' h y :
  runs_ok s → started a h' x s s' → runs s !! h = Some y → h_from y ≠ h_from x.
Proof.
  intros Hok (c&k&k'&m&_&Hk&_&_&_&Hx&_) Hy Heq.
  destruct (ro_from _ Hok h y Hy) as (k0&m0&Hk0&Hm0&_). rewrite Heq, Hx in *. simpl in *.
  simplify_eq. apply lookup_lt_Some in Hm0. lia.
Qed.

Lemma exchange_runs s : reachable exec init s → runs_ok s.
Proof.
  apply (reachable_invariant exec runs_ok init); [by split|].
  intros a s1 s2 Hok He.
  assert (∀ h x', runs s2 !! h = Some x' → (∃ x, runs s1 !! h = Some x ∧ h_from x' = h_from x) ∨
    runs s1 !! h = None ∧ started a h x' s1 s2) as Hback.
  { intros h x' Hx'. destruct (step_run_back _ _ _ _ _ He Hx') as [(x&?&_&?&_)|?]; eauto. }
  split.
  - intros h x' Hx'.
    destruct (step_run_back _ _ _ _ _ He Hx') as [(x&Hx&Hq&Hf&_)|[_ (c&k&k'&m&_&Hk&Hk'&Hd&Hm&Hf&_)]].
    + destruct (ro_from _ Hok h x Hx) as (k&m&Hk&Hm&Hr).
      destruct (step_conn_kept _ _ _ _ _ He Hk) as (k'&Hk'&Hd).
      exists k', m. rewrite Hq, Hf. split_and!; [done| |done].
      by eapply prefix_lookup_Some.
    + exists k', m. rewrite Hf, Hd. split_and!; [done|by rewrite lookup_app_r, Nat.sub_diag|done].
  - intros h1 h2 x1 x2 Hx1 Hx2 Hf.
    destruct (Hback h1 x1 Hx1) as [(y1&Hy1&Hf1)|[Hn1 Hs1]], (Hback h2 x2 Hx2) as [(y2&Hy2&Hf2)|[Hn2 Hs2]].
    + apply (ro_once _ Hok h1 h2 y1 y2); congruence.
    + destruct (started_new _ _ _ _ _ _ _ Hok Hs2 Hy1). congruence.
    + destruct (started_new _ _ _ _ _ _ _ Hok Hs1 Hy2). congruence.
    + destruct Hs1 as (?&?&?&?&->&_), Hs2 as (?&?&?&?&Ha&_). congruence.
  - intros h x' b Hx' Hb.
    destruct (step_run_back _ _ _ _ _ He Hx') as [(x&Hx&Hq&Hf&Hs)|[_ (c&k&k'&m&_&_&_&_&_&_&Hn)]];
      [|congruence].
    unfold run_owner. rewrite Hq, Hf. destruct (Hs b Hb); [by eapply ro_send|done].
Qed.

(** ** The responses *)

(** Bytes that a handler of this peer made. *)
Definition answered (s : sys) (p : P) (m : bytes) : Prop :=
  ∃ h x b, runs s !! h = Some x ∧ run_owner x = p ∧ handles p (h_req x) b ∧ m = carried b.

Lemma answered_kept a s s' p m : exec a s = Some s' → answered s p m → answered s' p m.
Proof.
  intros He (h&x&b&Hx&Hp&Hb&->). destruct (step_run_kept _ _ _ _ _ He Hx) as (x'&Hx'&Hq&Hf).
  exists h, x', b. unfold run_owner. by rewrite Hq, Hf.
Qed.

Definition peer_writers (s : sys) : Prop :=
  ∀ c k w wr r, conns s !! c = Some k → writers (near (other me) k) !! w = Some wr →
    honest (owner c) = true → as_response (w_msg wr) = Some r → answered s (owner c) (w_msg wr).

Lemma exchange_peer_writers s : reachable exec init s → peer_writers s.
Proof.
  apply (reachable_invariant_under exec runs_ok peer_writers); [apply exchange_runs|done|].
  intros a s1 s2 Hok IH He c k' w wr r Hk' Hw Hh Hp. eapply answered_kept; [done|].
  destruct (step_conn _ _ _ _ _ He Hk') as [Hk|[->|(k&b&Hk&Hb&Hwb)]]; [by eapply IH|by destruct me|].
  destruct (conn_writers (other me) _ _ _ _ _ Hb Hw) as [(wr0&Hw0&Hm)| ->].
  - rewrite <- Hm in *. by eapply IH.
  - simpl in Hwb. rewrite decide_False in Hwb by apply other_me.
    destruct (Hwb Hh) as [Hn|(h&x&b&Hx&Hb'&Ho&->)]; [congruence|].
    exists h, x, b. split_and!; [done..| |done]. rewrite <- Ho. by eapply ro_send.
Qed.

(** What this endpoint's read loop is about to receive. *)
Lemma exchange_arriving s c k m r :
  reachable exec init s → conns s !! c = Some k → rp (near me k) = RSend m →
  honest (owner c) = true → as_response m = Some r → answered s (owner c) m.
Proof.
  intros Hr Hk Hm Hh Hp. pose proof (exchange_conns _ _ _ Hr Hk) as Hkr.
  destruct (conn_read me _ _ _ Hkr (conn_in_reader _ _ _ Hkr Hm)) as (t&w&_&Hw&_&<-).
  by eapply exchange_peer_writers.
Qed.

Definition arrivals_ok (s : sys) : Prop :=
  ∀ h p r, arrived (calls s) h = Some (p, r) → honest p = true →
    ∃ m, as_response m = Some r ∧ answered s p m.

Lemma exchange_arrivals s : reachable exec init s → arrivals_ok s.
Proof.
  apply (reachable_invariant_under exec (reachable exec init) arrivals_ok); [done|..].
  { intros h p r. simpl. by rewrite caller_init. }
  intros a s1 s2 Hr IH He h p r Ha Hh.
  assert (arrived (calls s1) h = Some (p, r) → ∃ m, as_response m = Some r ∧ answered s2 p m) as Hold.
  { intros Ha1. destruct (IH h p r Ha1 Hh) as (m&?&?). exists m. split; [done|by eapply answered_kept]. }
  destruct (step_calls _ _ _ He) as [Hsame|(b&Hb&[Hown|(c&k&k'&h0&m&r0&Hk&Hm&Hr0&->&_)])].
  - rewrite Hsame in Ha. by apply Hold.
  - by apply Hold, (caller_others _ _ _ _ _ Hb Hown).
  - destruct (caller_arrives _ _ _ _ _ _ _ Hb Ha) as [Ha1|[= -> ->]]; [by apply Hold|].
    exists m. split; [done|]. eapply answered_kept; [done|]. by eapply exchange_arriving.
Qed.

(** Whoever sent it, a response that arrived was received over a connection of its peer. *)
Definition arrivals_over (s : sys) : Prop :=
  ∀ h p r, arrived (calls s) h = Some (p, r) → ∃ c k m, conns s !! c = Some k ∧ owner c = p ∧
    m ∈ delivered (near me k) ∧ as_response m = Some r.

Lemma exchange_arrivals_over s : reachable exec init s → arrivals_over s.
Proof.
  apply (reachable_invariant exec arrivals_over init).
  { intros h p r. simpl. by rewrite caller_init. }
  intros a s1 s2 IH He h p r Ha.
  assert (arrived (calls s1) h = Some (p, r) → ∃ c k m, conns s2 !! c = Some k ∧ owner c = p ∧
    m ∈ delivered (near me k) ∧ as_response m = Some r) as Hold.
  { intros (c&k&m&Hk&Hc&Hm&Hr)%IH. destruct (step_conn_kept _ _ _ _ _ He Hk) as (k'&Hk'&Hd).
    exists c, k', m. split_and!; [done..| |done]. destruct (Hd me) as [rest ->]. apply elem_of_app. by left. }
  destruct (step_calls _ _ _ He) as [Hsame|(b&Hb&[Hown|(c&k&k'&h0&m&r0&_&_&Hr0&->&Hk'&Hd)])].
  - rewrite Hsame in Ha. by apply Hold.
  - by apply Hold, (caller_others _ _ _ _ _ Hb Hown).
  - destruct (caller_arrives _ _ _ _ _ _ _ Hb Ha) as [Ha1|[= -> ->]]; [by apply Hold|].
    exists c, k', m. rewrite Hd. split_and!; [done..| |done]. apply elem_of_app. right. by left.
Qed.

(** ** Whose bytes they are *)

Lemma as_request_carried b q :
  as_request (carried b) = Some q ↔ decode_envelope b = Ok (mkMessage (Some (Message_Request q))).
Proof.
  unfold as_request, carried. rewrite decode_envelope_carried.
  destruct (decode_envelope b) as [[[[]|]]| |]; naive_solver.
Qed.

Lemma as_response_carried b r :
  as_response (carried b) = Some r ↔ decode_envelope b = Ok (mkMessage (Some (Message_Response r))).
Proof.
  unfold as_response, carried. rewrite decode_envelope_carried.
  destruct (decode_envelope b) as [[[[]|]]| |]; naive_solver.
Qed.

(** Every handler works on the request of an [Invoke] that calls its peer: the bytes are those the [Invoke] put into the [Write]
    that was taken [n]-th on that connection. *)
Lemma run_source s h x :
  reachable exec init s → runs s !! h = Some x →
  ∃ t r k w, reqs s !! t = Some r ∧
    call_of (calls s) t = Some (run_owner x, req_CallId (h_req x)) ∧
    prepared (r_method r) (r_args r) (req_CallId (h_req x)) (r_bytes r) ∧
    decode_envelope (r_bytes r) = Ok (mkMessage (Some (Message_Request (h_req x)))) ∧
    conns s !! (h_from x).1 = Some k ∧ r_write r = Some ((h_from x).1, w) ∧
    taken (near me k) !! (h_from x).2 = Some w.
Proof.
  intros Hr Hx. destruct (ro_from _ (exchange_runs s Hr) h x Hx) as (k&m&Hk&Hm&Hq).
  pose proof (exchange_conns _ _ _ Hr Hk) as Hkr.
  destruct (conn_read (other me) _ _ _ Hkr (conn_delivered _ _ _ _ Hkr Hm)) as (w&wr&Htk&Hw&_&<-).
  assert (other (other me) = me) as Hme by by destruct me. rewrite Hme in *.
  destruct (exchange_own_writers s Hr _ _ _ _ _ Hk Hw Hq) as (t&r&Hrt&Hwr&Hmsg).
  destruct (exchange_requests s Hr t r Hrt) as (p&id&Hi&Hp&Ho).
  rewrite Hmsg in Hq. apply as_request_carried in Hq.
  destruct (Rpc.prepared_request _ _ _ _ _ Hp Hq) as (_&<-&_).
  rewrite <- (Ho _ _ Hwr) in Hi. exists t, r, k, w. by split_and!.
Qed.

(** A response that arrived from an honest peer is what its handler made of the request
    of the call with the response's id. *)
Lemma arrival_source s h p r :
  reachable exec init s → arrived (calls s) h = Some (p, r) → honest p = true →
  ∃ t q rq b, reqs s !! t = Some q ∧ call_of (calls s) t = Some (p, resp_CallId r) ∧
    decode_envelope (r_bytes q) = Ok (mkMessage (Some (Message_Request rq))) ∧
    req_CallId rq = resp_CallId r ∧
    prepared (r_method q) (r_args q) (resp_CallId r) (r_bytes q) ∧ handles p rq b ∧
    decode_envelope b = Ok (mkMessage (Some (Message_Response r))).
Proof.
  intros Hr Ha Hh. destruct (exchange_arrivals s Hr h p r Ha Hh) as (m&Hm&h'&x&b&Hx&<-&Hb&->).
  apply as_response_carried in Hm.
  destruct (run_source s h' x Hr Hx) as (t&q&_&_&Hq&Hi&Hp&Hdec&_).
  rewrite (serve_id _ _ _ _ Hb Hm). exists t, q, (h_req x), b. by split_and!.
Qed.

(** Two handlers never work on the request of one call. *)
Lemma runs_distinct s h h' x x' :
  reachable exec init s → runs s !! h = Some x → runs s !! h' = Some x' →
  req_CallId (h_req x') = req_CallId (h_req x) → h' = h.
Proof.
  intros Hr Hx Hx' Hsame.
  destruct (run_source s h x Hr Hx) as (t&q&k&w&Hq&Hi&_&_&Hk&Hw&Htk).
  destruct (run_source s h' x' Hr Hx') as (t'&q'&k'&w'&Hq'&Hi'&_&_&Hk'&Hw'&Htk').
  rewrite Hsame in Hi'.
  assert (t' = t) as -> by (eapply caller_ids; [by apply exchange_calls|done..]).
  rewrite Hq in Hq'. injection Hq' as <-. rewrite Hw in Hw'. injection Hw' as Hc ->.
  apply (ro_once _ (exchange_runs s Hr) h' h x' x); [done..|].
  rewrite <- Hc, Hk in Hk'. injection Hk' as <-.
  pose proof (exchange_conns _ _ _ Hr Hk) as Hkr.
  pose proof (fl_nodup _ (transport_reachable_flow _ _ (conn_near_reachable me k Hkr))) as Hnd.
  assert ((h_from x').2 = (h_from x).2) as Hn by by eapply NoDup_lookup.
  destruct (h_from x), (h_from x'); simpl in *; congruence.
Qed.

(** ** One call over a quiet connection *)

#[local] Arguments Conn.exec : simpl never.

Lemma end_run c acts k k' s :
  Forall (λ a, end_alone c a = true) acts → run Conn.exec acts k = Some k' →
  conns s !! c = Some k → run exec (End c <$> acts) s = Some (set_conn c k' s).
Proof.
  intros Hacts. revert s k. induction Hacts as [|a acts Ha _ IH]; intros s k Hrun Hk.
  - injection Hrun as <-. simpl. unfold set_conn. rewrite insert_id by done. by destruct s.
  - simpl in Hrun. apply bind_Some in Hrun as (k1&He&Hrun). simpl. rewrite Hk. simpl.
    rewrite Ha, He. simpl. rewrite (IH _ k1 Hrun) by apply lookup_insert_eq.
    unfold set_conn. simpl. by rewrite insert_insert_eq.
Qed.

Lemma calls_run acts cs s :
  Forall (λ a, alone a = true ∧ ∀ c, builds a c = None) acts →
  run calls_exec acts (calls s) = Some cs →
  run exec (Call <$> acts) s = Some (set_calls cs s).
Proof.
  intros Hacts. revert s. induction Hacts as [|a acts [Ha Hn] _ IH]; intros s Hrun.
  - injection Hrun as <-. by destruct s.
  - simpl in Hrun. apply bind_Some in Hrun as (c1&He&Hrun). rewrite fmap_cons. cbn [run exec].
    unfold new_request. rewrite Ha, He, Hn. exact (IH (set_calls c1 s) Hrun).
Qed.

Lemma carry_alone c sd w m : Forall (λ a, end_alone c a = true) (carry_actions sd w m).
Proof.
  assert (∀ sd a, match a with Receive | Write _ _ => False | _ => True end →
    end_alone c (sd, a) = true) as Hown.
  { intros sd' a Ha. unfold end_alone. case_decide; [|destruct (honest _)]; by destruct a. }
  repeat constructor; by apply Hown.
Qed.

(** The request reaches a new handler of its peer. *)
Definition request_actions (t c w h : nat) (m : bytes) : list action :=
  CallWrite t c w :: (End c <$> carry_actions me w m) ++ [CallWritten t; PeerRead c h].

Lemma request_goes s c k t id q rq w h cs :
  conns s !! c = Some k → quiet k → call_of (calls s) t = Some (owner c, id) →
  writing (calls s) t = true → calls_exec (act_written t (Ok tt)) (calls s) = Some cs →
  reqs s !! t = Some q → r_write q = None →
  as_request (carried (r_bytes q)) = Some rq →
  writers (near me k) !! w = None → runs s !! h = None →
  ∃ s' k' n, run exec (request_actions t c w h (carried (r_bytes q))) s = Some s' ∧
    calls s' = cs ∧ conns s' !! c = Some k' ∧ quiet k' ∧
    writers (near (other me) k') = writers (near (other me) k) ∧
    runs s' !! h = Some (mkServing rq (c, n) RunHandler).
Proof.
  intros Hk Hq Hi Hwr Hcs Hr Hw Hrq Hfresh Hh.
  destruct (carry _ _ w (carried (r_bytes q)) Hq Hfresh) as (k1&k2&k3&H1&H2&Hok&Hm&H3&Hq3&Hwr3).
  set (sa := set_conn c k1 (set_req t (mkReq (r_method q) (r_args q) (r_bytes q) (Some (c, w))) s)).
  assert (exec (CallWrite t c w) s = Some sa) as E1.
  { simpl. rewrite Hi. simpl. rewrite Hr, Hk. simpl. rewrite Hwr, bool_decide_true by done. simpl. by rewrite Hw, H1. }
  assert (run exec (End c <$> carry_actions me w (carried (r_bytes q))) sa =
    Some (set_conn c k2 sa)) as E2.
  { apply (end_run _ _ k1); [apply carry_alone|done|apply lookup_insert_eq]. }
  set (sc := set_calls cs (set_conn c k2 sa)).
  assert (exec (CallWritten t) (set_conn c k2 sa) = Some sc) as E3.
  { simpl. rewrite !lookup_insert_eq. simpl. rewrite lookup_insert_eq. simpl.
    apply fmap_Some in Hok as (wr&Hwr'&Hwpc). rewrite Hwr'. simpl. rewrite <- Hwpc. simpl. by rewrite Hcs. }
  exists (set_run h (mkServing rq (c, length (delivered (near (other me) k2))) RunHandler) (set_conn c k3 sc)), k3,
    (length (delivered (near (other me) k2))).
  split_and!; [|done|apply lookup_insert_eq|done|done|apply lookup_insert_eq].
  unfold request_actions.
  rewrite (run_step _ _ _ _ _ E1), (run_then _ _ _ _ _ E2), (run_step _ _ _ _ _ E3). simpl. rewrite lookup_insert_eq. simpl.
  rewrite Hm, Hh, H3. simpl. by rewrite Hrq.
Qed.

(** The handler runs, and its answer reaches a new response handler of the caller. *)
Definition answer_actions (c w h h' : nat) (m : bytes) : list action :=
  Handle h :: Reply h c w :: (End c <$> carry_actions (other me) w m) ++ [OwnRead c h'].

Lemma answer_comes s c k n rq b r w h h' :
  conns s !! c = Some k → quiet k → runs s !! h = Some (mkServing rq (c, n) RunHandler) →
  handles (owner c) rq b → as_response (carried b) = Some r →
  writers (near (other me) k) !! w = None →
  is_Some (calls_exec (act_arrive h' (owner c) r) (calls s)) →
  ∃ s', run exec (answer_actions c w h h' (carried b)) s = Some s' ∧
    calls_exec (act_arrive h' (owner c) r) (calls s) = Some (calls s').
Proof.
  intros Hk Hq Hx Hb Hp Hfresh [cs Hcs].
  destruct (carry _ _ w (carried b) Hq Hfresh) as (k1&k2&k3&H1&H2&_&Hm&H3&_&_).
  assert (other (other me) = me) as Hme by by destruct me. rewrite Hme in *.
  set (sa := set_run h (mkServing rq (c, n) (RunSend b)) s).
  assert (exec (Handle h) s = Some sa) as E1.
  { simpl. rewrite Hx. simpl. unfold handle. simpl. by rewrite Hb. }
  set (sb := set_conn c k1 (set_run h (mkServing rq (c, n) RunDone) sa)).
  assert (exec (Reply h c w) sa = Some sb) as E2.
  { simpl. rewrite lookup_insert_eq. simpl. rewrite Hk. simpl. rewrite decide_True by done. by rewrite H1. }
  assert (run exec (End c <$> carry_actions (other me) w (carried b)) sb = Some (set_conn c k2 sb)) as E3.
  { apply (end_run _ _ k1); [apply carry_alone|done|apply lookup_insert_eq]. }
  unfold answer_actions. rewrite (run_step _ _ _ _ _ E1), (run_step _ _ _ _ _ E2), (run_then _ _ _ _ _ E3). simpl. rewrite lookup_insert_eq. simpl.
  rewrite Hm, H3. simpl. rewrite Hp, Hcs. by eexists.
Qed.

(** From the [Write] of a call to the arrival of its response: twelve steps. *)
Lemma round_trip s c k t id q rq b r cs h' :
  reachable exec init s → conns s !! c = Some k → quiet k →
  call_of (calls s) t = Some (owner c, id) → writing (calls s) t = true →
  calls_exec (act_written t (Ok tt)) (calls s) = Some cs →
  reqs s !! t = Some q → r_write q = None →
  decode_envelope (r_bytes q) = Ok (mkMessage (Some (Message_Request rq))) →
  handles (owner c) rq b → decode_envelope b = Ok (mkMessage (Some (Message_Response r))) →
  is_Some (calls_exec (act_arrive h' (owner c) r) cs) →
  resp_CallId r = id ∧
  ∃ acts s', run exec acts s = Some s' ∧ length acts = 12 ∧
    calls_exec (act_arrive h' (owner c) r) cs = Some (calls s') ∧
    ∃ w h w', acts = request_actions t c w h (carried (r_bytes q)) ++ answer_actions c w' h h' (carried b).
Proof.
  intros Hr Hk Hq Hi Hpc Hcs Hrq Hw Hdec Hb Hp Harr.
  destruct (exchange_requests s Hr t q Hrq) as (p0&id0&Hi0&Hprep&_).
  rewrite Hi in Hi0. injection Hi0 as <- <-.
  destruct (Rpc.prepared_request _ _ _ _ _ Hprep Hdec) as (_&Hid&_).
  split; [rewrite <- Hid; by eapply serve_id|].
  set (w := fresh (dom (writers (near me k)))).
  set (w' := fresh (dom (writers (near (other me) k)))).
  set (h := fresh (dom (runs s))).
  destruct (request_goes s c k t id q rq w h cs) as (s1&k1&n&Hrun1&Hc1&Hk1&Hq1&Hwr1&Hx1); try done;
    [by apply as_request_carried|apply not_elem_of_dom, is_fresh..|].
  destruct (answer_comes s1 c k1 n rq b r w' h h') as (s2&Hrun2&Harr2); try done;
    [by apply as_response_carried|rewrite Hwr1; apply not_elem_of_dom, is_fresh|by rewrite Hc1|].
  eexists (request_actions t c w h _ ++ answer_actions c w' h h' (carried b)), s2.
  rewrite (run_then _ _ _ _ _ Hrun1), Hrun2. rewrite <- Hc1. split_and!; [done..|]. by exists w, h, w'.
Qed.
End Exchange.
End Exchange.
