(* ===== verification/Session.v ===== *)
(** A client's calls all the way through: [Exchange] with the client's goroutines
    ([ClientCalls]) at the client's side of its connections, and the server's
    [handleMessageRequest] behind them.

    Other clients have connections and keys of their own; a client has one peer. *)
From S2P Require Import Prelude Connectivity Peer Message Methods CallSpec Service.
From S2P Require Import ClientCalls Rpc Transport Conn Exchange.

Module Session.
Import Message Transport Conn Exchange.

(** ** The client's calls as [Exchange] sees them *)
Section Caller.
Context {U : Type} `{ProtoLib U}.
Context {T : Type} `{!CallTable T string nat}.

(** What the [Invoke] of [client.go] keeps of its call: what [prepare] built. *)
Definition client_builds (a : ClientCalls.action (U:=U)) (s : ClientCalls.sys (U:=U) (T:=T)) :
    option (nat * (string * any U * slice)) :=
  match a with
  | ClientCalls.Invoke t method args reply callID =>
      match ClientCalls.prepare (ClientCalls.cc s) method args callID with
      | Ok reqB => Some (t, (method, args, reqB))
      | _ => None
      end
  | _ => None
  end.

Definition client_writing (s : ClientCalls.sys (U:=U) (T:=T)) (t : nat) : bool :=
  match ClientCalls.i_pc <$> ClientCalls.invs s !! t with Some ClientCalls.IWrite => true | _ => false end.

(** The steps in which neither a connection nor a read loop takes part. *)
Definition client_alone (a : ClientCalls.action (U:=U)) : bool :=
  match a with ClientCalls.Write _ _ | ClientCalls.Arrive _ _ => false | _ => true end.

#[export] Instance client_caller :
    Caller U unit (ClientCalls.sys (U:=U) (T:=T)) (ClientCalls.action (U:=U)) := {
  calls_init := ClientCalls.init;
  calls_exec := ClientCalls.exec;
  call_of s t := (λ i, (tt, ClientCalls.i_key i)) <$> ClientCalls.invs s !! t;
  writing := client_writing;
  arrived s h := (λ hd, (tt, ClientCalls.h_resp hd)) <$> ClientCalls.hands s !! h;
  builds := client_builds;
  alone := client_alone;
  act_written := ClientCalls.Write;
  act_arrive h _ r := ClientCalls.Arrive h r;
}.

Lemma client_prepared cc method args callID b :
  ClientCalls.prepare (U:=U) cc method args callID = Ok b → Rpc.prepared method args callID b.
Proof.
  unfold ClientCalls.prepare. destruct cc as [[st tr]|]; [|done]. case_decide; [|done].
  intros (msg&Hm&Hb)%bind_ok_inv. by exists msg.
Qed.

#[export] Instance client_caller_laws `{!CallTableLaws T string nat} :
  CallerLaws U unit (ClientCalls.sys (U:=U) (T:=T)) (ClientCalls.action (U:=U)).
Proof.
  split.
  - intros a s s' t method args b He Hb. destruct a; try done. simpl in Hb.
    destruct (ClientCalls.prepare _ _ _ _) eqn:Hp; try done. injection Hb as -> -> -> ->.
    apply ClientCalls.clientcalls_invoked in He as (Hn&i&Hi&Hk&_). simpl.
    rewrite Hn, Hi. split; [done|]. exists tt, callID. simpl. rewrite Hk.
    split; [done|by eapply client_prepared].
  - intros a s s' t x He. simpl. intros (i&Hi&->)%fmap_Some.
    destruct (ClientCalls.clientcalls_keeps _ _ _ _ _ He Hi) as (i'&->&Hk&_). simpl. by rewrite Hk.
  - intros h. simpl. by rewrite lookup_empty.
  - intros a s s' h x He Ha. simpl. intros (hd'&Hh&->)%fmap_Some.
    destruct (ClientCalls.clientcalls_hands _ _ _ _ _ He Hh) as [(hd&->&Hr)| ->];
      [simpl; by rewrite Hr|]. by destruct Ha as [?|(?&?&?)].
  - intros h0 [] r s s' h x He. simpl. intros (hd'&Hh&->)%fmap_Some.
    destruct (ClientCalls.clientcalls_hands _ _ _ _ _ He Hh) as [(hd&->&Hr)|[= -> ->]];
      [left; simpl; by rewrite Hr|by right].
  - intros s t1 t2 p1 p2 id Hr (i1&Hi1&[= _ ->])%fmap_Some (i2&Hi2&[= _ Hk])%fmap_Some.
    apply ClientCalls.clientcalls_reachable_inv in Hr. by apply (ClientCalls.inv_ids _ Hr t1 t2 i1 i2).
Qed.
End Caller.

Section Session.
Context {U : Type} `{ProtoLaws U}.
Context {T : Type} `{!CallTable T string nat, !CallTableLaws T string nat}.
Context {Impl : Type} (uuid_Parse : string → outcome Z)
  (svc : option (Service.serviceInfo U Impl)) (pubKey : bytes).

Abbreviation sys := (Exchange.sys (U:=U) (C:=ClientCalls.sys (U:=U) (T:=T))).

(** What the server does with a request of this client, up to [sendMsg]. *)
Definition serve (_ : unit) (q : Message.Request) : outcome (option slice) :=
  Service.server_handleMessageRequest uuid_Parse svc pubKey (Some q).

(** The client at its side of connections that all go to the server. *)
Definition exec : action → sys → option sys := Exchange.exec ClientSide (λ _, tt) (λ _, true) serve.

Definition init : sys := Exchange.init.

Definition handles (q : Message.Request) (b : slice) : Prop :=
  Service.server_handleMessageRequest uuid_Parse svc pubKey (Some q) = Ok (Some b).

Lemma session_serve_id p q b r :
  serve p q = Ok (Some b) → decode_envelope b = Ok (mkMessage (Some (Message_Response r))) →
  resp_CallId r = req_CallId q.
Proof.
  intros (info&md&v&herr&msg&_&_&_&_&Hn&Hb)%Service.server_replies.
  apply bind_ok_inv in Hn as (pl&_&[= <-]). simpl in Hb.
  rewrite decode_envelope_eq, (unmarshal_message _ _ Hb). by intros [= <-].
Qed.

Lemma session_calls s : reachable exec init s → reachable ClientCalls.exec ClientCalls.init (calls s).
Proof. exact (exchange_calls ClientSide (λ _, tt) (λ _, true) serve s). Qed.

Lemma session_answered s t i r out :
  reachable exec init s → ClientCalls.invs (calls s) !! t = Some i →
  ClientCalls.answer (ClientCalls.i_pc i) = Some (r, out) →
  ∃ q rq b, reqs s !! t = Some q ∧
    decode_envelope (r_bytes q) = Ok (mkMessage (Some (Message_Request rq))) ∧
    req_CallId rq = ClientCalls.i_key i ∧
    Rpc.prepared (r_method q) (r_args q) (ClientCalls.i_key i) (r_bytes q) ∧ handles rq b ∧
    decode_envelope b = Ok (mkMessage (Some (Message_Response r))) ∧
    out = ClientCalls.finish r (ClientCalls.i_reply i).
Proof.
  intros Hr Hi Ha.
  destruct (ClientCalls.clientcalls_answer _ _ _ _ _ (session_calls s Hr) Hi Ha)
    as (->&h&hd&Hh&Hkey&<-&_).
  destruct (arrival_source _ _ _ _ session_serve_id s h tt (ClientCalls.h_resp hd) Hr)
    as (t'&q&rq&b&Hq&Hc&Hdec&Hid&Hp&Hb&Hresp); [simpl; by rewrite Hh|done|].
  unfold ClientCalls.h_key in Hkey. simpl in Hkey. rewrite Hkey in *.
  assert (t' = t) as ->.
  { eapply (caller_ids (calls s)); [by apply session_calls|done|]. simpl. by rewrite Hi. }
  exists q, rq, b. by split_and!.
Qed.

(** ** Theorems *)

(** C3: An [Invoke] that is answered, whatever else goes on, over whatever connections,
    returns what it makes of the response that a handler of the server wrote for
    this call's own request. *)
Theorem session_answer s t i r out :
  reachable exec init s → ClientCalls.invs (calls s) !! t = Some i →
  ClientCalls.answer (ClientCalls.i_pc i) = Some (r, out) →
  ∃ q rq b, reqs s !! t = Some q ∧
    decode_envelope (r_bytes q) = Ok (mkMessage (Some (Message_Request rq))) ∧
    req_CallId rq = ClientCalls.i_key i ∧ handles rq b ∧
    decode_envelope b = Ok (mkMessage (Some (Message_Response r))) ∧
    out = ClientCalls.finish r (ClientCalls.i_reply i).
Proof.
  intros Hr Hi Ha. destruct (session_answered s t i r out Hr Hi Ha) as (q&rq&b&?&?&?&_&?&?&?).
  by exists q, rq, b.
Qed.

(** C1: The remote procedure call: a call of a generated stub that is answered returns
    what the server's method returns for the decoded copy of the call's own
    argument and the client's key, its error or the decoded copy of its value. *)
Theorem session_rpc (sd : Service.ServiceDesc U Impl) impl new_in method md s t i q r out u v herr o :
  svc = Service.register sd impl →
  reachable exec init s → ClientCalls.invs (calls s) !! t = Some i →
  ClientCalls.answer (ClientCalls.i_pc i) = Some (r, out) →
  reqs s !! t = Some q → r_args q = AnyProto (PUser u) →
  last (Service.named (r_method q) (Service.Methods sd)) = Some md →
  Service.Handler md = Rpc.generated_handler new_in method → same_type u new_in →
  method impl (Peer.NewCallContext Peer.Background pubKey) (decoded u) = (AnyProto (PUser v), herr) →
  ClientCalls.i_reply i = AnyProto (PUser o) → same_type v o →
  Rpc.generated_client out = Rpc.remote_result v herr.
Proof.
  intros Hsvc Hr Hi Ha Hq Hu Hmd Hgen Hin Hm Ho Hvo.
  destruct (session_answered s t i r out Hr Hi Ha) as (q'&rq&b&Hq'&Hdec&_&Hp&Hb&Hresp&->).
  rewrite Hq in Hq'. injection Hq' as <-. rewrite Hu in Hp. rewrite Ho.
  unfold handles in Hb. rewrite Hsvc in Hb.
  apply Service.server_replies in Hb as (info&md'&v'&herr'&msg&Hinfo&Hmd'&_&Hh&Hn&Hbb).
  apply (Rpc.answered_call sd impl (Peer.NewCallContext Peer.Background pubKey) (r_method q) md new_in method
    u v herr o (ClientCalls.i_key i) (r_bytes q) rq b r); [done..| |done].
  by exists info, md', v', herr', msg.
Qed.

(** C2: Each handler that the server runs for this client serves a request that one of
    its [Invoke]s built, and no [Invoke] is served twice. *)
Theorem session_at_most_once s h x :
  reachable exec init s → runs s !! h = Some x →
  (∃ t i q, reqs s !! t = Some q ∧ ClientCalls.invs (calls s) !! t = Some i ∧
     ClientCalls.i_key i = req_CallId (h_req x) ∧
     decode_envelope (r_bytes q) = Ok (mkMessage (Some (Message_Request (h_req x))))) ∧
  ∀ h' x', runs s !! h' = Some x' → req_CallId (h_req x') = req_CallId (h_req x) → h' = h.
Proof.
  intros Hr Hx. split; [|intros h' x'; by apply (runs_distinct ClientSide (λ _, tt) (λ _, true) serve s h h' x)].
  destruct (run_source _ _ _ _ s h x Hr Hx) as (t&q&k&w&Hq&Hc&_&Hd&_).
  apply fmap_Some in Hc as (i&Hi&[= Hk]). by exists t, i, q.
Qed.

(** From the [Write] of a call to its return, with number [h'] for the goroutine that
    handles the response. *)
Lemma call_run s c k t i q rq b p h' :
  reachable exec init s → conns s !! c = Some k → quiet k →
  ClientCalls.invs (calls s) !! t = Some i → ClientCalls.i_pc i = ClientCalls.IWrite →
  reqs s !! t = Some q → r_write q = None →
  decode_envelope (r_bytes q) = Ok (mkMessage (Some (Message_Request rq))) →
  handles rq b → decode_envelope b = Ok (mkMessage (Some (Message_Response p))) →
  ClientCalls.hands (calls s) !! h' = None →
  ∃ w h w' s' i',
    run exec ((request_actions ClientSide t c w h (carried (r_bytes q)) ++
      answer_actions ClientSide c w' h h' (carried b)) ++
      (Call <$> [ClientCalls.HandlerLookup h'; ClientCalls.Receive t h'; ClientCalls.Cleanup t])) s = Some s' ∧
    ClientCalls.invs (calls s') !! t = Some i' ∧
    ClientCalls.i_pc i' = ClientCalls.IReturned (Some p) (ClientCalls.finish p (ClientCalls.i_reply i)).
Proof.
  intros Hr Hk Hq Hi Hpc Hrq Hw Hdec Hb Hp Hfresh.
  set (cs := ClientCalls.set_pc t i ClientCalls.IWait (calls s)).
  destruct (round_trip ClientSide (λ _, tt) (λ _, true) serve session_serve_id s c k t (ClientCalls.i_key i) q rq b p cs h')
    as (Hid&acts&s2&Hrun2&Hlen&Hc2&w&h&w'&->); try done.
  { simpl. by rewrite Hi. }
  { simpl. unfold client_writing. rewrite Hi. simpl. by rewrite Hpc. }
  { simpl. rewrite Hi. simpl. by rewrite Hpc. }
  { simpl. rewrite Hfresh. by eexists. }
  assert (reachable exec init s2) as Hr2 by (etrans; [done|by eapply run_reachable]).
  simpl in Hc2. rewrite Hfresh in Hc2. injection Hc2 as Hc2.
  destruct (ClientCalls.client_response_completes (calls s2) t h'
    (ClientCalls.mkInv (ClientCalls.i_key i) (ClientCalls.i_reply i) (ClientCalls.i_done i) ClientCalls.IWait)
    (ClientCalls.mkHand p ClientCalls.HLock)) as (cs3&i'&Hrun3&Hi'&Hpc'&_); [by apply session_calls|..].
  { rewrite <- Hc2. simpl. apply lookup_insert_eq. }
  { done. }
  { rewrite <- Hc2. simpl. apply lookup_insert_eq. }
  { done. }
  { done. }
  pose proof (calls_run ClientSide (λ _, tt) (λ _, true) serve
    [ClientCalls.HandlerLookup h'; ClientCalls.Receive t h'; ClientCalls.Cleanup t] cs3 s2
    ltac:(by repeat constructor) Hrun3) as Hrun4.
  exists w, h, w', (set_calls cs3 s2), i'. split; [|done]. exact (eq_trans (run_then _ _ _ _ _ Hrun2) Hrun4).
Qed.

(** No call need hang: when an [Invoke] is about to write, over a connection on which
    nothing else is going on, and the server has an answer to its request, fifteen
    steps of the goroutines involved take it to its return with that answer. *)
Theorem session_call_completes s c k t i q rq b p :
  reachable exec init s → conns s !! c = Some k → quiet k →
  ClientCalls.invs (calls s) !! t = Some i → ClientCalls.i_pc i = ClientCalls.IWrite →
  reqs s !! t = Some q → r_write q = None →
  decode_envelope (r_bytes q) = Ok (mkMessage (Some (Message_Request rq))) →
  handles rq b → decode_envelope b = Ok (mkMessage (Some (Message_Response p))) →
  ∃ acts s' i', run exec acts s = Some s' ∧ length acts = 15 ∧
    ClientCalls.invs (calls s') !! t = Some i' ∧
    ClientCalls.i_pc i' = ClientCalls.IReturned (Some p) (ClientCalls.finish p (ClientCalls.i_reply i)).
Proof.
  intros Hr Hk Hq Hi Hpc Hrq Hw Hdec Hb Hp.
  set (h' := fresh (dom (ClientCalls.hands (calls s)))).
  destruct (call_run s c k t i q rq b p h') as (w&h&w'&s'&i'&Hrun&?&?); try done;
    [apply not_elem_of_dom, is_fresh|].
  eexists _, s', i'. split_and!; [exact Hrun|done..].
Qed.
End Session.

(** ** Witnesses: the echo service of [Rpc] *)

Abbreviation w_action := (action (A:=ClientCalls.action (U:=Toy.U))).
Abbreviation w_sys := (sys (U:=Toy.U) (C:=ClientCalls.sys (U:=Toy.U) (T:=gmap string nat))).

Definition w_exec : w_action → w_sys → option w_sys :=
  exec Rpc.w_uuid (Service.register Rpc.w_sd tt) [x01].
Definition w_init : w_sys := init.
Definition w_bytes (b : slice) : bytes := carried b.

(** A call up to its [Write], over connection 5. *)
Definition w_writing : list w_action :=
  [Call (ClientCalls.ConnChange (Connectivity.Ready, true)); Open 5;
   Call (ClientCalls.Invoke 1 "Ping" (toy_user "hi") (toy_user "") "id1");
   Call (ClientCalls.Register 1); Call (ClientCalls.Transport 1)].
Definition w_served : list w_action :=
  w_writing ++ request_actions ClientSide 1 5 7 2 (w_bytes Rpc.w_request) ++
  answer_actions ClientSide 5 8 2 3 (w_bytes Rpc.w_reply).
Definition w_returned : list w_action :=
  w_served ++ [Call (ClientCalls.HandlerLookup 3); Call (ClientCalls.Receive 1 3);
    Call (ClientCalls.Cleanup 1)].
Definition w_writing_state := final w_exec w_writing w_init.
Definition w_returned_state := final w_exec w_returned w_init.

Definition w_rq : Message.Request := mkRequest "Ping" "id1" (Some (Toy.str "hi")).
Definition w_resp : Message.Response := mkResponse "id1" (Some (Toy.str "re: hi")) "".
Definition w_out : outcome (proto_msg Toy.U) := Ok (PUser (Some "re: hi")).
Definition w_inv (pc : ClientCalls.inv_pc (U:=Toy.U)) : ClientCalls.invoker :=
  ClientCalls.mkInv "id1" (toy_user "") false pc.
Definition w_req (wr : option (nat * nat)) : request (U:=Toy.U) :=
  mkReq "Ping" (toy_user "hi") Rpc.w_request wr.

Lemma session_answer_witness :
  ∃ q rq b, reqs w_returned_state !! 1 = Some q ∧
    decode_envelope (r_bytes q) = Ok (mkMessage (Some (Message_Request rq))) ∧
    decode_envelope b = Ok (mkMessage (Some (Message_Response w_resp))).
Proof.
  destruct (session_answer Rpc.w_uuid (Service.register Rpc.w_sd tt) [x01] w_returned_state 1
    (w_inv (ClientCalls.IReturned (Some w_resp) w_out)) w_resp w_out)
    as (q&rq&b&Hq&Hrq&_&_&Hb&_); [at_state..|].
  exists q, rq, b. split; [exact Hq|]. split; [exact Hrq|exact Hb].
Defined.

Lemma session_rpc_witness : Rpc.generated_client w_out = Ok (Some "re: hi").
Proof.
  assert (Rpc.generated_client w_out = Rpc.remote_result (Some "re: hi") None) as ->.
  { apply (session_rpc Rpc.w_uuid (Service.register Rpc.w_sd tt) [x01] Rpc.w_sd tt None Rpc.w_echo
      (Service.mkMethodDesc "Ping" (Rpc.generated_handler None Rpc.w_echo)) w_returned_state 1
      (w_inv (ClientCalls.IReturned (Some w_resp) w_out)) (w_req (Some (5, 7))) w_resp w_out
      (Some "hi") (Some "re: hi") None (Some "")); first [exact I|at_state]. }
  reflexivity.
Defined.

Lemma session_at_most_once_witness :
  (∃ t i q, reqs w_returned_state !! t = Some q ∧
     ClientCalls.invs (calls w_returned_state) !! t = Some i ∧ ClientCalls.i_key i = "id1") ∧
  ∀ h' x', runs w_returned_state !! h' = Some x' → req_CallId (h_req x') = "id1" → h' = 2.
Proof.
  destruct (session_at_most_once Rpc.w_uuid (Service.register Rpc.w_sd tt) [x01] w_returned_state 2
    (mkServing w_rq (5, 0) RunDone)) as [(t&i&q&Hq&Hi&Hk&_) H]; [at_state..|].
  split; [exists t, i, q; split; [exact Hq|split; [exact Hi|exact Hk]]|exact H].
Defined.

Lemma session_call_completes_witness :
  ∃ acts s' i', run w_exec acts w_writing_state = Some s' ∧
    ClientCalls.invs (calls s') !! 1 = Some i' ∧
    ClientCalls.i_pc i' = ClientCalls.IReturned (Some w_resp) w_out.
Proof.
  destruct (session_call_completes Rpc.w_uuid (Service.register Rpc.w_sd tt) [x01] w_writing_state 5
    Conn.init 1 (w_inv ClientCalls.IWrite) (w_req None) w_rq Rpc.w_reply w_resp)
    as (acts&s'&i'&Hrun&_&Hi&Hpc); [at_state|at_state|by intros []|at_state..|].
  exists acts, s', i'. split_and!; [exact Hrun|exact Hi|exact Hpc].
Defined.
End Session.
