(* ===== verification/ServerSession.v ===== *)
(** The server's calls all the way through: [Exchange] with the server's goroutines
    ([ServerCalls]) at the server's side of connections to any number of clients, and
    each client's [handleMessageRequest] behind its own.

    A connection belongs to the client whose key its handshake proved ([owner]); the
    server writes a call for a key into a connection of that key ([getTransport]) and
    files a response under the key of the connection it came over.  The clients that are
    not [honest] write whatever they like into theirs. *)
From S2P Require Import Prelude Peer Message Methods CallSpec Service.
From S2P Require Import ServerCalls Rpc Transport Conn Exchange.

Module ServerSession.
Import Message Transport Conn Exchange.

(** ** The server's calls as [Exchange] sees them *)
Section Caller.
Context {U : Type} `{ProtoLib U}.
Context {T : Type} `{!CallTable T (bytes * string) nat}.

(** What the [Invoke] of [server.go] keeps of its call: what [prepare] built. *)
Definition server_builds (a : ServerCalls.action (U:=U)) (s : ServerCalls.sys (U:=U) (T:=T)) :
    option (nat * (string * any U * slice)) :=
  match a with
  | ServerCalls.Invoke t ctx method args reply callID =>
      match ServerCalls.prepare ctx method args callID with
      | Ok (pubKey, req) => Some (t, (method, args, req))
      | _ => None
      end
  | _ => None
  end.

Definition server_writing (s : ServerCalls.sys (U:=U) (T:=T)) (t : nat) : bool :=
  match ServerCalls.i_pc <$> ServerCalls.invs s !! t with Some ServerCalls.IWrite => true | _ => false end.

(** The steps in which neither a connection nor a read loop takes part. *)
Definition server_alone (a : ServerCalls.action (U:=U)) : bool :=
  match a with ServerCalls.Write _ _ | ServerCalls.Arrive _ _ _ => false | _ => true end.

#[export] Instance server_caller :
    Caller U bytes (ServerCalls.sys (U:=U) (T:=T)) (ServerCalls.action (U:=U)) := {
  calls_init := ServerCalls.init;
  calls_exec := ServerCalls.exec;
  call_of s t := ServerCalls.i_key <$> ServerCalls.invs s !! t;
  writing := server_writing;
  arrived s h := (λ hd, (ServerCalls.h_pub hd, ServerCalls.h_resp hd)) <$> ServerCalls.hands s !! h;
  builds := server_builds;
  alone := server_alone;
  act_written := ServerCalls.Write;
  act_arrive := ServerCalls.Arrive;
}.

Lemma server_prepared ctx method args callID pub b :
  ServerCalls.prepare (U:=U) ctx method args callID = Ok (pub, b) → Rpc.prepared method args callID b.
Proof.
  unfold ServerCalls.prepare. intros (msg&Hm&(b'&Hb&Hp)%bind_ok_inv)%bind_ok_inv.
  exists msg. split; [done|]. destruct (Peer.FromContext ctx) as [[p|] []]; simplify_eq. done.
Qed.

#[export] Instance server_caller_laws `{!CallTableLaws T (bytes * string) nat} :
  CallerLaws U bytes (ServerCalls.sys (U:=U) (T:=T)) (ServerCalls.action (U:=U)).
Proof.
  split.
  - intros a s s' t method args b He Hb. destruct a; try done. simpl in Hb.
    destruct (ServerCalls.prepare _ _ _ _) as [[pub req]| |] eqn:Hp; try done. injection Hb as -> -> -> ->.
    apply ServerCalls.servercalls_invoked in He as (Hn&i&Hi&Hk&_&_). simpl.
    rewrite Hn, Hi. split; [done|]. exists (ServerCalls.i_key i).1, callID. simpl.
    rewrite <- Hk at 1. split; [by destruct (ServerCalls.i_key i)|by eapply server_prepared].
  - intros a s s' t x He. simpl. intros (i&Hi&->)%fmap_Some.
    destruct (ServerCalls.servercalls_keeps _ _ _ _ _ He Hi) as (i'&->&Hk&_). simpl. by rewrite Hk.
  - intros h. simpl. by rewrite lookup_empty.
  - intros a s s' h x He Ha. simpl. intros (hd'&Hh&->)%fmap_Some.
    destruct (ServerCalls.servercalls_hands _ _ _ _ _ He Hh) as [(hd&->&Hp&Hr)| ->];
      [simpl; by rewrite Hp, Hr|]. by destruct Ha as [?|(?&?&?)].
  - intros h0 p r s s' h x He. simpl. intros (hd'&Hh&->)%fmap_Some.
    destruct (ServerCalls.servercalls_hands _ _ _ _ _ He Hh) as [(hd&->&Hp&Hr)|[= -> -> ->]];
      [left; simpl; by rewrite Hp, Hr|by right].
  - intros s t1 t2 p1 p2 id Hr (i1&Hi1&Hk1)%fmap_Some (i2&Hi2&Hk2)%fmap_Some.
    apply ServerCalls.servercalls_reachable_inv in Hr.
    apply (ServerCalls.inv_ids _ Hr t1 t2 i1 i2); [done..|]. by rewrite <- Hk1, <- Hk2.
Qed.
End Caller.

Section Session.
Context {U : Type} `{ProtoLaws U}.
Context {T : Type} `{!CallTable T (bytes * string) nat, !CallTableLaws T (bytes * string) nat}.
(** The key of each connection, the clients that run this library, and the services they
    registered. *)
Context {Impl : Type} (owner : nat → bytes) (honest : bytes → bool)
  (svc : bytes → option (Service.serviceInfo U Impl)).

Abbreviation sys := (Exchange.sys (U:=U) (C:=ServerCalls.sys (U:=U) (T:=T))).

(** What the client with key [p] does with a request, up to [tr.Write]. *)
Definition serve (p : bytes) (q : Message.Request) : outcome (option slice) :=
  Service.client_handleMessageRequest (svc p) (Some q).

Definition exec : action → sys → option sys := Exchange.exec ServerSide owner honest serve.

Definition init : sys := Exchange.init.

Lemma server_session_serve_id p q b r :
  serve p q = Ok (Some b) → decode_envelope b = Ok (mkMessage (Some (Message_Response r))) →
  resp_CallId r = req_CallId q.
Proof.
  intros (info&md&v&herr&msg&_&_&_&Hn&Hb)%Service.client_replies_iff.
  apply bind_ok_inv in Hn as (pl&_&[= <-]). simpl in Hb.
  rewrite decode_envelope_eq, (unmarshal_message _ _ Hb). by intros [= <-].
Qed.

Lemma server_session_calls s : reachable exec init s → reachable ServerCalls.exec ServerCalls.init (calls s).
Proof. exact (exchange_calls ServerSide owner honest serve s). Qed.

Lemma server_session_answered s t i r out :
  reachable exec init s → ServerCalls.invs (calls s) !! t = Some i →
  ServerCalls.i_pc i = ServerCalls.IGot r out → honest (ServerCalls.i_key i).1 = true →
  ∃ q rq b, reqs s !! t = Some q ∧
    decode_envelope (r_bytes q) = Ok (mkMessage (Some (Message_Request rq))) ∧
    req_CallId rq = (ServerCalls.i_key i).2 ∧
    Rpc.prepared (r_method q) (r_args q) (ServerCalls.i_key i).2 (r_bytes q) ∧
    serve (ServerCalls.i_key i).1 rq = Ok (Some b) ∧
    decode_envelope b = Ok (mkMessage (Some (Message_Response r))) ∧
    out = ServerCalls.finish r (ServerCalls.i_reply i).
Proof.
  intros Hr Hi Ha Hhon.
  destruct (ServerCalls.servercalls_answer _ _ _ _ _ (server_session_calls s Hr) Hi Ha)
    as (->&h&hd&Hh&Hkey&<-&_).
  unfold ServerCalls.h_key in Hkey. rewrite <- Hkey in *. simpl in *.
  destruct (arrival_source _ _ _ _ server_session_serve_id s h (ServerCalls.h_pub hd) (ServerCalls.h_resp hd) Hr)
    as (t'&q&rq&b&Hq&Hc&Hdec&Hid&Hp&Hb&Hresp); [simpl; by rewrite Hh|done|].
  assert (t' = t) as ->.
  { eapply (caller_ids (calls s)); [by apply server_session_calls|done|]. simpl. rewrite Hi. simpl. by rewrite <- Hkey. }
  exists q, rq, b. by split_and!.
Qed.

(** The steps of a call from its [tr.Write] to its return. *)
Lemma server_call_run s c k t i q rq b p h' :
  reachable exec init s → conns s !! c = Some k → quiet k → owner c = (ServerCalls.i_key i).1 →
  ServerCalls.mu (calls s) = None →
  ServerCalls.invs (calls s) !! t = Some i → ServerCalls.i_pc i = ServerCalls.IWrite →
  reqs s !! t = Some q → r_write q = None →
  decode_envelope (r_bytes q) = Ok (mkMessage (Some (Message_Request rq))) →
  serve (owner c) rq = Ok (Some b) → decode_envelope b = Ok (mkMessage (Some (Message_Response p))) →
  ServerCalls.hands (calls s) !! h' = None →
  ∃ w h w' s' i',
    run exec ((request_actions ServerSide t c w h (carried (r_bytes q)) ++
      answer_actions ServerSide c w' h h' (carried b)) ++
      (Call <$> [ServerCalls.HandlerLock h'; ServerCalls.Receive t h'; ServerCalls.HandlerUnlock h'])) s = Some s' ∧
    ServerCalls.invs (calls s') !! t = Some i' ∧
    ServerCalls.i_pc i' = ServerCalls.IGot p (ServerCalls.finish p (ServerCalls.i_reply i)).
Proof.
  intros Hr Hk Hq Howner Hmu Hi Hpc Hrq Hw Hdec Hb Hp Hfresh.
  set (cs := ServerCalls.set_inv t i ServerCalls.IWait (calls s)).
  destruct (round_trip ServerSide owner honest serve server_session_serve_id s c k t (ServerCalls.i_key i).2 q rq b p cs h')
    as (Hid&acts&s2&Hrun2&Hlen&Hc2&w&h&w'&->); try done.
  { simpl. rewrite Hi, Howner. simpl. by destruct (ServerCalls.i_key i). }
  { simpl. unfold server_writing. rewrite Hi. simpl. by rewrite Hpc. }
  { simpl. rewrite Hi. simpl. by rewrite Hpc. }
  { simpl. rewrite Hfresh. by eexists. }
  assert (reachable exec init s2) as Hr2 by (etrans; [done|by eapply run_reachable]).
  simpl in Hc2. rewrite Hfresh in Hc2. injection Hc2 as Hc2.
  destruct (ServerCalls.server_response_completes (calls s2) t h'
    (ServerCalls.mkInv (ServerCalls.i_key i) (ServerCalls.i_reply i) ServerCalls.IWait)
    (ServerCalls.mkHand (owner c) p ServerCalls.HLock)) as (cs3&i'&Hrun3&Hi'&Hpc'&_).
  { by apply server_session_calls. }
  { by rewrite <- Hc2. }
  { rewrite <- Hc2. simpl. apply lookup_insert_eq. }
  { done. }
  { rewrite <- Hc2. simpl. apply lookup_insert_eq. }
  { done. }
  { unfold ServerCalls.h_key. simpl. rewrite Howner, Hid. by destruct (ServerCalls.i_key i). }
  pose proof (calls_run ServerSide owner honest serve
    [ServerCalls.HandlerLock h'; ServerCalls.Receive t h'; ServerCalls.HandlerUnlock h'] cs3 s2
    ltac:(by repeat constructor) Hrun3) as Hrun4.
  exists w, h, w', (set_calls cs3 s2), i'. split; [|done]. exact (eq_trans (run_then _ _ _ _ _ Hrun2) Hrun4).
Qed.

(** The response of an answered call came over a connection of the called client's key. *)
Lemma server_answered_over s t i r out :
  reachable exec init s → ServerCalls.invs (calls s) !! t = Some i →
  ServerCalls.i_pc i = ServerCalls.IGot r out →
  out = ServerCalls.finish r (ServerCalls.i_reply i) ∧ resp_CallId r = (ServerCalls.i_key i).2 ∧
  ∃ c k m, conns s !! c = Some k ∧ owner c = (ServerCalls.i_key i).1 ∧
    m ∈ delivered (near ServerSide k) ∧ as_response m = Some r.
Proof.
  intros Hr Hi Ha.
  destruct (ServerCalls.servercalls_answer _ _ _ _ _ (server_session_calls s Hr) Hi Ha)
    as (Hout&h&hd&Hh&Hkey&Hresp&_).
  split_and!; [done|by rewrite <- Hkey, <- Hresp|].
  apply (exchange_arrivals_over ServerSide owner honest serve s Hr h). simpl. rewrite Hh. simpl.
  by rewrite Hresp, <- Hkey.
Qed.

(** ** Theorems *)

(** C4: The remote procedure call from the server to a client: a call of a generated stub
    for an honest client's key that is answered returns what that client's method returns
    for the decoded copy of the call's own argument, its error or the decoded copy of its
    value, whatever the other clients send and whatever else this one's connections
    carry. *)
Theorem server_session_rpc (sd : Service.ServiceDesc U Impl) impl new_in method md s t i q r out u v herr o :
  svc (ServerCalls.i_key i).1 = Service.register sd impl → honest (ServerCalls.i_key i).1 = true →
  reachable exec init s → ServerCalls.invs (calls s) !! t = Some i →
  ServerCalls.i_pc i = ServerCalls.IGot r out →
  reqs s !! t = Some q → r_args q = AnyProto (PUser u) →
  last (Service.named (r_method q) (Service.Methods sd)) = Some md →
  Service.Handler md = Rpc.generated_handler new_in method → same_type u new_in →
  method impl Peer.Background (decoded u) = (AnyProto (PUser v), herr) →
  ServerCalls.i_reply i = AnyProto (PUser o) → same_type v o →
  Rpc.generated_client out = Rpc.remote_result v herr.
Proof.
  intros Hsvc Hhon Hr Hi Ha Hq Hu Hmd Hgen Hin Hm Ho Hvo.
  destruct (server_session_answered s t i r out Hr Hi Ha Hhon) as (q'&rq&b&Hq'&Hdec&_&Hp&Hb&Hresp&->).
  rewrite Hq in Hq'. injection Hq' as <-. rewrite Hu in Hp. rewrite Ho.
  unfold serve in Hb. rewrite Hsvc in Hb.
  apply Service.client_replies_iff in Hb as (info&md'&v'&herr'&msg&Hinfo&Hmd'&Hh&Hn&Hbb).
  apply (Rpc.answered_call sd impl Peer.Background (r_method q) md new_in method
    u v herr o (ServerCalls.i_key i).2 (r_bytes q) rq b r); [done..| |done].
  by exists info, md', v', herr', msg.
Qed.

(** C5: Nobody answers for a client but itself: the response that an answered [Invoke]
    returns was received over a connection of the called client's key and carries the
    call's id; and if that client runs this library, it is what its handler made of this
    call's own request. *)
Theorem server_session_answer s t i r out :
  reachable exec init s → ServerCalls.invs (calls s) !! t = Some i →
  ServerCalls.i_pc i = ServerCalls.IGot r out →
  out = ServerCalls.finish r (ServerCalls.i_reply i) ∧ resp_CallId r = (ServerCalls.i_key i).2 ∧
  (∃ c k m, conns s !! c = Some k ∧ owner c = (ServerCalls.i_key i).1 ∧
    m ∈ delivered (near ServerSide k) ∧ as_response m = Some r) ∧
  (honest (ServerCalls.i_key i).1 = true → ∃ q rq b, reqs s !! t = Some q ∧
    decode_envelope (r_bytes q) = Ok (mkMessage (Some (Message_Request rq))) ∧
    req_CallId rq = (ServerCalls.i_key i).2 ∧ serve (ServerCalls.i_key i).1 rq = Ok (Some b) ∧
    decode_envelope b = Ok (mkMessage (Some (Message_Response r)))).
Proof.
  intros Hr Hi Ha. destruct (server_answered_over s t i r out Hr Hi Ha) as (Hout&Hid&Hover).
  split_and!; [done..|]. intros Hhon.
  destruct (server_session_answered s t i r out Hr Hi Ha Hhon) as (q&rq&b&?&?&?&_&?&?&_). by exists q, rq, b.
Qed.

(** Every handler that a client runs for the server serves a request that an [Invoke]
    built for this client's key and wrote to a connection of this key, and no [Invoke] is
    served twice, by whatever clients. *)
Theorem server_session_at_most_once s h x :
  reachable exec init s → runs s !! h = Some x →
  (∃ t i q w, reqs s !! t = Some q ∧ ServerCalls.invs (calls s) !! t = Some i ∧
     ServerCalls.i_key i = (owner (h_from x).1, req_CallId (h_req x)) ∧
     decode_envelope (r_bytes q) = Ok (mkMessage (Some (Message_Request (h_req x)))) ∧
     r_write q = Some ((h_from x).1, w)) ∧
  ∀ h' x', runs s !! h' = Some x' → req_CallId (h_req x') = req_CallId (h_req x) → h' = h.
Proof.
  intros Hr Hx. split; [|intros h' x'; by apply (runs_distinct ServerSide owner honest serve s h h' x)].
  destruct (run_source _ _ _ _ s h x Hr Hx) as (t&q&k&w&Hq&Hc&_&Hd&_&Hw&_).
  apply fmap_Some in Hc as (i&Hi&Hk). by exists t, i, q, w.
Qed.

(** Nor need the server's calls hang: when an [Invoke] is about to write, over a
    connection of its client's key on which nothing else is going on, nobody holds [s.mu]
    and the client has an answer to its request, fifteen steps take it to its return
    with that answer. *)
Theorem server_session_completes s c k t i q rq b p :
  reachable exec init s → conns s !! c = Some k → quiet k → owner c = (ServerCalls.i_key i).1 →
  ServerCalls.mu (calls s) = None →
  ServerCalls.invs (calls s) !! t = Some i → ServerCalls.i_pc i = ServerCalls.IWrite →
  reqs s !! t = Some q → r_write q = None →
  decode_envelope (r_bytes q) = Ok (mkMessage (Some (Message_Request rq))) →
  serve (owner c) rq = Ok (Some b) → decode_envelope b = Ok (mkMessage (Some (Message_Response p))) →
  ∃ acts s' i', run exec acts s = Some s' ∧ length acts = 15 ∧
    ServerCalls.invs (calls s') !! t = Some i' ∧
    ServerCalls.i_pc i' = ServerCalls.IGot p (ServerCalls.finish p (ServerCalls.i_reply i)).
Proof.
  intros Hr Hk Hq Howner Hmu Hi Hpc Hrq Hw Hdec Hb Hp.
  destruct (server_call_run s c k t i q rq b p (fresh (dom (ServerCalls.hands (calls s)))))
    as (w&h&w'&s'&i'&Hrun&Hi'&Hpc'); try done; [apply not_elem_of_dom, is_fresh|].
  by eexists _, s', i'.
Qed.
End Session.

(** ** Witnesses: the echo service of [Rpc] at client [x01], and a client [x02] that answers
    calls that are not its own *)

Abbreviation w_action := (action (A:=ServerCalls.action (U:=Toy.U))).
Abbreviation w_sys := (sys (U:=Toy.U) (C:=ServerCalls.sys (U:=Toy.U) (T:=Methods.MethodCalls nat))).

Definition w_owner (c : nat) : bytes := if decide (c = 5) then [x01] else [x02].
Definition w_honest (p : bytes) : bool := bool_decide (p = [x01]).
Definition w_svc (p : bytes) : option (Service.serviceInfo Toy.U ()) := Service.register Rpc.w_sd tt.
Definition w_exec : w_action → w_sys → option w_sys := exec w_owner w_honest w_svc.
Definition w_init : w_sys := init.
Definition w_bytes (b : slice) : bytes := carried b.

(** A call for [x01] up to its [Write]; the other client sends its own answer to it. *)
Definition w_ctx : Peer.Context := Peer.NewCallContext Peer.Background [x01].
Definition w_forged : bytes :=
  w_bytes (Some (Toy.encode (mkMessage (Some (Message_Response (mkResponse "id1" None "forged")))))).
Definition w_writing : list w_action :=
  [Open 5; Open 6;
   Call (ServerCalls.Invoke 1 w_ctx "Ping" (toy_user "hi") (toy_user "") "id1");
   Call (ServerCalls.Register 1); Call (ServerCalls.Lookup 1 (Ok tt));
   End 6 (ClientSide, Write 9 w_forged)] ++ (End 6 <$> carry_actions ClientSide 9 w_forged) ++
  [OwnRead 6 9; Call (ServerCalls.HandlerLock 9)].
Definition w_returned : list w_action :=
  w_writing ++ request_actions ServerSide 1 5 7 2 (w_bytes Rpc.w_request) ++
  answer_actions ServerSide 5 8 2 3 (w_bytes Rpc.w_reply) ++
  [Call (ServerCalls.HandlerLock 3); Call (ServerCalls.Receive 1 3); Call (ServerCalls.HandlerUnlock 3)].
Definition w_writing_state := final w_exec w_writing w_init.
Definition w_returned_state := final w_exec w_returned w_init.

Definition w_rq : Message.Request := mkRequest "Ping" "id1" (Some (Toy.str "hi")).
Definition w_resp : Message.Response := mkResponse "id1" (Some (Toy.str "re: hi")) "".
Definition w_out : outcome (proto_msg Toy.U) := Ok (PUser (Some "re: hi")).
Definition w_inv (pc : ServerCalls.inv_pc (U:=Toy.U)) : ServerCalls.invoker :=
  ServerCalls.mkInv ([x01], "id1") (toy_user "") pc.
Definition w_req (wr : option (nat * nat)) : request (U:=Toy.U) :=
  mkReq "Ping" (toy_user "hi") Rpc.w_request wr.

Lemma server_session_rpc_witness : Rpc.generated_client w_out = Ok (Some "re: hi").
Proof.
  assert (Rpc.generated_client w_out = Rpc.remote_result (Some "re: hi") None) as ->.
  { apply (server_session_rpc w_owner w_honest w_svc Rpc.w_sd tt None Rpc.w_echo
      (Service.mkMethodDesc "Ping" (Rpc.generated_handler None Rpc.w_echo)) w_returned_state 1
      (w_inv (ServerCalls.IGot w_resp w_out)) (w_req (Some (5, 7))) w_resp w_out
      (Some "hi") (Some "re: hi") None (Some "")); first [exact I|at_state]. }
  reflexivity.
Defined.

Lemma server_session_answer_witness :
  ∃ c k m, conns w_returned_state !! c = Some k ∧ w_owner c = [x01] ∧
    m ∈ delivered (near ServerSide k) ∧ as_response (U:=Toy.U) m = Some w_resp.
Proof.
  destruct (server_session_answer w_owner w_honest w_svc w_returned_state 1
    (w_inv (ServerCalls.IGot w_resp w_out)) w_resp w_out) as (_&_&Hover&_); [at_state..|exact Hover].
Defined.

Lemma server_session_at_most_once_witness :
  (∃ t i q, reqs w_returned_state !! t = Some q ∧
     ServerCalls.invs (calls w_returned_state) !! t = Some i ∧ ServerCalls.i_key i = ([x01], "id1")) ∧
  ∀ h' x', runs w_returned_state !! h' = Some x' → req_CallId (h_req x') = "id1" → h' = 2.
Proof.
  destruct (server_session_at_most_once w_owner w_honest w_svc w_returned_state 2
    (mkServing w_rq (5, 0) RunDone)) as [(t&i&q&w&Hq&Hi&Hk&_) Hone]; [at_state..|].
  split; [exists t, i, q; split; [exact Hq|split; [exact Hi|exact Hk]]|exact Hone].
Defined.

Lemma server_session_completes_witness :
  ∃ acts s' i', run w_exec acts w_writing_state = Some s' ∧
    ServerCalls.invs (calls s') !! 1 = Some i' ∧
    ServerCalls.i_pc i' = ServerCalls.IGot w_resp w_out.
Proof.
  destruct (server_session_completes w_owner w_honest w_svc w_writing_state 5
    Conn.init 1 (w_inv ServerCalls.IWrite) (w_req None) w_rq Rpc.w_reply w_resp)
    as (acts&s'&i'&Hrun&_&Hi&Hpc); [at_state|at_state|by intros []|at_state..|].
  exists acts, s', i'. split_and!; [exact Hrun|exact Hi|exact Hpc].
Defined.
End ServerSession.
