(* ===== verification/Pumps.v ===== *)
(** The server of [Server] with the transports it makes, pumps and all.

    [Server] sees of a transport whether [Close] was called on it, whether its
    connection failed and whether its callback ran.  Here every transport is a
    [Transport] of its own: it starts when [NewServerTransport] makes it, is closed
    when the server's code closes it, fails when its connection does, runs the
    server's [afterWritePump] as the last thing of its write pump, and hands its
    messages to the read loops.

    The callback takes [s.mu], as much of the server does.  A response handler
    ([handleMessageResponse], in [ServerCalls]) has [s.mu] across steps; here such a
    handler is a flag, which it sets when nobody has the lock and gives back at any time.
    While it is set, whoever takes [s.mu] waits. *)
From S2P Require Import Prelude Credentials Message ConnMgr Transport Server.

Module Pumps.
Import Transport Server.

Section Pumps.
Context {U : Type} `{Message.ProtoLib U}.
Context (ParseCertificate : bytes → outcome Credentials.Certificate).

Record sys := mkSys {
  sv : server;
  pumps : gmap nat tr;
  held : bool;               (* another goroutine has called [s.mu.Lock()] *)
}.

Definition init (ks : list bytes) : sys := mkSys (NewServer ks) ∅ false.

(** The steps of [Server] that take [s.mu]; [Register] has it from [Start]. *)
Definition takes_mu (a : Server.action) (v : server) : bool :=
  match a with
  | Server.Ensure _ | Server.Start _ _ | Server.AfterWritePump _ | Server.ReadStart _
  | Server.UpdateKeys _ | Server.NotifyChan => true
  | Server.StopStep x => match Server.stops v !! x with Some Server.SDrop => true | _ => false end
  | _ => false
  end.

(** A step of the server: one that takes [s.mu] waits for a goroutine that has locked it,
    or is waiting to: [sync.RWMutex] lets no reader past a writer that waits. *)
Definition server_step (b : Server.action) (s : sys) : option server :=
  if held s && takes_mu b (sv s) then None else Server.exec ParseCertificate b (sv s).

(** The transports after a step of the server: the new one is started, and [Close]
    is called on those the step closed (a second [Close] does nothing). *)
Definition sync (m : gmap nat trans) (ps : gmap nat tr) : gmap nat tr :=
  map_imap (λ tr t,
    let p := default Transport.init (ps !! tr) in
    Some (if t_closing t then or_crash (server_Close p) p else p)) m.

Inductive action :=
  | Srv (a : Server.action)                 (* a step of the server's own code *)
  | Pump (tr : nat) (a : Transport.action)  (* a step of a transport's goroutines *)
  | Read (rd : nat)                         (* a read loop receives from its transport *)
  | Lock                                    (* an [Invoke], a response handler or another caller
                                               calls [s.mu.Lock()] *)
  | Unlock.                                 (* and gives the lock back, having got it *)

Definition srv_alone (a : Server.action) : bool :=
  match a with TransportDown _ | AfterWritePump _ | ReadMessage _ _ => false | _ => true end.

Definition pump_alone (a : Transport.action) : bool :=
  match a with Transport.Close _ | CloseReturn _ | Receive => false | _ => true end.

(** What a step of a transport is for the server: the end of its connection, or the
    callback [wshandler] gave it. *)
Definition shows (tr : nat) (a : Transport.action) (p : Transport.tr) : option Server.action :=
  match a, wp p with
  | PumpEvent PDefer, WCallback => Some (AfterWritePump tr)
  | PumpEvent (PWrote false), _ | PumpEvent (PTick false), _ | ReadEvent ReadErr, _ =>
      Some (TransportDown tr)
  | _, _ => None
  end.

Definition exec (a : action) (s : sys) : option sys :=
  match a with
  | Srv a =>
      if srv_alone a then
        s' ← server_step a s; Some (mkSys s' (sync (trs s') (pumps s)) (held s))
      else None
  | Pump tr a =>
      if pump_alone a then
        p ← pumps s !! tr; p' ← Transport.exec ServerSide a p;
        s' ← match shows tr a p with
             | Some b => server_step b s
             | None => Some (sv s)
             end;
        Some (mkSys s' (<[tr := p']> (pumps s)) (held s))
      else None
  | Read rd =>
      r ← readers (sv s) !! rd;
      match rd_pc r with
      | RLoop tr =>
          p ← pumps s !! tr;
          match rp p with
          | RSend m =>
              p' ← Transport.exec ServerSide Receive p;
              s' ← Server.exec ParseCertificate (ReadMessage rd (Some m)) (sv s);
              Some (mkSys s' (<[tr := p']> (pumps s)) (held s))
          | _ => None
          end
      | _ => None
      end
  | Lock => if held s then None else Some (mkSys (sv s) (pumps s) true)
  | Unlock => if held s && may_write (sv s) then Some (mkSys (sv s) (pumps s) false) else None
  end.

Lemma server_step_exec b s v :
  server_step b s = Some v → Server.exec ParseCertificate b (sv s) = Some v.
Proof. unfold server_step. by destruct (_ && _). Qed.

(** ** The two views of a transport *)

Record linked (t : trans) (p : tr) : Prop := mkLinked {
  lk_reach : reachable (Transport.exec ServerSide) Transport.init p;
  lk_closing : t_closing t = true → closeConn p = true;
  lk_after : t_after t = true ↔ wp p = WDone;
  lk_read : closeWritePump p = true → t_down t = true;
  lk_close : closeConn p = true → t_closing t = true ∨ wp p = WCallback ∨ wp p = WDone;
  lk_end : match wp p with WSelect | WMsg _ => True | _ => t_closing t || t_down t = true end;
}.

Record inv (s : sys) : Prop := mkInv {
  in_server : Server.inv (sv s);
  in_pumps tr : is_Some (pumps s !! tr) → is_Some (trs (sv s) !! tr);
  in_link tr t : trs (sv s) !! tr = Some t → ∃ p, pumps s !! tr = Some p ∧ linked t p;
}.

(** Steps of the server do to a transport nothing but close it. *)
Definition trans_step (m m' : gmap nat trans) : Prop :=
  ∀ tr t', m' !! tr = Some t' →
    match m !! tr with
    | None => t_closing t' = false ∧ t_down t' = false ∧ t_after t' = false
    | Some t => t_down t' = t_down t ∧ t_after t' = t_after t ∧
        (t_closing t = true → t_closing t' = true)
    end.

Lemma linked_init c k : linked (mkTrans c k false false false) Transport.init.
Proof. by split. Qed.

(** [Close] on a transport whose view says that it is closing. *)
Lemma linked_close t t' p :
  linked t p → t_closing t' = true → t_down t' = t_down t → t_after t' = t_after t →
  linked t' (or_crash (server_Close p) p).
Proof.
  intros [Hr Hc Ha Hrd Hcl He] Ht Hd Haf.
  destruct (server_Close_ok p (transport_reachable_ctl _ _ Hr)) as (p'&Hp&Hctl&Hcc&Hw&Hrp&_).
  assert (reachable (Transport.exec ServerSide) Transport.init p') as Hr'.
  { eapply rtc_r; [done|]. exists (Transport.Close 0). simpl. by rewrite Hp. }
  rewrite Hp. simpl. split; try done.
  - rewrite Hw, Haf. done.
  - rewrite (ctl_read _ _ Hctl), Hrp, Hd, <- (ctl_read _ _ (transport_reachable_ctl _ _ Hr)). done.
  - by left.
  - rewrite Hw. destruct (wp p); try done; by rewrite Ht.
Qed.

Lemma linked_view t t' p :
  linked t p → t_closing t' = t_closing t → t_down t' = t_down t → t_after t' = t_after t →
  linked t' p.
Proof. intros [] Hc Hd Ha. split; rewrite ?Hc, ?Hd, ?Ha; done. Qed.

Lemma trans_step_refl m : trans_step m m.
Proof. intros tr t Ht. by rewrite Ht. Qed.

Lemma trans_step_close_all l m : trans_step m (close_all l m).
Proof.
  intros tr t'. rewrite close_all_lookup. case_decide; [|apply trans_step_refl].
  destruct (m !! tr); [|done]. by intros [= <-].
Qed.

Lemma start_transport_trs h w k tr s :
  trs (start_transport h w k tr s) = trs s ∨
  trs (start_transport h w k tr s) = <[tr := mkTrans (w_cert w) k false false false]> (trs s).
Proof. unfold start_transport. repeat case_match; simpl; eauto. Qed.

Lemma UpdatePublicKeys_trs ks s :
  trs (UpdatePublicKeys ks s).2 = trs s ∨ ∃ l, trs (UpdatePublicKeys ks s).2 = close_all l (trs s).
Proof. unfold UpdatePublicKeys. repeat (case_match; simpl; eauto). Qed.

(** What the server's own code does to the transports: it starts one, or closes some. *)
Lemma server_trs_cases a s s' :
  srv_alone a = true → Server.exec ParseCertificate a s = Some s' →
  trs s' = trs s ∨
  (∃ h w k tr, a = Start h tr ∧ handlers s !! h = Some w ∧ w_pc w = WStart k ∧ trs s !! tr = None ∧
    trs s' = <[tr := mkTrans (w_cert w) k false false false]> (trs s)) ∨
  ∃ l, trs s' = close_all l (trs s).
Proof.
  intros Ha He. destruct a; try done; simpl in He; try (apply bind_Some in He as (?&Hw&He));
    try (left; unfold exec_ws, exec_rd in He; by repeat case_match; simplify_eq).
  - unfold exec_ws in He. destruct (w_pc x) eqn:Hpc; try done. destruct (trs s !! tr0) eqn:Hn; [done|].
    injection He as <-. destruct (start_transport_trs h x k tr0 s) as [->|Htr]; [by left|].
    right. left. by exists h, x, k, tr0.
  - left. unfold exec_ws in He. destruct (w_pc x); try done. destruct (readers s !! rd); [done|].
    injection He as <-. unfold register_transport. by repeat case_match.
  - unfold exec_stop in He. repeat case_match; simplify_eq; try (by left). right. right. by eexists.
  - case_match; [|done]. injection He as <-.
    destruct (UpdatePublicKeys_trs ks s) as [->|[l ->]]; [by left|right; right; by eexists].
  - left. injection He as <-. unfold GetConnectionNotifyChan. by repeat case_match.
Qed.

Lemma server_trans_step a s s' :
  srv_alone a = true → Server.exec ParseCertificate a s = Some s' → trans_step (trs s) (trs s').
Proof.
  intros Ha He. destruct (server_trs_cases a s s' Ha He) as [->|[(h&w&k&tr&_&_&_&Hn&->)|[l ->]]];
    [apply trans_step_refl| |apply trans_step_close_all].
  intros tr' t'. rewrite lookup_insert_Some. intros [[<- <-]|[_ Ht]]; [by rewrite Hn|]. by rewrite Ht.
Qed.

(** ** The invariant *)

(** What the server sees of a transport after a step of it. *)
Definition seen (b : option Server.action) (t : trans) : trans :=
  match b with
  | Some (TransportDown _) => mkTrans (t_cert t) (t_key t) (t_closing t) true (t_after t)
  | Some (AfterWritePump _) => mkTrans (t_cert t) (t_key t) (t_closing t) (t_down t) true
  | _ => t
  end.

Lemma linked_pump tr a t p p' :
  linked t p → pump_alone a = true → Transport.exec ServerSide a p = Some p' →
  linked (seen (shows tr a p) t) p'.
Proof.
  intros Hl Ha He.
  assert (reachable (Transport.exec ServerSide) Transport.init p') as Hr'.
  { eapply rtc_r; [apply (lk_reach _ _ Hl)|by exists a]. }
  pose proof (transport_reachable_ctl _ _ (lk_reach _ _ Hl)) as Hctl.
  destruct Hl as [_ Hc Haf Hrd Hcl Hend].
  pose proof (ctl_closing _ _ Hctl eq_refl) as Hclosing. pose proof (ctl_read _ _ Hctl) as Hread.
  destruct a; try done; tr_step He; unfold shows; simpl;
    repeat match goal with E : wp _ = _ |- _ => rewrite E in *; revert E end;
    intros; simpl in *; (split; [exact Hr'|..]; simpl).
  all: try solve [intuition (congruence || done)].
  all: rewrite ?orb_true_r, ?orb_true_iff in *.
  all: first [done|by destruct (wp p)|by rewrite Heqw|intuition congruence].
Qed.

Lemma sync_lookup m ps tr :
  sync m ps !! tr = (λ t, let p := default Transport.init (ps !! tr) in
    if t_closing t then or_crash (server_Close p) p else p) <$> m !! tr.
Proof. unfold sync. rewrite map_lookup_imap. by destruct (m !! tr). Qed.

Lemma pumps_srv_inv a s s' :
  inv s → srv_alone a = true → Server.exec ParseCertificate a (sv s) = Some s' →
  Server.inv s' → inv (mkSys s' (sync (trs s') (pumps s)) (held s)).
Proof.
  intros Hi Ha He Hsi. pose proof (server_trans_step a _ _ Ha He) as Hst.
  split; simpl; [done| |].
  - intros tr. rewrite sync_lookup. by intros ?%fmap_is_Some.
  - intros tr t' Ht'. rewrite sync_lookup, Ht'. simpl. eexists. split; [done|].
    specialize (Hst tr t' Ht'). destruct (trs (sv s) !! tr) as [t|] eqn:Ht.
    + destruct (in_link _ Hi tr t Ht) as (p&->&Hl). simpl. destruct Hst as (Hd&Haf&Hc).
      destruct (t_closing t') eqn:Hct; [by eapply linked_close|]. eapply linked_view; [done..| |done|done].
      rewrite Hct. symmetry. apply not_true_iff_false. intros Htc. specialize (Hc Htc). congruence.
    + destruct Hst as (Hc&Hd&Haf). rewrite Hc.
      assert (pumps s !! tr = None) as ->.
      { apply eq_None_not_Some. intros Hs%(in_pumps _ Hi). rewrite Ht in Hs. by destruct Hs. }
      destruct t' as [c k cl d af]. simpl in *. subst. apply linked_init.
Qed.

(** Decoding a message never panics. *)
Hypothesis no_panic : ∀ b p, Message.UnmarshalMessage b ≠ Panic p.

(** The transport does not have to wait for [s.mu]. *)
Definition free (tr : nat) (a : Transport.action) (p : Transport.tr) (s : sys) : Prop :=
  shows tr a p = Some (AfterWritePump tr) → held s = false.

(** The server takes the step that a transport shows it. *)
Lemma shows_enabled s tr t p a p' :
  inv s → trs (sv s) !! tr = Some t → linked t p → Transport.exec ServerSide a p = Some p' →
  free tr a p s →
  ∃ s', match shows tr a p with
        | Some b => server_step b s
        | None => Some (sv s)
        end = Some s' ∧ Server.inv s' ∧ stops s' = stops (sv s) ∧
    trs s' = <[tr := seen (shows tr a p) t]> (trs (sv s)).
Proof.
  intros Hi Ht Hl He Hfree. pose proof (in_server _ Hi) as Hsi.
  assert (∃ s', server_step (TransportDown tr) s = Some s' ∧ Server.inv s' ∧
    stops s' = stops (sv s) ∧ trs s' = <[tr := seen (Some (TransportDown tr)) t]> (trs (sv s)))
    as Hdown.
  { unfold server_step. rewrite andb_false_r. eexists. simpl. rewrite Ht. simpl. split; [done|]. split; [|done].
    eapply (server_exec_inv ParseCertificate no_panic (TransportDown tr)); [done|]. simpl. by rewrite Ht. }
  assert (wp p = WCallback → held s = false → ∃ s', server_step (AfterWritePump tr) s = Some s' ∧
    Server.inv s' ∧ stops s' = stops (sv s) ∧
    trs s' = <[tr := seen (Some (AfterWritePump tr)) t]> (trs (sv s))) as Hafter.
  { intros Hw Hh. unfold server_step. rewrite Hh. simpl. assert (t_after t = false) as Haf.
    { apply not_true_iff_false. intros Haf%(lk_after _ _ Hl). congruence. }
    pose proof (lk_end _ _ Hl) as Hend. rewrite Hw in Hend.
    destruct (afterWritePump_inv tr t (sv s) Hsi Ht Haf) as (s1&Ha&Hi1).
    destruct (afterWritePump_frame tr t _ _ Ha) as [Htr Hst].
    exists s1. simpl. rewrite Ht. simpl. rewrite Haf, Hend. simpl. by rewrite Ha. }
  assert (∃ s', Some (sv s) = Some s' ∧ Server.inv s' ∧ stops s' = stops (sv s) ∧
    trs s' = <[tr := seen None t]> (trs (sv s))) as Hnone
    by (exists (sv s); by rewrite insert_id).
  unfold free, shows in *. destruct a as [| | | | |[]| |[]]; try exact Hnone; try exact Hdown;
    try (destruct ok; [exact Hnone|exact Hdown]).
  destruct (wp p) eqn:Hw; try exact Hnone. by apply Hafter, Hfree.
Qed.

Lemma pump_step s tr a p p' :
  inv s → pump_alone a = true → pumps s !! tr = Some p → Transport.exec ServerSide a p = Some p' →
  free tr a p s →
  ∃ s' t, exec (Pump tr a) s = Some s' ∧ inv s' ∧ pumps s' = <[tr := p']> (pumps s) ∧
    held s' = held s ∧ stops (sv s') = stops (sv s) ∧ trs (sv s) !! tr = Some t ∧
    trs (sv s') = <[tr := seen (shows tr a p) t]> (trs (sv s)).
Proof.
  intros Hi Ha Hp He Hfree. destruct (in_pumps _ Hi tr) as [t Ht]; [by eexists|].
  destruct (in_link _ Hi tr t Ht) as (p0&Hp0&Hl). rewrite Hp in Hp0. injection Hp0 as <-.
  destruct (shows_enabled s tr t p a p' Hi Ht Hl He Hfree) as (s1&Hs1&Hi1&Hst&Htr).
  exists (mkSys s1 (<[tr := p']> (pumps s)) (held s)), t. split; [simpl; by rewrite Ha, Hp; simpl; rewrite He; simpl; rewrite Hs1|].
  split_and!; try done. split; simpl; [done| |].
  - intros tr'. rewrite Htr, !lookup_insert_is_Some. intros [<-|[Hne Hs]]; [by left|].
    right. split; [done|]. by apply (in_pumps _ Hi).
  - intros tr' t'. rewrite Htr. intros [[<- <-]|[Hne Ht']]%lookup_insert_Some.
    + exists p'. rewrite lookup_insert_eq. split; [done|]. by apply linked_pump.
    + rewrite lookup_insert_ne by done. by apply (in_link _ Hi).
Qed.

Lemma pumps_exec_inv a s s' : inv s → exec a s = Some s' → inv s'.
Proof.
  intros Hi He. destruct a as [a|tr a|rd| |]; simpl in He.
  - destruct (srv_alone a) eqn:Ha; [|done]. apply bind_Some in He as (s1&Hs1%server_step_exec&[= <-]).
    eapply pumps_srv_inv; [done..|]. by apply (server_exec_inv ParseCertificate no_panic a (sv s)); [apply Hi|].
  - destruct (pump_alone a) eqn:Ha; [|done]. apply bind_Some in He as (p&Hp&He).
    apply bind_Some in He as (p'&Hp'&He).
    assert (free tr a p s) as Hfree.
    { unfold free. intros Hb. rewrite Hb in He. unfold server_step in He. simpl in He.
      by destruct (held s). }
    destruct (pump_step s tr a p p' Hi Ha Hp Hp' Hfree) as (s1&t&Hs1&Hi1&_).
    simpl in Hs1. rewrite Ha, Hp in Hs1. simpl in Hs1. rewrite Hp' in Hs1. simpl in Hs1. congruence.
  - apply bind_Some in He as (r&Hr&He). destruct (rd_pc r) as [|tr|] eqn:Hpc; try done.
    apply bind_Some in He as (p&Hp&He). destruct (rp p) as [|m|] eqn:Hm; try done.
    apply bind_Some in He as (p'&Hp'&He). apply bind_Some in He as (s1&Hs1&[= <-]).
    assert (trs s1 = trs (sv s)) as Htr.
    { simpl in Hs1. rewrite Hr in Hs1. simpl in Hs1. unfold exec_rd in Hs1. rewrite Hpc in Hs1.
      injection Hs1 as <-. unfold dispatch. by repeat case_match. }
    split; simpl.
    + apply (server_exec_inv ParseCertificate no_panic (ReadMessage rd (Some m)) (sv s));
        [apply Hi|exact Hs1].
    + intros tr'. rewrite Htr, lookup_insert_is_Some. intros [<-|[_ Hs]];
        [apply (in_pumps _ Hi); by eexists|by apply (in_pumps _ Hi)].
    + intros tr' t'. rewrite Htr. intros Ht'. destruct (in_link _ Hi tr' t' Ht') as (p0&Hp0&Hl).
      destruct (decide (tr = tr')) as [<-|]; [|exists p0; by rewrite lookup_insert_ne].
      rewrite Hp in Hp0. injection Hp0 as <-. exists p'. rewrite lookup_insert_eq. split; [done|].
      assert (p' = set_rp RRead (add_delivered m p)) as Heq
        by congruence.
      destruct Hl as [Hrc Hc Haf Hrd Hcl Hend].
      split; rewrite ?Heq; try done.
      eapply rtc_r; [done|]. exists Receive. simpl. by rewrite Hm.
  - destruct (held s); simplify_eq. by destruct Hi.
  - destruct (_ && _); simplify_eq. by destruct Hi.
Qed.

Lemma pumps_reachable_inv ks s : reachable exec (init ks) s → inv s.
Proof.
  apply reachable_invariant; [|intros a s1 s2; apply pumps_exec_inv].
  split; simpl; [apply server_NewServer_inv|by intros tr [? ?]|]. intros tr t Ht. by apply lookup_empty_Some in Ht.
Qed.

(** ** The server runs as it does alone *)

Lemma pumps_server_reachable ks s :
  reachable exec (init ks) s → reachable (Server.exec ParseCertificate) (NewServer ks) (sv s).
Proof.
  apply (reachable_invariant exec (λ s, reachable (Server.exec ParseCertificate) (NewServer ks) (sv s)));
    [apply rtc_refl|].
  intros a s1 s2 Hr He.
  assert (sv s2 = sv s1 ∨ ∃ b, Server.exec ParseCertificate b (sv s1) = Some (sv s2)) as [->|[b Hb]];
    [|done|by eapply rtc_r; [|exists b]].
  destruct a as [a|tr a|rd| |]; simpl in He.
  - destruct (srv_alone a); [|done]. apply bind_Some in He as (s'&?%server_step_exec&[= <-]). eauto.
  - destruct (pump_alone a); [|done]. apply bind_Some in He as (p&_&He).
    apply bind_Some in He as (p'&_&He). apply bind_Some in He as (s'&Hs'&[= <-]). simpl.
    destruct (shows tr a p) as [b|]; [apply server_step_exec in Hs'; eauto|left; congruence].
  - apply bind_Some in He as (r&Hr'&He). destruct (rd_pc r) as [|tr|] eqn:Hpc; try done.
    apply bind_Some in He as (p&_&He). destruct (rp p) as [|m|]; try done.
    apply bind_Some in He as (p'&_&He). apply bind_Some in He as (s'&Hs'&[= <-]).
    right. exists (ReadMessage rd (Some m)). exact Hs'.
  - left. by destruct (held s1); simplify_eq.
  - left. by destruct (_ && _); simplify_eq.
Qed.

(** ** Shutting down *)

Lemma pump_run s tr p acts p' :
  inv s → held s = false → pumps s !! tr = Some p → Forall own_step acts →
  run (Transport.exec ServerSide) acts p = Some p' →
  ∃ s' t, run exec (Pump tr <$> acts) s = Some s' ∧ inv s' ∧ held s' = false ∧ pumps s' !! tr = Some p' ∧
    stops (sv s') = stops (sv s) ∧ trs (sv s') = <[tr := t]> (trs (sv s)).
Proof.
  intros Hi Hh Hp Hown. revert s p Hi Hh Hp.
  induction Hown as [|a acts (e&->&_) _ IH]; intros s p Hi Hh Hp Hrun.
  - injection Hrun as <-. destruct (in_pumps _ Hi tr) as [t Ht]; [by eexists|].
    exists s, t. split_and!; try done. by rewrite insert_id.
  - change (Transport.exec ServerSide (PumpEvent e) p ≫= run (Transport.exec ServerSide) acts = Some p') in Hrun.
    apply bind_Some in Hrun as (p1&He&Hrun).
    destruct (pump_step s tr (PumpEvent e) p p1 Hi eq_refl Hp He) as (s1&t1&Hs1&Hi1&Hp1&Hh1&Hst1&_&Htr1);
      [by intros _|].
    destruct (IH s1 p1 Hi1) as (s'&t'&Hr'&Hi'&Hh'&Hp'&Hst'&Htr'); [by rewrite Hh1|by rewrite Hp1, lookup_insert_eq|done|].
    exists s', t'. rewrite fmap_cons, (run_step _ _ _ _ _ Hs1).
    split_and!; [done..|congruence|]. by rewrite Htr', Htr1, insert_insert_eq.
Qed.

Definition stopping_step (x : nat) (a : action) : Prop :=
  a = Srv (StopStep x) ∨ ∃ tr b, a = Pump tr b ∧ own_step b.

Lemma pumps_drain x n s :
  inv s → held s = false → size (live (trs (sv s))) = n → stops (sv s) !! x = Some SWait →
  (∀ tr t, trs (sv s) !! tr = Some t → t_after t = false → t_closing t = true) →
  ∃ acts s', run exec acts s = Some s' ∧ stops (sv s') !! x = Some SReturned ∧
    Forall (stopping_step x) acts ∧ length acts ≤ 5 * n + 1.
Proof.
  revert s. induction n as [|n IH]; intros s Hi Hh Hsz Hx Hcl.
  - exists [Srv (StopStep x)]. simpl. unfold server_step. rewrite Hh. simpl. rewrite Hx. simpl. unfold exec_stop.
    rewrite decide_True by (rewrite (iv_wg _ (in_server _ Hi)); lia). simpl.
    eexists. split; [done|]. simpl. rewrite lookup_insert_eq.
    split_and!; [done|by repeat constructor|lia].
  - assert (size (live (trs (sv s))) ≠ 0) as (tr&t&[Ht Ha]%map_lookup_filter_Some)%map_size_ne_0_lookup
      by lia. simpl in Ha.
    destruct (in_link _ Hi tr t Ht) as (p&Hp&Hl).
    destruct (closing_finishes ServerSide p) as (acts&p'&Hrun&Hw&_&_&Hown&Hlen).
    { by apply transport_reachable_ctl, (lk_reach _ _ Hl). }
    { by apply (lk_closing _ _ Hl), (Hcl tr t). }
    destruct (pump_run s tr p acts p' Hi Hh Hp Hown Hrun) as (s1&t1&Hrun1&Hi1&Hh1&Hp1&Hst1&Htr1).
    assert (t_after t1 = true) as Ha1.
    { destruct (in_link _ Hi1 tr t1) as (p1&Hp1'&Hl1); [by rewrite Htr1, lookup_insert_eq|].
      rewrite Hp1 in Hp1'. injection Hp1' as <-. by apply (lk_after _ _ Hl1). }
    pose proof (live_finish (trs (sv s)) tr t t1 Ht Ha Ha1) as Hf.
    destruct (IH s1) as (acts'&s'&Hrun'&Hx'&Hacts'&Hlen').
    + done.
    + done.
    + rewrite Htr1. lia.
    + by rewrite Hst1.
    + rewrite Htr1. intros tr' t' [[<- <-]|[_ H']]%lookup_insert_Some; [congruence|by apply (Hcl tr')].
    + exists ((Pump tr <$> acts) ++ acts'), s'. rewrite (run_then _ _ _ _ _ Hrun1).
      split_and!; [done..| |].
      * apply Forall_app. split; [|done]. apply Forall_fmap. eapply Forall_impl; [done|].
        intros b Hb. right. by exists tr, b.
      * rewrite length_app, length_fmap. lia.
Qed.

(** ** Theorems *)

(** The server with its transports' pumps runs as [Server] says: its own state is
    one that [Server] reaches; what it sees of a transport is what the transport
    is (the callback ran exactly if the write pump is done, and [Close] was called
    on what it believes to be closing); and a goroutine of a transport never has to
    wait for the server, but in the callback for a goroutine that has [s.mu] or waits
    for it: each of its other steps can be taken. *)
Theorem pumps_refine_server ks s :
  reachable exec (init ks) s →
  reachable (Server.exec ParseCertificate) (NewServer ks) (sv s) ∧
  (∀ tr, is_Some (pumps s !! tr) ↔ is_Some (trs (sv s) !! tr)) ∧
  ∀ tr t p, trs (sv s) !! tr = Some t → pumps s !! tr = Some p →
    reachable (Transport.exec ServerSide) Transport.init p ∧
    (t_after t = true ↔ afters p = 1) ∧ (t_closing t = true → closeConn p = true) ∧
    ∀ a p', pump_alone a = true → Transport.exec ServerSide a p = Some p' →
      held s = false ∨ wp p ≠ WCallback →
      ∃ s', exec (Pump tr a) s = Some s' ∧ pumps s' !! tr = Some p'.
Proof.
  intros Hr. pose proof (pumps_reachable_inv ks s Hr) as Hi.
  split; [by apply pumps_server_reachable|]. split.
  - intros tr. split; [apply (in_pumps _ Hi)|]. intros [t Ht].
    destruct (in_link _ Hi tr t Ht) as (p&->&_). by eexists.
  - intros tr t p Ht Hp. destruct (in_link _ Hi tr t Ht) as (p0&Hp0&Hl).
    rewrite Hp in Hp0. injection Hp0 as <-.
    split_and!; [apply Hl| |apply Hl|].
    + rewrite (lk_after _ _ Hl), (ctl_after _ _ (transport_reachable_ctl _ _ (lk_reach _ _ Hl))).
      by destruct (wp p).
    + intros a p' Ha He Hfree. destruct (pump_step s tr a p p' Hi Ha Hp He) as (s'&_&Hs'&_&Hp'&_).
      { destruct Hfree as [?|Hn]; [by intros _|]. unfold free, shows. by repeat case_match. }
      exists s'. by rewrite Hp', lookup_insert_eq.
Qed.

(** C20: A [Stop] that waits returns: when [Close] was called on every transport whose
    callback has not run, and no other goroutine has [s.mu] locked or is waiting to lock
    it, at most five steps of each one's write pump, which needs neither its peer nor the
    server's other goroutines for them, and then one of [Stop]'s own, take it to its
    return. *)
Theorem stop_returns ks s x :
  reachable exec (init ks) s → held s = false → stops (sv s) !! x = Some SWait →
  (∀ tr t, trs (sv s) !! tr = Some t → t_after t = false → t_closing t = true) →
  ∃ acts s', run exec acts s = Some s' ∧ stops (sv s') !! x = Some SReturned ∧
    Forall (stopping_step x) acts ∧ length acts ≤ 5 * size (live (trs (sv s))) + 1.
Proof. intros Hi%pumps_reachable_inv Hh Hx Hcl. by apply pumps_drain. Qed.
End Pumps.

(** ** Witnesses: two connected peers, and [Stop] *)

Definition w_pumps : action → sys → option sys := exec (U:=Message.Toy.U) w_parse.
Definition w_run (acts : list Server.action) : list action := Srv <$> acts.
Definition w_stop_state : sys :=
  final w_pumps (w_run (w_connect 1 k1 10 ++ w_connect 2 k2 20) ++
    [Pump 10 (Transport.Write 1 [x01]); Pump 10 (PumpEvent (PTake 1))] ++ w_run (w_stop 1))
    (init [k1; k2]).

Lemma pumps_refine_server_witness :
  reachable (Server.exec (U:=Message.Toy.U) w_parse) (NewServer [k1; k2]) (sv w_stop_state) ∧
  closeConn (default Transport.init (pumps w_stop_state !! 10)) = true.
Proof.
  destruct (pumps_refine_server (U:=Message.Toy.U) w_parse toy_no_panic [k1; k2] w_stop_state)
    as (Hr&_&_); [at_state|]. split; [exact Hr|at_state].
Defined.

Definition w_closing (x : trans) : bool := t_after x || t_closing x.

Lemma stop_returns_witness :
  ∃ acts s', run w_pumps acts w_stop_state = Some s' ∧ stops (sv s') !! 1 = Some SReturned ∧
    length acts ≤ 11.
Proof.
  destruct (stop_returns (U:=Message.Toy.U) w_parse toy_no_panic [k1; k2] w_stop_state 1)
    as (acts&s'&Hrun&Hx&_&Hlen); [at_state|at_state|at_state| |].
  - assert (map_Forall (λ _ x, w_closing x = true) (trs (sv w_stop_state))) as Hall.
    { apply (bool_decide_unpack _). vm_compute. exact I. }
    intros tr t Ht Ha. specialize (Hall tr t Ht). unfold w_closing in Hall. by rewrite Ha in Hall.
  - exists acts, s'. split; [exact Hrun|]. split; [exact Hx|].
    assert (size (live (trs (sv w_stop_state))) = 2) as Hsz by at_state.
    rewrite Hsz in Hlen. exact Hlen.
Defined.
End Pumps.
