(* ===== verification/Keys.v ===== *)
(** [examples/simple/keys/keys.go]: the keys of the example programs, and the
    decoding of a hexadecimal key as [FromHex] does it, with the error of
    [hex.Decode] dropped. *)
From S2P Require Import Prelude Credentials.

Module Keys.
Import Credentials.

#[local] Arguments Nat.div : simpl never.

(** ** [encoding/hex], of the standard library *)

Definition reverseHexTable (c : byte) : Z :=
  let n := byteZ c in
  if bool_decide (48 ≤ n ≤ 57)%Z then n - 48
  else if bool_decide (97 ≤ n ≤ 102)%Z then n - 87
  else if bool_decide (65 ≤ n ≤ 70)%Z then n - 55
  else 255.

Definition is_hex (c : byte) : bool := bool_decide (reverseHexTable c ≤ 15)%Z.

Inductive hex_error := InvalidByteError (c : byte) | ErrLength.

(** The byte of a number below 256. *)
Definition Zbyte (z : Z) : byte := default x00 (Byte.of_N (Z.to_N z)).

(** [(a << 4) | b] on bytes. *)
Definition join_digits (p q : byte) : byte :=
  Zbyte (Z.lor (Z.shiftl (reverseHexTable p) 4 `mod` 256) (reverseHexTable q)).

(** [hex.Decode]: what [dst] becomes, how many bytes were written, the error. *)
Fixpoint hex_Decode (dst src : bytes) {struct src} : outcome (bytes * nat * option hex_error) :=
  match src with
  | p :: q :: src =>
      if negb (is_hex p) then Ok (dst, 0, Some (InvalidByteError p))
      else if negb (is_hex q) then Ok (dst, 0, Some (InvalidByteError q))
      else match dst with
           | [] => Panic IndexOutOfRange
           | _ :: dst =>
               '(dst, n, err) ← hex_Decode dst src;
               Ok (join_digits p q :: dst, S n, err)
           end
  | [p] => Ok (dst, 0, Some (if is_hex p then ErrLength else InvalidByteError p))
  | [] => Ok (dst, 0, None)
  end.

Definition DecodedLen (x : nat) : nat := x `div` 2.

(** ** [keys.go] *)

Record Client := mkClient {
  ID : string;
  Name : string;
  PubKey : string;
  PrivKey : string;
  RegisteredOnServer : bool;
}.

Definition ServerPubKey : string :=
  "3b0f149627adb7b6fafe1497a9dfc357f22295a5440786c3bc566dfdb0176808".
Definition ServerPrivKey : string :=
  "c1afd224cec2ff6066746bf9b7cdf7f9f4694ab7ef2ca1692ff923a30df203483b0f149627adb7b6fafe1497a9dfc357f22295a5440786c3bc566dfdb0176808".

Definition Clients : list Client := [
  mkClient "1" "Alice"
    "0f17c3bf72de8beef6e2d17a14c0a972f5d7e0e66e70722373f12b88382d40f9"
    "5ae73174dfe4ae293e25ba6845e76d9819e5f5432ff8820d5c996be292abf14f0f17c3bf72de8beef6e2d17a14c0a972f5d7e0e66e70722373f12b88382d40f9"
    true;
  mkClient "2" "Bob"
    "9a36f1819c60970b0cb16585cacf35ed824b48bc8ac24980bf615bc8d7b9661c"
    "1b6093915ce64fa5ca15147808da47ccb64f50a16841edde12fd797c3e52d8169a36f1819c60970b0cb16585cacf35ed824b48bc8ac24980bf615bc8d7b9661c"
    true;
  mkClient "3" "Charlie"
    "235750320bb723760add5969b3c51342e829542d399f82b07a0458092c3960af"
    "84206ddc52ad6f83569ed409829f194db1d3bbb65e7c04db5ca098d1f020ee47235750320bb723760add5969b3c51342e829542d399f82b07a0458092c3960af"
    false].

Definition FromHex (keyHex : string) : outcome bytes :=
  let src := String.list_byte_of_string keyHex in
  '(privKey, _, _) ← hex_Decode (replicate (DecodedLen (length src)) x00) src;
  Ok privKey.

Definition wrong_size (b : bytes) : error :=
  "provided public key is " +:+ pretty (length b) +:+ " bytes, expected " +:+
  pretty PublicKeySize +:+ " bytes".

Definition ToStaticSizedBytes (b : bytes) : outcome StaticSizedPublicKey :=
  if negb (length b =? PublicKeySize)%nat then Err (wrong_size b)
  else
    let '(sb, n) := go_copy (replicate PublicKeySize x00) b in
    if negb (PublicKeySize =? n)%nat then Err "copying public key failed" else Ok sb.

(** ** Digits *)

Definition lower (c : byte) : byte :=
  if bool_decide (65 ≤ byteZ c ≤ 90)%Z then Zbyte (byteZ c + 32) else c.

Lemma Zbyte_byteZ c : Zbyte (byteZ c) = c.
Proof. unfold Zbyte, byteZ. by rewrite N2Z.id, Byte.of_to_N. Qed.

Lemma byteZ_Zbyte z : (0 ≤ z < 256)%Z → byteZ (Zbyte z) = z.
Proof.
  intros Hz. unfold Zbyte, byteZ. destruct (Byte.of_N (Z.to_N z)) as [c|] eqn:Hc.
  - apply Byte.to_of_N in Hc. simpl. rewrite Hc. lia.
  - apply Byte.of_N_None_iff in Hc. lia.
Qed.

(** A digit is printed back in lower case. *)
Lemma hex_digit_back c : is_hex c = true →
  (0 ≤ reverseHexTable c < 16)%Z ∧
  Ascii.byte_of_ascii (hex_digit (Z.to_nat (reverseHexTable c))) = lower c.
Proof. destruct c; vm_compute; try discriminate; intros _; (split; [split|]); congruence. Qed.

Lemma join_digits_parts p q : is_hex p = true → is_hex q = true →
  (byteZ (join_digits p q) `div` 16 = reverseHexTable p ∧
   byteZ (join_digits p q) `mod` 16 = reverseHexTable q)%Z.
Proof.
  intros [Hp _]%hex_digit_back [Hq _]%hex_digit_back. unfold join_digits.
  set (a := reverseHexTable p) in *. set (b := reverseHexTable q) in *.
  assert (Z.lor (Z.shiftl a 4 mod 256) b = 16 * a + b)%Z as ->.
  { rewrite Z.shiftl_mul_pow2, Z.mod_small by lia.
    symmetry. rewrite Z.mul_comm. apply Z.add_nocarry_lor.
    change 16%Z with (2 ^ 4)%Z.
    apply Z.bits_inj'. intros n Hn. rewrite Z.land_spec, Z.bits_0.
    destruct (decide (n < 4)%Z).
    - by rewrite Z.mul_pow2_bits_low by lia.
    - rewrite (Z.testbit_eqb b n) by lia. rewrite Z.div_small; [by rewrite andb_false_r|].
      split; [lia|]. apply Z.lt_le_trans with (2 ^ 4)%Z; [lia|]. apply Z.pow_le_mono_r; lia. }
  rewrite byteZ_Zbyte by lia. split.
  - rewrite Z.mul_comm, Z.div_add_l by lia. rewrite Z.div_small by lia. lia.
  - rewrite Z.add_comm, Z.mul_comm, Z.mod_add by lia. by apply Z.mod_small.
Qed.

Lemma hex_join p q b : is_hex p = true → is_hex q = true →
  String.list_byte_of_string (hex (join_digits p q :: b)) =
    lower p :: lower q :: String.list_byte_of_string (hex b).
Proof.
  intros Hp Hq. destruct (join_digits_parts p q Hp Hq) as [Hd Hm].
  unfold String.list_byte_of_string. cbn [hex String.list_ascii_of_string map]. rewrite Hd, Hm.
  destruct (hex_digit_back p Hp) as [_ ->]. by destruct (hex_digit_back q Hq) as [_ ->].
Qed.

Lemma join_hex x :
  let d n := Ascii.byte_of_ascii (hex_digit (Z.to_nat n)) in
  is_hex (d (byteZ x `div` 16)%Z) = true ∧ is_hex (d (byteZ x `mod` 16)%Z) = true ∧
  join_digits (d (byteZ x `div` 16)%Z) (d (byteZ x `mod` 16)%Z) = x.
Proof. by destruct x. Qed.

(** ** The decoder *)

(** Nothing more can be read off [rest]. *)
Definition unreadable (rest : bytes) : bool :=
  match rest with p :: q :: _ => negb (is_hex p && is_hex q) | _ => true end.

Lemma hex_Decode_reads n src dst :
  length src ≤ n → length src `div` 2 ≤ length dst →
  ∃ b pre rest err, src = pre ++ rest ∧ unreadable rest = true ∧
    lower <$> pre = String.list_byte_of_string (hex b) ∧
    hex_Decode dst src = Ok (b ++ drop (length b) dst, length b, err) ∧
    (err = None ↔ rest = []).
Proof.
  revert src dst. induction n as [n IH] using lt_wf_ind. intros src dst Hn Hd.
  destruct src as [|p [|q src]].
  { exists [], [], [], None. by split_and!. }
  { eexists [], [], [p], (Some _). by split_and!. }
  destruct (is_hex p) eqn:Hp; [destruct (is_hex q) eqn:Hq|].
  - simpl in Hn. destruct dst as [|x dst].
    { exfalso. change (length (p :: q :: src)) with (2 + length src) in Hd.
      pose proof (Nat.div_le_lower_bound (2 + length src) 2 1 ltac:(lia) ltac:(lia)). simpl in *. lia. }
    destruct (IH (length src) ltac:(lia) src dst ltac:(lia)) as (b&pre&rest&err&->&Hr&Hb&He&Hnil).
    { change (length (p :: q :: src)) with (2 + length src) in Hd.
      pose proof (Nat.div_add (length src) 1 2 ltac:(lia)) as Hdiv.
      rewrite Nat.mul_1_l, Nat.add_comm in Hdiv. simpl length in Hd. lia. }
    exists (join_digits p q :: b), (p :: q :: pre), rest, err. split_and!; [done|done| | |done].
    + rewrite hex_join, !fmap_cons by done. by rewrite Hb.
    + cbn [hex_Decode]. rewrite Hp, Hq. cbn [negb]. by rewrite He.
  - exists [], [], (p :: q :: src), (Some (InvalidByteError q)). simpl. rewrite Hp, Hq. by split_and!.
  - exists [], [], (p :: q :: src), (Some (InvalidByteError p)). simpl. rewrite Hp. by split_and!.
Qed.

Lemma hex_Decode_hex b dst : length b = length dst →
  hex_Decode dst (String.list_byte_of_string (hex b)) = Ok (b, length b, None).
Proof.
  revert dst. induction b as [|x b IH]; intros [|y dst] Hl; try done.
  destruct (join_hex x) as (Hp&Hq&Hj). unfold String.list_byte_of_string. cbn [hex String.list_ascii_of_string map hex_Decode].
  rewrite Hp, Hq, IH by (simpl in Hl; lia). cbn [negb]. simpl. by rewrite Hj.
Qed.

Lemma hex_cons x b :
  let d n := Ascii.byte_of_ascii (hex_digit (Z.to_nat n)) in
  String.list_byte_of_string (hex (x :: b)) =
    d (byteZ x `div` 16)%Z :: d (byteZ x `mod` 16)%Z :: String.list_byte_of_string (hex b).
Proof. done. Qed.

Lemma is_hex_lower c : is_hex (lower c) = true → is_hex c = true.
Proof. by destruct c. Qed.

Lemma hex_length b : length (String.list_byte_of_string (hex b)) = 2 * length b.
Proof.
  unfold String.list_byte_of_string. rewrite length_map.
  induction b as [|x b IH]; [done|]. simpl. rewrite IH. lia.
Qed.

Lemma FromHex_reads s :
  ∃ b pre rest, String.list_byte_of_string s = pre ++ rest ∧ unreadable rest = true ∧
    lower <$> pre = String.list_byte_of_string (hex b) ∧
    FromHex s = Ok (b ++ replicate (length rest `div` 2) x00).
Proof.
  unfold FromHex, DecodedLen. set (src := String.list_byte_of_string s).
  destruct (hex_Decode_reads (length src) src (replicate (length src `div` 2) x00))
    as (b&pre&rest&err&Hsrc&Hr&Hb&He&_); [done|by rewrite length_replicate|].
  exists b, pre, rest. split_and!; [done..|]. rewrite He. simpl. rewrite drop_replicate.
  do 3 f_equal. apply (f_equal length) in Hb. rewrite length_fmap, hex_length in Hb.
  rewrite Hsrc, length_app, Hb.
  replace (2 * length b + length rest) with (length rest + length b * 2) by lia.
  rewrite Nat.div_add by lia. lia.
Qed.

Lemma ToStaticSizedBytes_eq b :
  ToStaticSizedBytes b = if decide (static_key b) then Ok b else Err (wrong_size b).
Proof.
  unfold ToStaticSizedBytes, static_key. destruct (Nat.eqb_spec (length b) PublicKeySize) as [Hl|Hl].
  - rewrite decide_True by done. exact (ToStatic_id b Hl).
  - by rewrite decide_False.
Qed.

(** ** Theorems *)

(** [FromHex] reads the longest prefix of well-formed pairs of digits, in either
    case, and fills the rest of the key with zeros: it neither fails nor panics,
    whatever the string. *)
Theorem from_hex_outcome s :
  ∃ b pre rest, String.list_byte_of_string s = pre ++ rest ∧ unreadable rest = true ∧
    lower <$> pre = String.list_byte_of_string (hex b) ∧
    FromHex s = Ok (b ++ replicate (length rest `div` 2) x00).
Proof. apply FromHex_reads. Qed.

(** [FromHex] reads back what [%x] prints. *)
Theorem from_hex_roundtrip b : FromHex (hex b) = Ok b.
Proof.
  unfold FromHex, DecodedLen. rewrite hex_Decode_hex; [done|].
  rewrite length_replicate, hex_length, Nat.mul_comm. by rewrite Nat.div_mul.
Qed.

(** Because the error of [hex.Decode] is dropped, a string of the right length that
    does not start with two digits, such as one with the prefix [0x], passes as the
    key of thirty-two zero bytes. *)
Theorem from_hex_bad_key s :
  unreadable (String.list_byte_of_string s) = true →
  length (String.list_byte_of_string s) = 64 →
  FromHex s = Ok (replicate 32 x00) ∧
  ToStaticSizedBytes (replicate 32 x00) = Ok (replicate 32 x00).
Proof.
  intros Hs Hl. split; [|by rewrite ToStaticSizedBytes_eq].
  destruct (FromHex_reads s) as ([|x b]&pre&rest&Hsrc&_&Hb&He).
  - destruct pre; [|done]. simpl in Hsrc. by rewrite <- Hsrc, Hl in He.
  - exfalso. destruct (join_hex x) as (Hp&Hq&_). rewrite hex_cons in Hb.
    destruct pre as [|p [|q pre]]; [done..|]. rewrite !fmap_cons in Hb. injection Hb as Hb1 Hb2 _.
    rewrite <- Hb1 in Hp. rewrite <- Hb2 in Hq. rewrite Hsrc in Hs. simpl in Hs.
    by rewrite !is_hex_lower in Hs.
Qed.

(** [ToStaticSizedBytes] accepts exactly the keys of thirty-two bytes, which it
    returns unchanged; unlike [credentials.ToStaticallySizedPublicKey] it refuses longer
    ones, and its second error never happens. *)
Theorem to_static_sized_exact b :
  ToStaticSizedBytes b = (if decide (static_key b) then Ok b else Err (wrong_size b)) ∧
  (ToStaticSizedBytes b = Ok b → ToStaticallySizedPublicKey b = Ok b) ∧
  (PublicKeySize < length b →
    ToStaticallySizedPublicKey b = Ok (take PublicKeySize b) ∧ ToStaticSizedBytes b = Err (wrong_size b)).
Proof.
  rewrite ToStaticSizedBytes_eq. unfold static_key. split; [done|]. split.
  - case_decide; [|done]. intros _. by apply ToStatic_id.
  - intros Hl. rewrite ToStatic_ok by lia. by rewrite decide_False by lia.
Qed.

(** The private key holds the public key behind its seed. *)
Definition keypair_ok (pub priv : string) : Prop :=
  ∃ p seed, FromHex pub = Ok p ∧ FromHex priv = Ok (seed ++ p) ∧
    length seed = PublicKeySize ∧ static_key p.

Lemma keypair_ok_eval pub priv :
  match FromHex pub, FromHex priv with
  | Ok p, Ok k => bool_decide (length p = 32 ∧ length k = 64 ∧ drop 32 k = p)
  | _, _ => false
  end = true → keypair_ok pub priv.
Proof.
  unfold keypair_ok. destruct (FromHex pub) as [p| |], (FromHex priv) as [k| |]; try done.
  intros (Hp&Hk&<-)%bool_decide_eq_true. exists (drop 32 k), (take 32 k).
  by rewrite take_drop, length_take, Hk.
Qed.

Lemma example_keys : Forall (λ c, keypair_ok (PubKey c) (PrivKey c)) Clients ∧
  keypair_ok ServerPubKey ServerPrivKey ∧
  NoDup ((λ c, FromHex (PubKey c)) <$> Clients).
Proof.
  split; [repeat constructor; apply keypair_ok_eval; evaluate|].
  split; [apply keypair_ok_eval; evaluate|].
  apply (bool_decide_unpack _). evaluate.
Qed.

(** ** Witness *)

Lemma from_hex_bad_key_witness :
  FromHex "0x0f17c3bf72de8beef6e2d17a14c0a972f5d7e0e66e70722373f12b88382d40" =
    Ok (replicate 32 x00).
Proof. apply from_hex_bad_key; vm_compute; reflexivity. Defined.
End Keys.
