(* ===== verification/Examples.v ===== *)
(** [examples/simple/]: the example server and the example client, from their
    command lines and keys to the calls they make to each other.

    A [main] is an outcome: [Err] is what [log.Fatalf] prints before the process
    ends, [Panic] a panic that ends it.  The messages of [ping.pb.go] are a
    parameter: their type, their constructors and [Body]. *)
From Stdlib Require Import Strings.Ascii.
From S2P Require Import Prelude Connectivity Peer Message Service Rpc Credentials Options.
From S2P Require Import CallSpec ServerCalls ClientCalls ConnMgr AddrConn Dial Keys.

Module Examples.
Import Message Service Credentials Options Keys.

(** ** [strconv.Atoi], of the standard library *)

Definition digit (c : Ascii.ascii) : option Z :=
  let n := byteZ (Ascii.byte_of_ascii c) in
  if bool_decide (48 ≤ n ≤ 57)%Z then Some (n - 48)%Z else None.

Fixpoint digits (acc : Z) (s : string) : option Z :=
  match s with
  | "" => Some acc
  | String c s => d ← digit c; digits (10 * acc + d) s
  end.

Definition number (s : string) : option Z := if decide (s = "") then None else digits 0 s.

Definition Atoi (s : string) : option Z :=
  z ← match s with
      | String c s' =>
          if decide (c = "+"%char) then number s'
          else if decide (c = "-"%char) then Z.opp <$> number s'
          else number s
      | "" => None
      end;
  if bool_decide (- 2^63 ≤ z < 2^63)%Z then Some z else None.

(** [ping.pb.go]: a message of each type with its [Body], [GetBody], and the nil
    pointer to a response. *)
Class PingMessages (U : Type) := {
  PingRequest : string → U;
  PingResponse : string → U;
  GnipRequest : string → U;
  GnipResponse : string → U;
  Body : U → string;
  nil_PingResponse : U;
}.

Section Examples.
Context {U : Type} `{ProtoLib U, PingMessages U}.

(** What one of the generated handlers of [ping_wsrpc.pb.go] does with its method. *)
Definition generated {Impl} (new_in : U)
    (method : Impl → Peer.Context → U → outcome (any U * option error)) : methodHandler U Impl :=
  λ srv ctx dec,
    match dec (AnyProto (PUser new_in)) with
    | Ok m =>
        match method srv ctx (match m with PUser u => u | PMessage _ => new_in end) with
        | Ok (v, herr) => HReturn v herr
        | Err e => HReturn AnyNil (Some e)
        | Panic p => HPanic p
        end
    | Err e => HReturn AnyNil (Some e)
    | Panic p => HPanic p
    end.

(** *** The server's handlers *)

Abbreviation pingServer := (gmap StaticSizedPublicKey string) (only parsing).

(** What [Ping] logs, and what it returns. *)
Definition Ping_logs (s : pingServer) (ctx : Peer.Context) (req : U) :
    outcome (list string * (any U * option error)) :=
  let resBody := "pong" in
  match Peer.FromContext ctx with
  | (_, false) => Ok ([], (AnyProto (PUser nil_PingResponse), Some "could not extract public key"))
  | (None, true) => Panic NilDeref
  | (Some p, true) =>
      let name := default "" (s !! Peer.PublicKey p) in
      Ok (["[RPC SERVICE HANDLER] " +:+ Body req +:+ " (" +:+ name +:+ ") -> " +:+ resBody],
          (AnyProto (PUser (PingResponse resBody)), None))
  end.

Definition Ping (s : pingServer) (ctx : Peer.Context) (req : U) : outcome (any U * option error) :=
  '(_, r) ← Ping_logs s ctx req; Ok r.

Definition Ping_ServiceDesc : ServiceDesc U pingServer :=
  mkServiceDesc "ping.Ping" [mkMethodDesc "Ping" (generated (PingRequest "") Ping)].

(** *** The client's handler *)

Definition Gnip_logs (req : U) : list string * (any U * option error) :=
  let resBody := "gnop" in
  (["[HANDLER] " +:+ Body req +:+ " -> " +:+ resBody], (AnyProto (PUser (GnipResponse resBody)), None)).

Definition Gnip (_ : ()) (ctx : Peer.Context) (req : U) : outcome (any U * option error) :=
  Ok (Gnip_logs req).2.

Definition Gnip_ServiceDesc : ServiceDesc U () :=
  mkServiceDesc "ping.Gnip" [mkMethodDesc "Gnip" (generated (GnipRequest "") Gnip)].

(** *** The calls both make for ever *)

(** One round of [pingContinuously]: what it logs of the result. *)
Definition ping_round (res : outcome U) : outcome string :=
  match res with
  | Ok res => Ok ("[CALL] Ping -> " +:+ Body res)
  | Err e => Ok ("[CALL] Some error ocurred pinging: " +:+ e)
  | Panic p => Panic p
  end.

(** [context.WithTimeout]: a layer of package [context]. *)
Definition WithTimeout (ctx : Peer.Context) : Peer.Context :=
  Peer.layers [("timerCtx", Peer.OtherValue)] ctx.

Definition ErrNotConnected : error := "client not connected".

(** The calls of one round of [pingClientsContinuously], in the order [clients] in
    which the map is gone through: the contexts, and the log of each result. *)
Definition gnip_ctx (pubKey : StaticSizedPublicKey) : Peer.Context :=
  WithTimeout (Peer.NewCallContext Peer.Background pubKey).

Definition gnip_log (name : string) (is_ErrNotConnected : bool) (res : outcome U) : outcome string :=
  match res with
  | Ok res => Ok ("[RPC CALL] Gnip (" +:+ name +:+ ") -> " +:+ Body res)
  | Err e => Ok (if is_ErrNotConnected then "[RPC CALL] " +:+ name +:+ ": " +:+ e
                 else "[RPC CALL] Some error ocurred: " +:+ e)
  | Panic p => Panic p
  end.

Definition gnip_round (clients : list (StaticSizedPublicKey * string)) :
    list (Peer.Context * U) :=
  (λ kn, (gnip_ctx kn.1, GnipRequest "Gnip")) <$> clients.

(** *** The two mains, up to the listeners and the dial *)

Context {Signer : Type} (signer_of : bytes → Signer) (CreateCertificate : Signer → outcome bytes).

Fixpoint register_clients (cs : list Client) (pubKeys : list bytes) (clients : pingServer) :
    outcome (list bytes * pingServer) :=
  match cs with
  | [] => Ok (pubKeys, clients)
  | c :: cs =>
      if RegisteredOnServer c then
        clientPubKey ← FromHex (PubKey c);
        match ToStaticSizedBytes clientPubKey with
        | Ok k => register_clients cs (pubKeys ++ [clientPubKey]) (<[k := Name c]> clients)
        | Err _ => Panic ExplicitPanic
        | Panic p => Panic p
        end
      else register_clients cs pubKeys clients
  end.

(** The server that [server/main.go] has when it starts to serve. *)
Record serving := mkServing {
  sv_opts : serverOptions;
  sv_heap : heap;
  sv_service : option (serviceInfo U pingServer);
  sv_clients : pingServer;
}.

Definition server_main (listen : outcome unit) (h : heap) : outcome serving :=
  privKey ← FromHex ServerPrivKey;
  '(pubKeys, clients) ← register_clients Clients [] ∅;
  _ ← wrap_err "[MAIN] failed to listen: " listen;
  '(o, h) ← NewServer signer_of CreateCertificate
              [OptCreds privKey pubKeys; OptHealthcheck "127.0.0.1:1337"] h;
  Ok (mkServing o h (register Ping_ServiceDesc clients) clients).

(** The options of the client with the keys of [c]. *)
Definition client_options (c : Client) : outcome (list (DialOption (Signer:=Signer))) :=
  privKey ← FromHex (PrivKey c);
  serverPubKey ← FromHex ServerPubKey;
  Ok [OptTransportCreds privKey serverPubKey; OptBlock].

Definition client_main (os_Args : list string) (h : heap) : outcome Dial.sys :=
  match os_Args with
  | [] => Panic IndexOutOfRange
  | [_] => Err "Must provide the index of the client you wish to run"
  | _ :: arg1 :: _ =>
      match Atoi arg1 with
      | None => Err "arg must be an int"
      | Some cidx =>
          match (if bool_decide (0 ≤ cidx)%Z then Clients !! Z.to_nat cidx else None) with
          | None => Panic IndexOutOfRange
          | Some c => opts ← client_options c; Dial.DialWithContext signer_of CreateCertificate opts h
          end
      end
  end.

(** After the dial: [log.Fatalln] on its error, else the service is registered. *)
Definition client_dialled (dialled : outcome unit) : outcome (option (serviceInfo U ())) :=
  _ ← dialled; Ok (register Gnip_ServiceDesc tt).
End Examples.

(** ** The goroutine of the server that prints the connected peers

    [Connect] and [Disconnect] are the server's [registerConnection] and
    [removeConnection]; the printer asks for a channel, waits for it, and prints. *)
Inductive printer_pc := PGet | PWait (ch : nat) | PPrint.

Record watch := mkWatch {
  w_cm : ConnMgr.connectionsManager;
  w_pc : printer_pc;
  w_printed : list (list StaticSizedPublicKey);
}.

Definition watch_init : watch := mkWatch ConnMgr.newConnectionsManager PGet [].

Inductive watch_action :=
  | Connect (k : StaticSizedPublicKey) (tr : nat)
  | Disconnect (k : StaticSizedPublicKey)
  | Printer.

#[export] Instance watch_action_eq_dec : EqDecision watch_action.
Proof. solve_decision. Defined.

Definition set_cm (cm : outcome ConnMgr.connectionsManager) (s : watch) : option watch :=
  match cm with Ok cm => Some (mkWatch cm (w_pc s) (w_printed s)) | _ => None end.

Definition watch_exec (a : watch_action) (s : watch) : option watch :=
  match a with
  | Connect k tr => set_cm (ConnMgr.registerConnection k tr (w_cm s)) s
  | Disconnect k => set_cm (ConnMgr.removeConnection k (w_cm s)) s
  | Printer =>
      match w_pc s with
      | PGet =>
          let '(ch, cm) := ConnMgr.getNotifyChan (w_cm s) in
          Some (mkWatch cm (PWait ch) (w_printed s))
      | PWait ch =>
          if bool_decide (ch ∈ ConnMgr.closed (w_cm s))
          then Some (mkWatch (w_cm s) PPrint (w_printed s)) else None
      | PPrint =>
          Some (mkWatch (w_cm s) PGet (w_printed s ++ [ConnMgr.getConnectionPublicKeys (w_cm s)]))
      end
  end.

(** ** How both mains end

    [signal.Notify] never blocks: a signal that finds the buffer full is dropped.
    The deferred call is [s.Stop] of the server and [conn.Close] of the client. *)
Inductive relay_pc := RelayWait | RelaySend | RelayDone.
Inductive main_pc := MainWait | MainDeferred | MainReturned.

Record ending := mkEnding {
  e_sigs : bool;   (* the one place of [sigs] is taken *)
  e_relay : relay_pc;
  e_done : bool;   (* the one place of [done] is taken *)
  e_main : main_pc;
}.

Definition ending_init : ending := mkEnding false RelayWait false MainWait.

Inductive ending_action := Signal | Relay | Main.

#[export] Instance ending_action_eq_dec : EqDecision ending_action.
Proof. solve_decision. Defined.

Definition ending_exec (a : ending_action) (s : ending) : option ending :=
  match a with
  | Signal => Some (mkEnding true (e_relay s) (e_done s) (e_main s))
  | Relay =>
      match e_relay s with
      | RelayWait => if e_sigs s then Some (mkEnding false RelaySend (e_done s) (e_main s)) else None
      | RelaySend => if e_done s then None else Some (mkEnding (e_sigs s) RelayDone true (e_main s))
      | RelayDone => None
      end
  | Main =>
      match e_main s with
      | MainWait => if e_done s then Some (mkEnding (e_sigs s) (e_relay s) false MainDeferred) else None
      | MainDeferred => Some (mkEnding (e_sigs s) (e_relay s) (e_done s) MainReturned)
      | MainReturned => None
      end
  end.

(** ** Lemmas *)

Definition key_of (keyHex : string) : bytes :=
  match FromHex keyHex with Ok k => k | _ => [] end.

Lemma FromHex_key keyHex : FromHex keyHex = Ok (key_of keyHex).
Proof. unfold key_of. by destruct (FromHex_reads keyHex) as (b&pre&rest&_&_&_&->). Qed.

Definition registered (cs : list Client) : list Client := filter (λ c, RegisteredOnServer c = true) cs.

Definition named_key (c : Client) : bytes * string := (key_of (PubKey c), Name c).

Lemma register_clients_ok cs ks m :
  Forall (λ c, static_key (key_of (PubKey c))) cs →
  register_clients cs ks m =
    Ok (ks ++ (key_of ∘ PubKey <$> registered cs), insert_all (named_key <$> registered cs) m).
Proof.
  intros Hcs. revert ks m. induction Hcs as [|c cs Hc _ IH]; intros ks m; simpl.
  { by rewrite app_nil_r. }
  unfold registered. rewrite filter_cons. destruct (RegisteredOnServer c); simpl; [|apply IH].
  rewrite FromHex_key. simpl. rewrite ToStaticSizedBytes_eq, decide_True by done.
  rewrite IH. simpl. by rewrite <- app_assoc.
Qed.

(** What the keys of [keys.go] are. *)
Lemma clients_keys c : c ∈ Clients →
  static_key (key_of (PubKey c)) ∧ length (key_of (PrivKey c)) = PrivateKeySize ∧
  drop 32 (key_of (PrivKey c)) = key_of (PubKey c).
Proof.
  revert c. apply Forall_forall. repeat constructor; by apply bool_decide_unpack; vm_compute.
Qed.

Lemma server_keys :
  static_key (key_of ServerPubKey) ∧ length (key_of ServerPrivKey) = PrivateKeySize ∧
  drop 32 (key_of ServerPrivKey) = key_of ServerPubKey.
Proof. split_and!; by vm_compute. Qed.

Lemma clients_distinct c c' : c ∈ Clients → c' ∈ Clients → key_of (PubKey c) = key_of (PubKey c') → c = c'.
Proof.
  apply (NoDup_fmap_elem (λ c, key_of (PubKey c)) Clients). apply (bool_decide_unpack _). by vm_compute.
Qed.

Definition server_clients : gmap bytes string := insert_all (named_key <$> registered Clients) ∅.

Lemma server_clients_name c : c ∈ Clients →
  server_clients !! key_of (PubKey c) = if RegisteredOnServer c then Some (Name c) else None.
Proof.
  intros Hc. unfold server_clients.
  assert (NoDup (named_key <$> registered Clients).*1) as Hn.
  { apply (bool_decide_unpack _). by vm_compute. }
  destruct (RegisteredOnServer c) eqn:Hr.
  - apply insert_all_NoDup; [done|]. apply list_elem_of_fmap. exists c. split; [done|].
    by apply list_elem_of_filter.
  - rewrite insert_all_not_in; [apply lookup_empty|].
    rewrite <- list_fmap_compose. intros (c'&Heq&[Hr' Hc']%list_elem_of_filter)%list_elem_of_fmap.
    apply clients_distinct in Heq; [|done..]. congruence.
Qed.

Section MainLemmas.
Context {U : Type} `{ProtoLib U, PingMessages U}
  {Signer : Type} (signer_of : bytes → Signer) (CreateCertificate : Signer → outcome bytes).

(** The server listens with the registered clients' keys, and has a certificate if one
    can be made. *)
Lemma server_main_ok h st :
  heap_ok h → no_creds_panic CreateCertificate →
  server_main signer_of CreateCertificate (Ok tt) h = Ok st →
  sv_clients st = server_clients ∧ sv_service st = register Ping_ServiceDesc server_clients ∧
  creds_are RequireAnyClientCert
    (accepted CreateCertificate (Ok (signer_of (key_of ServerPrivKey)))
       (key_of ∘ PubKey <$> registered Clients))
    (creds (sv_opts st)) (sv_heap st).
Proof.
  intros Hh Hc Hs. unfold server_main in Hs. rewrite FromHex_key in Hs.
  cbn [mbind outcome_bind] in Hs.
  rewrite register_clients_ok in Hs by (apply Forall_forall; intros c ?; by apply clients_keys).
  cbn [mbind outcome_bind wrap_err app] in Hs. unfold NewServer in Hs.
  set (opts := [OptCreds _ _; OptHealthcheck _]) in *.
  destruct (apply_server_options_spec signer_of CreateCertificate opts defaultServerOptions h None Hh Hc eq_refl)
    as (o&h'&Ha&Hck&_).
  rewrite Ha in Hs. cbn [mbind outcome_bind] in Hs. injection Hs as <-. split_and!; [done..|].
  cbn [sv_opts sv_heap]. destruct server_keys as (_&Hk&_).
  assert (signer_of_key signer_of (key_of ServerPrivKey) = Ok (signer_of (key_of ServerPrivKey))) as E.
  { unfold signer_of_key, ValidPrivateKeyFromEd25519. by rewrite Hk. }
  revert Hck. unfold opts. cbn [omap list_omap sets_creds]. rewrite E.
  by destruct (accepted _ _ _).
Qed.

Lemma client_options_ok c h o h' :
  heap_ok h → no_creds_panic CreateCertificate → c ∈ Clients →
  client_options c ≫= (λ opts, dial_options signer_of CreateCertificate opts h) = Ok (o, h') →
  block o = true ∧
  creds_are NoClientCert
    (accepted CreateCertificate (Ok (signer_of (key_of (PrivKey c)))) [key_of ServerPubKey])
    (TransportCreds (copts o)) h'.
Proof.
  intros Hh Hc Hin Hd. unfold client_options in Hd. rewrite !FromHex_key in Hd.
  cbn [mbind outcome_bind] in Hd. destruct (clients_keys c Hin) as (_&Hk&_).
  assert (signer_of_key signer_of (key_of (PrivKey c)) = Ok (signer_of (key_of (PrivKey c)))) as E.
  { unfold signer_of_key, ValidPrivateKeyFromEd25519. by rewrite Hk. }
  unfold dial_options in Hd. cbn [apply_dial_options] in Hd.
  pose proof (dial_apply_step signer_of CreateCertificate
    (OptTransportCreds (key_of (PrivKey c)) (key_of ServerPubKey)) defaultDialOptions h None Hh Hc eq_refl) as Hs.
  cbn [refused sets_transport_creds] in Hs. rewrite E in Hs.
  destruct (refused_signer _ _ _); [by rewrite Hs in Hd|].
  destruct Hs as (o1&h1&Hs&_&Hck&_). rewrite Hs in Hd. simpl in Hd. injection Hd as <- <-.
  split; [done|]. revert Hck. by destruct (accepted CreateCertificate _ _).
Qed.

(** The options of a client are refused only when no certificate can be made. *)
Lemma client_options_refused c h cert :
  heap_ok h → no_creds_panic CreateCertificate → c ∈ Clients →
  CreateCertificate (signer_of (key_of (PrivKey c))) = Ok cert →
  client_options c ≫= (λ opts, Dial.DialWithContext signer_of CreateCertificate opts h) =
    Ok (Dial.init true).
Proof.
  intros Hh Hc Hin Hcert. unfold client_options. rewrite !FromHex_key.
  cbn [mbind outcome_bind]. destruct (clients_keys c Hin) as (_&Hk&_).
  destruct server_keys as (Hsk&_). unfold Dial.DialWithContext, dial_options.
  cbn [apply_dial_options dial_apply]. unfold WithTransportCreds, ValidPrivateKeyFromEd25519,
    ValidPublicKeysFromEd25519, NewClientTLSConfig, newMutualTLSConfig, newMinimalX509Cert.
  rewrite Hk. cbn [check_lengths]. unfold static_key in Hsk. rewrite Hsk. simpl. by rewrite Hcert.
Qed.
End MainLemmas.

(** ** Theorems *)

Section Handshake.
Context {U : Type} `{ProtoLib U, PingMessages U}
  {Signer : Type} (signer_of : bytes → Signer) (CreateCertificate : Signer → outcome bytes)
  (ParseCertificate : bytes → outcome Certificate) (Public : Signer → bytes).

(** [crypto/x509], for Ed25519 signers, and [crypto/ed25519]: a private key ends with
    its public key. *)
Hypothesis x509_ed25519 : ∀ s raw, CreateCertificate s = Ok raw →
  ParseCertificate raw = Ok (mkCertificate Ed25519 (PKEd25519 (Public s))).
Hypothesis ed25519_public : ∀ k, length k = PrivateKeySize → Public (signer_of k) = drop 32 k.

Lemma creds_are_config a ck c h cfg :
  creds_are a ck c h → Config c = Some cfg →
  ∃ cert keys r, ck = Some (cert, keys) ∧ objs h !! r = Some keys ∧
    cfg = mkConfig [cert] true VersionTLS13 VersionTLS13 r a.
Proof.
  destruct ck as [[cert keys]|]; simpl; [|by intros ->].
  intros (r&->&Hr) [= <-]. by exists cert, keys, r.
Qed.

Lemma presented a keys priv ck h cfg r ks h' :
  length priv = PrivateKeySize →
  creds_are a (accepted CreateCertificate (Ok (signer_of priv)) keys) ck h → Config ck = Some cfg →
  objs h' !! r = Some ks →
  ClientAuth cfg = a ∧ objs h !! VerifyClosure cfg = Some keys ∧
  (VerifyPeerCertificate ParseCertificate r (Certificates cfg) h' = Ok tt ↔ drop 32 priv ∈ ks).
Proof.
  intros Hp Hck Hcfg Hr. destruct (creds_are_config _ _ _ _ _ Hck Hcfg) as (cert&keys'&r0&Hacc&Hr0&->).
  unfold accepted in Hacc. destruct (check_lengths keys); [|done..].
  destruct (CreateCertificate _) as [cert'| |] eqn:Hcert; [|done..]. injection Hacc as -> ->.
  split_and!; [done..|]. cbn [Certificates]. rewrite (verify_single ParseCertificate _ _ _ ks
    (mkCertificate Ed25519 (PKEd25519 (drop 32 priv))) (drop 32 priv)); [|done| |done].
  - case_decide; split; done.
  - rewrite <- ed25519_public by done. by apply x509_ed25519.
Qed.

(** The example's handshake, on the keys of [keys.go]: the example server demands a
    certificate and accepts that of exactly the clients marked [RegisteredOnServer]
    (Alice and Bob, not Charlie), and each client accepts the server's. *)
Theorem example_handshake h st scfg c h1 o h2 ccfg :
  heap_ok h → heap_ok h1 → no_creds_panic CreateCertificate → c ∈ Clients →
  server_main signer_of CreateCertificate (Ok tt) h = Ok st →
  client_options c ≫= (λ opts, dial_options signer_of CreateCertificate opts h1) = Ok (o, h2) →
  Config (creds (sv_opts st)) = Some scfg → Config (TransportCreds (copts o)) = Some ccfg →
  ClientAuth scfg = RequireAnyClientCert ∧
  (VerifyPeerCertificate ParseCertificate (VerifyClosure scfg) (Certificates ccfg) (sv_heap st) = Ok tt
     ↔ RegisteredOnServer c = true) ∧
  VerifyPeerCertificate ParseCertificate (VerifyClosure ccfg) (Certificates scfg) h2 = Ok tt.
Proof.
  intros Hh Hh1 Hc Hin Hs Hd Hscfg Hccfg.
  destruct (server_main_ok _ _ _ _ Hh Hc Hs) as (_&_&Hsck).
  destruct (client_options_ok _ _ _ _ _ _ Hh1 Hc Hin Hd) as (_&Hcck).
  destruct (clients_keys c Hin) as (_&Hpriv&Hpub). destruct server_keys as (_&Hspriv&Hspub).
  destruct (creds_are_config _ _ _ _ _ Hcck Hccfg) as (_&ks0&r0&_&Hr0&_).
  destruct (presented _ _ _ _ _ _ _ _ _ Hpriv Hcck Hccfg Hr0) as (_&Hcl&_).
  destruct (presented _ _ _ _ _ _ _ _ _ Hspriv Hsck Hscfg Hcl) as (Ha&Hsv&Hv).
  destruct (presented _ _ _ _ _ _ _ _ _ Hpriv Hcck Hccfg Hsv) as (_&_&Hv').
  split_and!; [done| |apply Hv; rewrite Hspub; by left].
  rewrite Hv', Hpub, list_elem_of_fmap. unfold registered. split.
  - intros (c'&Heq&[Hr Hc']%list_elem_of_filter). simpl in Heq.
    apply clients_distinct in Heq; [|done..]. by subst.
  - intros Hr. exists c. split; [done|]. by apply list_elem_of_filter.
Qed.
End Handshake.

(** *** The client's command line *)

Lemma digit_char n : (n < 10)%N → digit (pretty_N_char n) = Some (Z.of_N n).
Proof.
  intros Hn.
  assert (n = 0 ∨ n = 1 ∨ n = 2 ∨ n = 3 ∨ n = 4 ∨ n = 5 ∨ n = 6 ∨ n = 7 ∨ n = 8 ∨ n = 9)%N by lia.
  by destruct_or!; subst n.
Qed.

Lemma digits_pretty n s : digits 0 (pretty_N_go n s) = digits (Z.of_N n) s.
Proof.
  revert s. induction (N.lt_wf_0 n) as [n _ IH]. intros s.
  destruct (decide (n = 0%N)) as [->|Hn]; [by rewrite pretty_N_go_0|].
  rewrite pretty_N_go_step by lia. rewrite IH by (apply N.div_lt; lia). simpl.
  rewrite digit_char by (apply N.mod_lt; lia). simpl. f_equal.
  rewrite N2Z.inj_div, N2Z.inj_mod. symmetry. apply Z_div_mod_eq_full.
Qed.

Lemma Atoi_number s z : number s = Some z → (- 2^63 ≤ z < 2^63)%Z → Atoi s = Some z.
Proof.
  intros Hs Hz. unfold Atoi. destruct s as [|c s]; [done|].
  destruct (decide (c = "+"%char)) as [->|]; [done|].
  destruct (decide (c = "-"%char)) as [->|]; [done|].
  rewrite Hs. simpl. by rewrite bool_decide_true.
Qed.

Lemma Atoi_pretty (n : nat) : (Z.of_nat n < 2^63)%Z → Atoi (pretty n) = Some (Z.of_nat n).
Proof.
  intros Hn. apply Atoi_number; [|lia]. unfold number. rewrite decide_False.
  - unfold pretty, pretty_nat, pretty, pretty_N. case_decide as Hz.
    + by destruct n.
    + rewrite digits_pretty. simpl. f_equal. lia.
  - unfold pretty, pretty_nat, pretty, pretty_N. case_decide as Hz; [done|].
    intros He. pose proof (digits_pretty (N.of_nat n) "") as Hd. rewrite He in Hd. simpl in Hd.
    injection Hd. lia.
Qed.

(** The client's command line: without an argument, or with one that is no number,
    it ends with a message; with a number that is no index of [Clients], a negative one
    included, it panics; with an index it dials as that client, waiting for READY. *)
Theorem client_main_outcome {Signer : Type} (signer_of : bytes → Signer)
    (CreateCertificate : Signer → outcome bytes) h prog arg1 rest :
  heap_ok h → no_creds_panic CreateCertificate →
  (∀ s, ∃ cert, CreateCertificate s = Ok cert) →
  client_main signer_of CreateCertificate [prog] h =
    Err "Must provide the index of the client you wish to run" ∧
  client_main signer_of CreateCertificate (prog :: arg1 :: rest) h =
    match Atoi arg1 with
    | None => Err "arg must be an int"
    | Some z => if decide (0 ≤ z < 3)%Z then Ok (Dial.init true) else Panic IndexOutOfRange
    end ∧
  ∀ i, i < 3 → Atoi (pretty i) = Some (Z.of_nat i).
Proof.
  intros Hh Hc Hcert. split; [done|]. split; [|intros i Hi; apply Atoi_pretty; lia].
  simpl. destruct (Atoi arg1) as [z|]; [|done].
  destruct (bool_decide_reflect (0 ≤ z)%Z) as [Hz|Hz]; [|by rewrite decide_False by lia].
  destruct (Clients !! Z.to_nat z) as [c|] eqn:Hl.
  - apply lookup_lt_Some in Hl as Hlt. simpl in Hlt. rewrite decide_True by lia.
    destruct (Hcert (signer_of (key_of (PrivKey c)))) as [cert Hce].
    eapply client_options_refused; [done..| |done]. by eapply list_elem_of_lookup_2.
  - apply lookup_ge_None in Hl. simpl in Hl. by rewrite decide_False by lia.
Qed.

(** *** The calls *)

(** [ping.pb.go]: a message reads back with its body, into a new message of its type. *)
Class PingLaws (U : Type) `{ProtoLaws U, !PingMessages U} := {
  ping_request_type s : same_type (PingRequest s) (PingRequest "");
  ping_response_type s : same_type (PingResponse s) (PingResponse "");
  gnip_request_type s : same_type (GnipRequest s) (GnipRequest "");
  gnip_response_type s : same_type (GnipResponse s) (GnipResponse "");
  ping_request_body s : Body (decoded (PingRequest s)) = s;
  ping_response_body s : Body (decoded (PingResponse s)) = s;
  gnip_request_body s : Body (decoded (GnipRequest s)) = s;
  gnip_response_body s : Body (decoded (GnipResponse s)) = s;
}.

Section Calls.
Context {U : Type} `{PingLaws U}
  {Signer : Type} (signer_of : bytes → Signer) (CreateCertificate : Signer → outcome bytes)
  (uuid_Parse : string → outcome Z).

Lemma generated_decodes {Impl} (srv : Impl) new_in method ctx r u pl :
  same_type u new_in → MarshalUser u = Ok pl → Request_GetPayload (Some r) = norm_slice pl →
  generated new_in method srv ctx (request_decoder (Some r)) =
    match method srv ctx (decoded u) with
    | Ok (v, herr) => HReturn v herr
    | Err e => HReturn AnyNil (Some e)
    | Panic p => HPanic p
    end.
Proof.
  intros Ht Hpl Hr. unfold generated, request_decoder. rewrite Hr. simpl.
  by rewrite unmarshal_norm, (unmarshal_user _ _ _ Ht Hpl).
Qed.

Lemma one_method {Impl} (sd : ServiceDesc U Impl) md impl :
  Methods sd = [md] → ∃ info, register sd impl = Some info ∧ serviceImpl info = impl ∧
    methods info !! MethodName md = Some md.
Proof.
  intros Hm. eexists. split_and!; [done..|]. simpl. rewrite Hm. apply lookup_insert_eq.
Qed.

(** The example client's Ping: the server answers "pong" to any client it admits,
    logs the name under which its key is registered, and the client logs the answer. *)
Theorem example_ping h st c tr callID b msg b' :
  heap_ok h → no_creds_panic CreateCertificate → c ∈ Clients → RegisteredOnServer c = true →
  server_main signer_of CreateCertificate (Ok tt) h = Ok st →
  ClientCalls.prepare (Some (Connectivity.Ready, tr)) "Ping" (AnyProto (PUser (PingRequest "ping")))
    callID = Ok b →
  uuid_Parse callID = Ok 4%Z →
  NewResponse callID (AnyProto (PUser (PingResponse "pong"))) None = Ok msg → MarshalMessage msg = Ok b' →
  ∃ r resp, decode_envelope b = Ok (mkMessage (Some (Message_Request r))) ∧
    server_handleMessageRequest uuid_Parse (sv_service st) (key_of (PubKey c)) (Some r) = Ok (Some b') ∧
    Ping_logs (sv_clients st) (Peer.NewCallContext Peer.Background (key_of (PubKey c)))
      (decoded (PingRequest "ping")) =
      Ok (["[RPC SERVICE HANDLER] ping (" +:+ Name c +:+ ") -> pong"],
          (AnyProto (PUser (PingResponse "pong")), None)) ∧
    decode_envelope b' = Ok (mkMessage (Some (Message_Response resp))) ∧
    ping_round (Rpc.generated_client (ClientCalls.finish resp (AnyProto (PUser (PingResponse ""))))) =
      Ok "[CALL] Ping -> pong".
Proof.
  intros Hh Hc Hin Hreg Hs Hp Hu Hn Hb'.
  destruct (server_main_ok _ _ _ _ Hh Hc Hs) as (Hcl&Hsv&_).
  unfold ClientCalls.prepare in Hp. rewrite decide_True in Hp by done.
  apply bind_ok_inv in Hp as (rmsg&(pl&Hpl&[= <-])%bind_ok_inv&Hb). simpl in Hpl, Hb.
  destruct (Rpc.answer_roundtrip _ _ _ (PingResponse "") _ _ Hn Hb' (ping_response_type _))
    as (resp&Hresp&_&Hres&_).
  assert (Ping_logs (sv_clients st) (Peer.NewCallContext Peer.Background (key_of (PubKey c)))
      (decoded (PingRequest "ping")) =
      Ok (["[RPC SERVICE HANDLER] ping (" +:+ Name c +:+ ") -> pong"],
          (AnyProto (PUser (PingResponse "pong")), None))) as Hlog.
  { unfold Ping_logs. simpl. rewrite Hcl, (server_clients_name c Hin), Hreg, ping_request_body. done. }
  eexists _, resp. split_and!; [by rewrite decode_envelope_eq, (unmarshal_message _ _ Hb)| |done|done|].
  - rewrite server_replies. destruct (one_method Ping_ServiceDesc _ server_clients eq_refl)
      as (info&Hinfo&Himpl&Hmd).
    exists info. eexists _, (AnyProto (PUser (PingResponse "pong"))), None, msg.
    split_and!; [by rewrite Hsv|exact Hmd|done| |done..].
    cbn [Handler]. erewrite generated_decodes by (apply ping_request_type || done).
    rewrite Himpl, <- Hcl. unfold Ping. by rewrite Hlog.
  - rewrite Hres. simpl. by rewrite ping_response_body.
Qed.

(** The example server's Gnip to a client it knows: the request goes to that client's
    key, the client answers "gnop", and the server logs it under the client's name. *)
Theorem example_gnip h st c callID pub b msg b' svc :
  heap_ok h → no_creds_panic CreateCertificate → c ∈ Clients → RegisteredOnServer c = true →
  server_main signer_of CreateCertificate (Ok tt) h = Ok st →
  client_dialled (Ok tt) = Ok svc →
  ServerCalls.prepare (gnip_ctx (key_of (PubKey c))) "Gnip" (AnyProto (PUser (GnipRequest "Gnip")))
    callID = Ok (pub, b) →
  NewResponse callID (AnyProto (PUser (GnipResponse "gnop"))) None = Ok msg → MarshalMessage msg = Ok b' →
  pub = key_of (PubKey c) ∧ sv_clients st !! pub = Some (Name c) ∧
  ∃ r resp, decode_envelope b = Ok (mkMessage (Some (Message_Request r))) ∧
    client_handleMessageRequest svc (Some r) = Ok (Some b') ∧
    decode_envelope b' = Ok (mkMessage (Some (Message_Response resp))) ∧
    gnip_log (Name c) false
      (Rpc.generated_client (ServerCalls.finish resp (AnyProto (PUser (GnipResponse ""))))) =
      Ok ("[RPC CALL] Gnip (" +:+ Name c +:+ ") -> gnop").
Proof.
  intros Hh Hc Hin Hreg Hs [= <-] Hp Hn Hb'.
  destruct (server_main_ok _ _ _ _ Hh Hc Hs) as (Hcl&_&_).
  unfold ServerCalls.prepare in Hp.
  apply bind_ok_inv in Hp as (rmsg&(pl&Hpl&[= <-])%bind_ok_inv&(rq&Hb&Hctx)%bind_ok_inv).
  simpl in Hpl, Hb. simpl in Hctx. injection Hctx as <- <-.
  destruct (Rpc.answer_roundtrip _ _ _ (GnipResponse "") _ _ Hn Hb' (gnip_response_type _))
    as (resp&Hresp&_&_&Hres).
  split; [done|]. split; [by rewrite Hcl, (server_clients_name c Hin), Hreg|].
  eexists _, resp. split_and!; [by rewrite decode_envelope_eq, (unmarshal_message _ _ Hb)| |done|].
  - rewrite client_replies_iff. destruct (one_method Gnip_ServiceDesc _ tt eq_refl)
      as (info&Hinfo&Himpl&Hmd).
    exists info. eexists _, (AnyProto (PUser (GnipResponse "gnop"))), None, msg.
    split_and!; [done|exact Hmd| |done..].
    cbn [Handler]. by erewrite generated_decodes by (apply gnip_request_type || done).
  - rewrite Hres. simpl. by rewrite gnip_response_body.
Qed.
End Calls.

(** *** The rounds, the printer and the end *)

Lemma server_clients_keys k :
  is_Some (server_clients !! k) ↔ k ∈ key_of ∘ PubKey <$> registered Clients.
Proof.
  rewrite list_elem_of_fmap. split.
  - intros [n [Hin|Hn]%insert_all_elem]; [|by rewrite lookup_empty in Hn].
    apply list_elem_of_fmap in Hin as (c&[= -> _]&Hc). by exists c.
  - intros (c&->&[Hr Hc]%list_elem_of_filter). simpl. rewrite server_clients_name, Hr by done. by eexists.
Qed.

(** One round of [pingClientsContinuously], in whatever order Go goes through the
    map, calls every registered client once and nobody else. *)
Theorem gnip_round_targets `{PingMessages U} (order : list (bytes * string)) :
  order ≡ₚ map_to_list server_clients →
  omap (λ cu, Peer.PublicKey <$> (Peer.FromContext cu.1).1) (gnip_round order) ≡ₚ
    key_of ∘ PubKey <$> registered Clients.
Proof.
  intros Ho. assert (omap (λ cu, Peer.PublicKey <$> (Peer.FromContext cu.1).1) (gnip_round order) = order.*1) as ->.
  { clear Ho. induction order as [|kn order IH]; [done|]. simpl. f_equal. exact IH. }
  rewrite Ho. apply NoDup_Permutation.
  - apply NoDup_fst_map_to_list.
  - apply (bool_decide_unpack _). by vm_compute.
  - intros k. rewrite <- server_clients_keys. rewrite list_elem_of_fmap. split.
    + intros ([k' n]&->&Hin%elem_of_map_to_list). by eexists.
    + intros [n Hn]. exists (k, n). split; [done|]. by apply elem_of_map_to_list.
Qed.

Record watch_inv (s : watch) : Prop := mkWatchInv {
  wi_ok : ConnMgr.ok (w_cm s);
  wi_wait ch : w_pc s = PWait ch →
    ch ∈ ConnMgr.closed (w_cm s) ∨ ConnMgr.notifyChan (w_cm s) = Some ch;
}.

(** A change of the connections: it succeeds, and closes the channel handed out. *)
Lemma watch_change a s : a ≠ Printer → watch_inv s →
  ∃ cm, watch_exec a s = Some (mkWatch cm (w_pc s) (w_printed s)) ∧ ConnMgr.ok cm ∧
    ∀ ch, ch ∈ ConnMgr.closed cm ↔
      ch ∈ ConnMgr.closed (w_cm s) ∨ ConnMgr.notifyChan (w_cm s) = Some ch.
Proof.
  intros Ha [Hok _]. destruct a as [k tr|k|]; [| |done]; simpl.
  - destruct (ConnMgr.registerConnection_ok k tr _ Hok) as (cm&->&?&_&_&_&?). by exists cm.
  - destruct (ConnMgr.removeConnection_ok k _ Hok) as (cm&->&?&_&_&_&?). by exists cm.
Qed.

Lemma watch_step_inv a s s' : watch_inv s → watch_exec a s = Some s' → watch_inv s'.
Proof.
  intros Hi He. destruct (decide (a = Printer)) as [->|Ha].
  - destruct Hi as [Hok Hw]. simpl in He. destruct (w_pc s) eqn:Hpc.
    + destruct (ConnMgr.getNotifyChan_ok _ Hok) as (Hok'&_&Hn&_).
      destruct (ConnMgr.getNotifyChan _) as [ch cm]. injection He as <-.
      split; simpl; [done|]. intros ch' [= <-]. by right.
    + case_bool_decide; simplify_eq. by split.
    + injection He as <-. by split.
  - destruct (watch_change a s Ha Hi) as (cm&He'&Hok'&Hcl). rewrite He in He'. injection He' as ->.
    split; simpl; [done|]. intros ch Hpc. left. apply Hcl. by apply Hi.
Qed.

Lemma watch_reachable_inv s : reachable watch_exec watch_init s → watch_inv s.
Proof.
  apply (reachable_invariant watch_exec watch_inv watch_init); [|apply watch_step_inv].
  split; [apply ConnMgr.new_ok|done].
Qed.

(** While the printer waits, no change of the connections is lost on it: it goes on
    to print the keys as they are when it gets there. *)
Theorem printer_wakes s ch a :
  reachable watch_exec watch_init s → w_pc s = PWait ch → a ≠ Printer →
  ∃ s1 s2, watch_exec a s = Some s1 ∧ run watch_exec [Printer; Printer] s1 = Some s2 ∧
    last (w_printed s2) = Some (ConnMgr.getConnectionPublicKeys (w_cm s1)).
Proof.
  intros Hi%watch_reachable_inv Hpc Ha.
  destruct (watch_change a s Ha Hi) as (cm&He&_&Hcl). eexists. eexists. split; [done|].
  simpl. rewrite Hpc, bool_decide_true by (apply Hcl; by apply Hi). simpl.
  split; [done|]. simpl. by rewrite last_snoc.
Qed.

(** A change that comes between the printing and the next request for a channel is
    lost: the printer waits on, and what it printed last is no longer true. *)
Theorem printer_stale :
  ∃ s, reachable watch_exec watch_init s ∧ watch_exec Printer s = None ∧
    last (w_printed s) ≠ Some (ConnMgr.getConnectionPublicKeys (w_cm s)).
Proof.
  exists (final watch_exec [Printer; Connect [x01] 1; Printer; Printer; Connect [x02] 2; Printer] watch_init).
  split_and!; [at_state|at_state|]. intros Hl. vm_compute in Hl. discriminate.
Qed.

Lemma ending_inv acts s :
  run ending_exec acts ending_init = Some s →
  match e_relay s with
  | RelayDone => e_done s = true ∧ e_main s = MainWait ∨ e_done s = false ∧ e_main s ≠ MainWait
  | _ => e_done s = false ∧ e_main s = MainWait
  end ∧
  (Signal ∉ acts → s = ending_init) ∧ (Signal ∈ acts → e_sigs s = true ∨ e_relay s ≠ RelayWait).
Proof.
  revert s. induction acts as [|a acts IH] using rev_ind; intros s Hr.
  { injection Hr as <-. split; [done|]. split; [done|]. by intros ?%not_elem_of_nil. }
  rewrite run_app in Hr. apply bind_Some in Hr as (s1&Hr1&Hr). destruct (IH s1 Hr1) as (Hi&Hno&Hyes).
  simpl in Hr. apply bind_Some in Hr as (s2&He&[= <-]).
  rewrite elem_of_app, list_elem_of_singleton. destruct a; simpl in He.
  - injection He as <-. simpl. split; [done|]. split; [by intros []; right|auto].
  - destruct (e_relay s1) eqn:Hrl; [..|done].
    + destruct (e_sigs s1) eqn:Hs; [|done]. injection He as <-. simpl. split; [done|].
      split; [|auto]. intros Hn. rewrite Hno in Hs by tauto. done.
    + destruct (e_done s1); [done|]. injection He as <-. simpl. split; [left; by destruct Hi|].
      split; [|auto]. intros Hn. rewrite Hno in Hrl by tauto. done.
  - destruct (e_main s1) eqn:Hm; [..|done].
    + destruct (e_done s1) eqn:Hd; [|done]. injection He as <-. simpl.
      destruct (e_relay s1) eqn:Hrl; [by destruct Hi..|]. split; [by right|].
      split; [|auto]. intros Hn. rewrite Hno in Hrl by tauto. done.
    + injection He as <-. simpl. destruct (e_relay s1) eqn:Hrl; [by destruct Hi..|].
      split; [right; split; [|done]; by destruct Hi as [[]|[]]|].
      split; [|auto]. intros Hn. rewrite Hno in Hrl by tauto. done.
Qed.

(** A [main] leaves its wait only after a signal, and after a signal, however many
    others follow, at most four steps of its goroutines end it, deferred call included. *)
Theorem signal_ends_main acts s :
  run ending_exec acts ending_init = Some s →
  (e_main s ≠ MainWait → Signal ∈ acts) ∧
  (Signal ∈ acts → ∃ acts' s', run ending_exec acts' s = Some s' ∧ length acts' ≤ 4 ∧
     e_main s' = MainReturned).
Proof.
  intros Hr. destruct (ending_inv acts s Hr) as (Hi&Hno&Hyes). split.
  - intros Hm. destruct (decide (Signal ∈ acts)) as [|Hn]; [done|]. by rewrite (Hno Hn) in Hm.
  - intros Hs%Hyes. clear Hr Hno Hyes.
    destruct s as [[] [] [] []]; simpl in *; try (exfalso; intuition congruence).
    all: let finish acts :=
      solve [exists acts; eexists; split_and!; [reflexivity|simpl; lia|reflexivity]] in
      first [ finish (@nil ending_action) | finish [Main] | finish [Main; Main]
            | finish [Relay; Main; Main] | finish [Relay; Relay; Main; Main] ].
Qed.

(** ** Witnesses: the toy [x509] of [Credentials], whose signers are public keys, and
    string messages *)

#[export] Instance toy_ping : PingMessages Toy.U :=
  {| PingRequest s := Some s; PingResponse s := Some s; GnipRequest s := Some s;
     GnipResponse s := Some s; Body u := default "" u; nil_PingResponse := None |}.

#[export] Instance toy_ping_laws : PingLaws Toy.U.
Proof. by split. Qed.

Definition from_ok {A} (d : A) (m : outcome A) : A := match m with Ok a => a | _ => d end.
Lemma from_ok_eq {A} (d : A) m : is_ok m = true → m = Ok (from_ok d m).
Proof. by destruct m. Qed.

Definition w_server : outcome (serving (U:=Toy.U)) := server_main toy_signer toy_create (Ok tt) heap0.
Definition w_st : serving (U:=Toy.U) := from_ok (mkServing defaultServerOptions heap0 None ∅) w_server.
Definition w_alice : Client := default (mkClient "" "" "" "" false) (Clients !! 0).
Definition w_charlie : Client := default (mkClient "" "" "" "" false) (Clients !! 2).
Definition w_dial (c : Client) : outcome (dialOptions * heap) :=
  client_options c ≫= (λ opts, dial_options toy_signer toy_create opts heap0).
Definition w_opts (c : Client) : dialOptions * heap := from_ok (defaultDialOptions, heap0) (w_dial c).
Definition w_no_config : tlsConfig := mkConfig [] false 0 0 0 NoClientCert.
Definition w_scfg : tlsConfig := default w_no_config (Config (creds (sv_opts w_st))).
Definition w_ccfg (c : Client) : tlsConfig :=
  default w_no_config (Config (TransportCreds (copts (w_opts c).1))).

Lemma w_server_ok : server_main toy_signer toy_create (Ok tt) heap0 = Ok w_st.
Proof. apply from_ok_eq. vm_compute. reflexivity. Qed.

Lemma w_public k : length k = PrivateKeySize → id (toy_signer k) = drop 32 k.
Proof. done. Qed.

Lemma example_handshake_witness :
  VerifyPeerCertificate toy_parse (VerifyClosure w_scfg) (Certificates (w_ccfg w_alice)) (sv_heap w_st) = Ok tt ∧
  VerifyPeerCertificate toy_parse (VerifyClosure w_scfg) (Certificates (w_ccfg w_charlie)) (sv_heap w_st) ≠ Ok tt.
Proof.
  assert (∀ c, c ∈ Clients → w_dial c = Ok (w_opts c) → Config (TransportCreds (copts (w_opts c).1)) = Some (w_ccfg c) →
    VerifyPeerCertificate toy_parse (VerifyClosure w_scfg) (Certificates (w_ccfg c)) (sv_heap w_st) = Ok tt ↔
    RegisteredOnServer c = true) as Hw.
  { intros c Hc Hd Hcfg.
    destruct (example_handshake toy_signer toy_create toy_parse id toy_x509 w_public heap0 w_st w_scfg c
      heap0 (w_opts c).1 (w_opts c).2 (w_ccfg c)) as (_&H&_);
      [exact heap0_ok|exact heap0_ok|exact w_create_no_panic|exact Hc|exact w_server_ok|
       |vm_compute; reflexivity|exact Hcfg|exact H].
    fold (w_dial c). rewrite Hd. by destruct (w_opts c). }
  split.
  - apply Hw; [left|apply from_ok_eq; vm_compute; reflexivity|vm_compute; reflexivity..].
  - intros H. apply Hw in H; [discriminate|right; right; left|apply from_ok_eq; vm_compute; reflexivity|vm_compute; reflexivity].
Defined.

Lemma client_main_outcome_witness :
  client_main toy_signer toy_create ["client"; "-1"] heap0 = Panic IndexOutOfRange ∧
  client_main toy_signer toy_create ["client"; "2"] heap0 = Ok (Dial.init true).
Proof.
  assert (∀ s : bytes, ∃ cert, toy_create s = Ok cert) as Hcert by (intros s; exists s; reflexivity).
  destruct (client_main_outcome toy_signer toy_create heap0 "client" "-1" [] heap0_ok w_create_no_panic Hcert)
    as (_&H1&_).
  destruct (client_main_outcome toy_signer toy_create heap0 "client" "2" [] heap0_ok w_create_no_panic Hcert)
    as (_&H2&_).
  split; [exact H1|exact H2].
Defined.

Definition w_response_bytes (s : string) : slice :=
  Some (Toy.encode (mkMessage (Some (Message_Response (mkResponse "id1" (Some (Toy.str s)) ""))))).
Definition w_request_bytes (name s : string) : slice :=
  Some (Toy.encode (mkMessage (Some (Message_Request (mkRequest name "id1" (Some (Toy.str s))))))).

Lemma example_ping_witness :
  ∃ r, decode_envelope (w_request_bytes "Ping" "ping") = Ok (mkMessage (Some (Message_Request r))) ∧
    server_handleMessageRequest Rpc.w_uuid (sv_service w_st) (key_of (PubKey w_alice)) (Some r) =
      Ok (Some (w_response_bytes "pong")).
Proof.
  destruct (example_ping toy_signer toy_create Rpc.w_uuid heap0 w_st w_alice true "id1"
    (w_request_bytes "Ping" "ping")
    (mkMessage (Some (Message_Response (mkResponse "id1" (Some (Toy.str "pong")) ""))))
    (w_response_bytes "pong")) as (r&resp&Hr&Hgo&_);
    [exact heap0_ok|exact w_create_no_panic|left|reflexivity|exact w_server_ok|reflexivity..|].
  exists r. split; [exact Hr|exact Hgo].
Defined.

Lemma example_gnip_witness :
  ∃ r, decode_envelope (w_request_bytes "Gnip" "Gnip") = Ok (mkMessage (Some (Message_Request r))) ∧
    client_handleMessageRequest (register (U:=Toy.U) Gnip_ServiceDesc tt) (Some r) =
      Ok (Some (w_response_bytes "gnop")).
Proof.
  destruct (example_gnip toy_signer toy_create heap0 w_st w_alice "id1" (key_of (PubKey w_alice))
    (w_request_bytes "Gnip" "Gnip")
    (mkMessage (Some (Message_Response (mkResponse "id1" (Some (Toy.str "gnop")) ""))))
    (w_response_bytes "gnop") (register Gnip_ServiceDesc tt)) as (_&_&r&resp&Hr&Hgo&_);
    [exact heap0_ok|exact w_create_no_panic|left|reflexivity|exact w_server_ok|reflexivity..|].
  exists r. split; [exact Hr|exact Hgo].
Defined.

Lemma gnip_round_targets_witness :
  omap (λ cu, Peer.PublicKey <$> (Peer.FromContext cu.1).1)
    (gnip_round (U:=Toy.U) (map_to_list server_clients)) ≡ₚ key_of ∘ PubKey <$> registered Clients.
Proof. apply gnip_round_targets. reflexivity. Defined.

Definition w_waiting : watch := final watch_exec [Printer] watch_init.

Lemma printer_wakes_witness :
  ∃ s1 s2, watch_exec (Connect [x01] 7) w_waiting = Some s1 ∧
    run watch_exec [Printer; Printer] s1 = Some s2.
Proof.
  destruct (printer_wakes w_waiting 0 (Connect [x01] 7)) as (s1&s2&H1&H2&_);
    [at_state|at_state|discriminate|].
  exists s1, s2. split; [exact H1|exact H2].
Defined.

Lemma signal_ends_main_witness :
  ∃ acts' s', run ending_exec acts' (mkEnding true RelayWait false MainWait) = Some s' ∧
    e_main s' = MainReturned.
Proof.
  destruct (signal_ends_main [Signal; Signal] (mkEnding true RelayWait false MainWait)) as [_ H];
    [reflexivity|].
  destruct H as (acts'&s'&Hr&_&Hm); [left|]. exists acts', s'. split; [exact Hr|exact Hm].
Defined.
End Examples.
