(* ===== verification/TestUtils.v ===== *)
(** [intgtest/utils/testutils.go]: the helpers of the integration tests: the echo
    service, the keys and the set-up of both ends, and the two goroutines of a test
    that make calls side by side and collect their responses.

    [require] ends the test goroutine it fails in: [Err] here.  [ed25519.GenerateKey],
    [net.Listen] and the polling of [require.Eventually] are parameters. *)
From S2P Require Import Prelude Connectivity Peer Message Service Credentials Options Dial.

Module TestUtils.
Import Message Service Credentials Options.

(** ** The echo service

    [rpcs.pb.go]: the messages and their fields. *)
Class EchoMessages (U : Type) := {
  EchoRequest : string → Z → U;
  EchoResponse : string → U;
  Body : U → string;
  DelayMs : U → Z;
}.

Definition Millisecond : Z := 1000000.

Section Echo.
Context {U : Type} `{ProtoLib U, EchoMessages U}.

(** [time.Duration(req.DelayMs) * time.Millisecond], on 64 bits. *)
Definition echo_delay (req : U) : Z := wrap64 (wrap64 (DelayMs req) * Millisecond).

(** For how long [Echo] sleeps ([time.Sleep] returns at once for a negative
    duration), and what it returns. *)
Definition Echo_sleeps (req : U) : Z * (any U * option error) :=
  (if bool_decide (DelayMs req > 0)%Z then Z.max 0 (echo_delay req) else 0%Z,
   (AnyProto (PUser (EchoResponse (Body req))), None)).

Definition Echo (_ : ()) (ctx : Peer.Context) (req : U) : any U * option error := (Echo_sleeps req).2.

(** ** Requests of a test *)

Record EchoReq := mkEchoReq {
  Timeout : Z;
  req_PubKey : option StaticSizedPublicKey;
  req_Message : U;
}.

(** The context that [ProcessEchos] makes for a request; [context.WithTimeout] is a
    layer of package [context]. *)
Definition echo_ctx (req : EchoReq) : Peer.Context :=
  let ctx := if bool_decide (Timeout req > 0)%Z
             then Peer.layers [("timerCtx", Peer.OtherValue)] Peer.Background
             else Peer.Background in
  match req_PubKey req with Some pk => Peer.NewCallContext ctx pk | None => ctx end.
End Echo.

(** ** Keys *)

Record keypair := mkKeypair { PubKey : bytes; PrivKey : bytes }.

Definition StaticallySizedPublicKey (kp : keypair) : outcome StaticSizedPublicKey :=
  ToStaticallySizedPublicKey (PubKey kp).

Record keys := mkKeys { Server : keypair; Client1 : keypair; Client2 : keypair }.

(** The results of three calls of [ed25519.GenerateKey]. *)
Definition GenerateKeys (GenerateKey : nat → outcome (bytes * bytes)) : outcome keys :=
  '(sPubKey, sPrivKey) ← GenerateKey 0;
  '(c1PubKey, c1PrivKey) ← GenerateKey 1;
  '(c2PubKey, c2PrivKey) ← GenerateKey 2;
  Ok (mkKeys (mkKeypair sPubKey sPrivKey) (mkKeypair c1PubKey c1PrivKey)
        (mkKeypair c2PubKey c2PrivKey)).

(** ** Setting up both ends *)

Section Setup.
Context {Signer : Type} (signer_of : bytes → Signer) (CreateCertificate : Signer → outcome bytes).

(** [require.Eventually]: the number of the first check that succeeded, if one did in
    the time given. *)
Context (Eventually : (nat → bool) → option nat).

Definition SetupClientConnWithOptsAndTimeout (opts : list (DialOption (Signer:=Signer)))
    (test_logger : nat) (h : heap) : outcome Dial.sys :=
  Dial.DialWithContext signer_of CreateCertificate (opts ++ [OptLogger test_logger]) h.

(** [listen n] is what [net.Listen] returns the [n]-th time. *)
Definition SetupServer {Listener} (listen : nat → outcome Listener)
    (opts : list (ServerOption (Signer:=Signer))) (h : heap) :
    outcome (Listener * (serverOptions * heap)) :=
  match Eventually (λ n, is_ok (listen n)) with
  | None => Err "Condition never satisfied"
  | Some n =>
      lis ← listen n; s ← NewServer signer_of CreateCertificate opts h; Ok (lis, s)
  end.

(** [GetState n] is the state that the [n]-th look at the connection finds; the first is
    for [require.Equal]. *)
Definition WaitForReadyConnection (GetState : nat → Connectivity.State) : outcome unit :=
  if decide (GetState 0 = Connectivity.Shutdown) then Err "Not equal"
  else match Eventually (λ n, bool_decide (GetState (S n) = Connectivity.Ready)) with
       | Some _ => Ok tt
       | None => Err "Condition never satisfied"
       end.
End Setup.

(** ** [ProcessEchos] and [WaitForResponses]

    One test goroutine starts a goroutine for each request, waits for all of them and
    closes the channel; another collects [limit] responses from it, or stops after a
    while.  The channel is unbuffered: a send and its receive are one step. *)
Section Collect.
Context {R : Type} (reqs : nat) (limit : Z).

Inductive task_pc :=
  | TCall                        (* in [c.Echo] *)
  | TSend (resp : R)             (* at [ch <- resp] *)
  | TExit (sent : option R)      (* about to run [wg.Done] *)
  | TDone (sent : option R)
  | TPanicked (p : panic).

Inductive process_pc :=
  | PSpawn                       (* in the loop over the requests *)
  | PWait                        (* in [wg.Wait] *)
  | PClose                       (* about to close the channel *)
  | PReturned
  | PPanicked (p : panic).

(** The responses so far; [None] is a nil pointer. *)
Inductive collect_pc := CLoop (resps : list (option R)) | CReturned (resps : list (option R)).

Record sys := mkSys {
  tasks : list task_pc;          (* of the requests started, in their order *)
  wg : nat;
  process : process_pc;
  ch_closed : bool;
  collect : collect_pc;
  timer : bool;                  (* [timer] has fired *)
}.

Definition init : sys := mkSys [] 0 PSpawn false (CLoop []) false.

Definition set_task (t : nat) (pc : task_pc) (s : sys) : sys :=
  mkSys (<[t := pc]> (tasks s)) (wg s) (process s) (ch_closed s) (collect s) (timer s).
Definition set_process (pc : process_pc) (s : sys) : sys :=
  mkSys (tasks s) (wg s) pc (ch_closed s) (collect s) (timer s).
Definition set_collect (pc : collect_pc) (s : sys) : sys :=
  mkSys (tasks s) (wg s) (process s) (ch_closed s) pc (timer s).

Inductive action :=
  | Process                               (* the next step of [ProcessEchos] *)
  | CallReturns (t : nat) (r : option R)  (* [c.Echo] returns, [None] with an error *)
  | Send (t : nat)                        (* [ch <- resp], received if it can be *)
  | Done (t : nat)                        (* the deferred [wg.Done] *)
  | ReceiveClosed                         (* a receive from the closed channel *)
  | TimerFires
  | TimerBreak                            (* the case of the timer *)
  | Return.                               (* the loop is over *)

Definition room (resps : list (option R)) : bool := bool_decide (Z.of_nat (length resps) < limit)%Z.

Definition exec (a : action) (s : sys) : option sys :=
  match a with
  | Process =>
      match process s with
      | PSpawn =>
          if decide (length (tasks s) < reqs)
          then Some (mkSys (tasks s ++ [TCall]) (S (wg s)) PSpawn (ch_closed s) (collect s) (timer s))
          else Some (set_process PWait s)
      | PWait => if decide (wg s = 0) then Some (set_process PClose s) else None
      | PClose =>
          Some (match close_chan (ch_closed s) with
                | Ok c => mkSys (tasks s) (wg s) PReturned c (collect s) (timer s)
                | Panic p => set_process (PPanicked p) s
                | Err _ => set_process PReturned s
                end)
      | PReturned | PPanicked _ => None
      end
  | CallReturns t r =>
      match tasks s !! t with
      | Some TCall => Some (set_task t (match r with Some r => TSend r | None => TExit None end) s)
      | _ => None
      end
  | Send t =>
      match tasks s !! t with
      | Some (TSend r) =>
          if ch_closed s then Some (set_task t (TPanicked CloseOfClosed) s)
          else match collect s with
               | CLoop resps =>
                   if room resps then
                     Some (set_collect (CLoop (resps ++ [Some r])) (set_task t (TExit (Some r)) s))
                   else None
               | CReturned _ => None
               end
      | _ => None
      end
  | Done t =>
      match tasks s !! t with
      | Some (TExit sent) =>
          match wg s with
          | S w => Some (mkSys (<[t := TDone sent]> (tasks s)) w (process s) (ch_closed s) (collect s) (timer s))
          | 0 => Some (set_task t (TPanicked NegativeWaitGroup) s)
          end
      | _ => None
      end
  | ReceiveClosed =>
      match collect s with
      | CLoop resps =>
          if room resps && ch_closed s then Some (set_collect (CLoop (resps ++ [None])) s) else None
      | CReturned _ => None
      end
  | TimerFires =>
      if timer s then None
      else Some (mkSys (tasks s) (wg s) (process s) (ch_closed s) (collect s) true)
  | TimerBreak =>
      match collect s with
      | CLoop resps => if room resps && timer s then Some (set_collect (CReturned resps) s) else None
      | CReturned _ => None
      end
  | Return =>
      match collect s with
      | CLoop resps => if room resps then None else Some (set_collect (CReturned resps) s)
      | CReturned _ => None
      end
  end.

(** ** Counting over the tasks *)

Definition total (f : task_pc → nat) (l : list task_pc) : nat := sum_list_with f l.

Lemma total_insert f l t x y :
  l !! t = Some x → total f (<[t := y]> l) + f x = total f l + f y.
Proof.
  revert t. induction l as [|z l IH]; intros [|t] Hl; try done; simpl in *.
  - simplify_eq. lia.
  - specialize (IH t Hl). unfold total in *. lia.
Qed.

Lemma total_elem f l t x : l !! t = Some x → f x ≤ total f l.
Proof.
  intros (l1&l2&->&_)%list_elem_of_split_length. unfold total. rewrite sum_list_with_app. simpl. lia.
Qed.

Lemma total_snoc f l x : total f (l ++ [x]) = total f l + f x.
Proof. unfold total. rewrite sum_list_with_app. simpl. lia. Qed.

Definition alive (pc : task_pc) : nat := match pc with TDone _ | TPanicked _ => 0 | _ => 1 end.

Definition sent (pc : task_pc) : option R :=
  match pc with TExit r | TDone r => r | _ => None end.

Lemma sent_insert (l : list task_pc) t x y :
  l !! t = Some x → sent x = None →
  omap sent (<[t := y]> l) ≡ₚ option_list (sent y) ++ omap sent l.
Proof.
  revert t. induction l as [|z l IH]; intros [|t] Hl Hx; try done; simpl in *.
  - simplify_eq. rewrite Hx. by destruct (sent y).
  - specialize (IH t Hl Hx). destruct (sent z), (sent y); simpl in *; rewrite IH; try done.
    apply perm_swap.
Qed.

Lemma sent_same (l : list task_pc) t x y : l !! t = Some x → sent y = sent x → omap sent (<[t := y]> l) = omap sent l.
Proof.
  revert t. induction l as [|z l IH]; intros [|t] Hl Hy; try done; simpl in *.
  - simplify_eq. by rewrite Hy.
  - by erewrite IH.
Qed.

(** ** The invariant *)

Definition panicked (pc : task_pc) : bool := match pc with TPanicked _ => true | _ => false end.

Definition resps_of (s : sys) : list (option R) :=
  match collect s with CLoop resps | CReturned resps => resps end.

Record inv (s : sys) : Prop := mkInv {
  iv_wg : wg s = total alive (tasks s);
  iv_panic t pc : tasks s !! t = Some pc → panicked pc = false;
  iv_count : length (tasks s) ≤ reqs;
  iv_process : match process s with
    | PSpawn => ch_closed s = false
    | PWait => ch_closed s = false ∧ length (tasks s) = reqs
    | PClose => ch_closed s = false ∧ length (tasks s) = reqs ∧ wg s = 0
    | PReturned => ch_closed s = true ∧ length (tasks s) = reqs ∧ wg s = 0
    | PPanicked _ => False
    end;
  iv_resps : ∃ l k, resps_of s = (Some <$> l) ++ replicate k None ∧
    l ≡ₚ omap sent (tasks s) ∧ (0 < k → ch_closed s = true);
  iv_limit : (Z.of_nat (length (resps_of s)) ≤ Z.max 0 limit)%Z;
}.

(** No task is at work once the counter is zero. *)
Lemma no_work s t pc : inv s → wg s = 0 → tasks s !! t = Some pc → ∃ r, pc = TDone r.
Proof.
  intros Hi Hw Ht. pose proof (iv_panic s Hi t pc Ht) as Hp.
  pose proof (total_elem alive _ _ _ Ht) as Ha. rewrite <- (iv_wg s Hi), Hw in Ha.
  destruct pc; simpl in *; try done; try lia. by eexists.
Qed.

Lemma closed_over s : inv s → ch_closed s = true →
  process s = PReturned ∧ length (tasks s) = reqs ∧ wg s = 0.
Proof.
  intros Hi Hcl. pose proof (iv_process s Hi) as Hpr. rewrite Hcl in Hpr.
  by destruct (process s); destruct_and?.
Qed.

Lemma init_inv : inv init.
Proof.
  split; simpl; [done|done|lia|done| |lia]. exists [], 0. split_and!; [done|done|lia].
Qed.

(** A task that is at work moves on: the counter follows, and nobody waits in vain. *)
Lemma task_inv s t x y w rs :
  inv s → tasks s !! t = Some x → alive x = 1 → panicked y = false →
  w + alive x = wg s + alive y →
  rs = resps_of s ∧ sent y = sent x ∨
    (∃ r, sent x = None ∧ sent y = Some r ∧ rs = resps_of s ++ [Some r] ∧ room (resps_of s) = true ∧
       ch_closed s = false) →
  ∀ c, (match c with CLoop resps | CReturned resps => resps end) = rs →
  inv (mkSys (<[t := y]> (tasks s)) w (process s) (ch_closed s) c (timer s)).
Proof.
  intros Hi Ht Hx Hy Hw Hrs c Hc. pose proof Hi as [Hwg Hp Hn Hpr (l&k&Hl&Hperm&Hk) Hlim].
  pose proof (total_insert alive (tasks s) t x y Ht) as Htot.
  assert (alive y ≤ 1) as Hy1 by (destruct y; simpl; lia).
  split; unfold resps_of; cbn [tasks wg process ch_closed collect].
  - lia.
  - intros t' pc Ht'. destruct (decide (t' = t)) as [->|].
    + apply list_lookup_insert_Some in Ht' as [(_&<-&_)|[? _]]; done.
    + rewrite list_lookup_insert_ne in Ht' by done. eauto.
  - by rewrite length_insert.
  - rewrite length_insert. destruct (process s); try done; destruct_and?; split_and!; try done; lia.
  - rewrite Hc. destruct Hrs as [[-> Hs]|(r&Hsx&Hsy&->&_&Hcl)].
    + exists l, k. erewrite sent_same by done. done.
    + assert (k = 0) as ->. { destruct k; [done|]. rewrite Hk in Hcl; [done|lia]. }
      exists (l ++ [r]), 0. split_and!; [|..|lia].
      * rewrite Hl. simpl. by rewrite !app_nil_r, fmap_app.
      * rewrite (sent_insert _ _ _ _ Ht Hsx), Hsy. simpl. rewrite <- Hperm.
        symmetry. apply Permutation_cons_append.
  - rewrite Hc. destruct Hrs as [[-> _]|(r&_&_&->&Hroom&_)]; [done|].
    unfold room in Hroom. apply bool_decide_eq_true in Hroom. rewrite length_app. simpl. lia.
Qed.

Lemma exec_inv a s s' : inv s → exec a s = Some s' → inv s'.
Proof.
  intros Hi He. pose proof Hi as [Hwg Hp Hn Hpr Hr Hlim]. destruct a; simpl in He.
  - destruct (process s) eqn:Hpc; try done.
    + case_decide as Hlt; injection He as <-.
      * split; simpl; [rewrite total_snoc; simpl; lia| |rewrite length_app; simpl; lia|done| |done].
        -- intros t pc [Ht|[_ Ht]]%lookup_app_Some; [eauto|].
           apply list_lookup_singleton_Some in Ht as [_ <-]. done.
        -- destruct Hr as (l&k&?&?&?). exists l, k. split_and!; [done| |done].
           rewrite omap_app. simpl. by rewrite app_nil_r.
      * split; simpl; [done..| |done|done]. split; [done|lia].
    + case_decide as Hw; [|done]. injection He as <-. split; simpl; [done..| |done|done].
      destruct Hpr. by split_and!.
    + destruct Hpr as (Hcl&?&?). rewrite Hcl in He. injection He as <-.
      split; simpl; [done..| | |done]; [by split_and!|].
      destruct Hr as (l&k&?&?&?). by exists l, k.
  - destruct (tasks s !! t) as [[]|] eqn:Ht; try done. injection He as <-.
    eapply (task_inv s t TCall _ (wg s) (resps_of s)); try done; destruct r; simpl; try lia; by left.
  - destruct (tasks s !! t) as [[|r| | |]|] eqn:Ht; try done.
    destruct (ch_closed s) eqn:Hcl.
    { destruct (closed_over s Hi Hcl) as (_&_&Hw). by destruct (no_work s t _ Hi Hw Ht). }
    destruct (collect s) as [resps|] eqn:Hc; [|done]. destruct (room resps) eqn:Hroom; [|done].
    injection He as <-. unfold set_collect, set_task. simpl.
    eapply (task_inv s t (TSend r) _ (wg s) (resps ++ [Some r])); try done; simpl.
    right. exists r. unfold resps_of. rewrite Hc. split_and!; done.
  - destruct (tasks s !! t) as [[| |sent| |]|] eqn:Ht; try done.
    pose proof (total_elem alive _ _ _ Ht) as Ha. simpl in Ha.
    destruct (wg s) as [|w] eqn:Hw; [lia|]. injection He as <-.
    eapply (task_inv s t (TExit sent) _ w (resps_of s)); try done; simpl; [lia|by left].
  - destruct (collect s) as [resps|] eqn:Hc; [|done].
    destruct (room resps) eqn:Hroom, (ch_closed s) eqn:Hcl; try done. injection He as <-.
    unfold resps_of in Hr, Hlim. rewrite Hc in Hr, Hlim.
    split; simpl; rewrite ?Hcl; [done..| |].
    + destruct Hr as (l&k&->&?&_). exists l, (k + 1). rewrite replicate_add, app_assoc. done.
    + unfold room in Hroom. apply bool_decide_eq_true in Hroom. unfold resps_of. simpl.
      rewrite length_app. simpl. lia.
  - destruct (timer s); [done|]. injection He as <-. by split.
  - destruct (collect s) as [resps|] eqn:Hc; [|done].
    destruct (room resps && timer s); [|done]. injection He as <-.
    unfold resps_of in Hr, Hlim. rewrite Hc in Hr, Hlim. by split.
  - destruct (collect s) as [resps|] eqn:Hc; [|done].
    destruct (room resps); [done|]. injection He as <-.
    unfold resps_of in Hr, Hlim. rewrite Hc in Hr, Hlim. by split.
Qed.

Lemma reachable_inv s : reachable exec init s → inv s.
Proof. apply reachable_invariant; [apply init_inv|apply exec_inv]. Qed.

(** ** Theorems *)

(** What [WaitForResponses] returns: the responses of the calls that succeeded, each
    once, in the order in which they were sent; and, if it has room for more, nil
    responses that it reads from the closed channel once [ProcessEchos] is over. *)
Theorem echos_collected s resps :
  reachable exec init s → collect s = CReturned resps →
  ∃ l k, resps = (Some <$> l) ++ replicate k None ∧ l ≡ₚ omap sent (tasks s) ∧
    (Z.of_nat (length l + k) ≤ Z.max 0 limit)%Z ∧ (0 < k → process s = PReturned).
Proof.
  intros Hi%reachable_inv Hc. pose proof Hi as [_ _ _ Hpr (l&k&Hl&Hp&Hk) Hlim].
  unfold resps_of in Hl, Hlim. rewrite Hc in Hl, Hlim. subst resps. exists l, k.
  split_and!; [done|done| |].
  - by rewrite length_app, length_fmap, length_replicate in Hlim.
  - intros Hk'. by apply closed_over; auto.
Qed.

(** No goroutine of the test panics: nothing is sent on the closed channel, which is
    closed once and only after every call's goroutine is done, and the counter of the
    wait group counts those that are not. *)
Theorem echos_safe s :
  reachable exec init s →
  wg s = total alive (tasks s) ∧
  (∀ t pc, tasks s !! t = Some pc → ∀ p, pc ≠ TPanicked p) ∧ (∀ p, process s ≠ PPanicked p) ∧
  (ch_closed s = true → length (tasks s) = reqs ∧
     ∀ t pc, tasks s !! t = Some pc → ∃ r, pc = TDone r).
Proof.
  intros Hi%reachable_inv. pose proof Hi as [Hw Hp _ Hpr _ _]. split_and!; [done| | |].
  - intros t pc Ht p ->. by specialize (Hp t _ Ht).
  - intros p Hpc. by rewrite Hpc in Hpr.
  - intros Hcl. destruct (closed_over s Hi Hcl) as (_&?&?).
    split; [done|]. intros t pc Ht. by eapply no_work.
Qed.

Lemma unsent_stays s s' t r :
  reachable exec init s → (∃ resps, collect s = CReturned resps) → tasks s !! t = Some (TSend r) →
  reachable exec s s' →
  inv s' ∧ (∃ resps, collect s' = CReturned resps) ∧ tasks s' !! t = Some (TSend r).
Proof.
  intros Hi%reachable_inv Hc Ht. apply (reachable_invariant exec (λ s, inv s ∧
    (∃ resps, collect s = CReturned resps) ∧ tasks s !! t = Some (TSend r)) s); [done|].
  clear. intros a s s' (Hi&[resps Hc]&Ht) He. split; [by eapply exec_inv|].
  destruct a; simpl in He; rewrite ?Hc in He; try done.
  - destruct (process s); try done; try (case_decide; [|]); try done; injection He as <-; simpl.
    + split; [by eexists|]. by apply lookup_app_l_Some.
    + split; [by eexists|done].
    + split; [by eexists|done].
    + split; [eexists|]; destruct (close_chan (ch_closed s)); done.
  - destruct (tasks s !! t0) as [[]|] eqn:Ht0; try done. injection He as <-. simpl.
    split; [by eexists|]. rewrite list_lookup_insert_ne; [done|congruence].
  - destruct (tasks s !! t0) as [[|r0| | |]|] eqn:Ht0; try done.
    destruct (ch_closed s) eqn:Hcl; [|done]. destruct (closed_over s Hi Hcl) as (_&_&Hw).
    by destruct (no_work s t _ Hi Hw Ht).
  - destruct (tasks s !! t0) as [[]|] eqn:Ht0; try done.
    destruct (wg s); injection He as <-; simpl; (split; [by eexists|]);
      (rewrite list_lookup_insert_ne; [done|congruence]).
  - destruct (timer s); [done|]. injection He as <-. simpl. split; [by eexists|done].
Qed.

(** A response that nobody waits for any more, because [WaitForResponses] has given up
    or has enough, keeps its goroutine at the channel for ever, and with it
    [ProcessEchos] and the test. *)
Theorem late_echo_hangs s s' t r resps :
  reachable exec init s → collect s = CReturned resps → tasks s !! t = Some (TSend r) →
  reachable exec s s' → process s' ≠ PReturned ∧ tasks s' !! t = Some (TSend r).
Proof.
  intros Hr Hc Ht Hr'. destruct (unsent_stays s s' t r Hr) as (Hi&_&Ht'); [by eexists|done..|].
  split; [|done]. intros Hpc. pose proof (iv_process s' Hi) as Hpr. rewrite Hpc in Hpr.
  destruct Hpr as (_&_&Hw). by destruct (no_work s' t _ Hi Hw Ht').
Qed.

(** Every step uses something up. *)
Definition task_work (pc : task_pc) : nat :=
  match pc with TCall => 3 | TSend _ => 2 | TExit _ => 1 | TDone _ | TPanicked _ => 0 end.

Definition work (s : sys) : nat :=
  total task_work (tasks s) + 5 * (reqs - length (tasks s)) +
  match process s with PSpawn => 3 | PWait => 2 | PClose => 1 | _ => 0 end +
  match collect s with CLoop resps => 1 + Z.to_nat (limit - Z.of_nat (length resps)) | _ => 0 end +
  (if timer s then 0 else 1).

Lemma work_decreases a s s' : exec a s = Some s' → work s' < work s.
Proof.
  intros He. unfold work. destruct a; simpl in He.
  - destruct (process s) eqn:Hpc; try done.
    + case_decide; injection He as <-; simpl; [|lia]. rewrite total_snoc, length_app. simpl. lia.
    + case_decide; [|done]. injection He as <-. simpl. lia.
    + injection He as <-. destruct (close_chan (ch_closed s)); simpl; lia.
  - destruct (tasks s !! t) as [[]|] eqn:Ht; try done. injection He as <-. simpl. rewrite length_insert.
    pose proof (total_insert task_work _ _ _ (match r with Some r => TSend r | None => TExit None end) Ht).
    destruct r; simpl in *; lia.
  - destruct (tasks s !! t) as [[|r| | |]|] eqn:Ht; try done. destruct (ch_closed s).
    + injection He as <-. simpl. rewrite length_insert.
      pose proof (total_insert task_work _ _ _ (TPanicked CloseOfClosed) Ht). simpl in *. lia.
    + destruct (collect s) as [resps|] eqn:Hc; [|done]. destruct (room resps) eqn:Hroom; [|done].
      apply bool_decide_eq_true in Hroom. injection He as <-. simpl. rewrite length_insert, length_app.
      pose proof (total_insert task_work _ _ _ (TExit (Some r)) Ht). simpl in *. lia.
  - destruct (tasks s !! t) as [[| |r| |]|] eqn:Ht; try done.
    destruct (wg s); injection He as <-; simpl; rewrite length_insert;
      [pose proof (total_insert task_work _ _ _ (TPanicked NegativeWaitGroup) Ht)
      |pose proof (total_insert task_work _ _ _ (TDone r) Ht)]; simpl in *; lia.
  - destruct (collect s) as [resps|] eqn:Hc; [|done]. destruct (room resps) eqn:Hroom; [|done].
    apply bool_decide_eq_true in Hroom. destruct (ch_closed s); [|done]. injection He as <-. simpl.
    rewrite length_app. simpl. lia.
  - destruct (timer s); [done|]. injection He as <-. simpl. lia.
  - destruct (collect s) as [resps|] eqn:Hc; [|done]. destruct (room resps && timer s); [|done].
    injection He as <-. simpl. lia.
  - destruct (collect s) as [resps|] eqn:Hc; [|done]. destruct (room resps); [done|].
    injection He as <-. simpl. lia.
Qed.

Lemma run_bounded acts s s' : run exec acts s = Some s' → length acts + work s' ≤ work s.
Proof.
  revert s. induction acts as [|a acts IH]; intros s Hr; simpl in *; [by simplify_eq|].
  apply bind_Some in Hr as (s1&He&Hr). apply work_decreases in He. apply IH in Hr. lia.
Qed.

(** A task that is at work can move, or waits for a receiver. *)
Lemma working_task s : inv s → wg s ≠ 0 →
  ∃ t pc, tasks s !! t = Some pc ∧ alive pc = 1.
Proof.
  intros Hi. rewrite (iv_wg s Hi). generalize (tasks s). intros l Hl.
  induction l as [|pc l IH]; [done|]. destruct (alive pc) eqn:Ha.
  - simpl in Hl. rewrite Ha in Hl. destruct (IH Hl) as (t&pc'&?&?). by exists (S t), pc'.
  - exists 0, pc. split; [done|]. destruct pc; simpl in *; lia.
Qed.

(** C38: Every run of a test is finite, and when it can do nothing more, whatever the timer,
    [WaitForResponses] has returned, and so has [ProcessEchos] unless a response was
    left that nobody waited for. *)
Theorem echos_end acts s :
  run exec acts init = Some s →
  length acts ≤ 5 * reqs + Z.to_nat limit + 5 ∧
  (only_enabled exec (λ a, a = TimerFires) s →
     (∃ resps, collect s = CReturned resps) ∧
     (process s = PReturned ∨ ∃ t r, tasks s !! t = Some (TSend r))).
Proof.
  intros Hr. split.
  { apply run_bounded in Hr. unfold work in Hr at 2. simpl in Hr. lia. }
  intros Hstuck. apply run_reachable, reachable_inv in Hr as Hi.
  pose proof Hi as [_ Hp Hn Hpr _ _].
  assert (∀ a, a ≠ TimerFires → exec a s = None) as Hno.
  { intros a Ha. destruct (exec a s) eqn:He; [|done]. by apply Hstuck in He. }
  assert (process s = PReturned ∨ (∃ t r, tasks s !! t = Some (TSend r)) ∧ ch_closed s = false) as Hproc.
  { pose proof (Hno Process ltac:(done)) as He. simpl in He. destruct (process s) eqn:Hpc; try done.
    - by case_decide.
    - case_decide as Hw; [done|]. right. destruct Hpr as [Hcl _]. split; [|done].
      destruct (working_task s Hi Hw) as (t&pc&Ht&Ha). destruct pc; try done.
      + specialize (Hno (CallReturns t None) ltac:(done)). simpl in Hno. by rewrite Ht in Hno.
      + by exists t, resp.
      + specialize (Hno (Done t) ltac:(done)). simpl in Hno. rewrite Ht in Hno. by destruct (wg s).
    - by left. }
  split; [|destruct Hproc as [?|[? _]]; auto].
  destruct (collect s) as [resps|resps] eqn:Hc; [|by eexists]. exfalso.
  pose proof (Hno Return ltac:(done)) as He. simpl in He. rewrite Hc in He.
  destruct (room resps) eqn:Hroom; [|done]. destruct Hproc as [Hpc|[(t&r&Ht) Hcl]].
  - rewrite Hpc in Hpr. destruct Hpr as (Hcl&_). specialize (Hno ReceiveClosed ltac:(done)). simpl in Hno.
    by rewrite Hc, Hroom, Hcl in Hno.
  - specialize (Hno (Send t) ltac:(done)). simpl in Hno. by rewrite Ht, Hcl, Hc, Hroom in Hno.
Qed.
End Collect.

Section EchoTheorems.
Context {U : Type} `{ProtoLib U, EchoMessages U}.

(** How long [Echo] sleeps: the delay asked for, up to about 292 years; beyond, the
    product overflows, and one millisecond more is no delay at all. *)
Theorem echo_sleeps_bounds req :
  int64_ok (DelayMs req) →
  (0 ≤ (Echo_sleeps req).1 < 2^63)%Z ∧
  ((0 ≤ DelayMs req ≤ 9223372036854)%Z → (Echo_sleeps req).1 = DelayMs req * Millisecond)%Z ∧
  (DelayMs req = 9223372036855 → (Echo_sleeps req).1 = 0)%Z.
Proof.
  intros Hd. unfold Echo_sleeps, echo_delay. simpl. rewrite (wrap64_id (DelayMs req)) by done.
  pose proof (wrap64_ok (DelayMs req * Millisecond)) as Hw. unfold int64_ok in *.
  split_and!; [case_bool_decide; lia|case_bool_decide; lia| |].
  - intros Hr. unfold Millisecond. case_bool_decide; [|lia].
    rewrite wrap64_id by (unfold int64_ok; lia). lia.
  - intros ->. by vm_compute.
Qed.

(** The context of a request: its peer is the key that the request names, and calls
    without one carry none. *)
Theorem echo_ctx_peer (req : EchoReq (U:=U)) :
  Peer.FromContext (echo_ctx req) =
    match req_PubKey req with Some pk => (Some (Peer.mkPeer pk), true) | None => (None, false) end.
Proof.
  unfold echo_ctx. destruct (req_PubKey req); [|by case_bool_decide].
  by case_bool_decide.
Qed.
End EchoTheorems.

Section SetupTheorems.
Context {Signer : Type} (signer_of : bytes → Signer) (CreateCertificate : Signer → outcome bytes)
  (Eventually : (nat → bool) → option nat).

(** What [require.Eventually] reports is the first check that succeeded. *)
Hypothesis Eventually_first : ∀ f n, Eventually f = Some n → f n = true.

(** The set-up of the tests: with keys as [ed25519.GenerateKey] makes them, every key
    has its static form, and once the port is free the server has a certificate and
    lists the first client's key. *)
Theorem test_setup {Listener} GenerateKey (listen : nat → outcome Listener) h n :
  heap_ok h → no_creds_panic CreateCertificate →
  (∀ i, ∃ pub priv, GenerateKey i = Ok (pub, priv) ∧ static_key pub ∧ length priv = PrivateKeySize) →
  (∀ s, ∃ cert, CreateCertificate s = Ok cert) →
  Eventually (λ n, is_ok (listen n)) = Some n →
  ∃ ks lis o h', GenerateKeys GenerateKey = Ok ks ∧
    Forall (λ kp, StaticallySizedPublicKey kp = Ok (PubKey kp)) [Server ks; Client1 ks; Client2 ks] ∧
    listen n = Ok lis ∧
    SetupServer signer_of CreateCertificate Eventually listen
      [OptCreds (PrivKey (Server ks)) [PubKey (Client1 ks)]] h = Ok (lis, (o, h')) ∧
    ∃ cert, creds_are RequireAnyClientCert (Some (cert, [PubKey (Client1 ks)])) (creds o) h'.
Proof.
  intros Hh Hc Hgen Hcert Hev.
  destruct (Hgen 0) as (p0&k0&Hg0&Hp0&Hk0), (Hgen 1) as (p1&k1&Hg1&Hp1&_), (Hgen 2) as (p2&k2&Hg2&Hp2&_).
  apply Eventually_first in Hev as Hok. apply is_ok_exists in Hok as [lis Hlis].
  destruct (apply_server_options_spec signer_of CreateCertificate [OptCreds k0 [p1]] defaultServerOptions h None
    Hh Hc eq_refl) as (o&h'&Ha&Hck&_).
  destruct (Hcert (signer_of k0)) as [cert Hce].
  exists (mkKeys (mkKeypair p0 k0) (mkKeypair p1 k1) (mkKeypair p2 k2)), lis, o, h'.
  split_and!; [| |done| |].
  - unfold GenerateKeys. rewrite Hg0. simpl. rewrite Hg1. simpl. by rewrite Hg2.
  - repeat constructor; by apply ToStatic_id.
  - unfold SetupServer. rewrite Hev, Hlis. simpl. unfold NewServer. by rewrite Ha.
  - exists cert. revert Hck. unfold sets_creds, signer_of_key, ValidPrivateKeyFromEd25519, accepted. simpl.
    rewrite Hk0. unfold static_key in Hp1. rewrite Hp1. simpl. by rewrite Hce.
Qed.

(** A test goes on after [WaitForReadyConnection] only if the connection was not shut
    down and was seen READY. *)
Theorem wait_for_ready GetState :
  WaitForReadyConnection Eventually GetState = Ok tt →
  GetState 0 ≠ Connectivity.Shutdown ∧ ∃ n, GetState n = Connectivity.Ready.
Proof.
  unfold WaitForReadyConnection. case_decide; [done|].
  destruct (Eventually _) as [n|] eqn:He; [|done]. intros _. split; [done|].
  apply Eventually_first, bool_decide_eq_true in He. by eexists.
Qed.
End SetupTheorems.

(** ** Witnesses: two calls of which one fails, with a collector that wants both *)

Definition w_exec := exec (R:=string) 2 2.
Definition w_run : list (action (R:=string)) :=
  [Process; Process; CallReturns 1 (Some "call2"); CallReturns 0 None; Send 1; Done 1; Process;
   Done 0; Process; Process; ReceiveClosed; Return].
Definition w_end := final w_exec w_run init.

Lemma echos_collected_witness :
  ∃ l k, [Some "call2"; None] = (Some <$> l) ++ replicate k None ∧ l ≡ₚ ["call2"].
Proof.
  destruct (echos_collected 2 2 w_end [Some "call2"; None]) as (l&k&Hl&Hp&_); [at_state|at_state|].
  exists l, k. split; [exact Hl|exact Hp].
Defined.

Lemma echos_safe_witness : length (tasks w_end) = 2.
Proof. destruct (echos_safe 2 2 w_end) as (_&_&_&H); [at_state|]. apply H. vm_compute. reflexivity. Defined.

(** The timer fires before the second call returns. *)
Definition w_late := final w_exec
  [Process; Process; Process; TimerFires; TimerBreak; CallReturns 1 (Some "late")] init.

Lemma late_echo_hangs_witness : process w_late ≠ PReturned.
Proof.
  refine (proj1 (late_echo_hangs 2 2 w_late w_late 1 "late" [] _ _ _ _)); [at_state..|].
  apply rtc_refl.
Defined.

Lemma echos_end_witness : length w_run ≤ 17 ∧ ∃ resps, collect w_end = CReturned resps.
Proof.
  destruct (echos_end 2 2 w_run w_end) as [H1 H2]; [vm_compute; reflexivity|]. split; [exact H1|].
  apply H2. intros a s' Ha. destruct a as [|[|[|t]] r|[|[|t]]|[|[|t]]| | | |]; vm_compute in Ha; congruence.
Defined.

#[export] Instance w_echo : EchoMessages (string * Z) :=
  {| EchoRequest b d := (b, d); EchoResponse b := (b, 0%Z); Body := fst; DelayMs := snd |}.

#[export] Instance w_lib : ProtoLib (string * Z) :=
  {| MarshalMessage _ := Err ""; MarshalUser _ := Err ""; UnmarshalMessage _ := Err ""; UnmarshalUser _ _ := Err "" |}.

Lemma echo_sleeps_bounds_witness :
  (Echo_sleeps (EchoRequest "call1" 500)).1 = 500000000%Z ∧
  (Echo_sleeps (EchoRequest "call1" 9223372036855)).1 = 0%Z.
Proof.
  destruct (echo_sleeps_bounds (EchoRequest "call1" 500)) as (_&H1&_); [split; vm_compute; congruence|].
  destruct (echo_sleeps_bounds (EchoRequest "call1" 9223372036855)) as (_&_&H2); [split; vm_compute; congruence|].
  split; [apply H1; split; vm_compute; congruence|apply H2; reflexivity].
Defined.

Definition w_eventually (f : nat → bool) : option nat := if f 3 then Some 3 else None.
Lemma w_eventually_first f n : w_eventually f = Some n → f n = true.
Proof. unfold w_eventually. destruct (f 3) eqn:E; [|done]. by intros [= <-]. Qed.

Definition w_listen (n : nat) : outcome nat := if decide (n = 3) then Ok 7 else Err "in use".

Lemma test_setup_witness :
  ∃ o h', SetupServer toy_signer toy_create w_eventually w_listen
    [OptCreds (key1 ++ key1) [key1]] heap0 = Ok (7, (o, h')).
Proof.
  destruct (test_setup toy_signer toy_create w_eventually w_eventually_first
    (λ _, Ok (key1, key1 ++ key1)) w_listen heap0 3) as (ks&lis&o&h'&Hks&_&Hl&Hs&_).
  - exact heap0_ok.
  - exact w_create_no_panic.
  - intros i. exists key1, (key1 ++ key1). split_and!; reflexivity.
  - intros s. exists s. reflexivity.
  - reflexivity.
  - vm_compute in Hl. injection Hl as <-. injection Hks as <-. exists o, h'. exact Hs.
Defined.
End TestUtils.
