(* ===== verification/ClientPumps.v ===== *)
(** The client's connection of [AddrConn] with the transports it dials, pumps and all.

    [AddrConn] sees of a transport its callback, and that [Close] was called on it.
    Here every transport is a [Transport] of its own: a successful dial starts it, its
    write pump runs the [afterWritePump] callback when it returns, [teardown] calls its
    [Close] and waits for both pumps, and its messages go to the goroutines in
    [handleRead]. *)
From S2P Require Import Prelude Connectivity StateManager Transport AddrConn.

Module ClientPumps.
Import Transport.

Record sys := mkSys { ac : AddrConn.sys; pumps : gmap nat tr }.

Definition init : sys := mkSys AddrConn.init ∅.

Inductive action :=
  | Ac (a : AddrConn.action)                (* a step of the connection's own goroutines *)
  | Pump (tr : nat) (a : Transport.action)  (* a step of a transport's goroutines *)
  | Read (r : nat).                         (* [in := <-tr.Read()] in [handleRead] *)

(** The steps of the transport that go with a step of the connection's goroutines: its
    write pump ends when the callback it runs does, and [teardown] calls [Close], here
    number 0, and gets its return. *)
Definition moves (a : AddrConn.action) (s : AddrConn.sys) : option (nat * Transport.action) :=
  match a with
  | AddrConn.Callback tr =>
      match AddrConn.cbs s !! tr with
      | Some AddrConn.CbFire => Some (tr, PumpEvent PDefer)
      | _ => None
      end
  | AddrConn.Teardown =>
      match AddrConn.td s with
      | AddrConn.DClose (Some tr) => Some (tr, Close 0)
      | AddrConn.DWaitTr tr => Some (tr, CloseReturn 0)
      | _ => None
      end
  | _ => None
  end.

(** The callback is called by a write pump that returns. *)
Definition may (a : AddrConn.action) (s : sys) : bool :=
  match a with
  | AddrConn.Callback tr =>
      match AddrConn.cbs (ac s) !! tr, pumps s !! tr with
      | Some AddrConn.CbLive, Some p => match wp p with WExit => true | _ => false end
      | Some AddrConn.CbLive, None => false
      | _, _ => true
      end
  | _ => true
  end.

(** [newWebsocketClient] starts the pumps of the transport it dialled. *)
Definition started (a : AddrConn.action) (ps : gmap nat tr) : gmap nat tr :=
  match a with
  | AddrConn.Reset (AddrConn.Dialled (Some tr)) => <[tr := Transport.init]> ps
  | _ => ps
  end.

Definition pump_alone (a : Transport.action) : bool :=
  match a with Close _ | CloseReturn _ | Receive | PumpEvent PDefer => false | _ => true end.

Definition exec (a : action) (s : sys) : option sys :=
  match a with
  | Ac a =>
      if may a s then
        ac' ← AddrConn.exec a (ac s);
        match moves a (ac s) with
        | Some (tr, b) =>
            p ← pumps s !! tr; p' ← Transport.exec ClientSide b p;
            Some (mkSys ac' (<[tr := p']> (pumps s)))
        | None => Some (mkSys ac' (started a (pumps s)))
        end
      else None
  | Pump tr a =>
      if pump_alone a then
        p ← pumps s !! tr; p' ← Transport.exec ClientSide a p; Some (mkSys (ac s) (<[tr := p']> (pumps s)))
      else None
  | Read r =>
      pc ← AddrConn.readers (ac s) !! r;
      match pc with
      | AddrConn.HrRead tr =>
          p ← pumps s !! tr; p' ← Transport.exec ClientSide Receive p;
          Some (mkSys (ac s) (<[tr := p']> (pumps s)))
      | _ => None
      end
  end.

(** ** What holds of the connection alone

    Who holds the lock, and which transports there are. *)
Record conn_inv (s : AddrConn.sys) : Prop := mkConnInv {
  ci_inv : AddrConn.inv s;
  ci_mu : match AddrConn.mu s with
    | Some AddrConn.TReset => AddrConn.rs_holds (AddrConn.rs s) = true
    | Some AddrConn.TDown => ∃ cur, AddrConn.td s = AddrConn.DPub cur
    | Some (AddrConn.TCallback tr) => AddrConn.cbs s !! tr = Some AddrConn.CbPub
    | None => True
    end;
  ci_closed : AddrConn.td s ≠ AddrConn.DNone → AddrConn.closed_cc s = true;
  ci_transport tr : AddrConn.transport s = Some tr → is_Some (AddrConn.cbs s !! tr);
  ci_dialled tr : AddrConn.rs s = AddrConn.RDialled tr → is_Some (AddrConn.cbs s !! tr);
  ci_taken tr : AddrConn.td s = AddrConn.DPub (Some tr) ∨ AddrConn.td s = AddrConn.DClose (Some tr) →
    is_Some (AddrConn.cbs s !! tr);
  ci_tr_closed : match AddrConn.td s with
    | AddrConn.DWaitTr tr => AddrConn.tr_closed s = {[tr]}
    | AddrConn.DWait | AddrConn.DDown => True
    | _ => AddrConn.tr_closed s = ∅
    end;
  ci_known tr : tr ∈ AddrConn.tr_closed s → is_Some (AddrConn.cbs s !! tr);
}.

Lemma client_conn_init : conn_inv AddrConn.init.
Proof. split; simpl; try done; [apply AddrConn.addrconn_init_inv|]. by intros tr []. Qed.

(** Settle one field after a step. *)
Ltac conn_field :=
  try match goal with |- context [StateManager.updateState ?x ?m] =>
    destruct (StateManager.updateState x m) end;
  intros; simpl in *;
  repeat match goal with
  | H : _ ∨ _ |- _ => destruct H
  | H : ∃ _, _ |- _ => destruct H
  | |- context [match AddrConn.mu ?s with _ => _ end] => destruct (AddrConn.mu s) as [[| |?]|] eqn:?
  | E : AddrConn.rs ?s = _, H : AddrConn.rs ?s = _ |- _ => rewrite E in H
  end; simplify_eq/=; try done;
  try match goal with |- AddrConn.tr_closed ?s = ∅ => destruct (AddrConn.td s) eqn:? end;
  try match goal with H : AddrConn.td ?s ≠ _ → _, E : AddrConn.td ?s = _ |- _ =>
    rewrite E in H; specialize (H ltac:(done)) end;
  try match goal with H : _ ≠ AddrConn.DNone → false = true |- _ => specialize (H ltac:(done)) end;
  try match goal with |- context [<[?t := _]> _ !! ?u] =>
    first [ rewrite lookup_insert_eq
          | destruct (decide (t = u)) as [->|]; [rewrite lookup_insert_eq|rewrite lookup_insert_ne by done] ] end;
  try match goal with E : AddrConn.rs ?s = _ |- context [AddrConn.rs ?s] => rewrite E end;
  try (exfalso; congruence); first [done | congruence | by eexists | by eauto | idtac].

Lemma client_conn_step a s s' : conn_inv s → AddrConn.exec a s = Some s' → conn_inv s'.
Proof.
  intros Hc He. split; [by eapply AddrConn.addrconn_exec_inv; [apply Hc|]|..];
    pose proof (AddrConn.iv_rs _ (ci_inv _ Hc)) as Hrs;
    pose proof (AddrConn.iv_td _ (ci_inv _ Hc)) as Htd;
    pose proof (AddrConn.iv_cb _ (ci_inv _ Hc)) as Hcb;
    destruct Hc as [_ Hmu Hcl Htr Hdl Htk Htc Hkn].
  - destruct a; AddrConn.ac_step He; conn_field.
  - destruct a; AddrConn.ac_step He; conn_field.
  - destruct a; AddrConn.ac_step He; conn_field.
  - destruct a; AddrConn.ac_step He; conn_field.
  - destruct a; AddrConn.ac_step He; conn_field.
  - destruct a; AddrConn.ac_step He; conn_field. by rewrite Htc, (right_id_L ∅ (∪)).
  - destruct a; AddrConn.ac_step He; conn_field. apply elem_of_union in H as [->%elem_of_singleton|H]; eauto.
Qed.

(** ** The two views of a transport *)

#[export] Instance cb_pc_eq_dec : EqDecision AddrConn.cb_pc.
Proof. solve_decision. Defined.

Record linked (closed waiting : bool) (pc : AddrConn.cb_pc) (p : tr) : Prop := mkLinked {
  lk_reach : reachable (Transport.exec ClientSide) Transport.init p;
  lk_crash : crash p = None;
  lk_done : pc = AddrConn.CbDone ↔ wp p = WDone;
  lk_exit : pc ≠ AddrConn.CbLive → wp p = WExit ∨ wp p = WDone;
  lk_close : closeConn p = closed;
  lk_closers : closers p = if closed then {[0 := if waiting then CWait else CReturned]} else ∅;
  lk_wg : closed = true → waiting = false → wg p = 0;
}.

Definition view_closed (tr : nat) (s : AddrConn.sys) : bool := bool_decide (tr ∈ AddrConn.tr_closed s).
Definition view_waiting (tr : nat) (s : AddrConn.sys) : bool :=
  match AddrConn.td s with AddrConn.DWaitTr tr' => bool_decide (tr' = tr) | _ => false end.

Record inv (s : sys) : Prop := mkInv {
  in_conn : conn_inv (ac s);
  in_dom tr : is_Some (pumps s !! tr) ↔ is_Some (AddrConn.cbs (ac s) !! tr);
  in_link tr pc p : AddrConn.cbs (ac s) !! tr = Some pc → pumps s !! tr = Some p →
    linked (view_closed tr (ac s)) (view_waiting tr (ac s)) pc p;
}.

Lemma client_linked_init : linked false false AddrConn.CbLive Transport.init.
Proof. by split. Qed.

(** A step of a transport that neither closes it nor ends its write pump. *)
Lemma linked_step cl w pc a p p' :
  linked cl w pc p → pump_alone a = true ∨ a = Receive → Transport.exec ClientSide a p = Some p' →
  linked cl w pc p'.
Proof.
  intros [Hr Hc Hd He Hcl Hcs Hw] Ha Hp.
  assert (reachable (Transport.exec ClientSide) Transport.init p') as Hr'
    by (eapply rtc_r; [done|by exists a]).
  pose proof (ctl_read _ _ (transport_reachable_ctl _ _ Hr)) as Hread.
  split; [done|..]; destruct Ha as [Ha|Ha]; destruct a; try done; tr_step Hp;
    repeat match goal with E : wp _ = _ |- _ => rewrite E in *; revert E
                      | E : rp _ = _ |- _ => rewrite E in *; revert E end; intros; simpl in *;
    intuition (congruence || lia || done).
Qed.

(** What [may] lets the callback find. *)
Lemma callback_step tr s s' :
  AddrConn.exec (AddrConn.Callback tr) s = Some s' →
  ∃ pc pc', AddrConn.cbs s !! tr = Some pc ∧ AddrConn.cbs s' = <[tr := pc']> (AddrConn.cbs s) ∧
    AddrConn.td s' = AddrConn.td s ∧ AddrConn.tr_closed s' = AddrConn.tr_closed s ∧
    pc' ≠ AddrConn.CbLive ∧ (pc' = AddrConn.CbDone ↔ pc = AddrConn.CbFire) ∧ pc ≠ AddrConn.CbDone.
Proof. intros He. AddrConn.ac_step He; do 2 eexists; split_and!; done. Qed.

Lemma other_step a s s' :
  conn_inv s → AddrConn.exec a s = Some s' →
  match a with
  | AddrConn.Callback _ | AddrConn.Teardown => True
  | AddrConn.Reset (AddrConn.Dialled (Some tr)) =>
      AddrConn.cbs s !! tr = None ∧ AddrConn.cbs s' = <[tr := AddrConn.CbLive]> (AddrConn.cbs s) ∧
      AddrConn.td s' = AddrConn.td s ∧ AddrConn.tr_closed s' = AddrConn.tr_closed s
  | _ => AddrConn.cbs s' = AddrConn.cbs s ∧ AddrConn.tr_closed s' = AddrConn.tr_closed s ∧
      ∀ tr, view_waiting tr s' = view_waiting tr s
  end.
Proof.
  intros Hc He. pose proof (ci_closed _ Hc) as Hcl. unfold view_waiting.
  destruct a; try done; try (AddrConn.ac_step He; by split_and!).
  - AddrConn.ac_step He; try (by split_and!); (split_and!; [done..|]); intros tr;
      by destruct (AddrConn.td s); try (specialize (Hcl ltac:(done)); congruence).
  - AddrConn.ac_step He; try (by split_and!). destruct (StateManager.updateState _ _); by split_and!.
Qed.

Lemma teardown_step s s' :
  conn_inv s → AddrConn.exec AddrConn.Teardown s = Some s' →
  AddrConn.cbs s' = AddrConn.cbs s ∧
  match AddrConn.td s with
  | AddrConn.DClose (Some tr) => AddrConn.tr_closed s = ∅ ∧ AddrConn.tr_closed s' = {[tr]} ∧
      AddrConn.td s' = AddrConn.DWaitTr tr ∧ is_Some (AddrConn.cbs s !! tr)
  | AddrConn.DWaitTr tr => AddrConn.tr_closed s = {[tr]} ∧ AddrConn.tr_closed s' = {[tr]} ∧
      AddrConn.td s' = AddrConn.DWait
  | _ => AddrConn.tr_closed s' = AddrConn.tr_closed s ∧ ∀ tr, view_waiting tr s = false ∧ view_waiting tr s' = false
  end.
Proof.
  intros Hc He. pose proof (ci_tr_closed _ Hc) as Htc. pose proof (ci_taken _ Hc) as Htk.
  unfold view_waiting. AddrConn.ac_step He; split_and!; try done.
  - by rewrite Htc, (right_id_L ∅ (∪)).
  - apply Htk. auto.
Qed.

(** ** The invariant is kept *)

Definition views_same (s s' : AddrConn.sys) (tr : nat) : Prop :=
  view_closed tr s' = view_closed tr s ∧ view_waiting tr s' = view_waiting tr s.

(** One transport and its view change. *)
Lemma inv_set tr s ac' pc' p' :
  inv s → conn_inv ac' → AddrConn.cbs ac' = <[tr := pc']> (AddrConn.cbs (ac s)) →
  (∀ t, t ≠ tr → views_same (ac s) ac' t) →
  linked (view_closed tr ac') (view_waiting tr ac') pc' p' →
  inv (mkSys ac' (<[tr := p']> (pumps s))).
Proof.
  intros Hi Hc Hcb Hv Hl. split; simpl; [done| |].
  - intros t. rewrite Hcb, !lookup_insert_is_Some, (in_dom _ Hi). done.
  - intros t pc p. rewrite Hcb, !lookup_insert_Some.
    intros [[<- <-]|[Hne Ht]] [[? <-]|[Hne' Hp]]; try done.
    destruct (Hv t) as [-> ->]; [done|]. by apply (in_link _ Hi).
Qed.

(** None does. *)
Lemma inv_same s ac' :
  inv s → conn_inv ac' → AddrConn.cbs ac' = AddrConn.cbs (ac s) → (∀ t, views_same (ac s) ac' t) →
  inv (mkSys ac' (pumps s)).
Proof.
  intros Hi Hc Hcb Hv. split; simpl; [done|intros t; rewrite Hcb; apply Hi|].
  intros t pc p. rewrite Hcb. destruct (Hv t) as [-> ->]. apply Hi.
Qed.

Lemma views_eq s s' t :
  AddrConn.td s' = AddrConn.td s → AddrConn.tr_closed s' = AddrConn.tr_closed s → views_same s s' t.
Proof. unfold views_same, view_closed, view_waiting. by intros -> ->. Qed.

Lemma linked_callback cl w pc pc' p :
  linked cl w pc p → (pc = AddrConn.CbLive → wp p = WExit) → pc ≠ AddrConn.CbDone →
  pc' ≠ AddrConn.CbLive → pc' ≠ AddrConn.CbDone → linked cl w pc' p.
Proof.
  intros [Hr Hc Hd He Hcl Hcs Hw] Hlive Hpc Hpc1 Hpc2. split; try done.
  - split; [done|]. intros Hdone%Hd. done.
  - intros _. destruct (decide (pc = AddrConn.CbLive)) as [->|Hn]; [left; auto|auto].
Qed.

Lemma linked_callback_end cl w p p' :
  linked cl w AddrConn.CbFire p → Transport.exec ClientSide (PumpEvent PDefer) p = Some p' →
  linked cl w AddrConn.CbDone p'.
Proof.
  intros [Hr Hc Hd He Hcl Hcs Hw] Hp.
  assert (reachable (Transport.exec ClientSide) Transport.init p') as Hr'
    by (eapply rtc_r; [done|by exists (PumpEvent PDefer)]).
  destruct He as [Hx|Hx%Hd]; [done| |done].
  simpl in Hp. unfold client_writePump in Hp. rewrite Hx in Hp. injection Hp as <-.
  split; simpl; try done; [by right|]. intros H1 H2. by rewrite (Hw H1 H2).
Qed.

Lemma client_linked_close pc p p' :
  linked false false pc p → Transport.exec ClientSide (Close 0) p = Some p' → linked true true pc p'.
Proof.
  intros [Hr Hc Hd He Hcl Hcs Hw] Hp.
  assert (reachable (Transport.exec ClientSide) Transport.init p') as Hr'
    by (eapply rtc_r; [done|by exists (Close 0)]).
  simpl in Hp. unfold client_Close in Hp. rewrite Hcs, Hcl, lookup_empty in Hp. simpl in Hp.
  injection Hp as <-. split; simpl; try done. by rewrite Hcs, insert_empty.
Qed.

Lemma linked_returned pc p p' :
  linked true true pc p → Transport.exec ClientSide (CloseReturn 0) p = Some p' →
  linked true false pc p'.
Proof.
  intros [Hr Hc Hd He Hcl Hcs Hw] Hp.
  assert (reachable (Transport.exec ClientSide) Transport.init p') as Hr'
    by (eapply rtc_r; [done|by exists (CloseReturn 0)]).
  simpl in Hp. rewrite Hcs, lookup_singleton_eq in Hp. case_decide; [|done]. injection Hp as <-.
  split; simpl; try done. by rewrite Hcs, insert_singleton_eq.
Qed.

Lemma callback_case tr s s' : inv s → exec (Ac (AddrConn.Callback tr)) s = Some s' → inv s'.
Proof.
  intros Hi He. unfold exec in He. destruct (may _ s) eqn:Hm; [|done].
  apply bind_Some in He as (ac'&Ha&He). pose proof (client_conn_step _ _ _ (in_conn _ Hi) Ha) as Hc'.
  destruct (callback_step _ _ _ Ha) as (pc&pc'&Hpc&Hcb&Htd&Hcl&Hlive&Hdone&Hnd).
  destruct (proj2 (in_dom _ Hi tr) ltac:(by eexists)) as [p Hp].
  pose proof (in_link _ Hi tr pc p Hpc Hp) as Hl.
  pose proof (λ t, views_eq (ac s) ac' t Htd Hcl) as Hv.
  unfold moves in He. rewrite Hpc in He. destruct (decide (pc = AddrConn.CbFire)) as [->|Hnf].
  - simpl in He. rewrite Hp in He. simpl in He. apply bind_Some in He as (p'&Hp'&[= <-]).
    assert (pc' = AddrConn.CbDone) as -> by by apply Hdone.
    apply (inv_set tr s ac' AddrConn.CbDone p' Hi Hc' Hcb); [by intros|].
    destruct (Hv tr) as [-> ->]. by eapply linked_callback_end.
  - assert (s' = mkSys ac' (pumps s)) as -> by (destruct pc; simpl in He; congruence).
    rewrite <- (insert_id (pumps s) tr p) by done.
    apply (inv_set tr s ac' pc' p Hi Hc' Hcb); [by intros|].
    destruct (Hv tr) as [-> ->]. apply (linked_callback _ _ pc); [done| |done|done|by intros ?%Hdone].
    intros ->. simpl in Hm. rewrite Hpc, Hp in Hm. by destruct (wp p).
Qed.

Lemma teardown_case s s' : inv s → exec (Ac AddrConn.Teardown) s = Some s' → inv s'.
Proof.
  intros Hi He. unfold exec, may in He. apply bind_Some in He as (ac'&Ha&He).
  pose proof (client_conn_step _ _ _ (in_conn _ Hi) Ha) as Hc'.
  destruct (teardown_step _ _ (in_conn _ Hi) Ha) as [Hcb Hs].
  assert (∀ tr pc p p', AddrConn.cbs (ac s) !! tr = Some pc → pumps s !! tr = Some p →
    (∀ t, t ≠ tr → views_same (ac s) ac' t) →
    linked (view_closed tr ac') (view_waiting tr ac') pc p' → inv (mkSys ac' (<[tr := p']> (pumps s)))) as Hset.
  { intros tr pc p p' Hpc Hp Hv Hl. eapply inv_set; try done. by rewrite insert_id. }
  unfold moves in He.
  destruct (AddrConn.td (ac s)) as [| |cur|[tr|]|tr| |] eqn:Htd.
  4: { destruct Hs as (H1&H2&H3&[pc Hpc]). simpl in He. apply bind_Some in He as (p&Hp&He).
       apply bind_Some in He as (p'&Hp'&[= <-]). apply (Hset tr pc p p' Hpc Hp).
       - intros t Hne. unfold views_same, view_closed, view_waiting. rewrite H1, H2, H3, Htd.
         split; apply bool_decide_ext || apply bool_decide_eq_false; set_solver.
       - unfold view_closed, view_waiting. rewrite H2, H3, !bool_decide_true by set_solver.
         eapply client_linked_close; [|done]. pose proof (in_link _ Hi tr pc p Hpc Hp) as Hl.
         unfold view_closed, view_waiting in Hl. by rewrite Htd, H1, bool_decide_false in Hl by set_solver. }
  5: { destruct Hs as (H1&H2&H3). simpl in He. apply bind_Some in He as (p&Hp&He).
       apply bind_Some in He as (p'&Hp'&[= <-]).
       destruct (proj1 (in_dom _ Hi tr) ltac:(by eexists)) as [pc Hpc]. apply (Hset tr pc p p' Hpc Hp).
       - intros t Hne. unfold views_same, view_closed, view_waiting. rewrite H1, H2, H3, Htd.
         split; [done|]. by rewrite bool_decide_false.
       - unfold view_closed, view_waiting. rewrite H2, H3, bool_decide_true by set_solver.
         eapply linked_returned; [|done]. pose proof (in_link _ Hi tr pc p Hpc Hp) as Hl.
         unfold view_closed, view_waiting in Hl. by rewrite Htd, H1, !bool_decide_true in Hl by set_solver. }
  all: simpl in He; injection He as <-; destruct Hs as [H1 H2]; apply (inv_same s ac' Hi Hc' Hcb);
    intros t; destruct (H2 t) as [Hw1 Hw2]; split; [unfold view_closed; by rewrite H1|congruence].
Qed.

Lemma other_case a s s' :
  inv s → match a with AddrConn.Callback _ | AddrConn.Teardown => False | _ => True end →
  exec (Ac a) s = Some s' → inv s'.
Proof.
  intros Hi Hn He. unfold exec in He. destruct (may a s); [|done].
  apply bind_Some in He as (ac'&Ha&He). pose proof (client_conn_step _ _ _ (in_conn _ Hi) Ha) as Hc'.
  pose proof (other_step _ _ _ (in_conn _ Hi) Ha) as Ho.
  destruct (moves a (ac s)) as [[tr b]|] eqn:Hm; [by destruct a|]. injection He as <-.
  destruct a; try done; simpl.
  2: destruct e as [|[tr|]| |]; simpl.
  3: { destruct Ho as (Hnone&Hcb&Htd&Hcl).
       apply (inv_set tr s ac' AddrConn.CbLive Transport.init Hi Hc' Hcb); [by intros; apply views_eq|].
       destruct (views_eq (ac s) ac' tr Htd Hcl) as [-> ->].
       assert (view_closed tr (ac s) = false ∧ view_waiting tr (ac s) = false) as [-> ->];
         [|apply client_linked_init].
       pose proof (ci_known _ (in_conn _ Hi)) as Hk. unfold view_closed, view_waiting. split.
       - apply bool_decide_eq_false. intros Hin%Hk. rewrite Hnone in Hin. by destruct Hin.
       - pose proof (ci_tr_closed _ (in_conn _ Hi)) as Htc. destruct (AddrConn.td (ac s)); try done.
         apply bool_decide_eq_false. intros ->. destruct (Hk tr) as [? ?]; [set_solver|congruence]. }
  all: destruct Ho as (Hcb&Hcl&Hw); apply (inv_same s ac' Hi Hc' Hcb); intros t;
    (split; [unfold view_closed; by rewrite Hcl|apply Hw]).
Qed.

Lemma client_exec_inv a s s' : inv s → exec a s = Some s' → inv s'.
Proof.
  intros Hi He. destruct a as [a|tr a|r].
  - pose proof (other_case a s s' Hi) as Ho. destruct a; first
      [exact (Ho I He)|exact (callback_case _ _ _ Hi He)|exact (teardown_case _ _ Hi He)].
  - simpl in He. destruct (pump_alone a) eqn:Ha; [|done].
    apply bind_Some in He as (p&Hp&He). apply bind_Some in He as (p'&Hp'&[= <-]).
    destruct (proj1 (in_dom _ Hi tr) ltac:(by eexists)) as [pc Hpc].
    eapply inv_set; [done|apply Hi|by rewrite insert_id|done|].
    eapply linked_step; [by apply (in_link _ Hi)|by left|done].
  - simpl in He. apply bind_Some in He as (pc&Hpc&He). destruct pc as [|tr|]; try done.
    apply bind_Some in He as (p&Hp&He). apply bind_Some in He as (p'&Hp'&[= <-]).
    destruct (proj1 (in_dom _ Hi tr) ltac:(by eexists)) as [pc Hpc'].
    eapply inv_set; [done|apply Hi|by rewrite insert_id|done|].
    eapply linked_step; [by apply (in_link _ Hi)|by right|done].
Qed.

Lemma client_init_inv : inv init.
Proof. split; simpl; [apply client_conn_init|by intros tr; split; intros [? ?]|]. intros tr pc p Hn. by apply lookup_empty_Some in Hn. Qed.

Lemma client_reachable_inv s : reachable exec init s → inv s.
Proof. apply reachable_invariant; [apply client_init_inv|apply client_exec_inv]. Qed.

(** ** The connection runs as it does alone *)

Lemma exec_conn a s s' :
  exec a s = Some s' → ac s' = ac s ∨ ∃ b, AddrConn.exec b (ac s) = Some (ac s').
Proof.
  intros He. destruct a as [a|tr a|r]; unfold exec in He.
  - destruct (may a s); [|done]. apply bind_Some in He as (ac'&Ha&He). right. exists a.
    destruct (moves a (ac s)) as [[tr b]|]; [|by injection He as <-].
    apply bind_Some in He as (p&_&He). by apply bind_Some in He as (p'&_&[= <-]).
  - destruct (pump_alone a); [|done]. apply bind_Some in He as (p&_&He).
    apply bind_Some in He as (p'&_&[= <-]). by left.
  - apply bind_Some in He as (pc&_&He). destruct pc as [|tr|]; try done.
    apply bind_Some in He as (p&_&He). apply bind_Some in He as (p'&_&[= <-]). by left.
Qed.

Lemma conn_reachable s : reachable exec init s → reachable AddrConn.exec AddrConn.init (ac s).
Proof.
  apply (reachable_invariant exec (λ s, reachable AddrConn.exec AddrConn.init (ac s))); [apply rtc_refl|].
  intros a s1 s2 Hr He. destruct (exec_conn _ _ _ He) as [->|[b Hb]]; [done|].
  by eapply rtc_r; [|exists b].
Qed.

(** ** A write pump that ended *)

Lemma stopped_step sd a p p' :
  stopped (wp p) = true → Transport.exec sd a p = Some p' → stopped (wp p') = true ∧ taken p' = taken p.
Proof.
  intros Hst He. destruct sd, a; tr_step He; repeat match goal with E : wp _ = _ |- _ => rewrite E in * end; done.
Qed.

(** It has, and takes no message any more. *)
Definition spent (tr : nat) (l : list nat) (s : sys) : Prop :=
  ∃ p, pumps s !! tr = Some p ∧ stopped (wp p) = true ∧ taken p = l.

Lemma spent_step tr l a s s' : inv s → spent tr l s → exec a s = Some s' → spent tr l s'.
Proof.
  intros Hi (p&Hp&Hst&Hl) He.
  assert (∀ tr' b q q' c, pumps s !! tr' = Some q → Transport.exec ClientSide b q = Some q' →
    spent tr l (mkSys c (<[tr' := q']> (pumps s)))) as Hset.
  { intros tr' b q q' c Hq Hq'. unfold spent. simpl. destruct (decide (tr' = tr)) as [->|Hne].
    - rewrite Hp in Hq. injection Hq as <-. destruct (stopped_step _ _ _ _ Hst Hq') as [? Ht].
      exists q'. rewrite lookup_insert_eq. split_and!; [done..|congruence].
    - exists p. by rewrite lookup_insert_ne. }
  destruct a as [a|tr' a|r]; unfold exec in He.
  - destruct (may a s); [|done]. apply bind_Some in He as (ac'&Ha&He).
    destruct (moves a (ac s)) as [[tr' b]|].
    + apply bind_Some in He as (q&Hq&He). apply bind_Some in He as (q'&Hq'&[= <-]). by eapply Hset.
    + injection He as <-. exists p. simpl. split; [|done]. unfold started. repeat case_match; try done. subst.
      rewrite lookup_insert_ne; [done|]. intros ->.
      destruct (proj1 (in_dom _ Hi tr) ltac:(by eexists)) as [pc Hpc]. AddrConn.ac_step Ha.
  - destruct (pump_alone a); [|done]. apply bind_Some in He as (q&Hq&He).
    apply bind_Some in He as (q'&Hq'&[= <-]). by eapply Hset.
  - apply bind_Some in He as (pc&_&He). destruct pc as [|tr'|]; try done.
    apply bind_Some in He as (q&Hq&He). apply bind_Some in He as (q'&Hq'&[= <-]). by eapply Hset.
Qed.

Lemma spent_stays tr l s s' : reachable exec init s → spent tr l s → reachable exec s s' → spent tr l s'.
Proof.
  intros Hr Hsp Hr'. apply (reachable_invariant exec (λ s, inv s ∧ spent tr l s) s); [by split; [apply client_reachable_inv|]| |done].
  intros a s1 s2 [Hi1 H1] He. split; [by eapply client_exec_inv|by eapply spent_step].
Qed.

(** So has that of a connection that is IDLE. *)
Lemma idle_spent tr s :
  reachable exec init s → AddrConn.st (ac s) = Connectivity.Idle → AddrConn.transport (ac s) = Some tr →
  ∃ l, spent tr l s.
Proof.
  intros Hr Hst Htr. pose proof (client_reachable_inv s Hr) as Hi.
  destruct (ci_transport _ (in_conn _ Hi) tr Htr) as [pc Hpc].
  pose proof (AddrConn.cbk_idle _ (AddrConn.addrconn_callbacks _ (conn_reachable s Hr)) tr Hst Htr) as Hl.
  destruct (proj2 (in_dom _ Hi tr) ltac:(by eexists)) as [p Hp].
  destruct (lk_exit _ _ _ _ (in_link _ Hi tr pc p Hpc Hp)) as [Hw|Hw]; [congruence|..];
    exists (taken p), p; by rewrite Hw.
Qed.

(** ** Theorems *)

(** The client's connection with its transports' pumps runs as [AddrConn] says, and
    what it sees of a transport is what the transport is: the connection's own state is
    one that [AddrConn] reaches; it has a callback for exactly the transports there are;
    a transport is one that [Transport] reaches, whose goroutines never panic; its
    callback is done exactly if its write pump ran it, once; [Close] was called on it
    exactly if [teardown] did; and after [curTr.Close()] returned both its pumps have. *)
Theorem client_pumps_refine s :
  reachable exec init s →
  reachable AddrConn.exec AddrConn.init (ac s) ∧
  (∀ tr, is_Some (pumps s !! tr) ↔ is_Some (AddrConn.cbs (ac s) !! tr)) ∧
  ∀ tr pc p, AddrConn.cbs (ac s) !! tr = Some pc → pumps s !! tr = Some p →
    reachable (Transport.exec ClientSide) Transport.init p ∧ crash p = None ∧
    (pc = AddrConn.CbDone ↔ afters p = 1) ∧
    (closeConn p = true ↔ tr ∈ AddrConn.tr_closed (ac s)) ∧
    (AddrConn.td (ac s) = AddrConn.DWait ∨ AddrConn.td (ac s) = AddrConn.DDown →
      tr ∈ AddrConn.tr_closed (ac s) → rp p = RExited ∧ wp p = WDone).
Proof.
  intros Hr. pose proof (client_reachable_inv s Hr) as Hi.
  split; [by apply conn_reachable|]. split; [apply Hi|]. intros tr pc p Hpc Hp.
  destruct (in_link _ Hi tr pc p Hpc Hp) as [Hreach Hc Hd _ Hcl _ Hw].
  pose proof (transport_reachable_ctl _ _ Hreach) as Hctl.
  unfold view_closed, view_waiting in *. split_and!; [done..| |by rewrite Hcl, bool_decide_eq_true|].
  - rewrite Hd, (ctl_after _ _ Hctl). by destruct (wp p).
  - intros Htd Hin. pose proof (ctl_wg _ _ Hctl eq_refl) as Hwg.
    rewrite Hw in Hwg; [|by apply bool_decide_true|by destruct Htd as [-> | ->]].
    destruct (rp p), (wp p); simpl in Hwg; first [lia|done].
Qed.

(** A connection that was dialled, used and closed. *)
Definition w_conn (l : list AddrConn.action) : list action := Ac <$> l.
Definition w_closed : sys :=
  final exec (w_conn [AddrConn.Connect; AddrConn.Publish; AddrConn.ListenChange; AddrConn.Connect;
      AddrConn.Reset AddrConn.Go; AddrConn.Reset (AddrConn.Dialled (Some 7)); AddrConn.Reset AddrConn.Go;
      AddrConn.Publish; AddrConn.ListenChange; AddrConn.Reset AddrConn.Go] ++
    [Pump 7 (Transport.Write 1 [x01]); Pump 7 (PumpEvent (PTake 1)); Pump 7 (PumpEvent (PWrote true))] ++
    w_conn [AddrConn.CallClose; AddrConn.Teardown; AddrConn.PublishCancelled; AddrConn.Teardown; AddrConn.Teardown] ++
    [Pump 7 (PumpEvent (PClosed true)); Pump 7 (ReadEvent ReadErr); Pump 7 (PumpEvent PLingered)] ++
    w_conn [AddrConn.Callback 7; AddrConn.Callback 7; AddrConn.Callback 7; AddrConn.Callback 7; AddrConn.Teardown]) init.

Lemma client_pumps_refine_witness :
  reachable AddrConn.exec AddrConn.init (ac w_closed) ∧
  ∃ p, pumps w_closed !! 7 = Some p ∧ rp p = RExited ∧ wp p = WDone ∧ wire p = [[x01]].
Proof.
  destruct (client_pumps_refine w_closed) as (Hr&_&Hl); [at_state|]. split; [exact Hr|].
  exists (default Transport.init (pumps w_closed !! 7)). split; [at_state|].
  destruct (Hl 7 AddrConn.CbDone (default Transport.init (pumps w_closed !! 7))) as (_&_&_&_&He);
    [at_state|at_state|]. destruct He as [H1 H2]; [left; at_state| |split; [exact H1|split; [exact H2|at_state]]].
  apply (bool_decide_unpack _). vm_compute. exact I.
Defined.
End ClientPumps.
