(* ===== verification/ClientClose.v ===== *)
(** [ClientConn.Close] with the transports' pumps: when it returns, and when it cannot.

    [teardown] waits in [curTr.Close()] for both pumps of the transport it took, and
    then for [resetTransport].  The read pump hands a message over by an unbuffered send
    with no other way out, and [cc.cancel()] has sent the goroutines that receive it
    home before. *)
From S2P Require Import Prelude Connectivity StateManager Transport AddrConn ClientPumps.

Module ClientClose.
Import Transport ClientPumps.

(** ** When [teardown] waits for a transport *)

(** The read pump is in [c.read <- msg] and no [handleRead] is left that receives from
    it: the goroutines that were there returned when [cc.cancel] was called. *)
Definition abandoned (tr : nat) (s : sys) : Prop :=
  ∃ p m, pumps s !! tr = Some p ∧ rp p = RSend m ∧
    ∀ r, AddrConn.readers (ac s) !! r ≠ Some (AddrConn.HrRead tr).

Lemma waiting_conn tr s :
  inv s → AddrConn.td (ac s) = AddrConn.DWaitTr tr →
  AddrConn.closed_cc (ac s) = true ∧ AddrConn.ac_done (ac s) = true ∧ AddrConn.st (ac s) = Connectivity.Shutdown ∧
  is_Some (pumps s !! tr) ∧ AddrConn.tr_closed (ac s) = {[tr]} ∧ AddrConn.transport (ac s) = None ∧
  AddrConn.starting (AddrConn.rs (ac s)) = false.
Proof.
  intros Hi Htd. pose proof (in_conn _ Hi) as Hc. pose proof (ci_inv _ Hc) as Hs.
  assert (AddrConn.td (ac s) ≠ AddrConn.DNone) as Hn by congruence.
  pose proof (ci_tr_closed _ Hc) as Htr. rewrite Htd in Htr.
  assert (AddrConn.st (ac s) = Connectivity.Shutdown) as Hst
    by (apply (AddrConn.iv_down _ Hs); by rewrite Htd).
  split_and!; [by apply Hc|rewrite (AddrConn.iv_ctx _ Hs); by apply (AddrConn.iv_done _ Hs)|done| |done|
    by apply (AddrConn.iv_shut _ Hs)|by apply (AddrConn.iv_start _ Hs)].
  apply (in_dom _ Hi), (ci_known _ Hc). rewrite Htr. set_solver.
Qed.

Lemma linked_of tr s p :
  inv s → pumps s !! tr = Some p →
  ∃ pc, AddrConn.cbs (ac s) !! tr = Some pc ∧
    linked (view_closed tr (ac s)) (view_waiting tr (ac s)) pc p.
Proof.
  intros Hi Hp. destruct (proj1 (in_dom _ Hi tr) ltac:(by eexists)) as [pc Hpc].
  exists pc. split; [done|]. by apply (in_link _ Hi).
Qed.

(** Nobody starts to read from the old transport once [Close] was called. *)
Lemma readers_step a tr s s' :
  AddrConn.closed_cc s = true → (∀ r, AddrConn.readers s !! r ≠ Some (AddrConn.HrRead tr)) →
  AddrConn.exec a s = Some s' → ∀ r, AddrConn.readers s' !! r ≠ Some (AddrConn.HrRead tr).
Proof.
  intros Hc Hn He r. specialize (Hn r). destruct a; AddrConn.ac_step He;
    try (destruct (StateManager.updateState _ _); simpl); try done;
    rewrite lookup_insert_Some; naive_solver congruence.
Qed.

Lemma waiting_step a tr s s' :
  AddrConn.td s = AddrConn.DWaitTr tr → AddrConn.closed_cc s = true → a ≠ AddrConn.Teardown →
  AddrConn.exec a s = Some s' → AddrConn.td s' = AddrConn.DWaitTr tr.
Proof.
  intros Htd Hc Ha He. destruct a; try done; AddrConn.ac_step He; try congruence.
  by destruct (StateManager.updateState _ _).
Qed.

Lemma send_stays sd a m p p' :
  rp p = RSend m → a ≠ Receive → Transport.exec sd a p = Some p' → rp p' = RSend m.
Proof. intros Hm Ha He. destruct sd, a; try done; tr_step He; congruence. Qed.

#[local] Instance teardown_dec a : Decision (a = AddrConn.Teardown).
Proof. destruct a; first [by left|by right]. Defined.

Lemma abandoned_step a tr s s' :
  inv s → AddrConn.td (ac s) = AddrConn.DWaitTr tr → abandoned tr s → exec a s = Some s' →
  AddrConn.td (ac s') = AddrConn.DWaitTr tr ∧ abandoned tr s'.
Proof.
  intros Hi Htd (p&m&Hp&Hm&Hr) He. destruct (waiting_conn tr s Hi Htd) as (Hcl&_).
  destruct (linked_of tr s p Hi Hp) as (pc&Hpc&Hl).
  pose proof (transport_reachable_ctl _ _ (lk_reach _ _ _ _ Hl)) as Hctl.
  destruct a as [a|tr' a|r]; unfold exec in He.
  - destruct (may a s); [|done]. apply bind_Some in He as (ac'&Ha&He).
    destruct (decide (a = AddrConn.Teardown)) as [->|Hne].
    { unfold moves in He. rewrite Htd, Hp in He. simpl in He.
      destruct (closers p !! 0) as [[]|]; try done. case_decide as Hz; [|done].
      rewrite (ctl_wg _ _ Hctl eq_refl), Hm in Hz. simpl in Hz. lia. }
    pose proof (waiting_step a tr _ _ Htd Hcl Hne Ha) as Htd'.
    pose proof (readers_step a tr _ _ Hcl Hr Ha) as Hr'.
    destruct (moves a (ac s)) as [[tr' b]|] eqn:Hb.
    + apply bind_Some in He as (q&Hq&He). apply bind_Some in He as (q'&Hq'&[= <-]). split; [done|].
      destruct (decide (tr' = tr)) as [->|Htr'].
      * exists q', m. simpl. rewrite lookup_insert_eq. split_and!; [done| |done].
        rewrite Hp in Hq. injection Hq as <-. eapply send_stays; [done| |exact Hq'].
        intros ->. unfold moves in Hb. repeat case_match; congruence.
      * exists p, m. simpl. by rewrite lookup_insert_ne.
    + injection He as <-. split; [done|]. exists p, m. simpl. split_and!; [|done..].
      unfold started. repeat case_match; try done. subst. rewrite lookup_insert_ne; [done|].
      intros ->. AddrConn.ac_step Ha.
  - destruct (pump_alone a) eqn:Ha; [|done]. apply bind_Some in He as (q&Hq&He).
    apply bind_Some in He as (q'&Hq'&[= <-]). split; [done|].
    destruct (decide (tr' = tr)) as [->|Htr'].
    + exists q', m. simpl. rewrite lookup_insert_eq. split_and!; [done| |done].
      rewrite Hp in Hq. injection Hq as <-. eapply send_stays; [done| |exact Hq']. by intros ->.
    + exists p, m. simpl. by rewrite lookup_insert_ne.
  - apply bind_Some in He as (pc'&Hpc'&He). destruct pc' as [|tr'|]; try done.
    apply bind_Some in He as (q&Hq&He). apply bind_Some in He as (q'&Hq'&[= <-]). split; [done|].
    assert (tr' ≠ tr) as Hne by (intros ->; by apply (Hr r)).
    exists p, m. simpl. by rewrite lookup_insert_ne.
Qed.

Lemma abandoned_stays tr s s' :
  reachable exec init s → AddrConn.td (ac s) = AddrConn.DWaitTr tr → abandoned tr s →
  reachable exec s s' → AddrConn.td (ac s') = AddrConn.DWaitTr tr.
Proof.
  intros Hr Htd Ha Hr'. pose proof (client_reachable_inv s Hr) as Hi.
  apply (reachable_invariant exec (λ s, inv s ∧ AddrConn.td (ac s) = AddrConn.DWaitTr tr ∧ abandoned tr s) s);
    [done| |done].
  intros a s1 s2 (Hi1&Htd1&Ha1) He. destruct (abandoned_step a tr s1 s2 Hi1 Htd1 Ha1 He).
  split_and!; [by eapply client_exec_inv|done..].
Qed.

(** ** [teardown] goes on

    Each lemma takes the goroutines it needs some steps further. *)
Lemma run_inv acts s s' : inv s → run exec acts s = Some s' → inv s'.
Proof.
  intros Hi Hr%run_reachable. by apply (reachable_invariant exec inv s); [|apply client_exec_inv|].
Qed.

(** [s'] is [s] with the lock free and the pumps of [tr] further. *)
Record later (tr : nat) (s s' : sys) : Prop := mkLater {
  lt_inv : inv s';
  lt_td : AddrConn.td (ac s') = AddrConn.td (ac s);
  lt_rs : AddrConn.rs (ac s') = AddrConn.rs (ac s);
  lt_mu : AddrConn.mu (ac s') = None;
  lt_readers : AddrConn.readers (ac s') = AddrConn.readers (ac s);
}.

(** Who holds the lock gives it back: it can only be a callback. *)
Lemma lock_released tr s :
  inv s → AddrConn.td (ac s) = AddrConn.DWaitTr tr →
  ∃ acts s', run exec acts s = Some s' ∧ length acts ≤ 2 ∧ later tr s s' ∧
    pumps s' = pumps s.
Proof.
  intros Hi Htd. destruct (waiting_conn tr s Hi Htd) as (Hcl&Hd&Hst&_&_&_&Hstart).
  pose proof (ci_mu _ (in_conn _ Hi)) as Hmu. pose proof (ci_inv _ (in_conn _ Hi)) as Hs.
  pose proof (AddrConn.iv_st _ Hs) as Hrs. rewrite Hst in Hrs.
  destruct (AddrConn.mu (ac s)) as [[| |tr']|] eqn:Hm.
  - by destruct (AddrConn.rs (ac s)).
  - destruct Hmu as [cur Hc]. congruence.
  - assert (∀ c, AddrConn.cbs c = AddrConn.cbs (ac s) → AddrConn.pub c = None →
      exec (Ac (AddrConn.Callback tr')) (mkSys c (pumps s)) =
        Some (mkSys (AddrConn.set_mu None (AddrConn.set_cb tr' AddrConn.CbFire c)) (pumps s))) as Hcb.
    { intros c Hc Hp. unfold exec, may, moves. simpl. rewrite Hc, Hmu. simpl.
      unfold AddrConn.sent. by rewrite Hp. }
    destruct (AddrConn.pub (ac s)) as [x|] eqn:Hp.
    + pose proof (Hcb (AddrConn.set_pub None (ac s)) eq_refl eq_refl) as H2.
      assert (exec (Ac AddrConn.PublishCancelled) s = Some (mkSys (AddrConn.set_pub None (ac s)) (pumps s))) as H1
        by (unfold exec; simpl; by rewrite Hp, Hd).
      exists [Ac AddrConn.PublishCancelled; Ac (AddrConn.Callback tr')]. eexists.
      rewrite (run_step _ _ _ _ _ H1), (run_step _ _ _ _ _ H2).
      split_and!; [done|simpl; lia| |done..]. split; [|done..]. eapply client_exec_inv; [|exact H2]. by eapply client_exec_inv.
    + pose proof (Hcb (ac s) eq_refl Hp) as H2.
      assert (s = mkSys (ac s) (pumps s)) as Hss by by destruct s. rewrite <- Hss in H2.
      exists [Ac (AddrConn.Callback tr')]. eexists. rewrite (run_step _ _ _ _ _ H2).
      split_and!; [done|simpl; lia| |done..]. split; [|done..]. by eapply client_exec_inv.
  - exists [], s. split_and!; [done|simpl; lia|by split|done..].
Qed.

Lemma pump_exec tr a p p' s :
  pumps s !! tr = Some p → pump_alone a = true → Transport.exec ClientSide a p = Some p' →
  exec (Pump tr a) s = Some (mkSys (ac s) (<[tr := p']> (pumps s))).
Proof. intros Hp Ha He. unfold exec. rewrite Ha, Hp. simpl. by rewrite He. Qed.

Lemma client_pump_run tr acts p p' s :
  pumps s !! tr = Some p → Forall (λ a, pump_alone a = true) acts →
  run (Transport.exec ClientSide) acts p = Some p' →
  run exec (Pump tr <$> acts) s = Some (mkSys (ac s) (<[tr := p']> (pumps s))).
Proof.
  revert p s. induction acts as [|a acts IH]; intros p s Hp Ha Hr.
  - injection Hr as <-. simpl. rewrite insert_id by done. by destruct s.
  - apply Forall_cons in Ha as [Ha Has].
    change (Transport.exec ClientSide a p ≫= run (Transport.exec ClientSide) acts = Some p') in Hr.
    apply bind_Some in Hr as (p1&Hp1&Hr). rewrite fmap_cons, (run_step _ _ _ _ _ (pump_exec _ _ _ _ _ Hp Ha Hp1)).
    rewrite (IH p1 (mkSys (ac s) (<[tr:=p1]> (pumps s))) ltac:(by apply lookup_insert_eq) Has Hr).
    simpl. by rewrite insert_insert_eq.
Qed.

(** A closed transport's write pump comes to its end. *)
Lemma write_pump_ends p :
  ctl ClientSide p → closeConn p = true →
  ∃ acts p', run (Transport.exec ClientSide) acts p = Some p' ∧ (wp p' = WExit ∨ wp p' = WDone) ∧
    rp p' = rp p ∧ length acts ≤ 2 ∧ Forall (λ a, pump_alone a = true) acts.
Proof.
  intros Hc Hcl. destruct (wp p) eqn:Hw.
  - exists [PumpEvent (PClosed true); PumpEvent PLingered]. eexists. simpl. rewrite Hw, Hcl. simpl.
    split_and!; [done|by left|done|lia|by repeat constructor].
  - exists [PumpEvent (PWrote false)]. eexists. simpl. rewrite Hw. simpl.
    split_and!; [done|by left|done|lia|by repeat constructor].
  - exists [PumpEvent PLingered]. eexists. simpl. rewrite Hw. simpl.
    split_and!; [done|by left|done|lia|by repeat constructor].
  - exists [], p. simpl. split_and!; [done|by left|done|lia|by constructor].
  - destruct (ctl_callback _ _ Hc Hw). done.
  - exists [], p. simpl. split_and!; [done|by right|done|lia|by constructor].
Qed.

(** And a read pump that is in [ReadMessage]. *)
Lemma read_pump_ends p :
  ctl ClientSide p → rp p = RRead ∨ rp p = RExited →
  ∃ acts p', run (Transport.exec ClientSide) acts p = Some p' ∧ rp p' = RExited ∧ wp p' = wp p ∧
    length acts ≤ 1 ∧ Forall (λ a, pump_alone a = true) acts.
Proof.
  intros Hc [Hr|Hr].
  - exists [ReadEvent ReadErr]. eexists. simpl. pose proof (ctl_read _ _ Hc) as Hcw. rewrite Hr in Hcw |- *.
    rewrite Hcw. simpl. split_and!; [done..|lia|by repeat constructor].
  - exists [], p. simpl. split_and!; [done..|lia|by constructor].
Qed.

(** Both pumps have returned, or the write pump is in its callback. *)
Definition settled (tr : nat) (s : sys) : Prop :=
  ∃ p, pumps s !! tr = Some p ∧ (wp p = WExit ∨ wp p = WDone) ∧ rp p = RExited.

(** The callback, from each of its points, with the lock free. *)
Lemma callback_runs tr s :
  inv s → AddrConn.td (ac s) = AddrConn.DWaitTr tr → AddrConn.mu (ac s) = None → settled tr s →
  ∃ acts s', run exec acts s = Some s' ∧ length acts ≤ 4 ∧ later tr s s' ∧
    AddrConn.cbs (ac s') !! tr = Some AddrConn.CbDone ∧ settled tr s'.
Proof.
  intros Hi Htd Hmu (p&Hp&Hw&Hr). destruct (waiting_conn tr s Hi Htd) as (_&_&Hst&_).
  pose proof (AddrConn.free_pub _ (ci_inv _ (in_conn _ Hi)) Hmu) as Hpub.
  destruct (linked_of tr s p Hi Hp) as (pc&Hpc&Hl).
  assert (pc ≠ AddrConn.CbPub) as Hnp.
  { intros ->. apply (AddrConn.iv_cb _ (ci_inv _ (in_conn _ Hi))) in Hpc. congruence. }
  set (n := match pc with AddrConn.CbLive => 4 | AddrConn.CbLock => 3 | AddrConn.CbFire => 1 | _ => 0 end).
  exists (repeat (Ac (AddrConn.Callback tr)) n).
  assert (∃ s', run exec (repeat (Ac (AddrConn.Callback tr)) n) s = Some s' ∧
    AddrConn.td (ac s') = AddrConn.td (ac s) ∧ AddrConn.rs (ac s') = AddrConn.rs (ac s) ∧
    AddrConn.mu (ac s') = None ∧ AddrConn.readers (ac s') = AddrConn.readers (ac s) ∧
    AddrConn.cbs (ac s') !! tr = Some AddrConn.CbDone ∧ settled tr s')
    as (s'&Hs'&?&?&?&?&?&?).
  { assert (pc ≠ AddrConn.CbDone → wp p = WExit) as Hexit.
    { intros Hn. destruct Hw as [Hw|Hw]; [done|]. by apply (lk_done _ _ _ _ Hl) in Hw. }
    destruct pc; try done; simpl in n; subst n; try specialize (Hexit ltac:(done)); simpl;
      repeat (unfold may, moves, AddrConn.lock, AddrConn.sent, AddrConn.updateConnectivityState; simpl;
        rewrite ?Hpc, ?lookup_insert_eq, ?Hp; simpl; rewrite ?Hexit, ?Hmu, ?Hpub, ?Hst; simpl);
      eexists; (split; [done|]); simpl; rewrite ?lookup_insert_eq; split_and!; try done;
      unfold settled; simpl; rewrite ?lookup_insert_eq; eexists;
      (split_and!; [done|first [by right|exact Hw]|done]). }
  exists s'. split_and!; [done| |split; [by eapply run_inv|done..]|done..].
  rewrite repeat_length. subst n. destruct pc; lia.
Qed.

(** [resetTransport] of a connection that was torn down returns. *)
Lemma reset_exits c :
  AddrConn.ac_done c = true → AddrConn.st c = Connectivity.Shutdown → AddrConn.mu c = None →
  AddrConn.rs_holds (AddrConn.rs c) = false → AddrConn.starting (AddrConn.rs c) = false →
  AddrConn.rs c = AddrConn.RExited ∨ ∃ e c',
    (∀ ps, exec (Ac (AddrConn.Reset e)) (mkSys c ps) = Some (mkSys c' ps)) ∧
    AddrConn.td c' = AddrConn.td c ∧ AddrConn.readers c' = AddrConn.readers c ∧
    AddrConn.rs c' = AddrConn.RExited.
Proof.
  intros Hd Hst Hmu Hh Hs. destruct (AddrConn.rs c) eqn:Hpc; try done; [right..|by left].
  1,2,4: exists AddrConn.Go. 4,5: exists AddrConn.Cancelled.
  all: eexists; split; [intros ps; unfold exec; simpl; unfold AddrConn.resetTransport; rewrite Hpc;
    unfold AddrConn.lock; simpl;
    rewrite ?Hmu, ?Hd; simpl; rewrite ?Hst; done|done].
Qed.

(** [Close] has its pumps: [teardown] waits for [resetTransport], and returns. *)
Lemma teardown_returns tr s :
  inv s → AddrConn.td (ac s) = AddrConn.DWaitTr tr → AddrConn.mu (ac s) = None → settled tr s →
  AddrConn.cbs (ac s) !! tr = Some AddrConn.CbDone →
  ∃ acts s', run exec acts s = Some s' ∧ length acts ≤ 3 ∧ AddrConn.td (ac s') = AddrConn.DDown ∧
    AddrConn.readers (ac s') = AddrConn.readers (ac s).
Proof.
  intros Hi Htd Hmu (p&Hp&Hw&Hr) Hcb.
  destruct (waiting_conn tr s Hi Htd) as (_&Hd&Hst&_&Htc&_&Hstart).
  pose proof (AddrConn.free_rs _ (ci_inv _ (in_conn _ Hi)) Hmu) as Hrs.
  pose proof (in_link _ Hi tr _ p Hcb Hp) as Hl.
  unfold view_closed, view_waiting in Hl. rewrite Htd, Htc, !bool_decide_true in Hl by set_solver.
  assert (wg p = 0) as Hwg.
  { rewrite (ctl_wg _ _ (transport_reachable_ctl _ _ (lk_reach _ _ _ _ Hl)) eq_refl), Hr.
    by rewrite (proj1 (lk_done _ _ _ _ Hl) eq_refl). }
  assert (∃ ps, exec (Ac AddrConn.Teardown) s = Some (mkSys (AddrConn.set_td AddrConn.DWait (ac s)) ps))
    as [ps H1].
  { eexists. unfold exec, may, moves. simpl. unfold AddrConn.teardown. rewrite Htd, Hcb. simpl. rewrite Hp. simpl.
    rewrite (lk_closers _ _ _ _ Hl), lookup_singleton_eq. by rewrite decide_True. }
  assert (∀ c, AddrConn.td c = AddrConn.DWait → AddrConn.rs c = AddrConn.RExited →
    exec (Ac AddrConn.Teardown) (mkSys c ps) = Some (mkSys (AddrConn.set_td AddrConn.DDown c) ps)) as H3.
  { intros c Hc1 Hc2. unfold exec, may, moves. simpl. unfold AddrConn.teardown. by rewrite Hc1, Hc2. }
  set (c := AddrConn.set_td AddrConn.DWait (ac s)) in *.
  destruct (reset_exits c) as [Hpc|(e&c'&He&Htd'&Hrd'&Hpc)]; [done..| |].
  - exists [Ac AddrConn.Teardown; Ac AddrConn.Teardown]. eexists.
    rewrite (run_step _ _ _ _ _ H1), (run_step _ _ _ _ _ (H3 c eq_refl Hpc)).
    split_and!; [done|simpl; lia|done|done].
  - exists [Ac AddrConn.Teardown; Ac (AddrConn.Reset e); Ac AddrConn.Teardown]. eexists.
    rewrite (run_step _ _ _ _ _ H1), (run_step _ _ _ _ _ (He ps)), (run_step _ _ _ _ _ (H3 c' Htd' Hpc)).
    split_and!; [done|simpl; lia|done|simpl; by rewrite Hrd'].
Qed.

#[local] Existing Instance AddrConn.hr_pc_eq_dec.

(** A [handleRead] that is left takes the message the read pump holds. *)
Lemma message_taken tr p s :
  pumps s !! tr = Some p → ¬ abandoned tr s →
  ∃ acts p', run exec acts s = Some (mkSys (ac s) (<[tr := p']> (pumps s))) ∧ length acts ≤ 1 ∧
    (rp p' = RRead ∨ rp p' = RExited).
Proof.
  intros Hp Hna. destruct (rp p) as [|m|] eqn:Hrp.
  1,3: exists [], p; rewrite insert_id by done; destruct s; split_and!; [done|simpl; lia|rewrite Hrp; auto].
  destruct (decide (map_Exists (λ _ (pc : AddrConn.hr_pc), pc = AddrConn.HrRead tr) (AddrConn.readers (ac s)))) as [(r&?&Hr&->)|Hn].
  - exists [Read r], (set_rp RRead (add_delivered m p)).
    assert (exec (Read r) s = Some (mkSys (ac s) (<[tr := set_rp RRead (add_delivered m p)]> (pumps s)))) as He
      by (unfold exec; rewrite Hr; simpl; rewrite Hp; simpl; by rewrite Hrp).
    rewrite (run_step _ _ _ _ _ He). split_and!; [done|simpl; lia|by left].
  - exfalso. apply Hna. exists p, m. split_and!; [done..|].
    intros r Hr. apply Hn. by exists r, (AddrConn.HrRead tr).
Qed.

(** Then both pumps of the closed transport end. *)
Lemma pumps_settle tr p s :
  inv s → AddrConn.td (ac s) = AddrConn.DWaitTr tr → pumps s !! tr = Some p →
  rp p = RRead ∨ rp p = RExited →
  ∃ acts p', run exec acts s = Some (mkSys (ac s) (<[tr := p']> (pumps s))) ∧ length acts ≤ 3 ∧
    (wp p' = WExit ∨ wp p' = WDone) ∧ rp p' = RExited.
Proof.
  intros Hi Htd Hp Hr. destruct (waiting_conn tr s Hi Htd) as (_&_&_&_&Htc&_).
  destruct (linked_of tr s p Hi Hp) as (pc&_&Hl).
  pose proof (transport_reachable_ctl _ _ (lk_reach _ _ _ _ Hl)) as Hctl.
  destruct (write_pump_ends p) as (b1&p1&Hrun1&Hw1&Hr1&Hlen1&Ha1); [done| |].
  { rewrite (lk_close _ _ _ _ Hl). unfold view_closed. rewrite Htc. by apply bool_decide_true, elem_of_singleton. }
  assert (ctl ClientSide p1) as Hctl1.
  { apply transport_reachable_ctl. etrans; [apply Hl|by eapply run_reachable]. }
  destruct (read_pump_ends p1) as (b2&p2&Hrun2&Hr2&Hw2&Hlen2&Ha2); [done|by rewrite Hr1|].
  exists (Pump tr <$> (b1 ++ b2)), p2. split_and!; [|rewrite length_fmap, length_app; lia|by rewrite Hw2|done].
  apply (client_pump_run tr _ p p2); [done|by apply Forall_app|]. by rewrite (run_then _ _ _ _ _ Hrun1).
Qed.

Lemma close_returns_run tr s :
  inv s → AddrConn.td (ac s) = AddrConn.DWaitTr tr → ¬ abandoned tr s →
  ∃ acts s', run exec acts s = Some s' ∧ length acts ≤ 13 ∧ AddrConn.td (ac s') = AddrConn.DDown ∧
    AddrConn.readers (ac s') = AddrConn.readers (ac s).
Proof.
  intros Hi Htd Hna.
  destruct (lock_released tr s Hi Htd) as (acts0&s0&Hrun0&Hlen0&Hl0&Hps0).
  pose proof (lt_readers _ _ _ Hl0) as Hrd0.
  pose proof (lt_inv _ _ _ Hl0) as Hi0. pose proof (lt_td _ _ _ Hl0) as Htd0. rewrite Htd in Htd0.
  destruct (waiting_conn tr s0 Hi0 Htd0) as (_&_&_&[p Hp]&_).
  destruct (message_taken tr p s0 Hp) as (acts1&p1&Hrun1&Hlen1&Hr1).
  { unfold abandoned in *. by rewrite Hps0, Hrd0. }
  pose proof (run_inv _ _ _ Hi0 Hrun1) as Hi1.
  destruct (pumps_settle tr p1 _ Hi1 Htd0 (lookup_insert_eq _ _ _) Hr1) as (acts2&p2&Hrun2&Hlen2&Hw2&Hr2).
  pose proof (run_inv _ _ _ Hi1 Hrun2) as Hi2.
  destruct (callback_runs tr _ Hi2 Htd0 (lt_mu _ _ _ Hl0)) as (acts3&s3&Hrun3&Hlen3&Hl3&Hcb3&Hset3).
  { exists p2. split; [apply lookup_insert_eq|done]. }
  destruct (teardown_returns tr s3) as (acts4&s4&Hrun4&Hlen4&Hdown&Hrd4);
    [apply Hl3|by rewrite (lt_td _ _ _ Hl3)|apply Hl3|done|done|].
  exists (acts0 ++ acts1 ++ acts2 ++ acts3 ++ acts4), s4.
  rewrite (run_then _ _ _ _ _ Hrun0), (run_then _ _ _ _ _ Hrun1), (run_then _ _ _ _ _ Hrun2),
    (run_then _ _ _ _ _ Hrun3). split_and!; [done| |done|].
  - rewrite !length_app. lia.
  - by rewrite Hrd4, (lt_readers _ _ _ Hl3).
Qed.

(** The goroutines that only follow the connection run as they do in [AddrConn]. *)
Lemma listening_run acts s c :
  Forall AddrConn.listening acts → run AddrConn.exec acts (ac s) = Some c →
  run exec (Ac <$> acts) s = Some (mkSys c (pumps s)).
Proof.
  intros Hl. revert s. induction Hl as [|a acts Ha _ IH]; intros s Hr.
  - injection Hr as <-. by destruct s.
  - cbn [run] in Hr. apply bind_Some in Hr as (c1&Hc1&Hr). rewrite fmap_cons.
    rewrite (run_step _ _ _ _ (mkSys c1 (pumps s))); [by apply (IH (mkSys c1 (pumps s)))|].
    unfold exec. destruct a; try done; simpl in *; by rewrite Hc1.
Qed.

(** After [teardown], [Close] waits in [cc.wg.Wait()]: what follows the connection ends. *)
Lemma close_ends_run tr s :
  inv s → AddrConn.td (ac s) = AddrConn.DWaitTr tr → ¬ abandoned tr s →
  ∃ acts s', run exec acts s = Some s' ∧ length acts ≤ 19 + size (AddrConn.readers (ac s)) ∧
    AddrConn.td (ac s') = AddrConn.DDown ∧ AddrConn.listeners_over (ac s').
Proof.
  intros Hi Htd Hna. destruct (close_returns_run tr s Hi Htd Hna) as (acts&s1&Hrun&Hlen&Hd&Hrd).
  pose proof (in_conn _ (run_inv _ _ _ Hi Hrun)) as Hc.
  assert (AddrConn.td (ac s1) ≠ AddrConn.DNone) as Hn by congruence.
  destruct (AddrConn.listeners_end (ac s1)) as (c&(acts'&Hrun'&Hl&Hlen'&_&_&_&Htd')&Hover);
    [apply Hc|by apply Hc|by apply (AddrConn.iv_done _ (ci_inv _ Hc))|].
  exists (acts ++ (Ac <$> acts')), (mkSys c (pumps s1)).
  rewrite (run_then _ _ _ _ _ Hrun), (listening_run _ _ _ Hl Hrun').
  split_and!; [done| |by rewrite <- Hd|done]. rewrite length_app, length_fmap, <- Hrd. lia.
Qed.

(** ** Theorems *)

(** C23: When [ClientConn.Close] waits in [teardown] for its transport, the message in the
    read pump's hands decides.  Unless the pump is sending one that no [handleRead] is
    there to receive, the connection winds up in a bounded number of steps: the pumps and
    their callback end, [curTr.Close()] returns, [resetTransport] sees the end of the
    context and [teardown] returns; and of the goroutines that [Close] then waits for in
    [cc.wg], those that follow the connection end, too: both listeners and every
    [handleRead].  (That leaves those that handle requests and responses.)  If the pump
    is sending such a message, no run ever brings [teardown], and so [Close], further. *)
Theorem client_close_returns_or_hangs tr s :
  reachable exec init s → AddrConn.td (ac s) = AddrConn.DWaitTr tr →
  (¬ abandoned tr s →
    ∃ acts s', run exec acts s = Some s' ∧ length acts ≤ 19 + size (AddrConn.readers (ac s)) ∧
      AddrConn.td (ac s') = AddrConn.DDown ∧ AddrConn.listeners_over (ac s')) ∧
  (abandoned tr s → ∀ s', reachable exec s s' → AddrConn.td (ac s') = AddrConn.DWaitTr tr).
Proof.
  intros Hr Htd. split; [intros Hna; by apply (close_ends_run tr s); [by apply client_reachable_inv|..]|].
  intros Ha s' Hr'. by apply (abandoned_stays tr s s').
Qed.

(** A connection that is ready, with a [handleRead] on its transport. *)
Definition w_ready : list action :=
  w_conn [AddrConn.ListenRead 0; AddrConn.Connect; AddrConn.Publish; AddrConn.ListenChange; AddrConn.Connect;
    AddrConn.ListenRead 0; AddrConn.ListenRead 0; AddrConn.ListenRead 0;
    AddrConn.Reset AddrConn.Go; AddrConn.Reset (AddrConn.Dialled (Some 7)); AddrConn.Reset AddrConn.Go;
    AddrConn.Publish; AddrConn.ListenChange; AddrConn.Reset AddrConn.Go;
    AddrConn.ListenRead 0; AddrConn.ListenRead 0; AddrConn.Reader 0].

Definition w_teardown : list action :=
  w_conn [AddrConn.Teardown; AddrConn.PublishCancelled; AddrConn.Teardown; AddrConn.Teardown].

Definition w_message : list action := [Pump 7 (ReadEvent (ReadMsg [x01]))].

(** Closed while a message arrives: [handleRead] is gone before it takes it. *)
Definition w_hung : sys :=
  final exec (w_ready ++ w_message ++ w_conn [AddrConn.CallClose; AddrConn.Reader 0] ++ w_teardown) init.

(** Closed while [handleRead] is still there. *)
Definition w_closing : sys :=
  final exec (w_ready ++ w_message ++ w_conn [AddrConn.CallClose] ++ w_teardown) init.

Example w_hung_reachable : reachable exec init w_hung.
Proof. at_state. Qed.

Example w_hung_abandoned : AddrConn.td (ac w_hung) = AddrConn.DWaitTr 7 ∧ abandoned 7 w_hung.
Proof.
  split; [at_state|]. exists (default Transport.init (pumps w_hung !! 7)), [x01].
  split_and!; [at_state..|].
  assert (map_Forall (λ _ pc, pc ≠ AddrConn.HrRead 7) (AddrConn.readers (ac w_hung))) as Hall
    by (apply (bool_decide_unpack _); vm_compute; exact I).
  intros r Hr. by apply (Hall r _ Hr).
Qed.

(** [ClientConn.Close] can hang for ever.  On a ready connection a message arrives;
    [Close] cancels the context; the goroutine in [handleRead] returns instead of
    receiving the message; the read pump stays in its send, and [curTr.Close()], which
    waits for it, never returns, whatever happens next. *)
Theorem client_close_can_hang :
  ∃ s tr, reachable exec init s ∧ AddrConn.td (ac s) = AddrConn.DWaitTr tr ∧
    ∀ s', reachable exec s s' → AddrConn.td (ac s') = AddrConn.DWaitTr tr.
Proof.
  exists w_hung, 7. destruct w_hung_abandoned as [Htd Ha].
  split_and!; [exact w_hung_reachable|done|]. intros s' Hr. by apply (abandoned_stays 7 w_hung s' w_hung_reachable).
Qed.

Lemma client_close_returns_or_hangs_witness :
  (∃ acts s', run exec acts w_closing = Some s' ∧ length acts ≤ 20 ∧
    AddrConn.td (ac s') = AddrConn.DDown ∧ AddrConn.listeners_over (ac s')) ∧
  ∀ s', reachable exec w_hung s' → AddrConn.td (ac s') = AddrConn.DWaitTr 7.
Proof.
  split.
  - assert (size (AddrConn.readers (ac w_closing)) = 1) as Hsz by at_state.
    destruct (client_close_returns_or_hangs 7 w_closing) as [Hret _]; [at_state|at_state|].
    destruct Hret as (acts&s'&Hrun&Hlen&Hd&Hover).
    { intros (p&m&_&_&Hr). apply (Hr 0). at_state. }
    rewrite Hsz in Hlen. exists acts, s'. split_and!; [exact Hrun|exact Hlen|exact Hd|exact Hover].
  - apply (client_close_returns_or_hangs 7 w_hung); [at_state|at_state|].
    apply w_hung_abandoned.
Defined.
End ClientClose.
