(* ===== verification/ClientHandlers.v ===== *)
(** [ClientConn.handleMessageRequest] beside the connection of [AddrConn]: a request
    that a [handleRead] received is handled in a goroutine of its own, and its reply goes
    to the transport the connection has by then.

    The goroutine looks the transport up with [cc.addrConn.mu] and [tr.Write], with no
    check that either is there: [Close] sets the one to nil, a reconnect the other.  A
    panic of it ends the process. *)
From S2P Require Import Prelude Connectivity StateManager Message Peer Service Rpc AddrConn.

Module ClientHandlers.
Import Message Service.

Section Handlers.
Context {U : Type} `{ProtoLib U} {Impl : Type}.
(** [cc.service]. *)
Context (svc : option (serviceInfo U Impl)).

Inductive handler_pc :=
  | HRun                              (* handling the request *)
  | HReply (b : slice)                (* the reply is encoded; about to take the locks *)
  | HWrite (tr : nat) (b : slice)     (* in [tr.Write] *)
  | HDone.

Record handler := mkHandler { h_req : option Request; h_pc : handler_pc }.

Record sys := mkSys {
  ac : AddrConn.sys;
  handlers : gmap nat handler;
  died : option panic;     (* what ended the process *)
}.

Definition init : sys := mkSys AddrConn.init ∅ None.

Definition set_handler (h : nat) (x : handler) (pc : handler_pc) (s : sys) : sys :=
  mkSys (ac s) (<[h := mkHandler (h_req x) pc]> (handlers s)) (died s).
Definition die (p : panic) (s : sys) : sys := mkSys (ac s) (handlers s) (Some p).

Inductive action :=
  | Conn (a : AddrConn.action)
  | Start (r h : nat) (q : option Request)   (* [handleRead] number [r] received a request *)
  | Run (h : nat)                            (* the handler, and the encoding of what it returns *)
  | Reply (h : nat)                          (* the transport is looked up *)
  | Written (h : nat).                       (* [tr.Write] returned; its error is logged *)

(** The handling goroutine, from the method's handler to the return of [tr.Write]. *)
Definition handleMessageRequest (a : action) (h : nat) (x : handler) (s : sys) : option sys :=
  match a, h_pc x with
  | Run _, HRun => Some
      match client_handleMessageRequest svc (h_req x) with
      | Ok None | Err _ => set_handler h x HDone s
      | Ok (Some b) => set_handler h x (HReply b) s
      | Panic p => die p s
      end
  | Reply _, HReply b =>
      if AddrConn.closed_cc (ac s) then Some (die NilDeref s)
      else match AddrConn.mu (ac s) with
           | Some _ => None
           | None => Some
               match AddrConn.transport (ac s) with
               | Some tr => set_handler h x (HWrite tr b) s
               | None => die NilDeref s
               end
           end
  | Written _, HWrite tr b => Some (set_handler h x HDone s)
  | _, _ => None
  end.

Definition exec (a : action) (s : sys) : option sys :=
  match died s with
  | Some _ => None
  | None =>
      match a with
      | Conn a => ac' ← AddrConn.exec a (ac s); Some (mkSys ac' (handlers s) (AddrConn.crash ac'))
      | Start r h q =>
          match AddrConn.readers (ac s) !! r, handlers s !! h with
          | Some (AddrConn.HrRead _), None =>
              Some (mkSys (ac s) (<[h := mkHandler q HRun]> (handlers s)) None)
          | _, _ => None
          end
      | Run h | Reply h | Written h => x ← handlers s !! h; handleMessageRequest a h x s
      end
  end.

(** [cc.wg], which [Close] waits for, still counts the goroutine. *)
Definition counted (x : handler) : bool := match h_pc x with HDone => false | _ => true end.

(** It has a reply to send that it has not handed to [tr.Write] yet.  (One that is in
    [tr.Write] already owes nothing: its message may still go out.) *)
Definition owes (x : handler) : bool :=
  match h_pc x with
  | HRun => match client_handleMessageRequest svc (h_req x) with Ok (Some _) => true | _ => false end
  | HReply _ => true
  | _ => false
  end.

(** ** The transport and the state

    The connection has a transport exactly while it is READY, or IDLE after that. *)
Definition up (x : Connectivity.State) : bool :=
  match x with Connectivity.Ready | Connectivity.Idle => true | _ => false end.

Record conn_inv (s : AddrConn.sys) : Prop := mkConnInv {
  ci_inv : AddrConn.inv s;
  ci_transport : AddrConn.rs s ≠ AddrConn.RConnect →
    up (AddrConn.st s) = bool_decide (is_Some (AddrConn.transport s));
  ci_start : AddrConn.starting (AddrConn.rs s) = true → AddrConn.transport s = None;
  ci_reader r tr : AddrConn.readers s !! r = Some (AddrConn.HrRead tr) → AddrConn.starting (AddrConn.rs s) = false;
}.

Lemma handlers_conn_init : conn_inv AddrConn.init.
Proof. split; try done. apply AddrConn.addrconn_init_inv. Qed.

(** Settle one field after a step. *)
Ltac conn_field :=
  simpl; try done;
  try match goal with |- context [StateManager.updateState ?x ?m] =>
    by destruct (StateManager.updateState x m) end;
  try match goal with E : AddrConn.rs _ = _ |- _ => rewrite ?E in * end; simpl in *;
  repeat match goal with H : true = true → _ |- _ => specialize (H eq_refl) end;
  intros;
  repeat match goal with H : ?x ≠ ?y → _ |- _ => specialize (H ltac:(done)) end;
  try match goal with H : up _ = _ |- _ => rewrite <- H end;
  repeat match goal with E : AddrConn.transport _ = _ |- _ => rewrite E in * end;
  first [done|congruence|by match goal with s : AddrConn.sys |- _ => destruct (AddrConn.st s) end|by eauto|idtac].

Lemma handlers_conn_step a s s' : conn_inv s → AddrConn.exec a s = Some s' → conn_inv s'.
Proof.
  intros [Hi Ht Hs Hr] He. pose proof (AddrConn.iv_st _ Hi) as Hst. pose proof (AddrConn.iv_start _ Hi) as Hstart.
  split; [by eapply AddrConn.addrconn_exec_inv|..].
  - destruct a; AddrConn.ac_step He; conn_field.
  - destruct a; AddrConn.ac_step He; conn_field.
  - destruct a; AddrConn.ac_step He; conn_field;
      match goal with H : <[_ := _]> _ !! _ = _ |- _ => apply lookup_insert_Some in H as [[? ?]|[_ ?]] end;
      simplify_eq/=; try by eapply Hr.
    destruct (AddrConn.starting (AddrConn.rs s)); [by rewrite Hs in *|done].
Qed.

(** ** The invariant *)

Record inv (s : sys) : Prop := mkInv {
  in_conn : conn_inv (ac s);
  in_up h x : handlers s !! h = Some x → AddrConn.rs (ac s) ≠ AddrConn.RConnect;
}.

Lemma connect_starts a c c' :
  AddrConn.exec a c = Some c' → AddrConn.rs c' = AddrConn.RConnect → AddrConn.rs c = AddrConn.RConnect.
Proof.
  intros Ha. destruct a; AddrConn.ac_step Ha; simpl; intros; try congruence;
    by match goal with H : context [StateManager.updateState ?x ?m] |- _ =>
      destruct (StateManager.updateState x m) end.
Qed.

(** What a step does to the other parts of the state. *)
Lemma handler_step a h x s s' :
  died s = None → handlers s !! h = Some x → handleMessageRequest a h x s = Some s' →
  ac s' = ac s ∧ (died s' = None → ∃ pc, handlers s' = <[h := mkHandler (h_req x) pc]> (handlers s)).
Proof.
  intros Hd Hx He. unfold handleMessageRequest in He.
  destruct a, (h_pc x); try done; repeat case_match; simplify_eq/=; split; intros; try done; by eexists.
Qed.

Lemma handlers_exec_inv a s s' : inv s → exec a s = Some s' → inv s'.
Proof.
  intros Hi He. unfold exec in He. destruct (died s) eqn:Hd; [done|].
  assert (∀ h, (x ← handlers s !! h; handleMessageRequest a h x s) = Some s' → inv s') as Hh.
  { intros h (x&Hx&Hs)%bind_Some. destruct (handler_step _ _ _ _ _ Hd Hx Hs) as [Hac Hhs].
    split; [rewrite Hac; apply Hi|]. intros h' x' _. rewrite Hac. by eapply (in_up _ Hi). }
  destruct a; try by eapply Hh.
  - apply bind_Some in He as (ac'&Ha&[= <-]). split; simpl; [eapply handlers_conn_step; [apply Hi|done]|].
    intros h x Hx%(in_up _ Hi) Hrs. by apply Hx, (connect_starts a (ac s) ac').
  - destruct (AddrConn.readers (ac s) !! r) as [[]|] eqn:Hr; try done.
    destruct (handlers s !! h); [done|]. injection He as <-. split; simpl; [apply Hi|].
    intros h' x' _ Hrs. pose proof (ci_reader _ (in_conn _ Hi) _ _ Hr) as Hst. by rewrite Hrs in Hst.
Qed.

Lemma handlers_reachable_inv s : reachable exec init s → inv s.
Proof.
  apply reachable_invariant; [|apply handlers_exec_inv]. split; simpl; [apply handlers_conn_init|]. intros h x Hx. by apply lookup_empty_Some in Hx.
Qed.

(** ** Theorems *)

(** Looking the transport up: while the process lives, with the reply of a request encoded
    and [ac.mu] free, the handling goroutine enters [Write] of the transport the
    connection has if [Close] was not called and the connection is READY, or IDLE after
    it was; otherwise its nil dereference ends the process. *)
Lemma reply_looks_up s h q b :
  reachable exec init s → died s = None → handlers s !! h = Some (mkHandler q (HReply b)) →
  AddrConn.mu (ac s) = None →
  if negb (AddrConn.closed_cc (ac s)) && up (AddrConn.st (ac s)) then
    ∃ tr s', AddrConn.transport (ac s) = Some tr ∧ exec (Reply h) s = Some s' ∧ died s' = None ∧
      handlers s' !! h = Some (mkHandler q (HWrite tr b))
  else ∃ s', exec (Reply h) s = Some s' ∧ died s' = Some NilDeref.
Proof.
  intros Hr%handlers_reachable_inv Hd Hh Hm. pose proof (in_up _ Hr h _ Hh) as Hrs.
  rewrite (ci_transport _ (in_conn _ Hr) Hrs).
  unfold exec. rewrite Hd, Hh. simpl. unfold handleMessageRequest. simpl.
  destruct (AddrConn.closed_cc (ac s)); [by eexists|]. rewrite Hm. simpl. case_bool_decide as Ht.
  - destruct Ht as [tr Htr]. rewrite Htr. exists tr. eexists. split_and!; [done..|]. simpl. apply lookup_insert_eq.
  - apply eq_None_not_Some in Ht. rewrite Ht. by eexists.
Qed.

(** Once [Close] was called a reply that is owed is never sent. *)
Lemma owes_step a s s' h x :
  AddrConn.closed_cc (ac s) = true → handlers s !! h = Some x → owes x = true →
  exec a s = Some s' →
  AddrConn.closed_cc (ac s') = true ∧
    (died s' ≠ None ∨ ∃ x', handlers s' !! h = Some x' ∧ h_req x' = h_req x ∧ owes x' = true).
Proof.
  intros Hcl Hx Ho He. unfold exec in He. destruct (died s) eqn:Hd; [done|].
  assert (∀ h', (x ← handlers s !! h'; handleMessageRequest a h' x s) = Some s' →
    AddrConn.closed_cc (ac s') = true ∧
    (died s' ≠ None ∨ ∃ x', handlers s' !! h = Some x' ∧ h_req x' = h_req x ∧ owes x' = true)) as Hh.
  { intros h' (x'&Hx'&Hs)%bind_Some. destruct (handler_step _ _ _ _ _ Hd Hx' Hs) as [Hac Hhs].
    rewrite Hac. split; [done|]. destruct (decide (h' = h)) as [->|Hne].
    - rewrite Hx in Hx'. injection Hx' as <-. unfold handleMessageRequest in Hs. unfold owes in Ho.
      destruct x as [q pc]. destruct a, pc; try done; simpl in *.
      + destruct (client_handleMessageRequest svc q) as [[b|]| |] eqn:Hq; try done.
        injection Hs as <-. right. eexists. simpl. by rewrite lookup_insert_eq.
      + rewrite Hcl in Hs. injection Hs as <-. by left.
    - destruct (died s') eqn:Hd'; [by left|right]. destruct (Hhs eq_refl) as [pc ->].
      exists x. by rewrite lookup_insert_ne. }
  destruct a; try by eapply Hh.
  - apply bind_Some in He as (ac'&Ha&[= <-]). simpl. split; [|right; by exists x].
    by eapply AddrConn.addrconn_closed_stays.
  - repeat case_match; simplify_eq/=. split; [done|]. right. exists x.
    rewrite lookup_insert_ne by congruence. done.
Qed.

(** C27: A request that [Close] overtakes is never answered, and keeps [Close] from
    returning: if its reply has not been handed to [tr.Write] when [Close] takes the
    connection away, then from then on, on every run, it never is.  Its goroutine stays
    short of [tr.Write], counted in [cc.wg], until it ends the process. *)
Theorem close_starves_handlers s s' h x :
  AddrConn.closed_cc (ac s) = true → handlers s !! h = Some x → owes x = true →
  reachable exec s s' →
  died s' ≠ None ∨
  ∃ x', handlers s' !! h = Some x' ∧ h_req x' = h_req x ∧ owes x' = true ∧ counted x' = true ∧
    ∀ tr b, h_pc x' ≠ HWrite tr b.
Proof.
  intros Hcl Hx Ho Hr.
  assert (died s' ≠ None ∨ AddrConn.closed_cc (ac s') = true ∧
    ∃ x', handlers s' !! h = Some x' ∧ h_req x' = h_req x ∧ owes x' = true)
    as [?|(_&x'&Hx'&Hq&Ho')].
  { apply (reachable_invariant exec (λ s, died s ≠ None ∨ AddrConn.closed_cc (ac s) = true ∧
      ∃ x', handlers s !! h = Some x' ∧ h_req x' = h_req x ∧ owes x' = true) s); [right; eauto| |done].
    intros a s1 s2 [Hd|(Hc&x1&Hx1&Hq1&Ho1)] Hs.
    - unfold exec in Hs. by destruct (died s1).
    - destruct (owes_step a s1 s2 h x1 Hc Hx1 Ho1 Hs) as (Hc'&[?|(x2&?&?&?)]); [by left|].
      right. split; [done|]. exists x2. split_and!; [done|congruence|done]. }
  - by left.
  - right. exists x'. split_and!; [done..| |]; unfold owes in Ho'; [unfold counted|]; by destruct (h_pc x').
Qed.
End Handlers.

(** ** Concrete runs: a client with the method Ping *)

Definition w_svc : option (serviceInfo Toy.U ()) := register Rpc.w_sd tt.
Definition w_exec : action → sys → option sys := exec w_svc.
Definition w_q : option Request := Some (mkRequest "Ping" "id1" (Some (Toy.str "hi"))).
Definition w_conn (l : list AddrConn.action) : list action := Conn <$> l.

(** Connected, with a [handleRead]; a request arrives and is handled. *)
Definition w_handled : list action :=
  w_conn ([AddrConn.ListenRead 1] ++ AddrConn.w_connect ++
    [AddrConn.ListenRead 1; AddrConn.ListenRead 1; AddrConn.ListenRead 1] ++ AddrConn.w_up 1 ++
    [AddrConn.ListenRead 1; AddrConn.ListenRead 1; AddrConn.Reader 1]) ++ [Start 1 5 w_q; Run 5].

(** The connection is lost, and dialling again fails. *)
Definition w_lost : list action :=
  w_conn ([AddrConn.Callback 1; AddrConn.Callback 1] ++ AddrConn.w_publish ++
    [AddrConn.Callback 1; AddrConn.Callback 1; AddrConn.Reset AddrConn.Go; AddrConn.Reset AddrConn.Go] ++
    AddrConn.w_publish ++ [AddrConn.Reset (AddrConn.Dialled None); AddrConn.Reset AddrConn.Go] ++
    AddrConn.w_publish ++ [AddrConn.Reset AddrConn.Go]).

Definition w_closed_state : sys := final w_exec (w_handled ++ w_conn [AddrConn.CallClose]) init.

(** A client whose connection is lost while it handles a request dies: nobody called
    [Close], the dial that failed is waiting to be repeated, and the handling goroutine
    calls [Write] of the nil transport. *)
Theorem client_dies_reconnecting :
  ∃ s, reachable w_exec init s ∧ died s = Some NilDeref ∧ AddrConn.closed_cc (ac s) = false ∧
    AddrConn.st (ac s) = Connectivity.TransientFailure ∧ AddrConn.rs (ac s) = AddrConn.RBackoff.
Proof. exists (final w_exec (w_handled ++ w_lost ++ [Reply 5]) init). split_and!; at_state. Qed.

Lemma close_starves_handlers_witness :
  died w_closed_state ≠ None ∨
    ∃ x', handlers w_closed_state !! 5 = Some x' ∧ counted x' = true.
Proof.
  destruct (close_starves_handlers w_svc w_closed_state w_closed_state 5
    (mkHandler w_q (HReply Rpc.w_reply))) as [Hd|(x'&Hx'&_&_&Hc&_)]; [at_state..|apply rtc_refl| |].
  - left. exact Hd.
  - right. exists x'. split; [exact Hx'|exact Hc].
Defined.
End ClientHandlers.
