(* ===== verification/Connect.v ===== *)
(** The constructors of the two transports, [internal/transport/transport.go] and the
    heads of [websocket_client.go] and [websocket_server.go]: from the options of a dial,
    or the connection the upgrader made, to a transport whose pumps run. *)
From S2P Require Import Prelude Credentials Keepalive Options Transport.

Module Connect.
Import Credentials Options.

Section Connect.
(** gorilla's [websocket.Conn], and [DialContext] under the connection's context: what
    it answers to a dialer and a URL. *)
Context {Conn : Type}.

Record Dialer := mkDialer { TLSClientConfig : option tlsConfig; HandshakeTimeout : Z }.

Context (DialContext : Dialer → string → outcome Conn).

(** A [WebsocketClient] or [WebsocketServer]: what its constructor stores, and its
    goroutines. *)
Record websocket := mkWebsocket {
  conn : Conn;
  limit : Keepalive.limits;
  pumps : option Transport.tr;   (* [None] until they are started *)
}.

(** [Start] and [start]: both pumps. *)
Definition Start (c : websocket) : websocket := mkWebsocket (conn c) (limit c) (Some Transport.init).

Definition dial_error (e : error) : error := "[wsrpc] error while dialing " +:+ e.

Definition newWebsocketClient (addr : string) (opts : connectOptions) : outcome websocket :=
  let d := mkDialer (Config (TransportCreds opts)) (45 * second) in
  let url := "wss://" +:+ addr in
  match DialContext d url with
  | Ok conn =>
      let c := mkWebsocket conn (Keepalive.newWebsocketClientConfig
        (Keepalive.mkConnectOptions (WriteTimeout opts) (ReadLimit opts))) None in
      Ok (Start c)
  | Err err => Err (dial_error err)
  | Panic p => Panic p
  end.

(** A [ClientTransport] holds a [*WebsocketClient], which may be nil itself. *)
Inductive ClientTransport := NilInterface | Websocket (c : option websocket).

(** The pair of results, the pointer put into the interface. *)
Definition NewClientTransport (addr : string) (opts : connectOptions) :
    outcome (ClientTransport * option error) :=
  match newWebsocketClient addr opts with
  | Ok c => Ok (Websocket (Some c), None)
  | Err e => Ok (Websocket None, Some e)
  | Panic p => Panic p
  end.

(** What [resetTransport] makes of the pair, for the transport number [tr]: it looks at
    the error. *)
Definition dialled (tr : nat) (r : ClientTransport * option error) : option nat :=
  match r.2 with None => Some tr | Some _ => None end.

Definition newWebsocketServer (c : Conn) (config : Keepalive.ServerConfig) : websocket :=
  let s := mkWebsocket c (Keepalive.newWebsocketServerWithConfig config) None in
  Start s.

(** [wshandler] gives it the connection it upgraded. *)
Definition NewServerTransport (c : Conn) (config : Keepalive.ServerConfig) : websocket :=
  newWebsocketServer c config.

(** ** Theorems *)
Context {Signer : Type} (signer_of : bytes → Signer) (CreateCertificate : Signer → outcome bytes).

(** A dial uses what its options say.  With options none of which is refused the one
    call of gorilla's dialer gets the URL of the target over TLS, a handshake timeout of
    45 seconds, and the TLS configuration of the last credentials option, which presents
    its certificate and accepts its key only, or none; if it answers, the transport runs
    with both pumps just started, and the write timeout and read limit of the last
    options for them, where zero and none stand for the package's defaults; if not, the
    error is passed on and nothing was started. *)
Theorem dial_uses_options opts h addr :
  heap_ok h → no_creds_panic CreateCertificate → Forall (λ opt, refused signer_of CreateCertificate opt = None) opts →
  ∃ o h' d, dial_options signer_of CreateCertificate opts h = Ok (o, h') ∧
    HandshakeTimeout d = (45 * second)%Z ∧
    match last (omap (sets_transport_creds signer_of CreateCertificate) opts) with
    | Some (cert, pubs) => ∃ r, objs h' !! r = Some pubs ∧
        TLSClientConfig d = Some (mkConfig [cert] true VersionTLS13 VersionTLS13 r NoClientCert)
    | None => TLSClientConfig d = None
    end ∧
    match DialContext d ("wss://" +:+ addr) with
    | Ok cn => ∃ c, NewClientTransport addr (copts o) = Ok (Websocket (Some c), None) ∧
        conn c = cn ∧ pumps c = Some Transport.init ∧
        (let w := last_of sets_write_timeout 0%Z opts in
         Keepalive.writeTimeout (limit c) = if decide (w = 0)%Z then (10 * second)%Z else w) ∧
        (let l := last_of sets_dial_read_limit 0%Z opts in
         Keepalive.readLimit (limit c) = if decide (l = 0)%Z then 100000000%Z else l)
    | Err e => NewClientTransport addr (copts o) = Ok (Websocket None, Some (dial_error e))
    | Panic p => NewClientTransport addr (copts o) = Panic p
    end.
Proof.
  intros Hh Hc Hall.
  destruct (apply_dial_options_ok signer_of CreateCertificate 0 opts defaultDialOptions h None Hh Hc eq_refl Hall)
    as (o&h'&Ha&_&Hck&E1&E2&_).
  exists o, h', (mkDialer (Config (TransportCreds (copts o))) (45 * second)).
  split_and!; [|done| |].
  - unfold dial_options. specialize (Ha []). by rewrite app_nil_r in Ha.
  - destruct (last (omap _ opts)) as [[cert pubs]|]; simpl in Hck; [|by rewrite Hck].
    destruct Hck as (r&->&Hr). by exists r.
  - unfold NewClientTransport, newWebsocketClient.
    destruct (DialContext _ _) as [cn|e|p]; [|done|done].
    eexists. split_and!; [done..| |]; simpl; rewrite ?E1, ?E2; by repeat case_decide.
Qed.

(** A failed dial is a dial that [resetTransport] takes for failed, although the
    transport it got with the error is not a nil interface: what it looks at is the error,
    and a dial that succeeded is one whose pumps run. *)
Theorem dialled_iff_running addr o tr r :
  NewClientTransport addr o = Ok r →
  r.1 ≠ NilInterface ∧
  (dialled tr r = Some tr ↔ ∃ c, r.1 = Websocket (Some c) ∧ pumps c = Some Transport.init) ∧
  (dialled tr r = None ↔ r.1 = Websocket None ∧ is_Some r.2).
Proof.
  unfold NewClientTransport, newWebsocketClient. intros Hr.
  destruct (DialContext _ _); simplify_eq/=; split_and!; try done; (split; [intros Hd|intros Hx]); try done.
  - eexists. split; done.
  - by destruct Hx.
  - by destruct Hx as (c&Hc&_).
Qed.
End Connect.

(** ** Witnesses: two dials of one target, one of them answered *)

Definition w_dial (d : Dialer) (url : string) : outcome nat :=
  if decide (url = "wss://localhost:1338") then Ok 7 else Err "no such host".

Definition w_opts : list (DialOption (Signer:=bytes)) := [OptReadLimit 5; OptTransportCreds w_priv key2].

Definition w_connect (addr : string) : outcome (ClientTransport (Conn:=nat) * option error) :=
  match dial_options toy_signer toy_create w_opts heap0 with
  | Ok (o, _) => NewClientTransport w_dial addr (copts o)
  | Err e => Err e
  | Panic p => Panic p
  end.

Lemma dial_uses_options_witness :
  ∃ c, w_connect "localhost:1338" = Ok (Websocket (Some c), None) ∧ conn c = 7 ∧
    Keepalive.writeTimeout (limit c) = (10 * second)%Z ∧ Keepalive.readLimit (limit c) = 5%Z.
Proof.
  destruct (dial_uses_options w_dial toy_signer toy_create w_opts heap0 "localhost:1338")
    as (o&h'&d&Ho&_&_&Hc); [apply heap0_ok|apply w_create_no_panic|by repeat constructor|].
  unfold w_connect. rewrite Ho. destruct Hc as (c&Hn&Hconn&_&Hw&Hl). exists c. by split_and!.
Defined.

Lemma dialled_iff_running_witness :
  dialled 3 (Websocket (Conn:=nat) None, Some (dial_error "no such host")) = None.
Proof.
  destruct (dialled_iff_running w_dial "nowhere" (mkConnectOptions 0 0 noCreds) 3
    (Websocket None, Some (dial_error "no such host"))) as (_&_&Hn); [vm_compute; reflexivity|].
  apply Hn. split; [reflexivity|by eexists].
Defined.
End Connect.
