(* ===== verification/Client.v ===== *)
(** A [ClientConn] as a whole: the goroutines that keep its connection up ([AddrConn],
    with the transports of [ClientPumps]), those that make its calls and serve its
    requests ([ClientCalls], [ClientHandlers]), and the server at the other end of every
    connection it makes ([Session]).

    The three read and change the same fields.  [Invoke] looks at [ac.state] and takes
    [ac.transport] when [ac.mu] is free; every message goes through the transport that
    was dialled; a [handleRead] goroutine receives from the transport it looked up when it
    started, and starts the goroutines that handle requests and responses; a reply goes
    through whatever transport there is by then. *)
From S2P Require Import Prelude Connectivity StateManager Message Methods Service.
From S2P Require Import ClientCalls Rpc Transport Conn Exchange Session AddrConn ClientPumps ClientHandlers.

Module Client.
Import Message Transport.
#[local] Existing Instance Session.client_caller.
#[local] Existing Instance Session.client_caller_laws.

Section Client.
Context {U : Type} `{ProtoLaws U}.
Context {T : Type} `{!CallTable T string nat, !CallTableLaws T string nat}.
Context {Impl Impl' : Type} (uuid_Parse : string → outcome Z)
  (svc : option (Service.serviceInfo U Impl)) (pubKey : bytes)
  (own : option (Service.serviceInfo U Impl')).

Abbreviation session := (Exchange.sys (U:=U) (C:=ClientCalls.sys (U:=U) (T:=T))).
Abbreviation session_exec := (Session.exec uuid_Parse svc pubKey).
Abbreviation call := (ClientCalls.action (U:=U)).

Record sys := mkSys {
  ac : AddrConn.sys;
  ex : session;                  (* calls, connections, and the server's handlers *)
  handlers : gmap nat ClientHandlers.handler;
  died : option panic;
  trs : gmap nat nat;            (* the local [tr] of an [Invoke] *)
  sends : gmap nat nat;          (* the [Write] a handler has handed its reply to *)
}.

Definition init : sys := mkSys AddrConn.init Session.init ∅ None ∅ ∅.

Definition set_ex (x : session) (s : sys) : sys :=
  mkSys (ac s) x (handlers s) (died s) (trs s) (sends s).
Definition set_tr (t tr : nat) (s : sys) : sys :=
  mkSys (ac s) (ex s) (handlers s) (died s) (<[t := tr]> (trs s)) (sends s).
Definition set_send (h w : nat) (s : sys) : sys :=
  mkSys (ac s) (ex s) (handlers s) (died s) (trs s) (<[h := w]> (sends s)).

(** The parts, as their own models have them. *)
Definition pumps_of (s : sys) : ClientPumps.sys :=
  ClientPumps.mkSys (ac s) (Conn.near ClientSide <$> Exchange.conns (ex s)).
Definition handlers_of (s : sys) : ClientHandlers.sys :=
  ClientHandlers.mkSys (ac s) (handlers s) (died s).
Definition set_handlers (x : ClientHandlers.sys) (s : sys) : sys :=
  mkSys (ClientHandlers.ac x) (ex s) (ClientHandlers.handlers x) (ClientHandlers.died x) (trs s) (sends s).

(** What [cc.addrConn] shows to an [Invoke]: nil after [Close], otherwise its state and
    whether it has a transport. *)
Definition view (a : AddrConn.sys) : option (Connectivity.State * bool) :=
  if AddrConn.closed_cc a then None
  else Some (AddrConn.st a, bool_decide (is_Some (AddrConn.transport a))).

Definition look (a : AddrConn.sys) : call :=
  match view a with Some c => ClientCalls.ConnChange c | None => ClientCalls.ConnClose end.

(** [cc.addrConn] can be read: it is nil, or [ac.mu] is free. *)
Definition readable (a : AddrConn.sys) : bool :=
  AddrConn.closed_cc a || bool_decide (AddrConn.mu a = None).

Inductive action :=
  | Ac (a : AddrConn.action)             (* a goroutine of the connection *)
  | Wire (c : nat) (a : Conn.action)     (* the pumps of a connection, its network, and what
                                            the server's own calls write *)
  | Call (a : call)                      (* a step of an [Invoke] or of a response handler *)
  | Write (t w : nat)                    (* an [Invoke] enters [tr.Write] *)
  | Written (t : nat)                    (* and gets its result *)
  | Serve (a : Exchange.action (A:=call)) (* a goroutine of the server *)
  | Read (r h : nat)                     (* [in := <-tr.Read()] in a [handleRead] *)
  | Handle (a : ClientHandlers.action)   (* a step of a request handler *)
  | ReplyWrite (h w : nat)               (* its reply enters [tr.Write] *)
  | ReplyWritten (h : nat).

(** The connections take part in the steps of [AddrConn] as [ClientPumps] says. *)
Definition follow (a : AddrConn.action) (s : sys) : option session :=
  match ClientPumps.moves a (ac s) with
  | Some (tr, b) => session_exec (Exchange.End tr (ClientSide, b)) (ex s)
  | None =>
      match a with
      | AddrConn.Reset (AddrConn.Dialled (Some tr)) => session_exec (Exchange.Open tr) (ex s)
      | _ => Some (ex s)
      end
  end.

(** The steps of a connection that no other goroutine of the client takes part in. *)
Definition wire_alone (a : Conn.action) : bool :=
  match a with
  | (ClientSide, Transport.Write _ _) => false
  | (ClientSide, b) => ClientPumps.pump_alone b
  | _ => true
  end.

(** A step of an [Invoke] that looks at the connection. *)
Definition looks (a : call) : bool :=
  match a with ClientCalls.Invoke _ _ _ _ _ | ClientCalls.Transport _ => true | _ => false end.

(** The transport that an [Invoke] takes from the connection. *)
Definition takes (a : call) (c : AddrConn.sys) : option (nat * nat) :=
  match a with
  | ClientCalls.Transport t =>
      if AddrConn.closed_cc c then None else (λ tr, (t, tr)) <$> AddrConn.transport c
  | _ => None
  end.

Definition own_step (a : call) : bool :=
  match a with ClientCalls.ConnChange _ | ClientCalls.ConnClose => false | _ => true end.

Definition exec_call (a : call) (s : sys) : option sys :=
  if looks a then
    if readable (ac s) then
      x ← session_exec (Exchange.Call (look (ac s))) (ex s);
      x ← session_exec (Exchange.Call a) x;
      Some match takes a (ac s) with Some (t, tr) => set_tr t tr (set_ex x s) | None => set_ex x s end
    else None
  else if own_step a then x ← session_exec (Exchange.Call a) (ex s); Some (set_ex x s)
  else None.

(** [handleRead] with a message: a request and a response get a goroutine each. *)
Definition read (r h tr : nat) (s : sys) : option sys :=
  k ← Exchange.conns (ex s) !! tr;
  x ← session_exec (Exchange.OwnRead tr h) (ex s);
  match rp (Conn.near ClientSide k) with
  | RSend m =>
      match Exchange.as_request m with
      | Some q => hs ← ClientHandlers.exec own (ClientHandlers.Start r h (Some q)) (handlers_of s);
                  Some (set_ex x (set_handlers hs s))
      | None => Some (set_ex x s)
      end
  | _ => None
  end.

Definition exec (a : action) (s : sys) : option sys :=
  match died s with
  | Some _ => None
  | None =>
      match a with
      | Ac a =>
          if ClientPumps.may a (pumps_of s) then
            ac' ← AddrConn.exec a (ac s); x ← follow a s;
            Some (mkSys ac' x (handlers s) (AddrConn.crash ac') (trs s) (sends s))
          else None
      | Wire c a =>
          if wire_alone a then x ← session_exec (Exchange.End c a) (ex s); Some (set_ex x s) else None
      | Call a => exec_call a s
      | Write t w =>
          tr ← trs s !! t; x ← session_exec (Exchange.CallWrite t tr w) (ex s); Some (set_ex x s)
      | Written t => x ← session_exec (Exchange.CallWritten t) (ex s); Some (set_ex x s)
      | Serve a =>
          match a with
          | Exchange.PeerRead _ _ | Exchange.Handle _ | Exchange.Reply _ _ _ | Exchange.NoConnection _ =>
              x ← session_exec a (ex s); Some (set_ex x s)
          | _ => None
          end
      | Read r h =>
          match AddrConn.readers (ac s) !! r with
          | Some (AddrConn.HrRead tr) => read r h tr s
          | _ => None
          end
      | Handle a =>
          match a with
          | ClientHandlers.Run _ | ClientHandlers.Reply _ =>
              hs ← ClientHandlers.exec own a (handlers_of s); Some (set_handlers hs s)
          | _ => None
          end
      | ReplyWrite h w =>
          x ← handlers s !! h;
          match ClientHandlers.h_pc x, sends s !! h with
          | ClientHandlers.HWrite tr b, None =>
              x ← session_exec (Exchange.End tr (ClientSide, Transport.Write w (Exchange.carried b))) (ex s);
              Some (set_ex x (set_send h w s))
          | _, _ => None
          end
      | ReplyWritten h =>
          x ← handlers s !! h; w ← sends s !! h;
          match ClientHandlers.h_pc x with
          | ClientHandlers.HWrite tr _ =>
              k ← Exchange.conns (ex s) !! tr; wr ← writers (Conn.near ClientSide k) !! w;
              match w_pc wr with
              | WrWait => None
              | WrOk | WrErr _ =>
                  hs ← ClientHandlers.exec own (ClientHandlers.Written h) (handlers_of s);
                  Some (set_handlers hs s)
              end
          | _ => None
          end
      end
  end.
(** ** The parts run as they do alone *)

#[local] Arguments Transport.exec : simpl never.
#[local] Arguments Conn.exec : simpl never.
#[local] Arguments AddrConn.exec : simpl never.
#[local] Arguments ClientHandlers.exec : simpl never.
#[local] Arguments Session.exec : simpl never.
#[local] Arguments ClientCalls.prepare : simpl never.
#[local] Arguments ClientCalls.fresh_id : simpl never.

(** The cases of a step of the session. *)
Tactic Notation "effects" hyp(He) "as" simple_intropattern(p) :=
  pose proof (Exchange.exec_effects (C:=ClientCalls.sys) (A:=ClientCalls.action) ClientSide (λ _, tt) (λ _, true)
    (Session.serve uuid_Parse svc pubKey) _ _ _ He) as p.

Lemma own_connection tr b x x' :
  session_exec (Exchange.End tr (ClientSide, b)) x = Some x' →
  ∃ k k' p', Exchange.conns x !! tr = Some k ∧ x' = Exchange.set_conn tr k' x ∧
    Transport.exec ClientSide b (Conn.near ClientSide k) = Some p' ∧ Conn.near ClientSide k' = p'.
Proof.
  intros He. effects He as (_&k&k'&Hk&Hk'&->). unfold Conn.exec in Hk'. destruct (Conn.may_read _ _ _); [|done].
  apply bind_Some in Hk' as (p'&Hp'&[= <-]). by exists k, (Conn.set_near ClientSide p' k), p'.
Qed.

Lemma their_connection b k k' :
  Conn.exec (ServerSide, b) k = Some k' → Conn.near ClientSide k' = Conn.near ClientSide k.
Proof.
  intros He. unfold Conn.exec in He. destruct (Conn.may_read _ _ _); [|done].
  by apply bind_Some in He as (p'&_&[= <-]).
Qed.

(** A step of the session that is no step of an [Invoke] alone, writes to the transport
    that the [Invoke] took, and receives what a [handleRead] does. *)
Definition aside (s : sys) (b : Exchange.action (A:=call)) : Prop :=
  match b with
  | Exchange.Call _ => False
  | Exchange.CallWrite t c _ => trs s !! t = Some c
  | Exchange.OwnRead c _ => ∃ r, AddrConn.readers (ac s) !! r = Some (AddrConn.HrRead c)
  | _ => True
  end.

(** A step of the client, but for those of an [Invoke] alone, is at most one of its session. *)
Lemma exec_aside a s s' :
  exec a s = Some s' →
  (∃ b, a = Call b ∧ exec_call b s = Some s') ∨
  trs s' = trs s ∧ (ex s' = ex s ∨ ∃ b, session_exec b (ex s) = Some (ex s') ∧ aside s b).
Proof.
  intros He. unfold exec in He. destruct (died s) eqn:Hd; [done|].
  destruct a as [a|c a|a|t w|t|a|r h|a|h w|h]; [right|right|left|right..].
  - destruct (ClientPumps.may _ _); [|done]. apply bind_Some in He as (ac'&_&He).
    apply bind_Some in He as (x&Hx&[= <-]). split; [done|]. simpl. unfold follow in Hx.
    repeat case_match; simplify_eq; first [by left|right; by eexists].
  - destruct (wire_alone a); [|done]. apply bind_Some in He as (x&Hx&[= <-]). split; [done|]. right. by eexists.
  - by exists a.
  - apply bind_Some in He as (tr&Ht&He). apply bind_Some in He as (x&Hx&[= <-]). split; [done|]. right. by eexists.
  - apply bind_Some in He as (x&Hx&[= <-]). split; [done|]. right. by eexists.
  - destruct a; try done; apply bind_Some in He as (x&Hx&[= <-]); (split; [done|]); right; by eexists.
  - destruct (AddrConn.readers _ !! _) as [[]|] eqn:Hr; try done. unfold read in He.
    apply bind_Some in He as (k&_&He). apply bind_Some in He as (x&Hx&He).
    destruct (rp _); try done. destruct (Exchange.as_request m).
    + apply bind_Some in He as (hs&_&[= <-]). split; [done|]. right. eexists. split; [done|by exists r].
    + injection He as <-. split; [done|]. right. eexists. split; [done|by exists r].
  - destruct a; try done; apply bind_Some in He as (hs&_&[= <-]); by split; [|left].
  - apply bind_Some in He as (y&_&He). destruct (ClientHandlers.h_pc y), (sends s !! h); try done.
    apply bind_Some in He as (x&Hx&[= <-]). split; [done|]. right. by eexists.
  - apply bind_Some in He as (y&_&He). apply bind_Some in He as (w&_&He).
    destruct (ClientHandlers.h_pc y); try done. apply bind_Some in He as (k&_&He).
    apply bind_Some in He as (wr&_&He).
    destruct (w_pc wr); try done; apply bind_Some in He as (hs&_&[= <-]); by split; [|left].
Qed.

(** An [Invoke] that looks at the connection sees it as it is. *)
Lemma look_sees c x x' :
  session_exec (Exchange.Call (look c)) x = Some x' → ClientCalls.cc (Exchange.calls x') = view c.
Proof.
  intros He. effects He as (_&y&Hy&->). unfold look in Hy. simpl.
  destruct (view c); simpl in Hy; [destruct (ClientCalls.cc _); [|done]|]; by injection Hy as <-.
Qed.

(** The cases of a step of an [Invoke]. *)
Lemma call_cases a s s' :
  exec_call a s = Some s' →
  ac s' = ac s ∧
  (looks a = true ∧ readable (ac s) = true ∧
    (∃ x, session_exec (Exchange.Call (look (ac s))) (ex s) = Some x ∧
      session_exec (Exchange.Call a) x = Some (ex s')) ∧
    trs s' = match takes a (ac s) with Some (t, tr) => <[t := tr]> (trs s) | None => trs s end ∨
   looks a = false ∧ own_step a = true ∧ session_exec (Exchange.Call a) (ex s) = Some (ex s') ∧ trs s' = trs s).
Proof.
  unfold exec_call. intros He. destruct (looks a) eqn:Hl.
  - destruct (readable (ac s)); [|done]. apply bind_Some in He as (x1&Hx1&He).
    apply bind_Some in He as (x2&Hx2&[= <-]). split; [by destruct (takes _ _) as [[]|]|left].
    split_and!; [done..| |by destruct (takes _ _) as [[]|]]. exists x1. by destruct (takes _ _) as [[]|].
  - destruct (own_step a); [|done]. apply bind_Some in He as (x&Hx&[= <-]). split; [done|by right].
Qed.

Lemma client_exec_session a s s' : exec a s = Some s' → reachable session_exec (ex s) (ex s').
Proof.
  intros [(b&->&Hb)|(_&[->|(b&Hb&_)])]%exec_aside; [|apply rtc_refl|by apply rtc_once; exists b].
  destruct (call_cases _ _ _ Hb) as (_&[(_&_&(x&Hx&Hx')&_)|(_&_&Hx&_)]).
  - eapply rtc_l; [by eexists|]. apply rtc_once. by eexists.
  - apply rtc_once. by eexists.
Qed.

Lemma pumps_set c k k' (x : session) s :
  Exchange.conns x !! c = Some k → Exchange.conns (ex s) = <[c := k']> (Exchange.conns x) →
  pumps_of s = ClientPumps.mkSys (ac s)
    (<[c := Conn.near ClientSide k']> (Conn.near ClientSide <$> Exchange.conns x)).
Proof. intros Hk Hc. unfold pumps_of. by rewrite Hc, fmap_insert. Qed.

Lemma client_session_conns a (x x' : session) :
  session_exec a x = Some x' → match a with Exchange.Open _ => True | _ => Exchange.one_end x x' (Exchange.ends ClientSide a) end.
Proof. apply (Exchange.exchange_ends ClientSide (λ _, tt) (λ _, true) (Session.serve uuid_Parse svc pubKey)). Qed.

(** A step of a request handler changes nothing of the connection. *)
Lemma handler_alone a s hs :
  ClientHandlers.exec own a (handlers_of s) = Some hs →
  match a with ClientHandlers.Conn _ => True | _ => ClientHandlers.ac hs = ac s end.
Proof.
  intros He. unfold ClientHandlers.exec in He. simpl in He. destruct (died s) eqn:Hd; [done|].
  destruct a as [a|r h q|h|h|h]; [done|by repeat case_match; simplify_eq/=|..];
    apply bind_Some in He as (y&Hy&Hs);
    by apply (ClientHandlers.handler_step own _ _ _ (handlers_of s) hs) in Hs as [? _].
Qed.

(** Which ends of connections the client's own goroutines move. *)
Definition moved (s : sys) (c : nat) (b : Conn.action) : Prop :=
  b.1 = ClientSide → ClientPumps.pump_alone b.2 = true ∨
    b.2 = Receive ∧ ∃ r, AddrConn.readers (ac s) !! r = Some (AddrConn.HrRead c).

Lemma client_exec_conns a s s' :
  exec a s = Some s' →
  match a with Ac _ => True | _ => ac s' = ac s ∧ Exchange.one_end (ex s) (ex s') (moved s) end.
Proof.
  intros He. unfold exec in He. destruct (died s) eqn:Hd; [done|].
  destruct a as [a|c a|a|t w|t|a|r h|a|h w|h]; [done|..].
  - destruct (wire_alone a) eqn:Ha; [|done]. apply bind_Some in He as (x&Hx&[= <-]). split; [done|].
    eapply Exchange.one_end_mono; [by apply (client_session_conns _ _ _ Hx)|]. intros c' b [-> ->]. destruct a as [[] b]; [|done].
    intros _. left. by destruct b.
  - unfold exec_call in He. destruct (looks a).
    + destruct (readable _); [|done]. apply bind_Some in He as (x1&Hx1%client_session_conns&He).
      apply bind_Some in He as (x2&Hx2%client_session_conns&He).
      assert (ac s' = ac s ∧ ex s' = x2) as [-> ->] by (by destruct (takes _ _) as [[]|]; injection He as <-).
      split; [done|]. destruct Hx1 as [Hx1|(?&?&?&?&?&?&?&[])]. unfold Exchange.one_end in *. rewrite Hx1 in Hx2.
      destruct Hx2 as [?|(?&?&?&?&?&?&?&[])]. by left.
    + destruct (own_step a); [|done]. apply bind_Some in He as (x&Hx%client_session_conns&[= <-]). split; [done|].
      by eapply Exchange.one_end_mono.
  - apply bind_Some in He as (tr&_&He). apply bind_Some in He as (x&Hx%client_session_conns&[= <-]). split; [done|].
    eapply Exchange.one_end_mono; [done|]. intros c b [-> [m ->]] _. by left.
  - apply bind_Some in He as (x&Hx%client_session_conns&[= <-]). split; [done|]. by eapply Exchange.one_end_mono.
  - destruct a; try done; apply bind_Some in He as (x&Hx%client_session_conns&[= <-]); (split; [done|]);
      (eapply Exchange.one_end_mono; [done|]); intros c' b Hb; try done; intros Hc; simpl in Hb; congruence.
  - destruct (AddrConn.readers _ !! _) as [[|tr|]|] eqn:Hr; try done. unfold read in He.
    apply bind_Some in He as (k0&Hk0&He). apply bind_Some in He as (x&Hx%client_session_conns&He).
    assert (ac s' = ac s ∧ ex s' = x) as [-> ->].
    { destruct (rp _); try done. destruct (Exchange.as_request m); [|by injection He as <-].
      apply bind_Some in He as (hs&Hhs%handler_alone&[= <-]). done. }
    split; [done|]. eapply Exchange.one_end_mono; [done|]. intros c b [-> ->] _. right. eauto.
  - assert (ac s' = ac s ∧ ex s' = ex s) as [-> ->]; [|by split; [|left]].
    destruct a; try done; apply bind_Some in He as (hs&Hhs%handler_alone&[= <-]); done.
  - apply bind_Some in He as (y&_&He). destruct (ClientHandlers.h_pc y), (sends s !! h); try done.
    apply bind_Some in He as (x&Hx%client_session_conns&[= <-]). split; [done|].
    eapply Exchange.one_end_mono; [done|]. intros c b' [-> ->] _. by left.
  - apply bind_Some in He as (y&_&He). apply bind_Some in He as (w&_&He).
    destruct (ClientHandlers.h_pc y); try done. apply bind_Some in He as (k&_&He).
    apply bind_Some in He as (wr&_&He).
    assert (ac s' = ac s ∧ ex s' = ex s) as [-> ->]; [|by split; [|left]].
    destruct (w_pc wr); try done; apply bind_Some in He as (hs&Hhs%handler_alone&[= <-]); done.
Qed.

Lemma pumps_follow a s s' :
  exec (Ac a) s = Some s' → ClientPumps.exec (ClientPumps.Ac a) (pumps_of s) = Some (pumps_of s').
Proof.
  intros He. unfold exec in He. destruct (died s); [done|]. unfold ClientPumps.exec. destruct (ClientPumps.may _ _); [|done].
  apply bind_Some in He as (ac'&Ha&He). simpl. rewrite Ha. simpl.
  apply bind_Some in He as (x&Hx&[= <-]). unfold follow in Hx.
  destruct (ClientPumps.moves a (ac s)) as [[tr b]|] eqn:Hm.
  - apply own_connection in Hx as (k&k'&p'&Hk&->&Hp'&<-). rewrite lookup_fmap, Hk. cbn. unfold Conn.near in Hp' at 1. rewrite Hp'. cbn.
    unfold pumps_of. simpl. by rewrite fmap_insert.
  - assert (x = ex s ∧ ClientPumps.started a (ClientPumps.pumps (pumps_of s)) = ClientPumps.pumps (pumps_of s) ∨
      ∃ tr, a = AddrConn.Reset (AddrConn.Dialled (Some tr)) ∧ session_exec (Exchange.Open tr) (ex s) = Some x)
      as [[-> Hst]|(tr&->&Ho)] by (repeat case_match; simplify_eq; eauto).
    + simpl in Hst. by rewrite Hst.
    + effects Ho as (_&->). unfold pumps_of. simpl. by rewrite fmap_insert.
Qed.

(** A step that leaves the connection's own goroutines where they are. *)
Lemma pumps_move s s' :
  ac s' = ac s → Exchange.one_end (ex s) (ex s') (moved s) → reachable ClientPumps.exec (pumps_of s) (pumps_of s').
Proof.
  intros Ha [Hc|(c&k&k'&[sd b]&Hk&Hk'&Hc&Hm)]; [unfold pumps_of; rewrite Ha, Hc; apply rtc_refl|].
  rewrite (pumps_set c k k' (ex s) s' Hk Hc), Ha. destruct sd.
  - unfold Conn.exec in Hk'. destruct (Conn.may_read _ _ _); [|done].
    apply bind_Some in Hk' as (p'&Hp'&[= <-]). apply rtc_once.
    destruct (Hm eq_refl) as [Hb|[Hb [r Hr]]]; simpl in Hb.
    + exists (ClientPumps.Pump c b). simpl. rewrite Hb, lookup_fmap, Hk. simpl in *. by rewrite Hp'.
    + subst b. exists (ClientPumps.Read r). cbn [ClientPumps.exec]. simpl. rewrite Hr. simpl. rewrite lookup_fmap, Hk.
      simpl in *. by rewrite Hp'.
  - rewrite (their_connection _ _ _ Hk'), insert_id; [apply rtc_refl|]. by rewrite lookup_fmap, Hk.
Qed.

Lemma client_exec_pumps a s s' :
  exec a s = Some s' → reachable ClientPumps.exec (pumps_of s) (pumps_of s').
Proof.
  intros He. assert (Hc := client_exec_conns _ _ _ He).
  destruct a; try (destruct Hc; by apply pumps_move). apply rtc_once. eexists. by apply pumps_follow.
Qed.

Lemma handlers_set x s : handlers_of (set_handlers x s) = x.
Proof. by destruct x. Qed.

Lemma client_exec_handlers a s s' :
  exec a s = Some s' → reachable (ClientHandlers.exec own) (handlers_of s) (handlers_of s').
Proof.
  intros He. assert (∀ b, ClientHandlers.exec own b (handlers_of s) = Some (handlers_of s') →
    reachable (ClientHandlers.exec own) (handlers_of s) (handlers_of s')) as H1
    by (intros b Hb; by apply rtc_once; exists b).
  unfold exec in He. destruct (died s) eqn:Hd; [done|].
  destruct a as [a|c a|a|t w|t|a|r h|a|h w|h].
  - destruct (ClientPumps.may _ _); [|done]. apply bind_Some in He as (ac'&Ha&He).
    apply bind_Some in He as (x&_&[= <-]). apply (H1 (ClientHandlers.Conn a)).
    unfold ClientHandlers.exec, handlers_of. simpl. by rewrite Hd, Ha.
  - destruct (wire_alone a); [|done]. apply bind_Some in He as (x&_&[= <-]). apply rtc_refl.
  - unfold exec_call in He. destruct (looks a).
    + destruct (readable _); [|done]. apply bind_Some in He as (x1&_&He). apply bind_Some in He as (x2&_&He).
      destruct (takes _ _) as [[]|]; injection He as <-; apply rtc_refl.
    + destruct (own_step a); [|done]. apply bind_Some in He as (x&_&[= <-]). apply rtc_refl.
  - apply bind_Some in He as (tr&_&He). apply bind_Some in He as (x&_&[= <-]). apply rtc_refl.
  - apply bind_Some in He as (x&_&[= <-]). apply rtc_refl.
  - destruct a; try done; apply bind_Some in He as (x&_&[= <-]); apply rtc_refl.
  - destruct (AddrConn.readers _ !! _) as [[|tr|]|]; try done. unfold read in He.
    apply bind_Some in He as (k0&_&He). apply bind_Some in He as (x&_&He).
    destruct (rp _); try done. destruct (Exchange.as_request m); [|by injection He as <-; apply rtc_refl].
    apply bind_Some in He as (hs&Hhs&[= <-]). eapply H1. by rewrite Hhs, <- (handlers_set hs s) at 1.
  - destruct a; try done; apply bind_Some in He as (hs&Hhs&[= <-]); eapply H1; by rewrite handlers_set.
  - apply bind_Some in He as (y&_&He). destruct (ClientHandlers.h_pc y), (sends s !! h); try done.
    apply bind_Some in He as (x&_&[= <-]). apply rtc_refl.
  - apply bind_Some in He as (y&_&He). apply bind_Some in He as (w&_&He).
    destruct (ClientHandlers.h_pc y); try done. apply bind_Some in He as (k&_&He).
    apply bind_Some in He as (wr&_&He).
    destruct (w_pc wr); try done; apply bind_Some in He as (hs&Hhs&[= <-]); eapply H1; by rewrite handlers_set.
Qed.

Lemma client_session s : reachable exec init s → reachable session_exec Session.init (ex s).
Proof.
  apply (reachable_invariant exec (λ s, reachable session_exec Session.init (ex s)) init); [apply rtc_refl|].
  intros a s1 s2 Hr He. by etrans; [|eapply client_exec_session].
Qed.

Lemma client_pumps s : reachable exec init s → reachable ClientPumps.exec ClientPumps.init (pumps_of s).
Proof.
  apply (reachable_invariant exec (λ s, reachable ClientPumps.exec ClientPumps.init (pumps_of s)) init).
  - unfold pumps_of. simpl. rewrite fmap_empty. apply rtc_refl.
  - intros a s1 s2 Hr He. by etrans; [|eapply client_exec_pumps].
Qed.

Lemma client_handlers s :
  reachable exec init s → reachable (ClientHandlers.exec own) ClientHandlers.init (handlers_of s).
Proof.
  apply (reachable_invariant exec (λ s, reachable (ClientHandlers.exec own) ClientHandlers.init (handlers_of s)) init);
    [apply rtc_refl|].
  intros a s1 s2 Hr He. by etrans; [|eapply client_exec_handlers].
Qed.

(** ** An [Invoke] and its transport *)

Definition early (pc : ClientCalls.inv_pc (U:=U)) : bool :=
  match pc with ClientCalls.IRegister | ClientCalls.ITransport => true | _ => false end.

(** What the variable [tr] of an [Invoke] has to do with the rest. *)
Record tr_ok (x : session) (m : gmap nat nat) : Prop := mkTrOk {
  to_early t i r : ClientCalls.invs (Exchange.calls x) !! t = Some i →
    early (ClientCalls.i_pc i) = true →
    Exchange.reqs x !! t = Some r → Exchange.r_write r = None;
  to_write t i : ClientCalls.invs (Exchange.calls x) !! t = Some i →
    ClientCalls.i_pc i = ClientCalls.IWrite → is_Some (m !! t);
  to_sent t r c w : Exchange.reqs x !! t = Some r → Exchange.r_write r = Some (c, w) → m !! t = Some c;
}.

(** What a session's step does to the [Invoke]s and their requests. *)
Lemma session_invokes a x x' :
  session_exec a x = Some x' →
  (∃ b, a = Exchange.Call b ∧ ClientCalls.exec b (Exchange.calls x) = Some (Exchange.calls x') ∧
    ∀ t r, Exchange.reqs x' !! t = Some r → Exchange.reqs x !! t = Some r ∨ Exchange.r_write r = None) ∨
  (∃ t c w r i, a = Exchange.CallWrite t c w ∧ Exchange.calls x' = Exchange.calls x ∧
    ClientCalls.invs (Exchange.calls x) !! t = Some i ∧ ClientCalls.i_pc i = ClientCalls.IWrite ∧
    Exchange.reqs x' = <[t := r]> (Exchange.reqs x) ∧ Exchange.r_write r = Some (c, w)) ∨
  Exchange.reqs x' = Exchange.reqs x ∧
    (Exchange.calls x' = Exchange.calls x ∨
     ∃ b, ClientCalls.exec b (Exchange.calls x) = Some (Exchange.calls x') ∧
       match b with
       | ClientCalls.Write _ _ => True
       | ClientCalls.Arrive _ _ => ∃ c h, a = Exchange.OwnRead c h
       | _ => False
       end).
Proof.
  intros He. destruct a as [a|c|t c w|t|c a|c h|h|h c w|h|c h].
  3: { cbn [Session.exec Exchange.exec] in He. unfold Session.exec, Exchange.exec in He. simpl in He.
    apply bind_Some in He as ([p id]&Hc&He). apply bind_Some in He as (r&Hr&He). apply bind_Some in He as (k&Hk&He).
    destruct (Session.client_writing _ _) eqn:Hw; [|done]. simpl in He. case_bool_decide; [|done].
    destruct (Exchange.r_write r); [done|]. apply bind_Some in He as (k'&_&[= <-]).
    unfold Session.client_writing in Hw. destruct (ClientCalls.invs _ !! t) as [i|] eqn:Hi; [|done]. simpl in Hw.
    right. left. exists t, c, w. eexists _, i. split_and!; [done..| |done|done]. by destruct (ClientCalls.i_pc i). }
  all: effects He as Hs.
  - destruct Hs as (_&y&Hy&->). left. exists a. simpl. unfold Exchange.new_request.
    destruct (Exchange.builds a _) as [[t [[m args] b]]|]; (split_and!; [done..|]); simpl; intros t' r; [|by left].
    intros [[<- <-]|[_ ?]]%lookup_insert_Some; [by right|by left].
  - destruct Hs as (_&->). right. right. by split; [|left].
  - destruct Hs as (o&y&Hy&->). right. right. split; [done|]. right. by exists (ClientCalls.Write t o).
  - destruct Hs as (_&k&k'&_&_&->). right. right. by split; [|left].
  - destruct Hs as (k&k'&m&_&_&_&_&->). right. right. destruct (Exchange.as_request m); by split; [|left].
  - destruct Hs as (y&_&_&->). right. right. by split; [|left].
  - destruct Hs as (y&b&k&k'&_&_&_&_&_&->). right. right. by split; [|left].
  - destruct Hs as (y&_&->). right. right. by split; [|left].
  - destruct Hs as (k&k'&m&_&_&_&Hs). apply (Exchange.own_read_parts (λ _, tt)) in Hs as (_&Hq&_&Hc).
    right. right. split; [done|]. destruct Hc as [?|(r&_&Hr)]; [by left|right]. exists (ClientCalls.Arrive h r). eauto.
Qed.

Lemma early_back a x x' t i' :
  session_exec a x = Some x' → ClientCalls.invs (Exchange.calls x') !! t = Some i' →
  early (ClientCalls.i_pc i') = true →
  (∃ i, ClientCalls.invs (Exchange.calls x) !! t = Some i ∧ early (ClientCalls.i_pc i) = true) ∨
  ClientCalls.invs (Exchange.calls x) !! t = None.
Proof.
  intros Hx Hi' Hpc.
  assert ((∃ b, ClientCalls.exec b (Exchange.calls x) = Some (Exchange.calls x')) ∨
    Exchange.calls x' = Exchange.calls x) as [[b Hb]|Hc].
  { destruct (session_invokes _ _ _ Hx) as [(b&_&Hb&_)|[(?&?&?&?&?&_&Hc&_)|(_&[Hc|(b&Hb&_)])]]; eauto. }
  - pose proof (ClientCalls.clientcalls_moves _ _ _ _ _ Hb Hi') as Hm.
    destruct (ClientCalls.i_pc i'); try done; simpl in Hm; [destruct Hm as [(i&Hi&E)|?]; [|by right]|destruct Hm as (i&Hi&[E|E])];
      left; exists i; by rewrite E.
  - left. exists i'. by rewrite <- Hc.
Qed.

Lemma write_back a x x' t i' :
  session_exec a x = Some x' → ClientCalls.invs (Exchange.calls x') !! t = Some i' →
  ClientCalls.i_pc i' = ClientCalls.IWrite →
  (∃ i, ClientCalls.invs (Exchange.calls x) !! t = Some i ∧ ClientCalls.i_pc i = ClientCalls.IWrite) ∨
  a = Exchange.Call (ClientCalls.Transport t) ∧ ∃ st, ClientCalls.cc (Exchange.calls x) = Some (st, true).
Proof.
  intros Hx Hi' Hpc.
  destruct (session_invokes _ _ _ Hx) as [(b&->&Hb&_)|[(?&?&?&?&?&_&Hc&_)|(_&[Hc|(b&Hb&Hl)])]];
    try (left; exists i'; by rewrite <- Hc);
    pose proof (ClientCalls.clientcalls_moves _ _ _ _ _ Hb Hi') as Hm; rewrite Hpc in Hm;
    destruct Hm as [?|(->&_&Hst)]; auto. done.
Qed.

Lemma request_back a x x' t r :
  session_exec a x = Some x' → Exchange.reqs x' !! t = Some r →
  Exchange.reqs x !! t = Some r ∨ Exchange.r_write r = None ∨
  ∃ c w i, a = Exchange.CallWrite t c w ∧ Exchange.r_write r = Some (c, w) ∧
    ClientCalls.invs (Exchange.calls x') !! t = Some i ∧ ClientCalls.i_pc i = ClientCalls.IWrite.
Proof.
  intros Hx Hr.
  destruct (session_invokes _ _ _ Hx) as [(b&->&_&Hq)|[(t0&c&w&r0&i&->&Hc&Hi&Hpc&Hq&Hw)|(Hq&_)]].
  - destruct (Hq t r Hr); auto.
  - rewrite Hq in Hr. apply lookup_insert_Some in Hr as [[<- <-]|[_ ?]]; [|by left].
    right. right. exists c, w, i. by rewrite Hc.
  - left. by rewrite <- Hq.
Qed.

(** [m'] has what an [Invoke] took from the connection in this step. *)
Lemma tr_ok_step a x x' (m m' : gmap nat nat) :
  reachable session_exec Session.init x → tr_ok x m → session_exec a x = Some x' →
  (∀ t c w, a = Exchange.CallWrite t c w → m !! t = Some c) →
  (∀ t, m' !! t = m !! t ∨ a = Exchange.Call (ClientCalls.Transport t)) →
  (∀ t st, a = Exchange.Call (ClientCalls.Transport t) →
    ClientCalls.cc (Exchange.calls x) = Some (st, true) → is_Some (m' !! t)) →
  tr_ok x' m'.
Proof.
  intros Hr [He Hw Hs] Hx Hcw Hm Hcc. split.
  - intros t i' r Hi' Hpc Hrq. destruct (request_back _ _ _ _ _ Hx Hrq) as [Hold|[?|(c&w&i&_&_&Hi&E)]].
    + destruct (early_back _ _ _ _ _ Hx Hi' Hpc) as [(i&Hi&E)|Hn]; [by eapply He|].
      destruct (Exchange.exchange_requests ClientSide (λ _, tt) (λ _, true) (Session.serve uuid_Parse svc pubKey) x Hr t r Hold) as (p&id&Hc&_). simpl in Hc. by rewrite Hn in Hc.
    + done.
    + rewrite Hi' in Hi. injection Hi as ->. by rewrite E in Hpc.
  - intros t i' Hi' Hpc. destruct (write_back _ _ _ _ _ Hx Hi' Hpc) as [(i&Hi&E)|(->&st&Hst)]; [|by eapply Hcc].
    destruct (Hm t) as [->| ->]; [by eapply Hw|]. exfalso.
    destruct (session_invokes _ _ _ Hx) as [(b&[= <-]&Hb&_)|[(?&?&?&?&?&?&_)|(_&[Hc|(b&Hb&Hl)])]]; [|done|..].
    + simpl in Hb. rewrite Hi in Hb. simpl in Hb. by rewrite E in Hb.
    + effects Hx as (_&c&Hc'&->). simpl in Hc'. rewrite Hi in Hc'. simpl in Hc'. by rewrite E in Hc'.
    + effects Hx as (_&c&Hc'&->). simpl in Hc'. rewrite Hi in Hc'. simpl in Hc'. by rewrite E in Hc'.
  - intros t r c w Hrq Hwr. destruct (request_back _ _ _ _ _ Hx Hrq) as [Hold|[?|(c'&w'&i&->&Hwr'&_)]].
    + destruct (Hm t) as [->| ->]; [by eapply Hs|]. exfalso.
      effects Hx as (_&c'&Hc'&_). simpl in Hc'. apply bind_Some in Hc' as (i&Hi&Hc').
      assert (ClientCalls.i_pc i = ClientCalls.ITransport) as E.
      { unfold ClientCalls.exec_inv in Hc'. by destruct (ClientCalls.i_pc i). }
      rewrite (He t i r Hi) in Hwr; [done|by rewrite E|done].
    + congruence.
    + destruct (Hm t) as [->| ?]; [|done]. rewrite Hwr in Hwr'. injection Hwr' as -> ->. by eapply Hcw.
Qed.

(** ** The invariant *)

Record inv (s : sys) : Prop := mkInv {
  in_ok : tr_ok (ex s) (trs s);
  in_open : ClientCalls.cc (Exchange.calls (ex s)) = None → AddrConn.closed_cc (ac s) = true;
  in_trs t tr : trs s !! t = Some tr → is_Some (Exchange.conns (ex s) !! tr);
}.

(** The connections are the transports that were dialled. *)
Lemma client_dialled s tr :
  reachable exec init s → is_Some (Exchange.conns (ex s) !! tr) ↔ is_Some (AddrConn.cbs (ac s) !! tr).
Proof.
  intros Hr. rewrite <- (ClientPumps.in_dom _ (ClientPumps.client_reachable_inv _ (client_pumps s Hr)) tr).
  unfold pumps_of. simpl. by rewrite lookup_fmap, fmap_is_Some.
Qed.

Lemma session_keeps_conn a x x' c :
  session_exec a x = Some x' → is_Some (Exchange.conns x !! c) → is_Some (Exchange.conns x' !! c).
Proof.
  intros He [k Hk].
  destruct (Exchange.step_conn_kept ClientSide (λ _, tt) (λ _, true) (Session.serve uuid_Parse svc pubKey) _ _ _ _ _ He Hk)
    as (k'&Hk'&_). by exists k'.
Qed.

(** What the calls know of the connection changes only when an [Invoke] looks. *)
Lemma session_view a x x' :
  session_exec a x = Some x' → (∀ b, a = Exchange.Call b → own_step b = true) →
  ClientCalls.cc (Exchange.calls x') = ClientCalls.cc (Exchange.calls x).
Proof.
  intros He Hown. destruct (session_invokes _ _ _ He) as [(b&->&Hb&_)|[(?&?&?&?&?&_&->&_)|(_&[->|(b&Hb&Hl)])]]; [|done..|].
  - eapply ClientCalls.clientcalls_view; [done|]. by specialize (Hown b eq_refl); destruct b.
  - eapply ClientCalls.clientcalls_view; [done|]. by destruct b.
Qed.

Lemma exec_closed a s s' :
  exec a s = Some s' → AddrConn.closed_cc (ac s) = true → AddrConn.closed_cc (ac s') = true.
Proof.
  intros He Hcl. pose proof (client_exec_conns _ _ _ He) as Hc. destruct a; try (by destruct Hc as [-> _]).
  apply pumps_follow in He. apply ClientPumps.exec_conn in He as [Hac|[b Hb]]; simpl in *; [by rewrite Hac|].
  by eapply AddrConn.addrconn_closed_stays.
Qed.

Lemma takes_spec a c t tr :
  takes a c = Some (t, tr) ↔
  a = ClientCalls.Transport t ∧ AddrConn.closed_cc c = false ∧ AddrConn.transport c = Some tr.
Proof.
  unfold takes. destruct a; try (by split; [|intros (?&_)]). destruct (AddrConn.closed_cc c); [by split; [|intros (_&?&_)]|].
  destruct (AddrConn.transport c); simpl; [|by split; [|intros (_&_&?)]]. split; [by intros [= -> ->]|by intros ([= ->]&_&[= ->])].
Qed.

Lemma call_inv a s s' :
  reachable exec init s → inv s → exec_call a s = Some s' → inv s'.
Proof.
  intros Hr [Hok Ho Ht] He. pose proof (client_session s Hr) as Hrx.
  destruct (call_cases _ _ _ He) as (Hac&[(Hl&_&(x&Hx&Hx')&Hm)|(Hl&Hown&Hx&Hm)]).
  - assert (reachable session_exec Session.init x) as Hrx' by (eapply rtc_r; [done|by eexists]).
    assert (tr_ok x (trs s)) as Hok1.
    { eapply tr_ok_step; [exact Hrx|done|done|done|by left|]. intros t st. unfold look. by destruct (view _). }
    pose proof (look_sees _ _ _ Hx) as Hv.
    assert (∀ t tr, trs s' !! t = Some tr → trs s !! t = Some tr ∨ takes a (ac s) = Some (t, tr)) as Hnew.
    { intros t tr. rewrite Hm. destruct (takes a (ac s)) as [[t0 tr0]|]; [|by left].
      intros [[<- <-]|[_ ?]]%lookup_insert_Some; [by right|by left]. }
    split.
    + eapply tr_ok_step; [exact Hrx'|done|done|done|..].
      * intros t. rewrite Hm. destruct (takes a (ac s)) as [[t0 tr0]|] eqn:Htk; [|by left].
        apply takes_spec in Htk as (->&_). destruct (decide (t0 = t)) as [->|]; [by right|left; by rewrite lookup_insert_ne].
      * intros t st [= ->] Hcc. rewrite Hv in Hcc. unfold view in Hcc.
        destruct (AddrConn.closed_cc (ac s)) eqn:Hcl; [done|]. injection Hcc as _ [tr Htr]%bool_decide_eq_true.
        rewrite Hm. unfold takes. rewrite Hcl, Htr. simpl. rewrite lookup_insert_eq. by eexists.
    + rewrite (session_view _ _ _ Hx'), Hv, Hac; [|by intros b [= <-]; destruct a]. unfold view. by destruct (AddrConn.closed_cc _).
    + intros t tr [Hold|(_&_&Htr)%takes_spec]%Hnew.
      * eapply session_keeps_conn; [done|]. by eapply session_keeps_conn; [|eapply Ht].
      * eapply session_keeps_conn; [done|]. eapply session_keeps_conn; [done|]. apply client_dialled; [done|].
        eapply ClientPumps.ci_transport; [|done].
        apply (ClientPumps.in_conn _ (ClientPumps.client_reachable_inv _ (client_pumps s Hr))).
  - split.
    + eapply tr_ok_step; [exact Hrx|done|done|done|intros t; left; by rewrite Hm|].
      intros t st [= ->]. done.
    + rewrite (session_view _ _ _ Hx), Hac; [done|]. by intros b [= <-].
    + intros t tr. rewrite Hm. intros Htr. by eapply session_keeps_conn; [|eapply Ht].
Qed.

Lemma client_inv s : reachable exec init s → inv s.
Proof.
  apply (reachable_invariant_under exec (reachable exec init) inv); [done|by split|].
  intros a s1 s2 Hr Hi He. pose proof (client_session s1 Hr) as Hrx.
  destruct (exec_aside _ _ _ He) as [(b&->&Hb)|(Hm&Hx)]; [by eapply call_inv|].
  destruct Hi as [Hok Ho Ht]. destruct Hx as [Hx|(b&Hb&Ha)].
  - split; rewrite ?Hx, ?Hm; [done| |done]. intros Hcc%Ho. by eapply exec_closed.
  - split.
    + eapply tr_ok_step; [exact Hrx|done|done|by intros t c w ->|intros t; left; by rewrite Hm|by intros t st ->].
    + rewrite (session_view _ _ _ Hb); [|by intros b' ->]. intros Hcc%Ho. by eapply exec_closed.
    + intros t tr. rewrite Hm. intros Htr. by eapply session_keeps_conn; [|eapply Ht].
Qed.

(** ** A call on a ready connection *)

(** A step of the session as one of the client, whose [handleRead] is number [r]. *)
Definition lift (r : nat) (a : Exchange.action (A:=call)) : action :=
  match a with
  | Exchange.Call a => Call a
  | Exchange.CallWrite t _ w => Write t w
  | Exchange.CallWritten t => Written t
  | Exchange.End c b => Wire c b
  | Exchange.OwnRead _ h => Read r h
  | a => Serve a
  end.

Definition liftable (r : nat) (a : Exchange.action (A:=call)) (s : sys) : Prop :=
  match a with
  | Exchange.Call a => looks a = false ∧ own_step a = true
  | Exchange.CallWrite t c _ => trs s !! t = Some c
  | Exchange.CallWritten _ => True
  | Exchange.End _ b => wire_alone b = true
  | Exchange.OwnRead c h => AddrConn.readers (ac s) !! r = Some (AddrConn.HrRead c) ∧ handlers s !! h = None
  | Exchange.Open _ => False
  | _ => True
  end.

Lemma client_lift_step r a s x :
  died s = None → liftable r a s → session_exec a (ex s) = Some x →
  ∃ s', exec (lift r a) s = Some s' ∧ ex s' = x ∧ ac s' = ac s ∧ died s' = None ∧ trs s' = trs s ∧
    match a with Exchange.OwnRead _ _ => True | _ => handlers s' = handlers s end.
Proof.
  intros Hd Hl Hx. unfold exec. rewrite Hd.
  destruct a as [a|c|t c w|t|c a|c h|h|h c w|h|c h]; cbn [lift liftable] in *.
  - destruct Hl as [Hl Ho]. unfold exec_call. rewrite Hl, Ho, Hx. by eexists.
  - done.
  - rewrite Hl. simpl. rewrite Hx. by eexists.
  - rewrite Hx. by eexists.
  - rewrite Hl, Hx. by eexists.
  - rewrite Hx. by eexists.
  - rewrite Hx. by eexists.
  - rewrite Hx. by eexists.
  - rewrite Hx. by eexists.
  - destruct Hl as [Hr Hh]. rewrite Hr. unfold read. assert (Hx' := Hx). effects Hx' as (k&k'&m&Hk&Hm&_).
    rewrite Hk. simpl. rewrite Hx. simpl. simpl in Hm. rewrite Hm. destruct (Exchange.as_request m) as [q|]; [|by eexists].
    unfold ClientHandlers.exec. simpl. rewrite Hd, Hr, Hh. by eexists.
Qed.

Lemma client_lift_run r l s x :
  died s = None →
  Forall (λ a, liftable r a s ∧ match a with Exchange.OwnRead _ _ => False | _ => True end) l →
  run session_exec l (ex s) = Some x →
  ∃ s', run exec (lift r <$> l) s = Some s' ∧ ex s' = x ∧ ac s' = ac s ∧ died s' = None ∧
    trs s' = trs s ∧ handlers s' = handlers s.
Proof.
  intros Hd Hl. revert s x Hd Hl. induction l as [|a l IH]; intros s x Hd Hl Hx.
  - exists s. by injection Hx as <-.
  - apply Forall_cons in Hl as [[Ha Hn] Hl]. simpl in Hx. apply bind_Some in Hx as (x1&Hx1&Hx).
    destruct (client_lift_step r a s x1 Hd Ha Hx1) as (s1&He&<-&Hac&Hd1&Ht&Hh).
    assert (handlers s1 = handlers s) as Hh' by by destruct a.
    destruct (IH s1 x Hd1) as (s2&Hrun&Hx2&Hac2&Hd2&Ht2&Hh2); [|done|].
    { eapply Forall_impl; [done|]. intros b [Hb ?]. split; [|done]. destruct b; simpl in *; congruence. }
    exists s2. rewrite fmap_cons. cbn [run]. rewrite He. simpl. rewrite Hrun. split_and!; congruence.
Qed.

(** A request and its answer up to the client's [handleRead]: such steps. *)
Definition before_read (t c w h w' : nat) (m m' : bytes) : list (Exchange.action (A:=call)) :=
  Exchange.request_actions ClientSide t c w h m ++
    Exchange.Handle h :: Exchange.Reply h c w' :: (Exchange.End c <$> Conn.carry_actions ServerSide w' m').

Lemma client_before_read_liftable r s t c w h w' m m' :
  trs s !! t = Some c →
  Forall (λ a, liftable r a s ∧ match a with Exchange.OwnRead _ _ => False | _ => True end)
    (before_read t c w h w' m m').
Proof. intros Ht. repeat constructor; done. Qed.

(** Steps of the session with one message received by [handleRead] in between. *)
Lemma client_lift_through r c h l1 l2 s x :
  died s = None →
  Forall (λ a, liftable r a s ∧ match a with Exchange.OwnRead _ _ => False | _ => True end) l1 →
  AddrConn.readers (ac s) !! r = Some (AddrConn.HrRead c) → handlers s !! h = None →
  Forall (λ a, looks a = false ∧ own_step a = true) l2 →
  run session_exec (l1 ++ Exchange.OwnRead c h :: (Exchange.Call <$> l2)) (ex s) = Some x →
  ∃ acts s', run exec acts s = Some s' ∧ length acts = length l1 + S (length l2) ∧
    ex s' = x ∧ ac s' = ac s ∧ died s' = None.
Proof.
  intros Hd H1 Hr Hh H2 Hx. rewrite run_app in Hx. apply bind_Some in Hx as (x1&Hx1&Hx).
  cbn [run] in Hx. apply bind_Some in Hx as (x2&Hx2&Hx3).
  destruct (client_lift_run r l1 s x1 Hd H1 Hx1) as (s1&Hrun1&<-&Hac1&Hd1&_&Hh1).
  destruct (client_lift_step r (Exchange.OwnRead c h) s1 x2 Hd1) as (s2&He&<-&Hac2&Hd2&_); [|done|].
  { simpl. by rewrite Hac1, Hh1. }
  destruct (client_lift_run r (Exchange.Call <$> l2) s2 x Hd2) as (s3&Hrun3&<-&Hac3&Hd3&_); [|done|].
  { apply Forall_fmap. eapply Forall_impl; [done|]. by intros a. }
  exists ((lift r <$> l1) ++ lift r (Exchange.OwnRead c h) :: (lift r <$> (Exchange.Call <$> l2))), s3.
  rewrite (run_then _ _ _ _ _ Hrun1), (run_step _ _ _ _ _ He), Hrun3.
  split_and!; [done| |done|congruence|done]. by rewrite length_app, length_cons, !length_fmap.
Qed.

Lemma client_call_step a x y :
  Session.client_alone a = true → ClientCalls.exec a (Exchange.calls x) = Some y →
  session_exec (Exchange.Call a) x = Some (Exchange.set_calls y (Exchange.new_request a x)).
Proof. intros Ha Hy. unfold Session.exec, Exchange.exec. simpl. by rewrite Ha, Hy. Qed.

(** Looking at the connection always works. *)
Lemma look_works c x :
  (ClientCalls.cc (Exchange.calls x) = None → AddrConn.closed_cc c = true) →
  session_exec (Exchange.Call (look c)) x =
    Some (Exchange.set_calls (ClientCalls.set_cc (view c) (Exchange.calls x)) x).
Proof.
  intros Hx. unfold look, view. destruct (AddrConn.closed_cc c); [by erewrite client_call_step|].
  erewrite client_call_step; [done|done|]. simpl. destruct (ClientCalls.cc _); [done|]. by discriminate Hx.
Qed.

(** [Invoke] of a ready client, up to its [tr.Write]. *)
Lemma client_invoke_starts s c t method args reply callID b :
  reachable exec init s → died s = None →
  AddrConn.closed_cc (ac s) = false → AddrConn.mu (ac s) = None →
  AddrConn.st (ac s) = Connectivity.Ready → AddrConn.transport (ac s) = Some c →
  ClientCalls.invs (Exchange.calls (ex s)) !! t = None →
  ClientCalls.fresh_id callID (Exchange.calls (ex s)) = true →
  ClientCalls.prepare (Some (Connectivity.Ready, true)) method args callID = Ok b →
  ∃ s', run exec [Call (ClientCalls.Invoke t method args reply callID); Call (ClientCalls.Register t);
      Call (ClientCalls.Transport t)] s = Some s' ∧
    ac s' = ac s ∧ died s' = None ∧ handlers s' = handlers s ∧ trs s' !! t = Some c ∧
    Exchange.conns (ex s') = Exchange.conns (ex s) ∧
    ClientCalls.invs (Exchange.calls (ex s')) !! t =
      Some (ClientCalls.mkInv callID reply false ClientCalls.IWrite) ∧
    ClientCalls.hands (Exchange.calls (ex s')) = ClientCalls.hands (Exchange.calls (ex s)) ∧
    Exchange.reqs (ex s') !! t = Some (Exchange.mkReq method args b None).
Proof.
  intros Hr Hd Hcl Hmu Hst Htr Hn Hf Hp. destruct (client_inv s Hr) as [_ Hopen _].
  set (cs := Exchange.calls (ex s)) in *.
  assert (view (ac s) = Some (Connectivity.Ready, true)) as Hv by (unfold view; by rewrite Hcl, Hst, Htr).
  assert (readable (ac s) = true) as Hrd by (unfold readable; by rewrite Hmu, orb_true_r).
  set (c0 := ClientCalls.set_cc (Some (Connectivity.Ready, true)) cs).
  set (i := ClientCalls.mkInv callID reply false).
  set (c1 := ClientCalls.mkSys (ClientCalls.cc c0) (ClientCalls.table c0) (<[t := i ClientCalls.IRegister]> (ClientCalls.invs c0))
    (ClientCalls.hands c0)).
  set (x1 := Exchange.set_calls c1 (Exchange.set_req t (Exchange.mkReq method args b None) (Exchange.set_calls c0 (ex s)))).
  assert (exec (Call (ClientCalls.Invoke t method args reply callID)) s = Some (set_ex x1 s)) as E1.
  { unfold exec. rewrite Hd. unfold exec_call. simpl. rewrite Hrd, look_works, Hv by done. simpl.
    erewrite client_call_step with (y := c1); [|done|]; simpl.
    - unfold Exchange.new_request. simpl. by rewrite Hp.
    - rewrite (Hf : ClientCalls.fresh_id callID (ClientCalls.set_cc (Some (Connectivity.Ready, true))
        (Exchange.calls (ex s))) = true). fold cs. by rewrite Hn, Hp. }
  set (c2 := ClientCalls.set_pc t (i ClientCalls.IRegister) ClientCalls.ITransport
    (ClientCalls.set_table (ct_put callID t (ClientCalls.table c1)) c1)).
  assert (exec (Call (ClientCalls.Register t)) (set_ex x1 s) = Some (set_ex (Exchange.set_calls c2 x1) s)) as E2.
  { unfold exec. simpl. rewrite Hd. unfold exec_call. simpl. erewrite client_call_step with (y := c2); [done|done|].
    simpl. by rewrite lookup_insert_eq. }
  set (c3 := ClientCalls.set_pc t (i ClientCalls.ITransport) ClientCalls.IWrite
    (ClientCalls.set_cc (Some (Connectivity.Ready, true)) c2)).
  set (x3 := Exchange.set_calls c3 (Exchange.set_calls (ClientCalls.set_cc (Some (Connectivity.Ready, true)) c2) x1)).
  assert (exec (Call (ClientCalls.Transport t)) (set_ex (Exchange.set_calls c2 x1) s) = Some (set_tr t c (set_ex x3 s))) as E3.
  { unfold exec. simpl. rewrite Hd. unfold exec_call. simpl. rewrite Hrd, look_works, Hv by done. simpl.
    erewrite client_call_step with (y := c3); [|done|]; simpl; [by rewrite Hcl, Htr|]. by rewrite lookup_insert_eq. }
  eexists. rewrite (run_step _ _ _ _ _ E1), (run_step _ _ _ _ _ E2), (run_step _ _ _ _ _ E3).
  split; [done|]. simpl. rewrite !lookup_insert_eq. done.
Qed.

(** ** After [Close] *)

(** What [Close] waits for: [teardown], and then the goroutines counted in [cc.wg]. *)
Record Close_returned (s : sys) : Prop := mkCloseReturned {
  cr_down : AddrConn.td (ac s) = AddrConn.DDown;
  cr_change : AddrConn.lc (ac s) = AddrConn.LcExited;
  cr_listen : AddrConn.lr (ac s) = AddrConn.LrExited;
  cr_readers r pc : AddrConn.readers (ac s) !! r = Some pc → pc = AddrConn.HrExited;
  cr_handlers h x : handlers s !! h = Some x → ClientHandlers.h_pc x = ClientHandlers.HDone;
  cr_responses h hd : ClientCalls.hands (Exchange.calls (ex s)) !! h = Some hd → ∃ o, ClientCalls.h_pc hd = ClientCalls.HDone o;
}.

(** No goroutine is left that could hand an [Invoke] its response. *)
Record deaf (s : sys) : Prop := mkDeaf {
  df_listen : AddrConn.lr (ac s) = AddrConn.LrExited;
  df_readers r pc : AddrConn.readers (ac s) !! r = Some pc → pc = AddrConn.HrExited;
  df_responses h hd : ClientCalls.hands (Exchange.calls (ex s)) !! h = Some hd → ∃ o, ClientCalls.h_pc hd = ClientCalls.HDone o;
}.

(** Only a [handleRead] makes a response arrive. *)
Lemma session_arrives a x x' :
  session_exec a x = Some x' → (∀ c h, a ≠ Exchange.OwnRead c h) →
  Exchange.calls x' = Exchange.calls x ∨ ∃ b, ClientCalls.exec b (Exchange.calls x) = Some (Exchange.calls x') ∧
    match b with ClientCalls.Arrive _ _ => False | _ => True end.
Proof.
  intros Hx Hn. destruct (session_invokes _ _ _ Hx) as [(b&->&Hb&_)|[(?&?&?&?&?&_&?&_)|(_&[?|(b&Hb&Hl)])]]; auto.
  - right. exists b. split; [done|]. destruct b; try done.
  - destruct b; try done; [right; by eexists|]. destruct Hl as (c&h'&->). by destruct (Hn c h').
Qed.

(** One step of the session in which nothing arrives. *)
Lemma quiet_session a x x' t i :
  session_exec a x = Some x' → (∀ c h, a ≠ Exchange.OwnRead c h) →
  (∀ h hd, ClientCalls.hands (Exchange.calls x) !! h = Some hd → ∃ o, ClientCalls.h_pc hd = ClientCalls.HDone o) →
  ClientCalls.invs (Exchange.calls x) !! t = Some i →
  ClientCalls.i_done i = true ∨ ClientCalls.i_pc i = ClientCalls.IWait →
  (∀ h hd, ClientCalls.hands (Exchange.calls x') !! h = Some hd → ∃ o, ClientCalls.h_pc hd = ClientCalls.HDone o) ∧
  ∃ i', ClientCalls.invs (Exchange.calls x') !! t = Some i' ∧
    (ClientCalls.i_done i' = true ∨ ClientCalls.i_pc i' = ClientCalls.IWait).
Proof.
  intros Hx Hn Hh Hi Hw. destruct (session_arrives _ _ _ Hx Hn) as [->|(b&Hb&Ha)]; [eauto|].
  split; [by eapply ClientCalls.clientcalls_hands_done|by eapply ClientCalls.clientcalls_waits].
Qed.

Lemma deaf_conn a s s' :
  deaf s → exec a s = Some s' → AddrConn.lr (ac s') = AddrConn.LrExited ∧
    ∀ r pc, AddrConn.readers (ac s') !! r = Some pc → pc = AddrConn.HrExited.
Proof.
  intros [Hl Hr _] He. pose proof (client_exec_conns _ _ _ He) as Hc. destruct a; try (by destruct Hc as [-> _]).
  apply pumps_follow in He. apply ClientPumps.exec_conn in He as [Hac|[b Hb]]; simpl in *; [by rewrite Hac|].
  by eapply AddrConn.addrconn_readers_over.
Qed.

Lemma deaf_step a s s' t i :
  deaf s → exec a s = Some s' → ClientCalls.invs (Exchange.calls (ex s)) !! t = Some i →
  ClientCalls.i_done i = true ∨ ClientCalls.i_pc i = ClientCalls.IWait →
  deaf s' ∧ ∃ i', ClientCalls.invs (Exchange.calls (ex s')) !! t = Some i' ∧
    (ClientCalls.i_done i' = true ∨ ClientCalls.i_pc i' = ClientCalls.IWait).
Proof.
  intros Hd He Hi Hw. destruct (deaf_conn _ _ _ Hd He) as [Hl Hr]. destruct Hd as [_ Hr0 Hh].
  assert ((∀ h hd, ClientCalls.hands (Exchange.calls (ex s')) !! h = Some hd → ∃ o, ClientCalls.h_pc hd = ClientCalls.HDone o) ∧
    ∃ i', ClientCalls.invs (Exchange.calls (ex s')) !! t = Some i' ∧
      (ClientCalls.i_done i' = true ∨ ClientCalls.i_pc i' = ClientCalls.IWait)) as [? ?]; [|by split].
  destruct (exec_aside _ _ _ He) as [(b&->&Hb)|(_&[->|(b&Hb&Ha)])]; [|by eauto|].
  - destruct (call_cases _ _ _ Hb) as (_&[(_&_&(x&Hx&Hx')&_)|(_&_&Hx&_)]).
    + destruct (quiet_session _ _ _ t i Hx ltac:(done) Hh Hi Hw) as [Hh1 (i1&Hi1&Hw1)].
      by eapply quiet_session.
    + by eapply quiet_session.
  - eapply quiet_session; [done|..|done]; [|done..]. intros c h ->. simpl in Ha. destruct Ha as [r Hrd].
    by specialize (Hr0 _ _ Hrd).
Qed.

(** ** Theorems *)

(** C6: A call on a ready client, from the start of [Invoke] to its return: when the
    connection is READY over a transport that a [handleRead] listens to and on which
    nothing else is going on, a new [Invoke] whose request the server has an answer to
    returns with that answer after eighteen steps of the goroutines involved, which leave
    the connection as it was. *)
Theorem client_call_completes s c r k t method args reply callID b rq rb p :
  reachable exec init s → died s = None →
  AddrConn.closed_cc (ac s) = false → AddrConn.mu (ac s) = None →
  AddrConn.st (ac s) = Connectivity.Ready → AddrConn.transport (ac s) = Some c →
  AddrConn.readers (ac s) !! r = Some (AddrConn.HrRead c) →
  Exchange.conns (ex s) !! c = Some k → Conn.quiet k →
  ClientCalls.invs (Exchange.calls (ex s)) !! t = None →
  ClientCalls.fresh_id callID (Exchange.calls (ex s)) = true →
  ClientCalls.prepare (Some (Connectivity.Ready, true)) method args callID = Ok b →
  decode_envelope b = Ok (mkMessage (Some (Message_Request rq))) →
  Session.handles uuid_Parse svc pubKey rq rb →
  decode_envelope rb = Ok (mkMessage (Some (Message_Response p))) →
  ∃ acts s' i', run exec acts s = Some s' ∧ length acts = 18 ∧
    ClientCalls.invs (Exchange.calls (ex s')) !! t = Some i' ∧
    ClientCalls.i_pc i' = ClientCalls.IReturned (Some p) (ClientCalls.finish p reply) ∧
    ac s' = ac s ∧ died s' = None.
Proof.
  intros Hr Hd Hcl Hmu Hst Htr Hrd Hk Hq Hn Hf Hp Hdec Hb Hrb.
  destruct (client_invoke_starts s c t method args reply callID b Hr Hd Hcl Hmu Hst Htr Hn Hf Hp)
    as (s1&Hrun1&Hac1&Hd1&Hh1&Ht1&Hc1&Hi1&Hhd1&Hrq1).
  assert (reachable exec init s1) as Hr1 by (etrans; [done|by eapply run_reachable]).
  set (x := ex s1) in *. set (h' := fresh (dom (ClientCalls.hands (Exchange.calls x)) ∪ dom (handlers s1))).
  assert (h' ∉ dom (ClientCalls.hands (Exchange.calls x)) ∪ dom (handlers s1)) as Hfresh by apply is_fresh.
  apply not_elem_of_union in Hfresh as [Hfh%not_elem_of_dom Hfs%not_elem_of_dom].
  destruct (Session.call_run uuid_Parse svc pubKey x c k t
    (ClientCalls.mkInv callID reply false ClientCalls.IWrite) (Exchange.mkReq method args b None) rq rb p h')
    as (w&h&w'&x'&i'&Hrun2&Hi'&Hpc'); [by apply client_session|by rewrite Hc1|done..|].
  destruct (client_lift_through r c h' _ [ClientCalls.HandlerLookup h'; ClientCalls.Receive t h'; ClientCalls.Cleanup t] s1 x'
    Hd1 (client_before_read_liftable r s1 t c w h w' _ _ Ht1) ltac:(by rewrite Hac1) Hfs ltac:(by repeat constructor) Hrun2) as (acts&s'&Hrun5&Hlen5&Hx5&Hac5&Hd5).
  eexists (_ ++ acts), s', i'. rewrite (run_then _ _ _ _ _ Hrun1), Hx5.
  split_and!; [done| |done|done|congruence|done]. by rewrite length_app, Hlen5.
Qed.

(** C9: The client runs as its parts do alone: its calls, with the server's handlers, as
    [Session] says, over any number of connections made one after the other; its
    connection and transports as [ClientPumps] says, its request handlers as
    [ClientHandlers] does.  The connections are the transports it dialled, an [Invoke] in
    [tr.Write] has one of them, and its request is in no other. *)
Theorem client_refines s :
  reachable exec init s →
  reachable session_exec Session.init (ex s) ∧
  reachable ClientPumps.exec ClientPumps.init (pumps_of s) ∧
  reachable (ClientHandlers.exec own) ClientHandlers.init (handlers_of s) ∧
  (∀ tr, is_Some (Exchange.conns (ex s) !! tr) ↔ is_Some (AddrConn.cbs (ac s) !! tr)) ∧
  (∀ t i, ClientCalls.invs (Exchange.calls (ex s)) !! t = Some i → ClientCalls.i_pc i = ClientCalls.IWrite →
    ∃ tr, trs s !! t = Some tr ∧ is_Some (AddrConn.cbs (ac s) !! tr)) ∧
  ∀ t q tr w, Exchange.reqs (ex s) !! t = Some q → Exchange.r_write q = Some (tr, w) → trs s !! t = Some tr.
Proof.
  intros Hr. destruct (client_inv s Hr) as [[_ Hw Hs] _ Ht].
  split_and!; [by apply client_session|by apply client_pumps|by apply client_handlers|..|done].
  - intros tr. by apply client_dialled.
  - intros t i Hi Hpc. destruct (Hw t i Hi Hpc) as [tr Htr]. exists tr. split; [done|].
    apply client_dialled; [done|]. by eapply Ht.
Qed.

(** C24: What an [Invoke] that has registered its call finds, once [Dial] has returned and
    whenever [ac.mu] is free: after [Close], the error of the nil check; while the
    connection is READY, or IDLE after it was, the transport, to which it goes on to
    write; and otherwise the error that there is none. *)
Theorem invoke_takes_transport s t i :
  reachable exec init s → died s = None → AddrConn.rs (ac s) ≠ AddrConn.RConnect →
  AddrConn.mu (ac s) = None →
  ClientCalls.invs (Exchange.calls (ex s)) !! t = Some i → ClientCalls.i_pc i = ClientCalls.ITransport →
  ∃ s' i', exec (Call (ClientCalls.Transport t)) s = Some s' ∧
    ClientCalls.invs (Exchange.calls (ex s')) !! t = Some i' ∧
    if AddrConn.closed_cc (ac s) then
      ClientCalls.i_pc i' = ClientCalls.ICleanup None (Err "client Close() called")
    else if ClientHandlers.up (AddrConn.st (ac s)) then
      ClientCalls.i_pc i' = ClientCalls.IWrite ∧
      ∃ tr, AddrConn.transport (ac s) = Some tr ∧ trs s' !! t = Some tr ∧
        is_Some (Exchange.conns (ex s') !! tr)
    else ClientCalls.i_pc i' = ClientCalls.ICleanup None (Err "wsrpc: transport not ready").
Proof.
  intros Hr Hd Hrs Hmu Hi Hpc. destruct (client_inv s Hr) as [_ Hopen _].
  pose proof (ClientHandlers.ci_transport _
    (ClientHandlers.in_conn _ (ClientHandlers.handlers_reachable_inv own _ (client_handlers s Hr))) Hrs) as Hup.
  simpl in Hup. assert (readable (ac s) = true) as Hrd by (unfold readable; by rewrite Hmu, orb_true_r).
  set (x1 := Exchange.set_calls (ClientCalls.set_cc (view (ac s)) (Exchange.calls (ex s))) (ex s)).
  assert (∃ pc, session_exec (Exchange.Call (ClientCalls.Transport t)) x1 =
      Some (Exchange.set_calls (ClientCalls.set_pc t i pc (Exchange.calls x1)) x1) ∧
    pc = match view (ac s) with
         | None => ClientCalls.ICleanup None (Err "client Close() called")
         | Some (_, false) => ClientCalls.ICleanup None (Err "wsrpc: transport not ready")
         | Some (_, true) => ClientCalls.IWrite
         end) as (pc&Hx&Epc).
  { eexists. split; [|done]. erewrite client_call_step; [done|done|]. simpl. rewrite Hi. simpl.
    unfold ClientCalls.exec_inv. by rewrite Hpc. }
  unfold exec. rewrite Hd. unfold exec_call. cbn [looks]. rewrite Hrd, (look_works _ _ Hopen).
  cbn [mbind option_bind]. fold x1. rewrite Hx. cbn [mbind option_bind].
  eexists _, (ClientCalls.mkInv (ClientCalls.i_key i) (ClientCalls.i_reply i) (ClientCalls.i_done i) pc).
  split; [done|]. rewrite Hup. unfold view, takes in *.
  destruct (AddrConn.closed_cc (ac s)); [split; [apply lookup_insert_eq|done]|].
  destruct (AddrConn.transport (ac s)) as [tr|] eqn:Htr; simpl; (split; [apply lookup_insert_eq|]); [|done].
  split; [done|]. exists tr. split; [done|]. split; [apply lookup_insert_eq|].
  apply client_dialled; [done|]. eapply ClientPumps.ci_transport; [|done].
  apply (ClientPumps.in_conn _ (ClientPumps.client_reachable_inv _ (client_pumps s Hr))).
Qed.

(** C26: Where a reply ends up.  While the process lives, with the reply of a request
    encoded and [ac.mu] free, the handling goroutine can go on.  If [Close] was not called
    and the connection is READY, or IDLE after it was, it hands the reply to [Write] of
    the transport the connection has; when that is IDLE it does so in vain, since the write
    pump of this transport has ended and takes no message any more, whatever happens.
    Otherwise a nil dereference ends the process. *)
Theorem reply_outcome s h q b :
  reachable exec init s → died s = None →
  handlers s !! h = Some (ClientHandlers.mkHandler q (ClientHandlers.HReply b)) →
  AddrConn.mu (ac s) = None →
  if negb (AddrConn.closed_cc (ac s)) && ClientHandlers.up (AddrConn.st (ac s)) then
    ∃ tr s' k, AddrConn.transport (ac s) = Some tr ∧ exec (Handle (ClientHandlers.Reply h)) s = Some s' ∧
      died s' = None ∧
      handlers s' !! h = Some (ClientHandlers.mkHandler q (ClientHandlers.HWrite tr b)) ∧
      Exchange.conns (ex s') !! tr = Some k ∧
      (AddrConn.st (ac s) = Connectivity.Idle → ∀ s'' k', reachable exec s' s'' →
         Exchange.conns (ex s'') !! tr = Some k' →
         stopped (wp (Conn.near ClientSide k')) = true ∧
         taken (Conn.near ClientSide k') = taken (Conn.near ClientSide k))
  else ∃ s', exec (Handle (ClientHandlers.Reply h)) s = Some s' ∧ died s' = Some NilDeref.
Proof.
  intros Hr Hd Hh Hm.
  pose proof (ClientHandlers.reply_looks_up own _ h q b (client_handlers s Hr) Hd Hh Hm) as Hlook.
  simpl in Hlook. destruct (negb _ && _).
  - destruct Hlook as (tr&hs&Htr&He&Hd'&Hh').
    assert (exec (Handle (ClientHandlers.Reply h)) s = Some (set_handlers hs s)) as He'
      by (unfold exec; by rewrite Hd, He).
    assert (reachable exec init (set_handlers hs s)) as Hr' by (eapply rtc_r; [done|by eexists]).
    assert (ClientHandlers.ac hs = ac s) as Hac by by apply handler_alone in He.
    assert (is_Some (Exchange.conns (ex s) !! tr)) as [k Hk].
    { apply client_dialled; [done|]. by apply (AddrConn.cbk_known _ (AddrConn.addrconn_callbacks _
        (ClientPumps.conn_reachable _ (client_pumps s Hr)))). }
    exists tr, (set_handlers hs s), k. split_and!; try done.
    intros Hst s'' k' Hr'' Hk'.
    destruct (ClientPumps.idle_spent tr (pumps_of (set_handlers hs s))) as [l Hsp];
      [by apply client_pumps|simpl; by rewrite Hac..|].
    assert (reachable ClientPumps.exec (pumps_of (set_handlers hs s)) (pumps_of s'')) as Hps.
    { clear -Hr''. induction Hr'' as [|s1 s2 s3 [a Ha] _ IH]; [apply rtc_refl|].
      etrans; [by eapply client_exec_pumps|done]. }
    destruct (ClientPumps.spent_stays tr l _ _ (client_pumps _ Hr') Hsp Hps) as (p'&Hp'&Hw'&Ht').
    destruct Hsp as (p&Hp&_&Ht). simpl in Hp, Hp'. rewrite lookup_fmap, Hk' in Hp'. rewrite lookup_fmap, Hk in Hp.
    injection Hp as <-. injection Hp' as <-. simpl. by rewrite Ht, Ht'.
  - destruct Hlook as (hs&He&Hd'). exists (set_handlers hs s). split; [|done].
    unfold exec. by rewrite Hd, He.
Qed.

(** C25: [Close] does not end the calls: an [Invoke] that still waits for its response when
    [Close] has returned can only end by its own context.  Whatever happens from then on,
    it waits until that is done. *)
Theorem close_strands_calls s s' t i :
  Close_returned s → ClientCalls.invs (Exchange.calls (ex s)) !! t = Some i →
  ClientCalls.i_pc i = ClientCalls.IWait → reachable exec s s' →
  ∃ i', ClientCalls.invs (Exchange.calls (ex s')) !! t = Some i' ∧
    (ClientCalls.i_done i' = true ∨ ClientCalls.i_pc i' = ClientCalls.IWait).
Proof.
  intros [_ _ Hl Hrd _ Hh] Hi Hpc Hr.
  assert (deaf s' ∧ ∃ i', ClientCalls.invs (Exchange.calls (ex s')) !! t = Some i' ∧
    (ClientCalls.i_done i' = true ∨ ClientCalls.i_pc i' = ClientCalls.IWait)) as [_ ?]; [|done].
  apply (reachable_invariant exec (λ s, deaf s ∧ ∃ i', ClientCalls.invs (Exchange.calls (ex s)) !! t = Some i' ∧
    (ClientCalls.i_done i' = true ∨ ClientCalls.i_pc i' = ClientCalls.IWait)) s);
    [split; [by split|eauto]| |done].
  intros a s1 s2 (Hd&i1&Hi1&Hw) He. by eapply deaf_step.
Qed.
End Client.
(** ** Concrete runs: a client of the echo service of [Rpc], over connection 1 *)

Abbreviation w_sys := (sys (U:=Toy.U) (T:=gmap string nat)).
Abbreviation w_svc := (Service.register Rpc.w_sd tt).

Definition w_exec : action → w_sys → option w_sys :=
  exec (Impl':=()) Rpc.w_uuid w_svc [x01] None.
Definition w_init : w_sys := init.

(** Connected, with a [handleRead]. *)
Definition w_ready : list (action (U:=Toy.U)) :=
  Ac <$> ([AddrConn.ListenRead 1] ++ AddrConn.w_connect ++
    [AddrConn.ListenRead 1; AddrConn.ListenRead 1; AddrConn.ListenRead 1] ++ AddrConn.w_up 1 ++
    [AddrConn.ListenRead 1; AddrConn.ListenRead 1; AddrConn.Reader 1]).
Definition w_registered : list (action (U:=Toy.U)) :=
  w_ready ++ [Call (ClientCalls.Invoke 1 "Ping" (toy_user "hi") (toy_user "") "id1"); Call (ClientCalls.Register 1)].
(** The call waits for its response. *)
Definition w_waiting : list (action (U:=Toy.U)) :=
  w_registered ++ [Call (ClientCalls.Transport 1); Write 1 7;
    Wire 1 (ClientSide, PumpEvent (PTake 7)); Wire 1 (ClientSide, PumpEvent (PWrote true)); Written 1].
(** [Close] runs to its end. *)
Definition w_closed : list (action (U:=Toy.U)) :=
  w_waiting ++ (Ac <$> [AddrConn.CallClose; AddrConn.Teardown; AddrConn.PublishCancelled; AddrConn.Teardown; AddrConn.Teardown]) ++
  [Wire 1 (ClientSide, PumpEvent (PClosed true)); Wire 1 (ClientSide, ReadEvent ReadErr);
   Wire 1 (ClientSide, PumpEvent PLingered)] ++
  (Ac <$> [AddrConn.Callback 1; AddrConn.Callback 1; AddrConn.Callback 1; AddrConn.Callback 1;
    AddrConn.Teardown; AddrConn.Reset AddrConn.Cancelled; AddrConn.Teardown; AddrConn.ListenChange;
    AddrConn.ListenRead 2; AddrConn.ListenReadDone; AddrConn.Reader 1]).

Definition w_ready_state : w_sys := final w_exec w_ready w_init.
Definition w_registered_state : w_sys := final w_exec w_registered w_init.
Definition w_waiting_state : w_sys := final w_exec w_waiting w_init.
Definition w_closed_state : w_sys := final w_exec w_closed w_init.
Definition w_inv (done : bool) (pc : ClientCalls.inv_pc (U:=Toy.U)) : ClientCalls.invoker :=
  ClientCalls.mkInv "id1" (toy_user "") done pc.

Lemma client_refines_witness :
  reachable (Session.exec Rpc.w_uuid w_svc [x01]) Session.init (ex w_closed_state) ∧
  reachable ClientPumps.exec ClientPumps.init (pumps_of w_closed_state) ∧ trs w_closed_state !! 1 = Some 1.
Proof.
  destruct (client_refines Rpc.w_uuid w_svc [x01] (Impl':=()) None w_closed_state) as (H1&H2&_&_&_&H6); [at_state|].
  split; [exact H1|]. split; [exact H2|].
  apply (H6 1 (Session.w_req (Some (1, 7))) 1 7); [at_state|reflexivity].
Defined.

Lemma invoke_takes_transport_witness :
  ∃ s', w_exec (Call (ClientCalls.Transport 1)) w_registered_state = Some s' ∧
    trs s' !! 1 = Some 1.
Proof.
  destruct (invoke_takes_transport Rpc.w_uuid w_svc [x01] (Impl':=()) None w_registered_state 1
    (w_inv false ClientCalls.ITransport)) as (s'&i'&He&_&Hx);
    [at_state|at_state|by vm_compute|at_state..|].
  assert (AddrConn.closed_cc (ac w_registered_state) = false) as Hcl by at_state.
  assert (ClientHandlers.up (AddrConn.st (ac w_registered_state)) = true) as Hup by at_state.
  rewrite Hcl, Hup in Hx. destruct Hx as (_&tr&Htr&Ht&_).
  assert (AddrConn.transport (ac w_registered_state) = Some 1) as Htr' by at_state.
  rewrite Htr' in Htr. injection Htr as <-. exists s'. split; [exact He|exact Ht].
Defined.

(** A client that serves requests itself: one arrives and is handled; and then the
    connection goes IDLE, or is closed. *)
Definition w_serving : action (U:=Toy.U) → w_sys → option w_sys := exec Rpc.w_uuid w_svc [x01] w_svc.
Definition w_served : list (action (U:=Toy.U)) :=
  w_ready ++ Wire 1 (ServerSide, Transport.Write 9 (Exchange.carried Rpc.w_request)) ::
  (Wire 1 <$> Conn.carry_actions ServerSide 9 (Exchange.carried Rpc.w_request)) ++
  [Read 1 5; Handle (ClientHandlers.Run 5)].
Definition w_served_state : w_sys := final w_serving w_served w_init.
Definition w_idle_state : w_sys := final w_serving (w_served ++ Wire 1 (ClientSide, PumpEvent (PTick false)) ::
  (Ac <$> [AddrConn.Callback 1; AddrConn.Callback 1; AddrConn.Publish; AddrConn.ListenChange; AddrConn.Callback 1])) w_init.
Definition w_shut_state : w_sys := final w_serving (w_served ++ [Ac AddrConn.CallClose]) w_init.

Lemma reply_outcome_witness :
  (∃ s', w_serving (Handle (ClientHandlers.Reply 5)) w_served_state = Some s' ∧
    handlers s' !! 5 = Some (ClientHandlers.mkHandler (Some Session.w_rq) (ClientHandlers.HWrite 1 Rpc.w_reply))) ∧
  (∃ s' k, w_serving (Handle (ClientHandlers.Reply 5)) w_idle_state = Some s' ∧
    Exchange.conns (ex s') !! 1 = Some k ∧ stopped (wp (Conn.near ClientSide k)) = true) ∧
  ∃ s', w_serving (Handle (ClientHandlers.Reply 5)) w_shut_state = Some s' ∧ died s' = Some NilDeref.
Proof.
  pose proof (reply_outcome Rpc.w_uuid w_svc [x01] w_svc w_served_state 5 (Some Session.w_rq) Rpc.w_reply) as H1.
  pose proof (reply_outcome Rpc.w_uuid w_svc [x01] w_svc w_idle_state 5 (Some Session.w_rq) Rpc.w_reply) as H2.
  pose proof (reply_outcome Rpc.w_uuid w_svc [x01] w_svc w_shut_state 5 (Some Session.w_rq) Rpc.w_reply) as H3.
  assert (negb (AddrConn.closed_cc (ac w_served_state)) && ClientHandlers.up (AddrConn.st (ac w_served_state)) = true)
    as E1 by at_state.
  assert (negb (AddrConn.closed_cc (ac w_idle_state)) && ClientHandlers.up (AddrConn.st (ac w_idle_state)) = true)
    as E2 by at_state.
  assert (negb (AddrConn.closed_cc (ac w_shut_state)) && ClientHandlers.up (AddrConn.st (ac w_shut_state)) = false)
    as E3 by at_state.
  rewrite E1 in H1. rewrite E2 in H2. rewrite E3 in H3. split; [|split].
  - destruct H1 as (tr&s'&k&Htr&He&_&Hh&_); [at_state..|].
    assert (AddrConn.transport (ac w_served_state) = Some 1) as Ht by at_state.
    rewrite Ht in Htr. injection Htr as <-. exists s'. split; [exact He|exact Hh].
  - destruct H2 as (tr&s'&k&Htr&He&_&_&Hk&Hidle); [at_state..|].
    assert (AddrConn.transport (ac w_idle_state) = Some 1) as Ht by at_state.
    rewrite Ht in Htr. injection Htr as <-. exists s', k. split; [exact He|]. split; [exact Hk|].
    apply (Hidle ltac:(at_state) s' k (rtc_refl _ _) Hk).
  - apply H3; at_state.
Defined.

Lemma client_call_completes_witness :
  ∃ acts s' i', run w_exec acts w_ready_state = Some s' ∧
    ClientCalls.invs (Exchange.calls (ex s')) !! 1 = Some i' ∧
    ClientCalls.i_pc i' = ClientCalls.IReturned (Some Session.w_resp) Session.w_out.
Proof.
  destruct (client_call_completes Rpc.w_uuid w_svc [x01] (Impl':=()) None w_ready_state 1 1 Conn.init 1
    "Ping" (toy_user "hi") (toy_user "") "id1" Rpc.w_request Session.w_rq Rpc.w_reply Session.w_resp)
    as (acts&s'&i'&Hrun&_&Hi&Hpc&_);
    [at_state|at_state|at_state|at_state|at_state|at_state|at_state|at_state|by intros []|at_state..|].
  exists acts, s', i'. split_and!; [exact Hrun|exact Hi|exact Hpc].
Defined.

Lemma close_strands_calls_witness :
  ∃ i', ClientCalls.invs (Exchange.calls (ex w_closed_state)) !! 1 = Some i' ∧
    (ClientCalls.i_done i' = true ∨ ClientCalls.i_pc i' = ClientCalls.IWait).
Proof.
  apply (close_strands_calls Rpc.w_uuid w_svc [x01] (Impl':=()) None w_closed_state w_closed_state 1
    (w_inv false ClientCalls.IWait)); [|at_state|at_state|apply rtc_refl].
  assert (AddrConn.readers (ac w_closed_state) = {[1 := AddrConn.HrExited]}) as Hr by at_state.
  assert (handlers w_closed_state = ∅) as Hh by at_state.
  assert (ClientCalls.hands (Exchange.calls (ex w_closed_state)) = ∅) as Hd by at_state.
  split; [at_state|at_state|at_state|..].
  - intros r pc. rewrite Hr. intros [_ <-]%lookup_singleton_Some. reflexivity.
  - intros h x. rewrite Hh, lookup_empty. discriminate.
  - intros h hd. rewrite Hd, lookup_empty. discriminate.
Defined.
End Client.
