(* ===== verification/Host.v ===== *)
(** A [Server] as a whole: the goroutines that admit, read and drop its connections
    ([Server], with the transports of [Pumps]), those that make its calls ([ServerCalls])
    and serve its clients' requests, and the clients at the other ends
    ([ServerSession]).

    They share [s.mu] and [s.connMgr].  A response handler holds [s.mu] while it sends to
    its call's channel, and whoever else takes it waits: a handshake, a callback, [Stop], a
    call that registers, every [sendMsg].  A message is sent through the transport that
    [getTransport] finds under the receiver's key.

    A connection's number stands for its key, too ([owner]): [wshandler] gives a
    connection a number of the key it authenticated. *)
From S2P Require Import Prelude Credentials Peer Message Methods Service ConnMgr.
From S2P Require Import ServerCalls Rpc Transport Conn Exchange ServerSession Server Pumps.

Module Host.
Import Message Transport.
#[local] Existing Instance ServerSession.server_caller.
#[local] Existing Instance ServerSession.server_caller_laws.

Section Host.
Context {U : Type} `{ProtoLaws U}.
Context {T : Type} `{!CallTable T (bytes * string) nat, !CallTableLaws T (bytes * string) nat}.
Context {Impl Impl' : Type}.
(** The key of each connection, the clients that run this library, and their services. *)
Context (owner : nat → bytes) (honest : bytes → bool)
  (svc : bytes → option (Service.serviceInfo U Impl)).
(** [x509.ParseCertificate], [uuid.Parse] and the server's own service. *)
Context (ParseCertificate : bytes → outcome Credentials.Certificate) (uuid_Parse : string → outcome Z)
  (own : option (Service.serviceInfo U Impl')).

Abbreviation session := (Exchange.sys (U:=U) (C:=ServerCalls.sys (U:=U) (T:=T))).
Abbreviation session_exec := (ServerSession.exec owner honest svc).
Abbreviation call := (ServerCalls.action (U:=U)).

(** A goroutine in [Server.handleMessageRequest]. *)
Inductive handler_pc :=
  | HRun                              (* handling the request *)
  | HSend (b : slice)                 (* the reply is encoded; about to call [sendMsg] *)
  | HWrite (tr : nat) (b : slice)     (* in [tr.Write] *)
  | HDone.

Record handler := mkHandler { h_key : bytes; h_req : Message.Request; h_pc : handler_pc }.

Record sys := mkSys {
  sv : Server.server;
  ex : session;                  (* calls, connections, and the clients' handlers *)
  handlers : gmap nat handler;
  died : option panic;
  trs : gmap nat nat;            (* the local [tr] of an [Invoke] in [sendMsg] *)
  sends : gmap nat nat;          (* the [Write] a handler has handed its reply to *)
}.

Definition init (ks : list bytes) : sys :=
  mkSys (Server.NewServer ks) ServerSession.init ∅ None ∅ ∅.

Definition set_ex (x : session) (s : sys) : sys :=
  mkSys (sv s) x (handlers s) (died s) (trs s) (sends s).
Definition set_sv (v : Server.server) (s : sys) : sys :=
  mkSys v (ex s) (handlers s) (Server.crash v) (trs s) (sends s).
Definition set_handler (h : nat) (x : handler) (pc : handler_pc) (s : sys) : sys :=
  mkSys (sv s) (ex s) (<[h := mkHandler (h_key x) (h_req x) pc]> (handlers s)) (died s) (trs s) (sends s).
Definition die (p : panic) (s : sys) : sys :=
  mkSys (sv s) (ex s) (handlers s) (Some p) (trs s) (sends s).
Definition set_tr (t tr : nat) (s : sys) : sys :=
  mkSys (sv s) (ex s) (handlers s) (died s) (<[t := tr]> (trs s)) (sends s).
Definition set_send (h w : nat) (s : sys) : sys :=
  mkSys (sv s) (ex s) (handlers s) (died s) (trs s) (<[h := w]> (sends s)).

(** No response handler holds [s.mu]. *)
Definition unlocked (s : sys) : bool :=
  bool_decide (ServerCalls.mu (Exchange.calls (ex s)) = None).

(** The part that [Pumps] has. *)
Definition pumps_of (s : sys) : Pumps.sys :=
  Pumps.mkSys (sv s) (Conn.near ServerSide <$> Exchange.conns (ex s)) (negb (unlocked s)).

(** The steps of the calls that take [s.mu] for writing. *)
Definition writes_mu (a : call) : bool :=
  match a with ServerCalls.Register _ | ServerCalls.RemoveCall _ | ServerCalls.HandlerLock _ => true | _ => false end.

Inductive action :=
  | Srv (a : Server.action)              (* the server's own code *)
  | Wire (c : nat) (a : Conn.action)     (* the pumps of a connection, its network, and what
                                            else its client writes *)
  | Call (a : call)                      (* a step of an [Invoke] or of a response handler *)
  | Find (t : nat)                       (* an [Invoke] looks its transport up *)
  | Write (t w : nat)                    (* and enters [tr.Write] *)
  | Written (t : nat)                    (* and gets its result *)
  | Serve (a : Exchange.action (A:=call)) (* a goroutine of a client *)
  | Read (rd h : nat)                    (* a [handleRead] receives *)
  | HandlerRun (h : nat)
  | HandlerSend (h : nat)                (* [sendMsg] looks the transport up *)
  | ReplyWrite (h w : nat)               (* the reply enters [tr.Write] *)
  | ReplyWritten (h : nat).

(** The connections after a step of the server: the new one is open, and [Close] is
    called on those it closed. *)
Definition follow (m m' : gmap nat Server.trans) : list (Exchange.action (A:=call)) :=
  (Exchange.Open <$> elements (dom m' ∖ dom m)) ++
  ((λ tr, Exchange.End tr (ServerSide, Transport.Close 0)) <$>
    elements (dom (filter (λ it, Server.t_closing it.2 = true) m'))).

(** [wshandler] makes a transport of the key it authenticated. *)
Definition numbered (a : Server.action) (v : Server.server) : bool :=
  match a with
  | Server.Start h tr =>
      match Server.w_pc <$> Server.handlers v !! h with
      | Some (Server.WStart k) => bool_decide (owner tr = k)
      | _ => true
      end
  | _ => true
  end.

(** The steps of a connection that no other goroutine takes part in, but the server's
    callback. *)
Definition wire_alone (a : Conn.action) : bool :=
  match a with
  | (ServerSide, Transport.Write _ _) => false
  | (ServerSide, b) => Pumps.pump_alone b
  | _ => true
  end.

Definition exec_server (a : Server.action) (s : sys) : option sys :=
  v ← Pumps.server_step ParseCertificate a (pumps_of s); Some (set_sv v s).

(** The callback of a transport, and the end of its connection, are steps of [Server]. *)
Definition exec_wire (c : nat) (a : Conn.action) (s : sys) : option sys :=
  if wire_alone a then
    k ← Exchange.conns (ex s) !! c; x ← session_exec (Exchange.End c a) (ex s);
    match a with
    | (ServerSide, b) =>
        match Pumps.shows c b (Conn.near ServerSide k) with
        | Some b => exec_server b (set_ex x s)
        | None => Some (set_ex x s)
        end
    | _ => Some (set_ex x s)
    end
  else None.

Definition exec_call (a : call) (s : sys) : option sys :=
  match a with
  | ServerCalls.Lookup _ _ => None
  | _ =>
      if writes_mu a && negb (Server.may_write (sv s)) then None
      else x ← session_exec (Exchange.Call a) (ex s); Some (set_ex x s)
  end.

(** [sendMsg] up to [tr.Write].  The panic of a nil manager is that of the [Invoke]'s
    caller, who may recover from it. *)
Definition find (t : nat) (s : sys) : option sys :=
  i ← ServerCalls.invs (Exchange.calls (ex s)) !! t;
  let tr := Server.lookup_transport (ServerCalls.i_key i).1 (sv s) in
  x ← session_exec (Exchange.Call (ServerCalls.Lookup t (_ ← tr; Ok tt))) (ex s);
  Some match tr with Ok tr => set_tr t tr (set_ex x s) | _ => set_ex x s end.

(** [handleRead] with a message. *)
Definition read (rd h tr : nat) (key : bytes) (s : sys) : option sys :=
  k ← Exchange.conns (ex s) !! tr;
  match rp (Conn.near ServerSide k) with
  | RSend m =>
      x ← session_exec (Exchange.OwnRead tr h) (ex s);
      v ← Server.exec ParseCertificate (Server.ReadMessage rd (Some m)) (sv s);
      match Exchange.as_request m, handlers s !! h with
      | Some q, None => Some (set_handler h (mkHandler key q HRun) HRun (set_sv v (set_ex x s)))
      | Some _, Some _ => None
      | None, _ => Some (set_sv v (set_ex x s))
      end
  | _ => None
  end.

(** [handleMessageRequest], from the method's handler to the return of [tr.Write]. *)
Definition handleMessageRequest (a : action) (h : nat) (x : handler) (s : sys) : option sys :=
  match a, h_pc x with
  | HandlerRun _, HRun => Some
      match Service.server_handleMessageRequest uuid_Parse own (h_key x) (Some (h_req x)) with
      | Ok None | Err _ => set_handler h x HDone s
      | Ok (Some b) => set_handler h x (HSend b) s
      | Panic p => die p s
      end
  | HandlerSend _, HSend b =>
      if unlocked s then Some
        match Server.lookup_transport (h_key x) (sv s) with
        | Ok tr => set_handler h x (HWrite tr b) s
        | Err _ => set_handler h x HDone s
        | Panic p => die p s
        end
      else None
  | ReplyWrite _ w, HWrite tr b =>
      match sends s !! h with
      | None =>
          x ← session_exec (Exchange.End tr (ServerSide, Transport.Write w (Exchange.carried b))) (ex s);
          Some (set_ex x (set_send h w s))
      | Some _ => None
      end
  | ReplyWritten _, HWrite tr b =>
      w ← sends s !! h; k ← Exchange.conns (ex s) !! tr; wr ← writers (Conn.near ServerSide k) !! w;
      match w_pc wr with WrWait => None | WrOk | WrErr _ => Some (set_handler h x HDone s) end
  | _, _ => None
  end.

Definition exec (a : action) (s : sys) : option sys :=
  match died s with
  | Some _ => None
  | None =>
      match a with
      | Srv a =>
          if Pumps.srv_alone a && numbered a (sv s) then
            s' ← exec_server a s;
            x ← run session_exec (follow (Server.trs (sv s)) (Server.trs (sv s'))) (ex s);
            Some (set_ex x s')
          else None
      | Wire c a => exec_wire c a s
      | Call a => exec_call a s
      | Find t => find t s
      | Write t w =>
          tr ← trs s !! t; x ← session_exec (Exchange.CallWrite t tr w) (ex s); Some (set_ex x s)
      | Written t => x ← session_exec (Exchange.CallWritten t) (ex s); Some (set_ex x s)
      | Serve a =>
          match a with
          | Exchange.PeerRead _ _ | Exchange.Handle _ | Exchange.Reply _ _ _ | Exchange.NoConnection _ =>
              x ← session_exec a (ex s); Some (set_ex x s)
          | _ => None
          end
      | Read rd h =>
          r ← Server.readers (sv s) !! rd;
          match Server.rd_pc r with
          | Server.RLoop tr => read rd h tr (Server.rd_key r) s
          | _ => None
          end
      | HandlerRun h | HandlerSend h | ReplyWrite h _ | ReplyWritten h =>
          x ← handlers s !! h; handleMessageRequest a h x s
      end
  end.
(** ** The parts run as they do alone *)

#[local] Arguments Transport.exec : simpl never.
#[local] Arguments Conn.exec : simpl never.
#[local] Arguments Server.exec : simpl never.
#[local] Arguments ServerSession.exec : simpl never.

(** The cases of a step of the session. *)
Tactic Notation "effects" hyp(He) "as" simple_intropattern(p) :=
  pose proof (Exchange.exec_effects (C:=ServerCalls.sys) (A:=ServerCalls.action) ServerSide owner honest
    (ServerSession.serve svc) _ _ _ He) as p.

(** A step of the session that is no step of an [Invoke] alone, and writes to the
    transport that the [Invoke] found. *)
Definition aside (s : sys) (b : Exchange.action (A:=call)) : Prop :=
  match b with
  | Exchange.Call _ => False
  | Exchange.CallWrite t c _ => trs s !! t = Some c
  | Exchange.OwnRead c _ =>
      ∃ rd r, Server.readers (sv s) !! rd = Some r ∧ Server.rd_pc r = Server.RLoop c
  | Exchange.Open _ => False
  | Exchange.End c (ServerSide, Transport.Close _) => False
  | _ => True
  end.

Lemma exec_server_cases a s s' :
  exec_server a s = Some s' →
  (Pumps.takes_mu a (sv s) = true → unlocked s = true) ∧
  ∃ v, Server.exec ParseCertificate a (sv s) = Some v ∧ s' = set_sv v s.
Proof.
  unfold exec_server, Pumps.server_step. simpl. intros He. apply bind_Some in He as (v&Hv&[= <-]).
  destruct (Pumps.takes_mu a (sv s)), (unlocked s); simpl in Hv; try done; (split; [done|]); by exists v.
Qed.

Lemma exec_server_step a s s' :
  exec_server a s = Some s' → ∃ v, Pumps.server_step ParseCertificate a (pumps_of s) = Some v ∧ s' = set_sv v s.
Proof. unfold exec_server. intros He. apply bind_Some in He as (v&Hv&[= <-]). by exists v. Qed.

(** What a step of the server does: one of its own code, with [Close] on some transports;
    one of an [Invoke] or a response handler; or one that goes with a step aside. *)
Lemma exec_cases a s s' :
  exec a s = Some s' →
  (∃ b v x, a = Srv b ∧ Pumps.srv_alone b = true ∧ numbered b (sv s) = true ∧
    (Pumps.takes_mu b (sv s) = true → unlocked s = true) ∧
    Server.exec ParseCertificate b (sv s) = Some v ∧
    run session_exec (follow (Server.trs (sv s)) (Server.trs v)) (ex s) = Some x ∧ s' = set_ex x (set_sv v s)) ∨
  (∃ b, a = Call b ∧ exec_call b s = Some s') ∨ (∃ t, a = Find t ∧ find t s = Some s') ∨
  trs s' = trs s ∧
    (ex s' = ex s ∨ ∃ b, session_exec b (ex s) = Some (ex s') ∧ aside s b) ∧
    (sv s' = sv s ∨ ∃ b, Server.exec ParseCertificate b (sv s) = Some (sv s') ∧
      (Pumps.takes_mu b (sv s) = true → unlocked s = true) ∧
      match b with Server.AfterWritePump _ | Server.TransportDown _ | Server.ReadMessage _ _ => True | _ => False end).
Proof.
  intros He. unfold exec in He. destruct (died s) eqn:Hd; [done|].
  destruct a as [a|c a|a|t|t w|t|a|rd h|h|h|h w|h].
  - left. destruct (Pumps.srv_alone a && numbered a (sv s)) eqn:Hg; [|done]. apply andb_true_iff in Hg as [Hs Hn].
    apply bind_Some in He as (s1&Hs1&He). apply bind_Some in He as (x&Hx&[= <-]).
    apply exec_server_cases in Hs1 as (Hl&v&Hv&->). by exists a, v, x.
  - right. right. right. unfold exec_wire in He. destruct (wire_alone a) eqn:Ha; [|done].
    apply bind_Some in He as (k&Hk&He). apply bind_Some in He as (x&Hx&He).
    assert (aside s (Exchange.End c a)) as Has by (by destruct a as [[] []]).
    destruct a as [[] b]; [injection He as <-; simpl; by eauto 10|].
    destruct (Pumps.shows c b _) as [b'|] eqn:Hb; [|injection He as <-; simpl; by eauto 10].
    apply exec_server_cases in He as (Hl&v&Hv&->). split; [done|]. simpl in *. split; [by eauto|]. right.
    exists b'. split; [done|]. split.
    + intros Hmu%Hl. unfold unlocked in *. simpl in *. effects Hx as (_&k0&k'&_&_&->). done.
    + unfold Pumps.shows in Hb. by repeat case_match; simplify_eq.
  - right. left. eauto.
  - right. right. left. eauto.
  - right. right. right. apply bind_Some in He as (tr&Ht&He). apply bind_Some in He as (x&Hx&[= <-]).
    (split; [done|]); (split; [right; by eexists|by left]).
  - right. right. right. apply bind_Some in He as (x&Hx&[= <-]). (split; [done|]); (split; [right; by eexists|by left]).
  - right. right. right. destruct a; try done; apply bind_Some in He as (x&Hx&[= <-]);
      (split; [done|]); (split; [right; by eexists|by left]).
  - right. right. right. apply bind_Some in He as (r&Hr&He). destruct (Server.rd_pc r) as [|tr|] eqn:Hpc; try done.
    unfold read in He. apply bind_Some in He as (k&Hk&He). destruct (rp _) as [|m|]; try done.
    apply bind_Some in He as (x&Hx&He). apply bind_Some in He as (v&Hv&He).
    assert (trs s' = trs s ∧ ex s' = x ∧ sv s' = v) as (->&->&->)
      by (by destruct (Exchange.as_request m), (handlers s !! h); simplify_eq).
    split; [done|]. split; right; [exists (Exchange.OwnRead tr h); split; [done|by exists rd, r]|].
    by exists (Server.ReadMessage rd (Some m)).
  - right. right. right. apply bind_Some in He as (y&Hy&He). unfold handleMessageRequest in He.
    repeat case_match; simplify_eq/=; by auto.
  - right. right. right. apply bind_Some in He as (y&Hy&He). unfold handleMessageRequest in He.
    repeat case_match; simplify_eq/=; by auto.
  - right. right. right. apply bind_Some in He as (y&Hy&He). unfold handleMessageRequest in He.
    destruct (h_pc y), (sends s !! h); try done. apply bind_Some in He as (x&Hx&[= <-]). (split; [done|]); (split; [right; by eexists|by left]).
  - right. right. right. apply bind_Some in He as (y&Hy&He). unfold handleMessageRequest in He.
    destruct (h_pc y); try done. apply bind_Some in He as (w&Hw&He). apply bind_Some in He as (k&Hk&He).
    apply bind_Some in He as (wr&Hwr&He). destruct (w_pc wr); simplify_eq/=; by auto.
Qed.

Lemma host_session_conns a (x x' : session) :
  session_exec a x = Some x' → match a with Exchange.Open _ => True | _ => Exchange.one_end x x' (Exchange.ends ServerSide a) end.
Proof. apply (Exchange.exchange_ends ServerSide owner honest (ServerSession.serve svc)). Qed.

(** *** The calls *)

Lemma run_follow_calls m m' x x' :
  run session_exec (follow m m') x = Some x' → Exchange.calls x' = Exchange.calls x.
Proof.
  assert (∀ l x, Forall (λ b, match b with Exchange.Open _ | Exchange.End _ _ => True | _ => False end) l →
    run session_exec l x = Some x' → Exchange.calls x' = Exchange.calls x) as Hl.
  { intros l x0 Hl. revert x0. induction Hl as [|b l Hb _ IH]; intros x0 Hx; [by injection Hx as <-|].
    cbn [run] in Hx. apply bind_Some in Hx as (x1&Hx1&Hx). rewrite (IH x1 Hx). destruct b; try done.
    - effects Hx1 as (_&->). done.
    - effects Hx1 as (_&k&k'&_&_&->). done. }
  apply Hl. unfold follow. apply Forall_app. split; apply Forall_fmap, Forall_true; by intros.
Qed.

(** The calls make a step of their own, or none. *)
Lemma host_session_calls a x x' :
  session_exec a x = Some x' →
  Exchange.calls x' = Exchange.calls x ∨
  ∃ b, ServerCalls.exec b (Exchange.calls x) = Some (Exchange.calls x') ∧
    (a = Exchange.Call b ∨ match b with ServerCalls.Write _ _ | ServerCalls.Arrive _ _ _ => True | _ => False end).
Proof.
  intros Hx. destruct a; effects Hx as Hs.
  - destruct Hs as (_&cs&Hcs&->). right. exists a. auto.
  - destruct Hs as (_&->). by left.
  - destruct Hs as (?&?&?&?&_&_&_&_&_&->). by left.
  - destruct Hs as (o&cs&Hcs&->). right. exists (ServerCalls.Write t o). auto.
  - destruct Hs as (_&?&?&_&_&->). by left.
  - destruct Hs as (?&?&m&_&_&_&_&->). left. by destruct (Exchange.as_request m).
  - destruct Hs as (?&_&_&->). by left.
  - destruct Hs as (?&?&?&?&_&_&_&_&_&->). by left.
  - destruct Hs as (?&_&->). by left.
  - destruct Hs as (?&?&?&_&_&_&Hs). apply (Exchange.own_read_parts owner) in Hs as (_&_&_&[Hc|(r&_&Hc)]);
      [by left|]. right. exists (ServerCalls.Arrive h (owner c) r). auto.
Qed.

Lemma session_mu a x x' :
  session_exec a x = Some x' → match a with Exchange.Call _ => True | _ =>
    ServerCalls.mu (Exchange.calls x') = ServerCalls.mu (Exchange.calls x) end.
Proof.
  intros Hx. destruct (host_session_calls _ _ _ Hx) as [->|(b&Hb%ServerCalls.servercalls_mu_kept&Ha)]; [by destruct a|].
  destruct Ha as [->|Ha]; [done|]. by destruct a, b.
Qed.

Lemma session_locks a x x' h :
  session_exec a x = Some x' → ServerCalls.mu (Exchange.calls x') = Some h →
  ServerCalls.mu (Exchange.calls x) = Some h ∨ a = Exchange.Call (ServerCalls.HandlerLock h).
Proof.
  intros Hx Hm. destruct (host_session_calls _ _ _ Hx) as [<-|(b&Hb&Ha)]; [by left|].
  destruct (ServerCalls.servercalls_locks _ _ _ _ Hb Hm) as [?| ->]; [by left|]. destruct Ha as [->|Hf]; [by right|done].
Qed.

Lemma exec_call_cases b s s' :
  exec_call b s = Some s' →
  sv s' = sv s ∧ trs s' = trs s ∧ session_exec (Exchange.Call b) (ex s) = Some (ex s') ∧
  (∀ t u, b ≠ ServerCalls.Lookup t u) ∧ (writes_mu b = true → Server.may_write (sv s) = true).
Proof.
  unfold exec_call. intros He.
  destruct b; try done; destruct (writes_mu _ && _) eqn:Hw; try done; apply bind_Some in He as (x&Hx&[= <-]);
    (split_and!; [done..|]); intros Hmu; rewrite Hmu in Hw; by destruct (Server.may_write (sv s)).
Qed.

Lemma find_cases t s s' :
  find t s = Some s' →
  sv s' = sv s ∧ ∃ i, ServerCalls.invs (Exchange.calls (ex s)) !! t = Some i ∧
    let tr := Server.lookup_transport (ServerCalls.i_key i).1 (sv s) in
    session_exec (Exchange.Call (ServerCalls.Lookup t (_ ← tr; Ok tt))) (ex s) = Some (ex s') ∧
    trs s' = match tr with Ok tr => <[t := tr]> (trs s) | _ => trs s end.
Proof.
  unfold find. intros He. apply bind_Some in He as (i&Hi&He). apply bind_Some in He as (x&Hx&[= <-]).
  split; [by destruct (Server.lookup_transport _ _)|]. exists i. split; [done|]. simpl.
  by destruct (Server.lookup_transport _ _).
Qed.

(** *** Opening and closing *)

Definition close_end (k : Conn.conn) : Conn.conn :=
  Conn.set_near ServerSide (or_crash (server_Close (Conn.near ServerSide k)) (Conn.near ServerSide k)) k.

Lemma run_opens l x x' :
  run session_exec (Exchange.Open <$> l) x = Some x' →
  ∀ c, Exchange.conns x' !! c = if decide (c ∈ l) then Some Conn.init else Exchange.conns x !! c.
Proof.
  revert x. induction l as [|c0 l IH]; intros x Hx c; [by injection Hx as <-|].
  rewrite fmap_cons in Hx. cbn [run] in Hx. apply bind_Some in Hx as (x1&Hx1&Hx). rewrite (IH x1 Hx c).
  effects Hx1 as (_&->). simpl. destruct (decide (c ∈ l)); [by rewrite decide_True by by right|].
  destruct (decide (c0 = c)) as [->|]; [by rewrite lookup_insert_eq, decide_True by by left|].
  rewrite lookup_insert_ne by done. rewrite decide_False; [done|]. by intros [->|?]%elem_of_cons.
Qed.

Lemma run_closes l x x' :
  NoDup l →
  run session_exec ((λ tr, Exchange.End tr (ServerSide, Transport.Close 0)) <$> l) x = Some x' →
  ∀ c, Exchange.conns x' !! c = if decide (c ∈ l) then close_end <$> Exchange.conns x !! c else Exchange.conns x !! c.
Proof.
  intros Hl. revert x. induction Hl as [|c0 l Hn _ IH]; intros x Hx c; [by injection Hx as <-|].
  rewrite fmap_cons in Hx. cbn [run] in Hx. apply bind_Some in Hx as (x1&Hx1&Hx). rewrite (IH x1 Hx c).
  effects Hx1 as (_&k&k'&Hk&Hk'&->). simpl.
  assert (k' = close_end k) as ->.
  { unfold Conn.exec in Hk'. simpl in Hk'. unfold Transport.exec in Hk'. simpl in Hk'. by injection Hk' as <-. }
  destruct (decide (c0 = c)) as [->|Hne].
  - rewrite lookup_insert_eq, Hk, decide_False by done. by rewrite decide_True by by left.
  - rewrite lookup_insert_ne by done. destruct (decide (c ∈ l)); [by rewrite decide_True by by right|].
    rewrite decide_False; [done|]. by intros [->|?]%elem_of_cons.
Qed.

(** The connections follow the server's step as the transports of [Pumps] do. *)
Lemma run_follow m m' x x' :
  dom (Exchange.conns x) = dom m → dom m ⊆ dom m' → run session_exec (follow m m') x = Some x' →
  Conn.near ServerSide <$> Exchange.conns x' = Pumps.sync m' (Conn.near ServerSide <$> Exchange.conns x).
Proof.
  intros Hdom Hsub Hx. unfold follow in Hx. rewrite run_app in Hx. apply bind_Some in Hx as (x1&Hx1&Hx2).
  apply map_eq. intros c. rewrite lookup_fmap, Pumps.sync_lookup, lookup_fmap.
  rewrite (run_closes _ _ _ (NoDup_elements _) Hx2 c), (run_opens _ _ _ Hx1 c).
  assert (c ∈ elements (dom m' ∖ dom m) ↔ is_Some (m' !! c) ∧ m !! c = None) as Hnew.
  { by rewrite elem_of_elements, elem_of_difference, elem_of_dom, not_elem_of_dom. }
  assert (c ∈ elements (dom (filter (λ it : nat * Server.trans, Server.t_closing it.2 = true) m')) ↔
    ∃ t, m' !! c = Some t ∧ Server.t_closing t = true) as Hcl.
  { rewrite elem_of_elements, elem_of_dom. unfold is_Some. by setoid_rewrite map_lookup_filter_Some. }
  assert (is_Some (Exchange.conns x !! c) ↔ is_Some (m !! c)) as Hc by (by rewrite <- !elem_of_dom, Hdom).
  assert (is_Some (m !! c) → is_Some (m' !! c)) as Hm by (rewrite <- !elem_of_dom; apply Hsub).
  destruct (m' !! c) as [t|] eqn:Hm'.
  - assert (∃ k, (if decide (c ∈ elements (dom m' ∖ dom m)) then Some Conn.init else Exchange.conns x !! c) = Some k ∧
      Conn.near ServerSide k = default Transport.init (Conn.near ServerSide <$> Exchange.conns x !! c)) as (k&->&Hk).
    { case_decide as Hd.
      - exists Conn.init. split; [done|]. apply Hnew in Hd as [_ Hd]. destruct (Exchange.conns x !! c) eqn:E; [|done].
        rewrite Hd in Hc. destruct Hc as [Hc _]. by destruct Hc.
      - destruct (m !! c) eqn:E; [|by destruct Hd; apply Hnew]. destruct (proj2 Hc) as [k Hk]; [by eexists|].
        exists k. by rewrite Hk. }
    simpl. rewrite <- Hk. destruct (Server.t_closing t) eqn:Ht.
    + rewrite decide_True by (apply Hcl; eauto). done.
    + rewrite decide_False by (rewrite Hcl; intros (?&[= <-]&?); congruence). done.
  - rewrite !decide_False; [|rewrite Hnew; by intros [[? ?] ?]|rewrite Hcl; by intros (?&?&?)]. simpl.
    destruct (Exchange.conns x !! c) eqn:E; [|done]. destruct (proj1 Hc) as [t Ht]; [by eexists|].
    rewrite Ht in Hm. destruct Hm as [? ?]; [by eexists|done].
Qed.

(** *** The transports *)

Lemma server_dom a v v' :
  Pumps.srv_alone a = true → Server.exec ParseCertificate a v = Some v' → dom (Server.trs v) ⊆ dom (Server.trs v').
Proof.
  intros Ha He. destruct (Pumps.server_trs_cases ParseCertificate a v v' Ha He) as [->|[(h&w&k&tr&_&_&_&_&->)|[l ->]]];
    [done|set_solver|].
  intros c. rewrite !elem_of_dom, Server.close_all_lookup. case_decide; [|done]. by rewrite fmap_is_Some.
Qed.

Lemma near_step sd c k k' b (x x' : session) :
  Exchange.conns x !! c = Some k → Conn.exec (sd, b) k = Some k' →
  Exchange.conns x' = <[c := k']> (Exchange.conns x) →
  match sd with
  | ServerSide => ∃ p', Transport.exec ServerSide b (Conn.near ServerSide k) = Some p' ∧
      Conn.near ServerSide <$> Exchange.conns x' = <[c := p']> (Conn.near ServerSide <$> Exchange.conns x)
  | ClientSide => Conn.near ServerSide <$> Exchange.conns x' = Conn.near ServerSide <$> Exchange.conns x
  end.
Proof.
  intros Hk Hk' Hc. rewrite Hc, fmap_insert. unfold Conn.exec in Hk'. destruct (Conn.may_read _ _ _); [|done].
  apply bind_Some in Hk' as (p'&Hp'&[= <-]). destruct sd; [|by exists p'].
  apply insert_id. by rewrite lookup_fmap, Hk.
Qed.

Lemma pumps_wire c a s s' :
  exec_wire c a s = Some s' → reachable (Pumps.exec ParseCertificate) (pumps_of s) (pumps_of s').
Proof.
  unfold exec_wire. intros He. destruct (wire_alone a) eqn:Ha; [|done]. apply bind_Some in He as (k&Hk&He).
  apply bind_Some in He as (x&Hx&He). effects Hx as (_&k0&k'&Hk0&Hk'&Hset). rewrite Hk in Hk0. injection Hk0 as <-.
  assert (Exchange.conns x = <[c := k']> (Exchange.conns (ex s))) as Hc by by rewrite Hset.
  assert (unlocked (set_ex x s) = unlocked s) as Hmu by (unfold unlocked; by rewrite Hset).
  destruct a as [sd b]. pose proof (near_step sd c k k' b (ex s) x Hk Hk' Hc) as Hn.
  destruct sd; [injection He as <-; unfold pumps_of; simpl; rewrite Hn, Hmu; apply rtc_refl|].
  destruct Hn as (p'&Hp'&Hn). apply rtc_once. exists (Pumps.Pump c b). unfold Pumps.exec.
  assert (Pumps.pump_alone b = true) as -> by (by destruct b). simpl. rewrite lookup_fmap, Hk. simpl in *. rewrite Hp'. simpl.
  destruct (Pumps.shows c b _) as [b'|].
  - apply exec_server_step in He as (v&Hv&->). unfold Pumps.server_step in *. simpl in *. rewrite <- Hmu, Hv.
    unfold pumps_of. simpl. by rewrite Hn.
  - injection He as <-. unfold pumps_of. simpl. by rewrite Hn, Hmu.
Qed.

(** What the server's steps leave alone while a response handler has [s.mu]. *)
Lemma server_waits b v v' :
  Server.exec ParseCertificate b v = Some v' → Pumps.takes_mu b v = false → Server.may_write v = true →
  Server.may_write v' = true ∧ Server.connMgr v' = Server.connMgr v ∧ Server.creds v' = Server.creds v ∧
  Server.hp v' = Server.hp v ∧
  ∀ x pc, Server.stops v' !! x = Some pc → Server.past_drop pc = true →
    ∃ pc0, Server.stops v !! x = Some pc0 ∧ Server.past_drop pc0 = true.
Proof.
  intros He Ht Hw. assert (∀ x pc, Server.stops v !! x = Some pc → Server.past_drop pc = true →
    ∃ pc0, Server.stops v !! x = Some pc0 ∧ Server.past_drop pc0 = true) as Hst by eauto.
  assert (∀ h w, Server.holds_read (Server.w_pc w) = false → Server.may_write (Server.set_ws h w v) = true) as Hset.
  { intros h w Hn. apply bool_decide_eq_true in Hw. apply bool_decide_eq_true. by apply map_Forall_insert_2. }
  destruct b; try done; unfold Server.exec in He; try (apply bind_Some in He as (y&Hy&He)).
  - destruct (Server.handlers v !! h), (Server.handshake ParseCertificate raw v); try done. injection He as <-. split_and!; [by apply Hset|done..].
  - unfold Server.exec_ws in He. repeat case_match; simplify_eq; (split_and!; [by apply Hset|done..]).
  - unfold Server.exec_ws in He. repeat case_match; simplify_eq; (split_and!; [by apply Hset|done..]).
  - apply bool_decide_eq_true in Hw. specialize (Hw _ _ Hy). unfold Server.exec_ws in He.
    simpl in *. by destruct (Server.w_pc y).
  - unfold Server.exec_ws in He. repeat case_match; simplify_eq; (split_and!; [by apply Hset|done..]).
  - simpl in He. by simplify_eq.
  - unfold Server.exec_rd in He. destruct (Server.rd_pc y); simplify_eq. unfold Server.dispatch. by repeat case_match.
  - unfold Server.exec_rd in He. by repeat case_match; simplify_eq.
  - destruct (Server.stops v !! x) eqn:Hx; simplify_eq. split_and!; [done..|]. simpl.
    intros x' pc [[<- <-]|[_ ?]]%lookup_insert_Some; [done|by eauto].
  - unfold Pumps.takes_mu in Ht. rewrite Hy in Ht. unfold Server.exec_stop in He.
    repeat case_match; simplify_eq; (split_and!; [done..|]); simpl;
      intros x' pc' [[<- <-]|[_ ?]]%lookup_insert_Some; try done; by eauto.
Qed.

(** While a response handler has [s.mu], the server takes no step that needs it. *)
Lemma held_step a s s' h :
  exec a s = Some s' → ServerCalls.mu (Exchange.calls (ex s)) = Some h →
  sv s' = sv s ∨ ∃ b, Server.exec ParseCertificate b (sv s) = Some (sv s') ∧ Pumps.takes_mu b (sv s) = false.
Proof.
  intros He Hm. assert (unlocked s = false) as Hu by (unfold unlocked; by rewrite Hm).
  assert (∀ b, (Pumps.takes_mu b (sv s) = true → unlocked s = true) → Pumps.takes_mu b (sv s) = false) as Hn
    by (intros b Hb; destruct (Pumps.takes_mu b (sv s)); [by rewrite Hb in Hu|done]).
  destruct (exec_cases _ _ _ He) as [(b&v&x&_&_&_&Hl&Hv&_&->)|[(b&_&Hb)|[(t0&_&Hf)|(_&_&Hs)]]].
  - right. exists b. auto.
  - left. by apply exec_call_cases in Hb as (?&_).
  - left. by apply find_cases in Hf as (?&_).
  - destruct Hs as [?|(b&?&Hl&_)]; [by left|]. right. exists b. auto.
Qed.

Lemma held_back a s s' h :
  exec a s = Some s' → ServerCalls.mu (Exchange.calls (ex s')) = Some h →
  ServerCalls.mu (Exchange.calls (ex s)) = Some h ∨ Server.may_write (sv s) = true ∧ sv s' = sv s.
Proof.
  intros He Hm. destruct (exec_cases _ _ _ He) as [(b&v&x&_&_&_&_&_&Hx&->)|[(b&_&Hb)|[(t0&_&Hf)|(_&Hs&_)]]].
  - left. simpl in Hm. by rewrite (run_follow_calls _ _ _ _ Hx) in Hm.
  - apply exec_call_cases in Hb as (Hv&_&Hx&_&Hw).
    destruct (session_locks _ _ _ _ Hx Hm) as [?|[= ->]]; [by left|right]. auto.
  - apply find_cases in Hf as (_&i&_&Hx&_). left. by destruct (session_locks _ _ _ _ Hx Hm) as [?|?].
  - left. destruct Hs as [<-|(b&Hx&Has)]; [done|]. by destruct (session_locks _ _ _ _ Hx Hm) as [?| ->].
Qed.

(** Nobody is between [s.mu.RLock()] and [s.mu.RUnlock()] while a response handler has it. *)
Lemma host_lock ks s :
  reachable exec (init ks) s → ∀ h, ServerCalls.mu (Exchange.calls (ex s)) = Some h → Server.may_write (sv s) = true.
Proof.
  apply (reachable_invariant exec (λ s, ∀ h, ServerCalls.mu (Exchange.calls (ex s)) = Some h →
    Server.may_write (sv s) = true)); [done|].
  intros a s1 s2 Hi He h Hm. destruct (held_back _ _ _ _ He Hm) as [Hm0|[? ->]]; [|done].
  destruct (held_step _ _ _ _ He Hm0) as [->|(b&Hb&Ht)]; [by eapply Hi|].
  by destruct (server_waits _ _ _ Hb Ht (Hi _ Hm0)).
Qed.

(** Steps in which the server's side of a connection is at most written to. *)
Definition writes_only (c : nat) (b : Conn.action) : Prop :=
  b.1 = ServerSide → ∃ w m, b.2 = Transport.Write w m.

Lemma pumps_write s s' :
  sv s' = sv s → unlocked s' = unlocked s → Exchange.one_end (ex s) (ex s') writes_only →
  reachable (Pumps.exec ParseCertificate) (pumps_of s) (pumps_of s').
Proof.
  intros Hv Hu [Hc|(c&k&k'&[sd b]&Hk&Hk'&Hc&Hw)]; [unfold pumps_of; rewrite Hv, Hu, Hc; apply rtc_refl|].
  pose proof (near_step sd c k k' b (ex s) (ex s') Hk Hk' Hc) as Hn. unfold pumps_of. rewrite Hv, Hu.
  destruct sd; [rewrite Hn; apply rtc_refl|]. destruct Hn as (p'&Hp'&->). apply rtc_once.
  destruct (Hw eq_refl) as (w&m&Hb). simpl in Hb. subst b. exists (Pumps.Pump c (Transport.Write w m)).
  unfold Pumps.exec. simpl. rewrite lookup_fmap, Hk. simpl in *. by rewrite Hp'.
Qed.

(** Steps of the calls, which may take [s.mu] and give it back. *)
Lemma pumps_call s s' :
  sv s' = sv s → Exchange.conns (ex s') = Exchange.conns (ex s) →
  (unlocked s = false → Server.may_write (sv s) = true) →
  reachable (Pumps.exec ParseCertificate) (pumps_of s) (pumps_of s').
Proof.
  intros Hv Hc Hw. unfold pumps_of. rewrite Hv, Hc.
  destruct (unlocked s) eqn:Hu, (unlocked s') eqn:Hu'; simpl; try apply rtc_refl; apply rtc_once.
  - by exists Pumps.Lock.
  - exists Pumps.Unlock. simpl. by rewrite Hw.
Qed.

Lemma session_unlocked b s s' :
  session_exec b (ex s) = Some (ex s') → match b with Exchange.Call _ => False | _ => True end →
  unlocked s' = unlocked s.
Proof. intros Hb Hn. apply session_mu in Hb. unfold unlocked. destruct b; try done; by rewrite Hb. Qed.

Lemma pumps_read rd h r tr s s' :
  Server.readers (sv s) !! rd = Some r → Server.rd_pc r = Server.RLoop tr →
  read rd h tr (Server.rd_key r) s = Some s' →
  Pumps.exec ParseCertificate (Pumps.Read rd) (pumps_of s) = Some (pumps_of s').
Proof.
  intros Hr Hpc He. unfold read in He. apply bind_Some in He as (k&Hk&He). destruct (rp _) as [|m|] eqn:Hm; try done.
  apply bind_Some in He as (x&Hx&He). apply bind_Some in He as (v&Hv&He).
  assert (ex s' = x ∧ sv s' = v) as [<- <-] by (by destruct (Exchange.as_request m), (handlers s !! h); simplify_eq).
  assert (Hx' := Hx). effects Hx' as (k0&k'&m'&Hk0&_&Hk'&Hs). rewrite Hk in Hk0. injection Hk0 as <-.
  apply (Exchange.own_read_parts owner) in Hs as (Hc&_).
  destruct (near_step ServerSide tr k k' Receive (ex s) (ex s') Hk Hk' Hc) as (p'&Hp'&Hn).
  unfold Pumps.exec. simpl. rewrite Hr. simpl. rewrite Hpc, lookup_fmap, Hk. simpl in *. rewrite Hm, Hp'. simpl.
  rewrite Hv. unfold pumps_of. simpl. rewrite Hn. by rewrite (session_unlocked _ s s' Hx).
Qed.

Lemma pumps_server a v x s :
  dom (Exchange.conns (ex s)) = dom (Server.trs (sv s)) → Pumps.srv_alone a = true →
  Pumps.server_step ParseCertificate a (pumps_of s) = Some v →
  run session_exec (follow (Server.trs (sv s)) (Server.trs v)) (ex s) = Some x →
  Pumps.exec ParseCertificate (Pumps.Srv a) (pumps_of s) = Some (pumps_of (set_ex x (set_sv v s))).
Proof.
  intros Hd Ha Hv Hx. unfold Pumps.exec. rewrite Ha, Hv. apply Pumps.server_step_exec in Hv.
  pose proof (run_follow_calls _ _ _ _ Hx) as Hcalls. simpl. unfold pumps_of, unlocked. simpl.
  rewrite (run_follow _ _ _ _ Hd (server_dom _ _ _ Ha Hv) Hx), Hcalls. done.
Qed.

Lemma host_exec_pumps a s s' :
  dom (Exchange.conns (ex s)) = dom (Server.trs (sv s)) →
  (∀ h, ServerCalls.mu (Exchange.calls (ex s)) = Some h → Server.may_write (sv s) = true) →
  exec a s = Some s' →
  reachable (Pumps.exec ParseCertificate) (pumps_of s) (pumps_of s').
Proof.
  intros Hdom Hlock He. assert (∀ b, session_exec b (ex s) = Some (ex s') → sv s' = sv s →
    match b with Exchange.Open _ | Exchange.Call _ => False | _ => ∀ c d, Exchange.ends ServerSide b c d → writes_only c d end →
    reachable (Pumps.exec ParseCertificate) (pumps_of s) (pumps_of s')) as H1.
  { intros b Hb Hv Hw. apply pumps_write; [done|apply (session_unlocked b); by destruct b|]. apply host_session_conns in Hb.
    destruct b; try done; by eapply Exchange.one_end_mono. }
  assert (∀ b, session_exec (Exchange.Call b) (ex s) = Some (ex s') → sv s' = sv s →
    reachable (Pumps.exec ParseCertificate) (pumps_of s) (pumps_of s')) as H2.
  { intros b Hb Hv. apply pumps_call; [done| |].
    - effects Hb as (_&cs&_&->). simpl. unfold Exchange.new_request. by repeat case_match.
    - intros Hu%bool_decide_eq_false. destruct (ServerCalls.mu _) as [h|] eqn:Hm; [by eapply Hlock|done]. }
  assert (ex s' = ex s → sv s' = sv s → reachable (Pumps.exec ParseCertificate) (pumps_of s) (pumps_of s')) as Hsame.
  { intros Hx Hv. unfold pumps_of, unlocked. rewrite Hx, Hv. apply rtc_refl. }
  unfold exec in He. destruct (died s) eqn:Hd; [done|].
  destruct a as [a|c a|a|t|t w|t|a|rd h|h|h|h w|h].
  - destruct (Pumps.srv_alone a && numbered a (sv s)) eqn:Hg; [|done]. apply andb_true_iff in Hg as [Ha _].
    apply bind_Some in He as (s1&Hs1&He). apply bind_Some in He as (x&Hx&[= <-]).
    apply exec_server_step in Hs1 as (v&Hv&->). apply rtc_once. eexists. by apply pumps_server.
  - by eapply pumps_wire.
  - apply exec_call_cases in He as (Hv&_&Hx&_&Hw). by apply (H2 _ Hx Hv).
  - apply find_cases in He as (Hv&i&_&Hx&_). by apply (H2 _ Hx Hv).
  - apply bind_Some in He as (tr&_&He). apply bind_Some in He as (x&Hx&[= <-]). apply (H1 _ Hx); [done|].
    intros c b [-> [m ->]] _. eauto.
  - apply bind_Some in He as (x&Hx&[= <-]). by apply (H1 _ Hx).
  - destruct a; try done; apply bind_Some in He as (x&Hx&[= <-]); (apply (H1 _ Hx); [done|]); try done;
      intros c' b Hb Hs; simpl in Hb; congruence.
  - apply bind_Some in He as (r&Hr&He). destruct (Server.rd_pc r) as [|tr|] eqn:Hpc; try done.
    apply rtc_once. eexists. by eapply pumps_read.
  - apply bind_Some in He as (y&_&He). apply Hsame; unfold handleMessageRequest in He; repeat case_match; by simplify_eq/=.
  - apply bind_Some in He as (y&_&He). apply Hsame; unfold handleMessageRequest in He; repeat case_match; by simplify_eq/=.
  - apply bind_Some in He as (y&_&He). unfold handleMessageRequest in He.
    destruct (h_pc y), (sends s !! h); try done. apply bind_Some in He as (x&Hx&[= <-]). apply (H1 _ Hx); [done|].
    intros c d [-> ->] _. simpl. eauto.
  - apply bind_Some in He as (y&_&He). unfold handleMessageRequest in He. destruct (h_pc y); try done.
    apply bind_Some in He as (w&_&He). apply bind_Some in He as (k&_&He). apply bind_Some in He as (wr&_&He).
    apply Hsame; by destruct (w_pc wr); simplify_eq.
Qed.

Lemma host_exec_session a s s' : exec a s = Some s' → reachable session_exec (ex s) (ex s').
Proof.
  intros He. destruct (exec_cases _ _ _ He) as [(b&v&x&_&_&_&_&_&Hx&->)|[(b&_&Hb)|[(t&_&Ht)|(_&[->|(b&Hb&_)]&_)]]].
  - by eapply run_reachable.
  - unfold exec_call in Hb. destruct b; try done; destruct (writes_mu _ && _); try done;
      apply bind_Some in Hb as (x&Hx&[= <-]); apply rtc_once; by eexists.
  - unfold find in Ht. apply bind_Some in Ht as (i&_&Ht). apply bind_Some in Ht as (x&Hx&[= <-]).
    destruct (Server.lookup_transport _ _); apply rtc_once; by eexists.
  - apply rtc_refl.
  - apply rtc_once. by eexists.
Qed.

Lemma host_session ks s : reachable exec (init ks) s → reachable session_exec ServerSession.init (ex s).
Proof.
  apply (reachable_invariant exec (λ s, reachable session_exec ServerSession.init (ex s)) (init ks)); [apply rtc_refl|].
  intros a s1 s2 Hr He. by etrans; [|eapply host_exec_session].
Qed.

(** Decoding a message never panics. *)
Hypothesis no_panic : ∀ b p, UnmarshalMessage b ≠ Panic p.

Lemma pumps_dom ks p :
  reachable (Pumps.exec ParseCertificate) (Pumps.init ks) p → dom (Pumps.pumps p) = dom (Server.trs (Pumps.sv p)).
Proof.
  intros Hr%(Pumps.pumps_reachable_inv ParseCertificate no_panic). apply set_eq. intros c. rewrite !elem_of_dom. split.
  - apply (Pumps.in_pumps _ Hr).
  - intros [t Ht]. destruct (Pumps.in_link _ Hr c t Ht) as (q&->&_). by eexists.
Qed.

Lemma host_pumps ks s :
  reachable exec (init ks) s →
  reachable (Pumps.exec ParseCertificate) (Pumps.init ks) (pumps_of s) ∧
  dom (Exchange.conns (ex s)) = dom (Server.trs (sv s)).
Proof.
  assert (∀ s, reachable (Pumps.exec ParseCertificate) (Pumps.init ks) (pumps_of s) →
    dom (Exchange.conns (ex s)) = dom (Server.trs (sv s))) as Hdom.
  { intros s' Hr%pumps_dom. unfold pumps_of in Hr. simpl in Hr. by rewrite dom_fmap_L in Hr. }
  intros Hr. enough (reachable (Pumps.exec ParseCertificate) (Pumps.init ks) (pumps_of s)) by auto.
  revert s Hr. intros s.
  apply (reachable_invariant_under exec (reachable exec (init ks))
    (λ s, reachable (Pumps.exec ParseCertificate) (Pumps.init ks) (pumps_of s)) (init ks)); [done| |].
  - unfold pumps_of. simpl. rewrite fmap_empty. apply rtc_refl.
  - intros a s1 s2 Hr0 Hr1 He. etrans; [done|]. eapply host_exec_pumps; [by apply Hdom|by eapply host_lock|done].
Qed.

Lemma host_server ks s :
  reachable exec (init ks) s → Server.inv (sv s).
Proof.
  intros [Hr _]%host_pumps. exact (Pumps.in_server _ (Pumps.pumps_reachable_inv ParseCertificate no_panic _ _ Hr)).
Qed.

(** ** Whose connections, calls and requests they are *)

Record inv (s : sys) : Prop := mkInv {
  in_owner c t : Server.trs (sv s) !! c = Some t → Server.t_key t = owner c;
  in_tr t c : trs s !! t = Some c → is_Some (Exchange.conns (ex s) !! c) ∧
    ∃ id, Exchange.call_of (Exchange.calls (ex s)) t = Some (owner c, id);
  in_write t i : ServerCalls.invs (Exchange.calls (ex s)) !! t = Some i →
    ServerCalls.i_pc i = ServerCalls.IWrite → is_Some (trs s !! t);
  in_handler h x : handlers s !! h = Some x → ∃ c k m, Exchange.conns (ex s) !! c = Some k ∧
    owner c = h_key x ∧ m ∈ delivered (Conn.near ServerSide k) ∧ Exchange.as_request m = Some (h_req x);
}.

(** A transport keeps its key. *)
Lemma host_keys b v v' c t' :
  Server.exec ParseCertificate b v = Some v' →
  match b with Server.AfterWritePump _ | Server.TransportDown _ | Server.ReadMessage _ _ => True | _ => False end →
  Server.trs v' !! c = Some t' → ∃ t, Server.trs v !! c = Some t ∧ Server.t_key t' = Server.t_key t.
Proof.
  intros He Hb Ht'.
  assert (∀ c0 t0 t1, Server.trs v !! c0 = Some t0 → Server.t_key t1 = Server.t_key t0 →
    <[c0 := t1]> (Server.trs v) !! c = Some t' → ∃ t, Server.trs v !! c = Some t ∧ Server.t_key t' = Server.t_key t) as Hset.
  { intros c0 t0 t1 H1 H2 [[<- <-]|[_ ?]]%lookup_insert_Some; [by exists t0|by exists t']. }
  unfold Server.exec in He. destruct b; try done; apply bind_Some in He as (y&Hy&He).
  - unfold Server.exec_tr in He. injection He as <-. by apply (Hset _ _ _ Hy (eq_refl : Server.t_key (Server.mkTrans _ _ _ _ _) = _) Ht').
  - unfold Server.exec_tr in He. destruct (_ && _); [|done].
    destruct (Server.afterWritePump _ y v) as [v1| |] eqn:Ha; simplify_eq; [|by exists t'].
    apply Server.afterWritePump_frame in Ha as [Htr _]. rewrite Htr in Ht'.
    by apply (Hset _ _ _ Hy (eq_refl : Server.t_key (Server.mkTrans _ _ _ _ _) = _) Ht').
  - unfold Server.exec_rd in He. destruct (Server.rd_pc y); try done. injection He as <-.
    exists t'. split; [|done]. unfold Server.dispatch in Ht'. by repeat case_match.
Qed.

(** What a step does to the request handlers. *)
Lemma handlers_cases a s s' :
  exec a s = Some s' →
  handlers s' = handlers s ∨
  (∃ h x pc, handlers s !! h = Some x ∧
    handlers s' = <[h := mkHandler (h_key x) (h_req x) pc]> (handlers s) ∧
    match h_pc x with HSend _ => unlocked s = true | _ => True end) ∨
  ∃ rd r tr k m h q, handlers s !! h = None ∧
    handlers s' = <[h := mkHandler (Server.rd_key r) q HRun]> (handlers s) ∧
    Server.readers (sv s) !! rd = Some r ∧ Server.rd_pc r = Server.RLoop tr ∧
    Exchange.conns (ex s) !! tr = Some k ∧ rp (Conn.near ServerSide k) = RSend m ∧
    Exchange.as_request m = Some q ∧ session_exec (Exchange.OwnRead tr h) (ex s) = Some (ex s').
Proof.
  intros He. unfold exec in He. destruct (died s); [done|].
  destruct a as [a|c a|a|t|t w|t|a|rd h0|h0|h0|h0 w|h0].
  - left. destruct (_ && _); [|done]. apply bind_Some in He as (s1&Hs1&He).
    apply bind_Some in He as (x&_&[= <-]). by apply exec_server_cases in Hs1 as (_&v&_&->).
  - left. unfold exec_wire in He. destruct (wire_alone a); [|done].
    apply bind_Some in He as (k&_&He). apply bind_Some in He as (x&_&He).
    destruct a as [[] b]; [by injection He as <-|]. destruct (Pumps.shows c b _); [|by injection He as <-].
    by apply exec_server_cases in He as (_&v&_&->).
  - left. unfold exec_call in He.
    destruct a; try done; destruct (writes_mu _ && _); try done; by apply bind_Some in He as (x&_&[= <-]).
  - left. unfold find in He. apply bind_Some in He as (i&_&He). apply bind_Some in He as (x&_&[= <-]).
    by destruct (Server.lookup_transport _ _).
  - left. apply bind_Some in He as (tr&_&He). by apply bind_Some in He as (x&_&[= <-]).
  - left. by apply bind_Some in He as (x&_&[= <-]).
  - left. destruct a; try done; by apply bind_Some in He as (x&_&[= <-]).
  - apply bind_Some in He as (r&Hr&He). destruct (Server.rd_pc r) as [|tr|] eqn:Hpc; try done.
    unfold read in He. apply bind_Some in He as (k&Hk&He). destruct (rp _) as [|m|] eqn:Hm; try done.
    apply bind_Some in He as (x&Hx&He). apply bind_Some in He as (v&_&He).
    destruct (Exchange.as_request m) as [q|] eqn:Hq; [|left; by injection He as <-].
    destruct (handlers s !! h0) eqn:Hn; [done|]. injection He as <-. right. right. by exists rd, r, tr, k, m, h0, q.
  - apply bind_Some in He as (y&Hy&He). unfold handleMessageRequest in He. destruct (h_pc y) eqn:Hpc; try done.
    injection He as <-. destruct (Service.server_handleMessageRequest _ _ _ _) as [[b|]| |]; [| | |by left];
      right; left; exists h0, y; eexists; rewrite Hpc; done.
  - apply bind_Some in He as (y&Hy&He). unfold handleMessageRequest in He. destruct (h_pc y) eqn:Hpc; try done.
    destruct (unlocked s) eqn:Hu; [|done]. injection He as <-.
    destruct (Server.lookup_transport _ _) as [tr| |]; [| |by left]; right; left; exists h0, y; eexists; rewrite Hpc; done.
  - left. apply bind_Some in He as (y&Hy&He). unfold handleMessageRequest in He.
    destruct (h_pc y), (sends s !! h0); try done. by apply bind_Some in He as (x&_&[= <-]).
  - apply bind_Some in He as (y&Hy&He). unfold handleMessageRequest in He. destruct (h_pc y) eqn:Hpc; try done.
    apply bind_Some in He as (w&_&He). apply bind_Some in He as (k&_&He). apply bind_Some in He as (wr&_&He).
    right. left. exists h0, y, HDone. rewrite Hpc. by destruct (w_pc wr); simplify_eq/=.
Qed.

(** Where they come from. *)
Lemma host_exec_handlers a s s' h x' :
  exec a s = Some s' → handlers s' !! h = Some x' →
  (∃ x, handlers s !! h = Some x ∧ h_key x' = h_key x ∧ h_req x' = h_req x) ∨
  ∃ rd r tr k m, Server.readers (sv s) !! rd = Some r ∧ Server.rd_pc r = Server.RLoop tr ∧
    h_key x' = Server.rd_key r ∧ Exchange.conns (ex s) !! tr = Some k ∧
    rp (Conn.near ServerSide k) = RSend m ∧ Exchange.as_request m = Some (h_req x') ∧
    session_exec (Exchange.OwnRead tr h) (ex s) = Some (ex s').
Proof.
  intros He Hx'.
  destruct (handlers_cases _ _ _ He) as [Heq|[(h0&x0&pc&Hx0&Heq&_)|(rd&r&tr&k&m&h0&q&Hn&Heq&?&?&?&?&?&?)]];
    rewrite Heq in Hx'; [by left; exists x'|apply lookup_insert_Some in Hx' as [[<- <-]|[_ Hx']]..].
  - left. by exists x0.
  - left. by exists x'.
  - right. by exists rd, r, tr, k, m.
  - left. by exists x'.
Qed.

(** A handler that waits for [s.mu]. *)
Lemma handler_waits a s s' h x b :
  exec a s = Some s' → unlocked s = false → handlers s !! h = Some x → h_pc x = HSend b →
  handlers s' !! h = Some x.
Proof.
  intros He Hu Hx Hpc.
  destruct (handlers_cases _ _ _ He) as [->|[(h0&x0&pc&Hx0&->&Hm)|(rd&r&tr&k&m&h0&q&Hn&->&_)]]; [done|..];
    rewrite lookup_insert_ne; try done; intros ->; [|congruence]. rewrite Hx in Hx0. injection Hx0 as <-.
  rewrite Hpc in Hm. congruence.
Qed.

Lemma session_write a x x' t i' :
  session_exec a x = Some x' → ServerCalls.invs (Exchange.calls x') !! t = Some i' →
  ServerCalls.i_pc i' = ServerCalls.IWrite →
  (∃ i, ServerCalls.invs (Exchange.calls x) !! t = Some i ∧ ServerCalls.i_pc i = ServerCalls.IWrite) ∨
  ∃ u, a = Exchange.Call (ServerCalls.Lookup t (Ok u)).
Proof.
  intros Hx Hi' Hpc. destruct (host_session_calls _ _ _ Hx) as [<-|(b&Hb&Ha)]; [by eauto|].
  destruct (ServerCalls.servercalls_writes _ _ _ _ _ Hb Hi' Hpc) as [?|[u ->]]; [by left|].
  destruct Ha as [->|Hf]; [|done]. right. by exists u.
Qed.

Lemma step_owner a s s' c t :
  inv s → exec a s = Some s' → Server.trs (sv s') !! c = Some t → Server.t_key t = owner c.
Proof.
  intros Hi He Ht. destruct (exec_cases _ _ _ He) as [(b&v&x&_&Hal&Hnum&_&Hv&_&->)|[(b&_&Hb)|[(t0&_&Hf)|(_&_&Hs)]]].
  - destruct (Pumps.server_trs_cases ParseCertificate _ _ _ Hal Hv) as [Heq|[(h&w&k&tr&->&Hw&Hpc&_&Heq)|[l Heq]]];
      simpl in Ht; rewrite Heq in Ht.
    + by apply (in_owner _ Hi).
    + apply lookup_insert_Some in Ht as [[<- <-]|[_ Ht]]; [|by apply (in_owner _ Hi)]. simpl.
      unfold numbered in Hnum. rewrite Hw in Hnum. simpl in Hnum. rewrite Hpc in Hnum.
      by apply bool_decide_eq_true in Hnum.
    + rewrite Server.close_all_lookup in Ht. case_decide; [|by apply (in_owner _ Hi)].
      apply fmap_Some in Ht as (t1&Ht1&->). exact (in_owner _ Hi _ _ Ht1).
  - apply exec_call_cases in Hb as (Hsv&_). rewrite Hsv in Ht. by apply (in_owner _ Hi).
  - apply find_cases in Hf as (Hsv&_). rewrite Hsv in Ht. by apply (in_owner _ Hi).
  - destruct Hs as [Heq|(b&Hb&_&Hk)]; [rewrite Heq in Ht; by apply (in_owner _ Hi)|].
    destruct (host_keys _ _ _ _ _ Hb Hk Ht) as (t1&Ht1&->). by apply (in_owner _ Hi).
Qed.

(** What [getTransport] finds under a key is a connection of that key. *)
Lemma lookup_own ks s k tr :
  reachable exec (init ks) s → inv s → Server.lookup_transport k (sv s) = Ok tr →
  is_Some (Exchange.conns (ex s) !! tr) ∧ owner tr = k.
Proof.
  intros Hr Hi Hl. destruct (host_pumps _ _ Hr) as [_ Hd]. unfold Server.lookup_transport in Hl.
  destruct (Server.connMgr (sv s)) as [cm|] eqn:Hc; [|done]. unfold ConnMgr.getTransport in Hl.
  destruct (ConnMgr.conns cm !! k) as [tr'|] eqn:Hk; simplify_eq.
  destruct (Server.iv_conn _ (host_server _ _ Hr) _ _ _ Hc Hk) as (t&Ht&<-).
  split; [|symmetry; by apply (in_owner _ Hi)]. rewrite <- elem_of_dom, Hd, elem_of_dom. by eexists.
Qed.

Lemma step_tr ks a s s' t c :
  reachable exec (init ks) s → inv s → exec a s = Some s' → trs s' !! t = Some c →
  is_Some (Exchange.conns (ex s') !! c) ∧
    ∃ id, Exchange.call_of (Exchange.calls (ex s')) t = Some (owner c, id).
Proof.
  intros Hr Hi He Hc.
  destruct (Exchange.exchange_kept ServerSide owner honest (ServerSession.serve svc) _ _ (host_exec_session _ _ _ He))
    as [Hkept Hcall].
  enough (is_Some (Exchange.conns (ex s) !! c) ∧ ∃ id, Exchange.call_of (Exchange.calls (ex s)) t = Some (owner c, id))
    as [[k Hk] [id Hid]].
  { destruct (Hkept _ _ Hk) as (k'&Hk'&_). split; [by eexists|]. exists id. by apply Hcall. }
  destruct (exec_cases _ _ _ He) as [(b&v&x&_&_&_&_&_&_&->)|[(b&_&Hb)|[(t0&_&Hf)|(Heq&_)]]].
  - by apply (in_tr _ Hi).
  - apply exec_call_cases in Hb as (_&Heq&_). rewrite Heq in Hc. by apply (in_tr _ Hi).
  - apply find_cases in Hf as (_&i&Hti&_&Heq). rewrite Heq in Hc.
    destruct (Server.lookup_transport _ _) as [tr| |] eqn:Hl; [|by apply (in_tr _ Hi)..].
    apply lookup_insert_Some in Hc as [[<- <-]|[_ Hc]]; [|by apply (in_tr _ Hi)].
    destruct (lookup_own _ _ _ _ Hr Hi Hl) as [Hk ->]. split; [done|]. exists (ServerCalls.i_key i).2. simpl.
    rewrite Hti. simpl. by destruct (ServerCalls.i_key i).
  - rewrite Heq in Hc. by apply (in_tr _ Hi).
Qed.

Lemma step_write a s s' t i' :
  inv s → exec a s = Some s' → ServerCalls.invs (Exchange.calls (ex s')) !! t = Some i' →
  ServerCalls.i_pc i' = ServerCalls.IWrite → is_Some (trs s' !! t).
Proof.
  intros Hi He Hi' Hpc.
  destruct (exec_cases _ _ _ He) as [(b&v&x&_&_&_&_&_&Hx&->)|[(b&_&Hb)|[(t0&_&Hf)|(Heq&Hs&_)]]].
  - simpl in *. rewrite (run_follow_calls _ _ _ _ Hx) in Hi'. by eapply (in_write _ Hi).
  - apply exec_call_cases in Hb as (_&Heq&Hx&Hn&_). rewrite Heq.
    destruct (session_write _ _ _ _ _ Hx Hi' Hpc) as [(i&Ht&Hp)|[u [= ->]]]; [by eapply (in_write _ Hi)|by destruct (Hn t (Ok u))].
  - apply find_cases in Hf as (_&i&_&Hx&Heq). rewrite Heq.
    destruct (session_write _ _ _ _ _ Hx Hi' Hpc) as [(i0&Ht&Hp)|[u [= -> Hu]]].
    + pose proof (in_write _ Hi _ _ Ht Hp) as Htr. destruct (Server.lookup_transport _ _); try done.
      destruct (decide (t0 = t)) as [->|]; [rewrite lookup_insert_eq; by eexists|by rewrite lookup_insert_ne].
    + destruct (Server.lookup_transport _ _); try done. rewrite lookup_insert_eq. by eexists.
  - rewrite Heq. destruct Hs as [Hs|(b&Hb&Has)]; [rewrite Hs in Hi'; by eapply (in_write _ Hi)|].
    destruct (session_write _ _ _ _ _ Hb Hi' Hpc) as [(i&Ht&Hp)|[u ->]]; [by eapply (in_write _ Hi)|done].
Qed.

Lemma step_handler ks a s s' h x :
  reachable exec (init ks) s → inv s → exec a s = Some s' → handlers s' !! h = Some x →
  ∃ c k m, Exchange.conns (ex s') !! c = Some k ∧ owner c = h_key x ∧
    m ∈ delivered (Conn.near ServerSide k) ∧ Exchange.as_request m = Some (h_req x).
Proof.
  intros Hr Hi He Hx.
  destruct (Exchange.exchange_kept ServerSide owner honest (ServerSession.serve svc) _ _ (host_exec_session _ _ _ He))
    as [Hkept _].
  destruct (host_exec_handlers _ _ _ _ _ He Hx)
    as [(x0&Hx0&->&->)|(rd&r&tr&k&m&Hrd&Hpc&Hkey&Hk&Hm&Hq&Hstep)].
  - destruct (in_handler _ Hi _ _ Hx0) as (c&k&m&Hk&Ho&Hm&Hq).
    destruct (Hkept _ _ Hk) as (k'&Hk'&Hpre). exists c, k', m. split_and!; [done..| |done].
    destruct (Hpre ServerSide) as [l ->]. apply elem_of_app. by left.
  - destruct (Server.iv_reader _ (host_server _ _ Hr) _ _ _ Hrd Hpc) as (t&Ht&Htk).
    effects Hstep as (k0&k'&m0&Hk0&_&Hk'&Hs). rewrite Hk in Hk0. injection Hk0 as <-.
    apply (Exchange.own_read_parts owner) in Hs as (Hc&_). exists tr, k', m. split_and!.
    + rewrite Hc. apply lookup_insert_eq.
    + rewrite Hkey, <- Htk. symmetry. by apply (in_owner _ Hi).
    + rewrite (Conn.conn_receive _ _ _ _ Hk' Hm), elem_of_app, list_elem_of_singleton. by right.
    + done.
Qed.

(** Callbacks run under it, too. *)
Lemma server_keeps_live b v v' c t :
  Server.exec ParseCertificate b v = Some v' → Pumps.takes_mu b v = false →
  Server.trs v !! c = Some t → Server.t_after t = false →
  ∃ t', Server.trs v' !! c = Some t' ∧ Server.t_after t' = false.
Proof.
  assert (∀ tr y, Server.trs v !! tr = Some y → Server.trs v !! c = Some t → Server.t_after t = false →
    ∃ t', <[tr := Server.mkTrans (Server.t_cert y) (Server.t_key y) (Server.t_closing y) true (Server.t_after y)]>
      (Server.trs v) !! c = Some t' ∧ Server.t_after t' = false) as Hdown.
  { intros tr y Hy Hc Ha. destruct (decide (tr = c)) as [->|]; [|rewrite lookup_insert_ne by done; by exists t].
    rewrite lookup_insert_eq. eexists. split; [done|]. by simplify_eq/=. }
  intros He Ht Hc Ha. destruct (Pumps.srv_alone b) eqn:Hs.
  - destruct (Pumps.server_trs_cases ParseCertificate b v v' Hs He) as [->|[(h&w&k&tr&->&_)|[l ->]]];
      [by exists t|done|]. rewrite Server.close_all_lookup, Hc. case_decide; eexists; done.
  - unfold Server.exec in He. destruct b; try done; apply bind_Some in He as (y&Hy&He).
    + unfold Server.exec_tr in He. injection He as <-. by apply Hdown.
    + unfold Server.exec_rd in He. destruct (Server.rd_pc y); try done. injection He as <-.
      exists t. unfold Server.dispatch. by repeat case_match.
Qed.

Lemma host_inv ks s : reachable exec (init ks) s → inv s.
Proof.
  apply (reachable_invariant_under exec (reachable exec (init ks)) inv (init ks)); [done| |].
  - split; simpl; intros; simplify_map_eq.
  - intros a s1 s2 Hr Hi He. split; intros.
    + by eapply step_owner.
    + by eapply step_tr.
    + by eapply step_write.
    + by eapply step_handler.
Qed.

(** ** A response handler that is stuck *)

(** What stays as it was in [s] once a response handler is stuck with [s.mu]. *)
Record wedged (s : sys) (t h : nat) (s' : sys) : Prop := mkWedged {
  wd_stuck : ServerCalls.stuck t h (Exchange.calls (ex s'));
  wd_conns : Server.connMgr (sv s') = Server.connMgr (sv s);
  wd_keys : Server.creds (sv s') = Server.creds (sv s) ∧ Server.hp (sv s') = Server.hp (sv s);
  wd_stops x pc : Server.stops (sv s') !! x = Some pc → Server.past_drop pc = true →
    ∃ pc0, Server.stops (sv s) !! x = Some pc0 ∧ Server.past_drop pc0 = true;
  wd_live c tr : Server.trs (sv s) !! c = Some tr → Server.t_after tr = false →
    ∃ tr', Server.trs (sv s') !! c = Some tr' ∧ Server.t_after tr' = false;
  wd_sends h0 x b : handlers s !! h0 = Some x → h_pc x = HSend b → handlers s' !! h0 = Some x;
  wd_calls t0 i : ServerCalls.invs (Exchange.calls (ex s)) !! t0 = Some i →
    ServerCalls.waits_lock (ServerCalls.i_pc i) = true →
    ServerCalls.invs (Exchange.calls (ex s')) !! t0 = Some i;
}.

Lemma calls_along x x' :
  reachable session_exec x x' → reachable ServerCalls.exec (Exchange.calls x) (Exchange.calls x').
Proof.
  induction 1 as [|x1 x2 x3 [a Ha] _ IH]; [apply rtc_refl|].
  destruct (host_session_calls _ _ _ Ha) as [<-|(b&Hb&_)]; [done|]. eapply rtc_l; [by exists b|done].
Qed.

Lemma host_calls ks s : reachable exec (init ks) s → ServerCalls.inv (Exchange.calls (ex s)).
Proof.
  intros Hr%host_session%ServerSession.server_session_calls. by apply ServerCalls.servercalls_reachable_inv.
Qed.

Lemma wedged_step ks s t h s1 a s2 :
  reachable exec (init ks) s1 → wedged s t h s1 → exec a s1 = Some s2 → wedged s t h s2.
Proof.
  intros Hr [Hst Hc Hk Hstop Hlive Hs Hcalls] He. pose proof (proj1 Hst) as Hm.
  pose proof (host_lock _ _ Hr _ Hm) as Hw.
  pose proof (host_calls _ _ Hr) as Hi. pose proof (calls_along _ _ (host_exec_session _ _ _ He)) as Hrun.
  assert (sv s2 = sv s1 ∨ ∃ b, Server.exec ParseCertificate b (sv s1) = Some (sv s2) ∧ Pumps.takes_mu b (sv s1) = false)
    as Hsv by by eapply held_step.
  assert (Server.connMgr (sv s2) = Server.connMgr (sv s1) ∧
    (Server.creds (sv s2) = Server.creds (sv s1) ∧ Server.hp (sv s2) = Server.hp (sv s1)) ∧
    ∀ x pc, Server.stops (sv s2) !! x = Some pc → Server.past_drop pc = true →
      ∃ pc0, Server.stops (sv s1) !! x = Some pc0 ∧ Server.past_drop pc0 = true) as (Hc2&[Hk2 Hp2]&Hstop2).
  { destruct Hsv as [->|(b&Hb&Ht)]; [by split_and!; eauto|].
    by destruct (server_waits _ _ _ Hb Ht Hw) as (_&->&->&->&?). }
  split.
  - by eapply ServerCalls.stuck_forever.
  - congruence.
  - destruct Hk as [<- <-]. done.
  - intros x pc Hx Hp. destruct (Hstop2 _ _ Hx Hp) as (pc1&Hx1&Hp1). by eapply Hstop.
  - intros c tr Htr Ha. destruct (Hlive _ _ Htr Ha) as (tr1&Htr1&Ha1).
    destruct Hsv as [->|(b&Hb&Ht)]; [by exists tr1|by eapply server_keeps_live].
  - intros h0 x b Hx Hpc. eapply handler_waits; [done| |by eapply Hs|done]. unfold unlocked. by rewrite Hm.
  - intros t0 i Ht0 Hpc. by eapply ServerCalls.stuck_waits_lock; [..|by apply Hcalls|].
Qed.

Lemma wedged_along ks s t h s' :
  reachable exec (init ks) s → ServerCalls.stuck t h (Exchange.calls (ex s)) → reachable exec s s' → wedged s t h s'.
Proof.
  intros Hr Hst Hrun. enough (∀ s1, wedged s t h s1 → reachable exec (init ks) s1 → reachable exec s1 s' → wedged s t h s') as H1.
  { apply (H1 s); try done. split; eauto. }
  clear Hrun. intros s1 Hw Hr1 Hrun. revert Hw Hr1. induction Hrun as [|s1 s2 s3 [a Ha] _ IH]; [done|]. intros Hw Hr1.
  apply IH; [by eapply wedged_step|]. eapply rtc_r; [done|by exists a].
Qed.

(** ** Where messages come from *)





(** ** A call to a connected client *)

(** A step of the session as one of the server, where [handleRead] number [rd] reads the
    connection of the call. *)
Definition lift (rd : nat) (a : Exchange.action (A:=call)) : action :=
  match a with
  | Exchange.Call a => Call a
  | Exchange.CallWrite t _ w => Write t w
  | Exchange.CallWritten t => Written t
  | Exchange.End c b => Wire c b
  | Exchange.OwnRead _ h => Read rd h
  | a => Serve a
  end.

(** The session's steps that are a step of the server in [s], but for what is received. *)
Definition liftable (a : Exchange.action (A:=call)) (s : sys) : Prop :=
  match a with
  | Exchange.Call a => (∀ t u, a ≠ ServerCalls.Lookup t u) ∧
      (writes_mu a = true → Server.may_write (sv s) = true)
  | Exchange.CallWrite t c _ => trs s !! t = Some c
  | Exchange.CallWritten _ => True
  | Exchange.End c a => wire_alone a = true ∧ ∀ b p, a = (ServerSide, b) → Pumps.shows c b p = None
  | Exchange.OwnRead _ _ | Exchange.Open _ => False
  | _ => True
  end.

Lemma host_lift_step rd a s x :
  died s = None → liftable a s → session_exec a (ex s) = Some x → exec (lift rd a) s = Some (set_ex x s).
Proof.
  intros Hd Hl Hx. unfold exec. rewrite Hd.
  destruct a as [a|c|t c w|t|c a|c h|h|h c w|h|c h]; cbn [lift liftable] in *; try done; try (by rewrite Hx).
  - destruct Hl as [Hn Hw]. unfold exec_call. destruct (writes_mu a) eqn:Ha.
    + rewrite (Hw eq_refl), Hx. by destruct a.
    + rewrite Hx. destruct a; try done. by destruct (Hn t found).
  - rewrite Hl. simpl. by rewrite Hx.
  - destruct Hl as [Ha Hs]. unfold exec_wire. rewrite Ha. assert (Hx' := Hx). effects Hx' as (_&k&_&Hk&_&_).
    rewrite Hk. simpl. rewrite Hx. simpl. destruct a as [[] b]; [done|]. by rewrite (Hs b).
Qed.

Lemma host_lift_run rd l s x :
  died s = None → Forall (λ a, liftable a s) l → run session_exec l (ex s) = Some x →
  run exec (lift rd <$> l) s = Some (set_ex x s).
Proof.
  intros Hd Hl. revert s Hd Hl. induction l as [|a l IH]; intros s Hd Hl Hx.
  - injection Hx as <-. by destruct s.
  - apply Forall_cons in Hl as [Ha Hl]. cbn [run] in Hx. apply bind_Some in Hx as (x1&Hx1&Hx).
    rewrite fmap_cons, (run_step _ _ _ _ _ (host_lift_step rd a s x1 Hd Ha Hx1)).
    by rewrite (IH (set_ex x1 s)).
Qed.

(** [handleRead] receives a message. *)
Lemma read_message_frame rd m v v' :
  Server.exec ParseCertificate (Server.ReadMessage rd m) v = Some v' →
  Server.connMgr v' = Server.connMgr v ∧ Server.handlers v' = Server.handlers v.
Proof.
  intros He. unfold Server.exec in He. apply bind_Some in He as (r&_&He). unfold Server.exec_rd in He.
  destruct (Server.rd_pc r); try done. injection He as <-. unfold Server.dispatch. by repeat case_match.
Qed.

Lemma read_step ks s rd r c h x :
  reachable exec (init ks) s → died s = None →
  Server.readers (sv s) !! rd = Some r → Server.rd_pc r = Server.RLoop c → handlers s !! h = None →
  session_exec (Exchange.OwnRead c h) (ex s) = Some x →
  ∃ s', exec (Read rd h) s = Some s' ∧ ex s' = x ∧ died s' = None ∧
    Server.connMgr (sv s') = Server.connMgr (sv s) ∧ Server.handlers (sv s') = Server.handlers (sv s) ∧
    sends s' = sends s ∧
    ∀ k m q, Exchange.conns (ex s) !! c = Some k → rp (Conn.near ServerSide k) = RSend m →
      Exchange.as_request m = Some q → handlers s' !! h = Some (mkHandler (Server.rd_key r) q HRun).
Proof.
  intros Hr Hd Hrd Hpc Hh Hx. assert (Hx' := Hx). effects Hx' as (k&k'&m&Hk&Hm&_).
  assert (∃ v, Server.exec ParseCertificate (Server.ReadMessage rd (Some m)) (sv s) = Some v) as [v Hv]
    by (unfold Server.exec; rewrite Hrd; simpl; unfold Server.exec_rd; rewrite Hpc; by eexists).
  assert (∃ s', exec (Read rd h) s = Some s' ∧ ex s' = x ∧ sv s' = v ∧ died s' = Server.crash v ∧ sends s' = sends s ∧
    ∀ q, Exchange.as_request m = Some q → handlers s' !! h = Some (mkHandler (Server.rd_key r) q HRun))
    as (s'&He&<-&<-&Hd'&Hsd&Hq).
  { unfold exec. rewrite Hd, Hrd. simpl. rewrite Hpc. unfold read. rewrite Hk. simpl. simpl in Hm. rewrite Hm, Hx. simpl.
    rewrite Hv. simpl. rewrite Hh. destruct (Exchange.as_request m); eexists; (split_and!; [done..|]); [|done].
    intros q [= <-]. apply lookup_insert_eq. }
  destruct (read_message_frame _ _ _ _ Hv) as [Hc Hw]. exists s'. split_and!; try done.
  - rewrite Hd'. apply (Server.iv_crash _ (host_server ks s' ltac:(eapply rtc_r; [done|by eexists]))).
  - intros k0 m0 q Hk0 Hm0. rewrite Hk in Hk0. injection Hk0 as <-. simpl in Hm, Hm0.
    rewrite Hm in Hm0. injection Hm0 as <-. apply Hq.
Qed.

(** A request and its answer up to the server's [handleRead]. *)
Definition before_read (t c w h w' : nat) (m m' : bytes) : list (Exchange.action (A:=call)) :=
  Exchange.request_actions ServerSide t c w h m ++
    Exchange.Handle h :: Exchange.Reply h c w' :: (Exchange.End c <$> Conn.carry_actions ClientSide w' m').

Lemma host_before_read_liftable s t c w h w' m m' :
  trs s !! t = Some c → Forall (λ a, liftable a s) (before_read t c w h w' m m').
Proof.
  intros Ht. repeat constructor; try done; intros b p [= <-]; simpl; by destruct (wp p).
Qed.

(** Steps of the session with one message received by [handleRead] in between. *)
Lemma host_lift_through ks s rd r c h l1 l2 x :
  reachable exec (init ks) s → died s = None → Server.may_write (sv s) = true →
  Server.readers (sv s) !! rd = Some r → Server.rd_pc r = Server.RLoop c → handlers s !! h = None →
  Forall (λ a, liftable a s) l1 → Forall (λ a, ∀ t u, a ≠ ServerCalls.Lookup t u) l2 →
  run session_exec (l1 ++ Exchange.OwnRead c h :: (Exchange.Call <$> l2)) (ex s) = Some x →
  ∃ acts s', run exec acts s = Some s' ∧ length acts = length l1 + S (length l2) ∧
    ex s' = x ∧ Server.connMgr (sv s') = Server.connMgr (sv s) ∧ died s' = None.
Proof.
  intros Hr Hd Hw Hrd Hpc Hh H1 H2 Hx. rewrite run_app in Hx. apply bind_Some in Hx as (x1&Hx1&Hx).
  cbn [run] in Hx. apply bind_Some in Hx as (x2&Hx2&Hx3).
  pose proof (host_lift_run rd l1 s x1 Hd H1 Hx1) as Hrun1.
  destruct (read_step ks (set_ex x1 s) rd r c h x2) as (s2&He&<-&Hd2&Hcm2&Hh2&_); try done.
  { etrans; [done|by eapply run_reachable]. }
  assert (Server.may_write (sv s2) = true) as Hw2 by (unfold Server.may_write; by rewrite Hh2).
  assert (Forall (λ a, liftable a s2) (Exchange.Call <$> l2)) as Hl2.
  { apply Forall_fmap. eapply Forall_impl; [done|]. intros a Ha. split; [done|by intros]. }
  pose proof (host_lift_run rd _ s2 x Hd2 Hl2 Hx3) as Hrun3.
  exists ((lift rd <$> l1) ++ Read rd h :: (lift rd <$> (Exchange.Call <$> l2))), (set_ex x s2).
  rewrite (run_then _ _ _ _ _ Hrun1), (run_step _ _ _ _ _ He), Hrun3.
  split_and!; [done| |done..]. by rewrite length_app, length_cons, !length_fmap.
Qed.

Lemma host_call_step a x y :
  ServerSession.server_alone a = true → ServerCalls.exec a (Exchange.calls x) = Some y →
  session_exec (Exchange.Call a) x = Some (Exchange.set_calls y (Exchange.new_request a x)).
Proof. intros Ha Hy. unfold ServerSession.exec, Exchange.exec. simpl. by rewrite Ha, Hy. Qed.

(** [Invoke] for a connected client, up to its [tr.Write]. *)
Lemma host_invoke_starts s cm c t ctx method args reply callID pub b :
  died s = None → unlocked s = true → Server.may_write (sv s) = true →
  Server.connMgr (sv s) = Some cm → ConnMgr.conns cm !! pub = Some c →
  ServerCalls.invs (Exchange.calls (ex s)) !! t = None →
  ServerCalls.fresh_id callID (Exchange.calls (ex s)) = true →
  ServerCalls.prepare ctx method args callID = Ok (pub, b) →
  ∃ s', run exec [Call (ServerCalls.Invoke t ctx method args reply callID); Call (ServerCalls.Register t);
      Find t] s = Some s' ∧
    sv s' = sv s ∧ died s' = None ∧ handlers s' = handlers s ∧ trs s' !! t = Some c ∧
    Exchange.conns (ex s') = Exchange.conns (ex s) ∧ unlocked s' = true ∧
    ServerCalls.invs (Exchange.calls (ex s')) !! t =
      Some (ServerCalls.mkInv (pub, callID) reply ServerCalls.IWrite) ∧
    ServerCalls.hands (Exchange.calls (ex s')) = ServerCalls.hands (Exchange.calls (ex s)) ∧
    Exchange.reqs (ex s') !! t = Some (Exchange.mkReq method args b None).
Proof.
  intros Hd Hu Hw Hcm Hc Hn Hf Hp. apply bool_decide_eq_true in Hu.
  set (cs := Exchange.calls (ex s)) in *. set (i := ServerCalls.mkInv (pub, callID) reply).
  set (c1 := ServerCalls.mkSys (ServerCalls.mu cs) (ServerCalls.table cs) (<[t := i ServerCalls.IRegister]> (ServerCalls.invs cs))
    (ServerCalls.hands cs)).
  set (x1 := Exchange.set_calls c1 (Exchange.set_req t (Exchange.mkReq method args b None) (ex s))).
  assert (exec (Call (ServerCalls.Invoke t ctx method args reply callID)) s = Some (set_ex x1 s)) as E1.
  { apply (host_lift_step 0 (Exchange.Call _)); [done|split; done|]. erewrite host_call_step with (y := c1); [|done|]; simpl.
    - unfold Exchange.new_request. simpl. by rewrite Hp.
    - fold cs. by rewrite Hf, Hn, Hp. }
  set (c2 := ServerCalls.set_inv t (i ServerCalls.IRegister) ServerCalls.ILookup
    (ServerCalls.set_table (ct_put (pub, callID) t (ServerCalls.table c1)) c1)).
  assert (exec (Call (ServerCalls.Register t)) (set_ex x1 s) = Some (set_ex (Exchange.set_calls c2 x1) s)) as E2.
  { apply (host_lift_step 0 (Exchange.Call _) (set_ex x1 s)); [done|split; done|]. erewrite host_call_step with (y := c2); [done|done|].
    simpl. rewrite lookup_insert_eq. simpl. unfold ServerCalls.unlocked. simpl. by rewrite Hu. }
  set (c3 := ServerCalls.set_inv t (i ServerCalls.ILookup) ServerCalls.IWrite c2).
  assert (exec (Find t) (set_ex (Exchange.set_calls c2 x1) s) =
    Some (set_tr t c (set_ex (Exchange.set_calls c3 (Exchange.set_calls c2 x1)) s))) as E3.
  { unfold exec. simpl. rewrite Hd. unfold find. simpl. rewrite lookup_insert_eq. simpl.
    unfold Server.lookup_transport. rewrite Hcm. unfold ConnMgr.getTransport. rewrite Hc. simpl.
    erewrite host_call_step with (y := c3); [done|done|]. simpl. rewrite lookup_insert_eq. simpl.
    unfold ServerCalls.unlocked. simpl. by rewrite Hu. }
  eexists. rewrite (run_step _ _ _ _ _ E1), (run_step _ _ _ _ _ E2), (run_step _ _ _ _ _ E3).
  split; [done|]. simpl. rewrite !lookup_insert_eq. unfold unlocked. simpl. by rewrite bool_decide_true.
Qed.

(** ** A request of a connected client *)

(** A message over a quiet connection, as steps of the session. *)
Lemma session_carry sd x c k w m :
  Exchange.conns x !! c = Some k → Conn.quiet k → writers (Conn.near sd k) !! w = None →
  Exchange.end_alone ServerSide owner honest c (sd, Transport.Write w m) = true →
  ∃ k1 k2 k3, session_exec (Exchange.End c (sd, Transport.Write w m)) x = Some (Exchange.set_conn c k1 x) ∧
    run session_exec (Exchange.End c <$> Conn.carry_actions sd w m) (Exchange.set_conn c k1 x) =
      Some (Exchange.set_conn c k2 (Exchange.set_conn c k1 x)) ∧
    w_pc <$> writers (Conn.near sd k2) !! w = Some WrOk ∧ rp (Conn.near (Conn.other sd) k2) = RSend m ∧
    Conn.exec (Conn.other sd, Receive) k2 = Some k3 ∧ Conn.quiet k3 ∧
    writers (Conn.near (Conn.other sd) k3) = writers (Conn.near (Conn.other sd) k).
Proof.
  intros Hk Hq Hw Ha. destruct (Conn.carry sd k w m Hq Hw) as (k1&k2&k3&H1&H2&Hok&Hm&H3&Hq3&Hws).
  exists k1, k2, k3. split; [|split; [|done]].
  - unfold ServerSession.exec, Exchange.exec. rewrite Hk. simpl. by rewrite Ha, H1.
  - apply (Exchange.end_run ServerSide owner honest (ServerSession.serve svc) _ _ k1);
      [apply Exchange.carry_alone|done|apply lookup_insert_eq].
Qed.

Lemma carry_liftable c sd w m s : Forall (λ a, liftable a s) (Exchange.End c <$> Conn.carry_actions sd w m).
Proof. destruct sd; repeat constructor; try done; intros b p [= <-]; simpl; by destruct (wp p). Qed.

Lemma other_envelope m q : Exchange.as_request m = Some q → Exchange.as_response m = None.
Proof. unfold Exchange.as_request, Exchange.as_response. by destruct (decode_envelope _) as [[[[]|]]| |]. Qed.

(** What [handleMessageRequest] sends is a response. *)
Lemma reply_no_request (info : option (Service.serviceInfo U Impl')) k q b :
  Service.server_handleMessageRequest uuid_Parse info k q = Ok (Some b) → Exchange.as_request (Exchange.carried b) = None.
Proof.
  intros (si&md&v&herr&msg&_&_&_&_&Hn&Hb)%Service.server_replies. apply bind_ok_inv in Hn as (pl&_&[= <-]).
  destruct (Exchange.as_request _) as [q'|] eqn:Hq'; [|done]. apply Exchange.as_request_carried in Hq'.
  by rewrite decode_envelope_eq, (unmarshal_message _ _ Hb) in Hq'.
Qed.

(** From the client's [Write] to the start of the handler. *)
Lemma request_arrives ks s rd r c k w h m q :
  reachable exec (init ks) s → died s = None →
  Server.readers (sv s) !! rd = Some r → Server.rd_pc r = Server.RLoop c → handlers s !! h = None →
  Exchange.conns (ex s) !! c = Some k → Conn.quiet k → writers (Conn.near ClientSide k) !! w = None →
  Exchange.as_request m = Some q →
  ∃ acts s' k', run exec acts s = Some s' ∧ length acts = 5 ∧ died s' = None ∧
    Server.connMgr (sv s') = Server.connMgr (sv s) ∧ Exchange.calls (ex s') = Exchange.calls (ex s) ∧
    sends s' = sends s ∧ Exchange.conns (ex s') !! c = Some k' ∧ Conn.quiet k' ∧
    writers (Conn.near ServerSide k') = writers (Conn.near ServerSide k) ∧
    handlers s' !! h = Some (mkHandler (Server.rd_key r) q HRun).
Proof.
  intros Hr Hd Hrd Hpc Hh Hk Hq Hw Hm.
  destruct (session_carry ClientSide (ex s) c k w m Hk Hq Hw) as (k1&k2&k3&E1&E2&_&Hrp&H3&Hq3&Hws).
  { unfold Exchange.end_alone. simpl. rewrite (other_envelope _ _ Hm). by destruct (honest _). }
  set (x1 := Exchange.set_conn c k1 (ex s)) in *. set (x2 := Exchange.set_conn c k2 x1) in *.
  assert (run session_exec (Exchange.End c <$> (ClientSide, Transport.Write w m) :: Conn.carry_actions ClientSide w m)
    (ex s) = Some x2) as Hx2 by (rewrite fmap_cons, (run_step _ _ _ _ _ E1); exact E2).
  assert (Forall (λ a, liftable a s) (Exchange.End c <$> (ClientSide, Transport.Write w m) :: Conn.carry_actions ClientSide w m))
    as Hl by (rewrite fmap_cons; apply Forall_cons; split; [done|apply carry_liftable]).
  pose proof (host_lift_run rd _ s x2 Hd Hl Hx2) as Hrun1.
  assert (session_exec (Exchange.OwnRead c h) x2 = Some (Exchange.set_conn c k3 x2)) as E3.
  { unfold ServerSession.exec, Exchange.exec. simpl. rewrite lookup_insert_eq. simpl. simpl in Hrp, H3. rewrite Hrp.
    rewrite H3. simpl. by rewrite (other_envelope _ _ Hm). }
  destruct (read_step ks (set_ex x2 s) rd r c h _ ltac:(etrans; [done|by eapply run_reachable]) Hd Hrd Hpc Hh E3)
    as (s'&He&Hx'&Hd'&Hc'&_&Hs'&Hh').
  exists ((lift rd <$> (Exchange.End c <$> (ClientSide, Transport.Write w m) :: Conn.carry_actions ClientSide w m)) ++ [Read rd h]), s', k3.
  rewrite (run_then _ _ _ _ _ Hrun1), (run_step _ _ _ _ _ He), Hx'. split_and!; try done.
  - simpl. apply lookup_insert_eq.
  - eapply Hh'; [simpl; apply lookup_insert_eq|done|done].
Qed.

(** From there to the reply at the client's end. *)
Lemma reply_goes s c k w h x b :
  died s = None → unlocked s = true → handlers s !! h = Some x → h_pc x = HRun →
  Service.server_handleMessageRequest uuid_Parse own (h_key x) (Some (h_req x)) = Ok (Some b) →
  Server.lookup_transport (h_key x) (sv s) = Ok c → sends s !! h = None →
  Exchange.conns (ex s) !! c = Some k → Conn.quiet k → writers (Conn.near ServerSide k) !! w = None →
  ∃ acts s' k', run exec acts s = Some s' ∧ length acts = 7 ∧ died s' = None ∧ sv s' = sv s ∧
    h_pc <$> handlers s' !! h = Some HDone ∧ Exchange.conns (ex s') !! c = Some k' ∧
    rp (Conn.near ClientSide k') = RSend (Exchange.carried b).
Proof.
  intros Hd Hu Hx Hpc Hb Hl Hs Hk Hq Hw.
  destruct (session_carry ServerSide (ex s) c k w (Exchange.carried b) Hk Hq Hw) as (k1&k2&k3&E1&E2&Hok&Hrp&_).
  { unfold Exchange.end_alone. simpl. by rewrite (reply_no_request _ _ _ _ Hb). }
  set (x1 := Exchange.set_conn c k1 (ex s)) in *. set (x2 := Exchange.set_conn c k2 x1) in *.
  set (s1 := set_handler h x (HSend b) s).
  assert (exec (HandlerRun h) s = Some s1) as R1.
  { unfold exec. rewrite Hd, Hx. simpl. unfold handleMessageRequest. by rewrite Hpc, Hb. }
  set (s2 := set_handler h x (HWrite c b) s1).
  assert (exec (HandlerSend h) s1 = Some s2) as R2.
  { unfold exec. simpl. rewrite Hd, lookup_insert_eq. simpl. rewrite (Hu : unlocked s1 = true). by rewrite Hl. }
  set (s3 := set_ex x1 (set_send h w s2)).
  assert (exec (ReplyWrite h w) s2 = Some s3) as R3.
  { unfold exec. simpl. rewrite Hd, lookup_insert_eq. simpl. by rewrite Hs, E1. }
  pose proof (host_lift_run 0 _ s3 x2 Hd (carry_liftable c ServerSide w (Exchange.carried b) s3) E2) as R4.
  set (s5 := set_handler h x HDone (set_ex x2 s3)).
  assert (exec (ReplyWritten h) (set_ex x2 s3) = Some s5) as R5.
  { unfold exec. simpl. rewrite Hd, !lookup_insert_eq. simpl. rewrite lookup_insert_eq. simpl.
    apply fmap_Some in Hok as (wr&Hwr&Hwpc). simpl in Hwr. rewrite Hwr. simpl. by rewrite <- Hwpc. }
  exists (HandlerRun h :: HandlerSend h :: ReplyWrite h w ::
    (lift 0 <$> (Exchange.End c <$> Conn.carry_actions ServerSide w (Exchange.carried b))) ++ [ReplyWritten h]), s5, k2.
  rewrite (run_step _ _ _ _ _ R1), (run_step _ _ _ _ _ R2), (run_step _ _ _ _ _ R3), (run_then _ _ _ _ _ R4),
    (run_step _ _ _ _ _ R5). simpl. rewrite !lookup_insert_eq. done.
Qed.

(** ** Theorems *)

(** C10: The server runs as its parts do alone: its calls, with its clients' handlers, as
    [ServerSession] says, over any number of connections at a time; its connections and
    their pumps as [Pumps] and [Server] say.  The connections are the transports it made,
    each under the key its handshake proved; an [Invoke] in [tr.Write] has one of its
    client's; and a request is handled under the key of a connection it was received on. *)
Theorem host_refines ks s :
  reachable exec (init ks) s →
  reachable session_exec ServerSession.init (ex s) ∧
  reachable (Pumps.exec ParseCertificate) (Pumps.init ks) (pumps_of s) ∧
  (∀ c, is_Some (Exchange.conns (ex s) !! c) ↔ ∃ t, Server.trs (sv s) !! c = Some t ∧ Server.t_key t = owner c) ∧
  (∀ t i, ServerCalls.invs (Exchange.calls (ex s)) !! t = Some i → ServerCalls.i_pc i = ServerCalls.IWrite →
    ∃ c, trs s !! t = Some c ∧ is_Some (Exchange.conns (ex s) !! c) ∧ owner c = (ServerCalls.i_key i).1) ∧
  ∀ h x, handlers s !! h = Some x → ∃ c k m, Exchange.conns (ex s) !! c = Some k ∧ owner c = h_key x ∧
    m ∈ delivered (Conn.near ServerSide k) ∧ Exchange.as_request m = Some (h_req x).
Proof.
  intros Hr. destruct (host_pumps _ _ Hr) as [Hp Hd]. pose proof (host_inv _ _ Hr) as [Ho Ht Hw Hh].
  split_and!; [by eapply host_session|done|..|done].
  - intros c. rewrite <- elem_of_dom, Hd, elem_of_dom. split; [intros [t Hc]; by eauto|intros (t&?&_); by eexists].
  - intros t i Hi Hpc. destruct (Hw _ _ Hi Hpc) as [c Hc]. exists c. destruct (Ht _ _ Hc) as [Hk [id Hid]].
    split_and!; [done..|]. simpl in Hid. rewrite Hi in Hid. by injection Hid as ->.
Qed.

(** C8: A request of a connected client, from its [Write] to the reply: when the manager
    has the client's connection, a [handleRead] listens to it, nothing else is going on
    on it, no response handler holds [s.mu], and the server's handler makes a reply of the
    request, the client's end has this reply after twelve steps, and the goroutine that
    handled the request is done. *)
Theorem host_serves ks s cm c rd r k m q b :
  reachable exec (init ks) s → died s = None → unlocked s = true →
  Server.connMgr (sv s) = Some cm → ConnMgr.conns cm !! owner c = Some c →
  Server.readers (sv s) !! rd = Some r → Server.rd_pc r = Server.RLoop c →
  Exchange.conns (ex s) !! c = Some k → Conn.quiet k →
  Exchange.as_request m = Some q →
  Service.server_handleMessageRequest uuid_Parse own (owner c) (Some q) = Ok (Some b) →
  ∃ acts s' h k', run exec acts s = Some s' ∧ length acts = 12 ∧ died s' = None ∧
    Server.connMgr (sv s') = Some cm ∧ h_pc <$> handlers s' !! h = Some HDone ∧
    Exchange.conns (ex s') !! c = Some k' ∧ rp (Conn.near ClientSide k') = RSend (Exchange.carried b).
Proof.
  intros Hr Hd Hu Hcm Hc Hrd Hpc Hk Hq Hm Hb.
  assert (Server.rd_key r = owner c) as Hkey.
  { destruct (Server.iv_reader _ (host_server _ _ Hr) _ _ _ Hrd Hpc) as (t&Ht&<-). by apply (in_owner _ (host_inv _ _ Hr)). }
  set (h := fresh (dom (handlers s) ∪ dom (sends s))). set (w := fresh (dom (writers (Conn.near ClientSide k)))).
  assert (h ∉ dom (handlers s) ∪ dom (sends s)) as Hfresh by apply is_fresh.
  apply not_elem_of_union in Hfresh as [Hh%not_elem_of_dom Hs%not_elem_of_dom].
  destruct (request_arrives ks s rd r c k w h m q) as (acts1&s1&k1&Hrun1&Hlen1&Hd1&Hcm1&Hca1&Hs1&Hk1&Hq1&Hw1&Hh1);
    try done; [apply not_elem_of_dom, is_fresh|].
  destruct (reply_goes s1 c k1 (fresh (dom (writers (Conn.near ServerSide k)))) h (mkHandler (Server.rd_key r) q HRun) b)
    as (acts2&s2&k2&Hrun2&Hlen2&Hd2&Hv2&Hh2&Hk2&Hrp2); try done; simpl; rewrite ?Hkey; try done.
  - unfold unlocked. rewrite Hca1. exact Hu.
  - unfold Server.lookup_transport. rewrite Hcm1, Hcm. unfold ConnMgr.getTransport. by rewrite Hc.
  - by rewrite Hs1.
  - simpl in Hw1. rewrite Hw1. apply not_elem_of_dom, is_fresh.
  - exists (acts1 ++ acts2), s2, h, k2. rewrite (run_then _ _ _ _ _ Hrun1), length_app, Hlen1, Hlen2, Hv2, Hcm1.
    by split_and!.
Qed.


(** C21: A response handler that is stuck with [s.mu] takes the whole server with it: from
    then on, whatever runs, no client is registered or dropped, the keys stay the same, no
    callback of a connection runs, no reply that is ready is sent, and no call that is
    registering or looking its transport up goes on.  A [Stop] returns only if it already
    had taken the manager away and every connection's callback had run by then: none
    does while the manager is there, those called later included. *)
Theorem host_wedged ks s t h s' :
  reachable exec (init ks) s → ServerCalls.stuck t h (Exchange.calls (ex s)) → reachable exec s s' →
  Server.connMgr (sv s') = Server.connMgr (sv s) ∧
  Server.allowed_now (sv s') = Server.allowed_now (sv s) ∧
  (∀ c tr, Server.trs (sv s) !! c = Some tr → Server.t_after tr = false →
     ∃ tr', Server.trs (sv s') !! c = Some tr' ∧ Server.t_after tr' = false) ∧
  (∀ x, Server.stops (sv s') !! x = Some Server.SReturned →
     Server.connMgr (sv s) = None ∧ (∃ pc, Server.stops (sv s) !! x = Some pc ∧ Server.past_drop pc = true) ∧
     ∀ c tr, Server.trs (sv s) !! c = Some tr → Server.t_after tr = true) ∧
  (∀ h0 x b, handlers s !! h0 = Some x → h_pc x = HSend b → handlers s' !! h0 = Some x) ∧
  ∀ t0 i, ServerCalls.invs (Exchange.calls (ex s)) !! t0 = Some i →
    ServerCalls.i_pc i = ServerCalls.IRegister ∨ ServerCalls.i_pc i = ServerCalls.ILookup →
    ServerCalls.invs (Exchange.calls (ex s')) !! t0 = Some i.
Proof.
  intros Hr Hst Hrun. destruct (wedged_along _ _ _ _ _ Hr Hst Hrun) as [_ Hc [Hk Hp] Hstop Hlive Hs Hcalls].
  split_and!; [done|unfold Server.allowed_now; by rewrite Hk, Hp|done| |done|].
  - intros x Hx. destruct (Hstop _ _ Hx) as (pc0&Hx0&Hp0); [done|].
    split; [by apply (Server.iv_stop _ (host_server _ _ Hr) _ _ Hx0)|]. split; [by exists pc0|].
    intros c tr Htr. apply not_false_iff_true. intros Ha. destruct (Hlive _ _ Htr Ha) as (tr'&Htr'&Ha').
    assert (reachable exec (init ks) s') as Hr' by by etrans.
    rewrite (proj1 (Server.live_empty _) (Server.iv_ret _ (host_server _ _ Hr') _ Hx) _ _ Htr') in Ha'. done.
  - intros t0 i Hi Hpc. apply Hcalls; [done|]. by destruct Hpc as [->| ->].
Qed.

(** C22: What becomes of a reply that is ready, when [s.mu] is free: while its client is
    connected it goes to a connection of the client's own key; once the client is gone it
    is dropped; and once [Stop] has taken the manager away, as it has when it returns,
    looking for the connection crashes the process. *)
Theorem host_reply ks s h x b :
  reachable exec (init ks) s → died s = None → unlocked s = true →
  handlers s !! h = Some x → h_pc x = HSend b →
  (∀ y, Server.stops (sv s) !! y = Some Server.SReturned → Server.connMgr (sv s) = None) ∧
  ∃ s', exec (HandlerSend h) s = Some s' ∧
    match Server.connMgr (sv s) with
    | None => died s' = Some NilDeref
    | Some cm => died s' = None ∧
        match ConnMgr.conns cm !! h_key x with
        | Some tr => h_pc <$> handlers s' !! h = Some (HWrite tr b) ∧
            is_Some (Exchange.conns (ex s') !! tr) ∧ owner tr = h_key x
        | None => h_pc <$> handlers s' !! h = Some HDone
        end
    end.
Proof.
  intros Hr Hd Hu Hx Hpc. split.
  { intros y Hy. by apply (Server.iv_stop _ (host_server _ _ Hr) _ _ Hy). }
  pose proof (λ tr, lookup_own ks s (h_key x) tr) as Hown.
  unfold exec. rewrite Hd, Hx. simpl. unfold handleMessageRequest. rewrite Hpc, Hu.
  eexists. split; [done|]. unfold Server.lookup_transport in *.
  destruct (Server.connMgr (sv s)) as [cm|]; [|done]. unfold ConnMgr.getTransport in *.
  destruct (ConnMgr.conns cm !! h_key x) as [tr|]; simpl; rewrite lookup_insert_eq; [|done].
  destruct (Hown tr Hr (host_inv _ _ Hr) eq_refl) as [? ?]. done.
Qed.

(** C7: A call to a connected client, from the start of [Invoke] to its return: when the
    manager has a connection under the client's key that a [handleRead] listens to and on
    which nothing else is going on, nobody holds [s.mu], and the client has an answer to
    the request, a new [Invoke] returns with that answer after eighteen steps of the
    goroutines involved, and the manager is as it was. *)
Theorem host_call_completes ks s cm c rd r k t ctx method args reply callID pub b rq rb p :
  reachable exec (init ks) s → died s = None → unlocked s = true → Server.may_write (sv s) = true →
  Server.connMgr (sv s) = Some cm → ConnMgr.conns cm !! pub = Some c →
  Server.readers (sv s) !! rd = Some r → Server.rd_pc r = Server.RLoop c →
  Exchange.conns (ex s) !! c = Some k → Conn.quiet k →
  ServerCalls.invs (Exchange.calls (ex s)) !! t = None →
  ServerCalls.fresh_id callID (Exchange.calls (ex s)) = true →
  ServerCalls.prepare ctx method args callID = Ok (pub, b) →
  decode_envelope b = Ok (mkMessage (Some (Message_Request rq))) →
  ServerSession.serve svc pub rq = Ok (Some rb) →
  decode_envelope rb = Ok (mkMessage (Some (Message_Response p))) →
  ∃ acts s' i', run exec acts s = Some s' ∧ length acts = 18 ∧
    ServerCalls.invs (Exchange.calls (ex s')) !! t = Some i' ∧
    ServerCalls.i_pc i' = ServerCalls.IGot p (ServerCalls.finish p reply) ∧
    Server.connMgr (sv s') = Some cm ∧ died s' = None.
Proof.
  intros Hr Hd Hu Hw Hcm Hc Hrd Hrpc Hk Hq Hn Hf Hp Hdec Hb Hrb.
  destruct (lookup_own ks s pub c) as [_ Hown]; [done|by eapply host_inv| |].
  { unfold Server.lookup_transport. rewrite Hcm. unfold ConnMgr.getTransport. by rewrite Hc. }
  destruct (host_invoke_starts s cm c t ctx method args reply callID pub b Hd Hu Hw Hcm Hc Hn Hf Hp)
    as (s1&Hrun1&Hv1&Hd1&Hh1&Ht1&Hc1&Hu1&Hi1&Hhd1&Hrq1).
  assert (reachable exec (init ks) s1) as Hr1 by (etrans; [done|by eapply run_reachable]).
  set (x := ex s1) in *. set (h' := fresh (dom (ServerCalls.hands (Exchange.calls x)) ∪ dom (handlers s1))).
  assert (h' ∉ dom (ServerCalls.hands (Exchange.calls x)) ∪ dom (handlers s1)) as Hfresh by apply is_fresh.
  apply not_elem_of_union in Hfresh as [Hfh%not_elem_of_dom Hfs%not_elem_of_dom].
  apply bool_decide_eq_true in Hu1.
  destruct (ServerSession.server_call_run owner honest svc x c k t
    (ServerCalls.mkInv (pub, callID) reply ServerCalls.IWrite) (Exchange.mkReq method args b None) rq rb p h')
    as (w&h&w'&x'&i'&Hrun2&Hi'&Hpc'); try done; [by eapply host_session|by rewrite Hc1|by rewrite Hown|].
  destruct (host_lift_through ks s1 rd r c h' _
    [ServerCalls.HandlerLock h'; ServerCalls.Receive t h'; ServerCalls.HandlerUnlock h'] x'
    Hr1 Hd1 ltac:(by rewrite Hv1) ltac:(by rewrite Hv1) Hrpc Hfs (host_before_read_liftable s1 t c w h w' _ _ Ht1)
    ltac:(by repeat constructor) Hrun2) as (acts&s'&Hrun5&Hlen5&Hx5&Hcm5&Hd5).
  eexists (_ ++ acts), s', i'. rewrite (run_then _ _ _ _ _ Hrun1), Hx5.
  split_and!; [done| |done|done|by rewrite Hcm5, Hv1|done]. by rewrite length_app, Hlen5.
Qed.
End Host.
(** ** Witnesses: the echo service of [Rpc] at both ends, client [k1] *)

Abbreviation w_sys := (sys (U:=Toy.U) (T:=Methods.MethodCalls nat)).
Abbreviation w_action := (action (U:=Toy.U)).

Definition w_owner (c : nat) : bytes := if decide (c = 10) then Server.k1 else Server.k2.
Definition w_svc (_ : bytes) : option (Service.serviceInfo Toy.U ()) := Service.register Rpc.w_sd tt.
Definition w_exec : w_action → w_sys → option w_sys :=
  exec w_owner (λ _, true) w_svc Server.w_parse Rpc.w_uuid (Service.register Rpc.w_sd tt).
Definition w_init : w_sys := init [Server.k1; Server.k2].
Definition w_carry (sd : side) (w : nat) (b : slice) : list w_action :=
  Wire 10 <$> Conn.carry_actions sd w (Exchange.carried b).

(** The client connects; and sends a request, whose reply is ready. *)
Definition w_up : list w_action := Srv <$> (Server.w_connect 1 Server.k1 10 ++ [Server.ReadStart 10]).
Definition w_asked : list w_action :=
  w_up ++ Wire 10 (ClientSide, Transport.Write 1 (Exchange.carried Rpc.w_request)) ::
  w_carry ClientSide 1 Rpc.w_request ++ [Read 10 3; HandlerRun 3].
(** [Stop] closes the connection and returns. *)
Definition w_stopped : list w_action :=
  w_asked ++ (Srv <$> Server.w_stop 1) ++
  [Wire 10 (ServerSide, PumpEvent (PClosed true)); Wire 10 (ServerSide, PumpEvent PLingered);
   Wire 10 (ServerSide, PumpEvent PDefer); Wire 10 (ServerSide, PumpEvent PDefer); Srv (Server.StopStep 1)].
(** A call whose context ends before its response gets to it. *)
Definition w_ctx : Peer.Context := Peer.NewCallContext Peer.Background Server.k1.
Definition w_late : list w_action :=
  w_asked ++ [Call (ServerCalls.Invoke 1 w_ctx "Ping" (toy_user "hi") (toy_user "") "id1");
    Call (ServerCalls.Register 1); Find 1; Write 1 7] ++ w_carry ServerSide 7 Rpc.w_request ++
  [Written 1; Serve (Exchange.PeerRead 10 2); Serve (Exchange.Handle 2); Serve (Exchange.Reply 2 10 8)] ++
  w_carry ClientSide 8 Rpc.w_reply ++
  [Call (ServerCalls.CtxDone 1 "deadline"); Read 10 4; Call (ServerCalls.HandlerLock 4)].

Definition w_up_state : w_sys := final w_exec w_up w_init.
Definition w_asked_state : w_sys := final w_exec w_asked w_init.
Definition w_stopped_state : w_sys := final w_exec w_stopped w_init.
Definition w_late_state : w_sys := final w_exec w_late w_init.
Definition w_handler : handler := mkHandler Server.k1 ServerSession.w_rq (HSend Rpc.w_reply).
Definition w_cm (s : w_sys) : ConnMgr.connectionsManager :=
  default ConnMgr.newConnectionsManager (Server.connMgr (sv s)).
Lemma host_refines_witness :
  reachable (ServerSession.exec w_owner (λ _, true) w_svc) ServerSession.init (ex w_late_state) ∧
  ∃ c k m, Exchange.conns (ex w_late_state) !! c = Some k ∧ w_owner c = Server.k1 ∧
    m ∈ delivered (Conn.near ServerSide k) ∧ Exchange.as_request (U:=Toy.U) m = Some ServerSession.w_rq.
Proof.
  destruct (host_refines w_owner (λ _, true) w_svc Server.w_parse Rpc.w_uuid (Service.register Rpc.w_sd tt)
    Server.toy_no_panic [Server.k1; Server.k2] w_late_state) as (Hs&_&_&_&Hh); [at_state|].
  split; [exact Hs|]. apply (Hh 3 w_handler). at_state.
Defined.

Lemma host_serves_witness :
  ∃ acts s' h k', run w_exec acts w_up_state = Some s' ∧ h_pc <$> handlers s' !! h = Some HDone ∧
    Exchange.conns (ex s') !! 10 = Some k' ∧
    rp (Conn.near ClientSide k') = RSend (Exchange.carried Rpc.w_reply).
Proof.
  destruct (host_serves w_owner (λ _, true) w_svc Server.w_parse Rpc.w_uuid (Service.register Rpc.w_sd tt)
    Server.toy_no_panic [Server.k1; Server.k2] w_up_state (w_cm w_up_state) 10 10
    (Server.mkReader Server.k1 10 (Server.RLoop 10)) Conn.init (Exchange.carried Rpc.w_request) ServerSession.w_rq
    Rpc.w_reply) as (acts&s'&h&k'&Hrun&_&_&_&Hh&Hk&Hrp);
    [at_state|at_state|at_state|at_state|at_state|at_state|at_state|at_state|by intros []|at_state..|].
  exists acts, s', h, k'. split_and!; [exact Hrun|exact Hh|exact Hk|exact Hrp].
Defined.


Lemma host_wedged_witness :
  (∀ x, Server.stops (sv w_late_state) !! x ≠ Some Server.SReturned) ∧
  handlers w_late_state !! 3 = Some w_handler.
Proof.
  destruct (host_wedged w_owner (λ _, true) w_svc Server.w_parse Rpc.w_uuid (Service.register Rpc.w_sd tt)
    Server.toy_no_panic [Server.k1; Server.k2] w_late_state 1 4 w_late_state)
    as (_&_&_&Hstop&Hs&_); [at_state| |apply rtc_refl|].
  - split; [at_state|]. split.
    + eexists. split; at_state.
    + eexists. split; at_state.
  - split; [|apply (Hs 3 w_handler Rpc.w_reply); at_state].
    intros x Hx. destruct (Hstop x Hx) as [Hc _].
    assert (Server.connMgr (sv w_late_state) = Some (w_cm w_late_state)) as Hcm by at_state.
    rewrite Hcm in Hc. discriminate Hc.
Defined.

Lemma host_reply_witness :
  ∃ s', w_exec (HandlerSend 3) w_stopped_state = Some s' ∧ died s' = Some NilDeref.
Proof.
  destruct (host_reply w_owner (λ _, true) w_svc Server.w_parse Rpc.w_uuid (Service.register Rpc.w_sd tt)
    Server.toy_no_panic [Server.k1; Server.k2] w_stopped_state 3 w_handler Rpc.w_reply)
    as (Hstop&s'&He&Hs); [at_state..|]. specialize (Hstop 1).
  assert (Server.connMgr (sv w_stopped_state) = None) as Hc by (apply Hstop; at_state).
  rewrite Hc in Hs. exists s'. split; [exact He|exact Hs].
Defined.

Lemma host_call_completes_witness :
  ∃ acts s' i', run w_exec acts w_up_state = Some s' ∧
    ServerCalls.invs (Exchange.calls (ex s')) !! 1 = Some i' ∧
    ServerCalls.i_pc i' = ServerCalls.IGot ServerSession.w_resp ServerSession.w_out.
Proof.
  destruct (host_call_completes w_owner (λ _, true) w_svc Server.w_parse Rpc.w_uuid (Service.register Rpc.w_sd tt)
    Server.toy_no_panic [Server.k1; Server.k2] w_up_state (w_cm w_up_state) 10 10
    (Server.mkReader Server.k1 10 (Server.RLoop 10)) Conn.init 1 w_ctx "Ping" (toy_user "hi") (toy_user "") "id1"
    Server.k1 Rpc.w_request ServerSession.w_rq Rpc.w_reply ServerSession.w_resp)
    as (acts&s'&i'&Hrun&_&Hi&Hpc&_); 
    [at_state|at_state|at_state|at_state|at_state|at_state|at_state|at_state|at_state|by intros []|at_state..|].
  exists acts, s', i'. split_and!; [exact Hrun|exact Hi|exact Hpc].
Defined.
End Host.
